(* ===== verification/_CoqProject ===== *)
-Q . S2P
Prelude.v
Binary.v
OrderedMap.v
Value.v
Observer.v
ObserverSpec.v
Double.v
DoubleOrder.v
Chars.v
Json.v
Console.v
SqlSyntax.v
SqlParser.v
SqlReadBack.v
Codec.v
Storage.v
NativeFile.v
Journal.v
Recovery.v
Damage.v
Snapshot.v
SnapshotImage.v
Cache.v
Heap.v
Concurrency.v
HeapSpec.v
Power.v
PowerSpec.v
ConcurrencySpec.v
ConcurrencyInvariant.v
Transaction.v
TransactionSpec.v
Quiet.v
Cli.v
SqlInterpreter.v
SqlShell.v
CodecTheorems.v
JournalTheorems.v
StoreTheorems.v
HeapTheorems.v
PowerTheorems.v
ConcurrencyTheorems.v
ConcurrencyIntegrity.v
TransactionTheorems.v
SqlSpec.v
SqlTypes.v
SqlOrder.v
SqlTheorems.v
JsonTheorems.v
NativeTheorems.v
SqlShellTheorems.v
Sessions.v
CacheFrames.v
CliTheorems.v
Simulation.v
Credentials.v
Monitor.v
CredentialsSpec.v
RateTheorems.v
CredentialsTheorems.v
Http.v
HttpTheorems.v
MonitorTheorems.v
Fuzz.v
FuzzTheorems.v
Fault.v
FaultTheorems.v
WindowsFile.v
WindowsTheorems.v
Workers.v
Storm.v
StormTheorems.v
LargePayload.v
LargePayloadTheorems.v
Stress.v
StressTheorems.v
Churn.v
ChurnSpec.v
ChurnTheorems.v
Programs.v
