(* ===== verification/Prelude.v ===== *)
(** * opheap: a verification library

    opheap is an embedded persistent heap: a program keeps trees of dynamic values under named
    roots, edits them through references inside transactions, and commits the roots that changed
    to a write-ahead journal, which checkpoints fold into a snapshot.  Two front ends, a
    command-line client and a SQL shell, work on such a heap, and so do two larger examples, a
    credential service behind HTTP and a storage that reports its calls; a stress program runs random
    histories, injected faults, large data and racing threads against it.  This library models the
    header-only C++ code under [src/libraries/], the examples under [src/examples/] and the stress
    program under [src/stress/], and proves what their parts promise to one another.

    ** The parts of the program and the files that model them

    In what follows [core] is [libraries/libopheap-core/include/opheap], [sql] is
    [libraries/libopheap-module-sql/include/opheap/module/sql], [cli] and [json] likewise.

    - Prelude: errors (the exception types), the state and exception monad [M], machine integers,
      bytes, lists.
    - Binary: [core/detail/writer.hpp], [reader.hpp], [crc32c.hpp].  Codec: the codecs of values,
      scalars, vectors and maps; [codec_laws] is the interface between a codec and its users.
    - OrderedMap, Value: [std::map] as a sorted list, the content of values.  Observer: the trees
      that are edited, with the bindings by which a change reaches its transaction ([core/value.hpp],
      [string.hpp], [vector.hpp], [map.hpp], [observable.hpp]).  ObserverSpec: a language of edits,
      its meaning on plain values, and the refinement between the two.
    - Storage: [core/storage_file.hpp], [storage_backend.hpp] as the class [storage]; its laws
      [storage_laws] (what a call may have changed, whether it returns or throws) and
      [storage_reliable]; the model [Disk] with a page cache and injected faults, which satisfies
      both.  Power: [storage_durable], what survives a power failure (of bytes that were appended and
      not synced, anything), and that [Disk] honours it.
      NativeFile, WindowsFile: the two halves of [core/detail/native_file.hpp] and
      [native_storage_backend.hpp], over the system calls of POSIX and of Windows as interfaces.
    - Journal: [core/detail/journal.hpp] and its formats.  Recovery: recovery as a function of the
      file's bytes.  Damage: what it makes of bytes that no append wrote, and which of them its checks
      detect.  Snapshot, SnapshotImage: [core/detail/snapshot.hpp] and its formats, saving
      and loading as functions of bytes.  Cache: [core/detail/cache.hpp].
    - Heap: [core/detail/heap_state.hpp], [heap.hpp].  HeapSpec: the abstract heap, a map from
      names to versioned payloads, and what each operation does to it under every fault.
      PowerSpec: the same under power failures.
    - Concurrency: the sections between the lock operations of [core/detail/heap_state.hpp], and a
      step relation of threads whose sections interleave as [commit_mutex] and [roots_mutex] allow.
      [integrity], which takes no lock, is cut between its calls of the stores and, where it scans the
      journal, between the single calls of the file.
      ConcurrencySpec: the abstract heap with atomic operations that such threads observe.
      ConcurrencyInvariant: the invariant of executions, section by section.
    - Transaction: [core/transaction.hpp].  TransactionSpec, Quiet: what a transaction does before
      its commit.
    - SqlSyntax, SqlParser: the scanner, the splitter and the parser of SQL.  SqlReadBack: a printer
      of statements, and that scanner and parser invert it.  Double, Chars:
      [double] on bit patterns, character classes.  DoubleOrder: the values of doubles, and that the
      comparison of bit patterns is their order.  SqlInterpreter: [sql/interpreter.hpp] and its
      helpers.  SqlSpec, SqlTypes: what statements do to rows, and the types of columns.  SqlOrder: when a
      condition holds for a row and which row comes first, without the interpreter's functions.
      SqlShell: [sql/run.hpp] and the printing of tables.
    - Json: [json/json_parser.hpp], [write_json.hpp], [write_string.hpp].
    - Console, Cli: the standard streams, the commands of [cli/].
    - Sessions: what any client of a heap relies on, from the begin of a transaction to its commit,
      as one step on the abstract heap.
    - Credentials: [examples/beast_credentials/src/credential_service.cpp], [password_kdf.cpp], over
      libsodium as an interface.  CredentialsSpec: what its transactions do to the record of a
      principal.  Http: [http_router.cpp] and [run_session] of [main.cpp], over Boost.Beast and
      Boost.JSON as interfaces.
    - Simulation: storages that behave alike, and that everything built on them then does.
      Monitor: [examples/monitor.cpp], the storage that reports and counts its calls, and the
      program.  CacheFrames: properties of the payload cache that every operation of the heap keeps,
      and the count of evictions.
    - Fuzz: [stress/scenarios/model_fuzz.cpp], a random history on a heap beside the values it should
      hold, over a random number generator as an interface.  Fault: [core/testing/fault_*.hpp], the
      storage that fails by plan, and [fault_fuzz.cpp].  LargePayload: [large_payload.cpp].
      Workers: what a program can rely on whose threads make calls beside those of file Concurrency.
      Storm: [conflict_storm.cpp].  Churn, ChurnSpec: [concurrent_churn.cpp], and the map its writers
      leave.  Stress: [stress/support.hpp] and [main.cpp], the registry of scenarios, its selection
      and its report.
    - Programs: [examples/basic.cpp] and the front ends under [applications/].

    State is explicit: an operation of a component is a function in [M s], where [s] is the record of
    the component's fields paired with the state of what it calls ([heap_state * W] for the heap
    over a storage [W], [transaction * (heap_state * W)] for a transaction over it); an exception is
    the value [Throw e], and the state it leaves is kept.  Names follow the source.  The heap
    and everything above it are proved against the classes [storage_laws] and [storage_reliable], so
    that they hold for every storage that honours them.

    ** What the theorems show

    - HeapTheorems: a commit is atomic and rejects stale versions, committed roots survive closing
      and opening, opening and checkpoints do not change what the storage recovers to, under any
      faults, as long as a commit does not use the id of a transaction whose unfinished records
      are still in the journal ([successful_commit_bricks_heap] shows what happens otherwise; all
      theorems about commits ask for it).  PowerTheorems: the same under power failures, for a heap
      whose files were checkpointed once (a commit that the power interrupts may also leave bytes that
      opening refuses); and that before the first checkpoint a commit in strict mode can be lost.
    - ConcurrencyTheorems: the heap behaves as if commits and loads of different threads were
      atomic, no update is lost, no state deadlocks; and conflicts are per root, so that write skew
      is possible.  ConcurrencyIntegrity: integrity checks that overlap with commits pass; one that
      overlaps with the end of a checkpoint may not.
    - JournalTheorems, StoreTheorems: the journal gives back what was appended, ignores torn tails,
      always terminates; saving a snapshot is atomic and loading inverts it; the cache never
      follows a dangling iterator and evicts no more than it must.
    - TransactionTheorems: every edit is tracked, what is committed is read back.
    - CodecTheorems, JsonTheorems: decoding inverts encoding, any input decodes or is rejected with
      the documented error, without a read past its end and without asking memory for more elements
      than it has bytes; checksums detect a changed byte.
    - NativeTheorems: the loops of the native file read and write whole ranges whatever
      interruptions and short transfers the kernel answers with, and end unless it interrupts them
      for ever.
    - SqlTheorems: the parser terminates and inverts a printer of statements, tables stay typed, each
      statement does to the rows what its specification says and commits once.
      SqlShellTheorems, CliTheorems: the shell runs the statements of the script, in order; a
      written root is what is printed; readers keep the roots.
    - RateTheorems: no client gets more attempts in a window than its policy allows, and pruning old
      windows cannot be observed.  CredentialsTheorems, HttpTheorems: a provisioned secret
      verifies and only that one does, a removed credential is rejected, rejections do not tell
      why and cost a password verification each, refused requests change nothing; over any reliable
      storage and any library that honours the laws of password hashing.
    - WindowsTheorems: the same for the Windows half, with what a failed write may leave there.
    - FuzzTheorems, FaultTheorems, LargePayloadTheorems, StressTheorems: the stress program never
      fails on reliable storage, for any arguments, seeds and draws; after an injected fault a new
      process reads exactly the last commit that counts.  StormTheorems: threads that race for one root
      end after a bounded number of steps under every schedule, and every increment counts once.
      ChurnTheorems: writers, readers and a checkpointer at once: no commit of a writer conflicts, no
      reader finds a torn root, and in the end every root holds what was written last.
    - MonitorTheorems: watching a storage changes nothing and reports exactly its calls; a second
      load of a root makes no call; only roots that were touched are in the cache.
    - Theorems about behaviour that is probably not meant: a removed credential that a concurrent
      login restores, requests that end the server when they overlap, an integrity check under which a
      checkpoint empties the journal, transaction ids that are used again
      after a restart, a checkpoint that fails half-way, a damaged length field, a transaction that
      is moved, a new heap before its first checkpoint.

    ** Fuel and bounds

    Loops whose end depends on data take fuel that is enough by a theorem: recovery takes the size of
    the journal (every turn consumes a frame header), the parsers the number of tokens or
    characters, the copy loop of a snapshot the size of the payload.  The loops of the native file
    may be interrupted any number of times, also without end; their fuel is a parameter, and the
    theorems say how many of the calls were interrupted when it does not suffice.  What C++ leaves
    undefined and the model reaches is the error [undefined]: a read past the end of a span, a sort
    whose comparison is no strict weak order.  Memory that a decoder reserves is limited by a
    parameter, [std::bad_alloc] beyond it.  Integers are [Z] with the wrap-around of the source
    written out ([u64]); the theorems that need room say so (sequence numbers below 2^64, at most
    10,000,000 roots in a snapshot).

    ** What is not modelled

    Outside the Concurrency files operations are single steps, and threads are proved correct on
    storage that does not fail.  A call of the storage is one step there too: an append that the scan
    of another thread's [integrity] sees half written is left out.  Memory resources and the parent
    pointers of nodes.  The programs under [benchmarks/], which measure time, and of the HTTP server
    its arguments and its sockets.  The output a failed [write_json] has already written.
    [std::stable_sort] is an insertion sort where its comparison is a strict weak order.  Recursion
    deeper than the stack is left out.
    The native storage is proved against the documented contract of a file, not as an instance of
    the class [storage]: the laws of that class speak of the whole state of the disk, which the
    interface of the system calls leaves open; and on Windows a failed append may leave more than the
    prefix of the data that those laws allow. *)
From stdpp Require Export base tactics numbers option list gmap strings fin_maps.
From Stdlib Require Export ZArith Lia.
From Stdlib.Strings Require Export Byte.

Open Scope Z_scope.

(** ** Errors: the exception types of the program, each with its message; [undefined] stands for
    what C++ leaves undefined and [out_of_fuel] for a loop that was cut short, neither of which
    a program that is verified ever reaches. *)
Inductive error :=
| corruption_error (what : string)
| storage_error (what : string)
| transaction_error (what : string)
| conflict_error (what : string)
| type_error (what : string)
| out_of_range (what : string)
| sql_error (what : string)
| json_error (what : string)
| usage_error (what : string)
| runtime_error (what : string)
| bad_alloc
| undefined (what : string)
| out_of_fuel.

Inductive result (A : Type) :=
| Ok (a : A)
| Throw (e : error).
Arguments Ok {A} a.
Arguments Throw {A} e.

#[export] Instance error_eq_dec : EqDecision error.
Proof. solve_decision. Defined.
#[export] Instance result_eq_dec {A} `{EqDecision A} : EqDecision (result A).
Proof. solve_decision. Defined.

(** ** A state and exception monad: a throwing computation keeps the state it reached. *)
Definition M (S A : Type) : Type := S → result A * S.

#[export] Instance M_ret {S} : MRet (M S) := λ A a s, (Ok a, s).
#[export] Instance M_bind {S} : MBind (M S) := λ A B f m s,
  match m s with
  | (Ok a, s') => f a s'
  | (Throw e, s') => (Throw e, s')
  end.

Definition throw {S A} (e : error) : M S A := λ s, (Throw e, s).
Definition get {S} : M S S := λ s, (Ok s, s).
Definition put {S} (s : S) : M S unit := λ _, (Ok tt, s).
Definition modify {S} (f : S → S) : M S unit := λ s, (Ok tt, f s).
Definition when {S} (b : bool) (m : M S unit) : M S unit := if b then m else mret tt.
Definition catch {S A} (m : M S A) (h : error → M S A) : M S A := λ s,
  match m s with
  | (Throw e, s') => h e s'
  | r => r
  end.

Section monad_laws.
Context {S A B : Type}.
Implicit Types (m : M S A) (f : A → M S B) (s : S).

Lemma bind_ok m f s s' a : m s = (Ok a, s') → (m ≫= f) s = f a s'.
Proof. intros H. unfold mbind, M_bind. by rewrite H. Qed.
Lemma bind_throw m f s s' e : m s = (Throw e, s') → (m ≫= f) s = (Throw e, s').
Proof. intros H. unfold mbind, M_bind. by rewrite H. Qed.
Lemma bind_inv_ok m f s s' b :
  (m ≫= f) s = (Ok b, s') → ∃ a s1, m s = (Ok a, s1) ∧ f a s1 = (Ok b, s').
Proof. unfold mbind, M_bind. destruct (m s) as [[a|e] s1]; naive_solver. Qed.
Lemma bind_inv_throw m f s s' e :
  (m ≫= f) s = (Throw e, s') →
  m s = (Throw e, s') ∨ ∃ a s1, m s = (Ok a, s1) ∧ f a s1 = (Throw e, s').
Proof. unfold mbind, M_bind. destruct (m s) as [[a|e'] s1]; naive_solver. Qed.
Lemma bind_ret_l a f s : (mret a ≫= f) s = f a s.
Proof. done. Qed.
Lemma bind_ret_r m s : (m ≫= mret) s = m s.
Proof. unfold mbind, M_bind. by destruct (m s) as [[a|e] s1]. Qed.
Lemma bind_assoc {C} m f (g : B → M S C) s :
  ((m ≫= f) ≫= g) s = (m ≫= (λ a, f a ≫= g)) s.
Proof. unfold mbind, M_bind. by destruct (m s) as [[a|e] s1]. Qed.
End monad_laws.

(** Running a computation [n] times (a counted [for] loop collecting results) and over the
    elements of a list (a range-based [for] loop). *)
Fixpoint repeatM {S A} (n : nat) (m : M S A) : M S (list A) :=
  match n with
  | O => mret []
  | Datatypes.S n' => x ← m; xs ← repeatM n' m; mret (x :: xs)
  end.
Fixpoint forM {S A} (l : list A) (f : A → M S unit) : M S unit :=
  match l with
  | [] => mret tt
  | x :: l' => _ ← f x; forM l' f
  end.

(** Tactics for running and inverting monadic computations: [m_run H] rewrites the next step
    of the goal with the equation [H : m s = (Ok a, s')]; [m_inv H] splits a hypothesis about a
    successful computation into its steps. *)
Ltac m_run H := rewrite (bind_ok _ _ _ _ _ H).
Ltac m_inv H :=
  let a := fresh "a" in let s := fresh "s" in let H1 := fresh H in
  apply bind_inv_ok in H as (a & s & H1 & H).

(** ** Machine integers *)
Definition u64_bound : Z := 2 ^ 64.
Definition u64 (z : Z) : Z := z `mod` u64_bound.
Definition is_u64 (z : Z) : Prop := 0 ≤ z < u64_bound.
Definition is_i64 (z : Z) : Prop := - 2 ^ 63 ≤ z < 2 ^ 63.
#[export] Instance is_u64_dec z : Decision (is_u64 z).
Proof. unfold is_u64. apply _. Defined.
#[export] Instance is_i64_dec z : Decision (is_i64 z).
Proof. unfold is_i64. apply _. Defined.

Lemma u64_small z : is_u64 z → u64 z = z.
Proof. intros. by apply Z.mod_small. Qed.
Lemma u64_range z : is_u64 (u64 z).
Proof. apply Z.mod_pos_bound. done. Qed.
#[export] Hint Resolve u64_range : core.

(** The length of a buffer as the [std::size_t] the code sees. *)
Definition size {A} (l : list A) : Z := Z.of_nat (length l).
Definition ssize (s : string) : Z := Z.of_nat (String.length s).

Lemma string_app_nil_r s : s +:+ "" = s.
Proof. induction s as [|c s IH]; [done|]. change (String c (s +:+ "") = String c s). by rewrite IH. Qed.
Lemma string_app_assoc a b c : (a +:+ b) +:+ c = a +:+ b +:+ c.
Proof. induction a as [|x a IH]; [done|]. change (String x ((a +:+ b) +:+ c) = String x (a +:+ b +:+ c)). by rewrite IH. Qed.
Lemma prefix_app p s : String.prefix p (p +:+ s) = true.
Proof.
  induction p as [|c p IH]; [by destruct s|]. change (String.prefix (String c p) (String c (p +:+ s)) = true). simpl.
  by destruct (Ascii.ascii_dec c c).
Qed.

Create Rewrite HintDb size.
Lemma size_nonneg {A} (l : list A) : 0 ≤ size l.
Proof. unfold size. lia. Qed.
Lemma size_app {A} (l k : list A) : size (l ++ k) = size l + size k.
Proof. unfold size. rewrite length_app. lia. Qed.
Lemma size_nil {A} : size (@nil A) = 0.
Proof. done. Qed.
Lemma size_cons {A} (x : A) l : size (x :: l) = 1 + size l.
Proof. unfold size. simpl. lia. Qed.
Lemma size_take {A} (l : list A) n : size (take n l) = Z.min (Z.of_nat n) (size l).
Proof. unfold size. rewrite length_take. lia. Qed.
Lemma size_drop {A} (l : list A) n : size (drop n l) = Z.max 0 (size l - Z.of_nat n).
Proof. unfold size. rewrite length_drop. lia. Qed.
#[export] Hint Rewrite @size_app @size_nil @size_cons : size.
#[export] Hint Resolve size_nonneg : core.

(** ** Bytes and strings *)
Definition byte_to_Z (b : byte) : Z := Z.of_N (Byte.to_N b).
Definition byte_of_Z (z : Z) : byte := default x00 (Byte.of_N (Z.to_N z)).

Lemma byte_to_Z_range b : 0 ≤ byte_to_Z b < 256.
Proof. unfold byte_to_Z. pose proof (Byte.to_N_bounded b). lia. Qed.
Lemma byte_to_of_Z z : 0 ≤ z < 256 → byte_to_Z (byte_of_Z z) = z.
Proof.
  intros Hz. unfold byte_to_Z, byte_of_Z.
  destruct (Byte.of_N (Z.to_N z)) as [b|] eqn:E; simpl.
  - apply Byte.to_of_N in E. lia.
  - apply Byte.of_N_None_iff in E. lia.
Qed.
Lemma byte_of_to_Z b : byte_of_Z (byte_to_Z b) = b.
Proof. unfold byte_to_Z, byte_of_Z. rewrite N2Z.id, Byte.of_to_N. done. Qed.
#[export] Instance byte_to_Z_inj : Inj (=) (=) byte_to_Z.
Proof. intros b b' H. rewrite <- (byte_of_to_Z b), <- (byte_of_to_Z b'). by rewrite H. Qed.
#[export] Instance byte_eq_dec : EqDecision byte := Byte.byte_eq_dec.

Definition bytes_of_string : string → list byte := String.list_byte_of_string.
Definition string_of_bytes : list byte → string := String.string_of_list_byte.

Lemma string_of_bytes_of_string s : string_of_bytes (bytes_of_string s) = s.
Proof. apply String.string_of_list_byte_of_string. Qed.
Lemma bytes_of_string_of_bytes l : bytes_of_string (string_of_bytes l) = l.
Proof. apply String.list_byte_of_string_of_list_byte. Qed.
Lemma size_bytes_of_string s : size (bytes_of_string s) = ssize s.
Proof.
  unfold size, ssize. f_equal. induction s as [|c s IH]; [done|].
  change (S (length (bytes_of_string s)) = S (String.length s)). by rewrite IH.
Qed.
Lemma ssize_string_of_bytes l : ssize (string_of_bytes l) = size l.
Proof. by rewrite <- size_bytes_of_string, bytes_of_string_of_bytes. Qed.
Lemma ssize_app s s' : ssize (s +:+ s') = ssize s + ssize s'.
Proof.
  unfold ssize. induction s as [|c s IH]; [done|].
  change (String.length (String c s +:+ s')) with (S (String.length (s +:+ s'))).
  change (String.length (String c s)) with (S (String.length s)). lia.
Qed.
#[export] Instance bytes_of_string_inj : Inj (=) (=) bytes_of_string.
Proof. intros s s' H. rewrite <- (string_of_bytes_of_string s), H. apply string_of_bytes_of_string. Qed.

(** Computations without state: [result] is a monad too, and embeds in [M S]. *)
#[export] Instance result_ret : MRet result := λ A a, Ok a.
#[export] Instance result_bind : MBind result := λ A B f m,
  match m with Ok a => f a | Throw e => Throw e end.
Definition lift_result {S A} (r : result A) : M S A := λ s, (r, s).
(** Run on a given state and keep the value only. *)
Definition run {S A} (m : M S A) (s : S) : result A := (m s).1.
(** Run a computation on one half of the state. *)
Definition on_snd {S W A} (m : M W A) : M (S * W) A := λ '(s, w),
  let '(r, w') := m w in (r, (s, w')).
Definition on_fst {S W A} (m : M S A) : M (S * W) A := λ '(s, w),
  let '(r, s') := m s in (r, (s', w)).

(** Run a computation with a local state of its own (a local variable) and drop it. *)
Definition with_local {S W A} (s : S) (m : M (S * W) A) : M W A := λ w,
  let '(r, (_, w')) := m (s, w) in (r, w').

Lemma run_ok {S A} (m : M S A) s a s' : m s = (Ok a, s') → run m s = Ok a.
Proof. unfold run. by intros ->. Qed.

Lemma bind_result_ok {A B} (m : result A) (f : A → result B) b :
  m ≫= f = Ok b ↔ ∃ a, m = Ok a ∧ f a = Ok b.
Proof.
  unfold mbind, result_bind. destruct m; split; [eauto|by intros (? & [= ->] & ?)|done|].
  by intros (? & ? & ?).
Qed.
Lemma run_inv {S A} (m : M S A) s a : run m s = Ok a → ∃ s', m s = (Ok a, s').
Proof. unfold run. destruct (m s) as [r s']. simpl. intros ->. by eexists. Qed.
Lemma lift_result_ok {S A} (r : result A) (s s' : S) a :
  lift_result r s = (Ok a, s') ↔ r = Ok a ∧ s' = s.
Proof. unfold lift_result. split; [by intros [= -> ->]|by intros [-> ->]]. Qed.
