(* ===== verification/Binary.v ===== *)
(** * Binary encoding: [detail/writer.hpp], [detail/reader.hpp] and [detail/crc32c.hpp].

    A [writer] is the buffer it has accumulated: each writing operation is modelled by the bytes
    it pushes back, so that successive calls are concatenations.  A [reader] is the part of its
    span not yet consumed; the operations run in the monad [M reader] and throw
    [corruption_error] where the code does. *)
From S2P Require Import Prelude.

(** ** writer *)
Abbreviation writer := (list byte) (only parsing).

(** [writer::scalar]: the loop pushes byte [i] of the unsigned representation, for [i] from 0
    to [sizeof - 1]. [scalar n v] is for a type of [n] bytes; the cast to the unsigned type is
    the reduction modulo [2^(8n)]. *)
Fixpoint scalar_loop (bits : Z) (i k : nat) : list byte :=
  match k with
  | O => []
  | S k' => byte_of_Z (Z.land (Z.shiftr bits (8 * Z.of_nat i)) 255) :: scalar_loop bits (S i) k'
  end.
Definition scalar (n : nat) (value : Z) : list byte :=
  scalar_loop (value `mod` 2 ^ (8 * Z.of_nat n)) 0 n.

(** [writer::string]: the length as a [uint64], then the characters. *)
Definition w_string (value : string) : list byte :=
  scalar 8 (ssize value) ++ bytes_of_string value.

(** ** reader *)
Abbreviation reader := (list byte) (only parsing).

Definition remaining (r : reader) : Z := size r.
Definition eof (r : reader) : bool := bool_decide (r = []).

Definition require (count : Z) : M reader unit := λ r,
  if count >? remaining r then throw (corruption_error "truncated binary payload") r
  else (Ok tt, r).

(** The loop of [reader::scalar]: [bits |= byte << (8 * i)]. *)
Fixpoint scalar_bits (bits : Z) (i : nat) (bs : list byte) : Z :=
  match bs with
  | [] => bits
  | b :: bs' => scalar_bits (Z.lor bits (Z.shiftl (byte_to_Z b) (8 * Z.of_nat i))) (S i) bs'
  end.

(** The unchecked step both operations share, [bytes_[position_ + i]] or [subspan], and the
    position moved: C++ leaves a step past the end of the span undefined. *)
Definition advance (n : nat) : M reader (list byte) := λ r,
  if bool_decide (n ≤ length r)%nat then (Ok (take n r), drop n r)
  else (Throw (undefined "read past the end of the span"), r).

(** [reader::bytes]: a subspan of [count] bytes. *)
Definition r_bytes (count : Z) : M reader (list byte) :=
  _ ← require count; advance (Z.to_nat count).

(** [reader::scalar] for an unsigned type of [n] bytes, and for a signed one. *)
Definition r_scalar (n : nat) : M reader Z :=
  _ ← require (Z.of_nat n); bs ← advance n; mret (scalar_bits 0 0 bs).
Definition to_signed (w z : Z) : Z := if z <? 2 ^ (w - 1) then z else z - 2 ^ w.
Definition r_signed (n : nat) : M reader Z :=
  z ← r_scalar n; mret (to_signed (8 * Z.of_nat n) z).

(** [reader::string]. *)
Definition r_string : M reader string :=
  count ← r_scalar 8;
  rest ← get;
  if count >? remaining rest then throw (corruption_error "string length exceeds payload")
  else data ← r_bytes count; mret (string_of_bytes data).

(** ** crc32c *)
Definition crc_bit (crc : Z) : Z :=
  let mask := (- (Z.land crc 1)) `mod` 2 ^ 32 in
  Z.lxor (Z.shiftr crc 1) (Z.land 0x82f63b78 mask).
Definition crc_byte (crc : Z) (b : byte) : Z :=
  Nat.iter 8 crc_bit (Z.lxor crc (byte_to_Z b)).
Definition crc32c (data : list byte) : Z :=
  Z.lxor (foldl crc_byte 0xffffffff data) 0xffffffff.

#[global] Arguments crc_byte : simpl never.
#[global] Arguments crc_bit : simpl never.

(** ** Lemmas on the writer *)
Lemma scalar_loop_length bits i k : length (scalar_loop bits i k) = k.
Proof. revert i; induction k; intros; simpl; [done|]. by rewrite IHk. Qed.
Lemma scalar_length n v : length (scalar n v) = n.
Proof. apply scalar_loop_length. Qed.
Lemma size_scalar n v : size (scalar n v) = Z.of_nat n.
Proof. unfold size. by rewrite scalar_length. Qed.
Lemma size_w_string s : size (w_string s) = 8 + ssize s.
Proof. unfold w_string. by rewrite size_app, size_scalar, size_bytes_of_string. Qed.
#[export] Hint Rewrite size_scalar size_w_string size_bytes_of_string : size.
#[global] Opaque scalar.

(** ** The little-endian round trip *)
Lemma land_255_range z : 0 ≤ Z.land z 255 < 256.
Proof. change 255 with (Z.ones 8). rewrite Z.land_ones by lia. apply Z.mod_pos_bound. lia. Qed.

Lemma lor_byte_step z n :
  0 ≤ n →
  Z.lor (z `mod` 2 ^ n) (Z.shiftl (Z.land (Z.shiftr z n) 255) n) = z `mod` 2 ^ (n + 8).
Proof.
  intros Hn. apply Z.bits_inj'. intros i Hi. change 255 with (Z.ones 8).
  rewrite Z.land_ones by lia. rewrite Z.lor_spec.
  destruct (decide (i < n)).
  - rewrite !Z.mod_pow2_bits_low, Z.shiftl_spec_low by lia. apply orb_false_r.
  - rewrite Z.mod_pow2_bits_high, Z.shiftl_spec by lia. simpl.
    destruct (decide (i < n + 8)).
    + rewrite !Z.mod_pow2_bits_low, Z.shiftr_spec by lia. f_equal. lia.
    + rewrite !Z.mod_pow2_bits_high by lia. done.
Qed.

Lemma scalar_bits_loop z i k rest_bits :
  rest_bits = z `mod` 2 ^ (8 * Z.of_nat i) →
  scalar_bits rest_bits i (scalar_loop z i k) = z `mod` 2 ^ (8 * Z.of_nat (i + k)).
Proof.
  revert i rest_bits. induction k as [|k IH]; intros i rb ->; simpl.
  - by rewrite Nat.add_0_r.
  - rewrite byte_to_of_Z by apply land_255_range.
    rewrite (IH (S i)).
    + do 3 f_equal. lia.
    + rewrite lor_byte_step by lia. do 2 f_equal. lia.
Qed.

Lemma scalar_bits_scalar n v :
  scalar_bits 0 0 (scalar n v) = v `mod` 2 ^ (8 * Z.of_nat n).
Proof.
  Transparent scalar. unfold scalar. rewrite (scalar_bits_loop _ 0 n); simpl.
  - apply Z.mod_mod. lia.
  - by rewrite Z.mod_1_r.
Qed.
#[global] Opaque scalar.

(** ** Lemmas on the reader *)
Lemma require_ok count r : count ≤ size r → require count r = (Ok tt, r).
Proof. intros. unfold require, remaining. destruct (Z.gtb_spec count (size r)); [lia|done]. Qed.
Lemma require_throw count r :
  size r < count → require count r = (Throw (corruption_error "truncated binary payload"), r).
Proof. intros. unfold require, remaining. destruct (Z.gtb_spec count (size r)); [done|lia]. Qed.

Lemma advance_ok n r : (n ≤ length r)%nat → advance n r = (Ok (take n r), drop n r).
Proof. intros. unfold advance. by rewrite bool_decide_true. Qed.
Lemma r_bytes_inv count r bs r' :
  r_bytes count r = (Ok bs, r') →
  count ≤ size r ∧ bs = take (Z.to_nat count) r ∧ r' = drop (Z.to_nat count) r.
Proof.
  unfold r_bytes, mbind, M_bind, require, remaining. destruct (Z.gtb_spec count (size r)); [done|].
  rewrite advance_ok by (unfold size in *; lia). by intros [= <- <-].
Qed.
Lemma r_scalar_advanced n r z r' :
  r_scalar n r = (Ok z, r') →
  (n ≤ length r)%nat ∧ z = scalar_bits 0 0 (take n r) ∧ r' = drop n r.
Proof.
  unfold r_scalar, mbind, M_bind, require, remaining. destruct (Z.gtb_spec (Z.of_nat n) (size r)); [done|].
  rewrite advance_ok by (unfold size in *; lia). intros [= <- <-]. split_and!; [unfold size in *; lia|done..].
Qed.
Lemma r_bytes_app bs rest : r_bytes (size bs) (bs ++ rest) = (Ok bs, rest).
Proof.
  unfold r_bytes. m_run (require_ok (size bs) (bs ++ rest) ltac:(autorewrite with size; pose proof (size_nonneg rest); lia)).
  unfold size. rewrite Nat2Z.id, advance_ok by (rewrite length_app; lia).
  by rewrite take_app_length, drop_app_length.
Qed.

Lemma r_scalar_bytes n bs rest :
  length bs = n → r_scalar n (bs ++ rest) = (Ok (scalar_bits 0 0 bs), rest).
Proof.
  intros <-. unfold r_scalar.
  m_run (require_ok (size bs) (bs ++ rest) ltac:(autorewrite with size; pose proof (size_nonneg rest); lia)).
  unfold mbind, M_bind. rewrite advance_ok by (rewrite length_app; lia).
  by rewrite take_app_length, drop_app_length.
Qed.

Lemma r_scalar_scalar n v rest :
  r_scalar n (scalar n v ++ rest) = (Ok (v `mod` 2 ^ (8 * Z.of_nat n)), rest).
Proof. rewrite r_scalar_bytes by apply scalar_length. by rewrite scalar_bits_scalar. Qed.

Lemma r_scalar_u64 v rest : is_u64 v → r_scalar 8 (scalar 8 v ++ rest) = (Ok v, rest).
Proof. intros Hv. rewrite r_scalar_scalar. by rewrite Z.mod_small by apply Hv. Qed.

(** The same for the last field of a buffer. *)
Lemma r_bytes_all bs : r_bytes (size bs) bs = (Ok bs, []).
Proof. pose proof (r_bytes_app bs []) as H. by rewrite app_nil_r in H. Qed.
Lemma r_scalar_all n v : r_scalar n (scalar n v) = (Ok (v `mod` 2 ^ (8 * Z.of_nat n)), []).
Proof. pose proof (r_scalar_scalar n v []) as H. by rewrite app_nil_r in H. Qed.
Lemma r_scalar_u64_all v : is_u64 v → r_scalar 8 (scalar 8 v) = (Ok v, []).
Proof. intros Hv. pose proof (r_scalar_u64 v [] Hv) as H. by rewrite app_nil_r in H. Qed.

Lemma to_signed_mod w z :
  0 < w → - 2 ^ (w - 1) ≤ z < 2 ^ (w - 1) → to_signed w (z `mod` 2 ^ w) = z.
Proof.
  intros Hw Hz. unfold to_signed.
  assert (2 ^ w = 2 * 2 ^ (w - 1)) as E by (rewrite <- Z.pow_succ_r by lia; f_equal; lia).
  destruct (decide (0 ≤ z)).
  - rewrite Z.mod_small by lia. destruct (Z.ltb_spec z (2 ^ (w - 1))); lia.
  - rewrite <- (Z_mod_plus_full z 1), Z.mod_small by lia.
    destruct (Z.ltb_spec (z + 1 * 2 ^ w) (2 ^ (w - 1))); lia.
Qed.

Lemma r_signed_i64 v rest : is_i64 v → r_signed 8 (scalar 8 v ++ rest) = (Ok v, rest).
Proof.
  intros Hv. unfold r_signed. m_run (r_scalar_scalar 8 v rest).
  change (8 * Z.of_nat 8) with 64. unfold mret, M_ret.
  by rewrite to_signed_mod by (unfold is_i64 in Hv; lia).
Qed.

Lemma r_string_app s rest :
  is_u64 (ssize s) → r_string (w_string s ++ rest) = (Ok s, rest).
Proof.
  intros Hs. unfold r_string, w_string. rewrite <- app_assoc.
  m_run (r_scalar_u64 (ssize s) (bytes_of_string s ++ rest) Hs).
  unfold get, mbind at 1, M_bind at 1.
  destruct (Z.gtb_spec (ssize s) (remaining (bytes_of_string s ++ rest))) as [Hgt|_].
  { unfold remaining in Hgt. autorewrite with size in Hgt. pose proof (size_nonneg rest). lia. }
  rewrite <- size_bytes_of_string. m_run (r_bytes_app (bytes_of_string s) rest).
  unfold mret, M_ret. by rewrite string_of_bytes_of_string.
Qed.

Lemma scalar_bits_nonneg bits i bs : 0 ≤ bits → 0 ≤ scalar_bits bits i bs.
Proof.
  revert bits i. induction bs as [|b bs IH]; intros bits i Hb; simpl; [done|]. apply IH.
  apply Z.lor_nonneg. split; [done|]. apply Z.shiftl_nonneg. apply byte_to_Z_range.
Qed.
Lemma r_scalar_nonneg n r z r' : r_scalar n r = (Ok z, r') → 0 ≤ z.
Proof. intros (_ & -> & _)%r_scalar_advanced. by apply scalar_bits_nonneg. Qed.

Lemma lor_below x y k : 0 ≤ k → 0 ≤ x < 2 ^ k → 0 ≤ y < 2 ^ k → 0 ≤ Z.lor x y < 2 ^ k.
Proof.
  intros Hk Hx Hy. split; [apply Z.lor_nonneg; lia|].
  pose proof (proj2 (Z.lor_nonneg x y) ltac:(lia)).
  destruct (decide (Z.lor x y = 0)) as [->|]; [lia|].
  assert (k ≠ 0) by (intros ->; simpl in *; assert (x = 0) as -> by lia; assert (y = 0) as -> by lia; done).
  apply Z.log2_lt_pow2; [lia|]. rewrite Z.log2_lor by lia.
  assert (∀ z, 0 ≤ z < 2 ^ k → Z.log2 z < k) as Hlog.
  { intros z Hz. destruct (decide (z = 0)) as [->|]; [simpl; lia|]. apply Z.log2_lt_pow2; lia. }
  pose proof (Hlog x Hx). pose proof (Hlog y Hy). lia.
Qed.
Lemma scalar_bits_below bits i bs :
  0 ≤ bits < 2 ^ (8 * Z.of_nat i) → scalar_bits bits i bs < 2 ^ (8 * Z.of_nat (i + length bs)).
Proof.
  revert bits i. induction bs as [|b bs IH]; intros bits i Hb; simpl.
  - rewrite Nat.add_0_r. lia.
  - rewrite <- Nat.add_succ_comm. apply IH. apply lor_below; [lia| |].
    + split; [lia|]. eapply Z.lt_le_trans; [apply Hb|]. apply Z.pow_le_mono_r; lia.
    + pose proof (byte_to_Z_range b). rewrite Z.shiftl_mul_pow2 by lia.
      replace (8 * Z.of_nat (S i)) with (8 + 8 * Z.of_nat i) by lia. rewrite Z.pow_add_r by lia.
      change (2 ^ 8) with 256. pose proof (Z.pow_pos_nonneg 2 (8 * Z.of_nat i)). nia.
Qed.
Lemma r_scalar_below n r z r' : r_scalar n r = (Ok z, r') → z < 2 ^ (8 * Z.of_nat n).
Proof.
  intros (Hn & -> & _)%r_scalar_advanced.
  assert (length (take n r) = n) as Hl by (rewrite length_take; lia).
  rewrite <- Hl at 2. apply (scalar_bits_below 0 0). simpl. lia.
Qed.
Lemma r_scalar_is_u64 r z r' : r_scalar 8 r = (Ok z, r') → is_u64 z.
Proof. intros E. split; [by eapply r_scalar_nonneg|]. by apply r_scalar_below in E. Qed.

(** ** Lemmas on the checksum *)
Definition is_u32 (z : Z) : Prop := 0 ≤ z < 2 ^ 32.

Lemma is_u32_bits z : 0 ≤ z → (∀ i, 32 ≤ i → Z.testbit z i = false) → is_u32 z.
Proof.
  intros Hz Hb. split; [done|]. destruct (decide (z = 0)); [lia|].
  apply Z.log2_lt_pow2; [lia|]. destruct (Z.lt_ge_cases (Z.log2 z) 32); [done|].
  pose proof (Z.bit_log2 z ltac:(lia)) as H1. by rewrite Hb in H1.
Qed.
Lemma u32_bits z i : is_u32 z → 32 ≤ i → Z.testbit z i = false.
Proof.
  intros [? ?] ?. destruct (decide (z = 0)) as [->|]; [apply Z.bits_0|].
  apply Z.bits_above_log2; [done|]. assert (Z.log2 z < 32) by (apply Z.log2_lt_pow2; lia). lia.
Qed.
Lemma lxor_u32 x y : is_u32 x → is_u32 y → is_u32 (Z.lxor x y).
Proof.
  intros Hx Hy. apply is_u32_bits.
  - apply Z.lxor_nonneg. unfold is_u32 in *. lia.
  - intros i Hi. rewrite Z.lxor_spec, !u32_bits by done. done.
Qed.
Lemma shiftr_u32 x : is_u32 x → is_u32 (Z.shiftr x 1).
Proof.
  intros Hx. apply is_u32_bits; [apply Z.shiftr_nonneg, Hx|].
  intros i Hi. rewrite Z.shiftr_spec by lia. apply u32_bits; [done|lia].
Qed.
Lemma byte_u32 b : is_u32 (byte_to_Z b).
Proof. pose proof (byte_to_Z_range b). unfold is_u32. lia. Qed.

(** The mask selects the polynomial exactly when the low bit is set. *)
Lemma crc_bit_alt crc :
  crc_bit crc = Z.lxor (Z.shiftr crc 1) (if Z.odd crc then 0x82f63b78 else 0).
Proof.
  unfold crc_bit. rewrite (Z.land_ones crc 1 ltac:(lia) : Z.land crc 1 = crc `mod` 2).
  rewrite Zmod_odd. by destruct (Z.odd crc).
Qed.
Lemma crc_bit_u32 crc : is_u32 crc → is_u32 (crc_bit crc).
Proof.
  intros H. rewrite crc_bit_alt. apply lxor_u32; [by apply shiftr_u32|].
  by destruct (Z.odd crc).
Qed.
Lemma crc_bit_top crc : is_u32 crc → Z.testbit (crc_bit crc) 31 = Z.odd crc.
Proof.
  intros H. rewrite crc_bit_alt, Z.lxor_spec, Z.shiftr_spec by lia.
  rewrite u32_bits by done. by destruct (Z.odd crc).
Qed.
Lemma crc_bit_inj x y : is_u32 x → is_u32 y → crc_bit x = crc_bit y → x = y.
Proof.
  intros Hx Hy E.
  assert (Z.odd x = Z.odd y) as Eo by (rewrite <- !crc_bit_top by done; by rewrite E).
  rewrite !crc_bit_alt, Eo in E.
  apply (f_equal (λ z, Z.lxor z (if Z.odd y then 0x82f63b78 else 0))) in E.
  rewrite !Z.lxor_assoc, !Z.lxor_nilpotent, !Z.lxor_0_r in E.
  rewrite !Z.shiftr_div_pow2 in E by lia. change (2 ^ 1) with 2 in E.
  rewrite (Z.div_mod x 2), (Z.div_mod y 2) by lia. by rewrite E, !Zmod_odd, Eo.
Qed.
Lemma crc_bits_u32 n x : is_u32 x → is_u32 (Nat.iter n crc_bit x).
Proof. intros. induction n; simpl; [done|]. by apply crc_bit_u32. Qed.
Lemma crc_bits_inj n x y :
  is_u32 x → is_u32 y → Nat.iter n crc_bit x = Nat.iter n crc_bit y → x = y.
Proof.
  induction n as [|n IH]; simpl; intros Hx Hy E; [done|].
  apply crc_bit_inj in E; [by apply IH|by apply crc_bits_u32..].
Qed.

Lemma crc_byte_bits crc b : crc_byte crc b = Nat.iter 8 crc_bit (Z.lxor crc (byte_to_Z b)).
Proof. done. Qed.
Lemma crc_byte_u32 crc b : is_u32 crc → is_u32 (crc_byte crc b).
Proof. intros. apply crc_bits_u32, lxor_u32; [done|apply byte_u32]. Qed.
Lemma crc_bytes_u32 l crc : is_u32 crc → is_u32 (foldl crc_byte crc l).
Proof. revert crc. induction l; simpl; intros; [done|]. by apply IHl, crc_byte_u32. Qed.
Lemma crc_bytes_inj l x y :
  is_u32 x → is_u32 y → foldl crc_byte x l = foldl crc_byte y l → x = y.
Proof.
  revert x y. induction l as [|b l IH]; simpl; intros x y Hx Hy E; [done|].
  apply IH in E; [|by apply crc_byte_u32..].
  rewrite !crc_byte_bits in E. apply crc_bits_inj in E; [|by apply lxor_u32, byte_u32..].
  apply (f_equal (λ z, Z.lxor z (byte_to_Z b))) in E.
  by rewrite !Z.lxor_assoc, !Z.lxor_nilpotent, !Z.lxor_0_r in E.
Qed.

(** Shifting the message ahead of the register: bits that have not reached the low end pass
    through a step unchanged. *)
Lemma crc_bit_shift x y : crc_bit (Z.lxor x (Z.shiftl y 1)) = Z.lxor (crc_bit x) y.
Proof.
  rewrite !crc_bit_alt.
  assert (Z.odd (Z.lxor x (Z.shiftl y 1)) = Z.odd x) as ->.
  { rewrite <- !Z.bit0_odd, Z.lxor_spec, Z.shiftl_spec_low by lia. apply xorb_false_r. }
  rewrite Z.shiftr_lxor, Z.shiftr_shiftl_l, Z.shiftl_0_r by lia.
  rewrite !Z.lxor_assoc. f_equal. apply Z.lxor_comm.
Qed.
Lemma crc_bits_shift n x y :
  Nat.iter n crc_bit (Z.lxor x (Z.shiftl y (Z.of_nat n))) = Z.lxor (Nat.iter n crc_bit x) y.
Proof.
  revert y. induction n as [|n IH]; intros y; [by rewrite Z.shiftl_0_r|].
  rewrite !Nat.iter_succ, Nat2Z.inj_succ. replace (Z.succ (Z.of_nat n)) with (1 + Z.of_nat n) by lia.
  rewrite <- Z.shiftl_shiftl by lia. rewrite IH. apply crc_bit_shift.
Qed.

(** The little-endian word a run of bytes contributes. *)
Fixpoint le_word (l : list byte) : Z :=
  match l with
  | [] => 0
  | b :: l' => Z.lxor (byte_to_Z b) (Z.shiftl (le_word l') 8)
  end.
Lemma crc_bytes_word l crc :
  foldl crc_byte crc l = Nat.iter (8 * length l) crc_bit (Z.lxor crc (le_word l)).
Proof.
  revert crc. induction l as [|b l IH]; intros crc; simpl foldl; simpl le_word.
  - by rewrite Z.lxor_0_r.
  - rewrite IH. unfold crc_byte. rewrite <- (crc_bits_shift 8).
    rewrite <- Nat.iter_add. rewrite Z.lxor_assoc. f_equal. simpl. lia.
Qed.
Lemma le_word_bits l i : 8 * size l ≤ i → Z.testbit (le_word l) i = false.
Proof.
  revert i. induction l as [|b l IH]; intros i; autorewrite with size; intros Hi; simpl.
  - apply Z.bits_0.
  - pose proof (size_nonneg l). rewrite Z.lxor_spec, Z.shiftl_spec, IH by lia.
    rewrite xorb_false_r. pose proof (byte_to_Z_range b).
    destruct (decide (byte_to_Z b = 0)) as [->|]; [apply Z.bits_0|].
    apply Z.bits_above_log2; [lia|].
    assert (Z.log2 (byte_to_Z b) < 8) by (apply Z.log2_lt_pow2; lia). lia.
Qed.
Lemma le_word_nonneg l : 0 ≤ le_word l.
Proof.
  induction l as [|b l IH]; simpl; [done|]. apply Z.lxor_nonneg.
  rewrite Z.shiftl_nonneg. pose proof (byte_to_Z_range b). lia.
Qed.
Lemma le_word_u32 l : size l ≤ 4 → is_u32 (le_word l).
Proof.
  intros. apply is_u32_bits; [apply le_word_nonneg|]. intros. apply le_word_bits. lia.
Qed.
Lemma le_word_inj l k : length l = length k → le_word l = le_word k → l = k.
Proof.
  revert k. induction l as [|b l IH]; intros [|c k]; simpl; try done. intros [= Hl] E.
  assert (byte_to_Z b = byte_to_Z c) as Ebc.
  { apply (f_equal (λ z, z `mod` 2 ^ 8)) in E.
    rewrite <- !Z.land_ones in E by lia.
    assert (∀ d m, Z.land (Z.lxor (byte_to_Z d) (Z.shiftl m 8)) (Z.ones 8) = byte_to_Z d) as Hl8.
    { intros d m. rewrite <- (Z.mod_small (byte_to_Z d) (2 ^ 8)) at 2 by apply byte_to_Z_range.
      rewrite <- Z.land_ones by lia. apply Z.bits_inj'. intros i Hi.
      rewrite !Z.land_spec, Z.lxor_spec. destruct (decide (i < 8)).
      - rewrite Z.shiftl_spec_low by lia. by rewrite xorb_false_r.
      - by rewrite Z.ones_spec_high, !andb_false_r by lia. }
    by rewrite !Hl8 in E. }
  rewrite Ebc in E. apply (f_equal (Z.lxor (byte_to_Z c))) in E.
  rewrite <- !Z.lxor_assoc, !Z.lxor_nilpotent, !Z.lxor_0_l in E.
  apply (f_equal (λ z, Z.shiftr z 8)) in E. rewrite !Z.shiftr_shiftl_l, !Z.shiftl_0_r in E by lia.
  f_equal; [by apply byte_to_Z_inj|by apply IH].
Qed.

Lemma crc32c_u32 data : is_u32 (crc32c data).
Proof. apply lxor_u32; [by apply crc_bytes_u32|done]. Qed.

Lemma crc32c_final_inj x y : Z.lxor x 0xffffffff = Z.lxor y 0xffffffff → x = y.
Proof.
  intros E. apply (f_equal (λ z, Z.lxor z 0xffffffff)) in E.
  by rewrite !Z.lxor_assoc, !Z.lxor_nilpotent, !Z.lxor_0_r in E.
Qed.

(** The checksum of two messages of equal length that differ only inside a window of at most
    four bytes is never the same: every burst of up to 32 aligned bits is detected. *)
Lemma crc32c_window pre w w' post :
  length w = length w' → size w ≤ 4 → w ≠ w' →
  crc32c (pre ++ w ++ post) ≠ crc32c (pre ++ w' ++ post).
Proof.
  intros Hl Hs Hne E. apply Hne, le_word_inj; [done|].
  unfold crc32c in E. apply crc32c_final_inj in E. rewrite !foldl_app in E.
  assert (is_u32 (foldl crc_byte 0xffffffff pre)) as Hp by (by apply crc_bytes_u32).
  revert E Hp. generalize (foldl crc_byte 0xffffffff pre). intros s E Hp.
  apply crc_bytes_inj in E; [|by apply crc_bytes_u32..].
  rewrite !crc_bytes_word, <- Hl in E.
  apply crc_bits_inj in E; [|apply lxor_u32; [done|apply le_word_u32; unfold size in *; lia]..].
  apply (f_equal (Z.lxor s)) in E.
  by rewrite <- !Z.lxor_assoc, Z.lxor_nilpotent, !Z.lxor_0_l in E.
Qed.

Example crc32c_check_value : crc32c (bytes_of_string "123456789") = 0xe3069283.
Proof. vm_compute. reflexivity. Qed.
