(* ===== verification/OrderedMap.v ===== *)
(** * Ordered maps: the [std::map<K, V, Compare>] the containers are built on.

    A map is the list of its entries in iteration order, strictly increasing for the comparator
    [less]; keys are equivalent when neither is less than the other, as in [std::map]. *)
From S2P Require Import Prelude.

Class Less (K : Type) := less : K → K → bool.
Class LessLaws (K : Type) `{Less K} := {
  less_irrefl k : less k k = false;
  less_trans k1 k2 k3 : less k1 k2 = true → less k2 k3 = true → less k1 k3 = true;
  less_total k1 k2 : less k1 k2 = false → less k2 k1 = false → k1 = k2
}.

(** [std::less<>] on [std::string] compares unsigned characters lexicographically. *)
#[export] Instance string_less : Less string := String.ltb.
#[export] Instance Z_less : Less Z := Z.ltb.

Lemma string_compare_refl s : String.compare s s = Eq.
Proof.
  induction s as [|c s IH]; [done|]. simpl. unfold Ascii.compare. by rewrite N.compare_refl.
Qed.
Lemma string_compare_lt_trans s1 s2 s3 :
  String.compare s1 s2 = Lt → String.compare s2 s3 = Lt → String.compare s1 s3 = Lt.
Proof.
  revert s2 s3. induction s1 as [|c1 s1 IH]; intros [|c2 s2] [|c3 s3]; simpl; try done.
  unfold Ascii.compare.
  destruct (N.compare_spec (Ascii.N_of_ascii c1) (Ascii.N_of_ascii c2)) as [E1|E1|E1];
    destruct (N.compare_spec (Ascii.N_of_ascii c2) (Ascii.N_of_ascii c3)) as [E2|E2|E2];
    destruct (N.compare_spec (Ascii.N_of_ascii c1) (Ascii.N_of_ascii c3)) as [E3|E3|E3];
    intros H1 H2; try done; try lia; eauto.
Qed.
#[export] Instance string_less_laws : LessLaws string.
Proof.
  split; unfold less, string_less, String.ltb.
  - intros k. by rewrite string_compare_refl.
  - intros k1 k2 k3. destruct (String.compare k1 k2) eqn:E1; try done.
    destruct (String.compare k2 k3) eqn:E2; try done.
    by rewrite (string_compare_lt_trans k1 k2 k3).
  - intros k1 k2. destruct (String.compare k1 k2) eqn:E1; try done.
    + intros _ _. by apply String.compare_eq_iff.
    + rewrite String.compare_antisym, E1. done.
Qed.
#[export] Instance Z_less_laws : LessLaws Z.
Proof. split; unfold less, Z_less; intros *; rewrite ?Z.ltb_lt, ?Z.ltb_ge; lia. Qed.

Section ordered_map.
Context {K : Type} `{Less K}.

Section operations.
Context {V : Type}.
Implicit Types (m : list (K * V)) (k : K) (v : V).

Fixpoint om_find k m : option V :=
  match m with
  | [] => None
  | (k', v') :: m' =>
      if less k k' then None else if less k' k then om_find k m' else Some v'
  end.
Definition om_contains k m : bool := bool_decide (is_Some (om_find k m)).

(** Insert a new entry, or give the existing one a new mapped value. *)
Fixpoint om_put k v m : list (K * V) :=
  match m with
  | [] => [(k, v)]
  | (k', v') :: m' =>
      if less k k' then (k, v) :: m
      else if less k' k then (k', v') :: om_put k v m' else (k', v) :: m'
  end.
(** [std::map::try_emplace]: whether the entry was inserted. *)
Definition om_try_emplace k v m : list (K * V) * bool :=
  match om_find k m with
  | Some _ => (m, false)
  | None => (om_put k v m, true)
  end.
Fixpoint om_erase k m : list (K * V) :=
  match m with
  | [] => []
  | (k', v') :: m' =>
      if less k k' then m else if less k' k then (k', v') :: om_erase k m' else m'
  end.

Definition below k m : Prop := Forall (λ e, less k e.1 = true) m.
Inductive om_sorted : list (K * V) → Prop :=
| om_sorted_nil : om_sorted []
| om_sorted_cons k v m : below k m → om_sorted m → om_sorted ((k, v) :: m).
#[local] Hint Constructors om_sorted : core.

Context `{!LessLaws K}.

Lemma classic_key k k' : k = k' ∨ k ≠ k'.
Proof.
  destruct (less k k') eqn:E1; [right; intros ->; by rewrite less_irrefl in E1|].
  destruct (less k' k) eqn:E2; [right; intros ->; by rewrite less_irrefl in E2|].
  left. by apply less_total.
Qed.
Lemma below_trans k k' m : less k k' = true → below k' m → below k m.
Proof. intros Hk Hb. eapply Forall_impl; [done|]. intros e He. by eapply less_trans. Qed.
Lemma less_asym k k' : less k k' = true → less k' k = false.
Proof.
  intros H1. destruct (less k' k) eqn:H2; [|done].
  by rewrite <- (less_irrefl k), (less_trans k k' k).
Qed.
Lemma below_put k k' v m : less k k' = true → below k m → below k (om_put k' v m).
Proof.
  intros Hk. induction m as [|[k0 v0] m IH]; simpl; intros Hb.
  - by constructor.
  - apply Forall_cons in Hb as [? Hb]. destruct (less k' k0); [by repeat constructor|].
    destruct (less k0 k'); constructor; try done. by apply IH.
Qed.
Lemma om_put_sorted k v m : om_sorted m → om_sorted (om_put k v m).
Proof.
  induction 1 as [|k0 v0 m Hb Hs IH]; simpl; [by repeat constructor|].
  destruct (less k k0) eqn:E1.
  - constructor; [|by constructor]. constructor; [done|by eapply below_trans].
  - destruct (less k0 k) eqn:E2; [|by constructor].
    constructor; [by apply below_put|done].
Qed.
Lemma below_erase k k' m : below k m → below k (om_erase k' m).
Proof.
  induction m as [|[k0 v0] m IH]; simpl; intros Hb; [done|].
  apply Forall_cons in Hb as [? Hb]. destruct (less k' k0); [by constructor|].
  destruct (less k0 k'); [constructor; [done|by apply IH]|done].
Qed.
Lemma om_erase_sorted k m : om_sorted m → om_sorted (om_erase k m).
Proof.
  induction 1 as [|k0 v0 m Hb Hs IH]; simpl; [constructor|].
  destruct (less k k0); [by constructor|].
  destruct (less k0 k); [|done]. constructor; [by apply below_erase|done].
Qed.
Lemma om_find_below k m : below k m → om_find k m = None.
Proof. destruct m as [|[k' v'] m]; simpl; intros Hb; [done|].
  apply Forall_cons in Hb as [Hk _]. simpl in Hk. by rewrite Hk.
Qed.
Lemma om_find_put k v m : om_find k (om_put k v m) = Some v.
Proof.
  induction m as [|[k' v'] m IH]; simpl; [by rewrite !less_irrefl|].
  destruct (less k k') eqn:E1; simpl; [by rewrite !less_irrefl|].
  destruct (less k' k) eqn:E2; simpl; by rewrite E1, E2.
Qed.
Lemma om_find_put_ne k k' v m :
  k ≠ k' → om_sorted m → om_find k' (om_put k v m) = om_find k' m.
Proof.
  intros Hne. induction 1 as [|k0 v0 m Hb Hs IH]; simpl.
  - destruct (less k' k) eqn:E1; [done|]. destruct (less k k') eqn:E2; [done|].
    by rewrite (less_total k' k) in Hne by done.
  - destruct (less k k0) eqn:E1; simpl.
    + destruct (less k' k) eqn:E3.
      { by rewrite (less_trans k' k k0). }
      destruct (less k k') eqn:E4; [done|]. by rewrite (less_total k' k) in Hne by done.
    + destruct (less k0 k) eqn:E2; simpl.
      * destruct (less k' k0); [done|]. by destruct (less k0 k').
      * destruct (less_total k k0 E1 E2).
        destruct (less k' k) eqn:E3; [done|]. destruct (less k k') eqn:E4; [done|].
        by destruct (less_total k' k E3 E4).
Qed.
Lemma om_find_erase k m : om_sorted m → om_find k (om_erase k m) = None.
Proof.
  induction 1 as [|k0 v0 m Hb Hs IH]; simpl; [done|].
  destruct (less k k0) eqn:E1; simpl; [by rewrite E1|].
  destruct (less k0 k) eqn:E2; simpl; [by rewrite E1, E2|].
  rewrite (less_total k k0) by done. by apply om_find_below.
Qed.
Lemma om_find_erase_ne k k' m :
  k ≠ k' → om_sorted m → om_find k' (om_erase k m) = om_find k' m.
Proof.
  intros Hne. induction 1 as [|k0 v0 m Hb Hs IH]; simpl; [done|].
  destruct (less k k0) eqn:E1; simpl; [done|].
  destruct (less k0 k) eqn:E2; simpl; [by rewrite IH|].
  destruct (less_total k k0 E1 E2).
  destruct (less k' k) eqn:E3.
  - apply om_find_below. by eapply below_trans.
  - destruct (less k k') eqn:E4; [done|]. by rewrite (less_total k' k) in Hne by done.
Qed.
Lemma om_put_id k v m : om_find k m = Some v → om_put k v m = m.
Proof.
  induction m as [|[k0 v0] m IH]; simpl; [done|].
  destruct (less k k0); [done|]. destruct (less k0 k); [by intros ->%IH|by intros [= ->]].
Qed.
Lemma om_put_put k v v' m : om_put k v' (om_put k v m) = om_put k v' m.
Proof.
  induction m as [|[k0 v0] m IH]; simpl; [by rewrite !less_irrefl|].
  destruct (less k k0) eqn:E1; simpl; [by rewrite !less_irrefl|].
  destruct (less k0 k) eqn:E2; simpl; rewrite E1, E2; [by rewrite IH|done].
Qed.
Lemma om_put_last k v m :
  Forall (λ e, less e.1 k = true) m → om_put k v m = m ++ [(k, v)].
Proof.
  induction m as [|[k0 v0] m IH]; simpl; intros Hf; [done|].
  apply Forall_cons in Hf as [Hk Hf]. simpl in Hk.
  by rewrite (less_asym _ _ Hk), Hk, IH.
Qed.
Lemma om_sorted_app_below m k v :
  om_sorted (m ++ [(k, v)]) → Forall (λ e, less e.1 k = true) m ∧ om_sorted m.
Proof.
  induction m as [|[k0 v0] m IH]; simpl; intros Hs; [by repeat constructor|].
  inversion Hs as [|??? Hb Hs']; subst. apply Forall_app in Hb as [Hb1 Hb2].
  destruct (IH Hs'). inversion Hb2; subst. split; constructor; done.
Qed.
(** Inserting the entries of a sorted map one after the other rebuilds it. *)
Lemma om_put_all m : om_sorted m → foldl (λ acc e, om_put e.1 e.2 acc) [] m = m.
Proof.
  induction m as [|[k v] m IH] using rev_ind; intros Hs; [done|].
  apply om_sorted_app_below in Hs as [Hf Hs]. rewrite foldl_app, IH by done.
  simpl. by apply om_put_last.
Qed.
Lemma om_find_In k v m : om_find k m = Some v → ∃ k', (k', v) ∈ m ∧ k' = k.
Proof.
  induction m as [|[k0 v0] m IH]; simpl; [done|].
  destruct (less k k0) eqn:E1; [done|]. destruct (less k0 k) eqn:E2.
  - intros (k' & ? & ->)%IH. eexists; split; [by right|done].
  - intros [= ->]. eexists. split; [by left|]. by rewrite (less_total k k0).
Qed.
Lemma below_not_elem k m : below k m → k ∉ m.*1.
Proof.
  intros Hb (e & -> & He)%list_elem_of_fmap. eapply Forall_forall in Hb; [|done].
  simpl in Hb. by rewrite less_irrefl in Hb.
Qed.
Lemma om_sorted_NoDup m : om_sorted m → NoDup m.*1.
Proof. induction 1; simpl; constructor; [by apply below_not_elem|done]. Qed.
Lemma om_sorted_find k v m : om_sorted m → ((k, v) ∈ m ↔ om_find k m = Some v).
Proof.
  intros Hs. split; [|by intros (? & ? & ->)%om_find_In].
  induction Hs as [|k0 v0 m Hb Hs IH]; [by intros ?%not_elem_of_nil|]. simpl.
  intros [[= <- <-]|Hin]%elem_of_cons; [by rewrite !less_irrefl|].
  eapply Forall_forall in Hb; [|done]. simpl in Hb.
  rewrite (less_asym _ _ Hb), Hb. by apply IH.
Qed.
(** Inserting entries with different keys one after the other, in any order. *)
Lemma om_find_put_list l acc k v :
  NoDup l.*1 → om_sorted acc →
  om_find k (foldl (λ acc e, om_put e.1 e.2 acc) acc l) = Some v ↔
  (k, v) ∈ l ∨ ((k ∉ l.*1) ∧ om_find k acc = Some v).
Proof.
  revert acc. induction l as [|[k0 v0] l IH]; intros acc Hd Hs; simpl.
  - split; [intros; right; split; [by intros ?%not_elem_of_nil|done]|].
    by intros [?%not_elem_of_nil|[_ ?]].
  - apply NoDup_cons in Hd as [Hn Hd]. rewrite IH by auto using om_put_sorted.
    simpl in *. rewrite elem_of_cons, not_elem_of_cons. split.
    + intros [?|[Hk Hf]]; [by left; right|]. destruct (classic_key k k0) as [->|Hne].
      * rewrite om_find_put in Hf. left; left. congruence.
      * right. rewrite om_find_put_ne in Hf by done. done.
    + intros [[[= -> ->]|?]|[[Hne Hk] Hf]]; [|by left|].
      * right. split; [done|apply om_find_put].
      * right. split; [done|]. by rewrite om_find_put_ne.
Qed.
Lemma om_put_list_sorted l acc :
  om_sorted acc → om_sorted (foldl (λ acc e, om_put e.1 e.2 acc) acc l).
Proof. revert acc. induction l; simpl; intros; auto using om_put_sorted. Qed.
Lemma om_put_Forall (P : V → Prop) k v m :
  P v → Forall (λ e, P e.2) m → Forall (λ e, P e.2) (om_put k v m).
Proof.
  intros Hv. induction m as [|[k0 v0] m IH]; simpl; intros Hf; [by repeat constructor|].
  inversion Hf; subst. destruct (less k k0); [by repeat constructor|].
  destruct (less k0 k); constructor; try done. by apply IH.
Qed.
Lemma om_erase_Forall (P : V → Prop) k m :
  Forall (λ e, P e.2) m → Forall (λ e, P e.2) (om_erase k m).
Proof.
  induction m as [|[k0 v0] m IH]; simpl; intros Hf; [done|].
  inversion Hf; subst. destruct (less k k0); [done|].
  destruct (less k0 k); [|done]. constructor; [done|by apply IH].
Qed.
End operations.
End ordered_map.
#[export] Hint Constructors om_sorted : core.
#[export] Hint Resolve om_put_sorted om_erase_sorted : core.
