(* ===== verification/Value.v ===== *)
(** * The logical content of a universal value: [value.hpp] without its observers.

    [value] is the content of a [value] tree, with its queries and const accessors.  The trees the
    program mutates, which also carry observer bindings, are in Observer.v. *)
From S2P Require Import Prelude.
From S2P Require Import OrderedMap.

#[local] Set Warnings "-register-all".

(** A [double] is its IEEE 754 bit pattern, so that the encoded form loses nothing. *)
Abbreviation double := Z (only parsing).

(** [value::variant_type] *)
Inductive value :=
| VNull
| VBool (b : bool)
| VInteger (z : Z)
| VNumber (d : double)
| VString (s : string)
| VArray (l : list value)
| VObject (m : list (string * value)).

Section value_ind.
Context (P : value → Prop).
Context (Hnull : P VNull) (Hbool : ∀ b, P (VBool b)) (Hint : ∀ z, P (VInteger z))
        (Hnum : ∀ d, P (VNumber d)) (Hstr : ∀ s, P (VString s))
        (Harr : ∀ l, Forall P l → P (VArray l))
        (Hobj : ∀ m, Forall (λ e, P e.2) m → P (VObject m)).
Fixpoint value_rect_nested (v : value) : P v :=
  match v with
  | VNull => Hnull
  | VBool b => Hbool b
  | VInteger z => Hint z
  | VNumber d => Hnum d
  | VString s => Hstr s
  | VArray l => Harr l ((fix go l := match l return Forall P l with
                         | [] => Forall_nil_2 _
                         | x :: l' => Forall_cons_2 _ _ _ (value_rect_nested x) (go l')
                         end) l)
  | VObject m => Hobj m ((fix go m := match m return Forall (λ e, P e.2) m with
                          | [] => Forall_nil_2 _
                          | e :: m' => Forall_cons_2 (λ e, P e.2) _ _ (value_rect_nested e.2) (go m')
                          end) m)
  end.
End value_ind.

(** The values the C++ type can hold: integers and bit patterns in range, lengths that fit a
    [size_t], objects with strictly increasing keys. *)
Inductive wf_value : value → Prop :=
| wf_null : wf_value VNull
| wf_bool b : wf_value (VBool b)
| wf_integer z : is_i64 z → wf_value (VInteger z)
| wf_number d : is_u64 d → wf_value (VNumber d)
| wf_string s : is_u64 (ssize s) → wf_value (VString s)
| wf_array l : is_u64 (size l) → Forall wf_value l → wf_value (VArray l)
| wf_object m :
    is_u64 (size m) → om_sorted m → Forall (λ e, is_u64 (ssize e.1)) m →
    Forall (λ e, wf_value e.2) m → wf_value (VObject m).
#[export] Hint Constructors wf_value : core.

Definition is_null (v : value) : bool := match v with VNull => true | _ => false end.
Definition is_bool (v : value) : bool := match v with VBool _ => true | _ => false end.
Definition is_integer (v : value) : bool := match v with VInteger _ => true | _ => false end.
Definition is_number (v : value) : bool := match v with VNumber _ => true | _ => false end.
Definition is_string (v : value) : bool := match v with VString _ => true | _ => false end.
Definition is_array (v : value) : bool := match v with VArray _ => true | _ => false end.
Definition is_object (v : value) : bool := match v with VObject _ => true | _ => false end.

(** The const accessors, which throw [type_error] on another alternative. *)
Definition as_bool (v : value) : result bool :=
  match v with VBool b => Ok b | _ => Throw (type_error "value is not bool") end.
Definition as_integer (v : value) : result Z :=
  match v with VInteger z => Ok z | _ => Throw (type_error "value is not integer") end.
Definition as_number (v : value) : result double :=
  match v with VNumber d => Ok d | _ => Throw (type_error "value is not number") end.
Definition as_string_const (v : value) : result string :=
  match v with VString s => Ok s | _ => Throw (type_error "value is not string") end.
Definition as_array_const (v : value) : result (list value) :=
  match v with VArray l => Ok l | _ => Throw (type_error "value is not array") end.
Definition as_object_const (v : value) : result (list (string * value)) :=
  match v with VObject m => Ok m | _ => Throw (type_error "value is not object") end.
Definition at_const (key : string) (v : value) : result value :=
  match as_object_const v with
  | Ok m => match om_find key m with
            | Some x => Ok x
            | None => Throw (out_of_range "opheap object key not found")
            end
  | Throw e => Throw e
  end.
(** [map::at] of an object. *)
Definition entry_at (key : string) (m : list (string * value)) : result value :=
  match om_find key m with Some x => Ok x | None => Throw (out_of_range "map::at") end.
