(* ===== verification/Observer.v ===== *)
(** * Observed data: [observable.hpp], [binding.hpp], [change_event.hpp], [change_kind.hpp],
    [string.hpp], [vector.hpp], [map.hpp], [property.hpp], [value.hpp], [memory_resource.hpp].

    Every node of the data a transaction hands out carries a binding to an observer.  A mutating
    operation returns the new data and the events it sends, each to the observer its node is bound
    to.  An observer is known by its identity (its address in the program). *)
From S2P Require Import Prelude.
From S2P Require Import OrderedMap.
From S2P Require Import Value.

#[local] Set Warnings "-register-all".

(** ** Events and bindings *)
Inductive change_kind := ck_value | ck_structure | ck_allocation | ck_deallocation.
Record change_event := ChangeEvent { ev_root : Z; ev_kind : change_kind; ev_offset : Z; ev_size : Z }.
(** [binding]: [None] for a null observer. *)
Record observer_binding := Bound { b_observer : Z; b_root : Z }.
Definition binding : Type := option observer_binding.
(** An event and the observer it goes to. *)
Definition sent : Type := Z * change_event.
#[export] Instance observer_binding_eq_dec : EqDecision observer_binding.
Proof. solve_decision. Defined.

(** [observable::notify] *)
Definition notify (b : binding) (kind : change_kind) (offset size : Z) : list sent :=
  match b with
  | None => []
  | Some b => [(b_observer b, ChangeEvent (b_root b) kind offset size)]
  end.
Abbreviation notify_kind b kind := (notify b kind 0 0).

(** [bind_if_supported] and the assignments the containers use on their elements, as one
    interface: a type without [bind] is an instance whose [bind] does nothing. *)
Class element (T : Type) := {
  bind : binding → T → T;
  (** [move_assign other this]: the new element and the events. *)
  move_assign : T → T → T * list sent;
  copy : T → T
}.

(** ** string.hpp *)
Record ostring := OString { str_binding : binding; str_value : string }.
Definition string_bind (b : binding) (s : ostring) : ostring := OString b (str_value s).
Definition string_copy (s : ostring) : ostring := OString None (str_value s).
(** [operator=(string_view)], which the copy assignment calls. *)
Definition string_assign (v : string) (s : ostring) : ostring * list sent :=
  if decide (str_value s = v) then (s, [])
  else (OString (str_binding s) v, notify (str_binding s) ck_value 0 (ssize v)).
Definition string_append (v : string) (s : ostring) : ostring * list sent :=
  let text := str_value s +:+ v in
  (OString (str_binding s) text, notify (str_binding s) ck_value 0 (ssize text)).
Definition string_push_back (c : Ascii.ascii) (s : ostring) : ostring * list sent :=
  let text := str_value s +:+ String c EmptyString in
  (OString (str_binding s) text, notify (str_binding s) ck_structure 0 (ssize text)).
Definition string_clear (s : ostring) : ostring * list sent :=
  if decide (str_value s = "") then (s, [])
  else (OString (str_binding s) "", notify_kind (str_binding s) ck_structure).
(** [erase(pos, count)] throws [std::out_of_range] past the end. *)
Definition string_erase (pos count : Z) (s : ostring) : result (ostring * list sent) :=
  if pos >? ssize (str_value s) then Throw (out_of_range "basic_string::erase")
  else
    let n := Z.to_nat pos in
    let l := bytes_of_string (str_value s) in
    Ok (OString (str_binding s)
          (string_of_bytes (take n l ++ drop (n + Z.to_nat (Z.min count (size l - pos))) l)),
        notify (str_binding s) ck_structure pos count).

(** ** vector.hpp *)
Record vector (T : Type) := Vector { vec_binding : binding; vec_values : list T }.
Arguments Vector {T} _ _.
Arguments vec_binding {T} _.
Arguments vec_values {T} _.

Section vector_operations.
Context {T : Type} `{element T}.
Implicit Types (v : vector T) (x : T).

Definition vector_bind (b : binding) v : vector T := Vector b (bind b <$> vec_values v).
Definition vector_copy v : vector T := Vector None (copy <$> vec_values v).
Definition rebind_all v : vector T := Vector (vec_binding v) (bind (vec_binding v) <$> vec_values v).
(** [emplace_back] and [push_back]: [moved] tells whether the standard library reallocated. *)
Definition vector_push_back (moved : bool) x v : vector T * list sent :=
  let v' := Vector (vec_binding v) (vec_values v ++ [x]) in
  (if moved then rebind_all v'
   else Vector (vec_binding v) (vec_values v ++ [bind (vec_binding v) x]),
   notify_kind (vec_binding v) ck_structure).
(** [values_.erase(pos)]: the elements after [pos] are moved down one by one. *)
Fixpoint move_down (l : list T) : list T * list sent :=
  match l with
  | this :: ((next :: _) as rest) =>
      let '(this', e1) := move_assign next this in
      let '(rest', e2) := move_down rest in
      (this' :: rest', e1 ++ e2)
  | _ => ([], [])
  end.
Definition vector_erase (pos : nat) v : vector T * list sent :=
  let '(tail, events) := move_down (drop pos (vec_values v)) in
  (rebind_all (Vector (vec_binding v) (take pos (vec_values v) ++ tail)),
   events ++ notify_kind (vec_binding v) ck_structure).
Definition vector_clear v : vector T * list sent :=
  match vec_values v with
  | [] => (v, [])
  | _ => (Vector (vec_binding v) [], notify_kind (vec_binding v) ck_structure)
  end.
(** [reserve]: [grown] tells whether the capacity changed. *)
Definition vector_reserve (grown : bool) v : vector T * list sent :=
  if grown then (rebind_all v, notify_kind (vec_binding v) ck_allocation) else (v, []).
Definition vector_at (i : Z) v : result T :=
  match (if i <? 0 then None else vec_values v !! Z.to_nat i) with
  | Some x => Ok x
  | None => Throw (out_of_range "vector::_M_range_check")
  end.
End vector_operations.

(** ** map.hpp *)
Record map (K V : Type) := Map { map_binding : binding; map_values : list (K * V) }.
Arguments Map {K V} _ _.
Arguments map_binding {K V} _.
Arguments map_values {K V} _.

Section map_operations.
Context {K V : Type} `{Less K} `{element V}.
Implicit Types (m : map K V) (k : K).

Definition map_bind (b : binding) m : map K V := Map b (prod_map (λ k : K, k) (bind b) <$> map_values m).
Definition map_copy m : map K V := Map None (prod_map (λ k : K, k) copy <$> map_values m).
(** [try_emplace(key, args...)], and [operator[]] with a default element. *)
Definition map_try_emplace k (x : V) m : (map K V * bool) * list sent :=
  match om_find k (map_values m) with
  | Some _ => ((m, false), [])
  | None =>
      ((Map (map_binding m) (om_put k (bind (map_binding m) x) (map_values m)), true),
       notify_kind (map_binding m) ck_structure)
  end.
Definition map_erase k m : (map K V * Z) * list sent :=
  if om_contains k (map_values m)
  then ((Map (map_binding m) (om_erase k (map_values m)), 1), notify_kind (map_binding m) ck_structure)
  else ((m, 0), []).
Definition map_clear m : map K V * list sent :=
  match map_values m with
  | [] => (m, [])
  | _ => (Map (map_binding m) [], notify_kind (map_binding m) ck_structure)
  end.
Definition map_at k m : result V :=
  match om_find k (map_values m) with
  | Some x => Ok x
  | None => Throw (out_of_range "map::at")
  end.
Definition map_contains k m : bool := om_contains k (map_values m).
End map_operations.

(** ** property.hpp *)
Record property (T : Type) := Property { pr_binding : binding; pr_value : T }.
Arguments Property {T} _ _.
Arguments pr_binding {T} _.
Arguments pr_value {T} _.

Section property_operations.
(** [T] with its [==] when it has one, and [sizeof(T)]. *)
Context {T : Type} `{element T} (equal : option (T → T → bool)) (sizeof : Z).
Implicit Types (p : property T) (x : T).

Definition property_notify p : list sent := notify (pr_binding p) ck_value 0 sizeof.
Definition property_bind (b : binding) p : property T := Property b (bind b (pr_value p)).
Definition same_value x p : bool := match equal with Some eq => eq (pr_value p) x | None => false end.
(** [assign], behind both copy assignments, and [operator=(T&&)]: nothing is moved here that
    is looked at again. *)
Definition property_assign x p : property T * list sent :=
  if same_value x p then (p, [])
  else (Property (pr_binding p) (bind (pr_binding p) x), property_notify p).
(** [operator=(property&&)] always stores and notifies. *)
Definition property_move_assign (other : property T) p : property T * list sent :=
  (Property (pr_binding p) (bind (pr_binding p) (pr_value other)), property_notify p).
(** [mutate] with a function, and the operators [++], [+=], [-=] with theirs, which do not bind
    the value again. *)
Definition property_mutate (f : T → T) p : property T * list sent :=
  (Property (pr_binding p) (bind (pr_binding p) (f (pr_value p))), property_notify p).
Definition property_update (f : T → T) p : property T * list sent :=
  (Property (pr_binding p) (f (pr_value p)), property_notify p).
End property_operations.

(** ** memory_resource.hpp *)

(** [observing_resource]: what is sent when [bytes] are allocated from and returned to the
    upstream resource. *)
Definition do_allocate (b : binding) (bytes : Z) : list sent := notify b ck_allocation 0 bytes.
Definition do_deallocate (b : binding) (bytes : Z) : list sent := notify b ck_deallocation 0 bytes.

(** ** value.hpp *)

(** A [value] object: its own binding and its variant.  [array] and [object] are the vector and
    the map of values. *)
Inductive node := Node (b : binding) (d : variant)
with variant :=
| NNull
| NBool (v : bool)
| NInteger (v : Z)
| NNumber (v : double)
| NString (v : ostring)
| NArray (v : vector node)
| NObject (v : map string node).

Definition n_binding (n : node) : binding := match n with Node b _ => b end.
Definition n_data (n : node) : variant := match n with Node _ d => d end.

(** The logical content of a node. *)
Fixpoint content (n : node) : value :=
  match n with Node _ d => variant_content d end
with variant_content (d : variant) : value :=
  match d with
  | NNull => VNull
  | NBool v => VBool v
  | NInteger v => VInteger v
  | NNumber v => VNumber v
  | NString v => VString (str_value v)
  | NArray (Vector _ l) => VArray (List.map content l)
  | NObject (Map _ m) => VObject (List.map (λ e, (e.1, content e.2)) m)
  end.

(** [value::bind] reaches every node below. *)
Fixpoint node_bind (b : binding) (n : node) : node :=
  match n with Node _ d => Node b (variant_bind b d) end
with variant_bind (b : binding) (d : variant) : variant :=
  match d with
  | NString v => NString (string_bind b v)
  | NArray (Vector _ l) => NArray (Vector b (List.map (node_bind b) l))
  | NObject (Map _ m) => NObject (Map b (List.map (λ e, (e.1, node_bind b e.2)) m))
  | d => d
  end.
(** The copy constructor: a deep copy that nothing observes. *)
Fixpoint node_copy (n : node) : node :=
  match n with Node _ d => Node None (variant_copy d) end
with variant_copy (d : variant) : variant :=
  match d with
  | NString v => NString (string_copy v)
  | NArray (Vector _ l) => NArray (Vector None (List.map node_copy l))
  | NObject (Map _ m) => NObject (Map None (List.map (λ e, (e.1, node_copy e.2)) m))
  | d => d
  end.

(** [data_ = v]: between two strings this is [string::operator=]; otherwise the alternative is
    replaced without a notification. *)
Definition variant_assign (new old : variant) : variant * list sent :=
  match new, old with
  | NString s, NString s0 =>
      let '(s', events) := string_assign (str_value s) s0 in (NString s', events)
  | NString s, _ => (NString (string_copy s), [])
  | _, _ => (new, [])
  end.
(** [value::replace], and the body of both assignment operators: assign, bind, notify. *)
Definition replace (kind : change_kind) (new : variant) (n : node) : node * list sent :=
  let b := n_binding n in
  let '(d, events) := variant_assign new (n_data n) in
  (node_bind b (Node b d), events ++ notify_kind b kind).
Definition assign_copy (other n : node) : node * list sent :=
  replace ck_value (variant_copy (n_data other)) n.
Definition assign_move (other n : node) : node * list sent := replace ck_value (n_data other) n.
Definition assign_null : node → node * list sent := replace ck_value NNull.
Definition assign_bool (v : bool) : node → node * list sent := replace ck_value (NBool v).
Definition assign_integer (v : Z) : node → node * list sent := replace ck_value (NInteger v).
Definition assign_number (v : double) : node → node * list sent := replace ck_value (NNumber v).
Definition assign_string (v : string) : node → node * list sent :=
  replace ck_value (NString (OString None v)).

#[export] Instance node_element : element node :=
  {| bind := node_bind; move_assign := assign_move; copy := node_copy |}.

(** The mutable accessors [as_string], [as_array] and [as_object] convert the node first when it
    holds something else; each takes what is then done to the part. *)
Definition part_string (d : variant) : option ostring := match d with NString s => Some s | _ => None end.
Definition part_array (d : variant) : option (vector node) := match d with NArray v => Some v | _ => None end.
Definition part_object (d : variant) : option (map string node) := match d with NObject m => Some m | _ => None end.
Definition with_part {P} (part : variant → option P) (mk : P → variant) (empty : P) (kind : change_kind)
    (f : P → P * list sent) (n : node) : node * list sent :=
  let '(n, e1) := match part (n_data n) with
                  | Some _ => (n, [])
                  | None => replace kind (mk empty) n
                  end in
  match part (n_data n) with
  | Some p => let '(p, e2) := f p in (Node (n_binding n) (mk p), e1 ++ e2)
  | None => (n, e1)
  end.
Definition with_string : (ostring → ostring * list sent) → node → node * list sent :=
  with_part part_string NString (OString None "") ck_value.
Definition with_array : (vector node → vector node * list sent) → node → node * list sent :=
  with_part part_array NArray (Vector None []) ck_structure.
Definition with_object : (map string node → map string node * list sent) → node → node * list sent :=
  with_part part_object NObject (Map None []) ck_structure.
Definition as_string : node → node * list sent := with_string (λ s, (s, [])).
Definition as_array : node → node * list sent := with_array (λ v, (v, [])).
Definition as_object : node → node * list sent := with_object (λ m, (m, [])).

(** The reference [operator[]] gives into a vector, a map and a value, with what is done to the
    element. *)
Definition at_index (i : nat) (f : node → node * list sent) (v : vector node) : vector node * list sent :=
  match vec_values v !! i with
  | Some x => let '(x, events) := f x in (Vector (vec_binding v) (<[i := x]> (vec_values v)), events)
  | None => (v, [])
  end.
Definition map_at_key (key : string) (f : node → node * list sent) (m : map string node)
    : map string node * list sent :=
  let '((m, _), e1) := map_try_emplace key (Node None NNull) m in
  match om_find key (map_values m) with
  | Some x => let '(x, e2) := f x in (Map (map_binding m) (om_put key x (map_values m)), e1 ++ e2)
  | None => (m, e1)
  end.
Definition node_at (key : string) (f : node → node * list sent) : node → node * list sent :=
  with_object (map_at_key key f).

(** The nodes of a content, as decoding builds them: bound to nothing. *)
Fixpoint fresh (v : value) : node :=
  match v with
  | VNull => Node None NNull
  | VBool v => Node None (NBool v)
  | VInteger v => Node None (NInteger v)
  | VNumber v => Node None (NNumber v)
  | VString v => Node None (NString (OString None v))
  | VArray l => Node None (NArray (Vector None (List.map fresh l)))
  | VObject m => Node None (NObject (Map None (List.map (λ e, (e.1, fresh e.2)) m)))
  end.

(** ** Induction over nodes *)
Section node_induction.
Context (P : node → Prop).
Context (Hnull : ∀ b, P (Node b NNull)) (Hbool : ∀ b v, P (Node b (NBool v)))
        (Hint : ∀ b v, P (Node b (NInteger v))) (Hnum : ∀ b v, P (Node b (NNumber v)))
        (Hstr : ∀ b s, P (Node b (NString s)))
        (Harr : ∀ b b' l, Forall P l → P (Node b (NArray (Vector b' l))))
        (Hobj : ∀ b b' m, Forall (λ e, P e.2) m → P (Node b (NObject (Map b' m)))).
Fixpoint node_nested_ind (n : node) : P n :=
  match n with
  | Node b NNull => Hnull b
  | Node b (NBool v) => Hbool b v
  | Node b (NInteger v) => Hint b v
  | Node b (NNumber v) => Hnum b v
  | Node b (NString s) => Hstr b s
  | Node b (NArray (Vector b' l)) =>
      Harr b b' l ((fix go l := match l return Forall P l with
                    | [] => Forall_nil_2 _
                    | x :: l' => Forall_cons_2 _ _ _ (node_nested_ind x) (go l')
                    end) l)
  | Node b (NObject (Map b' m)) =>
      Hobj b b' m ((fix go m := match m return Forall (λ e, P e.2) m with
                    | [] => Forall_nil_2 _
                    | e :: m' => Forall_cons_2 (λ e, P e.2) _ _ (node_nested_ind e.2) (go m')
                    end) m)
  end.
End node_induction.

(** Two functions that agree on the elements agree on the list. *)
Lemma map_ext_Forall {A B} (f g : A → B) l : Forall (λ x, f x = g x) l → List.map f l = List.map g l.
Proof. induction 1 as [|x l E _ IH]; simpl; [done|]. by rewrite E, IH. Qed.
Ltac node_cases :=
  rewrite ?List.map_map; repeat (first [apply map_ext_Forall | progress f_equal]);
  eapply Forall_impl; [eassumption|]; simpl; intros; first [done | f_equal; done].

Lemma node_bind_bind b b' n : node_bind b (node_bind b' n) = node_bind b n.
Proof. induction n using node_nested_ind; simpl; try done; node_cases. Qed.
Lemma content_bind b n : content (node_bind b n) = content n.
Proof. induction n using node_nested_ind; simpl; try done; node_cases. Qed.
Lemma content_copy n : content (node_copy n) = content n.
Proof. induction n using node_nested_ind; simpl; try done; node_cases. Qed.
Lemma map_id_Forall {A} (f : A → A) l : Forall (λ x, f x = x) l → List.map f l = l.
Proof. induction 1 as [|x l E _ IH]; simpl; [done|]. by rewrite E, IH. Qed.
Lemma content_fresh v : content (fresh v) = v.
Proof.
  induction v as [| | | | |l IH|m IH] using value_rect_nested; simpl; try done; f_equal;
    rewrite List.map_map; apply map_id_Forall; [done|].
  eapply Forall_impl; [done|]. intros [k x] E. simpl in *. by rewrite E.
Qed.

(** ** Everything is observed *)

(** [bound_to b x]: every node of [x] is bound to [b], that is, binding it again changes nothing. *)
Definition bound_to {T} (bnd : binding → T → T) (b : binding) (x : T) : Prop := bnd b x = x.
(** The events all go to the observer of [b], about its root. *)
Definition addressed (b : binding) (events : list sent) : Prop :=
  Forall (λ s, b = Some (Bound s.1 (ev_root s.2))) events.

(** An operation is [observed] when it keeps everything bound, addresses its events to the
    binding, and, under an observer, is silent only if it does not change the content. *)
Definition observed {T C} (bnd : binding → T → T) (cont : T → C) (f : T → T * list sent) : Prop :=
  ∀ b x, bound_to bnd b x →
    bound_to bnd b (f x).1 ∧ addressed b (f x).2 ∧
    (b ≠ None → (f x).2 = [] → cont (f x).1 = cont x).

Lemma addressed_notify b k o n : addressed b (notify b k o n).
Proof. unfold addressed, notify. destruct b as [[o' r]|]; repeat constructor. Qed.
Lemma addressed_app b e1 e2 : addressed b e1 → addressed b e2 → addressed b (e1 ++ e2).
Proof. apply Forall_app_2. Qed.
Lemma addressed_nil b : addressed b [].
Proof. constructor. Qed.
Lemma notify_silent b k o n : b ≠ None → notify b k o n ≠ [].
Proof. by destruct b. Qed.
#[export] Hint Resolve addressed_notify addressed_app addressed_nil : core.

(** A notification at the end means the operation is never silent. *)
Lemma never_silent b e k o n : b ≠ None → e ++ notify b k o n = [] → False.
Proof. intros Hb [_ E]%app_nil. by apply (notify_silent b k o n Hb). Qed.

Section string_observed.
Implicit Types (s : ostring).
Lemma string_bound b s : bound_to string_bind b s ↔ str_binding s = b.
Proof. unfold bound_to, string_bind. destruct s as [b' v]; simpl. split; [by intros [= ->]|by intros ->]. Qed.

Lemma string_assign_observed v : observed string_bind str_value (string_assign v).
Proof.
  intros b s Hb%string_bound. unfold string_assign. case_decide; simpl; subst.
  - split_and!; [by apply string_bound|done|done].
  - split_and!; [done|auto|]. by intros ? ?%notify_silent.
Qed.
Lemma string_append_observed v : observed string_bind str_value (string_append v).
Proof.
  intros b s <-%string_bound. simpl. split_and!; [done|unfold string_append; simpl; auto|].
  by intros ? ?%notify_silent.
Qed.
Lemma string_push_back_observed c : observed string_bind str_value (string_push_back c).
Proof.
  intros b s <-%string_bound. simpl. split_and!; [done|unfold string_push_back; simpl; auto|].
  by intros ? ?%notify_silent.
Qed.
Lemma string_clear_observed : observed string_bind str_value string_clear.
Proof.
  intros b s Hb%string_bound. unfold string_clear. case_decide; simpl; subst.
  - split_and!; [by apply string_bound|done|done].
  - split_and!; [done|auto|]. by intros ? ?%notify_silent.
Qed.
End string_observed.

(** *** Vectors *)
Section elements_observed.
Context {T C : Type} `{element T} (cont : T → C).
(** What the containers need of their elements. *)
Class element_laws := {
  bind_absorbs b b' (x : T) : bind b (bind b' x) = bind b x;
  cont_bind b (x : T) : cont (bind b x) = cont x;
  move_content (x y : T) : cont (move_assign x y).1 = cont x;
  move_observed (x : T) : observed bind cont (move_assign x)
}.
End elements_observed.

Section vector_observed.
Context {T C : Type} `{element T} (cont : T → C) `{!element_laws cont}.
Implicit Types (v : vector T) (l : list T).
Definition vector_content v : list C := cont <$> vec_values v.

Lemma bound_bind b (x : T) : bound_to bind b (bind b x).
Proof. apply (bind_absorbs cont). Qed.
Lemma vector_bound b v :
  bound_to vector_bind b v ↔ vec_binding v = b ∧ Forall (bound_to bind b) (vec_values v).
Proof.
  unfold bound_to, vector_bind. destruct v as [b' l]; simpl. split.
  - intros [= -> E]. split; [done|]. induction l as [|x l IH]; [constructor|].
    injection E as E1 E2. constructor; auto.
  - intros [-> Hl]. f_equal. induction Hl as [|x l E _ IH]; [done|]. by rewrite fmap_cons, E, IH.
Qed.
Lemma bound_all b l : Forall (bound_to bind b) (bind b <$> l).
Proof. induction l; constructor; [apply bound_bind|done]. Qed.
Lemma rebind_all_bound b v : vec_binding v = b → bound_to vector_bind b (rebind_all v).
Proof. intros <-. apply vector_bound. split; [done|]. apply bound_all. Qed.
Lemma rebind_all_content v : vector_content (rebind_all v) = vector_content v.
Proof.
  unfold vector_content, rebind_all; simpl. induction (vec_values v) as [|x l IH]; [done|].
  by rewrite !fmap_cons, (cont_bind cont), IH.
Qed.

Lemma push_back_observed moved x : observed vector_bind vector_content (vector_push_back moved x).
Proof.
  intros b v Hb%vector_bound. destruct Hb as [Eb Hl]. unfold vector_push_back; simpl. rewrite Eb. split_and!.
  - destruct moved; [by apply rebind_all_bound|]. apply vector_bound; simpl. split; [done|].
    apply Forall_app. split; [done|]. constructor; [apply bound_bind|constructor].
  - auto.
  - by intros ? ?%notify_silent.
Qed.
Lemma push_back_content moved x v :
  vector_content (vector_push_back moved x v).1 = vector_content v ++ [cont x].
Proof.
  unfold vector_push_back; simpl. destruct moved.
  - rewrite rebind_all_content. unfold vector_content; simpl. by rewrite fmap_app.
  - unfold vector_content; simpl. rewrite fmap_app; simpl. by rewrite (cont_bind cont).
Qed.

Lemma move_down_cons (this next : T) l :
  move_down (this :: next :: l) =
  let '(this', e1) := move_assign next this in
  let '(rest', e2) := move_down (next :: l) in (this' :: rest', e1 ++ e2).
Proof. done. Qed.
Lemma tail_drop {A} n (l : list A) : tail (drop n l) = drop (S n) l.
Proof. revert n. induction l as [|x l IH]; intros [|n]; simpl; done. Qed.
Lemma move_down_spec b l :
  Forall (bound_to bind b) l →
  Forall (bound_to bind b) (move_down l).1 ∧ addressed b (move_down l).2 ∧
  cont <$> (move_down l).1 = cont <$> tail l.
Proof.
  induction l as [|this [|next l] IH]; intros Hl; [by split_and!|by split_and!|].
  apply Forall_cons in Hl as [Ht Hl]. destruct (IH Hl) as (H1 & H2 & H3).
  rewrite move_down_cons. pose proof (move_observed cont next b this Ht) as (B1 & B2 & _).
  pose proof (move_content cont next this) as Hc.
  destruct (move_assign next this) as [this' e1].
  destruct (move_down (next :: l)) as [rest e2]. simpl in *.
  split_and!; [by constructor|by apply addressed_app|]. by f_equal.
Qed.
Lemma vector_erase_spec b pos v :
  bound_to vector_bind b v →
  vector_content (vector_erase pos v).1 = delete pos (vector_content v) ∧
  bound_to vector_bind b (vector_erase pos v).1 ∧ addressed b (vector_erase pos v).2.
Proof.
  intros [Eb Hl]%vector_bound. unfold vector_erase.
  destruct (move_down_spec b (drop pos (vec_values v))) as (H1 & H2 & H3); [by apply Forall_drop|].
  destruct (move_down (drop pos (vec_values v))) as [tl events]. simpl in *. rewrite Eb. split_and!.
  - rewrite rebind_all_content. unfold vector_content; simpl.
    rewrite fmap_app, H3, fmap_take, fmap_tail, fmap_drop, delete_take_drop. f_equal. apply tail_drop.
  - by apply rebind_all_bound.
  - auto.
Qed.
Lemma vector_erase_observed pos : observed vector_bind vector_content (vector_erase pos).
Proof.
  intros b v Hb. pose proof (vector_erase_spec b pos v Hb) as (_ & ? & ?).
  apply vector_bound in Hb as [Eb _]. split_and!; [done|done|].
  unfold vector_erase. destruct (move_down _) as [tl events]. simpl. rewrite Eb.
  intros Hn E. exfalso. by eapply never_silent.
Qed.
Lemma vector_clear_observed : observed vector_bind vector_content vector_clear.
Proof.
  intros b v Hb. pose proof Hb as [Eb _]%vector_bound. unfold vector_clear.
  destruct (vec_values v) eqn:E; simpl; [by split_and!|]. rewrite Eb.
  split_and!; [by apply vector_bound|auto|by intros ? ?%notify_silent].
Qed.
Lemma vector_reserve_observed grown : observed vector_bind vector_content (vector_reserve grown).
Proof.
  intros b v Hb. pose proof Hb as [Eb _]%vector_bound. unfold vector_reserve. destruct grown; simpl; [|by split_and!].
  rewrite Eb. split_and!; [by apply rebind_all_bound|auto|by intros ? ?%notify_silent].
Qed.
End vector_observed.

(** *** Maps *)
Section map_observed.
Context {K V C : Type} `{LessLaws K} `{element V} (cont : V → C) `{!element_laws cont}.
Implicit Types (m : map K V) (k : K).
Definition map_content m : list (K * C) := prod_map (λ k : K, k) cont <$> map_values m.

Lemma map_bound b m :
  bound_to map_bind b m ↔ map_binding m = b ∧ Forall (λ e, bound_to bind b e.2) (map_values m).
Proof.
  unfold bound_to, map_bind. destruct m as [b' l]; simpl. split.
  - intros [= -> E]. split; [done|]. induction l as [|[k x] l IH]; [constructor|].
    injection E as E1 E2. constructor; auto.
  - intros [-> Hl]. f_equal. induction Hl as [|[k x] l E _ IH]; [done|]. rewrite fmap_cons, IH.
    unfold prod_map; simpl in *. by rewrite E.
Qed.
Lemma om_put_content k x (l : list (K * V)) :
  prod_map (λ k : K, k) cont <$> om_put k x l = om_put k (cont x) (prod_map (λ k : K, k) cont <$> l).
Proof.
  induction l as [|[k0 x0] l IH]; [done|]. cbn. destruct (less k k0); [done|].
  destruct (less k0 k); [|done]. by rewrite fmap_cons, IH.
Qed.
Lemma om_erase_content k (l : list (K * V)) :
  prod_map (λ k : K, k) cont <$> om_erase k l = om_erase k (prod_map (λ k : K, k) cont <$> l).
Proof.
  induction l as [|[k0 x0] l IH]; [done|]. cbn. destruct (less k k0); [done|].
  destruct (less k0 k); [|done]. by rewrite fmap_cons, IH.
Qed.
Lemma om_find_content k (l : list (K * V)) :
  om_find k (prod_map (λ k : K, k) cont <$> l) = cont <$> om_find k l.
Proof.
  induction l as [|[k0 x0] l IH]; [done|]. cbn. destruct (less k k0); [done|].
  destruct (less k0 k); [apply IH|done].
Qed.

(** What [try_emplace] and [erase] do to the content: an insertion of a new key, a removal. *)
Lemma try_emplace_content k x m :
  map_content (map_try_emplace k x m).1.1 = (om_try_emplace k (cont x) (map_content m)).1 ∧
  (map_try_emplace k x m).1.2 = (om_try_emplace k (cont x) (map_content m)).2.
Proof.
  unfold map_try_emplace, om_try_emplace, map_content. rewrite om_find_content.
  destruct (om_find k (map_values m)); simpl; [done|]. by rewrite om_put_content, (cont_bind cont).
Qed.
Lemma map_erase_content k m :
  map_content (map_erase k m).1.1 =
  if om_contains k (map_content m) then om_erase k (map_content m) else map_content m.
Proof.
  unfold map_erase, map_content, om_contains. rewrite om_find_content.
  destruct (om_find k (map_values m)); simpl.
  - apply om_erase_content.
  - done.
Qed.

Lemma try_emplace_observed k x : observed map_bind map_content (λ m, let r := map_try_emplace k x m in (r.1.1, r.2)).
Proof.
  intros b m Hb. pose proof Hb as [Eb Hm]%map_bound. unfold map_try_emplace.
  destruct (om_find k (map_values m)); simpl; [by split_and!|]. rewrite Eb.
  split_and!; [|auto|by intros ? ?%notify_silent].
  apply map_bound; simpl. split; [done|]. apply (om_put_Forall (bound_to bind b)); [|done].
  by apply (bound_bind cont).
Qed.
Lemma map_erase_observed k : observed map_bind map_content (λ m, let r := map_erase k m in (r.1.1, r.2)).
Proof.
  intros b m Hb. pose proof Hb as [Eb Hm]%map_bound. unfold map_erase.
  destruct (om_contains k (map_values m)); simpl; [|by split_and!]. rewrite Eb.
  split_and!; [|auto|by intros ? ?%notify_silent].
  apply map_bound; simpl. split; [done|]. by apply (om_erase_Forall (bound_to bind b)).
Qed.
Lemma map_clear_observed : observed map_bind map_content map_clear.
Proof.
  intros b m Hb. pose proof Hb as [Eb _]%map_bound. unfold map_clear.
  destruct (map_values m) eqn:E; simpl; [by split_and!|]. rewrite Eb.
  split_and!; [by apply map_bound|auto|by intros ? ?%notify_silent].
Qed.
End map_observed.

(** *** Values *)
Lemma n_binding_bind b n : n_binding (node_bind b n) = b.
Proof. by destruct n. Qed.
Lemma bound_binding b n : bound_to node_bind b n → n_binding n = b.
Proof. intros <-. apply n_binding_bind. Qed.
Lemma node_bound_bind b n : bound_to node_bind b (node_bind b n).
Proof. apply node_bind_bind. Qed.

Lemma variant_assign_content new old :
  variant_content (variant_assign new old).1 = variant_content new.
Proof.
  destruct new, old; simpl; try done. unfold string_assign. case_decide; simpl; congruence.
Qed.
Lemma replace_content k new n : content (replace k new n).1 = variant_content new.
Proof.
  unfold replace. pose proof (variant_assign_content new (n_data n)) as E.
  destruct (variant_assign new (n_data n)) as [d events]. simpl. rewrite <- E.
  by apply (content_bind _ (Node (n_binding n) d)).
Qed.
Lemma variant_assign_addressed b new n :
  bound_to node_bind b n → addressed b (variant_assign new (n_data n)).2.
Proof.
  intros Hb. destruct n as [b' d]. injection Hb as -> Hd. simpl.
  destruct new, d; simpl; auto. injection Hd as Hd.
  unfold string_assign. case_decide; simpl; auto. rewrite <- Hd. simpl. auto.
Qed.
Lemma replace_observed k new : observed node_bind content (replace k new).
Proof.
  intros b n Hb. pose proof (bound_binding b n Hb) as Eb. unfold replace.
  pose proof (variant_assign_addressed b new n Hb) as Ha.
  destruct (variant_assign new (n_data n)) as [d events]. simpl in *. rewrite Eb.
  split_and!; [by apply (node_bound_bind b (Node b d))|auto|].
  intros Hn E. exfalso. by eapply never_silent.
Qed.
#[export] Instance node_element_laws : element_laws content.
Proof.
  split.
  - apply node_bind_bind.
  - apply content_bind.
  - intros x y. simpl. unfold assign_move. rewrite replace_content. by destruct x.
  - intros x. apply replace_observed.
Qed.

Lemma content_array b v : content (Node b (NArray v)) = VArray (vector_content content v).
Proof. by destruct v. Qed.
Lemma content_object b m : content (Node b (NObject m)) = VObject (map_content content m).
Proof. destruct m as [b' m]. simpl. f_equal. Qed.
Lemma bound_array b v : bound_to node_bind b (Node b (NArray v)) ↔ bound_to vector_bind b v.
Proof.
  unfold bound_to, vector_bind. destruct v as [b' l]; simpl. split; intros [= -> E].
  - f_equal. exact E.
  - do 2 f_equal. f_equal. exact E.
Qed.
Lemma bound_object b m : bound_to node_bind b (Node b (NObject m)) ↔ bound_to map_bind b m.
Proof.
  unfold bound_to, map_bind. destruct m as [b' l]; simpl. split; intros [= -> E].
  - f_equal. exact E.
  - do 2 f_equal. f_equal. exact E.
Qed.

Section node_operations_observed.
(** Converting a node first, then operating on the part, stays observed. *)
Lemma observed_seq f (g : node → node * list sent) :
  observed node_bind content f → observed node_bind content g →
  observed node_bind content (λ n, let '(n1, e1) := f n in let '(n2, e2) := g n1 in (n2, e1 ++ e2)).
Proof.
  intros Hf Hg b n Hb. destruct (Hf b n Hb) as (F1 & F2 & F3). destruct (f n) as [n1 e1]; simpl in *.
  destruct (Hg b n1 F1) as (G1 & G2 & G3). destruct (g n1) as [n2 e2]; simpl in *.
  split_and!; [done|auto|]. intros Hn [-> ->]%app_nil. by rewrite G3, F3.
Qed.

(** The same scheme for the three mutable accessors: the part of kind [mk], empty at first. *)
Section accessor.
Context {P C : Type} (mk : P → variant) (part : variant → option P) (empty : P).
Context (pbind : binding → P → P) (pcont : P → C) (vmk : C → value) (kind : change_kind).
Context (Hpart : ∀ d p, part d = Some p ↔ d = mk p).
Context (Hcont : ∀ p, variant_content (mk p) = vmk (pcont p)).
Context (Hbound : ∀ b p, bound_to node_bind b (Node b (mk p)) ↔ bound_to pbind b p).
Context (Hempty : ∀ b d, part d = None →
  ∃ p, replace kind (mk empty) (Node b d) = (Node b (mk p), notify_kind b kind) ∧ bound_to pbind b p).

Lemma accessor_observed f : observed pbind pcont f → observed node_bind content (with_part part mk empty kind f).
Proof.
  intros Hf b [b' d] Hb. pose proof (bound_binding b _ Hb) as Eb. simpl in Eb. subst b'.
  unfold with_part. cbn [n_data n_binding]. destruct (part d) as [p|] eqn:Hd.
  - cbn [n_data n_binding]. rewrite Hd. apply Hpart in Hd as ->. apply Hbound in Hb.
    destruct (Hf b p Hb) as (F1 & F2 & F3). destruct (f p) as [p' e]; simpl in *.
    split_and!; [by apply Hbound|done|]. intros. by rewrite !Hcont, F3.
  - destruct (Hempty b d Hd) as (p & -> & Hp). cbn [n_data n_binding].
    rewrite (proj2 (Hpart (mk p) p) eq_refl).
    destruct (Hf b p Hp) as (F1 & F2 & F3). destruct (f p) as [p' e]; simpl in *.
    split_and!; [by apply Hbound|auto|]. intros Hn [E _]%app_nil. exfalso. by eapply notify_silent.
Qed.
End accessor.

Lemma with_string_observed f : observed string_bind str_value f → observed node_bind content (with_string f).
Proof.
  intros Hf. apply (accessor_observed NString part_string (OString None "") string_bind str_value VString).
  - intros [] p; simpl; split; congruence.
  - done.
  - intros b [b' s]. unfold bound_to; simpl. split; [by intros [= ->]|by intros [= ->]].
  - intros b [] ?; try done; by exists (OString b "").
  - done.
Qed.
Lemma with_array_observed f :
  observed vector_bind (vector_content content) f → observed node_bind content (with_array f).
Proof.
  intros Hf. apply (accessor_observed NArray part_array (Vector None []) vector_bind (vector_content content) VArray).
  - intros [] p; simpl; split; congruence.
  - by intros [].
  - apply bound_array.
  - intros b [] ?; try done; by exists (Vector b []).
  - done.
Qed.
Lemma with_object_observed f :
  observed map_bind (map_content content) f → observed node_bind content (with_object f).
Proof.
  intros Hf. apply (accessor_observed NObject part_object (Map None []) map_bind (map_content content) VObject).
  - intros [] p; simpl; split; congruence.
  - by intros [].
  - apply bound_object.
  - intros b [] ?; try done; by exists (Map b []).
  - done.
Qed.

(** Operating on an element of a part. *)
Lemma at_index_observed i f :
  observed node_bind content f → observed vector_bind (vector_content content) (at_index i f).
Proof.
  intros Hf b v Hb. pose proof Hb as [Eb Hl]%vector_bound. unfold at_index.
  destruct (vec_values v !! i) as [x|] eqn:Hi; [|by split_and!].
  pose proof (Forall_lookup_1 _ _ _ _ Hl Hi) as Hx. destruct (Hf b x Hx) as (F1 & F2 & F3).
  destruct (f x) as [x' e]; simpl in *. split_and!; [|done|].
  - apply vector_bound; simpl. split; [done|]. by apply Forall_insert.
  - intros Hn ->. unfold vector_content; simpl. rewrite list_fmap_insert, F3 by done.
    apply list_insert_id. by rewrite list_lookup_fmap, Hi.
Qed.

(** The element [operator[]] refers to, once it is there. *)
Definition emplaced (key : string) (m : map string node) : node :=
  default (node_bind (map_binding m) (Node None NNull)) (om_find key (map_values m)).
Lemma map_at_key_eq key f m :
  map_at_key key f m =
  (Map (map_binding m) (om_put key (f (emplaced key m)).1 (map_values m)),
   (if decide (om_find key (map_values m) = None) then notify_kind (map_binding m) ck_structure else []) ++
   (f (emplaced key m)).2).
Proof.
  unfold map_at_key, map_try_emplace, emplaced.
  destruct (om_find key (map_values m)) as [x|] eqn:E; simpl.
  - rewrite E. destruct (f x) as [x' e]. simpl. done.
  - rewrite om_find_put.
    match goal with |- context [f ?y] => destruct (f y) as [x' e] end. simpl. by rewrite om_put_put.
Qed.
Lemma emplaced_bound b key m : bound_to map_bind b m → bound_to node_bind b (emplaced key m).
Proof.
  intros [Eb Hm]%map_bound. unfold emplaced. rewrite Eb.
  destruct (om_find key (map_values m)) as [x|] eqn:E; simpl; [|done].
  apply om_find_In in E as (k & Hin & _). by eapply Forall_forall in Hm; [|exact Hin].
Qed.
Lemma map_at_key_observed key f :
  observed node_bind content f → observed map_bind (map_content content) (map_at_key key f).
Proof.
  intros Hf b m Hb. pose proof (emplaced_bound b key m Hb) as Hx. rewrite map_at_key_eq.
  destruct (Hf b _ Hx) as (F1 & F2 & F3). pose proof Hb as [Eb Hm]%map_bound. simpl. rewrite Eb.
  split_and!.
  - apply map_bound; simpl. split; [done|]. by apply (om_put_Forall (bound_to node_bind b)).
  - case_decide; auto.
  - intros Hn [E1 E2]%app_nil. case_decide as Hfind; [exfalso; by eapply notify_silent|].
    specialize (F3 Hn E2). unfold map_content; simpl. rewrite om_put_content, F3.
    apply om_put_id. rewrite om_find_content. unfold emplaced.
    by destruct (om_find key (map_values m)).
Qed.
Lemma node_at_observed key f : observed node_bind content f → observed node_bind content (node_at key f).
Proof. intros Hf. by apply with_object_observed, map_at_key_observed. Qed.

(** *** What the operations do to the content *)
Definition object_content (v : value) : list (string * value) :=
  match v with VObject m => m | _ => [] end.
Definition array_content (v : value) : list value := match v with VArray l => l | _ => [] end.

(** [n[key] = ...]: the entry is replaced, or made; [g] is what happens to the content of the
    element. *)
Lemma node_at_content key f (g : value → value) n :
  (∀ x, content (f x).1 = g (content x)) →
  content (node_at key f n).1 =
  let m := object_content (content n) in VObject (om_put key (g (default VNull (om_find key m))) m).
Proof.
  intros Hg. unfold node_at, with_object, with_part.
  assert (∀ b m, content (Node b (NObject (map_at_key key f m).1)) =
    VObject (om_put key (g (default VNull (om_find key (map_content content m)))) (map_content content m))) as Hobj.
  { intros b m. rewrite content_object. f_equal. rewrite map_at_key_eq. unfold map_content; simpl.
    rewrite om_put_content, Hg. do 2 f_equal. rewrite om_find_content. unfold emplaced.
    by destruct (om_find key (map_values m)). }
  destruct n as [b d].
  assert (∀ m, part_object d = None → content (let '(p, e2) := map_at_key key f (Map b []) in
    (Node b (NObject p), m ++ e2)).1 = VObject (om_put key (g (default VNull (om_find key []))) [])) as Hnew.
  { intros e _. specialize (Hobj b (Map b [])). destruct (map_at_key key f (Map b [])). exact Hobj. }
  destruct d as [| | | | |[b' l]|v]; try exact (Hnew _ eq_refl).
  cbn [n_data part_object n_binding]. rewrite (content_object b). specialize (Hobj b v).
  destruct (map_at_key key f v). exact Hobj.
Qed.
Lemma with_array_content f (g : list value → list value) n :
  (∀ v, vector_content content (f v).1 = g (vector_content content v)) →
  content (with_array f n).1 = VArray (g (array_content (content n))).
Proof.
  intros Hg. unfold with_array, with_part.
  assert (∀ b v, content (Node b (NArray (f v).1)) = VArray (g (vector_content content v))) as Harr.
  { intros b v. by rewrite content_array, Hg. }
  destruct n as [b d].
  assert (∀ m, content (let '(p, e2) := f (Vector b []) in (Node b (NArray p), m ++ e2)).1 =
    VArray (g [])) as Hnew.
  { intros e. specialize (Harr b (Vector b [])). destruct (f (Vector b [])). exact Harr. }
  destruct d as [| | | | |v|[b' m]]; try exact (Hnew _).
  cbn [n_data part_array n_binding]. rewrite (content_array b). specialize (Harr b v).
  destruct (f v). exact Harr.
Qed.
End node_operations_observed.
