(* ===== verification/ObserverSpec.v ===== *)
(** * Edits of observed data, against the plain values they stand for.

    An [edit] is something a client does to a tree of data through a reference, at any depth.
    [run_edit] performs it with the operations of the program; [apply_edit] is its specification
    on plain values.  [run_edit] refines [apply_edit], keeps every node bound, and reports every
    change of the content to the observer. *)
From S2P Require Import Prelude.
From S2P Require Import OrderedMap.
From S2P Require Import Value.
From S2P Require Import Observer.

(** ** Edits *)
Inductive edit :=
| e_null | e_bool (b : bool) | e_integer (z : Z) | e_number (d : double) | e_string (s : string)
| e_copy (v : value)
| e_append (s : string) | e_push_char (c : Ascii.ascii) | e_clear_string
| e_push (moved : bool) (v : value) | e_erase_at (pos : nat) | e_clear_array
| e_at (pos : nat) (e : edit)
| e_insert (key : string) (v : value) | e_erase_key (key : string) | e_clear_object
| e_key (key : string) (e : edit)
| e_as_string | e_as_array | e_as_object
| e_seq (e1 e2 : edit)
(** A reference that is taken and not used. *)
| e_none.

Definition seq_ops {T} (f g : T → T * list sent) : T → T * list sent := λ x,
  let '(x1, e1) := f x in let '(x2, e2) := g x1 in (x2, e1 ++ e2).
Definition try_emplace_op (key : string) (v : value) (m : map string node) : map string node * list sent :=
  let r := map_try_emplace key (fresh v) m in (r.1.1, r.2).
Definition erase_key_op (key : string) (m : map string node) : map string node * list sent :=
  let r := map_erase key m in (r.1.1, r.2).

Fixpoint run_edit (e : edit) : node → node * list sent :=
  match e with
  | e_null => assign_null
  | e_bool b => assign_bool b
  | e_integer z => assign_integer z
  | e_number d => assign_number d
  | e_string s => assign_string s
  | e_copy v => assign_copy (fresh v)
  | e_append s => with_string (string_append s)
  | e_push_char c => with_string (string_push_back c)
  | e_clear_string => with_string string_clear
  | e_push moved v => with_array (vector_push_back moved (fresh v))
  | e_erase_at pos => with_array (vector_erase pos)
  | e_clear_array => with_array vector_clear
  | e_at pos e => with_array (at_index pos (run_edit e))
  | e_insert key v => with_object (try_emplace_op key v)
  | e_erase_key key => with_object (erase_key_op key)
  | e_clear_object => with_object map_clear
  | e_key key e => node_at key (run_edit e)
  | e_as_string => as_string
  | e_as_array => as_array
  | e_as_object => as_object
  | e_seq e1 e2 => seq_ops (run_edit e1) (run_edit e2)
  | e_none => λ n, (n, [])
  end.

(** ** Their specification: what they do to a plain value *)
Definition string_content (v : value) : string := match v with VString s => s | _ => "" end.
Fixpoint apply_edit (e : edit) (v : value) : value :=
  match e with
  | e_null => VNull
  | e_bool b => VBool b
  | e_integer z => VInteger z
  | e_number d => VNumber d
  | e_string s => VString s
  | e_copy v' => v'
  | e_append s => VString (string_content v +:+ s)
  | e_push_char c => VString (string_content v +:+ String c "")
  | e_clear_string => VString ""
  | e_push _ x => VArray (array_content v ++ [x])
  | e_erase_at pos => VArray (delete pos (array_content v))
  | e_clear_array => VArray []
  | e_at pos e => VArray (alter (apply_edit e) pos (array_content v))
  | e_insert key x => VObject (om_try_emplace key x (object_content v)).1
  | e_erase_key key => VObject (if om_contains key (object_content v) then om_erase key (object_content v) else object_content v)
  | e_clear_object => VObject []
  | e_key key e => let m := object_content v in VObject (om_put key (apply_edit e (default VNull (om_find key m))) m)
  | e_as_string => VString (string_content v)
  | e_as_array => VArray (array_content v)
  | e_as_object => VObject (object_content v)
  | e_seq e1 e2 => apply_edit e2 (apply_edit e1 v)
  | e_none => v
  end.

(** ** Refinement *)

(** [refines bnd cont f g]: on data bound to one place, [f] does [g] to the content. *)
Definition refines {T C} (bnd : binding → T → T) (cont : T → C) (f : T → T * list sent) (g : C → C) : Prop :=
  ∀ b x, bound_to bnd b x → cont (f x).1 = g (cont x).

(** The scheme of the accessors: convert if needed, then operate on the part. *)
Section accessor.
Context {P C : Type} (mk : P → variant) (part : variant → option P) (empty : P).
Context (pbind : binding → P → P) (pcont : P → C) (vmk : C → value) (vpart : value → C) (kind : change_kind).
Context (Hpart : ∀ d p, part d = Some p ↔ d = mk p).
Context (Hcont : ∀ p, variant_content (mk p) = vmk (pcont p)).
Context (Hvpart : ∀ d, vpart (variant_content d) = match part d with Some p => pcont p | None => pcont empty end).
Context (Hbound : ∀ b p, bound_to node_bind b (Node b (mk p)) ↔ bound_to pbind b p).
Context (Hempty : ∀ b d, part d = None →
  ∃ p, replace kind (mk empty) (Node b d) = (Node b (mk p), notify_kind b kind) ∧ bound_to pbind b p ∧
       pcont p = pcont empty).

Lemma accessor_refines f g :
  refines pbind pcont f g → refines node_bind content (with_part part mk empty kind f) (λ v, vmk (g (vpart v))).
Proof.
  intros Hf b n Hb. pose proof (bound_binding b n Hb) as Eb. destruct n as [b' d]. simpl in Eb. subst b'.
  unfold with_part. simpl. rewrite Hvpart.
  assert (∀ p e, bound_to pbind b p →
    content (let '(p', e2) := f p in (Node b (mk p'), e ++ e2)).1 = vmk (g (pcont p))) as Hop.
  { intros p e Hp. specialize (Hf b p Hp). destruct (f p) as [p' e2]. simpl in *. by rewrite Hcont, Hf. }
  destruct (part d) as [p|] eqn:Ep.
  - simpl. rewrite Ep. apply (Hop p []), Hbound. by rewrite <- (proj1 (Hpart _ _) Ep).
  - destruct (Hempty b d Ep) as (p & -> & Hp & <-). simpl.
    rewrite (proj2 (Hpart (mk p) p) eq_refl). by apply Hop.
Qed.
End accessor.

Lemma with_string_refines f g :
  refines string_bind str_value f g →
  refines node_bind content (with_string f) (λ v, VString (g (string_content v))).
Proof.
  apply (accessor_refines _ _ _ _ _ VString string_content).
  - intros [] p; simpl; split; congruence.
  - done.
  - by intros [| | | | |[]|[]].
  - intros b [b' s]. unfold bound_to; simpl. split; congruence.
  - intros b [| | | | |[]|[]]; simpl; try done; intros _; by eexists.
Qed.
Lemma with_array_refines f g :
  refines vector_bind (vector_content content) f g →
  refines node_bind content (with_array f) (λ v, VArray (g (array_content v))).
Proof.
  apply (accessor_refines _ _ _ _ _ VArray array_content).
  - intros [] p; simpl; split; congruence.
  - by intros [].
  - by intros [| | | | |[]|[]].
  - apply bound_array.
  - intros b [| | | | |[]|[]]; simpl; try done; intros _; by eexists.
Qed.
Lemma with_object_refines f g :
  refines map_bind (map_content content) f g →
  refines node_bind content (with_object f) (λ v, VObject (g (object_content v))).
Proof.
  apply (accessor_refines _ _ _ _ _ VObject object_content).
  - intros [] p; simpl; split; congruence.
  - intros m. exact (content_object None m).
  - by intros [| | | | |[]|[]].
  - apply bound_object.
  - intros b [| | | | |[]|[]]; simpl; try done; intros _; by eexists.
Qed.

Lemma at_index_refines pos f g :
  refines node_bind content f g →
  refines vector_bind (vector_content content) (at_index pos f) (alter g pos).
Proof.
  intros Hf b v [Eb Hl]%vector_bound. unfold at_index, vector_content.
  destruct (vec_values v !! pos) as [x|] eqn:Ei.
  - specialize (Hf b x (Forall_lookup_1 _ _ _ _ Hl Ei)). destruct (f x) as [x' e]. simpl in *.
    rewrite list_fmap_insert, Hf. apply list_eq. intros j. destruct (decide (pos = j)) as [<-|].
    + rewrite list_lookup_alter_eq, list_lookup_fmap, Ei. simpl. apply list_lookup_insert_eq.
      rewrite length_fmap. by eapply lookup_lt_Some.
    + by rewrite list_lookup_alter_ne, list_lookup_insert_ne.
  - simpl. apply list_eq. intros j. destruct (decide (pos = j)) as [<-|].
    + by rewrite list_lookup_alter_eq, list_lookup_fmap, Ei.
    + by rewrite list_lookup_alter_ne.
Qed.
Lemma map_at_key_refines key f g :
  refines node_bind content f g →
  refines map_bind (map_content content) (map_at_key key f)
    (λ m, om_put key (g (default VNull (om_find key m))) m).
Proof.
  intros Hf b m Hb. pose proof (emplaced_bound b key m Hb) as He. specialize (Hf b _ He).
  rewrite map_at_key_eq. unfold map_content; simpl. rewrite om_put_content, Hf. do 2 f_equal.
  rewrite om_find_content. unfold emplaced. destruct (om_find key (map_values m)); done.
Qed.

(** Every edit keeps the data bound and reports what it changes. *)
Lemma run_edit_observed e : observed node_bind content (run_edit e).
Proof.
  induction e; simpl; try apply replace_observed;
    try (apply with_string_observed;
         first [apply string_append_observed|apply string_push_back_observed|apply string_clear_observed]).
  - by apply with_array_observed, (push_back_observed content).
  - by apply with_array_observed, (vector_erase_observed content).
  - by apply with_array_observed, (vector_clear_observed content).
  - by apply with_array_observed, at_index_observed.
  - by apply with_object_observed, (try_emplace_observed content).
  - by apply with_object_observed, (map_erase_observed content).
  - by apply with_object_observed, (map_clear_observed content).
  - by apply node_at_observed.
  - apply with_string_observed. by intros b s Hs.
  - apply with_array_observed. by intros b l Hl.
  - apply with_object_observed. by intros b m Hm.
  - by apply observed_seq.
  - by intros b n Hb.
Qed.

Lemma run_edit_refines e : refines node_bind content (run_edit e) (apply_edit e).
Proof.
  induction e; simpl; try (intros b0 x _; by apply replace_content).
  - intros b x _. unfold assign_copy. rewrite replace_content.
    pose proof (content_copy (fresh v)) as E. rewrite content_fresh in E. by destruct (fresh v).
  - apply (with_string_refines _ (λ t, t +:+ s)). by intros b [b' s'] _.
  - apply (with_string_refines _ (λ t, t +:+ String c "")). by intros b [b' s'] _.
  - apply (with_string_refines _ (λ _, "")). intros b [b' s'] _. unfold string_clear. simpl.
    by case_decide.
  - apply (with_array_refines _ (λ l, l ++ [v])). intros b x _.
    by rewrite (push_back_content content), content_fresh.
  - apply (with_array_refines _ (delete pos)). intros b x Hx. by apply (vector_erase_spec content b).
  - apply (with_array_refines _ (λ _, [])). intros b [b' [|y l]] _; done.
  - by apply (with_array_refines _ (alter (apply_edit e) pos)), at_index_refines.
  - apply (with_object_refines _ (λ m, (om_try_emplace key v m).1)). intros b x _.
    unfold try_emplace_op. destruct (try_emplace_content content key (fresh v) x) as [E _].
    by cbn zeta; cbn [fst]; rewrite E, content_fresh.
  - apply (with_object_refines _ (λ m, if om_contains key m then om_erase key m else m)). intros b x _.
    apply (map_erase_content content).
  - apply (with_object_refines _ (λ _, [])). intros b [b' [|y l]] _; done.
  - apply (with_object_refines _ (λ m, om_put key (apply_edit e (default VNull (om_find key m))) m)).
    by apply map_at_key_refines.
  - by apply (with_string_refines _ (λ s, s)).
  - by apply (with_array_refines _ (λ l, l)).
  - by apply (with_object_refines _ (λ m, m)).
  - intros b x Hx. unfold seq_ops. pose proof (run_edit_observed e1 b x Hx) as (H1 & _ & _).
    specialize (IHe1 b x Hx). destruct (run_edit e1 x) as [x1 ev1]. simpl in *.
    specialize (IHe2 b x1 H1). destruct (run_edit e2 x1) as [x2 ev2]. simpl in *. congruence.
  - by intros b n Hb.
Qed.
