(* ===== verification/Double.v ===== *)
(** * Floating point as the program uses it: [double] on bit patterns.

    The conversions and comparisons of the language and of its standard library that the SQL and
    JSON modules use on [double] ([static_cast<double>], [<], [std::stod], [std::from_chars],
    [std::to_chars], [std::to_string], [std::isfinite]), computed on the integers that a binary64
    bit pattern encodes. *)
From stdpp Require Import pretty.
From Stdlib.Floats Require Import SpecFloat.
From S2P Require Import Prelude.
From S2P Require Import Value.
#[local] Open Scope Z_scope.

Definition precision : Z := 53.
Definition exponent_max : Z := 1024.

(** ** Bit patterns *)
Definition sf_of_bits (d : double) : spec_float :=
  let sign := Z.testbit d 63 in
  let e := (d / 2 ^ 52) mod 2 ^ 11 in
  let m := d mod 2 ^ 52 in
  if e =? 0 then
    if m =? 0 then S754_zero sign else S754_finite sign (Z.to_pos m) (-1074)
  else if e =? 2047 then
    if m =? 0 then S754_infinity sign else S754_nan
  else S754_finite sign (Z.to_pos (m + 2 ^ 52)) (e - 1075).
Definition sign_bit (s : bool) : Z := if s then 2 ^ 63 else 0.
Definition bits_of_sf (f : spec_float) : double :=
  match f with
  | S754_zero s => sign_bit s
  | S754_infinity s => sign_bit s + 2047 * 2 ^ 52
  | S754_nan => 2047 * 2 ^ 52 + 2 ^ 51
  | S754_finite s m e =>
      if Z.pos m <? 2 ^ 52 then sign_bit s + Z.pos m
      else sign_bit s + (e + 1075) * 2 ^ 52 + (Z.pos m - 2 ^ 52)
  end.

(** ** Comparison, conversion, classification *)
Definition d_less (a b : double) : bool := SFltb (sf_of_bits a) (sf_of_bits b).
Definition d_of_integer (z : Z) : double :=
  bits_of_sf (binary_normalize precision exponent_max z 0 false).
Definition d_finite (d : double) : bool :=
  match sf_of_bits d with S754_zero _ | S754_finite _ _ _ => true | _ => false end.

(** ** Decimal to binary *)

(** [num/den], correctly rounded. *)
Definition d_of_ratio (sign : bool) (num den : positive) : spec_float :=
  let '(q, e, l) := SFdiv_core_binary precision exponent_max (Z.pos num) 0 (Z.pos den) 0 in
  binary_round_aux precision exponent_max sign q e l.
(** [m * 10^e10]. *)
Definition sf_of_decimal (sign : bool) (m e10 : Z) : spec_float :=
  match m with
  | Z.pos p => if 0 <=? e10 then d_of_ratio sign (Z.to_pos (m * 10 ^ e10)) 1
               else d_of_ratio sign p (Z.to_pos (10 ^ (- e10)))
  | _ => S754_zero sign
  end.
(** The sign, mantissa and exponent of two are exactly [m * 10^e10]. *)
Definition exact_decimal (f : spec_float) (m e10 : Z) : bool :=
  match f with
  | S754_zero _ => m =? 0
  | S754_finite _ p e =>
      Z.pos p * 2 ^ Z.max 0 e * 10 ^ Z.max 0 (- e10) =? m * 10 ^ Z.max 0 e10 * 2 ^ Z.max 0 (- e)
  | _ => false
  end.
Definition sf_overflow (f : spec_float) : bool :=
  match f with S754_infinity _ => true | _ => false end.
Definition sf_subnormal (f : spec_float) : bool :=
  match f with S754_zero _ => true | S754_finite _ p _ => Z.pos p <? 2 ^ 52 | _ => false end.

(** [std::stod] of a decimal without exponent: [None] when it throws [std::out_of_range], which it
    does on overflow and on an inexact subnormal result. *)
Definition stod (m e10 : Z) : option double :=
  let f := sf_of_decimal false m e10 in
  if sf_overflow f || (sf_subnormal f && negb (exact_decimal f m e10)) then None
  else Some (bits_of_sf f).
(** [std::from_chars]: [None] on overflow, and when a number that is not zero becomes zero. *)
Definition from_chars_double (sign : bool) (m e10 : Z) : option double :=
  let f := sf_of_decimal sign m e10 in
  match f with
  | S754_infinity _ => None
  | S754_zero _ => if m =? 0 then Some (bits_of_sf f) else None
  | _ => Some (bits_of_sf f)
  end.

(** ** Binary to decimal *)

(** [num/den] rounded to an integer, ties to even. *)
Definition round_ratio (num den : Z) : Z :=
  let q := num / den in
  let r := num mod den in
  match (2 * r) ?= den with
  | Lt => q
  | Gt => q + 1
  | Eq => if Z.even q then q else q + 1
  end.
(** [p * 2^e * 10^k] as a ratio of integers. *)
Definition scaled (p e k : Z) : Z * Z :=
  (p * 2 ^ Z.max 0 e * 10 ^ Z.max 0 k, 2 ^ Z.max 0 (- e) * 10 ^ Z.max 0 (- k)).
Definition scaled_round (p e k : Z) : Z := let '(n, d) := scaled p e k in round_ratio n d.

Definition zeros (n : nat) : string := String.concat "" (replicate n "0").
Definition pad_left (n : nat) (s : string) : string := zeros (n - String.length s) +:+ s.
Definition minus (sign : bool) : string := if sign then "-" else "".

(** [std::to_string(double)]: the format ["%f"]. *)
Definition to_string_double (d : double) : string :=
  let fixed sign n := minus sign +:+ pretty (n / 10 ^ 6) +:+ "." +:+ pad_left 6 (pretty (n mod 10 ^ 6)) in
  match sf_of_bits d with
  | S754_zero s => fixed s 0
  | S754_finite s p e => fixed s (scaled_round (Z.pos p) e 6)
  | S754_infinity s => minus s +:+ "inf"
  | S754_nan => minus (Z.testbit d 63) +:+ "nan"
  end.

(** [std::to_chars(double)]: the shortest digits that read back as the same number, the closest
    to it among those. *)
Definition decimal_exponent (p e : Z) : Z :=
  (* the [k] with 10^(k-1) <= p * 2^e < 10^k *)
  let n := scaled_round p e 0 in
  let guess := (Z.log2 p + e + 1) * 30103 / 100000 in
  let ge k := let '(a, b) := scaled p e (- k) in b <=? a in
  let k := if ge (guess + 1) then guess + 2 else if ge guess then guess + 1 else guess in
  if ge (k - 1) then k else k - 1.
Fixpoint shortest (fuel : nat) (n p e k : Z) (f : spec_float) : Z * Z :=
  (* digits and decimal exponent: the number is [m * 10^(k-n)] *)
  let m := scaled_round p e (n - k) in
  match fuel with
  | O => (m, k - n)
  | S fuel =>
      if bool_decide (bits_of_sf (sf_of_decimal false m (k - n)) = bits_of_sf f) then (m, k - n)
      else shortest fuel (n + 1) p e k f
  end.
Fixpoint strip_zeros (fuel : nat) (m e10 : Z) : Z * Z :=
  match fuel with
  | O => (m, e10)
  | S fuel => if (m mod 10 =? 0) && negb (m =? 0) then strip_zeros fuel (m / 10) (e10 + 1) else (m, e10)
  end.
Definition fixed_digits (m e10 : Z) : string :=
  let digits := pretty m in
  if 0 <=? e10 then digits +:+ zeros (Z.to_nat e10)
  else
    let n := Z.to_nat (- e10) in
    let padded := pad_left (S n) digits in
    let whole := (String.length padded - n)%nat in
    String.substring 0 whole padded +:+ "." +:+ String.substring whole n padded.
Definition scientific_digits (m e10 : Z) : string :=
  let digits := pretty m in
  let n := Z.of_nat (String.length digits) in
  let e := e10 + n - 1 in
  let tail := String.substring 1 (String.length digits - 1) digits in
  String.substring 0 1 digits +:+ (if decide (tail = "") then "" else "." +:+ tail) +:+
  "e" +:+ (if e <? 0 then "-" else "+") +:+ pad_left 2 (pretty (Z.abs e)).
(** Fixed notation unless scientific notation is shorter.  An integer in fixed notation is printed
    with all its digits, not only the shortest ones. *)
Definition to_chars_double (d : double) : string :=
  match sf_of_bits d with
  | S754_zero s => minus s +:+ "0"
  | S754_infinity s => minus s +:+ "inf"
  | S754_nan => minus (Z.testbit d 63) +:+ "nan"
  | S754_finite s p e =>
      let '(m, e10) := shortest 17 1 (Z.pos p) e (decimal_exponent (Z.pos p) e) (S754_finite false p e) in
      let '(m, e10) := strip_zeros 17 m e10 in
      let fixed := if 0 <? e10 then pretty (scaled_round (Z.pos p) e 0) else fixed_digits m e10 in
      let scientific := scientific_digits m e10 in
      minus s +:+ (if (String.length scientific <? String.length fixed)%nat then scientific else fixed)
  end.
