(* ===== verification/DoubleOrder.v ===== *)
(** * The order of doubles: [<] on bit patterns compares the numbers they stand for.

    A number that is not NaN stands for an integer in units of the smallest positive double; the
    infinities stand for integers beyond all the others.  A conversion from an integer is never a
    NaN. *)
From Stdlib.Floats Require Import SpecFloat.
From S2P Require Import Prelude.
From S2P Require Import Value.
From S2P Require Import Double.
#[local] Open Scope Z_scope.

Definition signed (s : bool) (n : Z) : Z := if s then - n else n.
Definition sf_value (f : spec_float) : option Z :=
  match f with
  | S754_zero _ => Some 0
  | S754_finite s m e => Some (signed s (Z.pos m * 2 ^ (e + 1074)))
  | S754_infinity s => Some (signed s (2 ^ 2100))
  | S754_nan => None
  end.
Definition d_value (d : double) : option Z := sf_value (sf_of_bits d).

(** ** The comparison *)
Definition canonical (f : spec_float) : Prop :=
  match f with
  | S754_finite _ m e => -1074 ≤ e ≤ 971 ∧ Z.pos m < 2 ^ 53 ∧ (e = -1074 ∨ 2 ^ 52 ≤ Z.pos m)
  | _ => True
  end.
Lemma sf_of_bits_canonical d : canonical (sf_of_bits d).
Proof.
  unfold sf_of_bits. set (e := (d / 2 ^ 52) mod 2 ^ 11). set (m := d mod 2 ^ 52).
  assert (0 ≤ e < 2048) by (apply Z.mod_pos_bound; lia). assert (0 ≤ m < 2 ^ 52) by (apply Z.mod_pos_bound; lia).
  destruct (Z.eqb_spec e 0); [destruct (Z.eqb_spec m 0); [done|]|].
  - simpl. rewrite Z2Pos.id by lia. lia.
  - destruct (Z.eqb_spec e 2047); [by destruct (Z.eqb_spec m 0)|]. simpl. rewrite Z2Pos.id by lia. lia.
Qed.
Lemma magnitude_below e1 e2 m1 m2 :
  -1074 ≤ e1 → e1 < e2 → 0 < m1 < 2 ^ 53 → 2 ^ 52 ≤ m2 → m1 * 2 ^ (e1 + 1074) < m2 * 2 ^ (e2 + 1074).
Proof.
  intros He Hlt Hm1 Hm2. remember (e1 + 1074) as k eqn:Ek. remember (e2 - e1 - 1) as j eqn:Ej.
  replace (e2 + 1074) with (k + (1 + j)) by lia. rewrite (Z.pow_add_r 2 k), (Z.pow_add_r 2 1) by lia.
  assert (0 < 2 ^ k) by (apply Z.pow_pos_nonneg; lia). assert (0 < 2 ^ j) by (apply Z.pow_pos_nonneg; lia).
  change (2 ^ 1) with 2. replace (m2 * (2 ^ k * (2 * 2 ^ j))) with ((m2 * (2 * 2 ^ j)) * 2 ^ k) by lia.
  apply Z.mul_lt_mono_pos_r; [lia|]. nia.
Qed.
Lemma magnitude_finite m e : e ≤ 971 → -1074 ≤ e → 0 < m < 2 ^ 53 → 0 < m * 2 ^ (e + 1074) < 2 ^ 2100.
Proof.
  intros He He' Hm. assert (0 < 2 ^ (e + 1074)) by (apply Z.pow_pos_nonneg; lia).
  split; [apply Z.mul_pos_pos; lia|]. change 2100 with (53 + 2047). rewrite (Z.pow_add_r 2 53) by lia.
  apply Z.mul_lt_mono_nonneg; [lia|lia|lia|]. apply Z.pow_lt_mono_r; lia.
Qed.
(** The comparison of two magnitudes goes by the exponents first. *)
Lemma magnitude_compare m1 e1 m2 e2 :
  canonical (S754_finite false m1 e1) → canonical (S754_finite false m2 e2) →
  (Z.pos m1 * 2 ^ (e1 + 1074) ?= Z.pos m2 * 2 ^ (e2 + 1074)) =
  match e1 ?= e2 with Eq => Pos.compare_cont Eq m1 m2 | c => c end.
Proof.
  intros (H1 & H2 & H3) (H4 & H5 & H6). destruct (Z.compare_spec e1 e2) as [->|Hlt|Hlt].
  - rewrite <- Zmult_compare_compat_r by (pose proof (Z.pow_pos_nonneg 2 (e2 + 1074)); lia). done.
  - apply Z.compare_lt_iff, magnitude_below; lia.
  - apply Z.compare_gt_iff, magnitude_below; lia.
Qed.
Lemma SFltb_value f g :
  canonical f → canonical g →
  SFltb f g = match sf_value f, sf_value g with Some x, Some y => x <? y | _, _ => false end.
Proof.
  assert (∀ m e, canonical (S754_finite false m e) → 0 < Z.pos m * 2 ^ (e + 1074) < 2 ^ 2100) as Hfin
    by (intros m e (? & ? & _); apply magnitude_finite; lia).
  pose proof (Z.pow_pos_nonneg 2 2100).
  destruct f as [s1|s1| |s1 m1 e1], g as [s2|s2| |s2 m2 e2]; intros Hf Hg; try done;
    unfold SFltb; cbn [SFcompare sf_value]; try (by destruct s1);
    try pose proof (Hfin m1 e1 Hf); try pose proof (Hfin m2 e2 Hg); symmetry;
    try (destruct s1; try destruct s2; cbn [signed]; apply Z.ltb_lt || apply Z.ltb_ge; lia);
    try (destruct s2; cbn [signed]; apply Z.ltb_lt || apply Z.ltb_ge; lia).
  pose proof (magnitude_compare m1 e1 m2 e2 Hf Hg) as Hc.
  destruct s1, s2; cbn [signed]; unfold Z.ltb.
  - rewrite Z.compare_opp, Z.compare_antisym, Hc. by destruct (e1 ?= e2); simpl; [destruct (Pos.compare_cont _ _ _)|..].
  - change ((- (Z.pos m1 * 2 ^ (e1 + 1074)) <? Z.pos m2 * 2 ^ (e2 + 1074)) = true). apply Z.ltb_lt. lia.
  - change ((Z.pos m1 * 2 ^ (e1 + 1074) <? - (Z.pos m2 * 2 ^ (e2 + 1074))) = false). apply Z.ltb_ge. lia.
  - rewrite Hc. by destruct (e1 ?= e2).
Qed.
Lemma d_less_value a b :
  d_less a b = match d_value a, d_value b with Some x, Some y => x <? y | _, _ => false end.
Proof. apply SFltb_value; apply sf_of_bits_canonical. Qed.

(** ** Integers are numbers *)
Lemma shr_1_half mrs : 0 ≤ shr_m mrs → shr_m (shr_1 mrs) = shr_m mrs / 2.
Proof. destruct mrs as [[|[p|p|]|p] r s]; simpl; intros; try lia; try done; Z.to_euclidean_division_equations; lia. Qed.
Lemma iter_shr n mrs : 0 ≤ shr_m mrs → shr_m (SpecFloat.iter_pos shr_1 n mrs) = shr_m mrs / 2 ^ Z.pos n.
Proof.
  revert mrs. induction n as [n IH|n IH|]; intros mrs Hm; simpl SpecFloat.iter_pos.
  - assert (0 ≤ shr_m mrs / 2) by (apply Z.div_pos; lia). pose proof (shr_1_half mrs Hm) as E.
    rewrite IH by (rewrite IH by lia; apply Z.div_pos; lia). rewrite IH, E, !Z.div_div by lia.
    f_equal. replace (Z.pos n~1) with (1 + (Z.pos n + Z.pos n)) by lia. rewrite !Z.pow_add_r by lia. lia.
  - rewrite IH by (rewrite IH by lia; apply Z.div_pos; lia). rewrite IH, Z.div_div by lia.
    f_equal. replace (Z.pos n~0) with (Z.pos n + Z.pos n) by lia. by rewrite Z.pow_add_r by lia.
  - by rewrite shr_1_half.
Qed.
Lemma digits_spec m : Z.pos m < 2 ^ Z.pos (digits2_pos m).
Proof.
  induction m as [m IH|m IH|]; simpl digits2_pos; [| |done];
    rewrite Pos2Z.inj_succ, Z.pow_succ_r by lia; lia.
Qed.
Lemma shr_record_of_loc_m m l : shr_m (shr_record_of_loc m l) = m.
Proof. by destruct l as [|[]]. Qed.
(** A shift to the precision leaves no more than the precision. *)
Lemma shr_fexp_small m e l mrs e' :
  0 ≤ m → shr_fexp precision exponent_max m e l = (mrs, e') → 0 ≤ shr_m mrs < 2 ^ 53 ∧ e ≤ e'.
Proof.
  unfold shr_fexp, shr. set (n := fexp _ _ _ - e). intros Hm E.
  assert (m < 2 ^ (53 + Z.max 0 n)) as Hd.
  { destruct m as [|p|p]; [|pose proof (digits_spec p) as Hp|lia].
    - apply Z.pow_pos_nonneg; lia.
    - eapply Z.lt_le_trans; [exact Hp|]. apply Z.pow_le_mono_r; [lia|].
      unfold n, fexp, emin, precision, exponent_max. simpl Zdigits2. lia. }
  destruct n as [|q|q]; injection E as <- <-; rewrite ?iter_shr, ?shr_record_of_loc_m by (by rewrite shr_record_of_loc_m).
  - rewrite Z.max_l in Hd by lia. rewrite Z.add_0_r in Hd. lia.
  - split; [|lia]. split; [apply Z.div_pos; [lia|apply Z.pow_pos_nonneg; lia]|].
    apply Z.div_lt_upper_bound; [apply Z.pow_pos_nonneg; lia|]. rewrite <- Z.pow_add_r by lia.
    eapply Z.lt_le_trans; [exact Hd|]. apply Z.pow_le_mono_r; lia.
  - rewrite Z.max_l in Hd by lia. rewrite Z.add_0_r in Hd. lia.
Qed.
Lemma round_nearest_nonneg m l : 0 ≤ m → 0 ≤ round_nearest_even m l.
Proof. intros. destruct l as [|[]]; simpl; try lia. by destruct (Z.even m); lia. Qed.
Definition representable (f : spec_float) : Prop :=
  match f with
  | S754_finite _ m e => -1074 ≤ e ≤ 971 ∧ Z.pos m < 2 ^ 53
  | S754_nan => False
  | _ => True
  end.
Lemma round_representable s m e :
  -1074 ≤ e → 0 ≤ m → representable (binary_round_aux precision exponent_max s m e loc_Exact).
Proof.
  intros He Hm. unfold binary_round_aux.
  destruct (shr_fexp _ _ m e _) as [mrs e1] eqn:E1. apply shr_fexp_small in E1 as [Hm1 He1]; [|done].
  destruct (shr_fexp _ _ _ e1 _) as [mrs2 e2] eqn:E2.
  apply shr_fexp_small in E2 as [Hm2 He2]; [|apply round_nearest_nonneg; lia].
  destruct (shr_m mrs2) as [|p|p]; [done| |lia].
  destruct (Z.leb_spec e2 (exponent_max - precision)) as [Hle|]; [|done]. unfold exponent_max, precision in Hle. simpl. lia.
Qed.
Lemma integer_representable z : representable (binary_normalize precision exponent_max z 0 false).
Proof.
  assert (∀ s p, representable (binary_round precision exponent_max s p 0)) as Hr.
  { intros s p. unfold binary_round, shl_align. set (e := fexp _ _ _).
    assert (-1074 ≤ e) by (unfold e, fexp, emin, precision, exponent_max; lia).
    destruct (e - 0) eqn:Ee; apply round_representable; lia. }
  destruct z; simpl; [done|apply Hr..].
Qed.
Lemma bits_not_nan f : representable f → d_value (bits_of_sf f) ≠ None.
Proof.
  intros Hf. unfold d_value.
  assert (∀ s e m, 0 ≤ e < 2047 → 0 ≤ m < 2 ^ 52 → sf_value (sf_of_bits (sign_bit s + e * 2 ^ 52 + m)) ≠ None) as Hbits.
  { intros s e m He Hm. unfold sf_of_bits.
    assert (((sign_bit s + e * 2 ^ 52 + m) / 2 ^ 52) mod 2 ^ 11 = e) as ->.
    { replace (sign_bit s + e * 2 ^ 52 + m) with (m + ((if s then 2 ^ 11 else 0) + e) * 2 ^ 52) by (destruct s; unfold sign_bit; lia).
      rewrite Z.div_add, Z.div_small by lia. destruct s.
      - replace (0 + (2 ^ 11 + e)) with (e + 1 * 2 ^ 11) by lia. rewrite Z.mod_add by lia. by apply Z.mod_small; lia.
      - apply Z.mod_small. lia. }
    destruct (Z.eqb_spec e 0); [by destruct (_ =? 0)|]. by destruct (Z.eqb_spec e 2047); [lia|]. }
  destruct f as [s|s| |s m e]; cbn [bits_of_sf].
  - by destruct s.
  - by destruct s.
  - done.
  - destruct Hf as [He Hm]. destruct (Z.ltb_spec (Z.pos m) (2 ^ 52)).
    + specialize (Hbits s 0 (Z.pos m)). rewrite Z.mul_0_l, Z.add_0_r in Hbits. apply Hbits; lia.
    + apply (Hbits s (e + 1075) (Z.pos m - 2 ^ 52)); lia.
Qed.
Lemma integer_not_nan z : d_value (d_of_integer z) ≠ None.
Proof. apply bits_not_nan, integer_representable. Qed.
