(* ===== verification/Chars.v ===== *)
(** * Characters and texts: the character classes of the "C" locale and scanning helpers that
    the SQL scanner, the JSON parser and the command line share. *)
From stdpp Require Import pretty.
From S2P Require Import Prelude.
From Stdlib Require Import Ascii.
#[local] Open Scope Z_scope.

(** ** Characters, in the "C" locale *)
Definition code (c : ascii) : Z := Z.of_nat (nat_of_ascii c).
Definition between (lo hi c : ascii) : bool := (code lo <=? code c) && (code c <=? code hi).
Definition is_space (c : ascii) : bool := (code c =? 32) || ((9 <=? code c) && (code c <=? 13)).
Definition is_alpha (c : ascii) : bool := between "a" "z" c || between "A" "Z" c.
Definition is_digit (c : ascii) : bool := between "0" "9" c.
Definition is_alnum (c : ascii) : bool := is_alpha c || is_digit c.
Definition char_is (c d : ascii) : bool := bool_decide (c = d).
Definition upper_char (c : ascii) : ascii :=
  if between "a" "z" c then ascii_of_nat (nat_of_ascii c - 32) else c.
Abbreviation chars := (list ascii) (only parsing).
Definition text_of : list ascii → string := String.string_of_list_ascii.
Definition chars_of : string → list ascii := String.list_ascii_of_string.

(** The longest prefix of characters that satisfy [p], and the rest. *)
Fixpoint span (p : ascii → bool) (l : list ascii) : list ascii * list ascii :=
  match l with
  | c :: l' => if p c then let '(a, b) := span p l' in (c :: a, b) else ([], l)
  | [] => ([], [])
  end.
Definition digits_value (l : list ascii) : Z := foldl (λ acc c, 10 * acc + (code c - 48)) 0 l.

(** ** Lemmas *)
Lemma chars_of_text_of l : chars_of (text_of l) = l.
Proof. apply String.list_ascii_of_string_of_list_ascii. Qed.
Lemma text_of_chars_of s : text_of (chars_of s) = s.
Proof. apply String.string_of_list_ascii_of_string. Qed.
Lemma text_of_app l1 l2 : text_of (l1 ++ l2) = text_of l1 +:+ text_of l2.
Proof.
  induction l1 as [|c l1 IH]; [done|]. change (String c (text_of (l1 ++ l2)) = String c (text_of l1 +:+ text_of l2)).
  by rewrite IH.
Qed.
Lemma length_text_of l : String.length (text_of l) = length l.
Proof. induction l as [|c l IH]; [done|]. change (S (String.length (text_of l)) = S (length l)). by rewrite IH. Qed.
Lemma substring_text_of l rest : String.substring 0 (length l) (text_of (l ++ rest)) = text_of l.
Proof.
  induction l as [|c l IH]; simpl.
  - by destruct (text_of rest).
  - change (text_of (c :: l ++ rest)) with (String c (text_of (l ++ rest))).
    change (text_of (c :: l)) with (String c (text_of l)). simpl. by rewrite IH.
Qed.

Lemma span_app p l : (span p l).1 ++ (span p l).2 = l.
Proof.
  induction l as [|c l IH]; simpl; [done|]. destruct (p c); [|done].
  destruct (span p l) as [a b]. simpl in *. by rewrite IH.
Qed.
Lemma span_length p l : (length (span p l).2 ≤ length l)%nat.
Proof. pose proof (span_app p l) as E. rewrite <- E at 2. rewrite length_app. lia. Qed.
Lemma span_consumes p c l : p c = true → (length (span p (c :: l)).2 ≤ length l)%nat.
Proof.
  intros E. simpl. rewrite E. pose proof (span_length p l). by destruct (span p l).
Qed.
(** The first character, if there is one. *)
Definition starts (p : ascii → bool) (l : list ascii) : bool := match l with x :: _ => p x | [] => false end.
Lemma span_all p run l : Forall (λ c, p c = true) run → starts p l = false → span p (run ++ l) = (run, l).
Proof.
  intros Hr Hl. induction Hr as [|c run Hc _ IH]; simpl.
  - destruct l as [|x l]; [done|]. simpl in *. by rewrite Hl.
  - by rewrite Hc, IH.
Qed.

(** ** Numbers as they are printed *)
Lemma digits_value_snoc l c : digits_value (l ++ [c]) = 10 * digits_value l + (code c - 48).
Proof. unfold digits_value. by rewrite foldl_app. Qed.
Lemma pretty_N_digit d : (d < 10)%N → is_digit (pretty_N_char d) = true ∧ code (pretty_N_char d) - 48 = Z.of_N d ∧
  (d ≠ 0%N → pretty_N_char d ≠ "0"%char).
Proof.
  intros Hd. assert (d = 0 ∨ d = 1 ∨ d = 2 ∨ d = 3 ∨ d = 4 ∨ d = 5 ∨ d = 6 ∨ d = 7 ∨ d = 8 ∨ d = 9)%N as Hc by lia.
  by destruct Hc as [->|[->|[->|[->|[->|[->|[->|[->|[->| ->]]]]]]]]].
Qed.
Definition is_digits (l : list ascii) : Prop := Forall (λ c, is_digit c = true) l.
Lemma pretty_N_go_digits x s :
  ∃ l, chars_of (pretty_N_go x s) = l ++ chars_of s ∧ is_digits l ∧ digits_value l = Z.of_N x ∧
    (x = 0%N → l = []) ∧ ((0 < x)%N → starts (λ c, negb (char_is c "0")) l = true).
Proof.
  revert s. induction (N.lt_wf_0 x) as [x _ IH]; intros s.
  destruct (decide (x = 0%N)) as [->|Hx]; [exists []; by repeat constructor|].
  rewrite pretty_N_go_step by lia. destruct (IH (x `div` 10)%N) with (String (pretty_N_char (x `mod` 10)) s)
    as (l & E & Hl & Hv & H0 & Hz); [apply N.div_lt; lia|].
  destruct (pretty_N_digit (x `mod` 10)) as (D1 & D2 & D3); [apply N.mod_lt; lia|].
  exists (l ++ [pretty_N_char (x `mod` 10)]). split_and!; [| | |done|].
  - rewrite E, <- app_assoc. done.
  - apply Forall_app. split; [done|by repeat constructor].
  - rewrite digits_value_snoc, Hv, D2. pose proof (N.div_mod x 10 ltac:(done)). lia.
  - intros _. destruct (decide (x `div` 10 = 0)%N) as [Hd|Hd].
    + rewrite (H0 Hd). simpl. unfold char_is. rewrite bool_decide_false; [done|]. apply D3.
      pose proof (N.div_mod x 10 ltac:(done)). lia.
    + specialize (Hz (proj1 (N.neq_0_lt_0 _) Hd)). by destruct l.
Qed.
(** A number as it is printed: a sign and digits, without leading zeros. *)
Lemma pretty_integer z :
  ∃ digits, chars_of (pretty z) = (if z <? 0 then ["-"%char] else []) ++ digits ∧ is_digits digits ∧
    digits_value digits = Z.abs z ∧
    (digits = ["0"%char] ∨ starts (λ c, negb (char_is c "0")) digits = true).
Proof.
  assert (∀ x, ∃ digits, chars_of (pretty (N.pos x)) = digits ∧ is_digits digits ∧ digits_value digits = Z.pos x ∧
    starts (λ c, negb (char_is c "0")) digits = true) as Hpos.
  { intros x. destruct (pretty_N_go_digits (N.pos x) "") as (l & E & Hl & Hv & _ & Hz). rewrite app_nil_r in E.
    exists l. split_and!; [exact E|done|done|by apply Hz]. }
  destruct z as [|x|x].
  - exists ["0"%char]. split_and!; [done|by repeat constructor|done|by left].
  - destruct (Hpos x) as (l & E & Hl & Hv & Hs). exists l. split_and!; [exact E|done|done|by right].
  - destruct (Hpos x) as (l & E & Hl & Hv & Hs). exists l. split_and!; [|done|done|by right].
    change (chars_of (pretty (Z.neg x))) with ("-"%char :: chars_of (pretty (N.pos x))). by rewrite E.
Qed.
