(* ===== verification/Json.v ===== *)
(** * JSON: [json_parser.hpp], [write_json.hpp], [write_string.hpp].

    The parser's state is its position, with the input that follows it.  The writer gives the text
    it puts into the stream; a number that cannot be formatted ends it. *)
From stdpp Require Import pretty.
From S2P Require Import Prelude.
From S2P Require Import OrderedMap.
From S2P Require Import Value.
From S2P Require Import Double.
From S2P Require Import Chars.
From Stdlib Require Import Ascii.
#[local] Open Scope Z_scope.

(** ** Characters with names *)
Definition quote : ascii := "034".
Definition backslash : ascii := "092".
Definition backspace : ascii := "008".
Definition form_feed : ascii := "012".
Definition newline : ascii := "010".
Definition carriage_return : ascii := "013".
Definition tabulator : ascii := "009".
Definition char_of (z : Z) : ascii := ascii_of_nat (Z.to_nat (z mod 256)).

(** ** Writing *)
Definition hex (digit : Z) : ascii := default "0"%char (chars_of "0123456789abcdef" !! Z.to_nat digit).
Definition write_char (c : ascii) : list ascii :=
  if char_is c quote then [backslash; quote]
  else if char_is c backslash then [backslash; backslash]
  else if char_is c backspace then [backslash; "b"%char]
  else if char_is c form_feed then [backslash; "f"%char]
  else if char_is c newline then [backslash; "n"%char]
  else if char_is c carriage_return then [backslash; "r"%char]
  else if char_is c tabulator then [backslash; "t"%char]
  else if code c <? 32
  then backslash :: chars_of "u00" ++ [hex (Z.shiftr (code c) 4); hex (Z.land (code c) 15)]
  else [c].
Definition write_string (s : string) : list ascii :=
  quote :: (chars_of s ≫= write_char) ++ [quote].
(** [std::to_chars] into a buffer of 64 characters. *)
Definition write_number (d : double) : result (list ascii) :=
  let text := to_chars_double d in
  if ssize text <=? 64 then Ok (chars_of text) else Throw (runtime_error "cannot format number").
Fixpoint write_json (v : value) : result (list ascii) :=
  match v with
  | VNull => Ok (chars_of "null")
  | VBool b => Ok (chars_of (if b then "true" else "false"))
  | VInteger z => Ok (chars_of (pretty z))
  | VNumber d => write_number d
  | VString s => Ok (write_string s)
  | VArray l =>
      items ← (fix items (first : bool) (l : list value) : result (list ascii) :=
        match l with
        | [] => Ok []
        | item :: l =>
            text ← write_json item; more ← items false l;
            Ok ((if first then [] else [","%char]) ++ text ++ more)
        end) true l;
      Ok ("["%char :: items ++ ["]"%char])
  | VObject m =>
      items ← (fix items (first : bool) (m : list (string * value)) : result (list ascii) :=
        match m with
        | [] => Ok []
        | (key, item) :: m =>
            text ← write_json item; more ← items false m;
            Ok ((if first then [] else [","%char]) ++ write_string key ++ ":"%char :: text ++ more)
        end) true m;
      Ok ("{"%char :: items ++ ["}"%char])
  end.

(** ** Parsing *)
Record cursor := Cursor { position : Z; rest : list ascii }.
Definition json := M cursor.

Definition fail {A} (message : string) : json A :=
  c ← get; throw (json_error (message +:+ " at byte " +:+ pretty (position c))).
(** Move the position over [n] characters that are there. *)
Definition skip (n : nat) (c : cursor) : cursor := Cursor (position c + Z.of_nat n) (drop n (rest c)).
Definition json_space (c : ascii) : bool :=
  char_is c " " || char_is c newline || char_is c carriage_return || char_is c tabulator.
(** Take the longest run of characters that satisfy [p]. *)
Definition take_while (p : ascii → bool) : json (list ascii) :=
  c ← get;
  let run := (span p (rest c)).1 in
  _ ← modify (skip (length run)); mret run.
Definition skip_space : json unit := _ ← take_while json_space; mret tt.
(** [position_ < input_.size() && input_[position_] == expected] *)
Definition front_is (p : ascii → bool) : json bool :=
  c ← get; mret (match rest c with x :: _ => p x | [] => false end).
Definition consume (expected : ascii) : json bool :=
  b ← front_is (λ x, char_is x expected);
  if (b : bool) then _ ← modify (skip 1); mret true else mret false.
Definition expect (token : string) : json unit :=
  c ← get;
  if negb (bool_decide (take (String.length token) (rest c) = chars_of token)) then fail "invalid value"
  else modify (skip (String.length token)).
Definition next : json ascii :=
  c ← get;
  match rest c with
  | x :: _ => _ ← modify (skip 1); mret x
  | [] => throw (undefined "read past the end of the input")
  end.

Definition hex_digit (c : ascii) : Z :=
  if between "0" "9" c then code c - code "0"
  else if between "a" "f" c then code c - code "a" + 10
  else if between "A" "F" c then code c - code "A" + 10
  else 16.
Fixpoint hex_digits (n : nat) (acc : Z) : json Z :=
  match n with
  | O => mret acc
  | S n =>
      c ← next;
      let digit := hex_digit c in
      if digit =? 16 then fail "invalid Unicode escape"
      else hex_digits n (Z.lor (Z.shiftl acc 4 mod 2 ^ 32) digit)
  end.
Definition parse_hex_escape : json Z :=
  c ← get;
  if size (rest c) <? 4 then fail "incomplete Unicode escape" else hex_digits 4 0.
Definition utf8 (c : Z) : list ascii :=
  let low k := char_of (Z.lor 128 (Z.land (Z.shiftr c k) 63)) in
  if c <=? 127 then [char_of c]
  else if c <=? 2047 then [char_of (Z.lor 192 (Z.shiftr c 6)); low 0]
  else if c <=? 65535 then [char_of (Z.lor 224 (Z.shiftr c 12)); low 6; low 0]
  else [char_of (Z.lor 240 (Z.shiftr c 18)); low 12; low 6; low 0].
(** The code point of [\u] with what follows it. *)
Definition parse_unicode : json Z :=
  c ← parse_hex_escape;
  if (55296 <=? c) && (c <=? 56319) then
    at_ ← get;
    if negb (bool_decide (take 2 (rest at_) = [backslash; "u"%char])) || (size (rest at_) <? 6)
    then fail "missing low surrogate"
    else
      _ ← modify (skip 2);
      low ← parse_hex_escape;
      if (low <? 56320) || (57343 <? low) then fail "invalid low surrogate"
      else mret (65536 + Z.shiftl (c - 55296) 10 + (low - 56320))
  else if (56320 <=? c) && (c <=? 57343) then fail "unexpected low surrogate"
  else mret c.
Definition parse_escape : json (list ascii) :=
  e ← next;
  if char_is e quote then mret [quote]
  else if char_is e backslash then mret [backslash]
  else if char_is e "/" then mret ["/"%char]
  else if char_is e "b" then mret [backspace]
  else if char_is e "f" then mret [form_feed]
  else if char_is e "n" then mret [newline]
  else if char_is e "r" then mret [carriage_return]
  else if char_is e "t" then mret [tabulator]
  else if char_is e "u" then c ← parse_unicode; mret (utf8 c)
  else fail "invalid escape".
Fixpoint string_loop (fuel : nat) (output : list ascii) : json string :=
  c ← get;
  match rest c with
  | [] => fail "unterminated string"
  | x :: more =>
      match fuel with
      | O => throw out_of_fuel
      | S fuel =>
          _ ← modify (skip 1);
          if char_is x quote then mret (text_of output)
          else if code x <? 32 then fail "unescaped control character"
          else if negb (char_is x backslash) then string_loop fuel (output ++ [x])
          else
            match more with
            | [] => fail "incomplete escape"
            | _ => text ← parse_escape; string_loop fuel (output ++ text)
            end
      end
  end.
(** Every turn of the loop consumes a character. *)
Definition parse_string : json string :=
  opened ← consume quote;
  if negb opened then fail "expected string"
  else c ← get; string_loop (length (rest c)) [].

(** The value of a number that was scanned: its sign, digits before and after the point, and
    exponent; an integer that does not fit is read as a double. *)
Definition number_value (negative : bool) (whole : list ascii) (floating : bool) (fraction : list ascii)
    (exponent : Z) : option value :=
  let z := if negative then - digits_value whole else digits_value whole in
  if negb floating && bool_decide (is_i64 z) then Some (VInteger z)
  else
    match from_chars_double negative (digits_value (whole ++ fraction)) (exponent - size fraction) with
    | Some d => if d_finite d then Some (VNumber d) else None
    | None => None
    end.
Definition some_digits (message : string) : json (list ascii) :=
  digits ← take_while is_digit;
  if bool_decide (digits = []) then fail message else mret digits.
Definition parse_whole_part : json (list ascii) :=
  zero ← consume "0";
  if (zero : bool) then
    more ← front_is is_digit;
    if (more : bool) then fail "leading zero in number" else mret ["0"%char]
  else some_digits "invalid number".
Definition parse_exponent : json (option Z) :=
  e ← front_is (λ x, char_is x "e" || char_is x "E");
  if (e : bool) then
    _ ← modify (skip 1);
    plus ← consume "+";
    negative ← (if (plus : bool) then mret false else consume "-");
    digits ← some_digits "invalid exponent";
    mret (Some (if (negative : bool) then - digits_value digits else digits_value digits))
  else mret None.
Definition parse_number : json value :=
  negative ← consume "-";
  c ← get;
  if (negative : bool) && bool_decide (rest c = []) then fail "invalid number"
  else
    whole ← parse_whole_part;
    point ← consume ".";
    fraction ← (if (point : bool) then some_digits "invalid fraction" else mret []);
    exponent ← parse_exponent;
    match number_value negative whole (point || bool_decide (is_Some exponent)) fraction (default 0 exponent) with
    | Some v => mret v
    | None => fail "number is out of range"
    end.

Fixpoint parse_value (fuel : nat) : json value :=
  match fuel with
  | O => throw out_of_fuel
  | S fuel =>
      c ← get;
      match rest c with
      | [] => fail "expected a JSON value"
      | x :: _ =>
          if char_is x "n" then _ ← expect "null"; mret VNull
          else if char_is x "t" then _ ← expect "true"; mret (VBool true)
          else if char_is x "f" then _ ← expect "false"; mret (VBool false)
          else if char_is x quote then s ← parse_string; mret (VString s)
          else if char_is x "[" then
            _ ← modify (skip 1); _ ← skip_space;
            closed ← consume "]";
            if (closed : bool) then mret (VArray []) else array_loop fuel []
          else if char_is x "{" then
            _ ← modify (skip 1); _ ← skip_space;
            closed ← consume "}";
            if (closed : bool) then mret (VObject []) else object_loop fuel []
          else parse_number
      end
  end
with array_loop (fuel : nat) (array : list value) : json value :=
  match fuel with
  | O => throw out_of_fuel
  | S fuel =>
      _ ← skip_space;
      item ← parse_value fuel;
      _ ← skip_space;
      closed ← consume "]";
      if (closed : bool) then mret (VArray (array ++ [item]))
      else
        comma ← consume ",";
        if negb comma then fail "expected ',' or ']'" else array_loop fuel (array ++ [item])
  end
with object_loop (fuel : nat) (object : list (string * value)) : json value :=
  match fuel with
  | O => throw out_of_fuel
  | S fuel =>
      _ ← skip_space;
      has_key ← front_is (λ x, char_is x quote);
      if negb has_key then fail "expected object key"
      else
        key ← parse_string;
        _ ← skip_space;
        colon ← consume ":";
        if negb colon then fail "expected ':'"
        else
          _ ← skip_space;
          if om_contains key object then fail "duplicate object key"
          else
            item ← parse_value fuel;
            _ ← skip_space;
            closed ← consume "}";
            if (closed : bool) then mret (VObject (om_put key item object))
            else
              comma ← consume ",";
              if negb comma then fail "expected ',' or '}'" else object_loop fuel (om_put key item object)
  end.
(** The parsers of arrays and objects, from the opening bracket on. *)
Definition parse_array (fuel : nat) : json value :=
  _ ← modify (skip 1); _ ← skip_space;
  closed ← consume "]";
  if (closed : bool) then mret (VArray []) else array_loop fuel [].
Definition parse_object (fuel : nat) : json value :=
  _ ← modify (skip 1); _ ← skip_space;
  closed ← consume "}";
  if (closed : bool) then mret (VObject []) else object_loop fuel [].
Lemma parse_value_S fuel :
  parse_value (S fuel) =
  (c ← get;
   match rest c with
   | [] => fail "expected a JSON value"
   | x :: _ =>
       if char_is x "n" then _ ← expect "null"; mret VNull
       else if char_is x "t" then _ ← expect "true"; mret (VBool true)
       else if char_is x "f" then _ ← expect "false"; mret (VBool false)
       else if char_is x quote then s ← parse_string; mret (VString s)
       else if char_is x "[" then parse_array fuel
       else if char_is x "{" then parse_object fuel
       else parse_number
   end).
Proof. reflexivity. Qed.
(** Every nested value and every turn of a loop consumes a character. *)
Definition parse_fuel (input : string) : nat := (2 * String.length input + 2)%nat.
Definition parse (input : string) : result value :=
  run (_ ← skip_space;
       result ← parse_value (parse_fuel input);
       _ ← skip_space;
       c ← get;
       if negb (bool_decide (rest c = [])) then fail "unexpected trailing input" else mret result)
    (Cursor 0 (chars_of input)).
