(* ===== verification/Console.v ===== *)
(** * The process around the engine: standard streams and exit codes, shared by the command-line
    client and the SQL shell.

    The standard input is the text still to be read, the standard output and error what was
    written. *)
From S2P Require Import Prelude.
From S2P Require Import Chars.
From Stdlib Require Import Ascii.
#[local] Open Scope Z_scope.

Record console := Console { cn_input : list ascii; cn_output : string; cn_error : string }.

Section console.
Context {W : Type}.
Definition put (text : string) : M (console * W) unit :=
  on_fst (modify (λ c, Console (cn_input c) (cn_output c +:+ text) (cn_error c))).
Definition put_error (text : string) : M (console * W) unit :=
  on_fst (modify (λ c, Console (cn_input c) (cn_output c) (cn_error c +:+ text))).
Definition end_of_line : string := String "010" "".
Definition put_line (text : string) : M (console * W) unit := put (text +:+ end_of_line).
(** [std::getline]: a line without its end_of_line, or [None] at the end of the input. *)
Definition split_line (input : list ascii) : list ascii * list ascii :=
  let '(line, rest) := span (λ c, negb (char_is c "010")) input in (line, tail rest).
Definition get_line : M (console * W) (option string) :=
  on_fst (c ← get;
          match cn_input c with
          | [] => mret None
          | input =>
              let '(line, rest) := split_line input in
              _ ← modify (λ c, Console rest (cn_output c) (cn_error c)); mret (Some (text_of line))
          end).
(** All of the input, as [std::istreambuf_iterator] reads it. *)
Definition get_all : M (console * W) string :=
  on_fst (c ← get; _ ← modify (λ c, Console [] (cn_output c) (cn_error c)); mret (text_of (cn_input c))).
(** A computation with an object of its own beside the console. *)
Definition with_object {S A} (s : S) (m : M (console * (S * W)) A) : M (console * W) A := λ '(c, w),
  let '(r, (c', (_, w'))) := m (c, (s, w)) in (r, (c', w')).
End console.

Lemma split_line_length c input : (length (split_line (c :: input)).2 ≤ length input)%nat.
Proof.
  unfold split_line. pose proof (span_length (λ c, negb (char_is c "010")) input) as Hl. simpl.
  destruct (negb (char_is c "010")); [|done].
  destruct (span _ input) as [line rest]. simpl in *. destruct rest; simpl in *; lia.
Qed.
