(* ===== verification/SqlSyntax.v ===== *)
(** * The syntax of SQL: tokens, statements, [tokenize.hpp], [parse_statement.hpp],
    [statement_splitter.hpp]. *)
From S2P Require Import Prelude.
From S2P Require Import Value.
From S2P Require Import Double.
From S2P Require Import Chars.
From Stdlib Require Import Ascii.
#[local] Open Scope Z_scope.

(** ** Data *)

(** [literal.hpp]; [std::monostate] is [LNull]. *)
Inductive literal :=
| LNull | LBool (b : bool) | LInteger (z : Z) | LReal (d : double) | LText (s : string).
(** [token_kind.hpp] *)
Inductive token_kind :=
| tk_end | identifier | integer_literal | real_literal | string_literal
| kw_select | kw_from | kw_where | kw_insert | kw_into | kw_values
| kw_update | kw_set | kw_delete | kw_create | kw_table
| kw_order | kw_by | kw_asc | kw_desc | kw_limit
| kw_and | kw_or | kw_not
| kw_null | kw_true | kw_false
| kw_integer | kw_real | kw_text | kw_boolean
| tk_comma | tk_dot | tk_star | tk_semicolon | lparen | rparen
| op_eq | op_neq | op_lt | op_lte | op_gt | op_gte.
#[export] Instance token_kind_eq_dec : EqDecision token_kind.
Proof. solve_decision. Defined.
(** [token.hpp] *)
Record token := Token { t_kind : token_kind; t_text : string; t_integer : Z; t_real : double }.
Definition plain (k : token_kind) : token := Token k "" 0 0.

Inductive column_type := ct_integer | ct_real | ct_text | ct_boolean.
#[export] Instance column_type_eq_dec : EqDecision column_type.
Proof. solve_decision. Defined.
Record column_definition := ColumnDefinition { cd_name : string; cd_type : column_type }.
Inductive comparison_operator := c_eq | c_neq | c_lt | c_lte | c_gt | c_gte.
Inductive logical_operator := and_op | or_op.
(** [expression.hpp] with [make_comparison], [make_logical], [make_negation]: the fields each kind
    uses. *)
Inductive expression :=
| Comparison (column : string) (comparator : comparison_operator) (value : literal)
| Logical (logic : logical_operator) (left right : expression)
| Negation (operand : expression).
Inductive sort_direction := ascending | descending.

Record create_table_statement := CreateTable { ct_table : string; ct_columns : list column_definition }.
Record insert_statement := Insert {
  in_table : string; in_columns : list string; in_rows : list (list literal) }.
Record select_statement := Select {
  se_table : string; se_columns : list string; se_where : option expression;
  se_order_by : option string; se_direction : sort_direction; se_limit : option Z }.
Record update_statement := Update {
  up_table : string; up_assignments : list (string * literal); up_where : option expression }.
Record delete_statement := Delete { de_table : string; de_where : option expression }.
Inductive statement :=
| SCreate (s : create_table_statement) | SInsert (s : insert_statement) | SSelect (s : select_statement)
| SUpdate (s : update_statement) | SDelete (s : delete_statement).

(** ** Words *)
Definition to_upper (word : list ascii) : string := text_of (upper_char <$> word).

Definition keyword_table : gmap string token_kind := list_to_map [
  ("SELECT", kw_select); ("FROM", kw_from); ("WHERE", kw_where);
  ("INSERT", kw_insert); ("INTO", kw_into); ("VALUES", kw_values);
  ("UPDATE", kw_update); ("SET", kw_set); ("DELETE", kw_delete);
  ("CREATE", kw_create); ("TABLE", kw_table);
  ("ORDER", kw_order); ("BY", kw_by);
  ("ASC", kw_asc); ("DESC", kw_desc); ("LIMIT", kw_limit);
  ("AND", kw_and); ("OR", kw_or); ("NOT", kw_not);
  ("NULL", kw_null); ("TRUE", kw_true); ("FALSE", kw_false);
  ("INTEGER", kw_integer); ("INT", kw_integer);
  ("REAL", kw_real); ("DOUBLE", kw_real);
  ("TEXT", kw_text);
  ("BOOLEAN", kw_boolean); ("BOOL", kw_boolean)].

(** ** tokenize.hpp

    The position in the text is the rest of it. *)
Definition word_char (c : ascii) : bool := is_alnum c || char_is c "_".
Definition word_token (word : list ascii) : token :=
  Token (default identifier (keyword_table !! to_upper word)) (text_of word) 0 0.
(** The digits, and what follows a decimal point when a digit does. *)
Definition number_parts (l : list ascii) : list ascii * option (list ascii) * list ascii :=
  let '(whole, rest) := span is_digit l in
  match rest with
  | c :: ((d :: _) as rest') =>
      if char_is c "." && is_digit d
      then let '(fraction, rest) := span is_digit rest' in (whole, Some fraction, rest)
      else (whole, None, rest)
  | _ => (whole, None, rest)
  end.
Definition out_of_range_literal (number : string) : error :=
  sql_error ("numeric literal out of range: " +:+ number).
Definition number_token (whole : list ascii) (fraction : option (list ascii)) : result token :=
  match fraction with
  | Some fraction =>
      let number := text_of (whole ++ "."%char :: fraction) in
      match stod (digits_value (whole ++ fraction)) (- size fraction) with
      | Some d => Ok (Token real_literal number 0 d)
      | None => Throw (out_of_range_literal number)
      end
  | None =>
      let number := text_of whole in
      if digits_value whole <? 2 ^ 63 then Ok (Token integer_literal number (digits_value whole) 0)
      else Throw (out_of_range_literal number)
  end.
(** The text of a string literal after its opening quote, and what follows the closing one. *)
Fixpoint string_body (l : list ascii) (value : list ascii) : result (list ascii * list ascii) :=
  match l with
  | [] => Throw (sql_error "unterminated string literal")
  | c :: rest =>
      if char_is c "'" then
        match rest with
        | d :: rest' => if char_is d "'" then string_body rest' (value ++ ["'"%char]) else Ok (value, rest)
        | [] => Ok (value, rest)
        end
      else string_body rest (value ++ [c])
  end.
Definition pair_is (a b c : ascii) (next : option ascii) : bool :=
  char_is c a && bool_decide (next = Some b).
(** Two-character operators, then single characters. *)
Definition operator_token (c : ascii) (rest : list ascii) : result (token * list ascii) :=
  let next := head rest in
  if pair_is "!" "=" c next then Ok (plain op_neq, tail rest)
  else if pair_is "<" ">" c next then Ok (plain op_neq, tail rest)
  else if pair_is "<" "=" c next then Ok (plain op_lte, tail rest)
  else if pair_is ">" "=" c next then Ok (plain op_gte, tail rest)
  else if char_is c "," then Ok (plain tk_comma, rest)
  else if char_is c "." then Ok (plain tk_dot, rest)
  else if char_is c "*" then Ok (plain tk_star, rest)
  else if char_is c ";" then Ok (plain tk_semicolon, rest)
  else if char_is c "(" then Ok (plain lparen, rest)
  else if char_is c ")" then Ok (plain rparen, rest)
  else if char_is c "=" then Ok (plain op_eq, rest)
  else if char_is c "<" then Ok (plain op_lt, rest)
  else if char_is c ">" then Ok (plain op_gt, rest)
  else Throw (sql_error ("unexpected character '" +:+ text_of [c] +:+ "'")).

(** One turn of the loop: the token it pushes, if any, and the rest. *)
Definition lex_step (c : ascii) (rest : list ascii) : result (option token * list ascii) :=
  let l := c :: rest in
  if is_space c then Ok (None, rest)
  else if char_is c "-" && bool_decide (head rest = Some "-"%char)
  then Ok (None, (span (λ c, negb (char_is c "010")) l).2)
  else if is_alpha c || char_is c "_" then
    let '(word, rest) := span word_char l in Ok (Some (word_token word), rest)
  else if is_digit c then
    let '(whole, fraction, rest) := number_parts l in
    t ← number_token whole fraction; Ok (Some t, rest)
  else if char_is c "'" then
    body ← string_body rest [];
    Ok (Some (Token string_literal (text_of body.1) 0 0), body.2)
  else
    op ← operator_token c rest; Ok (Some op.1, op.2).
Fixpoint lex (fuel : nat) (l : list ascii) (tokens : list token) : result (list token) :=
  match l with
  | [] => Ok (tokens ++ [plain tk_end])
  | c :: rest =>
      match fuel with
      | O => Throw out_of_fuel
      | S fuel =>
          step ← lex_step c rest;
          lex fuel step.2 (tokens ++ match step.1 with Some t => [t] | None => [] end)
      end
  end.
(** Every turn consumes a character. *)
Definition tokenize (text : string) : result (list token) :=
  lex (String.length text) (chars_of text) [].

(** ** statement_splitter.hpp *)
Fixpoint find_terminator (l : list ascii) (in_string : bool) (i : nat) : option nat :=
  match l with
  | [] => None
  | c :: l =>
      if char_is c "'" then find_terminator l (negb in_string) (S i)
      else if char_is c ";" && negb in_string then Some i
      else find_terminator l in_string (S i)
  end.
Definition extract_statement (buffer : string) : option (string * nat) :=
  match find_terminator (chars_of buffer) false 0 with
  | Some i => Some (String.substring 0 i buffer, S i)
  | None => None
  end.
