(* ===== verification/SqlParser.v ===== *)
(** * The SQL parser: [parse_statement.hpp].

    The token stream is the state of the parser.  The functions that call one another recursively
    and the loops take fuel; [parse_statement] gives them enough for any text. *)
From S2P Require Import Prelude.
From S2P Require Import Value.
From S2P Require Import Double.
From S2P Require Import Chars.
From S2P Require Import SqlSyntax.
From Stdlib Require Import Ascii.
#[local] Open Scope Z_scope.

(** ** token_stream *)
Record token_stream := TokenStream { ts_tokens : list token; ts_position : nat }.
Definition parser := M token_stream.

Definition peek : parser token :=
  ts ← get;
  match ts_tokens ts !! ts_position ts with
  | Some t => mret t
  | None => throw (undefined "token index out of range")
  end.
Definition advance : parser token :=
  current ← peek;
  _ ← modify (λ ts, if (ts_position ts + 1 <? length (ts_tokens ts))%nat
                    then TokenStream (ts_tokens ts) (ts_position ts + 1) else ts);
  mret current.
Definition check (kind : token_kind) : parser bool := t ← peek; mret (bool_decide (t_kind t = kind)).
Definition match_ (kind : token_kind) : parser bool :=
  b ← check kind;
  if negb b then mret false else _ ← advance; mret true.
Definition expect (kind : token_kind) (what : string) : parser token :=
  b ← check kind;
  if negb b then throw (sql_error ("expected " +:+ what)) else advance.

(** ** Leaves *)
Definition parse_column_type : parser column_type :=
  t ← advance;
  match t_kind t with
  | kw_integer => mret ct_integer
  | kw_real => mret ct_real
  | kw_text => mret ct_text
  | kw_boolean => mret ct_boolean
  | _ => throw (sql_error "expected column type")
  end.
Definition parse_literal : parser literal :=
  t ← advance;
  match t_kind t with
  | integer_literal => mret (LInteger (t_integer t))
  | real_literal => mret (LReal (t_real t))
  | string_literal => mret (LText (t_text t))
  | kw_true => mret (LBool true)
  | kw_false => mret (LBool false)
  | kw_null => mret LNull
  | _ => throw (sql_error "expected a literal value")
  end.
Definition parse_comparator : parser comparison_operator :=
  t ← advance;
  match t_kind t with
  | op_eq => mret c_eq
  | op_neq => mret c_neq
  | op_lt => mret c_lt
  | op_lte => mret c_lte
  | op_gt => mret c_gt
  | op_gte => mret c_gte
  | _ => throw (sql_error "expected a comparison operator")
  end.
Definition identifier_text (what : string) : parser string :=
  t ← expect identifier what; mret (t_text t).
Definition parse_comparison : parser expression :=
  column ← identifier_text "a column name";
  op ← parse_comparator;
  value ← parse_literal;
  mret (Comparison column op value).

(** ** Expressions *)
Fixpoint parse_unary_expression (fuel : nat) : parser expression :=
  match fuel with
  | O => throw out_of_fuel
  | S fuel =>
      negated ← match_ kw_not;
      if (negated : bool) then e ← parse_unary_expression fuel; mret (Negation e)
      else
        open ← match_ lparen;
        if (open : bool) then
          e ← parse_expression fuel;
          _ ← expect rparen "')'";
          mret e
        else parse_comparison
  end
with and_loop (fuel : nat) (left : expression) : parser expression :=
  match fuel with
  | O => throw out_of_fuel
  | S fuel =>
      more ← match_ kw_and;
      if (more : bool) then
        right ← parse_unary_expression fuel;
        and_loop fuel (Logical and_op left right)
      else mret left
  end
with parse_and_expression (fuel : nat) : parser expression :=
  match fuel with
  | O => throw out_of_fuel
  | S fuel => left ← parse_unary_expression fuel; and_loop fuel left
  end
with or_loop (fuel : nat) (left : expression) : parser expression :=
  match fuel with
  | O => throw out_of_fuel
  | S fuel =>
      more ← match_ kw_or;
      if (more : bool) then
        right ← parse_and_expression fuel;
        or_loop fuel (Logical or_op left right)
      else mret left
  end
with parse_expression (fuel : nat) : parser expression :=
  match fuel with
  | O => throw out_of_fuel
  | S fuel => left ← parse_and_expression fuel; or_loop fuel left
  end.

(** ** Lists *)

(** [while (ts.match(comma)) l.push_back(item)], and with a first element. *)
Fixpoint comma_loop {A} (fuel : nat) (item : parser A) (l : list A) : parser (list A) :=
  match fuel with
  | O => throw out_of_fuel
  | S fuel =>
      more ← match_ tk_comma;
      if (more : bool) then x ← item; comma_loop fuel item (l ++ [x]) else mret l
  end.
Definition comma_list {A} (fuel : nat) (item : parser A) : parser (list A) :=
  x ← item; comma_loop fuel item [x].

Definition parse_identifier_list (fuel : nat) : parser (list string) :=
  comma_list fuel (identifier_text "an identifier").
Definition parse_column_definition : parser column_definition :=
  name ← identifier_text "a column name";
  type ← parse_column_type;
  mret (ColumnDefinition name type).
Definition parse_value_tuple (fuel : nat) : parser (list literal) :=
  _ ← expect lparen "'('";
  values ← comma_list fuel parse_literal;
  _ ← expect rparen "')'";
  mret values.
Definition parse_assignment : parser (string * literal) :=
  name ← identifier_text "a column name";
  _ ← expect op_eq "'='";
  value ← parse_literal;
  mret (name, value).
Definition parse_where (fuel : nat) : parser (option expression) :=
  b ← match_ kw_where;
  if (b : bool) then e ← parse_expression fuel; mret (Some e) else mret None.

(** ** Statements *)
Definition parse_create_table (fuel : nat) : parser create_table_statement :=
  _ ← expect kw_create "CREATE";
  _ ← expect kw_table "TABLE";
  table ← identifier_text "a table name";
  _ ← expect lparen "'('";
  columns ← comma_list fuel parse_column_definition;
  _ ← expect rparen "')'";
  mret (CreateTable table columns).
Definition parse_insert (fuel : nat) : parser insert_statement :=
  _ ← expect kw_insert "INSERT";
  _ ← expect kw_into "INTO";
  table ← identifier_text "a table name";
  open ← match_ lparen;
  columns ← (if (open : bool) then
               names ← comma_list fuel (identifier_text "a column name");
               _ ← expect rparen "')'";
               mret names
             else mret []);
  _ ← expect kw_values "VALUES";
  rows ← comma_list fuel (parse_value_tuple fuel);
  mret (Insert table columns rows).
Definition parse_order_by : parser (option string * sort_direction) :=
  b ← match_ kw_order;
  if (b : bool) then
    _ ← expect kw_by "BY";
    column ← identifier_text "a column name";
    desc ← match_ kw_desc;
    if (desc : bool) then mret (Some column, descending)
    else _ ← match_ kw_asc; mret (Some column, ascending)
  else mret (None, ascending).
Definition parse_select (fuel : nat) : parser select_statement :=
  _ ← expect kw_select "SELECT";
  star ← match_ tk_star;
  columns ← (if (star : bool) then mret [] else parse_identifier_list fuel);
  _ ← expect kw_from "FROM";
  table ← identifier_text "a table name";
  where_ ← parse_where fuel;
  order ← parse_order_by;
  limited ← match_ kw_limit;
  limit ← (if (limited : bool) then t ← expect integer_literal "an integer"; mret (Some (t_integer t))
           else mret None);
  mret (Select table columns where_ order.1 order.2 limit).
Definition parse_update (fuel : nat) : parser update_statement :=
  _ ← expect kw_update "UPDATE";
  table ← identifier_text "a table name";
  _ ← expect kw_set "SET";
  assignments ← comma_list fuel parse_assignment;
  where_ ← parse_where fuel;
  mret (Update table assignments where_).
Definition parse_delete (fuel : nat) : parser delete_statement :=
  _ ← expect kw_delete "DELETE";
  _ ← expect kw_from "FROM";
  table ← identifier_text "a table name";
  where_ ← parse_where fuel;
  mret (Delete table where_).

Definition parse_any (fuel : nat) : parser statement :=
  t ← peek;
  match t_kind t with
  | kw_create => s ← parse_create_table fuel; mret (SCreate s)
  | kw_insert => s ← parse_insert fuel; mret (SInsert s)
  | kw_select => s ← parse_select fuel; mret (SSelect s)
  | kw_update => s ← parse_update fuel; mret (SUpdate s)
  | kw_delete => s ← parse_delete fuel; mret (SDelete s)
  | _ => throw (sql_error "unrecognized statement")
  end.
Definition parse_whole (fuel : nat) : parser statement :=
  empty ← check tk_end;
  if (empty : bool) then throw (sql_error "empty statement")
  else
    result ← parse_any fuel;
    _ ← match_ tk_semicolon;
    finished ← check tk_end;
    if negb finished then throw (sql_error "unexpected trailing input") else mret result.
Definition parse_fuel (tokens : list token) : nat := (3 * length tokens + 2)%nat.
Definition parse_statement (text : string) : result statement :=
  tokens ← tokenize text;
  run (parse_whole (parse_fuel tokens)) (TokenStream tokens 0).

(** ** The stream is never read past its end, and the fuel is enough *)

(** A stream as [tokenize] makes it: it ends with [tk_end], and the position is inside. *)
Definition ts_ok (ts : token_stream) : Prop :=
  ∃ l, ts_tokens ts = l ++ [plain tk_end] ∧ (ts_position ts ≤ length l)%nat.
Definition ts_left (ts : token_stream) : nat := (length (ts_tokens ts) - ts_position ts)%nat.
Definition is_sql (e : error) : Prop := ∃ w, e = sql_error w.
(** [parses n m]: on a stream with [r] tokens left, [m] throws an SQL error or leaves at most
    [r - n]. *)
Definition parses {A} (n : nat) (m : parser A) (ts : token_stream) : Prop :=
  match m ts with
  | (Ok _, ts') => ts_ok ts' ∧ (ts_left ts' + n ≤ ts_left ts)%nat
  | (Throw e, _) => is_sql e
  end.

Lemma ts_lookup ts : ts_ok ts → ∃ t, ts_tokens ts !! ts_position ts = Some t ∧
  (t_kind t ≠ tk_end → (ts_position ts + 1 < length (ts_tokens ts))%nat).
Proof.
  intros (l & El & Hp). rewrite El.
  destruct ((l ++ [plain tk_end]) !! ts_position ts) as [t|] eqn:E.
  - exists t. split; [done|]. intros Ht. rewrite length_app. simpl.
    destruct (decide (ts_position ts = length l)) as [Heq|]; [|lia].
    rewrite Heq, list_lookup_middle in E by done. by injection E as <-.
  - apply lookup_ge_None in E. rewrite length_app in E. simpl in E. lia.
Qed.

Create HintDb parse.
Section parsing.
Context {A B : Type}.
Implicit Types (ts : token_stream).

Lemma parses_ret (a : A) ts : ts_ok ts → parses 0 (mret a) ts.
Proof. intros. unfold parses, mret, M_ret. split; [done|lia]. Qed.
Lemma parses_throw w n ts : parses (A:=A) n (throw (sql_error w)) ts.
Proof. by eexists. Qed.
Lemma parses_bind n1 n2 (m : parser A) (f : A → parser B) ts :
  parses n1 m ts →
  (∀ a ts', m ts = (Ok a, ts') → ts_ok ts' → (ts_left ts' + n1 ≤ ts_left ts)%nat → parses n2 (f a) ts') →
  parses (n1 + n2) (m ≫= f) ts.
Proof.
  unfold parses, mbind, M_bind. destruct (m ts) as [[a|e] ts'] eqn:E; [|done].
  intros [Hok Hl] Hf. specialize (Hf a ts' eq_refl Hok Hl). destruct (f a ts') as [[b|e] ts'']; [|done].
  destruct Hf as [? ?]. split; [done|lia].
Qed.
Lemma parses_weaken n1 n2 (m : parser A) ts : (n2 ≤ n1)%nat → parses n1 m ts → parses n2 m ts.
Proof. unfold parses. destruct (m ts) as [[?|?] ?]; [|done]. intros ? [? ?]. split; [done|lia]. Qed.
End parsing.

Lemma run_peek ts t : ts_tokens ts !! ts_position ts = Some t → peek ts = (Ok t, ts).
Proof. intros E. unfold peek, mbind, M_bind, get. by rewrite E. Qed.
Lemma run_check k ts t :
  ts_tokens ts !! ts_position ts = Some t → check k ts = (Ok (bool_decide (t_kind t = k)), ts).
Proof. intros E. unfold check. by m_run (run_peek ts t E). Qed.
Definition stepped (ts : token_stream) : token_stream :=
  if (ts_position ts + 1 <? length (ts_tokens ts))%nat
  then TokenStream (ts_tokens ts) (ts_position ts + 1) else ts.
Lemma run_advance ts t :
  ts_tokens ts !! ts_position ts = Some t → advance ts = (Ok t, stepped ts).
Proof. intros E. unfold advance. by m_run (run_peek ts t E). Qed.
Lemma stepped_ok ts : ts_ok ts → ts_ok (stepped ts) ∧ (ts_left (stepped ts) ≤ ts_left ts)%nat ∧
  ((ts_position ts + 1 < length (ts_tokens ts))%nat → (ts_left (stepped ts) + 1 ≤ ts_left ts)%nat).
Proof.
  intros Hts. pose proof Hts as (l & El & Hp). unfold stepped.
  destruct (Nat.ltb_spec (ts_position ts + 1) (length (ts_tokens ts))) as [Hlt|]; [|split_and!; [done|lia|lia]].
  split_and!; [|unfold ts_left; simpl; lia..].
  exists l. split; [done|]. simpl. rewrite El, length_app in Hlt. simpl in Hlt. lia.
Qed.

Section steps.
Context {A : Type}.
Implicit Types (ts : token_stream).
(** Every function that reads one token and accepts it only if it is not [tk_end]. *)
Lemma parses_advance ts (f : token → parser A) :
  ts_ok ts → (∀ t, t_kind t = tk_end → ∃ w, ∀ ts', f t ts' = (Throw (sql_error w), ts')) →
  (∀ t ts', ts_ok ts' → parses 0 (f t) ts') →
  parses 1 (advance ≫= f) ts.
Proof.
  intros Hts Hend Hf. destruct (ts_lookup ts Hts) as (t & Ht & Hne).
  destruct (stepped_ok ts Hts) as (Hok & Hle & Hlt).
  unfold parses, mbind, M_bind. rewrite (run_advance ts t Ht).
  destruct (decide (t_kind t = tk_end)) as [E|E].
  - destruct (Hend t E) as [w Hw]. rewrite Hw. by eexists.
  - specialize (Hf t (stepped ts) Hok). unfold parses in Hf.
    destruct (f t (stepped ts)) as [[a|e] ts']; [|done]. destruct Hf as [? ?].
    specialize (Hlt (Hne E)). split; [done|lia].
Qed.
Lemma parses_match k ts :
  ts_ok ts → k ≠ tk_end →
  ∃ b ts', match_ k ts = (Ok b, ts') ∧ ts_ok ts' ∧
    (ts_left ts' + (if (b : bool) then 1 else 0) ≤ ts_left ts)%nat.
Proof.
  intros Hts Hk. destruct (ts_lookup ts Hts) as (t & Ht & Hne).
  destruct (stepped_ok ts Hts) as (Hok & Hle & Hlt).
  unfold match_. m_run (run_check k ts t Ht). destruct (bool_decide_reflect (t_kind t = k)) as [E|E]; simpl.
  - m_run (run_advance ts t Ht). exists true, (stepped ts). split_and!; [done|done|].
    apply Hlt, Hne. congruence.
  - exists false, ts. split_and!; [done|done|lia].
Qed.
Lemma parses_expect k what ts : ts_ok ts → k ≠ tk_end → parses 1 (expect k what) ts.
Proof.
  intros Hts Hk. destruct (ts_lookup ts Hts) as (t & Ht & Hne).
  destruct (stepped_ok ts Hts) as (Hok & Hle & Hlt).
  unfold parses, expect. m_run (run_check k ts t Ht). destruct (bool_decide_reflect (t_kind t = k)) as [E|E]; simpl.
  - rewrite (run_advance ts t Ht). split; [done|]. apply Hlt, Hne. congruence.
  - by eexists.
Qed.
End steps.

(** A successful [match_] of a token that is not the end consumes it. *)
Lemma parses_if_match {A} k n1 n2 (m1 m2 : parser A) ts :
  ts_ok ts → k ≠ tk_end →
  (∀ ts', ts_ok ts' → (ts_left ts' + 1 ≤ ts_left ts)%nat → parses n1 m1 ts') →
  (∀ ts', ts_ok ts' → (ts_left ts' ≤ ts_left ts)%nat → parses n2 m2 ts') →
  parses (Nat.min (S n1) n2) (b ← match_ k; if (b : bool) then m1 else m2) ts.
Proof.
  intros Hts Hk H1 H2. destruct (parses_match k ts Hts Hk) as (b & ts' & E & Hok & Hl).
  unfold parses. m_run E. destruct b.
  - specialize (H1 ts' Hok Hl). unfold parses in H1. destruct (m1 ts') as [[a|e] ts'']; [|done].
    destruct H1 as [? ?]. split; [done|lia].
  - specialize (H2 ts' Hok ltac:(lia)). unfold parses in H2. destruct (m2 ts') as [[a|e] ts'']; [|done].
    destruct H2 as [? ?]. split; [done|lia].
Qed.
Lemma parses_skip_match {A} k n (m : parser A) ts :
  ts_ok ts → k ≠ tk_end → (∀ ts', ts_ok ts' → (ts_left ts' ≤ ts_left ts)%nat → parses n m ts') →
  parses n (_ ← match_ k; m) ts.
Proof.
  intros Hts Hk H. destruct (parses_match k ts Hts Hk) as (b & ts' & E & Hok & Hl).
  unfold parses. m_run E. specialize (H ts' Hok ltac:(lia)). unfold parses in H.
  destruct (m ts') as [[a|e] ts'']; [|done]. destruct H as [? ?]. split; [done|lia].
Qed.

Ltac by_kind := intros [k ? ? ?]; simpl; intros; subst; eexists; intros; reflexivity.
Ltac any_kind := intros [[] ? ? ?]; simpl; intros; first [by apply parses_ret | apply parses_throw].
Lemma parses_column_type ts : ts_ok ts → parses 1 parse_column_type ts.
Proof. intros. apply parses_advance; [done|by_kind|any_kind]. Qed.
Lemma parses_literal ts : ts_ok ts → parses 1 parse_literal ts.
Proof. intros. apply parses_advance; [done|by_kind|any_kind]. Qed.
Lemma parses_comparator ts : ts_ok ts → parses 1 parse_comparator ts.
Proof. intros. apply parses_advance; [done|by_kind|any_kind]. Qed.
Lemma parses_identifier what ts : ts_ok ts → parses 1 (identifier_text what) ts.
Proof.
  intros. apply (parses_bind 1 0); [by apply parses_expect|]. intros. by apply parses_ret.
Qed.
#[export] Hint Resolve parses_column_type parses_literal parses_comparator parses_identifier : parse.
#[export] Hint Extern 1 (parses _ (expect _ _) _) => apply parses_expect; [assumption|discriminate] : parse.
#[export] Hint Extern 1 (parses _ (mret _) _) => apply parses_ret; assumption : parse.
#[export] Hint Extern 1 (parses _ (throw (sql_error _)) _) => apply parses_throw : parse.

(** Peel one [bind] off: [n] is what its first half consumes. *)
Ltac seq n := eapply (parses_weaken (n + _)); [|eapply (parses_bind n); [solve [eauto with parse]|intros ? ? _ ? ?]].

Lemma parses_comparison ts : ts_ok ts → parses 3 parse_comparison ts.
Proof. intros. unfold parse_comparison. seq 1%nat; [|seq 1%nat; [|seq 1%nat; [|apply parses_ret]]]; try done; lia. Qed.
#[export] Hint Resolve parses_comparison : parse.

(** Fuel three times the tokens left, and a little more, is enough for an expression. *)
Lemma parses_expressions fuel ts :
  ts_ok ts →
  ((3 * ts_left ts ≤ fuel)%nat → parses 1 (parse_unary_expression fuel) ts) ∧
  (∀ left, (3 * ts_left ts ≤ fuel)%nat → parses 0 (and_loop fuel left) ts) ∧
  ((3 * ts_left ts + 1 ≤ fuel)%nat → parses 1 (parse_and_expression fuel) ts) ∧
  (∀ left, (3 * ts_left ts ≤ fuel)%nat → parses 0 (or_loop fuel left) ts) ∧
  ((3 * ts_left ts + 2 ≤ fuel)%nat → parses 1 (parse_expression fuel) ts).
Proof.
  revert ts. induction fuel as [|fuel IH]; intros ts Hts.
  - assert (0 < ts_left ts)%nat as Hpos.
    { destruct Hts as (l & El & Hp). unfold ts_left. rewrite El, length_app. simpl. lia. }
    split_and!; intros; lia.
  - split_and!; simpl; intros.
    + eapply (parses_weaken (Nat.min 2 1)); [lia|]. apply parses_if_match; [done|done| |].
      * intros ts' Hok Hl. eapply (parses_weaken (1 + 0)); [lia|].
        apply (parses_bind 1 0); [apply IH; [done|lia]|]. intros. by apply parses_ret.
      * intros ts' Hok Hl. eapply (parses_weaken (Nat.min 3 3)); [lia|].
        apply parses_if_match; [done|done| |intros; by apply parses_comparison].
        intros ts2 Hok2 Hl2. apply (parses_bind 1 1); [apply IH; [done|lia]|].
        intros e ts3 _ Hok3 Hl3. apply (parses_bind 1 0); [by apply parses_expect|].
        intros. by apply parses_ret.
    + eapply (parses_weaken (Nat.min 2 0)); [lia|]. apply parses_if_match; [done|done| |intros; by apply parses_ret].
      intros ts' Hok Hl. apply (parses_bind 1 0); [apply IH; [done|lia]|].
      intros e ts2 _ Hok2 Hl2. apply IH; [done|lia].
    + apply (parses_bind 1 0); [apply IH; [done|lia]|]. intros e ts2 _ Hok2 Hl2. apply IH; [done|lia].
    + eapply (parses_weaken (Nat.min 2 0)); [lia|]. apply parses_if_match; [done|done| |intros; by apply parses_ret].
      intros ts' Hok Hl. apply (parses_bind 1 0); [apply IH; [done|lia]|].
      intros e ts2 _ Hok2 Hl2. apply IH; [done|lia].
    + apply (parses_bind 1 0); [apply IH; [done|lia]|]. intros e ts2 _ Hok2 Hl2. apply IH; [done|lia].
Qed.
Lemma parses_expression fuel ts :
  ts_ok ts → (3 * ts_left ts + 2 ≤ fuel)%nat → parses 1 (parse_expression fuel) ts.
Proof. intros Hts Hf. by apply (parses_expressions fuel ts Hts). Qed.

Lemma parses_comma_loop {A} fuel (item : parser A) l ts :
  ts_ok ts → (ts_left ts ≤ fuel)%nat →
  (∀ ts', ts_ok ts' → (ts_left ts' ≤ ts_left ts)%nat → parses 0 item ts') →
  parses 0 (comma_loop fuel item l) ts.
Proof.
  revert l ts. induction fuel as [|fuel IH]; intros l ts Hts Hf Hitem.
  - destruct Hts as (k & El & Hp). unfold ts_left in Hf. rewrite El, length_app in Hf. simpl in Hf. lia.
  - simpl. eapply (parses_weaken (Nat.min 1 0)); [lia|]. apply parses_if_match; [done|done| |intros; by apply parses_ret].
    intros ts' Hok Hl. apply (parses_bind 0 0); [apply Hitem; [done|lia]|].
    intros x ts2 _ Hok2 Hl2. apply IH; [done|lia|]. intros ts3 Hok3 Hl3. apply Hitem; [done|lia].
Qed.
Lemma parses_comma_list {A} n fuel (item : parser A) ts :
  ts_ok ts → (ts_left ts ≤ fuel)%nat →
  (∀ ts', ts_ok ts' → (ts_left ts' ≤ ts_left ts)%nat → parses n item ts') →
  parses 0 (comma_list fuel item) ts.
Proof.
  intros Hts Hf Hitem. eapply (parses_weaken (n + 0)); [lia|]. apply parses_bind; [by apply Hitem|].
  intros x ts' _ Hok Hl. apply parses_comma_loop; [done|lia|].
  intros ts2 Hok2 Hl2. eapply (parses_weaken n); [lia|]. apply Hitem; [done|lia].
Qed.

Lemma parses_expect_0 k what ts : ts_ok ts → k ≠ tk_end → parses 0 (expect k what) ts.
Proof. intros. eapply (parses_weaken 1); [lia|]. by apply parses_expect. Qed.
Lemma parses_list_0 {A} fuel (item : parser A) ts :
  ts_ok ts → (ts_left ts ≤ fuel)%nat → (∀ ts', ts_ok ts' → parses 1 item ts') → parses 0 (comma_list fuel item) ts.
Proof. intros ? ? Hitem. apply (parses_comma_list 1); auto. Qed.

(** [pseq]: the next statement of a parser; what is left of the stream stays within the fuel. *)
Ltac pseq :=
  apply (parses_bind 0 0);
  [first [ apply parses_expect_0; [assumption|discriminate] | eapply (parses_weaken 1); [lia|solve [eauto with parse]]
         | apply parses_list_0; [assumption|lia|solve [eauto with parse]] | idtac]
  |intros ? ? _ ? ?].
Section statements.
Context (fuel : nat).
Implicit Types (ts : token_stream).

Lemma parses_match_0 k ts : ts_ok ts → k ≠ tk_end → parses 0 (match_ k) ts.
Proof.
  intros Hts Hk. destruct (parses_match k ts Hts Hk) as (b & ts' & E & Hok & Hl). unfold parses. rewrite E.
  split; [done|lia].
Qed.
Lemma parses_column_definition ts : ts_ok ts → parses 1 parse_column_definition ts.
Proof. intros. unfold parse_column_definition. seq 1%nat; [|seq 1%nat; [|apply parses_ret]]; try done; lia. Qed.
Lemma parses_assignment ts : ts_ok ts → parses 1 parse_assignment ts.
Proof. intros. unfold parse_assignment. seq 1%nat; [|seq 1%nat; [|seq 1%nat; [|apply parses_ret]]]; try done; lia. Qed.
Hint Resolve parses_column_definition parses_assignment : parse.

Lemma parses_tuple ts : ts_ok ts → (ts_left ts ≤ fuel)%nat → parses 0 (parse_value_tuple fuel) ts.
Proof. intros. unfold parse_value_tuple. do 3 pseq. by apply parses_ret. Qed.
Lemma parses_where ts : ts_ok ts → (3 * ts_left ts + 2 ≤ fuel)%nat → parses 0 (parse_where fuel) ts.
Proof.
  intros. unfold parse_where. eapply (parses_weaken (Nat.min 1 0)); [lia|].
  apply parses_if_match; [done|done| |intros; by apply parses_ret]. intros ts' ? ?.
  pseq; [eapply (parses_weaken 1); [lia|]; apply parses_expression; [done|lia]|]. by apply parses_ret.
Qed.
Lemma parses_create ts : ts_ok ts → (ts_left ts ≤ fuel)%nat → parses 0 (parse_create_table fuel) ts.
Proof. intros. unfold parse_create_table. do 6 pseq. by apply parses_ret. Qed.
Lemma parses_insert ts : ts_ok ts → (ts_left ts ≤ fuel)%nat → parses 0 (parse_insert fuel) ts.
Proof.
  intros. unfold parse_insert. do 3 pseq. 
  pseq; [by apply parses_match_0|]. pseq.
  { case_match; [|by apply parses_ret]. do 2 pseq. by apply parses_ret. }
  do 2 pseq; [|by apply parses_ret].
  apply (parses_comma_list 0); [done|lia|]. intros. apply parses_tuple; [done|lia].
Qed.
Lemma parses_order_by ts : ts_ok ts → parses 0 parse_order_by ts.
Proof.
  intros. unfold parse_order_by. eapply (parses_weaken (Nat.min 1 0)); [lia|].
  apply parses_if_match; [done|done| |intros; by apply parses_ret]. intros ts' ? ?. do 2 pseq.
  eapply (parses_weaken (Nat.min 1 0)); [lia|]. apply parses_if_match; [done|done| |]; intros; [by apply parses_ret|].
  apply parses_skip_match; [done|done|]. intros. by apply parses_ret.
Qed.
Lemma parses_update ts : ts_ok ts → (3 * ts_left ts + 2 ≤ fuel)%nat → parses 0 (parse_update fuel) ts.
Proof.
  intros. unfold parse_update. do 4 pseq. pseq; [apply parses_where; [done|lia]|]. by apply parses_ret.
Qed.
Lemma parses_delete ts : ts_ok ts → (3 * ts_left ts + 2 ≤ fuel)%nat → parses 0 (parse_delete fuel) ts.
Proof.
  intros. unfold parse_delete. do 3 pseq. pseq; [apply parses_where; [done|lia]|]. by apply parses_ret.
Qed.
Lemma parses_select ts : ts_ok ts → (3 * ts_left ts + 2 ≤ fuel)%nat → parses 0 (parse_select fuel) ts.
Proof.
  intros. unfold parse_select. pseq.
  pseq; [by apply parses_match_0|]. pseq.
  { case_match; [by apply parses_ret|]. unfold parse_identifier_list. apply parses_list_0; [done|lia|].
    intros. by apply parses_identifier. }
  do 2 pseq. pseq; [apply parses_where; [done|lia]|]. pseq; [by apply parses_order_by|].
  pseq; [by apply parses_match_0|]. pseq; [|by apply parses_ret].
  case_match; [|by apply parses_ret]. pseq. by apply parses_ret.
Qed.
Lemma parses_any ts : ts_ok ts → (3 * ts_left ts + 2 ≤ fuel)%nat → parses 0 (parse_any fuel) ts.
Proof.
  intros Hts Hf. unfold parse_any. destruct (ts_lookup ts Hts) as (t & Ht & _).
  unfold parses. m_run (run_peek ts t Ht).
  match goal with |- match ?m ts with _ => _ end => change (parses 0 m ts) end.
  destruct (t_kind t); try apply parses_throw.
  - pseq; [by apply parses_select|by apply parses_ret].
  - pseq; [apply parses_insert; [done|lia]|by apply parses_ret].
  - pseq; [by apply parses_update|by apply parses_ret].
  - pseq; [by apply parses_delete|by apply parses_ret].
  - pseq; [apply parses_create; [done|lia]|by apply parses_ret].
Qed.
Lemma parses_check k ts : ts_ok ts → parses 0 (check k) ts.
Proof.
  intros Hts. destruct (ts_lookup ts Hts) as (t & Ht & _). unfold parses. rewrite (run_check k ts t Ht).
  split; [done|lia].
Qed.
Lemma parses_whole ts : ts_ok ts → (3 * ts_left ts + 2 ≤ fuel)%nat → parses 0 (parse_whole fuel) ts.
Proof.
  intros. unfold parse_whole. pseq; [by apply parses_check|]. case_match; [apply parses_throw|].
  pseq; [apply parses_any; [done|lia]|]. pseq; [by apply parses_match_0|].
  pseq; [by apply parses_check|]. case_match; [apply parses_throw|by apply parses_ret].
Qed.
End statements.

(** ** The scanner consumes a character at every turn *)
Lemma string_body_length l value r :
  string_body l value = Ok r → (length r.2 ≤ length l)%nat.
Proof.
  revert value. induction l as [l IH] using (induction_ltof1 _ (@length _)). unfold ltof in IH.
  intros value. destruct l as [|c l]; simpl; [done|]. case_match.
  - destruct l as [|d l]; [intros [= <-]; simpl; lia|]. case_match.
    + intros E%IH; simpl in *; lia.
    + intros [= <-]; simpl; lia.
  - intros E%IH; simpl in *; lia.
Qed.
Lemma string_body_error l value e : string_body l value = Throw e → is_sql e.
Proof.
  revert value. induction l as [l IH] using (induction_ltof1 _ (@length _)). unfold ltof in IH.
  intros value. destruct l as [|c l]; simpl; [intros [= <-]; by eexists|]. case_match.
  - destruct l as [|d l]; [done|]. case_match; [|done]. intros E. eapply IH; [|done]. simpl; lia.
  - intros E. eapply IH; [|done]. simpl; lia.
Qed.
Lemma number_parts_length c l :
  is_digit c = true → (length (number_parts (c :: l)).2 ≤ length l)%nat.
Proof.
  intros Hc. unfold number_parts. pose proof (span_consumes is_digit c l Hc) as H.
  destruct (span is_digit (c :: l)) as [whole rest]. simpl in H.
  destruct rest as [|a [|d rest]]; simpl; [done..|]. case_match; [|done].
  pose proof (span_length is_digit (d :: rest)) as H2. cbn [span] in H2.
  destruct (is_digit d); [destruct (span is_digit rest)|]; simpl in *; lia.
Qed.
Lemma operator_token_spec c rest :
  match operator_token c rest with
  | Ok r => (length r.2 ≤ length rest)%nat
  | Throw e => is_sql e
  end.
Proof.
  unfold operator_token. assert (length (tail rest) ≤ length rest)%nat by (destruct rest; simpl; lia).
  repeat case_match; simplify_eq/=; try done; by eexists.
Qed.
Lemma lex_step_spec c rest :
  match lex_step c rest with
  | Ok r => (length r.2 ≤ length rest)%nat
  | Throw e => is_sql e
  end.
Proof.
  unfold lex_step. destruct (is_space c); [simpl; lia|].
  match goal with |- context [if ?b then _ else _] => destruct b eqn:Hd end.
  { apply andb_true_iff in Hd as [Hc%bool_decide_eq_true _]. subst c.
    by apply (span_consumes (λ c : Ascii.ascii, negb (char_is c "010"%char))). }
  match goal with |- context [if ?b then _ else _] => destruct b eqn:Ha end.
  { assert (word_char c = true) as Hw.
    { unfold word_char, is_alnum. apply orb_true_iff in Ha as [->| ->]; [done|apply orb_true_r]. }
    pose proof (span_consumes word_char c rest Hw) as Hl. by destruct (span word_char (c :: rest)). }
  destruct (is_digit c) eqn:Hdig.
  { pose proof (number_parts_length c rest Hdig) as Hl.
    destruct (number_parts (c :: rest)) as [[whole fraction] rest']. simpl in Hl.
    unfold number_token. destruct fraction; simpl.
    - destruct (stod _ _); simpl; [done|by eexists].
    - destruct (digits_value whole <? 2 ^ 63); simpl; [done|by eexists]. }
  destruct (char_is c "'").
  - destruct (string_body rest []) as [r|e] eqn:E; simpl; [by eapply string_body_length|by eapply string_body_error].
  - pose proof (operator_token_spec c rest) as Ho. by destruct (operator_token c rest).
Qed.
Lemma lex_spec fuel l tokens :
  (length l ≤ fuel)%nat →
  match lex fuel l tokens with
  | Ok ts => ∃ k, ts = k ++ [plain tk_end]
  | Throw e => is_sql e
  end.
Proof.
  revert l tokens. induction fuel as [|fuel IH]; intros [|c l] tokens Hl; simpl in *; try lia.
  - by eexists.
  - by eexists.
  - pose proof (lex_step_spec c l) as Hs. destruct (lex_step c l) as [[o r]|e]; simpl in *; [|done].
    apply IH. lia.
Qed.
