(* ===== verification/SqlReadBack.v ===== *)
(** * Statements are read back as they are written.

    [statement_text] writes a statement the way a client would type it.  Scanning that text gives
    its tokens, and parsing these gives the statement, whatever its size. *)
From stdpp Require Import pretty.
From S2P Require Import Prelude.
From S2P Require Import Value.
From S2P Require Import Double.
From S2P Require Import Chars.
From S2P Require Import SqlSyntax.
From S2P Require Import SqlParser.
From Stdlib Require Import Ascii.
#[local] Open Scope Z_scope.

(** ** Tokens as they are written *)
(** How a keyword, or an operator, is spelled. *)
Definition spelling (k : token_kind) : string :=
  match k with
  | kw_select => "SELECT" | kw_from => "FROM" | kw_where => "WHERE" | kw_insert => "INSERT"
  | kw_into => "INTO" | kw_values => "VALUES" | kw_update => "UPDATE" | kw_set => "SET"
  | kw_delete => "DELETE" | kw_create => "CREATE" | kw_table => "TABLE" | kw_order => "ORDER"
  | kw_by => "BY" | kw_asc => "ASC" | kw_desc => "DESC" | kw_limit => "LIMIT" | kw_and => "AND"
  | kw_or => "OR" | kw_not => "NOT" | kw_null => "NULL" | kw_true => "TRUE" | kw_false => "FALSE"
  | kw_integer => "INTEGER" | kw_real => "REAL" | kw_text => "TEXT" | kw_boolean => "BOOLEAN"
  | tk_comma => "," | tk_dot => "." | tk_star => "*" | tk_semicolon => ";" | lparen => "(" | rparen => ")"
  | op_eq => "=" | op_neq => "<>" | op_lt => "<" | op_lte => "<=" | op_gt => ">" | op_gte => ">="
  | tk_end | identifier | integer_literal | real_literal | string_literal => ""
  end.
Definition keyword (k : token_kind) : token := Token k (spelling k) 0 0.
Definition name_token (name : string) : token := Token identifier name 0 0.
(** A text as a string literal of SQL: quotes doubled, between quotes. *)
Fixpoint double_quotes (l : list ascii) : list ascii :=
  match l with
  | [] => []
  | c :: l => if char_is c "'" then "'"%char :: "'"%char :: double_quotes l else c :: double_quotes l
  end.
Definition quoted (s : string) : list ascii := "'"%char :: double_quotes (chars_of s) ++ ["'"%char].
Definition starts_with_quote (l : list ascii) : bool := bool_decide (head l = Some "'"%char).

Lemma string_body_quotes l rest acc :
  starts_with_quote rest = false →
  string_body (double_quotes l ++ "'"%char :: rest) acc = Ok (acc ++ l, rest).
Proof.
  intros Hr. revert acc. induction l as [|c l IH]; intros acc; simpl.
  - rewrite app_nil_r. destruct rest as [|d rest]; [done|].
    unfold starts_with_quote in Hr. apply bool_decide_eq_false in Hr.
    unfold char_is. rewrite bool_decide_false; [done|]. intros ->. by apply Hr.
  - destruct (char_is c "'") eqn:E; simpl.
    + unfold char_is in E. apply bool_decide_eq_true in E as ->. rewrite IH. by rewrite <- app_assoc.
    + rewrite E, IH. by rewrite <- app_assoc.
Qed.

(** ** Expressions *)

Definition literal_token (lit : literal) : token :=
  match lit with
  | LNull => keyword kw_null
  | LBool true => keyword kw_true
  | LBool false => keyword kw_false
  | LInteger z => Token integer_literal (pretty z) z 0
  | LReal d => Token real_literal "" 0 d
  | LText s => Token string_literal s 0 0
  end.
Definition comparator_token (op : comparison_operator) : token :=
  plain match op with
        | c_eq => op_eq | c_neq => op_neq | c_lt => op_lt | c_lte => op_lte | c_gt => op_gt | c_gte => op_gte
        end.
(** Where an expression stands: alone, beside [AND], or after [NOT] and to the right of [AND]. *)
Inductive level := at_or | at_and | at_unary.
Definition in_parentheses (l : list token) : list token := plain lparen :: l ++ [plain rparen].
(** The tokens of an expression, with the parentheses it needs and no others: [NOT] binds tighter
    than [AND], that tighter than [OR], and both chain to the left. *)
Fixpoint expression_tokens (lv : level) (e : expression) : list token :=
  match e with
  | Comparison column op v => [Token identifier column 0 0; comparator_token op; literal_token v]
  | Negation e => keyword kw_not :: expression_tokens at_unary e
  | Logical and_op l r =>
      let body := expression_tokens at_and l ++ keyword kw_and :: expression_tokens at_unary r in
      match lv with at_unary => in_parentheses body | _ => body end
  | Logical or_op l r =>
      let body := expression_tokens at_or l ++ keyword kw_or :: expression_tokens at_and r in
      match lv with at_or => body | _ => in_parentheses body end
  end.
(** The stream at [l], with [before] read already. *)
Definition stream (before l : list token) : token_stream := TokenStream (before ++ l) (length before).

Lemma stream_peek before t l : ts_tokens (stream before (t :: l)) !! ts_position (stream before (t :: l)) = Some t.
Proof. simpl. by apply list_lookup_middle. Qed.
Lemma stream_step before t t' l : stepped (stream before (t :: t' :: l)) = stream (before ++ [t]) (t' :: l).
Proof.
  unfold stepped, stream; simpl. rewrite !length_app; simpl.
  destruct (Nat.ltb_spec (length before + 1) (length before + S (S (length l)))); [|lia].
  f_equal. by rewrite <- app_assoc.
Qed.
Lemma run_match_yes k before t l :
  t_kind t = k → l ≠ [] → match_ k (stream before (t :: l)) = (Ok true, stream (before ++ [t]) l).
Proof.
  intros Hk Hl. destruct l as [|t' l]; [done|]. unfold match_.
  m_run (run_check k _ _ (stream_peek before t (t' :: l))).
  rewrite bool_decide_true by done. simpl. m_run (run_advance _ _ (stream_peek before t (t' :: l))).
  by rewrite stream_step.
Qed.
Lemma run_match_no k before t l :
  t_kind t ≠ k → match_ k (stream before (t :: l)) = (Ok false, stream before (t :: l)).
Proof.
  intros Hk. unfold match_. m_run (run_check k _ _ (stream_peek before t l)).
  by rewrite bool_decide_false.
Qed.
Lemma run_expect_yes k what before t t' l :
  t_kind t = k → expect k what (stream before (t :: t' :: l)) = (Ok t, stream (before ++ [t]) (t' :: l)).
Proof.
  intros Hk. unfold expect. m_run (run_check k _ _ (stream_peek before t (t' :: l))).
  rewrite bool_decide_true by done. simpl. rewrite (run_advance _ _ (stream_peek before t (t' :: l))).
  by rewrite stream_step.
Qed.
Lemma run_identifier what column before t l :
  identifier_text what (stream before (Token identifier column 0 0 :: t :: l)) =
  (Ok column, stream (before ++ [Token identifier column 0 0]) (t :: l)).
Proof.
  unfold identifier_text.
  by m_run (run_expect_yes identifier what before (Token identifier column 0 0) t l eq_refl).
Qed.
Lemma run_comparator op before t l :
  parse_comparator (stream before (comparator_token op :: t :: l)) =
  (Ok op, stream (before ++ [comparator_token op]) (t :: l)).
Proof.
  unfold parse_comparator. m_run (run_advance _ _ (stream_peek before (comparator_token op) (t :: l))).
  rewrite stream_step. by destruct op.
Qed.
Lemma run_literal v before t l :
  parse_literal (stream before (literal_token v :: t :: l)) =
  (Ok v, stream (before ++ [literal_token v]) (t :: l)).
Proof.
  unfold parse_literal. m_run (run_advance _ _ (stream_peek before (literal_token v) (t :: l))).
  rewrite stream_step. by destruct v as [|[]| | |].
Qed.
Lemma run_comparison lv column op v before t l :
  parse_comparison (stream before (expression_tokens lv (Comparison column op v) ++ t :: l)) =
  (Ok (Comparison column op v), stream (before ++ expression_tokens lv (Comparison column op v)) (t :: l)).
Proof.
  unfold parse_comparison. simpl app. m_run (run_identifier "a column name" column before (comparator_token op) (literal_token v :: t :: l)).
  m_run (run_comparator op (before ++ [Token identifier column 0 0]) (literal_token v) (t :: l)).
  m_run (run_literal v ((before ++ [Token identifier column 0 0]) ++ [comparator_token op]) t l).
  by rewrite <- !app_assoc.
Qed.

(** Fuel that is enough for an expression. *)
Fixpoint weight (e : expression) : nat :=
  match e with
  | Comparison _ _ _ => 1
  | Negation e => S (weight e)
  | Logical _ l r => weight l + weight r + 11
  end.
Definition reads_unary (e : expression) : Prop := ∀ fuel before t l,
  (weight e ≤ fuel)%nat →
  parse_unary_expression fuel (stream before (expression_tokens at_unary e ++ t :: l)) =
  (Ok e, stream (before ++ expression_tokens at_unary e) (t :: l)).
Definition reads_and (e : expression) : Prop := ∀ m fuel before t l,
  (weight e + 2 + m ≤ fuel)%nat → ∃ fuel', (m ≤ fuel')%nat ∧
  parse_and_expression fuel (stream before (expression_tokens at_and e ++ t :: l)) =
  and_loop fuel' e (stream (before ++ expression_tokens at_and e) (t :: l)).
Definition reads_or (e : expression) : Prop := ∀ m fuel before t l,
  (weight e + 4 + m ≤ fuel)%nat → t_kind t ≠ kw_and → ∃ fuel', (m ≤ fuel')%nat ∧
  parse_expression fuel (stream before (expression_tokens at_or e ++ t :: l)) =
  or_loop fuel' e (stream (before ++ expression_tokens at_or e) (t :: l)).

Lemma and_loop_stops fuel e before t l :
  (1 ≤ fuel)%nat → t_kind t ≠ kw_and → and_loop fuel e (stream before (t :: l)) = (Ok e, stream before (t :: l)).
Proof. intros Hf Ht. destruct fuel; [lia|]. simpl. by m_run (run_match_no kw_and before t l Ht). Qed.
Lemma or_loop_stops fuel e before t l :
  (1 ≤ fuel)%nat → t_kind t ≠ kw_or → or_loop fuel e (stream before (t :: l)) = (Ok e, stream before (t :: l)).
Proof. intros Hf Ht. destruct fuel; [lia|]. simpl. by m_run (run_match_no kw_or before t l Ht). Qed.
Lemma tokens_not_nil (l : list token) t k : l ++ t :: k ≠ [].
Proof. by destruct l. Qed.
#[local] Hint Resolve tokens_not_nil : core.

(** An expression in parentheses, [body] being how it is written without them. *)
Lemma parse_parenthesized e body fuel before t l :
  (∀ before, ∃ fuel', (1 ≤ fuel')%nat ∧ parse_expression fuel (stream before (body ++ plain rparen :: t :: l)) =
    or_loop fuel' e (stream (before ++ body) (plain rparen :: t :: l))) →
  parse_unary_expression (S fuel) (stream before (in_parentheses body ++ t :: l)) =
  (Ok e, stream (before ++ in_parentheses body) (t :: l)).
Proof.
  intros H. unfold in_parentheses. cbn [app]. rewrite <- app_assoc. cbn [app].
  change (parse_unary_expression (S fuel)) with
    (negated ← match_ kw_not;
     if (negated : bool) then e ← parse_unary_expression fuel; mret (Negation e)
     else open ← match_ lparen;
       if (open : bool) then e ← parse_expression fuel; _ ← expect rparen "')'"; mret e else parse_comparison).
  m_run (run_match_no kw_not before (plain lparen) (body ++ plain rparen :: t :: l) ltac:(done)).
  m_run (run_match_yes lparen before (plain lparen) (body ++ plain rparen :: t :: l) eq_refl ltac:(done)).
  destruct (H (before ++ [plain lparen])) as (fuel' & Hf & E).
  assert (or_loop fuel' e (stream ((before ++ [plain lparen]) ++ body) (plain rparen :: t :: l)) =
    (Ok e, stream ((before ++ [plain lparen]) ++ body) (plain rparen :: t :: l))) as E2 by by apply or_loop_stops.
  rewrite E2 in E. m_run E.
  m_run (run_expect_yes rparen "')'" ((before ++ [plain lparen]) ++ body) (plain rparen) t l eq_refl).
  unfold mret, M_ret. by rewrite <- !app_assoc.
Qed.

Lemma and_body l r m fuel before t k :
  reads_and l → reads_unary r → (weight l + weight r + 3 + m ≤ fuel)%nat →
  ∃ fuel', (m ≤ fuel')%nat ∧
  parse_and_expression fuel (stream before
    ((expression_tokens at_and l ++ keyword kw_and :: expression_tokens at_unary r) ++ t :: k)) =
  and_loop fuel' (Logical and_op l r) (stream (before ++
    expression_tokens at_and l ++ keyword kw_and :: expression_tokens at_unary r) (t :: k)).
Proof.
  intros Hl Hr Hf. rewrite <- app_assoc. cbn [app].
  destruct (Hl (S (weight r + m)) fuel before (keyword kw_and) (expression_tokens at_unary r ++ t :: k) ltac:(lia))
    as (f1 & Hf1 & ->).
  destruct f1 as [|f1]; [lia|]. exists f1. split; [lia|]. cbn [and_loop].
  m_run (run_match_yes kw_and (before ++ expression_tokens at_and l) (keyword kw_and)
    (expression_tokens at_unary r ++ t :: k) eq_refl ltac:(done)).
  m_run (Hr f1 ((before ++ expression_tokens at_and l) ++ [keyword kw_and]) t k ltac:(lia)).
  by rewrite <- !app_assoc.
Qed.
Lemma or_body l r m fuel before t k :
  reads_or l → reads_and r → (weight l + weight r + 8 + m ≤ fuel)%nat → t_kind t ≠ kw_and →
  ∃ fuel', (m ≤ fuel')%nat ∧
  parse_expression fuel (stream before
    ((expression_tokens at_or l ++ keyword kw_or :: expression_tokens at_and r) ++ t :: k)) =
  or_loop fuel' (Logical or_op l r) (stream (before ++
    expression_tokens at_or l ++ keyword kw_or :: expression_tokens at_and r) (t :: k)).
Proof.
  intros Hl Hr Hf Ht. rewrite <- app_assoc. cbn [app].
  destruct (Hl (S (weight r + 3 + m)) fuel before (keyword kw_or) (expression_tokens at_and r ++ t :: k)
    ltac:(lia) ltac:(done)) as (f1 & Hf1 & ->).
  destruct f1 as [|f1]; [lia|]. exists f1. split; [lia|]. cbn [or_loop].
  m_run (run_match_yes kw_or (before ++ expression_tokens at_or l) (keyword kw_or)
    (expression_tokens at_and r ++ t :: k) eq_refl ltac:(done)).
  destruct (Hr 1%nat f1 ((before ++ expression_tokens at_or l) ++ [keyword kw_or]) t k ltac:(lia)) as (f2 & Hf2 & E).
  rewrite and_loop_stops in E by done. m_run E. by rewrite <- !app_assoc.
Qed.
Lemma reads_and_of_unary e :
  expression_tokens at_and e = expression_tokens at_unary e → reads_unary e → reads_and e.
Proof.
  intros Et He m fuel before t l Hf. destruct fuel as [|fuel]; [lia|]. exists fuel. split; [lia|].
  rewrite Et. cbn [parse_and_expression]. by m_run (He fuel before t l ltac:(lia)).
Qed.
Lemma reads_or_of_and e :
  expression_tokens at_or e = expression_tokens at_and e → reads_and e → reads_or e.
Proof.
  intros Et He m fuel before t l Hf Ht. destruct fuel as [|fuel]; [lia|]. exists fuel. split; [lia|].
  rewrite Et. cbn [parse_expression]. destruct (He 1%nat fuel before t l ltac:(lia)) as (f & Hf' & E).
  rewrite and_loop_stops in E by done. by m_run E.
Qed.
Lemma reads_any e : reads_unary e ∧ reads_and e ∧ reads_or e.
Proof.
  induction e as [column op v|[] l [Ul [Al Ol]] r [Ur [Ar Or]]|e [U _]].
  - assert (reads_unary (Comparison column op v)) as U.
    { intros fuel before t l Hf. simpl in Hf. destruct fuel as [|fuel]; [lia|]. cbn [parse_unary_expression expression_tokens app].
      m_run (run_match_no kw_not before (Token identifier column 0 0) (comparator_token op :: literal_token v :: t :: l) ltac:(done)).
      m_run (run_match_no lparen before (Token identifier column 0 0) (comparator_token op :: literal_token v :: t :: l) ltac:(done)).
      apply (run_comparison at_unary). }
    assert (reads_and (Comparison column op v)) by by apply reads_and_of_unary.
    split_and!; [done|done|by apply reads_or_of_and].
  - assert (reads_and (Logical and_op l r)) as A.
    { intros m fuel before t k Hf. apply and_body; [done|done|]. simpl in Hf. lia. }
    split_and!; [|done|by apply reads_or_of_and].
    intros fuel before t k Hf. simpl in Hf. destruct fuel as [|fuel]; [lia|].
    apply (parse_parenthesized (Logical and_op l r)). intros b. destruct fuel as [|fuel]; [lia|].
    exists fuel. split; [lia|]. cbn [parse_expression].
    destruct (and_body l r 1 fuel b (plain rparen) (t :: k) Al Ur ltac:(lia)) as (f & Hf' & E).
    rewrite and_loop_stops in E by done. by m_run E.
  - assert (reads_unary (Logical or_op l r)) as U.
    { intros fuel before t k Hf. simpl in Hf. destruct fuel as [|fuel]; [lia|].
      apply (parse_parenthesized (Logical or_op l r)). intros b. apply or_body; [done|done|lia|done]. }
    split_and!; [done|by apply reads_and_of_unary|].
    intros m fuel before t k Hf Ht. apply or_body; [done|done| |done]. simpl in Hf. lia.
  - assert (reads_unary (Negation e)) as U'.
    { intros fuel before t l Hf. simpl in Hf. destruct fuel as [|fuel]; [lia|]. cbn [parse_unary_expression expression_tokens app].
      m_run (run_match_yes kw_not before (keyword kw_not) (expression_tokens at_unary e ++ t :: l) eq_refl ltac:(done)).
      m_run (U fuel (before ++ [keyword kw_not]) t l ltac:(lia)). unfold mret, M_ret. by rewrite <- app_assoc. }
    split_and!; [done|by apply reads_and_of_unary|]. apply reads_or_of_and; [done|by apply reads_and_of_unary].
Qed.

Lemma weight_tokens lv e : (weight e + 8 ≤ 3 * length (expression_tokens lv e))%nat.
Proof.
  revert lv. induction e as [|[] l IHl r IHr|e IH]; intros lv; simpl; [lia| | |specialize (IH at_unary); lia].
  - specialize (IHl at_and). specialize (IHr at_unary).
    destruct lv; unfold in_parentheses; simpl; rewrite ?length_app; simpl; rewrite ?length_app; simpl; lia.
  - specialize (IHl at_or). specialize (IHr at_and).
    destruct lv; unfold in_parentheses; simpl; rewrite ?length_app; simpl; rewrite ?length_app; simpl; lia.
Qed.


(** ** Statements *)
Fixpoint commas (l : list (list token)) : list token :=
  match l with
  | [] => []
  | [x] => x
  | x :: l => x ++ plain tk_comma :: commas l
  end.
Definition type_token (t : column_type) : token :=
  keyword match t with ct_integer => kw_integer | ct_real => kw_real | ct_text => kw_text | ct_boolean => kw_boolean end.
Definition column_tokens (c : column_definition) : list token := [name_token (cd_name c); type_token (cd_type c)].
Definition tuple_tokens (row : list literal) : list token := in_parentheses (commas ((λ v, [literal_token v]) <$> row)).
Definition names_tokens (names : list string) : list token := commas ((λ c, [name_token c]) <$> names).
Definition assignment_tokens (a : string * literal) : list token := [name_token a.1; plain op_eq; literal_token a.2].
Definition where_tokens (w : option expression) : list token :=
  match w with Some e => keyword kw_where :: expression_tokens at_or e | None => [] end.
Definition order_tokens (o : option string) (d : sort_direction) : list token :=
  match o with
  | Some c => [keyword kw_order; keyword kw_by; name_token c; keyword (match d with ascending => kw_asc | descending => kw_desc end)]
  | None => []
  end.
Definition limit_tokens (l : option Z) : list token :=
  match l with Some n => [keyword kw_limit; literal_token (LInteger n)] | None => [] end.
Definition statement_tokens (s : statement) : list token :=
  match s with
  | SCreate s => keyword kw_create :: keyword kw_table :: name_token (ct_table s) ::
      in_parentheses (commas (column_tokens <$> ct_columns s))
  | SInsert s => keyword kw_insert :: keyword kw_into :: name_token (in_table s) ::
      (match in_columns s with [] => [] | columns => in_parentheses (names_tokens columns) end) ++
      keyword kw_values :: commas (tuple_tokens <$> in_rows s)
  | SSelect s => keyword kw_select ::
      (match se_columns s with [] => [plain tk_star] | columns => names_tokens columns end) ++
      keyword kw_from :: name_token (se_table s) :: where_tokens (se_where s) ++
      order_tokens (se_order_by s) (se_direction s) ++ limit_tokens (se_limit s)
  | SUpdate s => keyword kw_update :: name_token (up_table s) :: keyword kw_set ::
      commas (assignment_tokens <$> up_assignments s) ++ where_tokens (up_where s)
  | SDelete s => keyword kw_delete :: keyword kw_from :: name_token (de_table s) :: where_tokens (de_where s)
  end.
(** Lists that the grammar wants not empty, and the direction of no order. *)
Definition printable (s : statement) : Prop :=
  match s with
  | SCreate s => ct_columns s ≠ []
  | SInsert s => in_rows s ≠ [] ∧ Forall (λ row, row ≠ []) (in_rows s)
  | SSelect s => se_order_by s = None → se_direction s = ascending
  | SUpdate s => up_assignments s ≠ []
  | SDelete _ => True
  end.

(** [gives m ts a P]: [m] reads exactly the tokens [ts] and gives [a], when a token with [P]
    follows. *)
Definition gives {A} (m : parser A) (ts : list token) (a : A) (P : token_kind → Prop) : Prop :=
  ∀ before t l, P (t_kind t) → m (stream before (ts ++ t :: l)) = (Ok a, stream (before ++ ts) (t :: l)).
Definition anything (k : token_kind) : Prop := True.
(** The kind of the first token of [ts], or of what follows. *)
Definition front (ts : list token) (k : token_kind) : token_kind := match ts with t :: _ => t_kind t | [] => k end.
Section gives.
Context {A B : Type}.
Lemma gives_seq (m : parser A) (f : A → parser B) ts1 ts2 a b P1 P2 :
  gives m ts1 a P1 → gives (f a) ts2 b P2 → (∀ k, P2 k → P1 (front ts2 k)) → gives (m ≫= f) (ts1 ++ ts2) b P2.
Proof.
  intros Hm Hf Hfront before t l Ht. rewrite <- app_assoc.
  assert (∃ t' l', ts2 ++ t :: l = t' :: l' ∧ P1 (t_kind t')) as (t' & l' & E & Ht').
  { specialize (Hfront _ Ht). destruct ts2 as [|t' ts2]; [by exists t, l|by exists t', (ts2 ++ t :: l)]. }
  rewrite E. m_run (Hm before t' l' Ht'). rewrite <- E, (Hf _ t l Ht). by rewrite <- app_assoc.
Qed.
Lemma gives_done (a : A) P : gives (mret a) [] a P.
Proof. intros before t l _. by rewrite app_nil_r. Qed.
Lemma gives_weaken (m : parser A) ts a (P Q : token_kind → Prop) : gives m ts a P → (∀ k, Q k → P k) → gives m ts a Q.
Proof. intros Hm HQ before t l Ht. by apply Hm, HQ. Qed.
End gives.
Lemma gives_expect k what t : t_kind t = k → gives (expect k what) [t] t anything.
Proof. intros Hk before t' l _. by apply run_expect_yes. Qed.
Lemma gives_match_yes k t : t_kind t = k → gives (match_ k) [t] true anything.
Proof. intros Hk before t' l _. by apply run_match_yes. Qed.
Lemma gives_match_no k : gives (match_ k) [] false (λ j, j ≠ k).
Proof. intros before t l Ht. rewrite app_nil_r. by apply run_match_no. Qed.
Lemma gives_name what s : gives (identifier_text what) [name_token s] s anything.
Proof. intros before t l _. apply run_identifier. Qed.
Lemma gives_literal v : gives parse_literal [literal_token v] v anything.
Proof. intros before t l _. apply run_literal. Qed.
Lemma gives_type t : gives parse_column_type [type_token t] t anything.
Proof.
  intros before t' l _. unfold parse_column_type. m_run (run_advance _ _ (stream_peek before (type_token t) (t' :: l))).
  rewrite stream_step. by destruct t.
Qed.
Lemma gives_expression fuel e :
  (weight e + 5 ≤ fuel)%nat → gives (parse_expression fuel) (expression_tokens at_or e) e (λ k, k ≠ kw_and ∧ k ≠ kw_or).
Proof.
  intros Hf before t l [Ha Ho]. destruct (reads_any e) as (_ & _ & Hor).
  destruct (Hor 1%nat fuel before t l ltac:(lia) Ha) as (f & Hf' & ->). by apply or_loop_stops.
Qed.

(** One step of a parser that is a sequence: [then_ L], where [L] reads its first tokens. *)
Ltac then_ L := eapply (gives_seq _ _ [_]); [eapply L; reflexivity|simpl|done].
Lemma gives_comma_loop {A} (item : parser A) (toks : A → list token) fuel (l acc : list A) :
  (∀ x, x ∈ l → gives item (toks x) x anything) → (length l < fuel)%nat →
  gives (comma_loop fuel item acc) (l ≫= λ x, plain tk_comma :: toks x) (acc ++ l) (λ k, k ≠ tk_comma).
Proof.
  revert acc fuel. induction l as [|x l IH]; intros acc fuel Hitem Hf; (destruct fuel as [|fuel]; [simpl in Hf; lia|]); simpl.
  - rewrite app_nil_r. eapply (gives_seq _ _ [] [] false); [apply gives_match_no|apply gives_done|done].
  - apply (gives_seq _ _ [plain tk_comma] _ true _ anything); [by apply gives_match_yes| |done]. simpl.
    eapply gives_seq; [apply Hitem; by left| |done].
    replace (acc ++ x :: l) with ((acc ++ [x]) ++ l) by by rewrite <- app_assoc.
    apply IH; [intros y Hy; apply Hitem; by right|simpl in Hf; lia].
Qed.
Lemma gives_commas {A} (item : parser A) (toks : A → list token) fuel l :
  (∀ x, x ∈ l → gives item (toks x) x anything) → l ≠ [] → (length l ≤ fuel)%nat →
  gives (comma_list fuel item) (commas (toks <$> l)) l (λ k, k ≠ tk_comma).
Proof.
  intros Hitem Hne Hf. destruct l as [|x l]; [done|].
  assert (commas (toks <$> x :: l) = toks x ++ (l ≫= λ y, plain tk_comma :: toks y)) as ->.
  { clear. revert x. induction l as [|y l IH]; intros x; [by rewrite app_nil_r|].
    change (commas (toks <$> x :: y :: l)) with (toks x ++ plain tk_comma :: commas (toks <$> y :: l)). by rewrite IH. }
  unfold comma_list. eapply gives_seq; [apply Hitem; by left| |done].
  apply (gives_comma_loop item toks fuel l [x]); [intros y Hy; apply Hitem; by right|simpl in Hf; lia].
Qed.

Lemma gives_column c : gives parse_column_definition (column_tokens c) c anything.
Proof.
  unfold parse_column_definition, column_tokens. then_ gives_name. then_ gives_type. destruct c. apply gives_done.
Qed.
Lemma gives_assignment a : gives parse_assignment (assignment_tokens a) a anything.
Proof.
  unfold parse_assignment, assignment_tokens. then_ gives_name. then_ gives_expect. then_ gives_literal.
  destruct a. apply gives_done.
Qed.
(** A list between parentheses. *)
Lemma gives_tuple {A B} (item : parser A) (toks : A → list token) fuel l (f : list A → parser B) b rest P :
  (∀ x, x ∈ l → gives item (toks x) x anything) → l ≠ [] → (length l ≤ fuel)%nat → gives (f l) rest b P →
  gives (values ← comma_list fuel item; _ ← expect rparen "')'"; f values)
    (commas (toks <$> l) ++ plain rparen :: rest) b P.
Proof.
  intros Hi Hne Hf Hk. eapply gives_seq; [by apply gives_commas| |done]. simpl. by then_ gives_expect.
Qed.
Lemma gives_values fuel row :
  row ≠ [] → (length row ≤ fuel)%nat → gives (parse_value_tuple fuel) (tuple_tokens row) row anything.
Proof.
  intros Hne Hf. unfold parse_value_tuple, tuple_tokens, in_parentheses. then_ gives_expect.
  apply gives_tuple; [intros v _; apply gives_literal|done|done|apply gives_done].
Qed.
(** What may follow a condition: none of the words that would continue it. *)
Definition ends_where (k : token_kind) : Prop := k ≠ kw_where ∧ k ≠ kw_and ∧ k ≠ kw_or.
Lemma gives_where fuel w :
  (∀ e, w = Some e → (weight e + 5 ≤ fuel)%nat) → gives (parse_where fuel) (where_tokens w) w ends_where.
Proof.
  intros Hw. unfold parse_where. destruct w as [e|]; simpl.
  - then_ gives_match_yes. rewrite <- (app_nil_r (expression_tokens at_or e)).
    eapply gives_seq; [by apply gives_expression, Hw|apply gives_done|]. intros k (_ & Ha & Ho). done.
  - eapply (gives_seq _ _ [] []); [apply gives_match_no|apply gives_done|]. intros k (H & _). done.
Qed.
Lemma gives_order o d :
  (o = None → d = ascending) → gives parse_order_by (order_tokens o d) (o, d) (λ k, k ≠ kw_order).
Proof.
  intros Hd. unfold parse_order_by. destruct o as [c|]; simpl.
  - then_ gives_match_yes. then_ gives_expect. then_ gives_name. destruct d.
    + eapply (gives_seq _ _ [] [keyword kw_asc]); [apply gives_match_no| |done]. simpl.
      then_ gives_match_yes. apply gives_done.
    + then_ gives_match_yes. apply gives_done.
  - rewrite (Hd eq_refl). eapply (gives_seq _ _ [] []); [apply gives_match_no|apply gives_done|done].
Qed.

(** What a statement may be followed by. *)
Definition ends_statement (k : token_kind) : Prop := k = tk_semicolon ∨ k = tk_end.
Lemma ends_where_statement k : ends_statement k → ends_where k.
Proof. intros [-> | ->]; done. Qed.
Lemma gives_create fuel s :
  ct_columns s ≠ [] → (length (ct_columns s) ≤ fuel)%nat →
  gives (s ← parse_create_table fuel; mret (SCreate s)) (statement_tokens (SCreate s)) (SCreate s) ends_statement.
Proof.
  intros Hne Hf. rewrite <- (app_nil_r (statement_tokens _)). eapply gives_seq; [|apply gives_done|by intros].
  unfold parse_create_table. simpl. unfold in_parentheses.
  then_ gives_expect. then_ gives_expect. then_ gives_name. then_ gives_expect.
  apply gives_tuple; [intros v _; apply gives_column|done|done|]. destruct s. apply gives_done.
Qed.
Lemma gives_insert fuel s :
  in_rows s ≠ [] → Forall (λ row, row ≠ [] ∧ (length row ≤ fuel)%nat) (in_rows s) →
  (length (in_columns s) ≤ fuel)%nat → (length (in_rows s) ≤ fuel)%nat →
  gives (s ← parse_insert fuel; mret (SInsert s)) (statement_tokens (SInsert s)) (SInsert s) ends_statement.
Proof.
  destruct s as [table columns rows]. simpl in_rows. simpl in_columns. intros Hne Hrows Hc Hr.
  rewrite <- (app_nil_r (statement_tokens _)). eapply gives_seq; [|apply gives_done|by intros].
  unfold parse_insert. simpl. then_ gives_expect. then_ gives_expect. then_ gives_name.
  assert (gives (_ ← expect kw_values "VALUES"; rows ← comma_list fuel (parse_value_tuple fuel); mret (Insert table columns rows))
    (keyword kw_values :: commas (tuple_tokens <$> rows)) (Insert table columns rows) ends_statement) as Hvalues.
  { then_ gives_expect. rewrite <- (app_nil_r (commas _)). eapply gives_seq; [apply gives_commas; [|done..]|apply gives_done|by intros k [-> | ->]]. intros row Hin. rewrite Forall_forall in Hrows.
    destruct (Hrows row Hin). by apply gives_values. }
  destruct columns as [|c columns]; simpl.
  - eapply (gives_seq _ _ [] _ false); [apply gives_match_no| |done]. simpl.
    eapply (gives_seq _ _ [] _ []); [apply (gives_done [] anything)|exact Hvalues|done].
  - then_ gives_match_yes. change (names_tokens (c :: columns)) with (commas ((λ c, [name_token c]) <$> c :: columns)).
    eapply (gives_seq _ _ _ _ _ _ anything); [|exact Hvalues|done].
    apply gives_tuple; [intros v _; apply gives_name|done|done|apply gives_done].
Qed.
Lemma gives_select fuel s :
  (se_order_by s = None → se_direction s = ascending) → (length (se_columns s) ≤ fuel)%nat →
  (∀ e, se_where s = Some e → (weight e + 5 ≤ fuel)%nat) →
  gives (s ← parse_select fuel; mret (SSelect s)) (statement_tokens (SSelect s)) (SSelect s) ends_statement.
Proof.
  destruct s as [table columns w o d limit]. cbn [se_columns se_where se_order_by se_direction]. intros Hd Hc Hw.
  rewrite <- (app_nil_r (statement_tokens _)). eapply gives_seq; [|apply gives_done|by intros].
  unfold parse_select. simpl. then_ gives_expect.
  assert (gives
    (_ ← expect kw_from "FROM"; table' ← identifier_text "a table name"; where_ ← parse_where fuel;
     order ← parse_order_by; limited ← match_ kw_limit;
     limit ← (if (limited : bool) then t ← expect integer_literal "an integer"; mret (Some (t_integer t)) else mret None);
     mret (Select table' columns where_ order.1 order.2 limit))
    (keyword kw_from :: name_token table :: where_tokens w ++ order_tokens o d ++ limit_tokens limit)
    (Select table columns w o d limit) ends_statement) as Hrest.
  { then_ gives_expect. then_ gives_name.
    eapply gives_seq; [by apply gives_where| |by destruct o, limit; intros k [-> | ->]].
    eapply gives_seq; [by apply gives_order| |by destruct limit; intros k [-> | ->]]. simpl.
    destruct limit as [n|]; simpl.
    - then_ gives_match_yes. eapply (gives_seq _ _ [_] [] (Some n) _ anything); [|apply gives_done|done].
      then_ gives_expect. apply (gives_done _ anything).
    - eapply (gives_seq _ _ [] [] false); [apply gives_match_no| |by intros k [-> | ->]]. simpl.
      eapply (gives_seq _ _ [] []); [apply (gives_done None anything)|apply gives_done|done]. }
  destruct columns as [|c columns]; simpl.
  - then_ gives_match_yes. eapply (gives_seq _ _ [] _ []); [apply (gives_done [] anything)|exact Hrest|done].
  - eapply (gives_seq _ _ [] _ false); [apply gives_match_no| |by destruct columns]. simpl.
    change (names_tokens (c :: columns)) with (commas ((λ c, [name_token c]) <$> c :: columns)).
    eapply gives_seq; [|exact Hrest|].
    + apply gives_commas; [intros v _; apply gives_name|done|done].
    + done.
Qed.
Lemma gives_update fuel s :
  up_assignments s ≠ [] → (length (up_assignments s) ≤ fuel)%nat →
  (∀ e, up_where s = Some e → (weight e + 5 ≤ fuel)%nat) →
  gives (s ← parse_update fuel; mret (SUpdate s)) (statement_tokens (SUpdate s)) (SUpdate s) ends_statement.
Proof.
  destruct s as [table l w]. cbn [up_assignments up_where]. intros Hne Hl Hw.
  rewrite <- (app_nil_r (statement_tokens _)). eapply gives_seq; [|apply gives_done|by intros].
  unfold parse_update. simpl. then_ gives_expect. then_ gives_name. then_ gives_expect.
  eapply gives_seq; [apply gives_commas; [intros a _; apply gives_assignment|done|done]| |].
  - rewrite <- (app_nil_r (where_tokens w)).
    eapply gives_seq; [by apply gives_where|apply gives_done|apply ends_where_statement].
  - by destruct w; intros k [-> | ->].
Qed.
Lemma gives_delete fuel s :
  (∀ e, de_where s = Some e → (weight e + 5 ≤ fuel)%nat) →
  gives (s ← parse_delete fuel; mret (SDelete s)) (statement_tokens (SDelete s)) (SDelete s) ends_statement.
Proof.
  destruct s as [table w]. cbn [de_where]. intros Hw.
  rewrite <- (app_nil_r (statement_tokens _)). eapply gives_seq; [|apply gives_done|by intros].
  unfold parse_delete. simpl. then_ gives_expect. then_ gives_expect. then_ gives_name.
  rewrite <- (app_nil_r (where_tokens w)).
  eapply gives_seq; [by apply gives_where|apply gives_done|apply ends_where_statement].
Qed.

(** The fuel that [parse_statement] gives is enough for what the text holds. *)
Lemma commas_bounds {A} (toks : A → list token) l :
  (∀ x, (1 ≤ length (toks x))%nat) →
  (length l ≤ length (commas (toks <$> l)))%nat ∧
  (∀ x, x ∈ l → (length (toks x) ≤ length (commas (toks <$> l)))%nat).
Proof.
  intros Ht. induction l as [|x l [IHl IHx]]; [split; [done|by intros x ?%elem_of_nil]|].
  assert (length (toks x) + length (commas (toks <$> l)) ≤ length (commas (toks <$> x :: l)) ∧
    (length l ≤ length (commas (toks <$> x :: l)) - 1))%nat as [Hc Hn].
  { pose proof (Ht x). destruct l as [|y l]; [simpl; lia|].
    change (commas (toks <$> x :: y :: l)) with (toks x ++ plain tk_comma :: commas (toks <$> y :: l)).
    rewrite length_app. cbn [length] in *. lia. }
  pose proof (Ht x). split; [cbn [length]; lia|]. intros y [->|Hy]%elem_of_cons; [lia|]. specialize (IHx y Hy). lia.
Qed.
Lemma where_bounds w e : w = Some e → (weight e + 5 ≤ 3 * length (where_tokens w))%nat.
Proof. intros ->. pose proof (weight_tokens at_or e). simpl. lia. Qed.
Lemma tuple_length row : (length row ≤ length (tuple_tokens row))%nat.
Proof.
  pose proof (proj1 (commas_bounds (λ v, [literal_token v]) row ltac:(done))).
  unfold tuple_tokens, in_parentheses. simpl. rewrite length_app. lia.
Qed.
Lemma gives_statement fuel s :
  printable s → (3 * length (statement_tokens s) ≤ fuel)%nat →
  gives (parse_any fuel) (statement_tokens s) s ends_statement.
Proof.
  intros Hp Hf before t l Ht. unfold parse_any. destruct s as [s|s|s|s|s].
  - m_run (run_peek _ _ (stream_peek before (keyword kw_create) (tail (statement_tokens (SCreate s)) ++ t :: l))).
    apply gives_create; [done| |done]. pose proof (proj1 (commas_bounds column_tokens (ct_columns s) ltac:(simpl; lia))).
    revert Hf. simpl. rewrite length_app. lia.
  - m_run (run_peek _ _ (stream_peek before (keyword kw_insert) (tail (statement_tokens (SInsert s)) ++ t :: l))).
    destruct Hp as [Hne Hrows].
    destruct (commas_bounds tuple_tokens (in_rows s) ltac:(simpl; lia)) as [Hl Hx].
    pose proof (proj1 (commas_bounds (λ c, [name_token c]) (in_columns s) ltac:(done))) as Hc.
    assert (length (in_columns s) ≤ fuel ∧ length (commas (tuple_tokens <$> in_rows s)) ≤ fuel)%nat as [Hc' Hr].
    { revert Hf. destruct s as [? [|c columns] rows]; cbn [statement_tokens in_columns in_rows];
        unfold in_parentheses, names_tokens in *; cbn [length app]; rewrite ?length_app; cbn [length]; rewrite ?length_app;
        cbn [in_columns in_rows] in *; cbn [length] in *; lia. }
    apply gives_insert; [done| |lia|lia|done]. apply Forall_forall. intros row Hin. rewrite Forall_forall in Hrows.
    split; [by apply Hrows|]. pose proof (tuple_length row). specialize (Hx row Hin). lia.
  - m_run (run_peek _ _ (stream_peek before (keyword kw_select) (tail (statement_tokens (SSelect s)) ++ t :: l))).
    pose proof (proj1 (commas_bounds (λ c, [name_token c]) (se_columns s) ltac:(done))) as Hc.
    assert (length (se_columns s) ≤ fuel ∧ 3 * length (where_tokens (se_where s)) ≤ fuel)%nat as [Hc' Hw].
    { revert Hf. destruct s as [? [|c columns] w o d n]; cbn [statement_tokens se_columns se_where se_order_by se_direction se_limit];
        unfold names_tokens in *; cbn [length app]; rewrite ?length_app; cbn [length]; rewrite ?length_app;
        cbn [se_columns] in *; cbn [length] in *; lia. }
    apply gives_select; [done|done| |done]. intros e He. pose proof (where_bounds _ e He). lia.
  - m_run (run_peek _ _ (stream_peek before (keyword kw_update) (tail (statement_tokens (SUpdate s)) ++ t :: l))).
    pose proof (proj1 (commas_bounds assignment_tokens (up_assignments s) ltac:(simpl; lia))).
    simpl in Hf. rewrite length_app in Hf. apply gives_update; [done|lia| |done].
    intros e He. pose proof (where_bounds _ e He). lia.
  - m_run (run_peek _ _ (stream_peek before (keyword kw_delete) (tail (statement_tokens (SDelete s)) ++ t :: l))).
    simpl in Hf. apply gives_delete; [|done]. intros e He. pose proof (where_bounds _ e He). lia.
Qed.

(** ** Texts *)
Definition token_chars (t : token) : list ascii :=
  match t_kind t with
  | string_literal => quoted (t_text t)
  | identifier | integer_literal => chars_of (t_text t)
  | k => chars_of (spelling k)
  end.
(** Tokens as a text, each followed by a space. *)
Definition render (ts : list token) : list ascii := ts ≫= λ t, token_chars t ++ [" "%char].
Definition statement_text (s : statement) : string := text_of (render (statement_tokens s)).

(** What the scanner takes for a name. *)
Definition is_name (s : string) : bool :=
  match chars_of s with
  | c :: l => (is_alpha c || char_is c "_") && forallb word_char l && bool_decide (keyword_table !! to_upper (c :: l) = None)
  | [] => false
  end.
Definition is_keyword (k : token_kind) : bool := bool_decide (keyword_table !! spelling k = Some k).
Definition is_symbol (k : token_kind) : bool :=
  bool_decide (k ∈ [tk_comma; tk_dot; tk_star; lparen; rparen; op_eq; op_neq; op_lt; op_lte; op_gt; op_gte]).
(** Tokens that the scanner makes of their own spelling. *)
Inductive written : token → Prop :=
| written_name s : is_name s = true → written (name_token s)
| written_keyword k : is_keyword k = true → written (keyword k)
| written_symbol k : is_symbol k = true → written (plain k)
| written_integer z : 0 ≤ z < 2 ^ 63 → written (literal_token (LInteger z))
| written_text s : written (literal_token (LText s)).

Lemma alpha_first c : is_alpha c || char_is c "_" = true → is_space c = false ∧ char_is c "-" = false ∧ word_char c = true.
Proof.
  intros H. split_and!.
  - apply orb_prop in H as [H|H].
    + unfold is_alpha, between, is_space in *.
      change (code "a") with 97 in H. change (code "z") with 122 in H.
      change (code "A") with 65 in H. change (code "Z") with 90 in H.
      destruct (Z.eqb_spec (code c) 32), (Z.leb_spec 9 (code c)), (Z.leb_spec (code c) 13); simpl; try done; lia.
    + unfold char_is in H. by apply bool_decide_eq_true in H as ->.
  - unfold char_is at 1. apply bool_decide_eq_false. intros ->. done.
  - unfold word_char, is_alnum. apply orb_prop in H as [-> | ->]; [done|apply orb_true_r].
Qed.
Lemma digit_first c : is_digit c = true →
  is_space c = false ∧ char_is c "-" = false ∧ is_alpha c || char_is c "_" = false.
Proof.
  intros H. unfold is_digit, between in H. change (code "0") with 48 in H. change (code "9") with 57 in H.
  assert (48 ≤ code c ≤ 57) as Hc by lia. split_and!.
  - unfold is_space. lia.
  - unfold char_is. apply bool_decide_eq_false. intros ->. by destruct Hc.
  - apply orb_false_iff. split.
    + unfold is_alpha, between. change (code "a") with 97. change (code "z") with 122.
      change (code "A") with 65. change (code "Z") with 90. lia.
    + unfold char_is. apply bool_decide_eq_false. intros ->. by destruct Hc.
Qed.

(** [scans t]: the scanner, at the spelling of [t] and a space, makes [t] of it. *)
Definition scans (t : token) : Prop := ∀ rest, ∃ c l,
  token_chars t = c :: l ∧ lex_step c (l ++ " "%char :: rest) = Ok (Some t, " "%char :: rest).
Lemma scans_name s : is_name s = true → scans (name_token s).
Proof.
  unfold is_name. destruct (chars_of s) as [|c l] eqn:Es; [done|]. rewrite !andb_true_iff, bool_decide_eq_true.
  intros [[Hc Hl] Hk] rest. exists c, l. split; [done|]. destruct (alpha_first c Hc) as (E1 & E2 & E3).
  unfold lex_step. rewrite E1, E2, Hc. cbn [andb].
  change (c :: l ++ " "%char :: rest) with ((c :: l) ++ " "%char :: rest).
  rewrite span_all; [|constructor; [done|]|done].
  - unfold word_token, name_token. rewrite Hk, <- Es, text_of_chars_of. done.
  - apply Forall_forall. intros d Hd. rewrite forallb_forall in Hl. apply Hl. by apply list_elem_of_In.
Qed.
Lemma scans_keyword k : is_keyword k = true → scans (keyword k).
Proof. intros Hk rest. destruct k; try (by vm_compute in Hk); do 2 eexists; (split; [reflexivity|vm_compute; reflexivity]). Qed.
Lemma scans_symbol k : is_symbol k = true → scans (plain k).
Proof. intros Hk rest. destruct k; try (by vm_compute in Hk); do 2 eexists; (split; [reflexivity|vm_compute; reflexivity]). Qed.
Lemma scans_integer z : 0 ≤ z < 2 ^ 63 → scans (literal_token (LInteger z)).
Proof.
  intros Hz rest. destruct (pretty_integer z) as (l & El & Hd & Hv & Hs).
  destruct (Z.ltb_spec z 0); [lia|]. rewrite app_nil_l in El. rewrite Z.abs_eq in Hv by lia.
  assert (∃ c l', l = c :: l') as (c & l' & ->) by (destruct Hs as [->|Hs]; [eauto|destruct l; [done|eauto]]).
  exists c, l'. split; [done|]. pose proof (Forall_inv Hd) as Hc. destruct (digit_first c Hc) as (E1 & E2 & E3).
  unfold lex_step. rewrite E1, E2, E3, Hc. cbn [andb]. unfold number_parts.
  change (c :: l' ++ " "%char :: rest) with ((c :: l') ++ " "%char :: rest).
  rewrite span_all by done.
  replace (match " "%char :: rest with
    | c0 :: (d :: _) as rest' => if char_is c0 "." && is_digit d
        then let '(fraction, rest0) := span is_digit rest' in (c :: l', Some fraction, rest0)
        else (c :: l', None, " "%char :: rest)
    | _ => (c :: l', None, " "%char :: rest) end) with (c :: l', @None (list ascii), " "%char :: rest)
    by (by destruct rest).
  unfold number_token. rewrite Hv. destruct (Z.ltb_spec z (2 ^ 63)); [|lia]. simpl.
  change (String c (text_of l')) with (text_of (c :: l')). by rewrite <- El, text_of_chars_of.
Qed.
Lemma scans_text s : scans (literal_token (LText s)).
Proof.
  intros rest. exists "'"%char, (double_quotes (chars_of s) ++ ["'"%char]). split; [done|].
  rewrite <- app_assoc. cbn [app].
  assert (∀ r, lex_step "'" r = (body ← string_body r []; Ok (Some (Token string_literal (text_of body.1) 0 0), body.2))) as -> by done.
  rewrite (string_body_quotes (chars_of s) (" "%char :: rest) []) by done.
  unfold mbind, result_bind. cbn [fst snd app]. by rewrite text_of_chars_of.
Qed.
Lemma written_scans t : written t → scans t.
Proof.
  destruct 1; [by apply scans_name|by apply scans_keyword|by apply scans_symbol|by apply scans_integer|apply scans_text].
Qed.
Lemma lex_render ts fuel acc :
  Forall written ts → (2 * length ts ≤ fuel)%nat → lex fuel (render ts) acc = Ok (acc ++ ts ++ [plain tk_end]).
Proof.
  intros Hts. revert fuel acc. induction Hts as [|t ts Ht _ IH]; intros fuel acc Hf; [by destruct fuel|].
  destruct (written_scans t Ht (render ts)) as (c & l & Et & E).
  change (render (t :: ts)) with ((token_chars t ++ [" "%char]) ++ render ts). rewrite Et, <- app_assoc.
  simpl in Hf. destruct fuel as [|[|fuel]]; [lia|lia|]. cbn [app lex]. rewrite E. cbn [mbind result_bind fst snd lex].
  change (lex_step " " (render ts)) with (Ok (@None token, render ts)). cbn [mbind result_bind fst snd].
  rewrite IH by lia. by rewrite app_nil_r, <- app_assoc.
Qed.
Lemma tokenize_render ts : Forall written ts → tokenize (text_of (render ts)) = Ok (ts ++ [plain tk_end]).
Proof.
  intros Hts. unfold tokenize. rewrite length_text_of, chars_of_text_of. rewrite (lex_render ts _ []); [done|done|].
  induction Hts as [|t ts Ht _ IH]; [simpl; lia|].
  destruct (written_scans t Ht []) as (c & l & Et & _).
  change (render (t :: ts)) with ((token_chars t ++ [" "%char]) ++ render ts). rewrite Et, !length_app. simpl in *. lia.
Qed.

(** ** Statements a client can write *)
(** Reals have no spelling that reads back as the same number, and no literal has a sign. *)
Definition literal_ok (v : literal) : bool :=
  match v with
  | LInteger z => (0 <=? z) && (z <? 2 ^ 63)
  | LReal _ => false
  | _ => true
  end.
Fixpoint expression_ok (e : expression) : bool :=
  match e with
  | Comparison column _ v => is_name column && literal_ok v
  | Logical _ l r => expression_ok l && expression_ok r
  | Negation e => expression_ok e
  end.
Definition where_ok (w : option expression) : bool := match w with Some e => expression_ok e | None => true end.
Definition limit_ok (l : option Z) : bool := match l with Some n => literal_ok (LInteger n) | None => true end.
Definition not_empty {A} (l : list A) : bool := match l with [] => false | _ => true end.
Definition statement_ok (s : statement) : bool :=
  match s with
  | SCreate s => is_name (ct_table s) && not_empty (ct_columns s) && forallb (λ c, is_name (cd_name c)) (ct_columns s)
  | SInsert s => is_name (in_table s) && forallb is_name (in_columns s) &&
      not_empty (in_rows s) && forallb (λ row, not_empty row && forallb literal_ok row) (in_rows s)
  | SSelect s => is_name (se_table s) && forallb is_name (se_columns s) && where_ok (se_where s) &&
      match se_order_by s with
      | Some c => is_name c
      | None => match se_direction s with ascending => true | descending => false end
      end && limit_ok (se_limit s)
  | SUpdate s => is_name (up_table s) && not_empty (up_assignments s) &&
      forallb (λ a, is_name a.1 && literal_ok a.2) (up_assignments s) && where_ok (up_where s)
  | SDelete s => is_name (de_table s) && where_ok (de_where s)
  end.

Lemma not_empty_ok {A} (l : list A) : not_empty l = true → l ≠ [].
Proof. by destruct l. Qed.
Lemma statement_ok_printable s : statement_ok s = true → printable s.
Proof.
  destruct s as [s|s|s|s|s]; simpl; rewrite ?andb_true_iff; [| | | |done].
  - intros [[_ H] _]. by apply not_empty_ok.
  - intros [[_ H] Hr]. split; [by apply not_empty_ok|]. apply Forall_forall. intros row Hin.
    rewrite forallb_forall in Hr. specialize (Hr row (proj1 (list_elem_of_In _ _) Hin)).
    apply andb_prop in Hr as [Hr _]. by apply not_empty_ok.
  - intros [[_ H] _] E. rewrite E in H. by destruct (se_direction s).
  - intros [[[_ H] _] _]. by apply not_empty_ok.
Qed.

Create HintDb writing.
#[local] Hint Constructors written : writing.
Lemma writes_keyword k l : is_keyword k = true → Forall written l → Forall written (keyword k :: l).
Proof. intros. constructor; [by constructor|done]. Qed.
Lemma writes_symbol k l : is_symbol k = true → Forall written l → Forall written (plain k :: l).
Proof. intros. constructor; [by constructor|done]. Qed.
Lemma writes_name s l : is_name s = true → Forall written l → Forall written (name_token s :: l).
Proof. intros. constructor; [by constructor|done]. Qed.
Lemma literal_written v : literal_ok v = true → written (literal_token v).
Proof.
  destruct v as [|[]|z|d|s]; intros H; try (by constructor); [|done].
  apply written_integer. simpl in H. lia.
Qed.
Lemma writes_literal v l : literal_ok v = true → Forall written l → Forall written (literal_token v :: l).
Proof. intros. constructor; [by apply literal_written|done]. Qed.
Lemma writes_app l1 l2 : Forall written l1 → Forall written l2 → Forall written (l1 ++ l2).
Proof. intros. by apply Forall_app. Qed.
Lemma writes_nil : Forall written [].
Proof. constructor. Qed.
#[local] Hint Resolve writes_keyword writes_symbol writes_name writes_literal writes_app writes_nil : writing.
Lemma writes_parentheses l : Forall written l → Forall written (in_parentheses l).
Proof. intros. unfold in_parentheses. eauto with writing. Qed.
Lemma writes_commas {A} (toks : A → list token) (ok : A → bool) l :
  (∀ x, ok x = true → Forall written (toks x)) → forallb ok l = true → Forall written (commas (toks <$> l)).
Proof.
  intros Ht. induction l as [|x l IH]; [constructor|]. cbn [forallb]. rewrite andb_true_iff. intros [Hx Hl].
  destruct l as [|y l]; [by apply Ht|].
  change (commas (toks <$> x :: y :: l)) with (toks x ++ plain tk_comma :: commas (toks <$> y :: l)). auto with writing.
Qed.
#[local] Hint Resolve writes_parentheses : writing.
Lemma writes_expression e lv : expression_ok e = true → Forall written (expression_tokens lv e).
Proof.
  revert lv. induction e as [column op v|[] l IHl r IHr|e IH]; intros lv; simpl; rewrite ?andb_true_iff.
  - intros [Hc Hv]. apply writes_name; [done|]. destruct op; apply writes_symbol; auto 12 with writing.
  - intros [Hl Hr]. destruct lv; auto 12 with writing.
  - intros [Hl Hr]. destruct lv; auto 12 with writing.
  - auto 12 with writing.
Qed.
Lemma writes_where w : where_ok w = true → Forall written (where_tokens w).
Proof. destruct w; simpl; [|constructor]. intros. apply writes_keyword; [done|by apply writes_expression]. Qed.
#[local] Hint Resolve writes_where : writing.
Lemma writes_column c : is_name (cd_name c) = true → Forall written (column_tokens c).
Proof. intros. unfold column_tokens, type_token. destruct (cd_type c); auto 12 with writing. Qed.
Lemma writes_tuple row : not_empty row && forallb literal_ok row = true → Forall written (tuple_tokens row).
Proof.
  rewrite andb_true_iff. intros [_ H]. apply writes_parentheses, (writes_commas _ literal_ok); [|done]. auto 12 with writing.
Qed.
Lemma writes_names l : forallb is_name l = true → Forall written (names_tokens l).
Proof. apply (writes_commas _ is_name). auto 12 with writing. Qed.
Lemma writes_assignment a : is_name a.1 && literal_ok a.2 = true → Forall written (assignment_tokens a).
Proof. rewrite andb_true_iff. intros [Hn Hv]. unfold assignment_tokens. auto 12 with writing. Qed.
Lemma statement_written s : statement_ok s = true → Forall written (statement_tokens s).
Proof.
  destruct s as [s|s|s|s|s]; simpl; rewrite ?andb_true_iff.
  - intros [[Hn _] Hc]. pose proof (writes_commas _ _ _ writes_column Hc). auto 12 with writing.
  - intros [[[Hn Hc] _] Hr]. pose proof (writes_commas _ _ _ writes_tuple Hr).
    pose proof (writes_names _ Hc). destruct (in_columns s); auto 12 with writing.
  - intros [[[[Hn Hc] Hw] Ho] Hl]. pose proof (writes_names _ Hc).
    assert (Forall written (order_tokens (se_order_by s) (se_direction s))).
    { destruct (se_order_by s), (se_direction s); simpl; auto 12 with writing. }
    assert (Forall written (limit_tokens (se_limit s))).
    { destruct (se_limit s) as [n|]; [|constructor]. apply writes_keyword; [done|]. by apply writes_literal. }
    destruct (se_columns s); auto 12 with writing.
  - intros [[[Hn _] Ha] Hw]. pose proof (writes_commas _ _ _ writes_assignment Ha). auto 12 with writing.
  - intros [Hn Hw]. auto 12 with writing.
Qed.

(** The whole parser, at the tokens of a statement. *)
Lemma whole_reads s :
  printable s → let ts := statement_tokens s ++ [plain tk_end] in
  run (parse_whole (parse_fuel ts)) (TokenStream ts 0) = Ok s.
Proof.
  intros Hp ts. unfold run, parse_whole.
  assert (∃ k l, ts = keyword k :: l ∧ k ≠ tk_end) as (k & l & E & Hk) by (subst ts; destruct s; by do 2 eexists).
  m_run (run_check tk_end (stream [] ts) (keyword k) ltac:(by rewrite E)). rewrite bool_decide_false by done.
  change (TokenStream ts 0) with (stream [] (statement_tokens s ++ plain tk_end :: [])).
  assert (gives (parse_any (parse_fuel ts)) (statement_tokens s) s ends_statement) as Hg.
  { apply gives_statement; [done|]. unfold parse_fuel, ts. rewrite length_app. lia. }
  m_run (Hg [] (plain tk_end) [] ltac:(by right)).
  m_run (run_match_no tk_semicolon (statement_tokens s) (plain tk_end) [] ltac:(done)).
  m_run (run_check tk_end _ _ (stream_peek (statement_tokens s) (plain tk_end) [])). done.
Qed.

(** ** Splitting: a statement ends at the semicolon after it *)
Lemma find_terminator_quotes l rest i :
  find_terminator (double_quotes l ++ rest) true i = find_terminator rest true (length (double_quotes l) + i).
Proof.
  revert i. induction l as [|c l IH]; intros i; simpl; [done|]. destruct (char_is c "'") eqn:E; simpl.
  - rewrite IH. f_equal. lia.
  - rewrite E, andb_false_r, IH. f_equal. lia.
Qed.
(** [passes l]: the splitter, outside a string, goes over [l] and is outside a string again. *)
Definition passes (l : list ascii) : Prop := ∀ rest i,
  find_terminator (l ++ rest) false i = find_terminator rest false (length l + i).
Lemma passes_app l1 l2 : passes l1 → passes l2 → passes (l1 ++ l2).
Proof. intros H1 H2 rest i. rewrite <- app_assoc, H1, H2, length_app. f_equal. lia. Qed.
Lemma passes_plain l : forallb (λ c, negb (char_is c "'" || char_is c ";")) l = true → passes l.
Proof.
  induction l as [|c l IH]; [done|]. simpl. rewrite andb_true_iff, negb_orb, andb_true_iff, !negb_true_iff.
  intros [[Hq Hs] Hl] rest i. simpl. rewrite Hq, Hs. simpl. rewrite (IH Hl). f_equal. lia.
Qed.
Lemma passes_quoted s : passes (quoted s).
Proof.
  intros rest i. unfold quoted. simpl. rewrite <- app_assoc, find_terminator_quotes. simpl. f_equal.
  rewrite length_app. simpl. lia.
Qed.
Lemma passes_word l : forallb word_char l = true → passes l.
Proof.
  intros H. apply passes_plain. rewrite forallb_forall in *. intros c Hc. specialize (H c Hc).
  unfold char_is. destruct (bool_decide_reflect (c = "'"%char)) as [->|_]; [done|].
  by destruct (bool_decide_reflect (c = ";"%char)) as [->|_].
Qed.
Lemma written_passes t : written t → passes (token_chars t).
Proof.
  destruct 1 as [s Hs|k Hk|k Hk|z Hz|s].
  - apply passes_word. unfold token_chars, is_name in *. simpl. destruct (chars_of s) as [|c l]; [done|].
    rewrite !andb_true_iff in Hs. destruct Hs as [[Hc Hl] _]. simpl. by rewrite (proj2 (proj2 (alpha_first c Hc))).
  - apply passes_plain. destruct k; try (by vm_compute in Hk); reflexivity.
  - apply passes_plain. destruct k; try (by vm_compute in Hk); reflexivity.
  - apply passes_word. unfold token_chars. simpl. destruct (pretty_integer z) as (l & -> & Hd & _).
    destruct (Z.ltb_spec z 0); [lia|]. rewrite forallb_forall. intros c Hc.
    apply list_elem_of_In in Hc. unfold is_digits in Hd. rewrite Forall_forall in Hd. unfold word_char, is_alnum.
    by rewrite (Hd c Hc), orb_true_r.
  - apply passes_quoted.
Qed.
Lemma render_passes ts : Forall written ts → passes (render ts).
Proof.
  induction 1 as [|t ts Ht _ IH]; [by intros rest i|].
  apply passes_app; [|done]. apply passes_app; [by apply written_passes|]. by apply passes_plain.
Qed.
Lemma splits_after l rest :
  passes l → extract_statement (text_of (l ++ ";"%char :: rest)) = Some (text_of l, S (length l)).
Proof.
  intros Hl. unfold extract_statement. rewrite chars_of_text_of, Hl. simpl.
  rewrite Nat.add_0_r. do 2 f_equal. apply substring_text_of.
Qed.
