(* ===== verification/Codec.v ===== *)
(** * Codecs: [codec<T>] for every persistable type ([codec_*.hpp], [detail/persistable.hpp]).

    The primary template is the class [codec]; a specialisation is an instance.  [codec_laws]
    is what a codec promises to the types built on it: decoding inverts encoding whatever
    follows in the buffer, an encoding is never empty, and decoding arbitrary bytes either
    succeeds or throws [corruption_error], never reading past the span.  What a decoder asks of
    memory is an argument of those that reserve it. *)
From S2P Require Import Prelude.
From S2P Require Import Binary.
From S2P Require Import OrderedMap.
From S2P Require Import Value.

#[local] Set Warnings "-register-all".

Definition is_corruption (e : error) : Prop := ∃ what, e = corruption_error what.

(** A read from [r] is safe: it leaves at most [r] to read, or throws [corruption_error]. *)
Definition safe_at {A} (m : M reader A) (r : reader) : Prop :=
  match m r with
  | (Ok _, r') => size r' ≤ size r
  | (Throw e, _) => is_corruption e
  end.

Class codec (T : Type) := {
  type_name : string;
  encode : T → writer;
  decode : M reader T
}.
#[global] Hint Mode codec ! : typeclass_instances.
Class codec_laws (T : Type) `{codec T} := {
  codec_wf : T → Prop;
  decode_encode (x : T) rest : codec_wf x → decode (encode x ++ rest) = (Ok x, rest);
  encode_nonempty (x : T) : 1 ≤ size (encode x);
  decode_safe r : safe_at (decode : M reader T) r
}.

(** ** Combinators for safety *)
Section safety.
Context {A B : Type}.
Lemma safe_ret (a : A) r : safe_at (mret a) r.
Proof. unfold safe_at, mret, M_ret. done. Qed.
Lemma safe_throw w r : safe_at (A:=A) (throw (corruption_error w)) r.
Proof. unfold safe_at, throw. by eexists. Qed.
Lemma safe_bind (m : M reader A) (f : A → M reader B) r :
  safe_at m r → (∀ a r', m r = (Ok a, r') → safe_at (f a) r') → safe_at (m ≫= f) r.
Proof.
  unfold safe_at, mbind, M_bind. destruct (m r) as [[a|e] r'] eqn:E; [|done].
  intros Hle Hf. specialize (Hf _ _ eq_refl). destruct (f a r') as [[b|e] r2]; [lia|done].
Qed.
Lemma safe_if (c : bool) (m1 m2 : M reader A) r :
  safe_at m1 r → safe_at m2 r → safe_at (if c then m1 else m2) r.
Proof. by destruct c. Qed.
End safety.

Lemma r_scalar_inv n r z r' : r_scalar n r = (Ok z, r') → size r = size r' + Z.of_nat n.
Proof. intros (Hn & _ & ->)%r_scalar_advanced. rewrite size_drop. unfold size. lia. Qed.
Lemma safe_scalar n r : safe_at (r_scalar n) r.
Proof.
  unfold safe_at. destruct (r_scalar n r) as [[z|e] r'] eqn:E.
  - apply r_scalar_inv in E. lia.
  - revert E. unfold r_scalar, mbind, M_bind, require, remaining.
    destruct (Z.gtb_spec (Z.of_nat n) (size r)).
    + intros [= <- <-]. by eexists.
    + by rewrite advance_ok by (unfold size in *; lia).
Qed.
Lemma safe_signed n r : safe_at (r_signed n) r.
Proof. apply safe_bind; [apply safe_scalar|]. intros. apply safe_ret. Qed.
Lemma safe_bytes n r : safe_at (r_bytes n) r.
Proof.
  unfold safe_at, r_bytes, mbind, M_bind, require, remaining.
  destruct (Z.gtb_spec n (size r)); [by eexists|]. rewrite advance_ok by (unfold size in *; lia).
  rewrite size_drop. pose proof (size_nonneg r). lia.
Qed.
Lemma safe_get r : safe_at get r.
Proof. unfold safe_at, get. done. Qed.
Lemma safe_string r : safe_at r_string r.
Proof.
  apply safe_bind; [apply safe_scalar|]. intros z r1 _. apply safe_bind; [apply safe_get|].
  intros r2 r3 _. apply safe_if; [apply safe_throw|].
  apply safe_bind; [apply safe_bytes|]. intros. apply safe_ret.
Qed.
Lemma safe_repeat {A} n (m : M reader A) r :
  (∀ r', size r' ≤ size r → safe_at m r') → safe_at (repeatM n m) r.
Proof.
  revert r. induction n as [|n IH]; intros r Hm; simpl; [apply safe_ret|].
  apply safe_bind; [by apply Hm|]. intros a r1 E1.
  specialize (Hm r ltac:(lia)) as H1. unfold safe_at in H1. rewrite E1 in H1.
  apply safe_bind; [apply IH; intros; apply Hm; lia|]. intros. apply safe_ret.
Qed.
#[export] Hint Resolve safe_ret safe_throw safe_scalar safe_signed safe_bytes safe_get safe_string : core.

(** ** Memory *)

(** [vector::reserve]: [limit] is how many elements there is memory for; [std::bad_alloc] beyond. *)
Definition reserve (limit count : Z) : M reader unit :=
  if count >? limit then throw bad_alloc else mret tt.
Definition no_reserve (count : Z) : M reader unit := mret tt.
(** More memory than any count can ask for. *)
Definition plenty : Z := u64_bound.
Lemma reserve_ok limit count r : count ≤ limit → reserve limit count r = (Ok tt, r).
Proof. intros. unfold reserve. by destruct (Z.gtb_spec count limit); [lia|]. Qed.

Lemma reserve_plenty count r : is_u64 count → reserve plenty count r = (Ok tt, r).
Proof. intros [_ Hc]. apply reserve_ok. unfold plenty. lia. Qed.

(** ** Element sequences *)
Section elements.
Context {A : Type} (enc : A → writer) (dec : M reader A).

(** The body shared by [codec<vector<T>>], [codec<map<K,V>>], [codec<array>] and
    [codec<object>]: a [uint64] count, checked against what is left, then the elements.  Vectors
    and arrays [prepare] room for the elements with [reserve], maps and objects do not. *)
Definition encode_elements (l : list A) : writer := scalar 8 (size l) ++ flat_map enc l.
Definition decode_elements (prepare : Z → M reader unit) (implausible : string) : M reader (list A) :=
  count ← r_scalar 8;
  rest ← get;
  if count >? remaining rest + 1 then throw (corruption_error implausible)
  else _ ← prepare count; repeatM (Z.to_nat count) dec.

Lemma size_flat_map_ge (l : list A) :
  (∀ x, 1 ≤ size (enc x)) → size l ≤ size (flat_map enc l).
Proof.
  intros Hne. induction l as [|x l IH]; simpl; autorewrite with size; [done|].
  specialize (Hne x). lia.
Qed.
Lemma repeat_decode (l : list A) rest :
  (∀ x rest, x ∈ l → dec (enc x ++ rest) = (Ok x, rest)) →
  repeatM (length l) dec (flat_map enc l ++ rest) = (Ok l, rest).
Proof.
  induction l as [|x l IH]; simpl; intros Hd; [done|].
  rewrite <- app_assoc. m_run (Hd x (flat_map enc l ++ rest) ltac:(by left)).
  m_run (IH ltac:(intros; apply Hd; by right)). done.
Qed.
Lemma decode_elements_encode prepare w (l : list A) rest :
  (∀ r, prepare (size l) r = (Ok tt, r)) → is_u64 (size l) → (∀ x, 1 ≤ size (enc x)) →
  (∀ x rest, x ∈ l → dec (enc x ++ rest) = (Ok x, rest)) →
  decode_elements prepare w (encode_elements l ++ rest) = (Ok l, rest).
Proof.
  intros Hr Hl Hne Hd. unfold decode_elements, encode_elements. rewrite <- app_assoc.
  m_run (r_scalar_u64 (size l) (flat_map enc l ++ rest) Hl).
  unfold get, mbind at 1, M_bind at 1, remaining.
  pose proof (size_flat_map_ge l Hne). pose proof (size_nonneg rest).
  destruct (Z.gtb_spec (size l) (size (flat_map enc l ++ rest) + 1)) as [Hgt|_].
  { autorewrite with size in Hgt. lia. }
  m_run (Hr (flat_map enc l ++ rest)). unfold size. rewrite Nat2Z.id. by apply repeat_decode.
Qed.
(** Whatever the count says, no more elements are reserved than there are bytes left. *)
Lemma safe_elements prepare w r :
  (∀ count r', is_u64 count → count ≤ size r → prepare count r' = (Ok tt, r')) →
  (∀ r', size r' ≤ size r → safe_at dec r') → safe_at (decode_elements prepare w) r.
Proof.
  intros Hp Hd. apply safe_bind; [done|]. intros z r1 E1. pose proof (r_scalar_is_u64 _ _ _ E1) as Hz.
  apply r_scalar_inv in E1. apply safe_bind; [done|]. intros r2 r3 [= <- <-]. unfold remaining.
  destruct (Z.gtb_spec z (size r1 + 1)); [done|].
  apply safe_bind; [unfold safe_at; by rewrite Hp by (done || lia)|].
  intros u r2. rewrite Hp by (done || lia). intros [= <- <-].
  apply safe_repeat. intros. apply Hd. lia.
Qed.
End elements.
Lemma size_encode_elements {A} (enc : A → writer) l : 8 ≤ size (encode_elements enc l).
Proof. unfold encode_elements. autorewrite with size. pose proof (size_nonneg (flat_map enc l)). lia. Qed.

(** ** codec_integral.hpp, codec_double.hpp, codec_std_string.hpp, codec_string.hpp *)
Definition int64_encode (value : Z) : writer := scalar 8 value.
Definition int64_decode : M reader Z := r_signed 8.
Definition double_encode (value : double) : writer := scalar 8 value.
Definition double_decode : M reader double := r_scalar 8.
Definition std_string_encode (value : string) : writer := w_string value.
Definition std_string_decode : M reader string := r_string.

#[export] Instance int64_codec : codec Z :=
  {| type_name := "integer"; encode := int64_encode; decode := int64_decode |}.
#[export] Program Instance int64_codec_laws : codec_laws Z := {| codec_wf := is_i64 |}.
Next Obligation. intros. by apply r_signed_i64. Qed.
Next Obligation. intros. change (1 ≤ size (scalar 8 x)). by autorewrite with size. Qed.
Next Obligation. intros. apply safe_signed. Qed.

#[export] Instance string_codec : codec string :=
  {| type_name := "opheap.string.v1"; encode := std_string_encode; decode := std_string_decode |}.
#[export] Program Instance string_codec_laws : codec_laws string :=
  {| codec_wf s := is_u64 (ssize s) |}.
Next Obligation. intros. by apply r_string_app. Qed.
Next Obligation.
  intros. change (1 ≤ size (w_string x)). autorewrite with size. unfold ssize. lia.
Qed.
Next Obligation. intros. apply safe_string. Qed.

(** ** codec_vector.hpp and codec_map.hpp, over any codec for the elements *)
Section containers.
Context {T : Type} `{codec_laws T}.

Definition vector_encode (values : list T) : writer := encode_elements encode values.
Definition vector_decode : M reader (list T) :=
  decode_elements decode (reserve plenty) "implausible vector element count".

#[export] Instance vector_codec : codec (list T) :=
  {| type_name := "opheap.vector.v1"; encode := vector_encode; decode := vector_decode |}.
#[export] Program Instance vector_codec_laws : codec_laws (list T) :=
  {| codec_wf l := is_u64 (size l) ∧ Forall codec_wf l |}.
Next Obligation.
  intros l rest [Hl Hw]. apply decode_elements_encode; [intros; by apply reserve_plenty|done|apply encode_nonempty|].
  intros x rest' Hx. apply decode_encode. by eapply Forall_forall in Hw.
Qed.
Next Obligation.
  intros l. change (1 ≤ size (encode_elements encode l)).
  pose proof (size_encode_elements encode l). lia.
Qed.
Next Obligation.
  intros r. apply safe_elements; [intros; by apply reserve_plenty|intros; apply decode_safe].
Qed.
End containers.

Section map_codec.
Context {K V : Type} `{codec_laws K} `{codec_laws V} `{!Less K}.

(** One entry of the loop in [codec<map>::encode] and [::decode]. *)
Definition entry_encode (e : K * V) : writer := encode e.1 ++ encode e.2.
Definition entry_decode : M reader (K * V) :=
  key ← decode; mapped ← decode; mret (key, mapped).
Definition map_encode (values : list (K * V)) : writer := encode_elements entry_encode values.
(** [try_emplace] followed by an assignment to the entry: a later duplicate wins. *)
Definition map_decode : M reader (list (K * V)) :=
  entries ← decode_elements entry_decode no_reserve "implausible map element count";
  mret (foldl (λ acc e, om_put e.1 e.2 acc) [] entries).

Lemma map_decode_encode `{!LessLaws K} (m : list (K * V)) rest :
  is_u64 (size m) → om_sorted m → Forall (λ e, codec_wf e.1 ∧ codec_wf e.2) m →
  map_decode (map_encode m ++ rest) = (Ok m, rest).
Proof.
  intros Hm Hs Hw. unfold map_decode, map_encode.
  rewrite (bind_ok _ _ _ rest m); [by rewrite om_put_all|].
  apply decode_elements_encode; [done|done| |].
  - intros e. unfold entry_encode. rewrite size_app.
    pose proof (encode_nonempty e.1). pose proof (encode_nonempty e.2). lia.
  - intros [k x] rest' Hx. apply (proj1 (Forall_forall _ _) Hw) in Hx as [Hk Hv]. simpl in *.
    unfold entry_encode, entry_decode. rewrite <- app_assoc.
    m_run (decode_encode k (encode x ++ rest') Hk). by m_run (decode_encode x rest' Hv).
Qed.
Lemma safe_map_decode r : safe_at map_decode r.
Proof.
  apply safe_bind; [|intros; apply safe_ret]. apply safe_elements; [done|]. intros r1 Hr1.
  apply safe_bind; [apply decode_safe|]. intros k r2 _.
  apply safe_bind; [apply decode_safe|]. intros. apply safe_ret.
Qed.
End map_codec.

(** ** codec_value.hpp *)
Definition tag_null : Z := 0.
Definition tag_boolean : Z := 1.
Definition tag_integer : Z := 2.
Definition tag_number : Z := 3.
Definition tag_string : Z := 4.
Definition tag_array : Z := 5.
Definition tag_object : Z := 6.

Definition array_encode (enc : value → writer) (values : list value) : writer :=
  encode_elements enc values.
Definition object_encode (enc : value → writer) (values : list (string * value)) : writer :=
  encode_elements (λ e, w_string e.1 ++ enc e.2) values.

(** [codec<value>::encode] *)
Fixpoint value_encode (item : value) : writer :=
  match item with
  | VNull => scalar 1 tag_null
  | VBool v => scalar 1 tag_boolean ++ scalar 1 (if v then 1 else 0)
  | VInteger v => scalar 1 tag_integer ++ scalar 8 v
  | VNumber v => scalar 1 tag_number ++ scalar 8 v
  | VString v => scalar 1 tag_string ++ w_string v
  | VArray v => scalar 1 tag_array ++ array_encode value_encode v
  | VObject v => scalar 1 tag_object ++ object_encode value_encode v
  end.

Definition array_decode (limit : Z) (dec : M reader value) : M reader (list value) :=
  decode_elements dec (reserve limit) "implausible array element count".
Definition object_decode (dec : M reader value) : M reader (list (string * value)) :=
  entries ← decode_elements (key ← r_string; mapped ← dec; mret (key, mapped))
                            no_reserve "implausible object element count";
  mret (foldl (λ acc e, om_put e.1 e.2 acc) [] entries).

(** [codec<value>::decode].  Every level of nesting consumes a tag byte, so fuel larger than
    the number of bytes is never exhausted ([safe_value_decode_at] below). *)
Fixpoint value_decode_at (limit : Z) (fuel : nat) : M reader value :=
  match fuel with
  | O => throw out_of_fuel
  | S fuel =>
      tag ← r_scalar 1;
      if tag =? tag_null then mret VNull
      else if tag =? tag_boolean then b ← r_scalar 1; mret (VBool (negb (b =? 0)))
      else if tag =? tag_integer then z ← r_signed 8; mret (VInteger z)
      else if tag =? tag_number then d ← r_scalar 8; mret (VNumber d)
      else if tag =? tag_string then s ← r_string; mret (VString s)
      else if tag =? tag_array then
        decoded ← array_decode limit (value_decode_at limit fuel);
        mret (VArray (foldl (λ target element, target ++ [element]) [] decoded))
      else if tag =? tag_object then
        decoded ← object_decode (value_decode_at limit fuel);
        mret (VObject (foldl (λ target e, om_put e.1 e.2 target) [] decoded))
      else throw (corruption_error "unknown value tag")
  end.
Definition value_decode_in (limit : Z) : M reader value := λ r, value_decode_at limit (S (length r)) r.
(** The components that decode values have memory to spare. *)
Definition value_decode : M reader value := value_decode_in plenty.

(** ** Lemmas on [codec<value>] *)
Lemma size_value_encode_ge v : 1 ≤ size (value_encode v).
Proof.
  destruct v as [|b|z|d|s|l|m]; cbn [value_encode]; autorewrite with size; try lia.
  - unfold ssize. lia.
  - pose proof (size_nonneg (array_encode value_encode l)). lia.
  - pose proof (size_nonneg (object_encode value_encode m)). lia.
Qed.

Lemma size_flat_map_elem {A} (enc : A → writer) x l :
  x ∈ l → size (enc x) ≤ size (flat_map enc l).
Proof.
  induction 1 as [x l|x y l ? IH]; simpl; autorewrite with size;
    [pose proof (size_nonneg (flat_map enc l))|pose proof (size_nonneg (enc y))]; lia.
Qed.

Lemma r_tag t rest : 0 ≤ t < 256 → r_scalar 1 (scalar 1 t ++ rest) = (Ok t, rest).
Proof. intros. rewrite r_scalar_scalar. by rewrite Z.mod_small by (simpl; lia). Qed.

Lemma foldl_push_back {A} (l acc : list A) : foldl (λ t x, t ++ [x]) acc l = acc ++ l.
Proof.
  revert acc. induction l as [|x l IH]; intros acc; simpl; [by rewrite app_nil_r|].
  by rewrite IH, <- app_assoc.
Qed.

Definition entry_reader (dec : M reader value) : M reader (string * value) :=
  key ← r_string; mapped ← dec; mret (key, mapped).

(** Decoding the elements of an array or object, given that each element decodes. *)
Lemma array_decode_encode dec l rest :
  is_u64 (size l) →
  (∀ x rest, x ∈ l → dec (value_encode x ++ rest) = (Ok x, rest)) →
  array_decode plenty dec (array_encode value_encode l ++ rest) = (Ok l, rest).
Proof. intros. by apply decode_elements_encode; [intros; apply reserve_plenty| |apply size_value_encode_ge|]. Qed.
Lemma size_object_entry (e : string * value) : 9 ≤ size (w_string e.1 ++ value_encode e.2).
Proof. pose proof (size_value_encode_ge e.2). autorewrite with size. unfold ssize. lia. Qed.
Lemma object_decode_encode dec m rest :
  is_u64 (size m) → om_sorted m → Forall (λ e, is_u64 (ssize e.1)) m →
  (∀ e rest, e ∈ m → dec (value_encode e.2 ++ rest) = (Ok e.2, rest)) →
  object_decode dec (object_encode value_encode m ++ rest) = (Ok m, rest).
Proof.
  intros Hm Hs Hk Hd. unfold object_decode, object_encode. fold (entry_reader dec).
  rewrite (bind_ok _ _ _ rest m); [by rewrite om_put_all|].
  apply decode_elements_encode; [done|done| |].
  - intros e. pose proof (size_object_entry e). lia.
  - intros [k x] rest' Hx. simpl. rewrite <- app_assoc. unfold entry_reader.
    m_run (r_string_app k (value_encode x ++ rest') (proj1 (Forall_forall _ _) Hk _ Hx)).
    by m_run (Hd (k, x) rest' Hx).
Qed.

Ltac tag_step :=
  unfold tag_null, tag_boolean, tag_integer, tag_number, tag_string, tag_array, tag_object;
  rewrite <- ?app_assoc; cbn [value_decode_at];
  match goal with
  | |- context [scalar 1 ?t ++ ?rest] => m_run (r_tag t rest ltac:(lia))
  end; cbn -[array_decode object_decode].

Lemma value_decode_encode_at fuel v rest :
  wf_value v → size (value_encode v) ≤ Z.of_nat fuel →
  value_decode_at plenty fuel (value_encode v ++ rest) = (Ok v, rest).
Proof.
  revert fuel rest. induction v as [|b|z|d|s|l IH|m IH] using value_rect_nested;
    intros [|fuel] rest Hw Hf; try (match goal with |- value_decode_at _ 0 (value_encode ?w ++ _) = _ =>
      pose proof (size_value_encode_ge w); lia end);
    cbn [value_encode] in *; inversion Hw as [| | | | |? Hl Hws|? Hm Hs Hk Hws]; subst.
  - by tag_step.
  - tag_step. destruct b; m_run (r_tag 1 rest ltac:(lia)) || m_run (r_tag 0 rest ltac:(lia)); done.
  - tag_step. by m_run (r_signed_i64 z rest ltac:(done)).
  - tag_step. by m_run (r_scalar_u64 d rest ltac:(done)).
  - tag_step. by m_run (r_string_app s rest ltac:(done)).
  - tag_step. unfold array_encode, encode_elements in Hf. autorewrite with size in Hf.
    rewrite (bind_ok _ _ _ rest l); [by rewrite foldl_push_back|].
    apply array_decode_encode; [done|]. intros x rest' Hx.
    pose proof (size_flat_map_elem value_encode x l Hx).
    apply (proj1 (Forall_forall _ _) IH _ Hx); [apply (proj1 (Forall_forall _ _) Hws _ Hx)|lia].
  - tag_step. unfold object_encode, encode_elements in Hf. autorewrite with size in Hf.
    rewrite (bind_ok _ _ _ rest m); [by rewrite om_put_all|].
    apply object_decode_encode; [done..|]. intros e rest' Hx.
    pose proof (size_flat_map_elem (λ e, w_string e.1 ++ value_encode e.2) e m Hx) as Hsz.
    simpl in Hsz. autorewrite with size in Hsz. unfold ssize in Hsz.
    apply (proj1 (Forall_forall _ _) IH _ Hx); [apply (proj1 (Forall_forall _ _) Hws _ Hx)|lia].
Qed.

(** The fuel [value_decode] gives is enough on every input, and memory for as many elements as the
    input has bytes: it throws nothing but [corruption_error]. *)
Lemma safe_value_decode_at limit fuel r :
  size r < Z.of_nat fuel → Z.min (size r) (u64_bound - 1) ≤ limit → safe_at (value_decode_at limit fuel) r.
Proof.
  revert r. induction fuel as [|fuel IH]; intros r Hr Hlimit; [pose proof (size_nonneg r); lia|].
  cbn [value_decode_at]. apply safe_bind; [done|]. intros t r1 E%r_scalar_inv.
  assert (∀ r', size r' ≤ size r1 → safe_at (value_decode_at limit fuel) r') as Hd by (intros; apply IH; lia).
  repeat (apply safe_if; [try (apply safe_bind; [done|intros; apply safe_ret])|]); try done.
  - apply safe_bind; [|intros; apply safe_ret]. apply safe_elements; [|done].
    intros count r' Hc Hle. apply reserve_ok. unfold is_u64 in Hc. lia.
  - apply safe_bind; [|intros; apply safe_ret]. apply safe_bind; [|intros; apply safe_ret].
    apply safe_elements; [done|]. intros r2 Hr2. apply safe_bind; [done|]. intros k r3 E3.
    pose proof (safe_string r2) as H3. unfold safe_at in H3. rewrite E3 in H3.
    apply safe_bind; [apply Hd; lia|]. intros. apply safe_ret.
Qed.
Lemma safe_value_decode_in limit r : size r ≤ limit → safe_at (value_decode_in limit) r.
Proof. intros. unfold safe_at, value_decode_in. apply safe_value_decode_at; unfold size in *; lia. Qed.
Lemma safe_value_decode r : safe_at value_decode r.
Proof. unfold safe_at, value_decode, value_decode_in. apply safe_value_decode_at; unfold size, plenty; lia. Qed.

(** What decoding yields is well formed. *)
Definition yields {A} (m : M reader A) (P : A → Prop) : Prop := ∀ r a r', m r = (Ok a, r') → P a.
Lemma yields_ret {A} (a : A) (P : A → Prop) : P a → yields (mret a) P.
Proof. by intros ? r a' r' [= <- <-]. Qed.
Lemma yields_throw {A} e (P : A → Prop) : yields (throw e) P.
Proof. by intros r a r'. Qed.
Lemma yields_bind {A B} (m : M reader A) (f : A → M reader B) (P : A → Prop) (Q : B → Prop) :
  yields m P → (∀ a, P a → yields (f a) Q) → yields (m ≫= f) Q.
Proof. intros Hm Hf r b r' E. m_inv E. by eapply Hf; [eapply Hm|]. Qed.
Lemma yields_if {A} (c : bool) (m1 m2 : M reader A) (P : A → Prop) :
  yields m1 P → yields m2 P → yields (if c then m1 else m2) P.
Proof. by destruct c. Qed.
Lemma yields_any {A} (m : M reader A) : yields m (λ _, True).
Proof. done. Qed.
Lemma yields_repeat {A} n (m : M reader A) (P : A → Prop) :
  yields m P → yields (repeatM n m) (λ l, length l = n ∧ Forall P l).
Proof.
  intros Hm. induction n as [|n IH]; simpl; [by apply yields_ret|].
  eapply yields_bind; [done|]. intros a Ha. eapply yields_bind; [done|]. intros l [<- Hl].
  apply yields_ret. split; [done|by constructor].
Qed.
Lemma yields_elements {A} (m : M reader A) prepare w (P : A → Prop) :
  yields m P → yields (decode_elements m prepare w) (λ l, is_u64 (size l) ∧ Forall P l).
Proof.
  intros Hm. unfold decode_elements. eapply (yields_bind _ _ is_u64); [intros r a r'; apply r_scalar_is_u64|].
  intros z Hz. eapply yields_bind; [apply yields_any|]. intros r _. apply yields_if; [apply yields_throw|].
  eapply yields_bind; [apply yields_any|]. intros _ _.
  intros r1 l r' [Hlen Hl]%(yields_repeat _ _ _ Hm). split; [|done].
  unfold size. rewrite Hlen. rewrite Z2Nat.id; [done|]. apply Hz.
Qed.
Lemma yields_string : yields r_string (λ s, is_u64 (ssize s)).
Proof.
  intros r s r' E. unfold r_string in E. m_inv E. apply r_scalar_is_u64 in E0 as Hz.
  m_inv E. case_match; [done|]. m_inv E. injection E as <- <-.
  rewrite ssize_string_of_bytes. apply r_bytes_inv in E2 as (_ & -> & _). rewrite size_take. unfold is_u64 in *. pose proof (size_nonneg s1). lia.
Qed.
Lemma size_om_put {V} k (v : V) (m : list (string * V)) : size (om_put k v m) ≤ size m + 1.
Proof.
  induction m as [|[k0 v0] m IH]; simpl; [done|].
  destruct (less k k0); [rewrite !size_cons; lia|]. destruct (less k0 k); rewrite !size_cons; lia.
Qed.
Lemma om_put_keys {V} (P : string → Prop) k (v : V) m :
  P k → Forall (λ e, P e.1) m → Forall (λ e, P e.1) (om_put k v m).
Proof.
  intros Hk. induction m as [|[k0 v0] m IH]; simpl; intros Hf; [by repeat constructor|].
  inversion Hf; subst. destruct (less k k0); [by repeat constructor|].
  destruct (less k0 k); constructor; try done. by apply IH.
Qed.
(** Entries put one after the other make a well-formed object. *)
Lemma wf_put_all (l acc : list (string * value)) :
  om_sorted acc → Forall (λ e, is_u64 (ssize e.1) ∧ wf_value e.2) l →
  Forall (λ e, is_u64 (ssize e.1)) acc → Forall (λ e, wf_value e.2) acc →
  let m := foldl (λ acc e, om_put e.1 e.2 acc) acc l in
  om_sorted m ∧ Forall (λ e, is_u64 (ssize e.1)) m ∧ Forall (λ e, wf_value e.2) m ∧ size m ≤ size acc + size l.
Proof.
  intros Hs Hl. revert acc Hs. induction Hl as [|[k v] l [Hk Hv] _ IH]; intros acc Hs Hak Hav; cbn.
  - split_and!; try done. rewrite size_nil. lia.
  - destruct (IH (om_put k v acc)) as (H1 & H2 & H3 & H4);
      [by apply om_put_sorted|by apply (om_put_keys (λ k, is_u64 (ssize k)))|by apply om_put_Forall|].
    split_and!; try done. pose proof (size_om_put k v acc). rewrite size_cons. lia.
Qed.

Lemma yields_value_decode_at limit fuel : yields (value_decode_at limit fuel) wf_value.
Proof.
  induction fuel as [|fuel IH]; cbn [value_decode_at]; [apply yields_throw|].
  eapply yields_bind; [apply yields_any|]. intros t _.
  apply yields_if; [apply yields_ret; auto|].
  apply yields_if; [eapply yields_bind; [apply yields_any|]; intros; apply yields_ret; auto|].
  apply yields_if.
  { eapply (yields_bind _ _ is_i64); [|intros; apply yields_ret; auto]. intros r z r' E.
    unfold r_signed in E. m_inv E. injection E as <- <-. pose proof (r_scalar_is_u64 _ _ _ E0) as Hz.
    unfold to_signed, is_i64, is_u64, u64_bound in *. change (8 * Z.of_nat 8) with 64.
    change (2 ^ (64 - 1)) with (2 ^ 63). destruct (Z.ltb_spec a (2 ^ 63)); lia. }
  apply yields_if.
  { eapply (yields_bind _ _ is_u64); [intros r z r'; apply r_scalar_is_u64|intros; apply yields_ret; auto]. }
  apply yields_if; [eapply yields_bind; [apply yields_string|]; intros; apply yields_ret; auto|].
  apply yields_if.
  { eapply yields_bind; [by apply yields_elements|]. intros l [Hl Hw]. apply yields_ret.
    rewrite foldl_push_back. auto. }
  apply yields_if; [|apply yields_throw].
  assert (yields (object_decode (value_decode_at limit fuel)) (λ m, is_u64 (size m) ∧ om_sorted m ∧
    Forall (λ e, is_u64 (ssize e.1) ∧ wf_value e.2) m)) as Hobj.
  { unfold object_decode. eapply yields_bind; [eapply (yields_elements _ _ _ (λ e, is_u64 (ssize e.1) ∧ wf_value e.2))|].
    - eapply yields_bind; [apply yields_string|]. intros k Hk. eapply yields_bind; [done|].
      intros v Hv. by apply yields_ret.
    - intros l [Hl Hw]. apply yields_ret. destruct (wf_put_all l []) as (? & H1 & H2 & Hsz); [constructor|done|done|done|].
      split_and!; [|done|by apply Forall_and].
      rewrite size_nil in Hsz. pose proof (size_nonneg (foldl (λ acc e, om_put e.1 e.2 acc) [] l)).
      unfold is_u64 in *. lia. }
  eapply yields_bind; [exact Hobj|]. intros m (Hm & Hs & Hf). apply yields_ret. rewrite om_put_all by done.
  apply Forall_and in Hf as [? ?]. by constructor.
Qed.
Lemma yields_value_decode_in limit : yields (value_decode_in limit) wf_value.
Proof. intros r v r'. apply yields_value_decode_at. Qed.

#[export] Instance value_codec : codec value :=
  {| type_name := "opheap.value.v1"; encode := value_encode; decode := value_decode |}.
#[export] Program Instance value_codec_laws : codec_laws value := {| codec_wf := wf_value |}.
Next Obligation.
  intros v rest Hw. change (value_decode (value_encode v ++ rest) = (Ok v, rest)).
  unfold value_decode, value_decode_in. apply value_decode_encode_at; [done|].
  unfold size. rewrite length_app. lia.
Qed.
Next Obligation. apply size_value_encode_ge. Qed.
Next Obligation. apply safe_value_decode. Qed.
