(* ===== verification/Storage.v ===== *)
(** * The storage interface: [storage_file.hpp], [storage_backend.hpp].

    The two abstract classes become one operation class [storage] over the type [W] of storage
    states; a [storage_file] is designated by its path.  [storage_laws] is the contract the
    engine relies on, fault by fault: what a call may have changed when it returns and when it
    throws.  [storage_reliable] adds when a call must succeed.  Module [Disk] is an instance with
    a page cache, durable contents, directory entries and injected faults. *)
From S2P Require Import Prelude.

(** [std::filesystem::path]: [operator/] and [parent_path], on paths without a root name whose
    components are separated by one slash. *)
Definition path_join (dir name : string) : string := dir +:+ "/" +:+ name.
Fixpoint last_slash (s : string) : option nat :=
  match s with
  | EmptyString => None
  | String c s => match last_slash s with
                  | Some n => Some (S n)
                  | None => if decide (String c "" = "/") then Some O else None
                  end
  end.
Definition parent_path (path : string) : string :=
  match last_slash path with
  | None => ""
  | Some O => "/"
  | Some n => String.substring 0 n path
  end.

Class storage (W : Type) := {
  open_file : string → bool → M W unit;
  create_directories : string → M W unit;
  exists_ : string → M W bool;
  atomic_replace : string → string → M W unit;
  remove_file : string → M W unit;
  sync_directory : string → M W unit;
  file_size : string → M W Z;
  read_exact : string → Z → Z → M W (list byte);
  write_exact : string → Z → list byte → M W unit;
  append : string → list byte → M W Z;
  truncate : string → Z → M W unit;
  flush_data : string → M W unit;
  flush_all : string → M W unit
}.

(** The effect of writing [data] at [off] in a file, extending it with zeros if needed. *)
Definition write_at (c : list byte) (off : Z) (data : list byte) : list byte :=
  let n := Z.to_nat off in
  take n (c ++ replicate (n - length c) x00) ++ data ++ drop (n + length data) c.
Definition truncate_to (c : list byte) (n : Z) : list byte :=
  take (Z.to_nat n) (c ++ replicate (Z.to_nat n - length c) x00).

Lemma write_at_end c data : write_at c (size c) data = c ++ data.
Proof.
  unfold write_at, size.
  by rewrite Nat2Z.id, Nat.sub_diag, app_nil_r, firstn_all, drop_ge, app_nil_r by lia.
Qed.
Lemma truncate_to_nil c : truncate_to c 0 = [].
Proof. done. Qed.
Lemma truncate_to_take c n : 0 ≤ n ≤ size c → truncate_to c n = take (Z.to_nat n) c.
Proof.
  unfold truncate_to, size. intros. replace (Z.to_nat n - length c)%nat with 0%nat by lia.
  by rewrite app_nil_r.
Qed.

Class storage_laws (W : Type) `{storage W} := {
  (** The contents a process sees when it opens the file. *)
  file_of : W → string → option (list byte);
  same_files (w w' : W) : Prop := ∀ q, file_of w' q = file_of w q;
  same_but (p : string) (w w' : W) : Prop := ∀ q, q ≠ p → file_of w' q = file_of w q;
  open_file_law p create w :
    match open_file p create w with
    | (Ok _, w') => same_but p w w' ∧ file_of w' p = Some (default [] (file_of w p)) ∧
                    (create = false → is_Some (file_of w p))
    | (Throw _, w') => same_files w w'
    end;
  create_directories_law p w : same_files w (create_directories p w).2;
  exists_law p w :
    match exists_ p w with
    | (Ok b, w') => same_files w w' ∧ b = bool_decide (is_Some (file_of w p))
    | (Throw _, w') => same_files w w'
    end;
  atomic_replace_law from to w :
    match atomic_replace from to w with
    | (Ok _, w') => is_Some (file_of w from) ∧ file_of w' to = file_of w from ∧
                    (from ≠ to → file_of w' from = None) ∧
                    ∀ q, q ≠ from → q ≠ to → file_of w' q = file_of w q
    | (Throw _, w') => same_files w w'
    end;
  sync_directory_law p w : same_files w (sync_directory p w).2;
  file_size_law p w :
    match file_size p w with
    | (Ok n, w') => same_files w w' ∧ ∃ c, file_of w p = Some c ∧ n = size c
    | (Throw _, w') => same_files w w'
    end;
  read_exact_law p off n w :
    match read_exact p off n w with
    | (Ok bs, w') => same_files w w' ∧ ∃ c, file_of w p = Some c ∧
        bs = take (Z.to_nat n) (drop (Z.to_nat off) c) ∧ size bs = Z.max 0 n
    | (Throw _, w') => same_files w w'
    end;
  write_exact_law p off data w :
    match write_exact p off data w with
    | (Ok _, w') => same_but p w w' ∧
        ∃ c, file_of w p = Some c ∧ file_of w' p = Some (write_at c off data)
    | (Throw _, w') => same_but p w w' ∧
        (file_of w' p = file_of w p ∨
         ∃ c k, file_of w p = Some c ∧ file_of w' p = Some (write_at c off (take k data)))
    end;
  append_law p data w :
    match append p data w with
    | (Ok off, w') => same_but p w w' ∧
        ∃ c, file_of w p = Some c ∧ off = size c ∧ file_of w' p = Some (c ++ data)
    | (Throw _, w') => same_but p w w' ∧
        (file_of w' p = file_of w p ∨
         ∃ c k, file_of w p = Some c ∧ file_of w' p = Some (c ++ take k data))
    end;
  truncate_law p n w :
    match truncate p n w with
    | (Ok _, w') => same_but p w w' ∧
        ∃ c, file_of w p = Some c ∧ file_of w' p = Some (truncate_to c n)
    | (Throw _, w') => same_files w w'
    end;
  flush_data_law p w : same_files w (flush_data p w).2;
  flush_all_law p w : same_files w (flush_all p w).2
}.

(** When every call succeeds: from a reliable state, on existing files and readable ranges; a call
    that reads anything else fails without harm. *)
Class storage_reliable (W : Type) `{storage_laws W} := {
  reliable : W → Prop;
  open_file_ok p create w :
    reliable w → (create = true ∨ is_Some (file_of w p)) →
    ∃ w', open_file p create w = (Ok tt, w') ∧ reliable w';
  create_directories_ok p w :
    reliable w → ∃ w', create_directories p w = (Ok tt, w') ∧ reliable w';
  exists_ok p w : reliable w → ∃ b w', exists_ p w = (Ok b, w') ∧ reliable w';
  atomic_replace_ok from to w :
    reliable w → is_Some (file_of w from) →
    ∃ w', atomic_replace from to w = (Ok tt, w') ∧ reliable w';
  sync_directory_ok p w : reliable w → ∃ w', sync_directory p w = (Ok tt, w') ∧ reliable w';
  file_size_ok p w :
    reliable w → is_Some (file_of w p) → ∃ n w', file_size p w = (Ok n, w') ∧ reliable w';
  read_exact_ok p off n w c :
    reliable w → file_of w p = Some c → 0 ≤ off → 0 ≤ n → off + n ≤ size c →
    ∃ bs w', read_exact p off n w = (Ok bs, w') ∧ reliable w';
  read_exact_keeps p off n w : reliable w → reliable (read_exact p off n w).2;
  open_existing_keeps p w : reliable w → reliable (open_file p false w).2;
  write_exact_ok p off data w :
    reliable w → is_Some (file_of w p) →
    ∃ w', write_exact p off data w = (Ok tt, w') ∧ reliable w';
  append_ok p data w :
    reliable w → is_Some (file_of w p) → ∃ off w', append p data w = (Ok off, w') ∧ reliable w';
  truncate_ok p n w :
    reliable w → is_Some (file_of w p) → ∃ w', truncate p n w = (Ok tt, w') ∧ reliable w';
  flush_data_ok p w :
    reliable w → is_Some (file_of w p) → ∃ w', flush_data p w = (Ok tt, w') ∧ reliable w';
  flush_all_ok p w :
    reliable w → is_Some (file_of w p) → ∃ w', flush_all p w = (Ok tt, w') ∧ reliable w'
}.

(** ** Reading computations

    [computes m w spec]: run in [w], the computation [m] changes no file and gives [spec], or
    stops with an error of the storage; on reliable storage it gives [spec]. *)
Definition slice (c : list byte) (off n : Z) : list byte :=
  take (Z.to_nat n) (drop (Z.to_nat off) c).

Lemma slice_app_l c x off n : 0 ≤ off → 0 ≤ n → off + n ≤ size c → slice (c ++ x) off n = slice c off n.
Proof.
  unfold slice, size. intros. rewrite drop_app_le by lia. apply take_app_le. rewrite length_drop. lia.
Qed.
Lemma slice_mid a b c : slice (a ++ b ++ c) (size a) (size b) = b.
Proof.
  unfold slice, size. rewrite !Nat2Z.id, drop_app_length. by rewrite take_app_length.
Qed.
Lemma size_slice c off n : 0 ≤ off → 0 ≤ n → off + n ≤ size c → size (slice c off n) = n.
Proof. unfold slice. intros. rewrite size_take, size_drop. unfold size in *. lia. Qed.

Lemma slice_all c : slice c 0 (size c) = c.
Proof. unfold slice, size. by rewrite Nat2Z.id, firstn_all. Qed.
Lemma slice_slice c o k off n :
  0 ≤ o → 0 ≤ off → 0 ≤ n → off + n ≤ k → slice (slice c o k) off n = slice c (o + off) n.
Proof.
  unfold slice. intros. rewrite Z2Nat.inj_add by lia. rewrite skipn_firstn_comm, take_take, drop_drop.
  f_equal. lia.
Qed.

Section computes.
Context {W : Type} `{HW : storage_reliable W}.

Lemma same_files_refl (w : W) : same_files w w.
Proof. by intros q. Qed.
Lemma same_files_trans (w1 w2 w3 : W) : same_files w1 w2 → same_files w2 w3 → same_files w1 w3.
Proof. intros Ha Hb q. by rewrite Hb, Ha. Qed.
Lemma same_but_files p (w w' : W) : same_files w w' → same_but p w w'.
Proof. intros Hs q _. apply Hs. Qed.
Lemma same_but_trans p (w1 w2 w3 : W) : same_but p w1 w2 → same_but p w2 w3 → same_but p w1 w3.
Proof. intros Ha Hb q Hq. by rewrite Hb, Ha. Qed.

Definition computes {A} (m : M W A) (w : W) (spec : result A) : Prop :=
  ∃ r w', m w = (r, w') ∧ same_files w w' ∧ (r = spec ∨ ∃ e, r = Throw e) ∧
    (reliable w → r = spec ∧ reliable w').

Lemma computes_pure {A} (r : result A) w : computes (lift_result r) w r.
Proof. exists r, w. split_and!; [done|apply same_files_refl|by left|done]. Qed.
Lemma computes_ret {A} (a : A) w : computes (mret a) w (Ok a).
Proof. apply (computes_pure (Ok a)). Qed.
Lemma computes_throw {A} e w : computes (A:=A) (throw e) w (Throw e).
Proof. apply (computes_pure (Throw e)). Qed.
Lemma computes_bind {A B} (m : M W A) (f : A → M W B) w spec (g : A → result B) :
  computes m w spec →
  (∀ a w', spec = Ok a → same_files w w' → computes (f a) w' (g a)) →
  computes (m ≫= f) w (spec ≫= g).
Proof.
  intros (r & w1 & E & Hs & Hr & Hok) Hf. unfold computes, mbind, M_bind, result_bind. rewrite E.
  assert (∀ e, r = Throw e → ∃ r0 w', (Throw e, w1) = (r0, w') ∧ same_files w w' ∧
    (r0 = match spec with Ok a => g a | Throw e => Throw e end ∨ ∃ e, r0 = Throw e) ∧
    (reliable w → r0 = match spec with Ok a => g a | Throw e => Throw e end ∧ reliable w')) as Hthrow.
  { intros e ->. exists (Throw e), w1. split_and!; [done|done|right; by eexists|].
    by intros [<- ?]%Hok. }
  destruct r as [a|e]; [|by apply Hthrow]. destruct Hr as [<-|[e [=]]].
  destruct (Hf a w1 eq_refl Hs) as (r2 & w2 & E2 & Hs2 & Hr2 & Hok2). rewrite E2.
  exists r2, w2. split_and!; [done|by eapply same_files_trans|done|]. by intros [_ ?%Hok2]%Hok.
Qed.
Lemma computes_step {A B} (m : M W A) (f : A → M W B) w a spec :
  computes m w (Ok a) → (∀ w', same_files w w' → computes (f a) w' spec) →
  computes (m ≫= f) w spec.
Proof.
  intros Hm Hf. apply (computes_bind m f w (Ok a) (λ _, spec) Hm). intros ? w' [= <-]. apply Hf.
Qed.
Lemma computes_if {A} (b : bool) (m1 m2 : M W A) w s1 s2 :
  (b = true → computes m1 w s1) → (b = false → computes m2 w s2) →
  computes (if b then m1 else m2) w (if b then s1 else s2).
Proof. destruct b; auto. Qed.

Lemma computes_read p c off n w :
  file_of w p = Some c → 0 ≤ off → 0 ≤ n → off + n ≤ size c →
  computes (read_exact p off n) w (Ok (slice c off n)).
Proof.
  intros Hc Ho Hn Hle. pose proof (read_exact_law p off n w) as Hl.
  pose proof (λ Hr, read_exact_ok p off n w c Hr Hc Ho Hn Hle) as Hok. unfold computes.
  destruct (read_exact p off n w) as [[bs|e] w']; do 2 eexists; (split; [done|]).
  - destruct Hl as (Hs & c' & Hc' & -> & _). assert (c' = c) as -> by congruence.
    split_and!; [done|by left|]. intros (? & ? & [= <- <-] & ?)%Hok. done.
  - split_and!; [done|right; by eexists|]. intros (? & ? & [=] & ?)%Hok.
Qed.
Lemma computes_size p c w :
  file_of w p = Some c → computes (file_size p) w (Ok (size c)).
Proof.
  intros Hc. pose proof (file_size_law p w) as Hl.
  pose proof (λ Hr, file_size_ok p w Hr (mk_is_Some _ _ Hc)) as Hok. unfold computes.
  destruct (file_size p w) as [[n|e] w']; do 2 eexists; (split; [done|]).
  - destruct Hl as (Hs & c' & Hc' & ->). assert (c' = c) as -> by congruence.
    split_and!; [done|by left|]. by intros (? & ? & [= <- <-] & ?)%Hok.
  - split_and!; [done|right; by eexists|]. by intros (? & ? & [=] & ?)%Hok.
Qed.
Lemma computes_open p c create w :
  file_of w p = Some c → computes (open_file p create) w (Ok tt).
Proof.
  intros Hc. pose proof (open_file_law p create w) as Hl.
  pose proof (λ Hr, open_file_ok p create w Hr (or_intror (mk_is_Some _ _ Hc))) as Hok. unfold computes.
  destruct (open_file p create w) as [[[]|e] w']; do 2 eexists; (split; [done|]).
  - destruct Hl as (Hb & Hf & _). split_and!; [|by left|by intros (? & [= <-] & ?)%Hok].
    intros q. destruct (decide (q = p)) as [->|]; [by rewrite Hf, Hc|by apply Hb].
  - split_and!; [done|right; by eexists|]. by intros (? & [=] & ?)%Hok.
Qed.
Lemma computes_exists p w :
  computes (exists_ p) w (Ok (bool_decide (is_Some (file_of w p)))).
Proof.
  pose proof (exists_law p w) as Hl. pose proof (λ Hr, exists_ok p w Hr) as Hok. unfold computes.
  destruct (exists_ p w) as [[b|e] w']; do 2 eexists; (split; [done|]).
  - destruct Hl as [Hs ->]. split_and!; [done|by left|]. by intros (? & ? & [= <- <-] & ?)%Hok.
  - split_and!; [done|right; by eexists|]. by intros (? & ? & [=] & ?)%Hok.
Qed.

(** [harmless m w]: however [m] ends in [w], it changes no file, and reliable storage stays so. *)
Definition harmless {A} (m : M W A) (w : W) : Prop :=
  reliable w → reliable (m w).2 ∧ same_files w (m w).2.
Lemma harmless_computes {A} (m : M W A) w spec : computes m w spec → harmless m w.
Proof. intros (r & w' & E & Hs & _ & Hok) Hr. rewrite E. split; [by apply Hok|done]. Qed.
Lemma harmless_ret {A} (a : A) w : harmless (mret a) w.
Proof. intros Hr. split; [done|apply same_files_refl]. Qed.
Lemma harmless_throw {A} e w : harmless (A:=A) (throw e) w.
Proof. intros Hr. split; [done|apply same_files_refl]. Qed.
Lemma harmless_bind {A B} (m : M W A) (f : A → M W B) w :
  harmless m w → (∀ a w', harmless (f a) w') → harmless (m ≫= f) w.
Proof.
  intros Hm Hf Hr. destruct (Hm Hr) as [Hr1 Hs1]. unfold mbind, M_bind. destruct (m w) as [[a|e] w1]; [|done].
  destruct (Hf a w1 Hr1) as [? ?]. split; [done|by eapply same_files_trans].
Qed.
Lemma harmless_read p off n w : harmless (read_exact p off n) w.
Proof.
  intros Hr. split; [by apply read_exact_keeps|]. pose proof (read_exact_law p off n w) as Hl.
  destruct (read_exact p off n w) as [[bs|e] w']; [by destruct Hl|done].
Qed.
Lemma harmless_open p w : harmless (open_file p false) w.
Proof.
  intros Hr. split; [by apply open_existing_keeps|]. pose proof (open_file_law p false w) as Hl.
  destruct (open_file p false w) as [[[]|e] w']; [|done]. destruct Hl as (Hb & Hf & Hx).
  destruct (Hx eq_refl) as [c Hc]. intros q. simpl. destruct (decide (q = p)) as [->|]; [by rewrite Hf, Hc|by apply Hb].
Qed.

(** [leaves p m w c]: run in [w], [m] changes at most the file [p], and when it succeeds the
    file contains [c]; on reliable storage it succeeds. *)
Definition is_ok {A} (r : result A) : Prop := ∃ a, r = Ok a.
Definition leaves {A} (p : string) (m : M W A) (w : W) (c : list byte) : Prop :=
  ∃ r w', m w = (r, w') ∧ same_but p w w' ∧ (is_ok r → file_of w' p = Some c) ∧
    (reliable w → is_ok r ∧ reliable w').

Lemma leaves_computes {A} p (m : M W A) w c a :
  file_of w p = Some c → computes m w (Ok a) → leaves p m w c.
Proof.
  intros Hc (r & w' & E & Hs & _ & Hok). exists r, w'. split_and!; [done|by apply same_but_files|by rewrite Hs|].
  intros [-> ?]%Hok. split; [by eexists|done].
Qed.
Lemma leaves_ret {A} p (a : A) w c : file_of w p = Some c → leaves p (mret a) w c.
Proof. intros. eapply leaves_computes; [done|apply computes_ret]. Qed.
Lemma leaves_bind {A B} p (m : M W A) (f : A → M W B) w c1 c2 :
  leaves p m w c1 →
  (∀ a w', same_but p w w' → file_of w' p = Some c1 → leaves p (f a) w' c2) →
  leaves p (m ≫= f) w c2.
Proof.
  intros (r & w1 & E & Hb & Hf & Hok) Hnext. unfold leaves, mbind, M_bind. rewrite E.
  destruct r as [a|e].
  - destruct (Hnext a w1 Hb (Hf ltac:(by eexists))) as (r2 & w2 & E2 & Hb2 & Hf2 & Hok2). rewrite E2.
    exists r2, w2. split_and!; [done|by eapply same_but_trans|done|]. by intros [_ ?%Hok2]%Hok.
  - exists (Throw e), w1. split_and!; [done|done|by intros [? [=]]|]. by intros [[? [=]] ?]%Hok.
Qed.
Lemma leaves_read {A B} p (m : M W A) (f : A → M W B) w a c1 c2 :
  file_of w p = Some c1 → computes m w (Ok a) →
  (∀ w', same_but p w w' → file_of w' p = Some c1 → leaves p (f a) w' c2) →
  leaves p (m ≫= f) w c2.
Proof.
  intros Hc (r & w1 & E & Hs & Hr & Hok) Hnext. unfold leaves, mbind, M_bind. rewrite E.
  pose proof (same_but_files p _ _ Hs). destruct Hr as [->|[e ->]].
  - destruct (Hnext w1) as (r2 & w2 & E2 & Hb2 & Hf2 & Hok2); [done|by rewrite Hs|]. rewrite E2.
    exists r2, w2. split_and!; [done|by eapply same_but_trans|done|]. by intros [_ ?%Hok2]%Hok.
  - exists (Throw e), w1. split_and!; [done|done|by intros [? [=]]|]. by intros [[=] ?]%Hok.
Qed.
Lemma leaves_write p off data w c :
  file_of w p = Some c → leaves p (write_exact p off data) w (write_at c off data).
Proof.
  intros Hc. pose proof (write_exact_law p off data w) as Hl.
  pose proof (λ Hr, write_exact_ok p off data w Hr (mk_is_Some _ _ Hc)) as Hok. unfold leaves.
  destruct (write_exact p off data w) as [[u|e] w']; do 2 eexists; (split; [done|]).
  - destruct Hl as (Hb & c' & Hc' & Hw). split_and!; [done|intros _; congruence|].
    intros (? & [= _ <-] & ?)%Hok. split; [by eexists|done].
  - split_and!; [apply Hl|by intros [? [=]]|]. by intros (? & [=] & ?)%Hok.
Qed.
Lemma leaves_truncate p n w c :
  file_of w p = Some c → leaves p (truncate p n) w (truncate_to c n).
Proof.
  intros Hc. pose proof (truncate_law p n w) as Hl.
  pose proof (λ Hr, truncate_ok p n w Hr (mk_is_Some _ _ Hc)) as Hok. unfold leaves.
  destruct (truncate p n w) as [[u|e] w']; do 2 eexists; (split; [done|]).
  - destruct Hl as (Hb & c' & Hc' & Hw). split_and!; [done|intros _; congruence|].
    intros (? & [= _ <-] & ?)%Hok. split; [by eexists|done].
  - split_and!; [by apply same_but_files|by intros [? [=]]|]. by intros (? & [=] & ?)%Hok.
Qed.
Lemma leaves_create p w :
  leaves p (open_file p true) w (default [] (file_of w p)).
Proof.
  pose proof (open_file_law p true w) as Hl.
  pose proof (λ Hr, open_file_ok p true w Hr (or_introl eq_refl)) as Hok. unfold leaves.
  destruct (open_file p true w) as [[u|e] w']; do 2 eexists; (split; [done|]).
  - destruct Hl as (Hb & Hf & _). split_and!; [done|done|].
    intros (? & [= _ <-] & ?)%Hok. split; [by eexists|done].
  - split_and!; [by apply same_but_files|by intros [? [=]]|]. by intros (? & [=] & ?)%Hok.
Qed.
Lemma leaves_flush p w c :
  file_of w p = Some c → leaves p (flush_all p) w c ∧ leaves p (flush_data p) w c.
Proof.
  intros Hc. split.
  - pose proof (flush_all_law p w) as Hl.
    pose proof (λ Hr, flush_all_ok p w Hr (mk_is_Some _ _ Hc)) as Hok. unfold leaves.
    destruct (flush_all p w) as [r w']. simpl in Hl. exists r, w'.
    split_and!; [done|by apply same_but_files|by rewrite Hl|].
    intros (? & [= -> ->] & ?)%Hok. split; [by eexists|done].
  - pose proof (flush_data_law p w) as Hl.
    pose proof (λ Hr, flush_data_ok p w Hr (mk_is_Some _ _ Hc)) as Hok. unfold leaves.
    destruct (flush_data p w) as [r w']. simpl in Hl. exists r, w'.
    split_and!; [done|by apply same_but_files|by rewrite Hl|].
    intros (? & [= -> ->] & ?)%Hok. split; [by eexists|done].
Qed.
Lemma leaves_when p (b : bool) (m : M W unit) w c :
  file_of w p = Some c → leaves p m w c → leaves p (when b m) w c.
Proof. intros. destruct b; simpl; [done|]. by apply leaves_ret. Qed.
End computes.

(** ** A disk *)
Module Disk.
(** What the fault schedule makes the next call do: run, fail before doing anything, or (for
    a write) write only some bytes and then fail. *)
Inductive fault := f_run | f_fail | f_short (n : nat).

(** A file: what processes see, what the medium holds, and whether the directory entry that
    leads to it is on the medium too. *)
Record dfile := Dfile { visible : list byte; synced : list byte; linked : bool }.
(** [replaced] holds, for a name whose current entry is not on the medium, the file the
    medium still has under that name. *)
Record disk := Mk {
  entries : gmap string dfile;
  replaced : gmap string dfile;
  schedule : list fault
}.
Definition io_error (op path : string) : error := storage_error (op +:+ " failed for " +:+ path).

Definition next_fault : M disk fault := λ d,
  match schedule d with
  | [] => (Ok f_run, d)
  | f :: fs => (Ok f, Mk (entries d) (replaced d) fs)
  end.
(** Run [m] unless the schedule makes the call fail. *)
Definition guarded {A} (op path : string) (m : M disk A) : M disk A :=
  f ← next_fault; match f with f_run => m | _ => throw (io_error op path) end.
Definition file (p : string) : M disk dfile := λ d,
  match entries d !! p with
  | Some f => (Ok f, d)
  | None => (Throw (io_error "open" p), d)
  end.
Definition set_file (p : string) (f : dfile) : M disk unit := λ d,
  (Ok tt, Mk (<[p := f]> (entries d)) (replaced d) (schedule d)).
Definition set_visible (p : string) (f : dfile) (c : list byte) : M disk unit :=
  set_file p (Dfile c (synced f) (linked f)).

Definition d_open (p : string) (create : bool) : M disk unit :=
  guarded "open" p (λ d,
    match entries d !! p with
    | Some _ => (Ok tt, d)
    | None => if create then set_file p (Dfile [] [] false) d
              else (Throw (io_error "open" p), d)
    end).
Definition d_exists (p : string) : M disk bool :=
  guarded "exists" p (λ d, (Ok (bool_decide (is_Some (entries d !! p))), d)).
Definition d_size (p : string) : M disk Z :=
  guarded "fstat" p (f ← file p; mret (size (visible f))).
Definition d_read (p : string) (off n : Z) : M disk (list byte) :=
  guarded "pread" p (
    f ← file p;
    let bs := take (Z.to_nat n) (drop (Z.to_nat off) (visible f)) in
    if size bs <? n then throw (corruption_error ("unexpected EOF while reading " +:+ p))
    else mret bs).
Definition d_write (p : string) (off : Z) (data : list byte) : M disk unit :=
  k ← next_fault;
  match k with
  | f_fail => throw (io_error "pwrite" p)
  | f_run => f ← file p; set_visible p f (write_at (visible f) off data)
  | f_short n =>
      f ← file p; _ ← set_visible p f (write_at (visible f) off (take n data));
      throw (io_error "pwrite" p)
  end.
(** [append]: [size] followed by [write_exact] at that offset. *)
Definition d_append (p : string) (data : list byte) : M disk Z :=
  f ← file p; let off := size (visible f) in
  _ ← d_write p off data; mret off.
Definition d_truncate (p : string) (n : Z) : M disk unit :=
  guarded "ftruncate" p (f ← file p; set_visible p f (truncate_to (visible f) n)).
Definition d_flush (p : string) : M disk unit :=
  guarded "fsync" p (f ← file p; set_file p (Dfile (visible f) (visible f) (linked f))).
(** [rename]: the medium keeps the old entries of both names until the directory is synced. *)
Definition d_replace (from to : string) : M disk unit :=
  guarded "rename" to (λ d,
    match entries d !! from with
    | None => (Throw (io_error "rename" to), d)
    | Some f =>
        let keep q r := match entries d !! q with
                        | Some g => if linked g then <[q := g]> r else r
                        | None => r
                        end in
        (Ok tt, Mk (<[to := Dfile (visible f) (synced f) false]> (delete from (entries d)))
                   (keep to (keep from (replaced d))) (schedule d))
    end).
Definition d_remove (p : string) : M disk unit :=
  guarded "remove" p (λ d,
    (Ok tt, Mk (delete p (entries d))
              (match entries d !! p with
               | Some f => if linked f then <[p := f]> (replaced d) else replaced d
               | None => replaced d
               end) (schedule d))).
(** [fsync] of the directory: its entries are on the medium. *)
Definition d_sync_directory (dir : string) : M disk unit :=
  guarded "fsync directory" dir (λ d,
    let linked_entry p f :=
      Some (if decide (String.prefix (dir +:+ "/") p = true)
            then Dfile (visible f) (synced f) true else f) in
    let kept p (f : dfile) := if decide (String.prefix (dir +:+ "/") p = true) then None else Some f in
    (Ok tt, Mk (map_imap linked_entry (entries d)) (map_imap kept (replaced d)) (schedule d))).

#[global] Instance disk_storage : storage disk := {|
  open_file := d_open;
  create_directories p := guarded "create_directories" p (mret tt);
  exists_ := d_exists;
  atomic_replace := d_replace;
  remove_file := d_remove;
  sync_directory := d_sync_directory;
  file_size := d_size;
  read_exact := d_read;
  write_exact := d_write;
  append := d_append;
  truncate := d_truncate;
  flush_data := d_flush;
  flush_all := d_flush
|}.

Definition d_file_of (d : disk) (p : string) : option (list byte) := visible <$> entries d !! p.
Definition empty : disk := Mk ∅ ∅ [].

(** What may be found under a name after a power failure: what was synced, with anything after it up
    to the size of what was visible, or what was visible, under the entry it has now or the one that
    entry replaced; nothing, if it has no entry now, or one that was never on the medium. *)
Definition between (f : dfile) (c : list byte) : Prop :=
  c = synced f ∨ c = visible f ∨
  (synced f `prefix_of` c ∧ size c ≤ size (visible f)).
Inductive survives (d : disk) (p : string) : option (list byte) → Prop :=
| survives_entry f c : entries d !! p = Some f → between f c → survives d p (Some c)
| survives_replaced f c : replaced d !! p = Some f → between f c → survives d p (Some c)
| survives_absent : entries d !! p = None → survives d p None
| survives_unlinked f :
    entries d !! p = Some f → linked f = false → replaced d !! p = None → survives d p None.

(** *** The disk honours the contract *)
Lemma file_of_insert es p f q :
  visible <$> (<[p := f]> es : gmap string dfile) !! q =
  if decide (p = q) then Some (visible f) else visible <$> es !! q.
Proof. rewrite lookup_insert. by case_decide. Qed.

Ltac run_disk :=
  intros; simpl in *; unfold d_open, d_exists, d_size, d_read, d_append, d_write, d_truncate, d_flush,
    d_replace, d_sync_directory, guarded, next_fault, set_visible, set_file, file, throw,
    mbind, M_bind, mret, M_ret, d_file_of in *; simpl in *;
  repeat (case_match; simplify_eq/=); rewrite ?lookup_insert_eq.
Ltac others := intros q Hq; simpl; by rewrite lookup_insert_ne.
Ltac fin :=
  try split_and!; try done; try others; intros;
  repeat match goal with H : _ !! _ = _ |- _ => progress (rewrite ?H in *) end;
  rewrite ?lookup_insert_eq in *; simplify_eq/=; eauto.

#[global] Program Instance disk_laws : storage_laws disk := {| file_of := d_file_of |}.
Next Obligation. run_disk; fin. Qed.
Next Obligation. run_disk; done. Qed.
Next Obligation.
  run_disk; try done; split; try done; apply bool_decide_ext. all: by rewrite fmap_is_Some.
Qed.
Next Obligation.
  run_disk; fin.
  all: rewrite ?lookup_insert_ne, ?lookup_delete_eq, ?lookup_delete_ne by done; done.
Qed.
Next Obligation.
  run_disk; try done.
  all: intros q; simpl; rewrite map_lookup_imap;
    destruct (entries _ !! q); simpl; [by case_decide|done].
Qed.
Next Obligation. run_disk; fin. Qed.
Next Obligation. run_disk; fin.
  all: eexists; split_and!; [done..|]; pose proof (size_nonneg (drop (Z.to_nat off) (visible a)));
    rewrite size_take in *; match goal with H : Z.ltb _ _ = false |- _ => apply Z.ltb_ge in H; lia end.
Qed.
Next Obligation. run_disk; fin. Qed.
Next Obligation.
  run_disk; fin; rewrite ?write_at_end.
  1, 2: by eexists. right. do 2 eexists. done.
Qed.
Next Obligation. run_disk; fin. Qed.
Next Obligation.
  run_disk; try done. all: intros q; simpl; rewrite lookup_insert; case_decide; by simplify_map_eq.
Qed.
Next Obligation.
  run_disk; try done. all: intros q; simpl; rewrite lookup_insert; case_decide; by simplify_map_eq.
Qed.

Definition d_reliable (d : disk) : Prop := schedule d = [].
#[global] Program Instance disk_reliable : storage_reliable disk := {| reliable := d_reliable |}.
Ltac run_reliable :=
  intros; unfold d_reliable in *; simpl in *; unfold d_file_of in *;
  repeat match goal with
         | H : is_Some (_ <$> _) |- _ => rewrite fmap_is_Some in H; destruct H
         | H : _ <$> _ = Some _ |- _ => apply fmap_Some in H as (? & ? & ?)
         | H : _ ∨ _ |- _ => destruct H
         end;
  run_disk; simplify_eq/=; try congruence; eauto.
Solve Obligations with run_reliable. 
Next Obligation.
  run_reliable. exfalso. rewrite Z.ltb_lt, size_take, size_drop in *. lia.
Qed.
End Disk.
