(* ===== verification/NativeFile.v ===== *)
(** * The native storage on POSIX: [native_file.hpp], [native_storage_backend.hpp], [io_error.hpp].

    The system calls are an interface, [posix], over the state [K] of the kernel and the process;
    [posix_laws] states what their manual pages promise.  The loops that read and write whole
    ranges go on after short transfers, of which there are at most as many as bytes, and after
    interruptions, to which nothing sets a bound: the loops take as fuel how many calls they may
    make, and the theorems count the calls that were interrupted. *)
From S2P Require Import Prelude.
From S2P Require Import Storage.
#[local] Open Scope Z_scope.

(** ** System calls *)
Inductive open_flag := O_RDWR | O_RDONLY | O_CREAT | O_CLOEXEC | O_DIRECTORY.
(** Each call gives what it returns; [pread] gives the bytes it put into the buffer, as many as it
    returns, or nothing for -1, and [fstat] the size with its return value. *)
Class posix (K : Type) := {
  sys_open : string → list open_flag → K → Z * K;
  sys_close : Z → K → Z * K;
  sys_fstat : Z → K → (Z * Z) * K;
  sys_pread : Z → Z → Z → K → option (list byte) * K;
  sys_pwrite : Z → list byte → Z → K → Z * K;
  sys_ftruncate : Z → Z → K → Z * K;
  sys_fdatasync : Z → K → Z * K;
  sys_fsync : Z → K → Z * K;
  sys_rename : string → string → K → Z * K;
  errno : K → Z;
  set_errno : Z → K → K;
  strerror : Z → string;
  EINTR : Z;
  (** [std::filesystem], with the message of the error code when there is one. *)
  fs_create_directories : string → K → option string * K;
  fs_exists : string → K → (bool * option string) * K;
  fs_remove : string → K → option string * K
}.

(** [static_cast<off_t>] *)
Definition off_t (z : Z) : Z := if u64 z <? 2 ^ 63 then u64 z else u64 z - u64_bound.

Record native_file := NativeFile { nf_path : string; nf_fd : Z }.

Section native.
Context {K : Type} `{posix K}.
Definition call {A} (f : K → A * K) : M K A := λ k, let '(a, k') := f k in (Ok a, k').
Definition io_error {A} (operation path : string) : M K A :=
  k ← get; throw (storage_error (operation +:+ " failed for " +:+ path +:+ ": " +:+ strerror (errno k))).
(** [if (call(...) != 0) io_error(...)] *)
Definition must {A} (operation path : string) (rc : Z) (m : M K A) : M K A :=
  if negb (rc =? 0) then io_error operation path else m.

(** ** native_file *)
Definition native_open (path : string) (create : bool) : M K native_file :=
  fd ← call (sys_open path ([O_RDWR; O_CLOEXEC] ++ if create then [O_CREAT] else []));
  if fd <? 0 then io_error "open" path else mret (NativeFile path fd).
Definition native_destroy (f : native_file) : M K unit :=
  if nf_fd f >=? 0 then _ ← call (sys_close (nf_fd f)); mret tt else mret tt.
Definition native_size (f : native_file) : M K Z :=
  st ← call (sys_fstat (nf_fd f));
  must "fstat" (nf_path f) st.1 (mret (u64 st.2)).
(** The loop of [read_exact]; [out] is what the buffer holds already. *)
Fixpoint read_loop (fuel : nat) (f : native_file) (offset n : Z) (out : list byte) : M K (list byte) :=
  if size out <? n then
    match fuel with
    | O => throw out_of_fuel
    | S fuel =>
        rc ← call (sys_pread (nf_fd f) (n - size out) (off_t (offset + size out)));
        match rc with
        | Some [] => throw (corruption_error ("unexpected EOF while reading " +:+ nf_path f))
        | Some bytes => read_loop fuel f offset n (out ++ bytes)
        | None =>
            k ← get;
            if errno k =? EINTR then read_loop fuel f offset n out else io_error "pread" (nf_path f)
        end
    end
  else mret out.
Definition native_read_exact (fuel : nat) (f : native_file) (offset n : Z) : M K (list byte) :=
  read_loop fuel f offset n [].
(** The loop of [write_exact]; [done_] bytes are written. *)
Fixpoint write_loop (fuel : nat) (f : native_file) (offset : Z) (data : list byte) (done_ : Z) : M K unit :=
  if done_ <? size data then
    match fuel with
    | O => throw out_of_fuel
    | S fuel =>
        rc ← call (sys_pwrite (nf_fd f) (drop (Z.to_nat done_) data) (off_t (offset + done_)));
        if rc <? 0 then
          k ← get;
          if errno k =? EINTR then write_loop fuel f offset data done_ else io_error "pwrite" (nf_path f)
        else if rc =? 0 then throw (storage_error ("zero-byte pwrite to " +:+ nf_path f))
        else write_loop fuel f offset data (done_ + rc)
    end
  else mret tt.
Definition native_write_exact (fuel : nat) (f : native_file) (offset : Z) (data : list byte) : M K unit :=
  write_loop fuel f offset data 0.
Definition native_append (fuel : nat) (f : native_file) (data : list byte) : M K Z :=
  off ← native_size f; _ ← native_write_exact fuel f off data; mret off.
Definition native_truncate (f : native_file) (new_size : Z) : M K unit :=
  rc ← call (sys_ftruncate (nf_fd f) (off_t new_size)); must "ftruncate" (nf_path f) rc (mret tt).
Definition native_flush_data (f : native_file) : M K unit :=
  rc ← call (sys_fdatasync (nf_fd f)); must "fdatasync" (nf_path f) rc (mret tt).
Definition native_flush_all (f : native_file) : M K unit :=
  rc ← call (sys_fsync (nf_fd f)); must "fsync" (nf_path f) rc (mret tt).

(** ** native_storage_backend *)
Definition native_create_directories (path : string) : M K unit :=
  ec ← call (fs_create_directories path);
  match ec with Some message => throw (storage_error ("create_directories failed: " +:+ message)) | None => mret tt end.
Definition native_exists (path : string) : M K bool :=
  r ← call (fs_exists path);
  match r.2 with Some message => throw (storage_error ("exists failed: " +:+ message)) | None => mret r.1 end.
Definition native_atomic_replace (from to : string) : M K unit :=
  rc ← call (sys_rename from to); must "rename" to rc (mret tt).
Definition native_remove_file (path : string) : M K unit :=
  ec ← call (fs_remove path);
  match ec with Some message => throw (storage_error ("remove failed: " +:+ message)) | None => mret tt end.
Definition native_sync_directory (directory : string) : M K unit :=
  fd ← call (sys_open directory [O_RDONLY; O_DIRECTORY; O_CLOEXEC]);
  if fd <? 0 then io_error "open directory" directory
  else
    rc ← call (sys_fsync fd);
    k ← get;
    let saved := errno k in
    _ ← call (sys_close fd);
    if negb (rc =? 0) then _ ← modify (set_errno saved); io_error "fsync directory" directory
    else mret tt.
End native.

(** ** What the system calls promise *)
Class posix_laws (K : Type) `{posix K} := {
  (** The open descriptors, the file behind each, and the bytes of a file. *)
  file_behind : K → gmap Z Z;
  bytes_in : K → Z → list byte;
  same_open (k k' : K) : Prop := file_behind k' = file_behind k ∧ ∀ i, bytes_in k' i = bytes_in k i;
  changes (i : Z) (c : list byte) (k k' : K) : Prop :=
    file_behind k' = file_behind k ∧ bytes_in k' i = c ∧ ∀ j, j ≠ i → bytes_in k' j = bytes_in k j;
  open_law path flags k : let '(fd, k') := sys_open path flags k in
    (fd < 0 → same_open k k') ∧
    (0 ≤ fd → file_behind k !! fd = None ∧ ∃ i, file_behind k' = <[fd := i]> (file_behind k)) ∧
    (∀ fd i, file_behind k !! fd = Some i → bytes_in k' i = bytes_in k i);
  close_law fd k : file_behind (sys_close fd k).2 = delete fd (file_behind k);
  fstat_law fd i k : file_behind k !! fd = Some i → let '((rc, n), k') := sys_fstat fd k in
    same_open k k' ∧ (rc = 0 → n = size (bytes_in k i));
  pread_law fd i n off k : file_behind k !! fd = Some i → 0 < n → 0 ≤ off →
    let '(r, k') := sys_pread fd n off k in same_open k k' ∧
    match r with
    | Some bs => bs `prefix_of` take (Z.to_nat n) (drop (Z.to_nat off) (bytes_in k i)) ∧
                 (bs = [] → size (bytes_in k i) ≤ off)
    | None => True
    end;
  pwrite_law fd i data off k : file_behind k !! fd = Some i → data ≠ [] → 0 ≤ off →
    let '(rc, k') := sys_pwrite fd data off k in
    if rc <=? 0 then same_open k k'
    else rc ≤ size data ∧ changes i (write_at (bytes_in k i) off (take (Z.to_nat rc) data)) k k';
  ftruncate_law fd i n k : file_behind k !! fd = Some i → 0 ≤ n → let '(rc, k') := sys_ftruncate fd n k in
    if rc =? 0 then changes i (truncate_to (bytes_in k i) n) k k' else same_open k k';
  fsync_law fd k : same_open k (sys_fsync fd k).2;
  set_errno_law e k : same_open k (set_errno e k) ∧ errno (set_errno e k) = e
}.
