(* ===== verification/Journal.v ===== *)
(** * The write-ahead journal: [detail/journal.hpp] and the formats it uses
    ([detail/journal_format.hpp], [make_record.hpp], [encode_update.hpp], [decode_update.hpp]). *)
From S2P Require Import Prelude.
From S2P Require Import Binary.
From S2P Require Import Storage.

(** ** Data *)

(** [durability_mode.hpp] *)
Inductive durability_mode := strict | relaxed.
#[export] Instance durability_mode_eq_dec : EqDecision durability_mode.
Proof. solve_decision. Defined.

(** [detail/source.hpp], [detail/loc.hpp], [detail/root_record.hpp] *)
Inductive source := src_snapshot | src_journal.
#[export] Instance source_eq_dec : EqDecision source.
Proof. solve_decision. Defined.
Record loc := Loc { l_kind : source; l_offset : Z; l_size : Z; l_checksum : Z }.
Record root_record := RootRecord { rr_version : Z; rr_type : string; rr_payload : loc }.
#[export] Instance loc_eq_dec : EqDecision loc.
Proof. solve_decision. Defined.
#[export] Instance root_record_eq_dec : EqDecision root_record.
Proof. solve_decision. Defined.

(** [detail/root_update.hpp], [detail/encoded_update.hpp], [detail/recovered_update.hpp] *)
Record root_update := RootUpdate {
  u_name : string; u_expected : Z; u_new : Z; u_type : string; u_payload : list byte }.
Record encoded_update := EncodedUpdate { e_bytes : list byte; e_payload_offset : Z }.
Record recovered_update := RecoveredUpdate {
  v_name : string; v_expected : Z; v_new : Z; v_type : string; v_payload : loc }.

(** [detail/record_type.hpp]: an [enum class : uint16_t], whose values may be any [uint16]. *)
Definition rt_begin : Z := 1.
Definition rt_root_update : Z := 2.
Definition rt_commit : Z := 3.

(** [detail/journal_format.hpp] *)
Definition record_magic : Z := 0x4f504a52.
Definition record_format : Z := 1.
Definition prefix_size : Z := 4 + 8.
Definition body_prefix_size : Z := 2 + 2 + 8 + 8 + 8.
Definition max_frame_size : Z := 2 ^ 40.

(** ** Records *)
Definition record_body (type sequence transaction : Z) (payload : list byte) : writer :=
  scalar 2 record_format ++ scalar 2 type ++ scalar 8 sequence ++ scalar 8 transaction ++
  scalar 8 (size payload) ++ payload.
Definition make_record (type sequence transaction : Z) (payload : list byte)
    (checksums : bool) : list byte :=
  let body := record_body type sequence transaction payload in
  let checksum := if checksums then crc32c body else 0 in
  scalar 4 record_magic ++ scalar 8 (size body + 4) ++ body ++ scalar 4 checksum.

Definition encode_update (update : root_update) : encoded_update :=
  let w := w_string (u_name update) ++ scalar 8 (u_expected update) ++ scalar 8 (u_new update) ++
           w_string (u_type update) ++ scalar 8 (size (u_payload update)) in
  EncodedUpdate (w ++ u_payload update) (size w).

Definition decode_update_reader (total file_payload_offset : Z) : M reader recovered_update :=
  name ← r_string;
  expected_version ← r_scalar 8;
  new_version ← r_scalar 8;
  type ← r_string;
  count ← r_scalar 8;
  r ← get;
  if count >? remaining r then
    throw (corruption_error "journal root payload length exceeds record")
  else
    let payload_offset := total - remaining r in
    payload ← r_bytes count;
    r ← get;
    if negb (eof r) then throw (corruption_error "journal root update has trailing bytes")
    else mret (RecoveredUpdate name expected_version new_version type
                 (Loc src_journal (file_payload_offset + payload_offset) count (crc32c payload))).
Definition decode_update (bytes : list byte) (file_payload_offset : Z) : result recovered_update :=
  run (decode_update_reader (size bytes) file_payload_offset) bytes.

(** ** Recovery *)
Record pending_transaction := Pending { p_updates : list recovered_update; p_began : bool }.
(** What the loop of [journal::recover] carries: the result under construction, the pending
    transactions, and the two file positions. *)
Record scan := Scan {
  s_roots : gmap string root_record;
  s_last_sequence : Z;
  s_records : Z;
  s_pending : gmap Z pending_transaction;
  s_offset : Z;
  s_last_good : Z
}.
Record recovery_result := RecoveryResult {
  r_roots : gmap string root_record; r_last_sequence : Z; r_records : Z; r_valid_bytes : Z }.

Definition initial_scan (base : gmap string root_record) (snapshot_sequence : Z) : scan :=
  Scan base snapshot_sequence 0 ∅ 0 0.

(** The fields of a frame, in the order they are read and checked. *)
Definition read_prefix : M reader Z :=
  magic ← r_scalar 4;
  if negb (magic =? record_magic) then throw (corruption_error "journal magic mismatch")
  else
    frame_size ← r_scalar 8;
    if (frame_size <? 4) || (frame_size >? max_frame_size)
    then throw (corruption_error "journal record length is invalid")
    else mret frame_size.
Definition read_body : M reader (Z * Z * Z * list byte) :=
  format ← r_scalar 2;
  if negb (format =? record_format) then throw (corruption_error "unsupported journal format")
  else
    type ← r_scalar 2;
    sequence ← r_scalar 8;
    transaction ← r_scalar 8;
    payload_size ← r_scalar 8;
    r ← get;
    if payload_size >? remaining r then throw (corruption_error "journal payload length mismatch")
    else
      payload ← r_bytes payload_size;
      r ← get;
      if negb (eof r) then throw (corruption_error "journal record has trailing bytes")
      else mret (type, sequence, transaction, payload).
Definition read_frame (checksums : bool) (frame : list byte) : result (Z * Z * Z * list byte) :=
  if size frame <? 4 then Throw (corruption_error "journal record too small")
  else
    let body_size := Z.to_nat (size frame - 4) in
    stored_checksum ← run (r_scalar 4) (drop body_size frame);
    let body := take body_size frame in
    if checksums && negb (stored_checksum =? crc32c body)
    then Throw (corruption_error "journal checksum mismatch")
    else run read_body body.

Definition version_of (roots : gmap string root_record) (name : string) : Z :=
  default 0 (rr_version <$> roots !! name).

(** One update of a committed transaction, and all of them. *)
Definition apply_update (update : recovered_update) (roots : gmap string root_record)
    : result (gmap string root_record) :=
  let current_version := version_of roots (v_name update) in
  if v_new update <=? current_version then Ok roots
  else if negb (current_version =? v_expected update)
  then Throw (corruption_error ("journal root version chain mismatch for " +:+ v_name update))
  else Ok (<[v_name update := RootRecord (v_new update) (v_type update) (v_payload update)]> roots).
Fixpoint apply_updates (updates : list recovered_update) (roots : gmap string root_record)
    : result (gmap string root_record) :=
  match updates with
  | [] => Ok roots
  | update :: updates => roots ← apply_update update roots; apply_updates updates roots
  end.

Definition pending_of (pending : gmap Z pending_transaction) (tx : Z) : pending_transaction :=
  default (Pending [] false) (pending !! tx).

(** The [switch] on the record type: the new roots and pending transactions. *)
Definition process_record (type transaction : Z) (payload : list byte) (offset : Z)
    (roots : gmap string root_record) (pending : gmap Z pending_transaction)
    : result (gmap string root_record * gmap Z pending_transaction) :=
  let entry := pending_of pending transaction in
  if type =? rt_begin then
    Ok (roots, <[transaction := Pending (p_updates entry) true]> pending)
  else if type =? rt_root_update then
    if negb (p_began entry) then Throw (corruption_error "root update without BEGIN")
    else
      update ← decode_update payload (offset + prefix_size + body_prefix_size);
      Ok (roots, <[transaction := Pending (p_updates entry ++ [update]) true]> pending)
  else if type =? rt_commit then
    match pending !! transaction with
    | Some (Pending updates true) =>
        expected_count ← run (n ← r_scalar 8; r ← get; mret (n, eof r)) payload;
        if negb expected_count.2 || negb (expected_count.1 =? size updates)
        then Throw (corruption_error "COMMIT update count mismatch")
        else roots ← apply_updates updates roots; Ok (roots, delete transaction pending)
    | _ => Throw (corruption_error "COMMIT without BEGIN")
    end
  else Throw (corruption_error "unknown journal record type").

(** A complete frame: everything the loop body does after reading it from the file. *)
Definition process_frame (checksums : bool) (snapshot_sequence : Z) (frame : list byte) (s : scan)
    : result scan :=
  fields ← read_frame checksums frame;
  let '(type, sequence, transaction, payload) := fields in
  if (sequence <=? s_last_sequence s) && (sequence >? snapshot_sequence)
  then Throw (corruption_error "journal sequence is not strictly increasing")
  else
    state ← process_record type transaction payload (s_offset s) (s_roots s) (s_pending s);
    let offset := s_offset s + (prefix_size + size frame) in
    Ok (Scan state.1 (Z.max (s_last_sequence s) sequence) (s_records s + 1) state.2 offset offset).

(** [journal]: the fixed fields; [last_sequence_] is the first half of the state. *)
Record journal := Journal { j_path : string; j_durability : durability_mode; j_checksums : bool }.

Section journal_operations.
Context {W : Type} `{storage W} (j : journal).

(** One turn of the loop; [None] is [break]. *)
Definition recover_step (snapshot_sequence file_size : Z) (s : scan) : M W (option scan) :=
  if file_size - s_offset s <? prefix_size then mret None
  else
    prefix ← read_exact (j_path j) (s_offset s) prefix_size;
    frame_size ← lift_result (run read_prefix prefix);
    if frame_size >? file_size - s_offset s - prefix_size then mret None
    else
      frame ← read_exact (j_path j) (s_offset s + prefix_size) frame_size;
      s' ← lift_result (process_frame (j_checksums j) snapshot_sequence frame s);
      mret (Some s').
Fixpoint recover_loop (fuel : nat) (snapshot_sequence file_size : Z) (s : scan) : M W scan :=
  if s_offset s <? file_size then
    match fuel with
    | O => throw out_of_fuel
    | S fuel =>
        next ← recover_step snapshot_sequence file_size s;
        match next with
        | None => mret s
        | Some s' => recover_loop fuel snapshot_sequence file_size s'
        end
    end
  else mret s.

(** [journal::recover]; every turn advances the offset, so as many turns as the file has
    bytes are enough. *)
Definition recover (base : gmap string root_record) (snapshot_sequence : Z)
    (truncate_torn_tail : bool) : M (Z * W) recovery_result :=
  n ← on_snd (file_size (j_path j));
  s ← on_snd (recover_loop (Z.to_nat n) snapshot_sequence n
                (initial_scan base snapshot_sequence));
  _ ← when (truncate_torn_tail && negb (s_last_good s =? n))
        (_ ← on_snd (truncate (j_path j) (s_last_good s));
         when (bool_decide (j_durability j = strict)) (on_snd (flush_all (j_path j))));
  _ ← on_fst (put (s_last_sequence s));
  mret (RecoveryResult (s_roots s) (s_last_sequence s) (s_records s) (s_last_good s)).

(** The records [journal::append] puts in its batch, numbered from [seq + 1], with the
    locators of the payloads relative to the start of the batch. *)
Definition next_sequence (seq : Z) : Z := u64 (seq + 1).
Fixpoint append_updates (tx seq : Z) (updates : list root_update) (batch : list byte)
    : Z * list byte * list loc :=
  match updates with
  | [] => (seq, batch, [])
  | update :: updates =>
      let encoded := encode_update update in
      let record_start := size batch in
      let seq := next_sequence seq in
      let batch := batch ++ make_record rt_root_update seq tx (e_bytes encoded) (j_checksums j) in
      let where_ := Loc src_journal
                      (record_start + prefix_size + body_prefix_size + e_payload_offset encoded)
                      (size (u_payload update)) (crc32c (u_payload update)) in
      let '(seq, batch, locations) := append_updates tx seq updates batch in
      (seq, batch, where_ :: locations)
  end.
Definition build_batch (tx seq : Z) (updates : list root_update) : Z * list byte * list loc :=
  let seq := next_sequence seq in
  let batch := make_record rt_begin seq tx [] (j_checksums j) in
  let '(seq, batch, locations) := append_updates tx seq updates batch in
  let seq := next_sequence seq in
  (seq, batch ++ make_record rt_commit seq tx (scalar 8 (size updates)) (j_checksums j), locations).
Definition shift_loc (off : Z) (l : loc) : loc :=
  Loc (l_kind l) (l_offset l + off) (l_size l) (l_checksum l).

(** [journal::append] *)
Definition journal_append (tx : Z) (updates : list root_update) : M (Z * W) (list loc) :=
  seq ← on_fst get;
  let '(seq', batch, locations) := build_batch tx seq updates in
  _ ← on_fst (put seq');
  append_offset ← on_snd (append (j_path j) batch);
  _ ← when (bool_decide (j_durability j = strict)) (on_snd (flush_data (j_path j)));
  mret (shift_loc append_offset <$> locations).

(** [journal::read], [journal::load], [journal::reset] *)
Definition journal_read (where_ : loc) (offset count : Z) : M W (list byte) :=
  if negb (bool_decide (l_kind where_ = src_journal))
  then throw (storage_error "journal read with non-journal locator")
  else if (offset >? l_size where_) || (count >? l_size where_ - offset)
  then throw (corruption_error "journal payload read exceeds locator")
  else read_exact (j_path j) (l_offset where_ + offset) count.
Definition journal_load (where_ : loc) : M W (list byte) :=
  if l_size where_ >? u64_bound - 1
  then throw (storage_error "journal payload is too large for this process")
  else
    bytes ← journal_read where_ 0 (l_size where_);
    if j_checksums j && negb (crc32c bytes =? l_checksum where_)
    then throw (corruption_error "journal payload checksum mismatch")
    else mret bytes.
Definition journal_reset : M W unit :=
  _ ← truncate (j_path j) 0;
  when (bool_decide (j_durability j = strict)) (flush_all (j_path j)).
End journal_operations.
