(* ===== verification/Recovery.v ===== *)
(** * What recovery computes: the scan of [journal::recover] as a function of the file contents.

    The loop of [journal::recover] reads a file in pieces.  This file shows that it computes
    [scan_all], a function of the contents alone, and studies that function: a file made of
    complete records is replayed record by record ([replay]), a torn tail is ignored, and
    replaying a journal over a snapshot that already contains its effects changes nothing. *)
From S2P Require Import Prelude.
From S2P Require Import Binary.
From S2P Require Import Codec.
From S2P Require Import Storage.
From S2P Require Import Journal.

(** ** The scan as a function of the contents *)
Section scanning.
Context (checksums : bool) (snapshot_sequence : Z).

Definition scan_step (c : list byte) (s : scan) : result (option scan) :=
  if size c - s_offset s <? prefix_size then Ok None
  else
    frame_size ← run read_prefix (slice c (s_offset s) prefix_size);
    if frame_size >? size c - s_offset s - prefix_size then Ok None
    else
      s' ← process_frame checksums snapshot_sequence
             (slice c (s_offset s + prefix_size) frame_size) s;
      Ok (Some s').
Fixpoint scan_loop (fuel : nat) (c : list byte) (s : scan) : result scan :=
  if s_offset s <? size c then
    match fuel with
    | O => Throw out_of_fuel
    | S fuel =>
        next ← scan_step c s;
        match next with
        | None => Ok s
        | Some s' => scan_loop fuel c s'
        end
    end
  else Ok s.
Definition scan_all (c : list byte) (s : scan) : result scan :=
  scan_loop (Z.to_nat (size c - s_offset s)) c s.

Lemma process_frame_inv frame s s' :
  process_frame checksums snapshot_sequence frame s = Ok s' →
  s_offset s' = s_offset s + (prefix_size + size frame) ∧ s_last_good s' = s_offset s'.
Proof.
  unfold process_frame. intros ([[[ty sq] tx] pl] & _ & H)%bind_result_ok.
  case_match; [done|]. apply bind_result_ok in H as ([r p] & _ & [= <-]). done.
Qed.
Lemma read_prefix_inv p n : run read_prefix p = Ok n → 4 ≤ n ≤ max_frame_size.
Proof.
  unfold run. destruct (read_prefix p) as [[z|e] r] eqn:E; simpl; [intros [= ->]|done].
  unfold read_prefix in E. m_inv E. case_match; [done|]. m_inv E.
  case_match eqn:Ec; [done|]. injection E as <- <-.
  apply orb_false_iff in Ec as [Ec1%Z.ltb_ge Ec2]. rewrite Z.gtb_ltb in Ec2.
  apply Z.ltb_ge in Ec2. done.
Qed.
Lemma scan_step_inv c s s' :
  scan_step c s = Ok (Some s') → 0 ≤ s_offset s →
  s_offset s + 16 ≤ s_offset s' ≤ size c ∧ s_last_good s' = s_offset s'.
Proof.
  unfold scan_step. destruct (Z.ltb_spec (size c - s_offset s) prefix_size); [done|].
  intros (n & Hn%read_prefix_inv & H1)%bind_result_ok Ho.
  destruct (Z.gtb_spec n (size c - s_offset s - prefix_size)); [done|].
  apply bind_result_ok in H1 as (s1 & Hp & [= ->]).
  apply process_frame_inv in Hp as [Hp ?]. unfold prefix_size in *. split; [|done].
  rewrite Hp, size_slice; lia.
Qed.

(** More fuel changes nothing, and the fuel of [scan_all] is enough. *)
Lemma scan_loop_fuel fuel fuel' c s :
  0 ≤ s_offset s → size c - s_offset s ≤ Z.of_nat fuel → size c - s_offset s ≤ Z.of_nat fuel' →
  scan_loop fuel c s = scan_loop fuel' c s.
Proof.
  revert fuel' s. induction fuel as [|fuel IH]; intros [|fuel'] s Ho H1 H2; simpl;
    destruct (Z.ltb_spec (s_offset s) (size c)); try done; try lia.
  destruct (scan_step c s) as [[s'|]|e] eqn:E; simpl; try done.
  apply scan_step_inv in E as [? _]; [|done]. apply IH; lia.
Qed.
Lemma scan_all_unfold c s :
  0 ≤ s_offset s →
  scan_all c s = if s_offset s <? size c then
                   next ← scan_step c s;
                   match next with None => Ok s | Some s' => scan_all c s' end
                 else Ok s.
Proof.
  intros Ho. unfold scan_all at 1. destruct (Z.to_nat _) as [|n] eqn:En; simpl.
  - destruct (Z.ltb_spec (s_offset s) (size c)); [lia|done].
  - destruct (scan_step c s) as [[s'|]|e] eqn:E; simpl; try done.
    apply scan_step_inv in E as [? _]; [|done].
    destruct (Z.ltb_spec (s_offset s) (size c)); [|done]. apply scan_loop_fuel; lia.
Qed.

Definition stepped (c : list byte) : relation scan := λ s s', scan_step c s = Ok (Some s').
Lemma stepped_inv c s s' :
  rtc (stepped c) s s' → 0 ≤ s_offset s →
  s_offset s ≤ s_offset s' ∧ (s_offset s ≤ size c → s_offset s' ≤ size c).
Proof.
  induction 1 as [|s1 s2 s3 H1 _ IH]; intros Ho; [lia|].
  apply scan_step_inv in H1; [|done]. lia.
Qed.
Lemma scan_all_steps c s s' :
  rtc (stepped c) s s' → 0 ≤ s_offset s → scan_all c s = scan_all c s'.
Proof.
  induction 1 as [|s1 s2 s3 H1 _ IH]; intros Ho; [done|].
  rewrite scan_all_unfold by done. pose proof (scan_step_inv _ _ _ H1 Ho).
  destruct (Z.ltb_spec (s_offset s1) (size c)); [|lia].
  rewrite H1. simpl. apply IH. lia.
Qed.
Lemma scan_all_ok c s s' :
  scan_all c s = Ok s' → 0 ≤ s_offset s →
  rtc (stepped c) s s' ∧ (s_offset s' < size c → scan_step c s' = Ok None).
Proof.
  unfold scan_all. generalize (Z.to_nat (size c - s_offset s)). intros fuel. revert s.
  induction fuel as [|fuel IH]; intros s; simpl;
    destruct (Z.ltb_spec (s_offset s) (size c)); try done.
  1, 3: intros [= ->] ?; split; [apply rtc_refl|lia].
  destruct (scan_step c s) as [[s1|]|e] eqn:E; simpl; try done.
  - intros H1 Ho. pose proof (scan_step_inv _ _ _ E Ho).
    destruct (IH s1 H1 ltac:(lia)). split; [by eapply rtc_l|done].
  - intros [= ->] _. split; [apply rtc_refl|done].
Qed.

(** Bytes after a record do not affect its processing. *)
Lemma scan_step_app c x s s' :
  scan_step c s = Ok (Some s') → 0 ≤ s_offset s → scan_step (c ++ x) s = Ok (Some s').
Proof.
  unfold scan_step. rewrite size_app. pose proof (size_nonneg x). intros H1 Ho. revert H1.
  destruct (Z.ltb_spec (size c - s_offset s) prefix_size); [done|].
  destruct (Z.ltb_spec (size c + size x - s_offset s) prefix_size); [lia|].
  assert (0 ≤ prefix_size) by done. rewrite slice_app_l by lia.
  intros (n & Hn & Hrest)%bind_result_ok. rewrite Hn. apply read_prefix_inv in Hn. simpl.
  revert Hrest.
  destruct (Z.gtb_spec n (size c - s_offset s - prefix_size)); [done|].
  destruct (Z.gtb_spec n (size c + size x - s_offset s - prefix_size)); [lia|].
  by rewrite slice_app_l by lia.
Qed.
Lemma stepped_app c x s s' :
  rtc (stepped c) s s' → 0 ≤ s_offset s → rtc (stepped (c ++ x)) s s'.
Proof.
  induction 1 as [|s1 s2 s3 H1 _ IH]; intros Ho; [apply rtc_refl|].
  eapply rtc_l; [by apply scan_step_app|]. apply scan_step_inv in H1; [|done]. apply IH. lia.
Qed.
(** A fully scanned prefix can be dropped. *)
Lemma scan_all_app c x s s' :
  scan_all c s = Ok s' → 0 ≤ s_offset s → s_offset s' = size c →
  scan_all (c ++ x) s = scan_all (c ++ x) s'.
Proof.
  intros H1 Ho Hs. apply scan_all_steps; [|done].
  apply stepped_app; [|done]. by apply scan_all_ok.
Qed.
End scanning.

(** ** Complete records *)
Record log_record := LogRecord {
  lr_type : Z; lr_sequence : Z; lr_transaction : Z; lr_payload : list byte }.
Definition log_frame (checksums : bool) (r : log_record) : list byte :=
  make_record (lr_type r) (lr_sequence r) (lr_transaction r) (lr_payload r) checksums.
Definition log_bytes (checksums : bool) (l : list log_record) : list byte :=
  flat_map (log_frame checksums) l.
(** The records recovery accepts back: fields of their widths, within the frame limit. *)
Definition wf_record (r : log_record) : Prop :=
  0 ≤ lr_type r < 2 ^ 16 ∧ is_u64 (lr_sequence r) ∧ is_u64 (lr_transaction r) ∧
  size (lr_payload r) + 32 ≤ max_frame_size.

Definition body_of (r : log_record) : list byte :=
  record_body (lr_type r) (lr_sequence r) (lr_transaction r) (lr_payload r).
Definition checksum_of (checksums : bool) (r : log_record) : Z :=
  if checksums then crc32c (body_of r) else 0.
(** What follows the twelve bytes of magic and length. *)
Definition frame_of (checksums : bool) (r : log_record) : list byte :=
  body_of r ++ scalar 4 (checksum_of checksums r).
Definition prefix_of_record (r : log_record) : list byte :=
  scalar 4 record_magic ++ scalar 8 (size (body_of r) + 4).

Lemma size_body_of r : size (body_of r) = 28 + size (lr_payload r).
Proof. unfold body_of, record_body. autorewrite with size. lia. Qed.
Lemma size_frame_of ck r : size (frame_of ck r) = 32 + size (lr_payload r).
Proof. unfold frame_of. autorewrite with size. rewrite size_body_of. lia. Qed.
Lemma size_prefix_of_record r : size (prefix_of_record r) = prefix_size.
Proof. unfold prefix_of_record. by autorewrite with size. Qed.
Lemma log_frame_eq ck r : log_frame ck r = prefix_of_record r ++ frame_of ck r.
Proof.
  unfold log_frame, make_record, prefix_of_record, frame_of, checksum_of, body_of.
  by rewrite <- !app_assoc.
Qed.
Lemma size_log_frame ck r : size (log_frame ck r) = 44 + size (lr_payload r).
Proof. rewrite log_frame_eq, size_app, size_prefix_of_record, size_frame_of. unfold prefix_size. lia. Qed.
#[export] Hint Rewrite size_body_of size_frame_of size_prefix_of_record size_log_frame : size.

Lemma read_prefix_of_record r :
  wf_record r → run read_prefix (prefix_of_record r) = Ok (size (lr_payload r) + 32).
Proof.
  intros (_ & _ & _ & Hp). unfold run, read_prefix, prefix_of_record. rewrite size_body_of.
  pose proof (size_nonneg (lr_payload r)). unfold max_frame_size in *.
  m_run (r_scalar_scalar 4 record_magic (scalar 8 (28 + size (lr_payload r) + 4))).
  change (record_magic `mod` 2 ^ (8 * Z.of_nat 4)) with record_magic. rewrite Z.eqb_refl. simpl.
  assert (is_u64 (28 + size (lr_payload r) + 4)) as Hu by (unfold is_u64, u64_bound; lia).
  m_run (r_scalar_u64_all _ Hu).
  destruct (Z.ltb_spec (28 + size (lr_payload r) + 4) 4); [lia|].
  unfold max_frame_size. destruct (Z.gtb_spec (28 + size (lr_payload r) + 4) (2 ^ 40)); [lia|].
  simpl. f_equal. lia.
Qed.

Lemma read_body_of r :
  wf_record r →
  run read_body (body_of r) = Ok (lr_type r, lr_sequence r, lr_transaction r, lr_payload r).
Proof.
  intros (Ht & Hs & Hx & Hp). unfold run, read_body, body_of, record_body.
  assert (is_u64 (size (lr_payload r))) as Hu.
  { pose proof (size_nonneg (lr_payload r)). unfold is_u64, u64_bound, max_frame_size in *. lia. }
  match goal with |- context [scalar 2 record_format ++ ?x] => m_run (r_scalar_scalar 2 record_format x) end.
  change (record_format `mod` 2 ^ (8 * Z.of_nat 2)) with record_format. rewrite Z.eqb_refl. cbn [negb].
  match goal with |- context [scalar 2 (lr_type r) ++ ?x] => m_run (r_scalar_scalar 2 (lr_type r) x) end.
  rewrite (Z.mod_small (lr_type r)) by (simpl; lia).
  match goal with |- context [scalar 8 (lr_sequence r) ++ ?x] => m_run (r_scalar_u64 (lr_sequence r) x Hs) end.
  match goal with |- context [scalar 8 (lr_transaction r) ++ ?x] =>
    m_run (r_scalar_u64 (lr_transaction r) x Hx) end.
  m_run (r_scalar_u64 (size (lr_payload r)) (lr_payload r) Hu).
  unfold get, mbind at 1, M_bind at 1, remaining.
  destruct (Z.gtb_spec (size (lr_payload r)) (size (lr_payload r))); [lia|].
  by m_run (r_bytes_all (lr_payload r)).
Qed.

Lemma read_frame_of ck r :
  wf_record r →
  read_frame ck (frame_of ck r) = Ok (lr_type r, lr_sequence r, lr_transaction r, lr_payload r).
Proof.
  intros Hr. unfold read_frame. pose proof (size_nonneg (lr_payload r)).
  destruct (Z.ltb_spec (size (frame_of ck r)) 4) as [Hlt|_]; [autorewrite with size in Hlt; lia|].
  assert (Z.to_nat (size (frame_of ck r) - 4) = length (body_of r)) as ->.
  { unfold frame_of. autorewrite with size. rewrite <- (Nat2Z.id (length (body_of r))). f_equal.
    fold (size (body_of r)). autorewrite with size. lia. }
  unfold frame_of. rewrite drop_app_length, take_app_length.
  rewrite (run_ok _ _ ((checksum_of ck r) `mod` 2 ^ (8 * Z.of_nat 4)) []).
  2: apply r_scalar_all.
  simpl mbind. unfold checksum_of. destruct ck; simpl andb; [|by apply read_body_of].
  rewrite Z.mod_small by apply (crc32c_u32 (body_of r)). rewrite Z.eqb_refl. by apply read_body_of.
Qed.

(** What a complete, accepted record does to the scan. *)
Definition replay_record (snapshot_sequence : Z) (r : log_record) (s : scan) : result scan :=
  if (lr_sequence r <=? s_last_sequence s) && (lr_sequence r >? snapshot_sequence)
  then Throw (corruption_error "journal sequence is not strictly increasing")
  else
    state ← process_record (lr_type r) (lr_transaction r) (lr_payload r) (s_offset s)
              (s_roots s) (s_pending s);
    let offset := s_offset s + (44 + size (lr_payload r)) in
    Ok (Scan state.1 (Z.max (s_last_sequence s) (lr_sequence r)) (s_records s + 1) state.2
          offset offset).
Fixpoint replay (snapshot_sequence : Z) (l : list log_record) (s : scan) : result scan :=
  match l with
  | [] => Ok s
  | r :: l => s ← replay_record snapshot_sequence r s; replay snapshot_sequence l s
  end.

Lemma process_frame_of ck snap r s :
  wf_record r → process_frame ck snap (frame_of ck r) s = replay_record snap r s.
Proof.
  intros Hr. unfold process_frame. rewrite read_frame_of by done. simpl mbind.
  unfold replay_record. case_match; [done|].
  unfold mbind, result_bind. case_match; [|done].
  autorewrite with size. unfold prefix_size.
  replace (s_offset s + (4 + 8 + (32 + size (lr_payload r)))) with (s_offset s + (44 + size (lr_payload r))) by lia.
  done.
Qed.

Section replaying.
Context (checksums : bool) (snapshot_sequence : Z).

Lemma scan_step_record before r after s :
  wf_record r → s_offset s = size before →
  scan_step checksums snapshot_sequence (before ++ log_frame checksums r ++ after) s =
  (s' ← replay_record snapshot_sequence r s; Ok (Some s')).
Proof.
  intros Hr Ho. pose proof (size_nonneg (lr_payload r)). pose proof (size_nonneg after).
  unfold scan_step. autorewrite with size. rewrite Ho.
  destruct (Z.ltb_spec (size before + (44 + size (lr_payload r) + size after) - size before) prefix_size) as [Hlt|_].
  { unfold prefix_size in *. lia. }
  rewrite log_frame_eq, <- app_assoc. rewrite <- (size_prefix_of_record r) at 1.
  rewrite slice_mid, read_prefix_of_record by done. simpl mbind.
  match goal with |- context [if ?b then _ else _] => destruct b eqn:E end.
  { rewrite Z.gtb_ltb in E. apply Z.ltb_lt in E. unfold prefix_size in *. lia. }
  rewrite (app_assoc before).
  replace (size before + prefix_size) with (size (before ++ prefix_of_record r)) by (by autorewrite with size).
  replace (size (lr_payload r) + 32) with (size (frame_of checksums r)) by (autorewrite with size; lia).
  rewrite slice_mid, process_frame_of by done. done.
Qed.

Lemma replay_record_offset r s s' :
  replay_record snapshot_sequence r s = Ok s' →
  s_offset s' = s_offset s + size (log_frame checksums r) ∧ s_last_good s' = s_offset s'.
Proof.
  unfold replay_record. case_match; [done|]. intros ([? ?] & _ & [= <-])%bind_result_ok.
  autorewrite with size. done.
Qed.

(** A run of complete records is replayed record by record, whatever surrounds it. *)
Lemma stepped_records before l after s s' :
  Forall wf_record l → s_offset s = size before →
  replay snapshot_sequence l s = Ok s' →
  rtc (stepped checksums snapshot_sequence (before ++ log_bytes checksums l ++ after)) s s' ∧
  s_offset s' = size (before ++ log_bytes checksums l).
Proof.
  intros Hl. revert before s. induction Hl as [|r l Hr Hl IH]; intros before s Ho; simpl.
  - intros [= ->]. rewrite app_nil_r. split; [apply rtc_refl|done].
  - intros (s1 & H1 & H2)%bind_result_ok.
    pose proof (replay_record_offset _ _ _ H1) as [Ho1 _].
    rewrite <- app_assoc.
    destruct (IH (before ++ log_frame checksums r) s1) as [Hs Ho'];
      [by rewrite size_app, Ho1, Ho|done|].
    rewrite <- app_assoc in Hs. split.
    + eapply rtc_l; [|exact Hs]. unfold stepped. by rewrite scan_step_record, H1.
    + rewrite Ho'. by rewrite <- app_assoc.
Qed.
Lemma replay_offset l s s' :
  replay snapshot_sequence l s = Ok s' →
  s_offset s' = s_offset s + size (log_bytes checksums l).
Proof.
  revert s. induction l as [|r l IH]; simpl; intros s.
  - intros [= ->]. autorewrite with size. lia.
  - intros (s1 & H1 & H2)%bind_result_ok. apply replay_record_offset in H1 as [H1 _].
    rewrite (IH s1 H2), H1, size_app. lia.
Qed.
Lemma replay_app l k s :
  replay snapshot_sequence (l ++ k) s =
  (s' ← replay snapshot_sequence l s; replay snapshot_sequence k s').
Proof.
  revert s. induction l as [|r l IH]; intros s; simpl; [done|].
  destruct (replay_record snapshot_sequence r s); simpl; [apply IH|done].
Qed.

(** A torn record stops the scan without an error. *)
Lemma scan_step_torn before r k s :
  wf_record r → s_offset s = size before → (k < length (log_frame checksums r))%nat →
  scan_step checksums snapshot_sequence (before ++ take k (log_frame checksums r)) s = Ok None.
Proof.
  intros Hr Ho Hk. unfold scan_step. rewrite size_app, size_take, Ho.
  destruct (Z.ltb_spec (size before + Z.min (Z.of_nat k) (size (log_frame checksums r)) - size before) prefix_size) as [|Hge]; [done|].
  rewrite log_frame_eq in *. rewrite size_app, size_prefix_of_record in *.
  assert (length (prefix_of_record r) = 12%nat) as Hpl.
  { pose proof (size_prefix_of_record r) as Hp. unfold size, prefix_size in Hp. lia. }
  rewrite take_app_ge by (unfold prefix_size in *; lia).
  rewrite <- (size_prefix_of_record r) at 1. rewrite slice_mid, read_prefix_of_record by done.
  simpl mbind. match goal with |- context [if ?b then _ else _] => destruct b eqn:E end; [done|].
  rewrite Z.gtb_ltb in E. apply Z.ltb_ge in E. autorewrite with size in *.
  rewrite length_app in Hk. unfold size, prefix_size in *.
  pose proof (size_frame_of checksums r) as Hf. unfold size in Hf. lia.
Qed.
End replaying.

(** ** Pending transactions and updates *)

(** Replaying looks up a pending transaction and stores it back. *)
Lemma pending_of_insert pending tx p : pending_of (<[tx := p]> pending) tx = p.
Proof. unfold pending_of. by rewrite lookup_insert_eq. Qed.

Definition wf_update (u : root_update) : Prop :=
  is_u64 (u_expected u) ∧ is_u64 (u_new u) ∧
  size (e_bytes (encode_update u)) + 32 ≤ max_frame_size.
(** The update recovery makes of an appended one, given where its payload ended up. *)
Definition recovered_of (u : root_update) (where_ : loc) : recovered_update :=
  RecoveredUpdate (u_name u) (u_expected u) (u_new u) (u_type u) where_.

Lemma size_encode_update u :
  size (e_bytes (encode_update u)) = e_payload_offset (encode_update u) + size (u_payload u) ∧
  e_payload_offset (encode_update u) = 40 + ssize (u_name u) + ssize (u_type u).
Proof. unfold encode_update; simpl. autorewrite with size. lia. Qed.
Lemma ssize_nonneg s : 0 ≤ ssize s.
Proof. unfold ssize. lia. Qed.
#[export] Hint Resolve ssize_nonneg : core.

Lemma wf_update_u64 u :
  wf_update u → is_u64 (ssize (u_name u)) ∧ is_u64 (ssize (u_type u)) ∧ is_u64 (size (u_payload u)).
Proof.
  intros (_ & _ & H). destruct (size_encode_update u) as [E1 E2]. rewrite E1, E2 in H.
  pose proof (ssize_nonneg (u_name u)). pose proof (ssize_nonneg (u_type u)).
  pose proof (size_nonneg (u_payload u)). unfold is_u64, u64_bound, max_frame_size in *. lia.
Qed.

Lemma decode_encode_update u base :
  wf_update u →
  decode_update (e_bytes (encode_update u)) base =
  Ok (recovered_of u (Loc src_journal (base + e_payload_offset (encode_update u))
                          (size (u_payload u)) (crc32c (u_payload u)))).
Proof.
  intros Hu. pose proof (wf_update_u64 u Hu) as (Hn & Ht & Hp). destruct Hu as (He & Hw & _).
  destruct (size_encode_update u) as [Es Eo].
  unfold decode_update, run, decode_update_reader. rewrite Es, Eo.
  unfold encode_update; simpl e_bytes. rewrite <- !app_assoc.
  match goal with |- context [w_string (u_name u) ++ ?x] => m_run (r_string_app (u_name u) x Hn) end.
  match goal with |- context [scalar 8 (u_expected u) ++ ?x] => m_run (r_scalar_u64 (u_expected u) x He) end.
  match goal with |- context [scalar 8 (u_new u) ++ ?x] => m_run (r_scalar_u64 (u_new u) x Hw) end.
  match goal with |- context [w_string (u_type u) ++ ?x] => m_run (r_string_app (u_type u) x Ht) end.
  m_run (r_scalar_u64 (size (u_payload u)) (u_payload u) Hp).
  unfold get, mbind at 1, M_bind at 1, remaining.
  destruct (Z.gtb_spec (size (u_payload u)) (size (u_payload u))); [lia|].
  m_run (r_bytes_all (u_payload u)). unfold mbind, M_bind. simpl. do 3 f_equal. lia.
Qed.

#[global] Opaque encode_update.

(** ** The batch of one commit *)
Section batch.
Context (j : journal) (tx : Z) (snapshot_sequence : Z).

Definition begin_record (seq : Z) : log_record := LogRecord rt_begin (seq + 1) tx [].
Fixpoint update_records (seq : Z) (updates : list root_update) : list log_record :=
  match updates with
  | [] => []
  | u :: updates =>
      LogRecord rt_root_update (seq + 1) tx (e_bytes (encode_update u)) ::
      update_records (seq + 1) updates
  end.
Definition commit_record (seq : Z) (n : Z) : log_record := LogRecord rt_commit (seq + 1) tx (scalar 8 n).
Definition batch_records (seq : Z) (updates : list root_update) : list log_record :=
  begin_record seq :: update_records (seq + 1) updates ++
  [commit_record (seq + 1 + size updates) (size updates)].

(** Where the payloads of the updates lie, when the first update record starts at [start]. *)
Fixpoint update_locs (start : Z) (updates : list root_update) : list loc :=
  match updates with
  | [] => []
  | u :: updates =>
      Loc src_journal (start + 40 + e_payload_offset (encode_update u))
        (size (u_payload u)) (crc32c (u_payload u)) ::
      update_locs (start + 44 + size (e_bytes (encode_update u))) updates
  end.
Lemma update_locs_length start updates : length (update_locs start updates) = length updates.
Proof. revert start. induction updates; intros; simpl; auto. Qed.
Lemma update_locs_kind start updates : Forall (λ l, l_kind l = src_journal) (update_locs start updates).
Proof. revert start. induction updates; intros; simpl; constructor; auto. Qed.
Lemma update_records_length seq updates : length (update_records seq updates) = length updates.
Proof. revert seq. induction updates; intros; simpl; auto. Qed.
Lemma shift_update_locs off start updates :
  shift_loc off <$> update_locs start updates = update_locs (off + start) updates.
Proof.
  revert start. induction updates as [|u updates IH]; intros start; simpl; [done|].
  rewrite IH. unfold shift_loc; simpl. f_equal; [f_equal; lia|f_equal; lia].
Qed.

Lemma next_sequence_small seq : 0 ≤ seq < u64_bound - 1 → next_sequence seq = seq + 1.
Proof. intros. unfold next_sequence. apply u64_small. unfold is_u64. lia. Qed.

Lemma append_updates_spec seq updates batch :
  0 ≤ seq → seq + size updates < u64_bound →
  append_updates j tx seq updates batch =
  (seq + size updates, batch ++ log_bytes (j_checksums j) (update_records seq updates),
   update_locs (size batch) updates).
Proof.
  revert seq batch. induction updates as [|u updates IH]; intros seq batch H0; simpl;
    autorewrite with size; intros Hs.
  - by rewrite Z.add_0_r, app_nil_r.
  - pose proof (size_nonneg updates). rewrite next_sequence_small by lia.
    rewrite IH by lia. rewrite <- app_assoc.
    change (make_record rt_root_update (seq + 1) tx (e_bytes (encode_update u)) (j_checksums j))
      with (log_frame (j_checksums j) (LogRecord rt_root_update (seq + 1) tx (e_bytes (encode_update u)))).
    autorewrite with size. simpl lr_payload. unfold prefix_size, body_prefix_size.
    simpl. f_equal; [f_equal; lia|]. f_equal; f_equal; lia.
Qed.
(** [journal::append] builds exactly these records. *)
Lemma build_batch_spec seq updates :
  0 ≤ seq → seq + size updates + 2 < u64_bound →
  build_batch j tx seq updates =
  (seq + size updates + 2, log_bytes (j_checksums j) (batch_records seq updates),
   update_locs 44 updates).
Proof.
  intros H0 Hs. pose proof (size_nonneg updates). unfold build_batch.
  rewrite next_sequence_small by lia. rewrite append_updates_spec by lia.
  rewrite next_sequence_small by lia.
  change (make_record rt_begin (seq + 1) tx [] (j_checksums j))
    with (log_frame (j_checksums j) (begin_record seq)).
  change (make_record rt_commit (seq + 1 + size updates + 1) tx (scalar 8 (size updates)) (j_checksums j))
    with (log_frame (j_checksums j) (commit_record (seq + 1 + size updates) (size updates))).
  autorewrite with size. simpl lr_payload. autorewrite with size.
  unfold batch_records, log_bytes. simpl flat_map. rewrite flat_map_app. simpl flat_map.
  rewrite app_nil_r, <- !app_assoc. f_equal. f_equal. lia.
Qed.

Ltac solve_wf_record :=
  unfold wf_record; simpl; unfold rt_begin, rt_root_update, rt_commit, is_u64, max_frame_size in *;
  autorewrite with size; lia.
Lemma wf_batch seq updates :
  is_u64 tx → 0 ≤ seq → seq + size updates + 2 < u64_bound → Forall wf_update updates →
  Forall wf_record (batch_records seq updates).
Proof.
  intros Htx H0 Hs Hu. pose proof (size_nonneg updates).
  unfold batch_records. constructor; [|apply Forall_app; split; [|apply Forall_singleton]].
  - solve_wf_record.
  - assert (∀ n, seq < n → n + size updates < u64_bound →
              Forall wf_record (update_records n updates)) as Hall; [|apply Hall; lia].
    clear Hs. induction Hu as [|u updates Hw _ IH]; intros n Hn Hs; simpl; [done|].
    rewrite size_cons in Hs. pose proof (size_nonneg updates).
    constructor; [|apply IH; lia].
    destruct Hw as (_ & _ & Hw). solve_wf_record.
  - solve_wf_record.
Qed.

(** Replaying the updates of a begun transaction collects them. *)
Lemma replay_updates seq updates s us :
  Forall wf_update updates → pending_of (s_pending s) tx = Pending us true →
  s_last_sequence s = seq →
  ∃ s', replay snapshot_sequence (update_records seq updates) s = Ok s' ∧
    s_roots s' = s_roots s ∧ s_last_sequence s' = seq + size updates ∧
    pending_of (s_pending s') tx =
      Pending (us ++ zip_with recovered_of updates (update_locs (s_offset s) updates)) true ∧
    delete tx (s_pending s') = delete tx (s_pending s).
Proof.
  intros Hu. revert seq s us. induction Hu as [|u updates Hw _ IH]; intros seq s us Hp Hq.
  - exists s. simpl. rewrite app_nil_r. autorewrite with size. split_and!; try done. lia.
  - simpl. unfold replay_record. simpl lr_sequence. rewrite Hq.
    destruct (Z.leb_spec (seq + 1) seq); [lia|]. simpl andb. cbn iota.
    unfold process_record. simpl. rewrite Hp. simpl. rewrite decode_encode_update by done. simpl.
    match goal with |- context [replay _ _ ?t] => set (s1 := t) end.
    destruct (IH (seq + 1) s1 (us ++ [recovered_of u (Loc src_journal
        (s_offset s + prefix_size + body_prefix_size + e_payload_offset (encode_update u))
        (size (u_payload u)) (crc32c (u_payload u)))])) as (s' & Hr & H1 & H2 & H3 & H4).
    + apply pending_of_insert.
    + simpl. lia.
    + exists s'. rewrite Hr, H1, H2, H3, H4. autorewrite with size. split_and!; try done; [lia| |].
      * rewrite <- app_assoc. simpl. do 4 f_equal; unfold prefix_size, body_prefix_size;
          [do 2 f_equal; lia|f_equal; lia].
      * simpl. apply delete_insert_eq.
Qed.

Lemma replay_begin seq s :
  s_last_sequence s = seq → s_pending s !! tx = None →
  ∃ s', replay_record snapshot_sequence (begin_record seq) s = Ok s' ∧
    s_roots s' = s_roots s ∧ s_last_sequence s' = seq + 1 ∧
    pending_of (s_pending s') tx = Pending [] true ∧
    delete tx (s_pending s') = s_pending s ∧ s_offset s' = s_offset s + 44.
Proof.
  intros Hq Hn. unfold replay_record; simpl. rewrite Hq.
  destruct (Z.leb_spec (seq + 1) seq); [lia|]. simpl. eexists. split; [done|]. simpl.
  rewrite size_nil. split_and!; [done|lia| | |lia].
  - rewrite pending_of_insert. unfold pending_of. by rewrite Hn.
  - rewrite delete_insert_eq. by apply delete_id.
Qed.
Lemma replay_commit seq n s us :
  s_last_sequence s = seq → s_pending s !! tx = Some (Pending us true) → n = size us → is_u64 n →
  replay_record snapshot_sequence (commit_record seq n) s =
  (roots ← apply_updates us (s_roots s);
   Ok (Scan roots (seq + 1) (s_records s + 1) (delete tx (s_pending s))
         (s_offset s + 52) (s_offset s + 52))).
Proof.
  intros Hq Hp -> Hn. unfold replay_record, process_record; simpl. rewrite Hq, Hp.
  destruct (Z.leb_spec (seq + 1) seq); [lia|]. simpl.
  rewrite (run_ok _ _ (size us, true) []).
  2:{ m_run (r_scalar_u64_all (size us) Hn). done. }
  simpl. rewrite Z.eqb_refl. simpl. destruct (apply_updates us (s_roots s)); simpl; [|done].
  rewrite size_scalar. do 2 f_equal; lia.
Qed.

(** A whole batch, replayed where no such transaction is pending, applies its updates. *)
Lemma replay_batch seq updates s :
  0 ≤ seq → seq + size updates + 2 < u64_bound → Forall wf_update updates →
  s_last_sequence s = seq → s_pending s !! tx = None →
  ∃ n off,
    replay snapshot_sequence (batch_records seq updates) s =
    (roots ← apply_updates
               (zip_with recovered_of updates (update_locs (s_offset s + 44) updates)) (s_roots s);
     Ok (Scan roots (seq + size updates + 2) n (s_pending s) off off)).
Proof.
  intros H0 Hs Hu Hq Hn. pose proof (size_nonneg updates).
  destruct (replay_begin seq s Hq Hn) as (s1 & Hr1 & Hroots1 & Hq1 & Hp1 & Hd1 & Ho1).
  destruct (replay_updates (seq + 1) updates s1 [] Hu Hp1 Hq1) as (s2 & Hr2 & Hroots2 & Hq2 & Hp2 & Hd2).
  exists (s_records s2 + 1), (s_offset s2 + 52).
  unfold batch_records. simpl replay. rewrite Hr1. simpl. rewrite replay_app, Hr2. simpl.
  rewrite (replay_commit _ _ _
    (zip_with recovered_of updates (update_locs (s_offset s + 44) updates)) Hq2).
  - rewrite Hroots2, Hroots1, Hd2, Hd1. destruct (apply_updates _ _); simpl; [|done].
    do 2 f_equal. lia.
  - unfold pending_of in Hp2. rewrite Ho1 in Hp2. simpl in Hp2.
    destruct (s_pending s2 !! tx); simpl in Hp2; congruence.
  - unfold size. rewrite length_zip_with, update_locs_length. lia.
  - unfold is_u64. lia.
Qed.

(** Any part of a batch short of its COMMIT leaves the roots alone. *)
Lemma replay_partial seq updates k s :
  Forall wf_update updates → 0 ≤ seq →
  s_last_sequence s = seq → s_pending s !! tx = None →
  (k ≤ S (length updates))%nat →
  ∃ s', replay snapshot_sequence (take k (batch_records seq updates)) s = Ok s' ∧
    s_roots s' = s_roots s ∧ delete tx (s_pending s') = s_pending s ∧
    s_last_sequence s' = seq + Z.of_nat k.
Proof.
  intros Hu H0 Hq Hn Hk. unfold batch_records. destruct k as [|k]; simpl take.
  { exists s. split_and!; [done|done|by apply delete_id|lia]. }
  destruct (replay_begin seq s Hq Hn) as (s1 & Hr1 & Hroots1 & Hq1 & Hp1 & Hd1 & _).
  assert (take k (update_records (seq + 1) updates ++ [commit_record (seq + 1 + size updates) (size updates)])
          = update_records (seq + 1) (take k updates)) as ->.
  { rewrite take_app_le.
    - clear. revert seq k. induction updates as [|u l IH]; intros q [|k]; simpl; try done. by rewrite IH.
    - rewrite update_records_length. lia. }
  destruct (replay_updates (seq + 1) (take k updates) s1 [] ltac:(by apply Forall_take) Hp1 Hq1)
    as (s2 & Hr2 & Hroots2 & Hq2 & _ & Hd2).
  exists s2. simpl. rewrite Hr1. simpl. split_and!; [done|congruence|congruence|].
  rewrite Hq2, size_take. unfold size. lia.
Qed.
End batch.

(** ** Batches in a file *)

(** [complete c s0 s]: the whole of [c] is records, and scanning it from [s0] ends in [s]. *)
Definition complete (checksums : bool) (snapshot_sequence : Z) (c : list byte) (s0 s : scan) : Prop :=
  scan_all checksums snapshot_sequence c s0 = Ok s ∧ s_offset s = size c ∧ s_last_good s = size c.

Section batch_in_file.
Context (checksums : bool) (snapshot_sequence : Z).

Lemma stepped_last_good c s s' :
  rtc (stepped checksums snapshot_sequence c) s s' → 0 ≤ s_offset s →
  s_last_good s = s_offset s → s_last_good s' = s_offset s'.
Proof.
  induction 1 as [|s1 s2 s3 H1 _ IH]; intros Ho Hg; [done|].
  apply scan_step_inv in H1 as [? ?]; [|done]. apply IH; [lia|done].
Qed.
Lemma replay_last_good l s s' :
  replay snapshot_sequence l s = Ok s' → s_last_good s = s_offset s → s_last_good s' = s_offset s'.
Proof.
  revert s. induction l as [|r l IH]; simpl; intros s.
  - by intros [= ->].
  - intros (s1 & H1 & H2)%bind_result_ok _. apply (replay_record_offset checksums) in H1 as [_ H1].
    by eapply IH.
Qed.

Lemma scan_step_take c s s' n :
  scan_step checksums snapshot_sequence c s = Ok (Some s') → 0 ≤ s_offset s →
  s_offset s' ≤ Z.of_nat n →
  scan_step checksums snapshot_sequence (take n c) s = Ok (Some s').
Proof.
  intros H1 Ho Hn. pose proof (scan_step_inv _ _ _ _ _ H1 Ho) as [Hs _]. revert H1.
  unfold scan_step. assert (Z.of_nat n ≤ size c → size (take n c) = Z.of_nat n) as Hsz
    by (rewrite size_take; lia).
  destruct (decide (size c ≤ Z.of_nat n)) as [Hle|Hgt].
  { rewrite firstn_all2 by (unfold size in Hle; lia). done. }
  rewrite (Hsz ltac:(lia)). clear Hsz.
  assert (∀ off k, 0 ≤ off → 0 ≤ k → off + k ≤ Z.of_nat n → slice (take n c) off k = slice c off k) as Hslice.
  { intros off k ? ? ?. rewrite <- (take_drop n c) at 2. symmetry. apply slice_app_l; [done|done|].
    rewrite size_take. lia. }
  destruct (Z.ltb_spec (size c - s_offset s) prefix_size); [done|].
  intros (m & Hm & H2)%bind_result_ok.
  destruct (Z.gtb_spec m (size c - s_offset s - prefix_size)); [done|].
  apply bind_result_ok in H2 as (s2 & Hp & [= ->]).
  pose proof (process_frame_inv _ _ _ _ _ Hp) as [Hoff _]. pose proof (read_prefix_inv _ _ Hm).
  unfold prefix_size in *. rewrite size_slice in Hoff by lia.
  destruct (Z.ltb_spec (Z.of_nat n - s_offset s) (4 + 8)); [lia|].
  rewrite Hslice, Hm by lia. simpl.
  destruct (Z.gtb_spec m (Z.of_nat n - s_offset s - (4 + 8))); [lia|].
  by rewrite Hslice, Hp by lia.
Qed.
Lemma stepped_take c s s' n :
  rtc (stepped checksums snapshot_sequence c) s s' → 0 ≤ s_offset s → s_offset s' ≤ Z.of_nat n →
  rtc (stepped checksums snapshot_sequence (take n c)) s s'.
Proof.
  induction 1 as [|s1 s2 s3 H1 H2 IH]; intros Ho Hn; [apply rtc_refl|].
  pose proof (scan_step_inv _ _ _ _ _ H1 Ho). pose proof (stepped_inv _ _ _ _ _ H2 ltac:(lia)).
  eapply rtc_l; [apply scan_step_take; [done|done|lia]|apply IH; lia].
Qed.

Lemma scan_all_steps_end c s0 s :
  rtc (stepped checksums snapshot_sequence c) s0 s → 0 ≤ s_offset s0 →
  (s_offset s < size c → scan_step checksums snapshot_sequence c s = Ok None) →
  scan_all checksums snapshot_sequence c s0 = Ok s.
Proof.
  intros Hs Ho Hend. rewrite (scan_all_steps _ _ _ _ _ Hs Ho).
  pose proof (stepped_inv _ _ _ _ _ Hs Ho). rewrite scan_all_unfold by lia.
  destruct (Z.ltb_spec (s_offset s) (size c)); [|done]. by rewrite Hend.
Qed.

(** Truncating the file where the scan ended makes it complete, with the same outcome. *)
Lemma complete_truncated c s0 s :
  scan_all checksums snapshot_sequence c s0 = Ok s →
  0 ≤ s_offset s0 ≤ size c → s_last_good s0 = s_offset s0 →
  complete checksums snapshot_sequence (take (Z.to_nat (s_last_good s)) c) s0 s ∧
  0 ≤ s_last_good s ≤ size c.
Proof.
  intros Hs Ho Hg. apply scan_all_ok in Hs as [Hs _]; [|lia].
  pose proof (stepped_inv _ _ _ _ _ Hs ltac:(lia)).
  pose proof (stepped_last_good _ _ _ Hs ltac:(lia) Hg) as Hgood.
  assert (size (take (Z.to_nat (s_last_good s)) c) = s_offset s) as Hsz by (rewrite size_take; lia).
  split; [|lia]. split_and!; try lia.
  apply scan_all_steps_end; [apply stepped_take; [done|lia|lia]|lia|lia].
Qed.

Lemma complete_records c s0 s l s' :
  complete checksums snapshot_sequence c s0 s → 0 ≤ s_offset s0 →
  Forall wf_record l → replay snapshot_sequence l s = Ok s' →
  complete checksums snapshot_sequence (c ++ log_bytes checksums l) s0 s'.
Proof.
  intros (H1 & H2 & H3) Ho Hl Hr.
  destruct (stepped_records checksums snapshot_sequence c l [] s s' Hl H2 Hr) as [Hs Hoff].
  rewrite app_nil_r in Hs. split_and!; [|done|].
  - rewrite (scan_all_app _ _ _ _ _ _ H1 Ho H2). apply scan_all_steps_end; [done|..]; pose proof (size_nonneg c); lia.
  - rewrite (replay_last_good _ _ _ Hr); [done|lia].
Qed.

(** Scanning more of a file whose beginning is complete does not go back. *)
Lemma torn_good_part c x s0 s s' :
  complete checksums snapshot_sequence c s0 s →
  scan_all checksums snapshot_sequence (c ++ x) s0 = Ok s' →
  0 ≤ s_offset s0 → size c ≤ s_last_good s'.
Proof.
  intros (H1 & H2 & H3) Hs Ho. rewrite (scan_all_app _ _ _ _ _ _ H1 Ho H2) in Hs.
  pose proof (size_nonneg c). apply scan_all_ok in Hs as [Hs _]; [|lia].
  pose proof (stepped_inv _ _ _ _ _ Hs ltac:(lia)).
  rewrite (stepped_last_good _ _ _ Hs) by lia. lia.
Qed.

(** Cutting a run of records anywhere leaves some complete ones and part of the next. *)
Lemma take_log_bytes l k :
  (k < length (log_bytes checksums l))%nat →
  ∃ m r k', l !! m = Some r ∧ (k' < length (log_frame checksums r))%nat ∧
    take k (log_bytes checksums l) = log_bytes checksums (take m l) ++ take k' (log_frame checksums r).
Proof.
  revert k. induction l as [|r l IH]; simpl; intros k Hk; [lia|]. rewrite length_app in Hk.
  destruct (decide (k < length (log_frame checksums r))%nat).
  - exists 0%nat, r, k. split_and!; [done|done|]. simpl. by rewrite take_app_le by lia.
  - destruct (IH (k - length (log_frame checksums r))%nat ltac:(lia)) as (m & r' & k' & Hm & Hk' & E).
    exists (S m), r', k'. split_and!; [done|done|]. simpl.
    by rewrite take_app_ge, E, app_assoc by lia.
Qed.
Lemma scan_records_torn c s0 s l r k s' :
  complete checksums snapshot_sequence c s0 s → 0 ≤ s_offset s0 →
  Forall wf_record l → wf_record r → (k < length (log_frame checksums r))%nat →
  replay snapshot_sequence l s = Ok s' →
  scan_all checksums snapshot_sequence (c ++ log_bytes checksums l ++ take k (log_frame checksums r)) s0 = Ok s'.
Proof.
  intros (H1 & H2 & H3) Ho Hl Hr Hk Hrep.
  destruct (stepped_records checksums snapshot_sequence c l (take k (log_frame checksums r)) s s' Hl H2 Hrep)
    as [Hs Hoff].
  rewrite (scan_all_app _ _ _ _ _ _ H1 Ho H2).
  apply scan_all_steps_end; [done|pose proof (size_nonneg c); lia|]. intros _.
  rewrite app_assoc. by apply scan_step_torn.
Qed.
End batch_in_file.

Section batch_scan.
Context (j : journal) (tx snapshot_sequence : Z).
Let ck := j_checksums j.

Definition batch_bytes (seq : Z) (updates : list root_update) : list byte :=
  log_bytes ck (batch_records tx seq updates).

Lemma batch_complete c s0 s updates roots :
  complete ck snapshot_sequence c s0 s → 0 ≤ s_offset s0 → is_u64 tx →
  0 ≤ s_last_sequence s → s_last_sequence s + size updates + 2 < u64_bound →
  Forall wf_update updates → s_pending s !! tx = None →
  apply_updates (zip_with recovered_of updates (update_locs (size c + 44) updates)) (s_roots s) = Ok roots →
  ∃ s', complete ck snapshot_sequence (c ++ batch_bytes (s_last_sequence s) updates) s0 s' ∧
    s_roots s' = roots ∧ s_last_sequence s' = s_last_sequence s + size updates + 2 ∧
    s_pending s' = s_pending s.
Proof.
  intros Hc Ho Htx H0 Hs Hu Hn Ha. pose proof Hc as (_ & Hoff & _).
  destruct (replay_batch tx snapshot_sequence (s_last_sequence s) updates s H0 Hs Hu eq_refl Hn)
    as (n & off & Hr).
  rewrite Hoff, Ha in Hr. simpl in Hr.
  eexists. split; [eapply complete_records; [done|done|by apply wf_batch|done]|done].
Qed.

Lemma batch_torn c s0 s updates k :
  complete ck snapshot_sequence c s0 s → 0 ≤ s_offset s0 → is_u64 tx →
  0 ≤ s_last_sequence s → s_last_sequence s + size updates + 2 < u64_bound →
  Forall wf_update updates → s_pending s !! tx = None →
  (k < length (batch_bytes (s_last_sequence s) updates))%nat →
  ∃ s', scan_all ck snapshot_sequence (c ++ take k (batch_bytes (s_last_sequence s) updates)) s0 = Ok s' ∧
    s_roots s' = s_roots s ∧ delete tx (s_pending s') = s_pending s ∧
    s_last_sequence s ≤ s_last_sequence s' ≤ s_last_sequence s + size updates + 1.
Proof.
  intros Hc Ho Htx H0 Hs Hu Hn Hk.
  pose proof (wf_batch tx (s_last_sequence s) updates Htx H0 Hs Hu) as Hw.
  destruct (take_log_bytes ck _ k Hk) as (m & r & k' & Hm & Hk' & E).
  assert (m ≤ S (length updates))%nat as Hml.
  { apply lookup_lt_Some in Hm. unfold batch_records in Hm. simpl in Hm.
    rewrite length_app, update_records_length in Hm. simpl in Hm. lia. }
  destruct (replay_partial tx snapshot_sequence (s_last_sequence s) updates m s Hu H0 eq_refl Hn Hml)
    as (s' & Hr & Hroots & Hp & Hq).
  exists s'. split_and!; try done; [|lia|unfold size; lia].
  unfold batch_bytes. rewrite E.
  eapply scan_records_torn; [done|done|by apply Forall_take|by eapply Forall_lookup_1|done|done].
Qed.
End batch_scan.

(** ** Applying updates *)
Section updates.
Implicit Types (roots : gmap string root_record).

Lemma version_of_insert n m r roots :
  version_of (<[n := r]> roots) m = if decide (n = m) then rr_version r else version_of roots m.
Proof. unfold version_of. rewrite lookup_insert. by case_decide. Qed.

Lemma apply_update_grows u roots roots' n :
  apply_update u roots = Ok roots' → version_of roots n ≤ version_of roots' n.
Proof.
  unfold apply_update. destruct (Z.leb_spec (v_new u) (version_of roots (v_name u))) as [|Hlt];
    [by intros [= ->]|]. case_match; [done|]. intros [= <-].
  rewrite version_of_insert. case_decide; subst; simpl; lia.
Qed.
Lemma apply_updates_grow us roots roots' n :
  apply_updates us roots = Ok roots' → version_of roots n ≤ version_of roots' n.
Proof.
  revert roots. induction us as [|u us IH]; simpl; intros roots.
  - by intros [= ->].
  - intros (r1 & H1%(apply_update_grows _ _ _ n) & H2%IH)%bind_result_ok. lia.
Qed.
Lemma apply_update_reaches u roots roots' :
  apply_update u roots = Ok roots' → v_new u ≤ version_of roots' (v_name u).
Proof.
  unfold apply_update. destruct (Z.leb_spec (v_new u) (version_of roots (v_name u))) as [|Hlt];
    [by intros [= ->]|]. case_match; [done|]. intros [= <-].
  rewrite version_of_insert, decide_True by done. done.
Qed.

(** [reached us roots]: every update of [us] is already reflected in [roots]. *)
Definition reached (us : list recovered_update) roots : Prop :=
  Forall (λ u, v_new u ≤ version_of roots (v_name u)) us.
Lemma apply_updates_reach us roots roots' :
  apply_updates us roots = Ok roots' → reached us roots'.
Proof.
  revert roots. induction us as [|u us IH]; simpl; intros roots; [constructor|].
  intros (r1 & H1%apply_update_reaches & H2)%bind_result_ok. constructor; [|by eapply IH].
  pose proof (apply_updates_grow _ _ _ (v_name u) H2). lia.
Qed.
Lemma apply_updates_reached us roots : reached us roots → apply_updates us roots = Ok roots.
Proof.
  intros H. induction H as [|u us Hu _ IH]; simpl; [done|]. unfold apply_update.
  destruct (Z.leb_spec (v_new u) (version_of roots (v_name u))); [done|lia].
Qed.

(** The updates of a commit that passed its version check are all applied. *)
Definition publish (updates : list root_update) (locs : list loc) roots : gmap string root_record :=
  foldl (λ roots e, <[u_name e.1 := RootRecord (u_new e.1) (u_type e.1) e.2]> roots) roots
    (zip updates locs).
Definition checked (updates : list root_update) roots : Prop :=
  Forall (λ u, version_of roots (u_name u) = u_expected u ∧ u_expected u < u_new u) updates.

Lemma publish_cons u us l ls roots :
  publish (u :: us) (l :: ls) roots =
  publish us ls (<[u_name u := RootRecord (u_new u) (u_type u) l]> roots).
Proof. done. Qed.
Lemma apply_updates_publish us ls roots :
  length us = length ls → NoDup (u_name <$> us) → checked us roots →
  apply_updates (zip_with recovered_of us ls) roots = Ok (publish us ls roots).
Proof.
  revert ls roots. induction us as [|u us IH]; intros [|l ls] roots Hl Hd Hc; try done.
  injection Hl as Hl. apply NoDup_cons in Hd as [Hn Hd]. apply Forall_cons in Hc as [[Hv Hlt] Hc].
  simpl. unfold apply_update; simpl. rewrite Hv.
  destruct (Z.leb_spec (u_new u) (u_expected u)); [lia|]. rewrite Z.eqb_refl. simpl.
  rewrite publish_cons. apply IH; [done|done|].
  apply Forall_forall. intros u' Hin. eapply Forall_forall in Hc as [? ?]; [|done]. split; [|done].
  rewrite version_of_insert, decide_False; [done|]. intros E. apply Hn. rewrite E.
  by apply list_elem_of_fmap_2.
Qed.
End updates.

(** ** Replaying a journal over a snapshot that already has its effects *)
Section over_snapshot.
Context (checksums : bool) (snap1 snap2 : Z) (base : gmap string root_record).

Lemma process_record_mono type tx payload off roots pending roots' pending' n :
  process_record type tx payload off roots pending = Ok (roots', pending') →
  version_of roots n ≤ version_of roots' n.
Proof.
  unfold process_record. repeat case_match; try done.
  - by intros [= <- <-].
  - by intros (? & _ & [= <- <-])%bind_result_ok.
  - intros (? & _ & Hp)%bind_result_ok. case_match; [done|].
    apply bind_result_ok in Hp as (? & Ha & [= <- <-]). by eapply apply_updates_grow.
Qed.
Lemma process_record_over type tx payload off roots pending roots' pending' :
  process_record type tx payload off roots pending = Ok (roots', pending') →
  (∀ n, version_of roots' n ≤ version_of base n) →
  process_record type tx payload off base pending = Ok (base, pending').
Proof.
  unfold process_record. intros Hp Hv. repeat case_match; simplify_eq/=; try done.
  - by apply bind_result_ok in Hp as (? & -> & [= <- <-]).
  - apply bind_result_ok in Hp as (c & -> & Hp). simpl. case_match; [done|].
    apply bind_result_ok in Hp as (r & Ha & [= <- <-]).
    rewrite apply_updates_reached; [done|].
    eapply Forall_impl; [by eapply apply_updates_reach|]. intros u Hu. simpl in Hu.
    specialize (Hv (v_name u)). lia.
Qed.

(** Two scans of one file: the second starts from [base]. *)
Definition over (s t : scan) : Prop :=
  s_roots t = base ∧ s_last_sequence t = snap2 ∧ s_records t = s_records s ∧
  s_pending t = s_pending s ∧ s_offset t = s_offset s ∧ s_last_good t = s_last_good s.
Definition bounded (s : scan) : Prop :=
  (∀ n, version_of (s_roots s) n ≤ version_of base n) ∧ s_last_sequence s ≤ snap2.

Lemma process_frame_mono frame s s' :
  process_frame checksums snap1 frame s = Ok s' → bounded s' → bounded s.
Proof.
  unfold process_frame. intros ([[[ty sq] tx] pl] & _ & H)%bind_result_ok [Hv Hq].
  case_match; [done|]. apply bind_result_ok in H as ([r p] & Hp & [= <-]). simpl in *. split; [|lia].
  intros n. pose proof (process_record_mono _ _ _ _ _ _ _ _ n Hp). specialize (Hv n). lia.
Qed.
Lemma process_frame_over frame s s' t :
  process_frame checksums snap1 frame s = Ok s' → over s t → bounded s' →
  ∃ t', process_frame checksums snap2 frame t = Ok t' ∧ over s' t'.
Proof.
  unfold process_frame. intros ([[[ty sq] tx] pl] & Hf & H)%bind_result_ok (Hr & Hl & Hn & Hp & Ho & Hg) [Hv Hq].
  rewrite Hf. simpl. case_match; [done|].
  apply bind_result_ok in H as ([r p] & Hpr & [= <-]). simpl in *.
  rewrite Hl, Hr, Ho, Hp, Hn. rewrite Z.gtb_ltb.
  destruct (Z.ltb_spec snap2 sq); [lia|]. rewrite andb_false_r.
  erewrite process_record_over by done. simpl.
  eexists. split; [done|]. split_and!; simpl; try done. lia.
Qed.
Lemma scan_step_mono c s s' :
  scan_step checksums snap1 c s = Ok (Some s') → bounded s' → bounded s.
Proof.
  unfold scan_step. case_match; [done|]. intros (n & _ & H1)%bind_result_ok. case_match; [done|].
  apply bind_result_ok in H1 as (? & H1 & [= ->]). by eapply process_frame_mono.
Qed.
Lemma scan_step_over c s t o :
  scan_step checksums snap1 c s = Ok o → over s t → (∀ s', o = Some s' → bounded s') →
  match o with
  | None => scan_step checksums snap2 c t = Ok None
  | Some s' => ∃ t', scan_step checksums snap2 c t = Ok (Some t') ∧ over s' t'
  end.
Proof.
  unfold scan_step. intros Hs Hov Hb. pose proof Hov as (_ & _ & _ & _ & -> & _).
  case_match; [by injection Hs as <-|].
  apply bind_result_ok in Hs as (n & -> & Hs). simpl. case_match; [by injection Hs as <-|].
  apply bind_result_ok in Hs as (s' & Hs & [= <-]).
  destruct (process_frame_over _ _ _ _ Hs Hov (Hb _ eq_refl)) as (t' & -> & ?). simpl. eauto.
Qed.
Lemma stepped_over c s s' t :
  rtc (stepped checksums snap1 c) s s' → over s t → bounded s' →
  (∃ t', rtc (stepped checksums snap2 c) t t' ∧ over s' t') ∧ bounded s.
Proof.
  intros Hs. revert t. induction Hs as [|s1 s2 s3 H1 _ IH]; intros t Ho Hb.
  { split; [|done]. exists t. split; [apply rtc_refl|done]. }
  assert (bounded s2) as Hb2.
  { eapply (IH (Scan base snap2 (s_records s2) (s_pending s2) (s_offset s2) (s_last_good s2))); done. }
  destruct (scan_step_over c s1 t (Some s2) H1 Ho) as (t2 & Ht2 & Ho2); [by intros ? [= <-]|].
  destruct (IH t2 Ho2 Hb) as [(t3 & ? & ?) _].
  split; [|by eapply scan_step_mono]. exists t3. split; [by eapply rtc_l|done].
Qed.
Lemma scan_all_over c s s' t :
  scan_all checksums snap1 c s = Ok s' → 0 ≤ s_offset s → over s t → bounded s' →
  ∃ t', scan_all checksums snap2 c t = Ok t' ∧ over s' t'.
Proof.
  intros Hs Ho Hov Hb. apply scan_all_ok in Hs as [Hs Hend]; [|done].
  destruct (stepped_over _ _ _ _ Hs Hov Hb) as [(t' & Ht & Hov') _].
  exists t'. split; [|done]. destruct Hov as (_ & _ & _ & _ & Hot & _).
  apply scan_all_steps_end; [done|lia|]. pose proof Hov' as (_ & _ & _ & _ & -> & _). intros Hlt.
  by apply (scan_step_over c s' t' None); [by apply Hend| |].
Qed.
End over_snapshot.

(** ** [journal::recover] computes the scan *)
Section on_storage.
Context {W : Type} `{storage_reliable W} (j : journal).
Let p := j_path j.
Let ck := j_checksums j.

Lemma recover_step_scan c snap s (w : W) :
  file_of w p = Some c → 0 ≤ s_offset s →
  computes (recover_step j snap (size c) s) w (scan_step ck snap c s).
Proof.
  intros Hc Ho. unfold recover_step, scan_step. fold p ck. assert (0 ≤ prefix_size) by done.
  apply computes_if; [intros _; apply computes_ret|]. intros Hsz%Z.ltb_ge.
  eapply computes_step; [apply computes_read; [done|lia..]|].
  intros w1 Hs1. apply computes_bind; [apply computes_pure|].
  intros n w2 En%read_prefix_inv Hs2. apply computes_if; [intros _; apply computes_ret|].
  intros Hn. rewrite Z.gtb_ltb in Hn. apply Z.ltb_ge in Hn.
  eapply computes_step.
  - apply computes_read; [by rewrite Hs2, Hs1|lia..].
  - intros w3 _. apply computes_bind; [apply computes_pure|].
    intros s' w4 _ _. apply computes_ret.
Qed.
Lemma recover_loop_scan fuel c snap s (w : W) :
  file_of w p = Some c → 0 ≤ s_offset s →
  computes (recover_loop j fuel snap (size c) s) w (scan_loop ck snap fuel c s).
Proof.
  revert s w. induction fuel as [|fuel IH]; intros s w Hc Ho; simpl;
    (apply computes_if; [|intros _; apply computes_ret]); intros _; [apply computes_throw|].
  apply computes_bind; [by apply recover_step_scan|].
  intros [s'|] w1 E Hs1; [|apply computes_ret]. apply scan_step_inv in E as [? _]; [|done].
  apply IH; [by rewrite Hs1|lia].
Qed.

(** Truncate and, in strict mode, flush. *)
Definition truncate_flush (n : Z) : M W unit :=
  _ ← truncate p n; when (bool_decide (j_durability j = strict)) (flush_all p).
Lemma truncate_flush_spec c n (w : W) :
  file_of w p = Some c →
  ∃ r w', truncate_flush n w = (r, w') ∧ same_but p w w' ∧
    (file_of w' p = Some c ∨ file_of w' p = Some (truncate_to c n)) ∧
    (r = Ok tt → file_of w' p = Some (truncate_to c n)) ∧ (reliable w → r = Ok tt ∧ reliable w').
Proof.
  intros Hc. unfold truncate_flush, mbind, M_bind. pose proof (truncate_law p n w) as Hl.
  pose proof (λ Hr, truncate_ok p n w Hr (mk_is_Some _ _ Hc)) as Hok.
  destruct (truncate p n w) as [[[]|e] w1].
  2:{ do 2 eexists. split_and!; [done|by apply same_but_files|left; by rewrite Hl|done|].
      by intros (? & [=] & ?)%Hok. }
  destruct Hl as (Hb & c' & Hc' & Hw1). assert (c' = c) as -> by congruence.
  unfold when. destruct (bool_decide _).
  2:{ do 2 eexists. split_and!; [done|done|by right|done|]. by intros (? & [= <-] & ?)%Hok. }
  pose proof (flush_all_law p w1) as Hf. pose proof (λ Hr, flush_all_ok p w1 Hr (mk_is_Some _ _ Hw1)) as Hok2.
  destruct (flush_all p w1) as [r w2]. simpl in Hf.
  do 2 eexists. split_and!; [done|by eapply same_but_trans, same_but_files|right; by rewrite Hf|by rewrite Hf|].
  intros (? & [= <-] & (? & [= -> ->] & ?)%Hok2)%Hok. done.
Qed.

Definition result_of (s : scan) : recovery_result :=
  RecoveryResult (s_roots s) (s_last_sequence s) (s_records s) (s_last_good s).
Definition kept (trunc : bool) (s : scan) (c : list byte) : list byte :=
  if trunc then take (Z.to_nat (s_last_good s)) c else c.

Lemma recover_unfold base snap trunc q (w : W) :
  recover j base snap trunc (q, w) =
  let '(rn, w1) := file_size p w in
  match rn with
  | Throw e => (Throw e, (q, w1))
  | Ok n =>
      let '(rs, w2) := recover_loop j (Z.to_nat n) snap n (initial_scan base snap) w1 in
      match rs with
      | Throw e => (Throw e, (q, w2))
      | Ok s =>
          let '(rt, w3) := when (trunc && negb (s_last_good s =? n)) (truncate_flush (s_last_good s)) w2 in
          match rt with
          | Throw e => (Throw e, (q, w3))
          | Ok _ => (Ok (result_of s), (s_last_sequence s, w3))
          end
      end
  end.
Proof.
  unfold recover, truncate_flush, mbind, M_bind, on_snd, on_fst, when, put. fold p.
  destruct (file_size p w) as [[n|e] w1]; [|done].
  destruct (recover_loop _ _ _ _ _ _) as [[s|e] w2]; [|done].
  destruct (trunc && _); [|done]. destruct (truncate p _ w2) as [[[]|e] w3]; [|done].
  destruct (bool_decide _); [|done]. by destruct (flush_all p w3) as [[[]|e] w4].
Qed.

(** The contract of [recover]: the scan's result and the truncated file, or an error that
    leaves the file as it was or truncated; and no I/O error on reliable storage. *)
Lemma recover_scan base snap trunc q c (w : W) :
  file_of w p = Some c →
  ∃ r q' w', recover j base snap trunc (q, w) = (r, (q', w')) ∧ same_but p w w' ∧
    match r with
    | Ok r => ∃ s, scan_all ck snap c (initial_scan base snap) = Ok s ∧ r = result_of s ∧
                   q' = s_last_sequence s ∧ file_of w' p = Some (kept trunc s c)
    | Throw _ => q' = q ∧ (file_of w' p = Some c ∨
        ∃ s, scan_all ck snap c (initial_scan base snap) = Ok s ∧ file_of w' p = Some (kept trunc s c))
    end ∧
    (reliable w → reliable w' ∧ r = (s ← scan_all ck snap c (initial_scan base snap); Ok (result_of s))).
Proof.
  intros Hc. rewrite recover_unfold.
  destruct (computes_size p c w Hc) as (r1 & w1 & -> & Hs1 & Hr1 & Hok1).
  destruct Hr1 as [->|[e ->]].
  2:{ do 3 eexists. split; [done|]. split_and!; [by apply same_but_files|done|left; by rewrite Hs1|].
      by intros [[=] ?]%Hok1. }
  assert (file_of w1 p = Some c) as Hc1 by by rewrite Hs1.
  destruct (recover_loop_scan (Z.to_nat (size c)) c snap (initial_scan base snap) w1 Hc1 ltac:(done))
    as (r2 & w2 & -> & Hs2 & Hr2 & Hok2).
  assert (scan_loop ck snap (Z.to_nat (size c)) c (initial_scan base snap)
          = scan_all ck snap c (initial_scan base snap)) as Escan.
  { unfold scan_all. simpl s_offset. by rewrite Z.sub_0_r. }
  rewrite Escan in *. pose proof (same_files_trans _ _ _ Hs1 Hs2) as Hs12.
  assert (file_of w2 p = Some c) as Hc2 by by rewrite Hs12.
  destruct r2 as [s|e].
  2:{ do 3 eexists. split; [done|]. split_and!; [by apply same_but_files|done|by left|].
      intros [_ [<- ?]%Hok2]%Hok1. done. }
  destruct Hr2 as [Es|[? [=]]].
  destruct (complete_truncated _ _ _ _ _ (eq_sym Es)) as [_ Hgood]; [simpl; pose proof (size_nonneg c); lia|done|].
  unfold when. destruct (trunc && negb (s_last_good s =? size c)) eqn:Etr.
  - apply andb_true_iff in Etr as [-> _].
    destruct (truncate_flush_spec c (s_last_good s) w2 Hc2) as (r3 & w3 & -> & Hs3 & Hf3 & Hr3 & Hok3).
    rewrite truncate_to_take in * by lia.
    destruct r3 as [[]|e]; do 3 eexists; (split; [done|]); (split; [by eapply same_but_trans; [apply same_but_files|]|]; split).
    + exists s. split_and!; try done. by apply Hr3.
    + intros [_ [_ [_ ?]%Hok3]%Hok2]%Hok1. by rewrite <- Es.
    + split; [done|]. destruct Hf3; [by left|]. right. by exists s.
    + by intros [_ [_ [[=] ?]%Hok3]%Hok2]%Hok1.
  - do 3 eexists. split; [done|]. split; [by apply same_but_files|]. split.
    + exists s. split_and!; try done. unfold kept. rewrite Hc2. destruct trunc; [|done].
      apply negb_false_iff, Z.eqb_eq in Etr. rewrite Etr. unfold size. by rewrite Nat2Z.id, firstn_all.
    + intros [_ [_ ?]%Hok2]%Hok1. by rewrite <- Es.
Qed.
End on_storage.

(** ** [journal::append] and [journal::load] *)

(** [loc_holds c l data]: the bytes of [c] that [l] designates are [data]. *)
Record loc_holds (c : list byte) (l : loc) (data : list byte) : Prop := {
  lh_size : l_size l = size data;
  lh_checksum : l_checksum l = crc32c data;
  lh_bounds : 0 ≤ l_offset l ∧ l_offset l + l_size l ≤ size c;
  lh_slice : slice c (l_offset l) (l_size l) = data
}.
Lemma loc_holds_app c x l data : loc_holds c l data → loc_holds (c ++ x) l data.
Proof.
  intros [Hs Hc Hb Hd]. pose proof (size_nonneg data). pose proof (size_nonneg x).
  split; [done|done|rewrite size_app; lia|]. by rewrite slice_app_l by lia.
Qed.
Lemma loc_holds_mid before data after k :
  loc_holds (before ++ data ++ after) (Loc k (size before) (size data) (crc32c data)) data.
Proof.
  split; [done|done| |apply slice_mid]. simpl. autorewrite with size.
  pose proof (size_nonneg before). pose proof (size_nonneg after). lia.
Qed.

(** Header and payload of a frame, and of an encoded update. *)
Lemma log_frame_split ck r :
  ∃ h t, log_frame ck r = h ++ lr_payload r ++ t ∧ size h = 40.
Proof.
  rewrite log_frame_eq. unfold frame_of, body_of, record_body.
  exists (prefix_of_record r ++ scalar 2 record_format ++ scalar 2 (lr_type r) ++
          scalar 8 (lr_sequence r) ++ scalar 8 (lr_transaction r) ++ scalar 8 (size (lr_payload r))),
         (scalar 4 (checksum_of ck r)).
  rewrite <- !app_assoc. split; [done|]. by autorewrite with size.
Qed.
#[local] Transparent encode_update.
Lemma encode_update_split u :
  ∃ h, e_bytes (encode_update u) = h ++ u_payload u ∧ size h = e_payload_offset (encode_update u).
Proof. by eexists. Qed.
#[local] Opaque encode_update.

Section appending.
Context (j : journal) (tx : Z).

Lemma update_locs_hold before seq updates after :
  Forall2 (loc_holds (before ++ log_bytes (j_checksums j) (update_records tx seq updates) ++ after))
    (update_locs (size before) updates) (u_payload <$> updates).
Proof.
  revert before seq. induction updates as [|u updates IH]; intros before seq; simpl; constructor.
  - destruct (log_frame_split (j_checksums j)
      (LogRecord rt_root_update (seq + 1) tx (e_bytes (encode_update u)))) as (h & t & E & Hh).
    destruct (encode_update_split u) as (h' & E' & Hh'). rewrite E. simpl lr_payload. rewrite E'.
    rewrite <- !app_assoc, (app_assoc before h), (app_assoc (before ++ h) h').
    replace (size before + 40 + e_payload_offset (encode_update u)) with (size ((before ++ h) ++ h'))
      by (rewrite !size_app; lia). apply loc_holds_mid.
  - specialize (IH (before ++ log_frame (j_checksums j)
      (LogRecord rt_root_update (seq + 1) tx (e_bytes (encode_update u)))) (seq + 1)).
    rewrite size_app, size_log_frame in IH. simpl in IH. rewrite <- !app_assoc in *.
    by replace (size before + 44 + size (e_bytes (encode_update u)))
      with (size before + (44 + size (e_bytes (encode_update u)))) by lia.
Qed.
Lemma batch_locs_hold c seq updates :
  Forall2 (loc_holds (c ++ batch_bytes j tx seq updates))
    (update_locs (size c + 44) updates) (u_payload <$> updates).
Proof.
  unfold batch_bytes, batch_records. simpl. unfold log_bytes. rewrite flat_map_app.
  rewrite app_assoc.
  replace (size c + 44) with (size (c ++ log_frame (j_checksums j) (begin_record tx seq)))
    by (by autorewrite with size). apply update_locs_hold.
Qed.

Context {W : Type} `{storage_reliable W}.
Let p := j_path j.

Lemma journal_append_spec c seq updates (w : W) :
  file_of w p = Some c → 0 ≤ seq → seq + size updates + 2 < u64_bound →
  ∃ r w', journal_append j tx updates (seq, w) = (r, (seq + size updates + 2, w')) ∧ same_but p w w' ∧
    match r with
    | Ok locs => locs = update_locs (size c + 44) updates ∧
                 file_of w' p = Some (c ++ batch_bytes j tx seq updates)
    | Throw _ => ∃ k, file_of w' p = Some (c ++ take k (batch_bytes j tx seq updates))
    end ∧ (reliable w → reliable w' ∧ r = Ok (update_locs (size c + 44) updates)).
Proof.
  intros Hc Hq0 Hs. unfold journal_append, mbind, M_bind, on_fst, on_snd, get, put.
  rewrite build_batch_spec by done. fold (batch_bytes j tx seq updates). fold p.
  pose proof (append_law p (batch_bytes j tx seq updates) w) as Hl.
  pose proof (λ Hr, append_ok p (batch_bytes j tx seq updates) w Hr (mk_is_Some _ _ Hc)) as Hok.
  destruct (append p _ w) as [[off|e] w1].
  2:{ do 2 eexists. split; [done|]. destruct Hl as [Hb Hf]. split_and!; [done| |].
      - destruct Hf as [->|(c' & k & Hc' & ->)].
        + exists 0%nat. by rewrite take_0, app_nil_r.
        + exists k. congruence.
      - by intros (? & ? & [=] & ?)%Hok. }
  destruct Hl as (Hb & c' & Hc' & -> & Hw1). assert (c' = c) as -> by congruence.
  rewrite shift_update_locs. unfold when. destruct (bool_decide _).
  2:{ do 2 eexists. split; [done|]. split_and!; [done|done|done|]. by intros (? & ? & [= <- <-] & ?)%Hok. }
  pose proof (flush_data_law p w1) as Hf.
  pose proof (λ Hr, flush_data_ok p w1 Hr (mk_is_Some _ _ Hw1)) as Hok2.
  destruct (flush_data p w1) as [[u|e] w2]; simpl in Hf; do 2 eexists; (split; [done|]);
    (split; [by eapply same_but_trans, same_but_files|]); split.
  - by rewrite Hf.
  - intros (? & ? & [= <- <-] & (? & [= _ <-] & ?)%Hok2)%Hok. done.
  - exists (length (batch_bytes j tx seq updates)). by rewrite firstn_all, Hf.
  - intros (? & ? & [= <- <-] & (? & [=] & ?)%Hok2)%Hok.
Qed.

(** [journal::load] of a locator that holds gives its bytes. *)
Lemma journal_read_holds c l data off n (w : W) :
  file_of w p = Some c → loc_holds c l data → l_kind l = src_journal →
  0 ≤ off → 0 ≤ n → off + n ≤ size data →
  computes (journal_read j l off n) w (Ok (slice data off n)).
Proof.
  intros Hc [Hs Hx Hb Hd] Hk Ho Hn Hle. unfold journal_read. fold p.
  rewrite Hs, Hk in *. simpl negb. cbn iota.
  destruct (Z.gtb_spec off (size data)); [lia|].
  destruct (Z.gtb_spec n (size data - off)); [lia|]. simpl orb. cbn iota.
  replace (slice data off n) with (slice c (l_offset l + off) n); [by apply computes_read; [|lia..]|].
  rewrite <- Hd. symmetry. apply slice_slice; lia.
Qed.
Lemma journal_load_holds c l data (w : W) :
  file_of w p = Some c → loc_holds c l data → l_kind l = src_journal → size data < u64_bound →
  computes (journal_load j l) w (Ok data).
Proof.
  intros Hc Hl Hk Hu. unfold journal_load. pose proof (size_nonneg data).
  pose proof (lh_size _ _ _ Hl) as Hs. rewrite Hs.
  destruct (Z.gtb_spec (size data) (u64_bound - 1)); [lia|].
  eapply computes_step; [eapply journal_read_holds; [done|done|done|lia..]|].
  - intros w' _. rewrite slice_all, (lh_checksum _ _ _ Hl), Z.eqb_refl, andb_false_r.
    apply computes_ret.
Qed.
End appending.
