(* ===== verification/Damage.v ===== *)
(** * Damage to the journal: what its reader makes of bytes that no [journal::append] wrote.

    The reader throws nothing but [corruption_error].  After a power failure, what follows the synced
    part of the journal may be anything; [damage_detected] says of such bytes that the checks of the
    reader accept no record there but those that were written.  Then a scan finds some records of
    the batch, in order, and stops at the end or throws. *)
From S2P Require Import Prelude.
From S2P Require Import Binary.
From S2P Require Import Codec.
From S2P Require Import Storage.
From S2P Require Import Journal.
From S2P Require Import Recovery.

(** ** Errors of the reader *)
Lemma safe_decode_update b off e : decode_update b off = Throw e → is_corruption e.
Proof.
  assert (safe_at (decode_update_reader (size b) off) b) as Hs.
  { apply safe_bind; [done|]. intros name r1 _. apply safe_bind; [done|]. intros ev r2 _.
    apply safe_bind; [done|]. intros nv r3 _. apply safe_bind; [done|]. intros t r4 _.
    apply safe_bind; [done|]. intros n r5 _. apply safe_bind; [done|]. intros r6 r7 _.
    apply safe_if; [done|]. apply safe_bind; [done|]. intros p r8 _.
    apply safe_bind; [done|]. intros r9 r10 _. by apply safe_if. }
  unfold decode_update, run. unfold safe_at in Hs. destruct (decode_update_reader _ _ b) as [[u|e'] r]; simpl; [done|].
  by intros [= <-].
Qed.
Lemma safe_run {A} (m : M reader A) r e : safe_at m r → run m r = Throw e → is_corruption e.
Proof. unfold safe_at, run. destruct (m r) as [[a|e'] r']; simpl; [done|]. by intros ? [= <-]. Qed.

Lemma apply_updates_corruption us roots e : apply_updates us roots = Throw e → is_corruption e.
Proof.
  revert roots. induction us as [|u us IH]; intros roots; simpl; [done|].
  unfold apply_update. case_match; simpl; [apply IH|]. case_match; simpl; [|apply IH].
  intros [= <-]. by eexists.
Qed.
Lemma process_record_corruption type tx payload off roots pending e :
  process_record type tx payload off roots pending = Throw e → is_corruption e.
Proof.
  unfold process_record. case_match; [done|]. case_match.
  { case_match; [intros [= <-]; by eexists|]. destruct (decode_update _ _) as [u|e'] eqn:E; simpl; [done|].
    intros [= <-]. by eapply safe_decode_update. }
  case_match; [|intros [= <-]; by eexists].
  destruct (pending !! tx) as [[us [|]]|]; [|intros [= <-]; by eexists..].
  destruct (run _ payload) as [n|e'] eqn:E; simpl.
  - case_match; [intros [= <-]; by eexists|]. destruct (apply_updates us roots) as [r|e'] eqn:Ea; simpl; [done|].
    intros [= <-]. by eapply apply_updates_corruption.
  - intros [= <-]. eapply safe_run; [|done]. apply safe_bind; [done|]. intros a r _.
    apply safe_bind; [done|]. intros a' r' _. done.
Qed.
Lemma safe_read_prefix p : safe_at read_prefix p.
Proof.
  apply safe_bind; [done|]. intros m r _. apply safe_if; [done|].
  apply safe_bind; [done|]. intros m' r' _. by apply safe_if.
Qed.
Lemma safe_read_body p : safe_at read_body p.
Proof.
  apply safe_bind; [done|]. intros ? ? _. apply safe_if; [done|].
  do 4 (apply safe_bind; [done|]; intros ? ? _). apply safe_bind; [done|]. intros ? ? _.
  apply safe_if; [done|]. apply safe_bind; [done|]. intros ? ? _.
  apply safe_bind; [done|]. intros ? ? _. by apply safe_if.
Qed.
Lemma read_frame_corruption ck f e : read_frame ck f = Throw e → is_corruption e.
Proof.
  unfold read_frame. case_match; [intros [= <-]; by eexists|].
  destruct (run (r_scalar 4) _) as [c|e'] eqn:E; simpl; [|intros [= <-]; eapply safe_run; [apply safe_scalar|done]].
  case_match; [intros [= <-]; by eexists|]. intros E'. eapply safe_run; [apply safe_read_body|done].
Qed.
Lemma process_frame_corruption ck snap f s e : process_frame ck snap f s = Throw e → is_corruption e.
Proof.
  unfold process_frame. destruct (read_frame ck f) as [[[[t q] x] p]|e'] eqn:E; simpl.
  2:{ intros [= <-]. by eapply read_frame_corruption. }
  case_match; [intros [= <-]; by eexists|]. destruct (process_record _ _ _ _ _ _) as [r|e'] eqn:E'; simpl; [done|].
  intros [= <-]. by eapply process_record_corruption.
Qed.
Lemma scan_step_corruption ck snap c s e : scan_step ck snap c s = Throw e → is_corruption e.
Proof.
  unfold scan_step. case_match; [done|]. destruct (run read_prefix _) as [n|e'] eqn:E; simpl.
  2:{ intros [= <-]. eapply safe_run; [apply safe_read_prefix|done]. }
  case_match; [done|]. destruct (process_frame _ _ _ _) as [n'|e'] eqn:E'; simpl; [done|].
  intros [= <-]. by eapply process_frame_corruption.
Qed.

(** ** Records that pass the checks *)

(** The reader takes the first [n] bytes for a whole record. *)
Definition accepted (checksums : bool) (b : list byte) (n : Z) : Prop :=
  prefix_size ≤ size b ∧ ∃ m, run read_prefix (slice b 0 prefix_size) = Ok m ∧ n = prefix_size + m ∧ n ≤ size b ∧
    is_ok (read_frame checksums (slice b prefix_size m)).
(** Where a record of [records] was written the reader accepts that record or none. *)
Definition damage_detected (checksums : bool) (records : list log_record) (t : list byte) : Prop :=
  ∀ j rest n, t = log_bytes checksums (take j records) ++ rest → accepted checksums rest n →
    ∃ r, records !! j = Some r ∧ take (Z.to_nat n) rest = log_frame checksums r.

Section damage.
Context (checksums : bool) (snapshot_sequence : Z).

Lemma accepted_mid before rest s :
  s_offset s = size before → (∀ n, ¬ accepted checksums rest n) →
  scan_step checksums snapshot_sequence (before ++ rest) s = Ok None ∨
  ∃ what, scan_step checksums snapshot_sequence (before ++ rest) s = Throw (corruption_error what).
Proof.
  intros Ho Hn. destruct (scan_step _ _ _ s) as [[s'|]|e] eqn:E; [|by left|].
  2:{ right. apply scan_step_corruption in E as [what ->]. by exists what. }
  exfalso. revert E. unfold scan_step. rewrite size_app, Ho.
  replace (size before + size rest - size before) with (size rest) by lia.
  destruct (Z.ltb_spec (size rest) prefix_size); [done|].
  assert (∀ off k, 0 ≤ off → 0 ≤ k → slice (before ++ rest) (size before + off) k = slice rest off k) as Hsl.
  { intros off k ? ?. unfold slice, size. rewrite drop_app_ge by lia. do 2 f_equal. lia. }
  pose proof (Hsl 0 prefix_size) as E0. rewrite Z.add_0_r in E0. rewrite E0 by (unfold prefix_size; lia).
  intros (m & Hm & H2)%bind_result_ok. pose proof (read_prefix_inv _ _ Hm).
  destruct (Z.gtb_spec m (size rest - prefix_size)); [done|]. apply bind_result_ok in H2 as (s2 & Hp & _).
  rewrite Hsl in Hp by (unfold prefix_size; lia). unfold process_frame in Hp. apply bind_result_ok in Hp as (f & Hf & _).
  apply (Hn (prefix_size + m)). split; [done|]. exists m. split_and!; [done|done|lia|by eexists].
Qed.
(** Damaged bytes begin with some of the records, and after those nothing passes the checks. *)
Lemma detected_split records t :
  damage_detected checksums records t → size t ≤ size (log_bytes checksums records) →
  ∃ j rest, t = log_bytes checksums (take j records) ++ rest ∧ (j ≤ length records)%nat ∧
    (j = length records → rest = []) ∧ ∀ n, ¬ accepted checksums rest n.
Proof.
  revert t. induction records as [|r records IH]; intros t Hd Hsz.
  { simpl in Hsz. rewrite size_nil in Hsz. assert (t = []) as -> by (destruct t as [|b t]; [done|]; rewrite size_cons in Hsz; pose proof (size_nonneg t); lia).
    exists O, []. split_and!; [done|done|done|]. intros n [Hp _]. rewrite size_nil in Hp. unfold prefix_size in Hp. lia. }
  destruct (decide (take (length (log_frame checksums r)) t = log_frame checksums r)) as [E|E].
  - pose proof (take_drop (length (log_frame checksums r)) t) as Et. rewrite E in Et. set (t' := drop _ t) in Et.
    destruct (IH t') as (j & rest & Ej & Hj & Hr & Hn).
    + intros j rest n Ht Ha. apply (Hd (S j) rest n); [|done]. simpl. by rewrite <- app_assoc, <- Ht, Et.
    + rewrite <- Et in Hsz. simpl in Hsz. rewrite !size_app in Hsz. lia.
    + exists (S j), rest. split_and!; [|simpl; lia|intros [=]; auto|done]. simpl. by rewrite <- app_assoc, <- Ej, Et.
  - exists O, t. split_and!; [done|lia|done|]. intros n Ha. destruct (Hd O t n eq_refl Ha) as (r' & [= <-] & Er).
    apply E. rewrite <- Er, length_take. destruct (Nat.le_ge_cases (Z.to_nat n) (length t)).
    + by rewrite Nat.min_l.
    + by rewrite Nat.min_r, !take_ge by lia.
Qed.
(** A scan of a journal whose synced part is complete, with a damaged batch after it: it ends with
    the roots of before, or of the whole batch, or throws. *)
Lemma scan_damaged c s0 s records t :
  complete checksums snapshot_sequence c s0 s → 0 ≤ s_offset s0 → Forall wf_record records →
  (∀ j, (j ≤ length records)%nat → ∃ s', replay snapshot_sequence (take j records) s = Ok s') →
  damage_detected checksums records t → size t ≤ size (log_bytes checksums records) →
  t = log_bytes checksums records ∨
  (∃ j s', (j < length records)%nat ∧ replay snapshot_sequence (take j records) s = Ok s' ∧
     scan_all checksums snapshot_sequence (c ++ t) s0 = Ok s') ∨
  ∃ what, scan_all checksums snapshot_sequence (c ++ t) s0 = Throw (corruption_error what).
Proof.
  intros (H1 & H2 & H3) Ho Hw Hrep Hd Hsz. destruct (detected_split records t Hd Hsz) as (j & rest & -> & Hj & Hend & Hn).
  destruct (decide (j = length records)) as [->|Hne].
  { left. by rewrite (Hend eq_refl), app_nil_r, firstn_all. }
  right. destruct (Hrep j Hj) as [s' Hs'].
  destruct (stepped_records checksums snapshot_sequence c (take j records) rest s s' (Forall_take _ _ _ Hw) H2 Hs') as [Hst Hoff].
  rewrite (scan_all_app _ _ _ _ _ _ H1 Ho H2). pose proof (size_nonneg c).
  assert (0 ≤ s_offset s') by (rewrite Hoff; auto).
  rewrite (scan_all_steps _ _ _ _ _ Hst) by lia. rewrite scan_all_unfold by lia.
  destruct (Z.ltb_spec (s_offset s') (size (c ++ log_bytes checksums (take j records) ++ rest))).
  2:{ left. exists j, s'. split_and!; [lia|done|done]. }
  rewrite (app_assoc c). destruct (accepted_mid (c ++ log_bytes checksums (take j records)) rest s' Hoff Hn) as [->|[what ->]].
  - left. exists j, s'. split_and!; [lia|done|done].
  - right. by exists what.
Qed.

(** A part of the batch is no damage the reader could miss. *)
Lemma part_detected records k :
  Forall wf_record records → damage_detected checksums records (take k (log_bytes checksums records)).
Proof.
  intros Hw j rest n E (Hsz & m & Hm & -> & Hn & _).
  assert (∃ k', rest = take k' (log_bytes checksums (drop j records))) as [k' ->].
  { assert (log_bytes checksums records = log_bytes checksums (take j records) ++ log_bytes checksums (drop j records)) as El
      by (unfold log_bytes; by rewrite <- flat_map_app, take_drop).
    pose proof (f_equal length E) as Hlen. rewrite length_take, length_app in Hlen.
    exists (k - length (log_bytes checksums (take j records)))%nat. rewrite El, take_app in E.
    rewrite take_ge in E by lia. by apply app_inv_head in E. }
  destruct (drop j records) as [|r l] eqn:Ed.
  { simpl in Hsz. rewrite take_nil, size_nil in Hsz. unfold prefix_size in Hsz. lia. }
  assert (records !! j = Some r) as Hr by (by rewrite <- (Nat.add_0_r j), <- lookup_drop, Ed).
  exists r. split; [done|]. simpl in *. rewrite size_take in Hsz, Hn.
  pose proof (size_log_frame checksums r) as Hlf. pose proof (size_prefix_of_record r) as Hpr.
  unfold slice in Hm. change (Z.to_nat 0) with O in Hm. rewrite drop_0 in Hm. rewrite take_take, Nat.min_l in Hm by (unfold prefix_size in *; lia).
  rewrite log_frame_eq, <- app_assoc in Hm.
  replace (Z.to_nat prefix_size) with (length (prefix_of_record r)) in Hm by (unfold size, prefix_size in *; lia).
  rewrite take_app_length, read_prefix_of_record in Hm by by eapply Forall_lookup_1. injection Hm as <-.
  rewrite take_take, Nat.min_l by lia.
  replace (Z.to_nat (prefix_size + (size (lr_payload r) + 32))) with (length (log_frame checksums r)) by (unfold size, prefix_size in *; lia).
  by rewrite take_app_length.
Qed.
End damage.
