(* ===== verification/Snapshot.v ===== *)
(** * Snapshots: [detail/snapshot.hpp], [snapshot_format.hpp], [snapshot_image.hpp],
    [indexed_root.hpp], [ordered_roots.hpp].

    A snapshot is a header, an index of the roots in name order, and their payloads.  The file
    models saving and loading over the storage interface, gives the bytes a snapshot consists of
    ([snapshot_bytes]) and the pure parser of such bytes ([parse_snapshot]), and relates the
    four. *)
From S2P Require Import Prelude.
From S2P Require Import Binary.
From S2P Require Import Codec.
From S2P Require Import OrderedMap.
From S2P Require Import Storage.
From S2P Require Import Journal.
From S2P Require Import Recovery.

(** ** Data *)
Definition snapshot_magic : Z := 0x3250414e53504f.
Definition snapshot_format : Z := 2.
Definition header_size : Z := 8 + 4 + 8 + 8 + 8 + 4 + 4.
Definition copy_chunk : Z := 64 * 1024.
Definition max_root_count : Z := 10000000.

Record snapshot_image := Image { i_roots : gmap string root_record; i_sequence : Z }.
Record indexed_root := IndexedRoot { x_name : string; x_record : root_record; x_offset : Z }.
Record snapshot_store := SnapshotStore {
  sn_path : string; sn_durability : durability_mode; sn_checksums : bool }.

(** ** Ordering the roots *)

(** [std::sort] by name, of elements with different names. *)
Definition sorted_roots (roots : gmap string root_record) : list (string * root_record) :=
  foldl (λ acc e, om_put e.1 e.2 acc) [] (map_to_list roots).
Fixpoint place_roots (offset : Z) (roots : list (string * root_record)) : result (list indexed_root) :=
  match roots with
  | [] => Ok []
  | (name, record) :: roots =>
      if l_size (rr_payload record) >? u64_bound - 1 - offset
      then Throw (storage_error "snapshot payload size overflow")
      else
        rest ← place_roots (offset + l_size (rr_payload record)) roots;
        Ok (IndexedRoot name record offset :: rest)
  end.
Definition ordered_roots (image : snapshot_image) : result (list indexed_root) :=
  place_roots 0 (sorted_roots (i_roots image)).

(** ** The file format *)
Definition index_entry (root : indexed_root) : writer :=
  w_string (x_name root) ++ scalar 8 (rr_version (x_record root)) ++
  w_string (rr_type (x_record root)) ++ scalar 8 (x_offset root) ++
  scalar 8 (l_size (rr_payload (x_record root))) ++
  scalar 4 (l_checksum (rr_payload (x_record root))).
Definition index_bytes (roots : list indexed_root) : writer := flat_map index_entry roots.
Definition header_bytes (checksums : bool) (sequence : Z) (roots : list indexed_root) : writer :=
  let index := index_bytes roots in
  let header_without_crc :=
    scalar 8 snapshot_magic ++ scalar 4 snapshot_format ++ scalar 8 sequence ++
    scalar 8 (size roots) ++ scalar 8 (size index) ++
    scalar 4 (if checksums then crc32c index else 0) in
  header_without_crc ++ scalar 4 (if checksums then crc32c header_without_crc else 0).

Record header_fields := HeaderFields {
  h_sequence : Z; h_root_count : Z; h_index_size : Z; h_index_crc : Z; h_header_crc : Z }.
Definition read_header : M reader header_fields :=
  magic ← r_scalar 8;
  if negb (magic =? snapshot_magic) then throw (corruption_error "snapshot magic mismatch")
  else
    format ← r_scalar 4;
    if negb (format =? snapshot_format) then throw (corruption_error "unsupported snapshot format")
    else
      sequence ← r_scalar 8;
      root_count ← r_scalar 8;
      index_size ← r_scalar 8;
      index_crc ← r_scalar 4;
      header_crc ← r_scalar 4;
      h ← get;
      if negb (eof h) then throw (corruption_error "snapshot header contains trailing bytes")
      else mret (HeaderFields sequence root_count index_size index_crc header_crc).
(** The fields of one index entry, in reading order. *)
Record entry_fields := EntryFields {
  f_name : string; f_version : Z; f_type : string; f_relative : Z; f_size : Z; f_checksum : Z }.
Definition read_entry : M reader entry_fields :=
  name ← r_string;
  version ← r_scalar 8;
  type ← r_string;
  relative ← r_scalar 8;
  size ← r_scalar 8;
  checksum ← r_scalar 4;
  mret (EntryFields name version type relative size checksum).
Definition add_root (data_base : Z) (f : entry_fields) (roots : gmap string root_record)
    : result (gmap string root_record) :=
  match roots !! f_name f with
  | Some _ => Throw (corruption_error "snapshot contains duplicate root")
  | None =>
      Ok (<[f_name f := RootRecord (f_version f) (f_type f)
              (Loc src_snapshot (data_base + f_relative f) (f_size f) (f_checksum f))]> roots)
  end.
Definition exceeds_file : error := corruption_error "snapshot payload locator exceeds file".

(** ** Operations *)
Section snapshot_operations.
Context {W : Type} `{storage W} (sn : snapshot_store).
Let path := sn_path sn.

(** [snapshot_store::load]; the file size is asked for again wherever the code does. *)
Definition load_root (data_base : Z) (roots : gmap string root_record)
    : M (reader * W) (gmap string root_record) :=
  f ← on_fst read_entry;
  n ← on_snd (file_size path);
  if f_relative f >? n - data_base then throw exceeds_file
  else
    n ← on_snd (file_size path);
    if f_size f >? n - data_base - f_relative f then throw exceeds_file
    else lift_result (add_root data_base f roots).
Fixpoint load_roots (count : nat) (data_base : Z) (roots : gmap string root_record)
    : M (reader * W) (gmap string root_record) :=
  match count with
  | O =>
      r ← on_fst get;
      if negb (eof r) then throw (corruption_error "snapshot index contains trailing bytes")
      else mret roots
  | S count => roots ← load_root data_base roots; load_roots count data_base roots
  end.
Definition load_index (h : header_fields) : M W snapshot_image :=
  n ← file_size path;
  if h_index_size h >? n - header_size
  then throw (corruption_error "snapshot index exceeds file")
  else if h_index_size h >? u64_bound - 1
  then throw (storage_error "snapshot index is too large for this process")
  else
    index ← (if h_index_size h =? 0 then mret [] else read_exact path header_size (h_index_size h));
    if sn_checksums sn && negb (h_index_crc h =? crc32c index)
    then throw (corruption_error "snapshot index checksum mismatch")
    else
      roots ← with_local index
                (load_roots (Z.to_nat (h_root_count h)) (header_size + h_index_size h) ∅);
      mret (Image roots (h_sequence h)).
Definition snapshot_load : M W snapshot_image :=
  present ← exists_ path;
  if negb present then mret (Image ∅ 0)
  else
    _ ← open_file path false;
    n ← file_size path;
    if n =? 0 then mret (Image ∅ 0)
    else
      n ← file_size path;
      if n <? header_size then throw (corruption_error "snapshot is truncated")
      else
        header ← read_exact path 0 header_size;
        h ← lift_result (run read_header header);
        if sn_checksums sn && negb (h_header_crc h =? crc32c (take (Z.to_nat (header_size - 4)) header))
        then throw (corruption_error "snapshot header checksum mismatch")
        else if h_root_count h >? max_root_count
        then throw (corruption_error "snapshot root count is implausible")
        else load_index h.

(** [snapshot_store::save]: [payload_reader] reads [count] bytes of a root's payload. *)
Section save.
Context (read_payload : root_record → Z → Z → M W (list byte)).
Definition temporary : string := path +:+ ".tmp".

(** The copy loop of one root; it ends because every turn copies at least a byte. *)
Fixpoint copy_payload (fuel : nat) (data_base copied : Z) (root : indexed_root) : M W unit :=
  let total := l_size (rr_payload (x_record root)) in
  if copied <? total then
    match fuel with
    | O => throw out_of_fuel
    | S fuel =>
        let amount := Z.min copy_chunk (total - copied) in
        out ← read_payload (x_record root) copied amount;
        _ ← write_exact temporary (data_base + x_offset root + copied) out;
        copy_payload fuel data_base (copied + amount) root
    end
  else mret tt.
Definition copy_root (data_base : Z) (root : indexed_root) : M W unit :=
  copy_payload (Z.to_nat (l_size (rr_payload (x_record root)))) data_base 0 root.
Definition saved_roots (data_base : Z) (roots : list indexed_root) : gmap string root_record :=
  foldl (λ acc root,
    if decide (acc !! x_name root = None) then
      <[x_name root := RootRecord (rr_version (x_record root)) (rr_type (x_record root))
          (Loc src_snapshot (data_base + x_offset root) (l_size (rr_payload (x_record root)))
             (l_checksum (rr_payload (x_record root))))]> acc
    else acc) ∅ roots.
Definition snapshot_save (image : snapshot_image) : M W snapshot_image :=
  roots ← lift_result (ordered_roots image);
  let index := index_bytes roots in
  let header := header_bytes (sn_checksums sn) (i_sequence image) roots in
  if negb (size header =? header_size)
  then throw (storage_error "internal snapshot header size mismatch")
  else
    _ ← open_file temporary true;
    _ ← truncate temporary 0;
    _ ← write_exact temporary 0 header;
    _ ← when (negb (bool_decide (index = []))) (write_exact temporary header_size index);
    let data_base := header_size + size index in
    _ ← forM roots (copy_root data_base);
    _ ← when (bool_decide (sn_durability sn = strict)) (flush_all temporary);
    _ ← atomic_replace temporary path;
    _ ← when (bool_decide (sn_durability sn = strict)) (sync_directory (parent_path path));
    mret (Image (saved_roots data_base roots) (i_sequence image)).
End save.

(** [snapshot_store::read] and the second [snapshot_store::load]. *)
Definition snapshot_read (where_ : loc) (offset count : Z) : M W (list byte) :=
  if negb (bool_decide (l_kind where_ = src_snapshot))
  then throw (storage_error "snapshot read with non-snapshot locator")
  else if (offset >? l_size where_) || (count >? l_size where_ - offset)
  then throw (corruption_error "snapshot payload read exceeds locator")
  else _ ← open_file path false; read_exact path (l_offset where_ + offset) count.
Definition snapshot_load_payload (where_ : loc) : M W (list byte) :=
  if l_size where_ >? u64_bound - 1
  then throw (storage_error "snapshot payload is too large for this process")
  else
    bytes ← snapshot_read where_ 0 (l_size where_);
    if sn_checksums sn && negb (crc32c bytes =? l_checksum where_)
    then throw (corruption_error "snapshot payload checksum mismatch")
    else mret bytes.
End snapshot_operations.
