(* ===== verification/SnapshotImage.v ===== *)
(** * What a snapshot holds: loading computes a parse of the file, and saving writes a file that
    parses back to the saved image. *)
From S2P Require Import Prelude.
From S2P Require Import Binary.
From S2P Require Import Codec.
From S2P Require Import OrderedMap.
From S2P Require Import Storage.
From S2P Require Import Journal.
From S2P Require Import Recovery.
From S2P Require Import Snapshot.

(** ** Loading as a function of the contents *)
Definition parse_root (file_size data_base : Z) (roots : gmap string root_record)
    : M reader (gmap string root_record) :=
  f ← read_entry;
  if f_relative f >? file_size - data_base then throw exceeds_file
  else if f_size f >? file_size - data_base - f_relative f then throw exceeds_file
  else lift_result (add_root data_base f roots).
Fixpoint parse_roots (count : nat) (file_size data_base : Z) (roots : gmap string root_record)
    : M reader (gmap string root_record) :=
  match count with
  | O =>
      r ← get;
      if negb (eof r) then throw (corruption_error "snapshot index contains trailing bytes")
      else mret roots
  | S count =>
      roots ← parse_root file_size data_base roots; parse_roots count file_size data_base roots
  end.
Definition parse_index (checksums : bool) (c : list byte) (h : header_fields) : result snapshot_image :=
  if h_index_size h >? size c - header_size
  then Throw (corruption_error "snapshot index exceeds file")
  else if h_index_size h >? u64_bound - 1
  then Throw (storage_error "snapshot index is too large for this process")
  else
    let index := slice c header_size (h_index_size h) in
    if checksums && negb (h_index_crc h =? crc32c index)
    then Throw (corruption_error "snapshot index checksum mismatch")
    else
      roots ← run (parse_roots (Z.to_nat (h_root_count h)) (size c) (header_size + h_index_size h) ∅) index;
      Ok (Image roots (h_sequence h)).
Definition parse_header (checksums : bool) (c : list byte) : result header_fields :=
  let header := slice c 0 header_size in
  h ← run read_header header;
  if checksums && negb (h_header_crc h =? crc32c (take (Z.to_nat (header_size - 4)) header))
  then Throw (corruption_error "snapshot header checksum mismatch")
  else if h_root_count h >? max_root_count
  then Throw (corruption_error "snapshot root count is implausible")
  else Ok h.
Definition parse_snapshot (checksums : bool) (c : list byte) : result snapshot_image :=
  if size c =? 0 then Ok (Image ∅ 0)
  else if size c <? header_size then Throw (corruption_error "snapshot is truncated")
  else h ← parse_header checksums c; parse_index checksums c h.

Lemma read_header_nonneg b h : run read_header b = Ok h → 0 ≤ h_index_size h.
Proof.
  unfold run. destruct (read_header b) as [[h'|e] b'] eqn:E; simpl; [intros [= ->]|done].
  unfold read_header in E. m_inv E. case_match; [done|]. m_inv E. case_match; [done|].
  do 6 m_inv E. case_match; [done|]. injection E as <- <-. simpl.
  match goal with Hs : r_scalar 8 ?x = (Ok ?y, _) |- 0 ≤ ?y => by apply r_scalar_nonneg in Hs end.
Qed.

Section loading.
Context {W : Type} `{storage_reliable W} (sn : snapshot_store).
Let path := sn_path sn.
Let ck := sn_checksums sn.

(** The same, with a local reader threaded through. *)
Definition computes_local {A} (m : M (reader * W) A) (rd : reader) (w : W)
    (spec : result A * reader) : Prop :=
  ∃ r rd' w', m (rd, w) = (r, (rd', w')) ∧ same_files w w' ∧
    ((r, rd') = spec ∨ ∃ e, r = Throw e) ∧ (reliable w → (r, rd') = spec ∧ reliable w').

Lemma load_root_parse c base roots rd w :
  file_of w path = Some c →
  computes_local (load_root sn base roots) rd w (parse_root (size c) base roots rd).
Proof.
  intros Hc. unfold computes_local, load_root, parse_root, mbind, M_bind, on_fst, on_snd, lift_result, throw.
  fold path. destruct (read_entry rd) as [[f|e] rd'].
  2:{ do 3 eexists. split_and!; [done|apply same_files_refl|by left|done]. }
  destruct (computes_size path c w Hc) as (r1 & w1 & -> & Hs1 & Hr1 & Hok1).
  destruct Hr1 as [->|[e ->]].
  2:{ do 3 eexists. split_and!; [done|done|right; by eexists|]. by intros [[=] ?]%Hok1. }
  destruct (_ >? _).
  { do 3 eexists. split_and!; [done|done|by left|]. by intros [_ ?]%Hok1. }
  destruct (computes_size path c w1 ltac:(by rewrite Hs1)) as (r2 & w2 & -> & Hs2 & Hr2 & Hok2).
  pose proof (same_files_trans _ _ _ Hs1 Hs2).
  destruct Hr2 as [->|[e ->]].
  2:{ do 3 eexists. split_and!; [done|done|right; by eexists|]. by intros [_ [[=] ?]%Hok2]%Hok1. }
  destruct (_ >? _); do 3 eexists; (split_and!; [done|done|by left|]); by intros [_ [_ ?]%Hok2]%Hok1.
Qed.
Lemma load_roots_parse c count base roots rd w :
  file_of w path = Some c →
  computes_local (load_roots sn count base roots) rd w (parse_roots count (size c) base roots rd).
Proof.
  revert roots rd w. induction count as [|count IH]; intros roots rd w Hc; simpl.
  - unfold computes_local, mbind, M_bind, on_fst, get.
    destruct (negb (eof rd)); do 3 eexists; (split_and!; [done|apply same_files_refl|by left|done]).
  - destruct (load_root_parse c base roots rd w Hc) as (r1 & rd1 & w1 & E1 & Hs1 & Hr1 & Hok1).
    unfold computes_local, mbind, M_bind. rewrite E1. destruct r1 as [roots1|e].
    2:{ do 3 eexists. split_and!; [done|done| |].
        - destruct Hr1 as [Hr1|?]; [left; by rewrite <- Hr1|right; by eexists].
        - intros [Hr ?]%Hok1. by rewrite <- Hr. }
    destruct Hr1 as [<-|[? [=]]].
    destruct (IH roots1 rd1 w1 ltac:(by rewrite Hs1)) as (r2 & rd2 & w2 & E2 & Hs2 & Hr2 & Hok2).
    rewrite E2. do 3 eexists. split_and!; [done|by eapply same_files_trans|done|].
    by intros [_ ?%Hok2]%Hok1.
Qed.
Lemma computes_with_local {A} (m : M (reader * W) A) rd w spec :
  computes_local m rd w spec → computes (with_local rd m) w spec.1.
Proof.
  intros (r & rd' & w' & E & Hs & Hr & Hok). unfold computes, with_local. rewrite E.
  do 2 eexists. split_and!; [done|done| |].
  - destruct Hr as [<-|?]; [by left|by right].
  - intros [<- ?]%Hok. done.
Qed.

Lemma load_index_parse c h w :
  file_of w path = Some c → header_size ≤ size c → 0 ≤ h_index_size h →
  computes (load_index sn h) w (parse_index ck c h).
Proof.
  intros Hc Hsz Hh. unfold load_index, parse_index. fold ck path.
  eapply computes_step; [by apply computes_size|]. intros w1 Hs1.
  apply computes_if; [intros _; apply computes_throw|]. intros Hi.
  rewrite Z.gtb_ltb in Hi. apply Z.ltb_ge in Hi.
  apply computes_if; [intros _; apply computes_throw|]. intros _.
  assert (file_of w1 path = Some c) as Hc1 by by rewrite Hs1.
  apply (computes_step _ _ _ (slice c header_size (h_index_size h))).
  { destruct (Z.eqb_spec (h_index_size h) 0) as [->|]; [apply computes_ret|].
    apply computes_read; [done|done|done|lia]. }
  intros w2 Hs2. apply computes_if; [intros _; apply computes_throw|]. intros _.
  apply computes_bind.
  - apply (computes_with_local _ _ _ (parse_roots _ _ _ _ _)), load_roots_parse. by rewrite Hs2.
  - intros. apply computes_ret.
Qed.

(** [snapshot_store::load] parses the file; a missing file is an empty image. *)
Lemma snapshot_load_parse w :
  computes (snapshot_load sn) w
    (match file_of w path with None => Ok (Image ∅ 0) | Some c => parse_snapshot ck c end).
Proof.
  unfold snapshot_load. fold path ck. eapply computes_step; [apply computes_exists|].
  intros w1 Hs1. destruct (file_of w path) as [c|] eqn:Hc.
  2:{ rewrite bool_decide_false by (by intros [? ?]). apply computes_ret. }
  rewrite bool_decide_true by done. simpl negb. cbn iota.
  eapply computes_step; [apply (computes_open _ c); by rewrite Hs1|]. intros w2 Hs2.
  assert (file_of w2 path = Some c) as Hc2 by by rewrite Hs2, Hs1.
  eapply computes_step; [by apply computes_size|]. intros w3 Hs3. unfold parse_snapshot.
  apply computes_if; [intros _; apply computes_ret|]. intros _.
  eapply computes_step; [apply (computes_size _ c); by rewrite Hs3|]. intros w4 Hs4.
  apply computes_if; [intros _; apply computes_throw|]. intros Hsz%Z.ltb_ge.
  eapply computes_step; [apply (computes_read _ c); [by rewrite Hs4, Hs3|done|done|lia]|].
  intros w5 Hs5. unfold parse_header.
  assert (file_of w5 path = Some c) as Hc5 by by rewrite Hs5, Hs4, Hs3.
  destruct (run read_header _) as [h|e] eqn:Eh; [|apply computes_throw].
  apply (computes_step _ _ _ h); [apply computes_pure|]. intros w6 Hs6. simpl.
  destruct (_ && _); [apply computes_throw|]. destruct (_ >? _); [apply computes_throw|].
  apply load_index_parse; [by rewrite Hs6|done|by eapply read_header_nonneg].
Qed.
End loading.

(** ** A written snapshot parses back *)

(** A root whose fields fit their widths, with its payload inside [n] bytes of data. *)
Record wf_indexed (n : Z) (x : indexed_root) : Prop := {
  wx_name : is_u64 (ssize (x_name x));
  wx_version : is_u64 (rr_version (x_record x));
  wx_type : is_u64 (ssize (rr_type (x_record x)));
  wx_offset : is_u64 (x_offset x);
  wx_size : is_u64 (l_size (rr_payload (x_record x)));
  wx_checksum : is_u32 (l_checksum (rr_payload (x_record x)));
  wx_inside : x_offset x + l_size (rr_payload (x_record x)) ≤ n
}.
Definition fields_of (x : indexed_root) : entry_fields :=
  EntryFields (x_name x) (rr_version (x_record x)) (rr_type (x_record x)) (x_offset x)
    (l_size (rr_payload (x_record x))) (l_checksum (rr_payload (x_record x))).
(** The record a root has once it is in the snapshot. *)
Definition saved_record (base : Z) (x : indexed_root) : root_record :=
  RootRecord (rr_version (x_record x)) (rr_type (x_record x))
    (Loc src_snapshot (base + x_offset x) (l_size (rr_payload (x_record x)))
       (l_checksum (rr_payload (x_record x)))).

Ltac read_u64 H :=
  match type of H with is_u64 ?v =>
    match goal with |- context [scalar 8 v ++ ?x] => m_run (r_scalar_u64 v x H) end end.
Ltac read_string H :=
  match type of H with is_u64 (ssize ?s) =>
    match goal with |- context [w_string s ++ ?x] => m_run (r_string_app s x H) end end.
Lemma r_scalar_u32 v rest : is_u32 v → r_scalar 4 (scalar 4 v ++ rest) = (Ok v, rest).
Proof. intros Hv. rewrite r_scalar_scalar. by rewrite Z.mod_small by apply Hv. Qed.
Ltac read_u32 H :=
  match type of H with is_u32 ?v =>
    match goal with |- context [scalar 4 v ++ ?x] => m_run (r_scalar_u32 v x H) end end.

Lemma read_index_entry n x rest :
  wf_indexed n x → read_entry (index_entry x ++ rest) = (Ok (fields_of x), rest).
Proof.
  intros [Hn Hv Ht Ho Hs Hc _]. unfold read_entry, index_entry. rewrite <- !app_assoc.
  read_string Hn. read_u64 Hv. read_string Ht. read_u64 Ho. read_u64 Hs. by read_u32 Hc.
Qed.

(** Every root is added, in order. *)
Definition insert_all (base : Z) (roots : list indexed_root) (acc : gmap string root_record)
    : gmap string root_record :=
  foldl (λ acc x, <[x_name x := saved_record base x]> acc) acc roots.
Lemma fresh_after_insert base x roots (acc : gmap string root_record) :
  NoDup (x_name <$> (x :: roots)) → (∀ y, y ∈ x :: roots → acc !! x_name y = None) →
  ∀ y, y ∈ roots → <[x_name x := saved_record base x]> acc !! x_name y = None.
Proof.
  intros [Hx _]%NoDup_cons Hf y Hy. rewrite lookup_insert_ne; [apply Hf; by right|].
  intros E. apply Hx. rewrite E. by apply list_elem_of_fmap_2.
Qed.
Lemma saved_roots_insert_all base roots :
  NoDup (x_name <$> roots) → saved_roots base roots = insert_all base roots ∅.
Proof.
  intros Hd. unfold saved_roots, insert_all. fold (saved_record base).
  assert (∀ y : indexed_root, y ∈ roots → (∅ : gmap string root_record) !! x_name y = None) as Hf by done.
  revert Hf. generalize (∅ : gmap string root_record). induction roots as [|x roots IH]; intros acc Hf; [done|].
  cbn [foldl]. rewrite decide_True by (apply Hf; by left). fold (saved_record base x).
  apply IH; [by apply NoDup_cons in Hd as [_ ?]|by apply fresh_after_insert].
Qed.
Lemma parse_roots_index base data_size roots acc :
  Forall (wf_indexed data_size) roots → NoDup (x_name <$> roots) →
  (∀ y, y ∈ roots → acc !! x_name y = None) →
  parse_roots (length roots) (base + data_size) base acc (index_bytes roots) =
  (Ok (insert_all base roots acc), []).
Proof.
  intros Hw Hd. revert acc. induction roots as [|x roots IH]; intros acc Hf; [done|].
  apply Forall_cons in Hw as [Hx Hw]. cbn [length parse_roots index_bytes flat_map].
  rewrite (bind_ok _ _ _ (index_bytes roots) (<[x_name x := saved_record base x]> acc)).
  - unfold insert_all. cbn [foldl]. apply IH; [done|by apply NoDup_cons in Hd as [_ ?]|by apply fresh_after_insert].
  - unfold parse_root. m_run (read_index_entry data_size x (index_bytes roots) Hx).
    destruct Hx as [_ _ _ Ho Hs _ Hin]. simpl. unfold is_u64 in *.
    destruct (Z.gtb_spec (x_offset x) (base + data_size - base)); [lia|].
    destruct (Z.gtb_spec (l_size (rr_payload (x_record x))) (base + data_size - base - x_offset x)); [lia|].
    unfold lift_result, add_root. simpl. by rewrite Hf by (by left).
Qed.

(** The bytes of a snapshot with these roots and this data. *)
Definition snapshot_bytes (checksums : bool) (sequence : Z) (roots : list indexed_root)
    (data : list byte) : list byte :=
  header_bytes checksums sequence roots ++ index_bytes roots ++ data.
Definition snapshot_base (roots : list indexed_root) : Z := header_size + size (index_bytes roots).

Lemma size_header_bytes ck seq roots : size (header_bytes ck seq roots) = header_size.
Proof. unfold header_bytes. by autorewrite with size. Qed.
Lemma crc_or_zero_u32 (ck : bool) l : is_u32 (if ck then crc32c l else 0).
Proof. destruct ck; [apply crc32c_u32|done]. Qed.

Definition header_prefix (ck : bool) (seq : Z) (roots : list indexed_root) : writer :=
  scalar 8 snapshot_magic ++ scalar 4 snapshot_format ++ scalar 8 seq ++
  scalar 8 (size roots) ++ scalar 8 (size (index_bytes roots)) ++
  scalar 4 (if ck then crc32c (index_bytes roots) else 0).
Lemma header_bytes_eq ck seq roots :
  header_bytes ck seq roots =
  header_prefix ck seq roots ++ scalar 4 (if ck then crc32c (header_prefix ck seq roots) else 0).
Proof. done. Qed.
Definition written_fields (ck : bool) (seq : Z) (roots : list indexed_root) : header_fields :=
  HeaderFields seq (size roots) (size (index_bytes roots))
    (if ck then crc32c (index_bytes roots) else 0)
    (if ck then crc32c (header_prefix ck seq roots) else 0).

Lemma read_header_bytes ck seq roots :
  is_u64 seq → is_u64 (size roots) → is_u64 (size (index_bytes roots)) →
  run read_header (header_bytes ck seq roots) = Ok (written_fields ck seq roots).
Proof.
  intros Hs Hr Hi. unfold run, read_header. rewrite header_bytes_eq. unfold header_prefix at 1.
  rewrite <- !app_assoc. assert (is_u64 snapshot_magic) as Hm by done. read_u64 Hm.
  rewrite Z.eqb_refl. cbn [negb].
  assert (is_u32 snapshot_format) as Hf by done. read_u32 Hf. rewrite Z.eqb_refl. cbn [negb].
  read_u64 Hs. read_u64 Hr. read_u64 Hi.
  pose proof (crc_or_zero_u32 ck (index_bytes roots)) as H1. read_u32 H1.
  pose proof (crc_or_zero_u32 ck (header_prefix ck seq roots)) as H2.
  rewrite <- (app_nil_r (scalar 4 _)). by read_u32 H2.
Qed.
Lemma parse_header_bytes ck seq roots rest :
  is_u64 seq → size roots ≤ max_root_count → is_u64 (size (index_bytes roots)) →
  parse_header ck (header_bytes ck seq roots ++ rest) = Ok (written_fields ck seq roots).
Proof.
  intros Hs Hr Hi. unfold parse_header.
  assert (slice (header_bytes ck seq roots ++ rest) 0 header_size = header_bytes ck seq roots) as ->.
  { rewrite <- (size_header_bytes ck seq roots). apply (slice_mid [] _ rest). }
  rewrite read_header_bytes; [|done| |done].
  2:{ pose proof (size_nonneg roots). unfold is_u64, u64_bound, max_root_count in *. lia. }
  assert (take (Z.to_nat (header_size - 4)) (header_bytes ck seq roots) = header_prefix ck seq roots) as ->.
  { rewrite header_bytes_eq. assert (length (header_prefix ck seq roots) = 40%nat) as Hl.
    { apply Nat2Z.inj. fold (size (header_prefix ck seq roots)). unfold header_prefix. by autorewrite with size. }
    change (Z.to_nat (header_size - 4)) with 40%nat. rewrite <- Hl. apply take_app_length. }
  simpl. destruct ck; simpl; rewrite ?Z.eqb_refl; simpl;
    (destruct (Z.gtb_spec (size roots) max_root_count); [lia|done]).
Qed.

Lemma parse_snapshot_bytes ck seq roots data :
  is_u64 seq → size roots ≤ max_root_count → is_u64 (size (index_bytes roots)) →
  Forall (wf_indexed (size data)) roots → NoDup (x_name <$> roots) →
  parse_snapshot ck (snapshot_bytes ck seq roots data) =
  Ok (Image (saved_roots (snapshot_base roots) roots) seq).
Proof.
  intros Hs Hr Hi Hw Hd. unfold parse_snapshot.
  assert (size (snapshot_bytes ck seq roots data) = snapshot_base roots + size data) as Hsz.
  { unfold snapshot_bytes, snapshot_base. rewrite !size_app, size_header_bytes. lia. }
  pose proof (size_nonneg data). pose proof (size_nonneg (index_bytes roots)).
  assert (0 < header_size) by done. rewrite Hsz. unfold snapshot_base in *.
  destruct (Z.eqb_spec (header_size + size (index_bytes roots) + size data) 0); [lia|].
  destruct (Z.ltb_spec (header_size + size (index_bytes roots) + size data) header_size); [lia|].
  pose proof (parse_header_bytes ck seq roots (index_bytes roots ++ data) Hs Hr Hi) as Hp.
  fold (snapshot_bytes ck seq roots data) in Hp. rewrite Hp. simpl. unfold parse_index. rewrite Hsz. simpl.
  destruct (Z.gtb_spec (size (index_bytes roots)) (header_size + size (index_bytes roots) + size data - header_size)); [lia|].
  destruct (Z.gtb_spec (size (index_bytes roots)) (u64_bound - 1)); [unfold is_u64 in *; lia|].
  assert (slice (snapshot_bytes ck seq roots data) header_size (size (index_bytes roots)) = index_bytes roots) as ->.
  { rewrite <- (size_header_bytes ck seq roots). apply slice_mid. }
  assert (ck && negb ((if ck then crc32c (index_bytes roots) else 0) =? crc32c (index_bytes roots)) = false) as ->
    by (destruct ck; [by rewrite Z.eqb_refl|done]).
  assert (Z.to_nat (size roots) = length roots) as -> by (unfold size; lia).
  unfold run. rewrite parse_roots_index by done. simpl. by rewrite saved_roots_insert_all.
Qed.

(** ** The order and the places of the roots *)
Lemma sorted_roots_elem (m : gmap string root_record) n r :
  (n, r) ∈ sorted_roots m ↔ m !! n = Some r.
Proof.
  unfold sorted_roots. rewrite om_sorted_find by (apply om_put_list_sorted; constructor).
  rewrite om_find_put_list by (try constructor; apply NoDup_fst_map_to_list).
  rewrite elem_of_map_to_list. split; [by intros [?|[_ ?]]|by left].
Qed.
Lemma sorted_roots_NoDup (m : gmap string root_record) : NoDup (sorted_roots m).*1.
Proof. apply om_sorted_NoDup, om_put_list_sorted. constructor. Qed.

Definition pair_of (x : indexed_root) : string * root_record := (x_name x, x_record x).
(** [placed off n roots]: the payloads of [roots] follow one another from [off] to [n]. *)
Inductive placed : Z → Z → list indexed_root → Prop :=
| placed_nil off : placed off off []
| placed_cons off n x roots :
    x_offset x = off → placed (off + l_size (rr_payload (x_record x))) n roots →
    placed off n (x :: roots).
Lemma place_roots_placed off l roots :
  place_roots off l = Ok roots → off < u64_bound →
  pair_of <$> roots = l ∧ ∃ n, n < u64_bound ∧ placed off n roots.
Proof.
  revert off roots. induction l as [|[n r] l IH]; intros off roots; simpl.
  - intros [= <-] ?. split; [done|]. exists off. split; [done|constructor].
  - destruct (Z.gtb_spec (l_size (rr_payload r)) (u64_bound - 1 - off)) as [|Hle]; [done|].
    intros (rest & Hr & [= <-])%bind_result_ok Ho.
    destruct (IH _ _ Hr ltac:(lia)) as (<- & k & Hk & Hp). split; [done|].
    exists k. split; [done|]. by constructor.
Qed.
Lemma placed_le off n roots :
  placed off n roots → Forall (λ x, 0 ≤ l_size (rr_payload (x_record x))) roots →
  off ≤ n ∧ Forall (λ x, off ≤ x_offset x ∧ x_offset x + l_size (rr_payload (x_record x)) ≤ n) roots.
Proof.
  induction 1 as [|off n x roots <- _ IH]; intros Hf; [split; [lia|constructor]|].
  apply Forall_cons in Hf as [Hx Hf]. destruct (IH Hf) as [? Hall]. split; [lia|].
  constructor; [lia|]. eapply Forall_impl; [done|]. simpl. lia.
Qed.

Lemma ordered_roots_spec image roots :
  ordered_roots image = Ok roots →
  (∀ x, x ∈ roots → i_roots image !! x_name x = Some (x_record x)) ∧
  (∀ n r, i_roots image !! n = Some r → ∃ x, x ∈ roots ∧ pair_of x = (n, r)) ∧
  NoDup (x_name <$> roots) ∧ ∃ n, n < u64_bound ∧ placed 0 n roots.
Proof.
  intros (E & n & Hn & Hp)%place_roots_placed; [|done]. split_and!.
  - intros x Hx. apply sorted_roots_elem. rewrite <- E. change (x_name x, x_record x) with (pair_of x).
    by apply list_elem_of_fmap_2.
  - intros k r Hk%sorted_roots_elem. rewrite <- E in Hk.
    apply list_elem_of_fmap in Hk as (x & -> & Hx). eauto.
  - assert (x_name <$> roots = (sorted_roots (i_roots image)).*1) as ->.
    { rewrite <- E, <- list_fmap_compose. done. }
    apply sorted_roots_NoDup.
  - eauto.
Qed.

(** The saved roots are the roots of the image, each with a locator into the snapshot. *)
Lemma insert_all_lookup base roots acc n :
  NoDup (x_name <$> roots) →
  insert_all base roots acc !! n =
  match list_find (λ x, x_name x = n) roots with
  | Some (_, x) => Some (saved_record base x)
  | None => acc !! n
  end.
Proof.
  revert acc. induction roots as [|x roots IH]; intros acc Hd; [done|].
  apply NoDup_cons in Hd as [Hx Hd]. unfold insert_all in *. cbn [foldl]. rewrite IH by done. simpl.
  case_decide as Hn.
  - destruct (list_find _ roots) as [[i y]|] eqn:E.
    + apply list_find_Some in E as (Hy & Hyn & _). exfalso. apply Hx. rewrite Hn, <- Hyn.
      apply list_elem_of_fmap_2. by eapply list_elem_of_lookup_2.
    + rewrite <- Hn. apply lookup_insert_eq.
  - destruct (list_find _ roots) as [[i y]|]; [done|]. by apply lookup_insert_ne.
Qed.
Lemma saved_roots_lookup base roots x :
  NoDup (x_name <$> roots) → x ∈ roots → saved_roots base roots !! x_name x = Some (saved_record base x).
Proof.
  intros Hd Hx. rewrite saved_roots_insert_all, insert_all_lookup by done.
  destruct (list_find _ roots) as [[i y]|] eqn:E.
  - apply list_find_Some in E as (Hy & Hyn & _). f_equal.
    apply list_elem_of_lookup in Hx as [k Hk].
    assert (i = k) as ->; [|congruence].
    eapply (NoDup_lookup (x_name <$> roots)); [done|by rewrite list_lookup_fmap, Hy|].
    rewrite list_lookup_fmap, Hk. simpl. by rewrite Hyn.
  - apply list_find_None in E. eapply Forall_forall in E; [|done]. done.
Qed.
Lemma saved_roots_inv base roots n r :
  NoDup (x_name <$> roots) → saved_roots base roots !! n = Some r →
  ∃ x, x ∈ roots ∧ x_name x = n ∧ r = saved_record base x.
Proof.
  intros Hd. rewrite saved_roots_insert_all, insert_all_lookup by done.
  destruct (list_find _ roots) as [[i y]|] eqn:E; [|done].
  apply list_find_Some in E as (Hy & Hyn & _). intros [= <-].
  exists y. split_and!; [by eapply list_elem_of_lookup_2|done|done].
Qed.
Lemma saved_roots_dom image roots base :
  ordered_roots image = Ok roots → dom (saved_roots base roots) = dom (i_roots image).
Proof.
  intros (Hin & Hall & Hd & _)%ordered_roots_spec. apply set_eq. intros n. rewrite !elem_of_dom. split.
  - intros [r (x & Hx & <- & _)%(saved_roots_inv base roots n)]; [|done]. eexists. by apply Hin.
  - intros [r (x & Hx & [= <- _])%Hall]. eexists. by apply saved_roots_lookup.
Qed.

(** ** Saving *)
Section saving.
Context {W : Type} `{HW : storage_reliable W} (sn : snapshot_store).
Context (read_payload : root_record → Z → Z → M W (list byte)).
(** The payload each record stands for, and the state of the storage when saving starts. *)
Context (payload : root_record → list byte) (w0 : W).
Let path := sn_path sn.
Let tmp := temporary sn.

(** The reader gives the pieces of a payload as long as nothing but the temporary file has
    changed. *)
Definition reads_payload (r : root_record) : Prop :=
  l_size (rr_payload r) = size (payload r) ∧
  ∀ off n w, same_but tmp w0 w → 0 ≤ off → 0 ≤ n → off + n ≤ size (payload r) →
    computes (read_payload r off n) w (Ok (slice (payload r) off n)).

Definition payloads (roots : list indexed_root) : list byte :=
  flat_map (λ x, payload (x_record x)) roots.

Lemma slice_step (l : list byte) copied amount :
  0 ≤ copied → 0 ≤ amount → copied + amount ≤ size l →
  take (Z.to_nat copied) l ++ slice l copied amount = take (Z.to_nat (copied + amount)) l.
Proof.
  intros. unfold slice. rewrite Z2Nat.inj_add by lia. apply take_take_drop.
Qed.

Lemma copy_payload_leaves fuel base copied x w c :
  reads_payload (x_record x) → same_but tmp w0 w →
  0 ≤ copied ≤ size (payload (x_record x)) →
  size (payload (x_record x)) - copied ≤ Z.of_nat fuel →
  size c = base + x_offset x →
  file_of w tmp = Some (c ++ take (Z.to_nat copied) (payload (x_record x))) →
  leaves tmp (copy_payload sn read_payload fuel base copied x) w (c ++ payload (x_record x)).
Proof.
  intros [Hsz Hread]. revert copied w. set (data := payload (x_record x)) in *.
  induction fuel as [|fuel IH]; intros copied w Hb Hcp Hfuel Hc Hf; simpl; rewrite Hsz;
    (destruct (Z.ltb_spec copied (size data));
     [try lia|apply leaves_ret; rewrite Hf; do 2 f_equal; apply firstn_all2; unfold size in *; lia]).
  set (amount := Z.min copy_chunk (size data - copied)).
  assert (0 < amount ≤ size data - copied) as Ha by (unfold amount, copy_chunk; lia).
  eapply leaves_read; [done|apply Hread; [done|lia..]|]. intros w1 Hb1 Hf1.
  eapply leaves_bind.
  - replace (base + x_offset x + copied) with (size (c ++ take (Z.to_nat copied) data))
      by (rewrite size_app, size_take; lia).
    apply leaves_write. exact Hf1.
  - intros _ w2 Hb2 Hf2. rewrite write_at_end, <- app_assoc, slice_step in Hf2 by lia.
    apply IH; [|lia|lia|done|done]. eapply same_but_trans; [done|]. by eapply same_but_trans.
Qed.
Lemma copy_roots_leaves base off n roots w c :
  placed off n roots → Forall (λ x, reads_payload (x_record x)) roots →
  same_but tmp w0 w → size c = base + off → file_of w tmp = Some c →
  leaves tmp (forM roots (copy_root sn read_payload base)) w (c ++ payloads roots).
Proof.
  intros Hp Hr. revert w c. induction Hp as [|off n x roots <- _ IH]; intros w c Hb Hc Hf; simpl.
  { rewrite app_nil_r. by apply leaves_ret. }
  apply Forall_cons in Hr as [Hx Hr]. eapply leaves_bind.
  - apply (copy_payload_leaves _ base 0 x w c); [done|done| | |done|].
    + pose proof (size_nonneg (payload (x_record x))). lia.
    + destruct Hx as [-> _]. pose proof (size_nonneg (payload (x_record x))). lia.
    + by rewrite app_nil_r.
  - intros _ w1 Hb1 Hf1. rewrite app_assoc. apply IH; [done|by eapply same_but_trans| |done].
    destruct Hx as [-> _]. rewrite size_app. lia.
Qed.

(** Everything [save] does before it replaces the old snapshot. *)
Definition write_temporary (sequence : Z) (roots : list indexed_root) : M W unit :=
  _ ← open_file tmp true;
  _ ← truncate tmp 0;
  _ ← write_exact tmp 0 (header_bytes (sn_checksums sn) sequence roots);
  _ ← when (negb (bool_decide (index_bytes roots = []))) (write_exact tmp header_size (index_bytes roots));
  _ ← forM roots (copy_root sn read_payload (header_size + size (index_bytes roots)));
  when (bool_decide (sn_durability sn = strict)) (flush_all tmp).
Lemma write_temporary_leaves sequence roots n :
  placed 0 n roots → Forall (λ x, reads_payload (x_record x)) roots →
  leaves tmp (write_temporary sequence roots) w0
    (snapshot_bytes (sn_checksums sn) sequence roots (payloads roots)).
Proof.
  intros Hp Hr. unfold write_temporary, snapshot_bytes.
  set (h := header_bytes (sn_checksums sn) sequence roots).
  assert (size h = header_size) as Hh by apply size_header_bytes.
  eapply leaves_bind; [apply leaves_create|]. intros _ w1 Hb1 Hf1.
  eapply leaves_bind; [by apply leaves_truncate|]. intros _ w2 Hb2 Hf2. rewrite truncate_to_nil in Hf2.
  eapply leaves_bind; [by apply leaves_write|]. intros _ w3 Hb3 Hf3.
  pose proof (write_at_end [] h) as Eh. rewrite size_nil in Eh. rewrite Eh in Hf3. simpl in Hf3.
  apply (leaves_bind _ _ _ _ (h ++ index_bytes roots)).
  { unfold when. case_bool_decide as Hi; simpl.
    - rewrite Hi, app_nil_r. by apply leaves_ret.
    - rewrite <- Hh, <- write_at_end. by apply leaves_write. }
  intros _ w4 Hb4 Hf4. rewrite (app_assoc h).
  apply (leaves_bind _ _ _ _ ((h ++ index_bytes roots) ++ payloads roots)).
  { eapply copy_roots_leaves; [done|done| |rewrite size_app; lia|done].
    repeat (eapply same_but_trans; [done|]). done. }
  intros _ w5 Hb5 Hf5. apply leaves_when; [done|]. by apply leaves_flush.
Qed.

Lemma temporary_ne : tmp ≠ path.
Proof.
  intros E%(f_equal ssize). unfold tmp, temporary in E. fold path in E. rewrite ssize_app in E.
  unfold ssize in E. simpl in E. lia.
Qed.

(** The rest: replace the old snapshot and describe the new one. *)
Definition publish_temporary (image : snapshot_image) (roots : list indexed_root) : M W snapshot_image :=
  _ ← atomic_replace tmp path;
  _ ← when (bool_decide (sn_durability sn = strict)) (sync_directory (parent_path path));
  mret (Image (saved_roots (snapshot_base roots) roots) (i_sequence image)).
Lemma snapshot_save_unfold image w :
  snapshot_save sn read_payload image w =
  match ordered_roots image with
  | Throw e => (Throw e, w)
  | Ok roots => (write_temporary (i_sequence image) roots ≫= λ _, publish_temporary image roots) w
  end.
Proof.
  unfold snapshot_save, lift_result, mbind at 1, M_bind at 1. destruct (ordered_roots image) as [roots|e]; [|done].
  rewrite size_header_bytes, Z.eqb_refl. change (negb true) with false. cbv iota.
  unfold write_temporary, publish_temporary, mbind, M_bind. fold tmp path.
  repeat (match goal with |- context [match ?m ?w with _ => _ end] => destruct (m w) as [[?|?] ?] end; [|done]).
  done.
Qed.

(** What a finished save has changed. *)
Definition replaced_by (bytes : list byte) (w' : W) : Prop :=
  file_of w' path = Some bytes ∧ file_of w' tmp = None ∧
  ∀ q, q ≠ tmp → q ≠ path → file_of w' q = file_of w0 q.

Lemma publish_temporary_spec image roots bytes w :
  same_but tmp w0 w → file_of w tmp = Some bytes →
  ∃ r w', publish_temporary image roots w = (r, w') ∧
    (same_but tmp w0 w' ∧ (∃ e, r = Throw e) ∨
     replaced_by bytes w' ∧
       (r = Ok (Image (saved_roots (snapshot_base roots) roots) (i_sequence image)) ∨ ∃ e, r = Throw e)) ∧
    (reliable w → is_ok r ∧ reliable w').
Proof.
  intros Hb Hf. unfold publish_temporary, mbind, M_bind. pose proof temporary_ne as Hne.
  pose proof (atomic_replace_law tmp path w) as Hl.
  pose proof (λ Hr, atomic_replace_ok tmp path w Hr (mk_is_Some _ _ Hf)) as Hok.
  destruct (atomic_replace tmp path w) as [[[]|e] w1].
  2:{ do 2 eexists. split; [done|]. split.
      - left. split; [by eapply same_but_trans, same_but_files|by eexists].
      - by intros (? & [=] & ?)%Hok. }
  destruct Hl as (_ & Hp & Ht & Hq). rewrite Hf in Hp.
  assert (∀ w2, same_files w1 w2 → replaced_by bytes w2) as Hrep.
  { intros w2 Hs. unfold replaced_by. rewrite !Hs. split_and!; [done|by apply Ht|].
    intros q ? ?. by rewrite Hs, Hq, Hb. }
  unfold when. destruct (bool_decide _).
  2:{ do 2 eexists. split; [done|]. split; [right; split; [by apply Hrep|by left]|].
      intros (? & [= <-] & ?)%Hok. split; [by eexists|done]. }
  pose proof (sync_directory_law (parent_path path) w1) as Hs.
  pose proof (λ Hr, sync_directory_ok (parent_path path) w1 Hr) as Hok2.
  destruct (sync_directory (parent_path path) w1) as [[[]|e] w2]; simpl in Hs; do 2 eexists;
    (split; [done|]); (split; [right; split; [by apply Hrep|]|]).
  - by left.
  - intros (? & [= <-] & (? & [= <-] & ?)%Hok2)%Hok. split; [by eexists|done].
  - right. by eexists.
  - by intros (? & [= <-] & (? & [=] & ?)%Hok2)%Hok.
Qed.

Lemma save_spec image roots :
  ordered_roots image = Ok roots → Forall (λ x, reads_payload (x_record x)) roots →
  ∃ r w', snapshot_save sn read_payload image w0 = (r, w') ∧
    (same_but tmp w0 w' ∧ (∃ e, r = Throw e) ∨
     replaced_by (snapshot_bytes (sn_checksums sn) (i_sequence image) roots (payloads roots)) w' ∧
       (r = Ok (Image (saved_roots (snapshot_base roots) roots) (i_sequence image)) ∨ ∃ e, r = Throw e)) ∧
    (reliable w0 → is_ok r ∧ reliable w').
Proof.
  intros Ho Hr. rewrite snapshot_save_unfold, Ho.
  destruct (ordered_roots_spec _ _ Ho) as (_ & _ & _ & n & _ & Hp).
  destruct (write_temporary_leaves (i_sequence image) roots n Hp Hr) as (r1 & w1 & E1 & Hb1 & Hf1 & Hok1).
  unfold mbind, M_bind. rewrite E1. destruct r1 as [[]|e].
  - destruct (publish_temporary_spec image roots _ w1 Hb1 (Hf1 ltac:(by eexists))) as (r2 & w2 & E2 & Hc & Hok2).
    exists r2, w2. split_and!; [done|done|]. by intros [_ ?%Hok2]%Hok1.
  - do 2 eexists. split_and!; [done|left; split; [done|by eexists]|]. by intros [[? [=]] ?]%Hok1.
Qed.

(** The payloads are where the saved locators say. *)
Lemma placed_holds before off n roots after x :
  placed off n roots → Forall (λ x, reads_payload (x_record x)) roots → 
  (∀ x, x ∈ roots → l_checksum (rr_payload (x_record x)) = crc32c (payload (x_record x))) →
  x ∈ roots →
  loc_holds (before ++ payloads roots ++ after) (rr_payload (saved_record (size before - off) x)) (payload (x_record x)).
Proof.
  intros Hp. revert before. induction Hp as [|off n y roots <- _ IH]; intros before Hr Hc Hx.
  { by apply not_elem_of_nil in Hx. }
  apply Forall_cons in Hr as [[Hsz _] Hr]. simpl payloads. rewrite <- app_assoc.
  apply elem_of_cons in Hx as [->|Hx].
  - unfold saved_record; simpl. rewrite Hsz, Hc by (by left).
    replace (size before - x_offset y + x_offset y) with (size before) by lia. apply loc_holds_mid.
  - specialize (IH (before ++ payload (x_record y)) Hr ltac:(intros; apply Hc; by right) Hx).
    rewrite <- app_assoc, size_app, Hsz in IH.
    by replace (size before + size (payload (x_record y)) - (x_offset y + size (payload (x_record y))))
      with (size before - x_offset y) in IH by lia.
Qed.
End saving.

(** ** Reading payloads *)
Section reading.
Context {W : Type} `{HW : storage_reliable W} (sn : snapshot_store).

Lemma snapshot_read_holds c l data off n (w : W) :
  file_of w (sn_path sn) = Some c → loc_holds c l data → l_kind l = src_snapshot →
  0 ≤ off → 0 ≤ n → off + n ≤ size data →
  computes (snapshot_read sn l off n) w (Ok (slice data off n)).
Proof.
  intros Hc [Hs Hx Hb Hd] Hk Ho Hn Hle. unfold snapshot_read.
  rewrite Hs, Hk in *. rewrite bool_decide_true by done. cbn [negb].
  destruct (Z.gtb_spec off (size data)); [lia|].
  destruct (Z.gtb_spec n (size data - off)); [lia|]. cbn [orb].
  eapply computes_step; [by eapply computes_open|]. intros w1 Hs1.
  replace (slice data off n) with (slice c (l_offset l + off) n);
    [apply computes_read; [by rewrite Hs1|lia..]|].
  rewrite <- Hd. symmetry. apply slice_slice; lia.
Qed.
Lemma snapshot_load_payload_holds c l data (w : W) :
  file_of w (sn_path sn) = Some c → loc_holds c l data → l_kind l = src_snapshot → size data < u64_bound →
  computes (snapshot_load_payload sn l) w (Ok data).
Proof.
  intros Hc Hl Hk Hu. unfold snapshot_load_payload. pose proof (size_nonneg data).
  pose proof (lh_size _ _ _ Hl) as Hs. rewrite Hs.
  destruct (Z.gtb_spec (size data) (u64_bound - 1)); [lia|].
  eapply computes_step; [eapply snapshot_read_holds; [done|done|done|lia..]|].
  intros w' _. rewrite slice_all, (lh_checksum _ _ _ Hl), Z.eqb_refl, andb_false_r.
  apply computes_ret.
Qed.
End reading.
