(* ===== verification/Cache.v ===== *)
(** * The payload cache: [detail/cache.hpp].

    [payload_cache] keeps its entries in a list, most recently used first, and an index from
    names to list iterators.  An iterator is the identity of a node, given out when the node is
    created; following one whose node has been erased is [undefined]. *)
From S2P Require Import Prelude.

(** ** Data *)
Record entry := Entry { e_name : string; e_version : Z; e_payload : list byte }.
Definition iterator : Type := nat.
Record payload_cache := PayloadCache {
  c_limit : Z;
  c_lru : list (iterator * entry);
  c_fresh : iterator;
  c_entries : gmap string iterator;
  c_bytes : Z;
  c_hits : Z;
  c_misses : Z;
  c_evictions : Z
}.
Definition new_cache (limit : Z) : payload_cache := PayloadCache limit [] 0%nat ∅ 0 0 0 0.
Record cache_info := CacheInfo {
  ci_bytes : Z; ci_entries : Z; ci_hits : Z; ci_misses : Z; ci_evictions : Z }.

(** ** List operations on iterators *)
Fixpoint node_at (it : iterator) (l : list (iterator * entry)) : option entry :=
  match l with
  | [] => None
  | (i, e) :: l => if decide (i = it) then Some e else node_at it l
  end.
Fixpoint unlink (it : iterator) (l : list (iterator * entry)) : list (iterator * entry) :=
  match l with
  | [] => []
  | (i, e) :: l => if decide (i = it) then l else (i, e) :: unlink it l
  end.

Definition dangling : error := undefined "invalid list iterator".
Definition deref (it : iterator) : M payload_cache entry := λ c,
  match node_at it (c_lru c) with
  | Some e => (Ok e, c)
  | None => (Throw dangling, c)
  end.
Definition set_lru (l : list (iterator * entry)) (c : payload_cache) : payload_cache :=
  PayloadCache (c_limit c) l (c_fresh c) (c_entries c) (c_bytes c) (c_hits c) (c_misses c) (c_evictions c).
Definition count_miss (c : payload_cache) : payload_cache :=
  PayloadCache (c_limit c) (c_lru c) (c_fresh c) (c_entries c) (c_bytes c) (c_hits c)
    (u64 (c_misses c + 1)) (c_evictions c).
Definition count_hit (c : payload_cache) : payload_cache :=
  PayloadCache (c_limit c) (c_lru c) (c_fresh c) (c_entries c) (c_bytes c) (u64 (c_hits c + 1))
    (c_misses c) (c_evictions c).
Definition count_eviction (c : payload_cache) : payload_cache :=
  PayloadCache (c_limit c) (c_lru c) (c_fresh c) (c_entries c) (c_bytes c) (c_hits c)
    (c_misses c) (u64 (c_evictions c + 1)).

(** ** Operations *)

(** [payload_cache::erase] *)
Definition cache_erase (it : iterator) : M payload_cache unit :=
  e ← deref it;
  modify (λ c, PayloadCache (c_limit c) (unlink it (c_lru c)) (c_fresh c)
                 (delete (e_name e) (c_entries c)) (u64 (c_bytes c - size (e_payload e)))
                 (c_hits c) (c_misses c) (c_evictions c)).

(** [payload_cache::get] *)
Definition cache_get (name : string) (version : Z) : M payload_cache (option (list byte)) :=
  c ← get;
  match c_entries c !! name with
  | None => _ ← modify count_miss; mret None
  | Some it =>
      e ← deref it;
      if negb (e_version e =? version) then
        _ ← modify count_miss; _ ← cache_erase it; mret None
      else
        _ ← modify count_hit;
        _ ← modify (λ c, set_lru ((it, e) :: unlink it (c_lru c)) c);
        mret (Some (e_payload e))
  end.

(** The eviction loop of [put]: every turn removes a node, so as many turns as there are nodes
    are enough. *)
Fixpoint evict (fuel : nat) (incoming : Z) : M payload_cache unit :=
  c ← get;
  match last (c_lru c) with
  | None => mret tt
  | Some (it, _) =>
      if u64 (c_bytes c + incoming) >? c_limit c then
        match fuel with
        | O => throw out_of_fuel
        | S fuel => _ ← cache_erase it; _ ← modify count_eviction; evict fuel incoming
        end
      else mret tt
  end.
(** [lru_.push_front], [entries_.emplace] and the new byte count. *)
Definition push_entry (name : string) (version : Z) (payload : list byte) (c : payload_cache)
    : payload_cache :=
  let it := c_fresh c in
  PayloadCache (c_limit c) ((it, Entry name version payload) :: c_lru c) (S it)
    (match c_entries c !! name with Some _ => c_entries c | None => <[name := it]> (c_entries c) end)
    (u64 (c_bytes c + size payload)) (c_hits c) (c_misses c) (c_evictions c).
(** [payload_cache::put] *)
Definition cache_put (name : string) (version : Z) (payload : list byte)
    : M payload_cache (list byte) :=
  c ← get;
  if (c_limit c =? 0) || (size payload >? c_limit c) then mret payload
  else
    _ ← match c_entries c !! name with Some it => cache_erase it | None => mret tt end;
    c ← get;
    _ ← evict (length (c_lru c)) (size payload);
    _ ← modify (push_entry name version payload);
    mret payload.

Definition cache_info_of (c : payload_cache) : cache_info :=
  CacheInfo (c_bytes c) (size (c_lru c)) (c_hits c) (c_misses c) (c_evictions c).
Definition cache_clear (c : payload_cache) : payload_cache :=
  PayloadCache (c_limit c) [] (c_fresh c) ∅ 0 (c_hits c) (c_misses c) (c_evictions c).

(** ** Invariant *)
Definition total_bytes (l : list (iterator * entry)) : Z :=
  foldr (λ n acc, size (e_payload n.2) + acc) 0 l.
Record cache_ok (c : payload_cache) : Prop := {
  ok_limit : 0 ≤ c_limit c < 2 ^ 63;
  ok_fresh : Forall (λ n, (n.1 < c_fresh c)%nat) (c_lru c);
  ok_iterators : NoDup (c_lru c).*1;
  ok_index : ∀ name it, c_entries c !! name = Some it ↔ ∃ e, (it, e) ∈ c_lru c ∧ e_name e = name;
  ok_bytes : c_bytes c = total_bytes (c_lru c);
  ok_bound : c_bytes c ≤ c_limit c
}.

Lemma total_bytes_nonneg l : 0 ≤ total_bytes l.
Proof. induction l as [|n l IH]; simpl; [done|]. pose proof (size_nonneg (e_payload n.2)). lia. Qed.
#[export] Hint Resolve total_bytes_nonneg : core.

Lemma node_at_elem it e l : NoDup l.*1 → (node_at it l = Some e ↔ (it, e) ∈ l).
Proof.
  induction l as [|[i e0] l IH]; simpl; intros Hd.
  { split; [done|by intros ?%not_elem_of_nil]. }
  apply NoDup_cons in Hd as [Hn Hd]. case_decide as Hi; subst.
  - split; [intros [= ->]; by left|]. intros [[= ->]|Hin]%elem_of_cons; [done|].
    exfalso. apply Hn. change it with (it, e).1. by apply list_elem_of_fmap_2.
  - rewrite IH by done. split; [by right|]. by intros [[= -> _]|?]%elem_of_cons.
Qed.
Lemma unlink_spec it e l :
  NoDup l.*1 → (it, e) ∈ l →
  ∃ l1 l2, l = l1 ++ (it, e) :: l2 ∧ unlink it l = l1 ++ l2.
Proof.
  induction l as [|[i e0] l IH]; simpl; intros Hd Hin; [by apply not_elem_of_nil in Hin|].
  apply NoDup_cons in Hd as [Hn Hd]. case_decide as Hi; subst.
  - apply elem_of_cons in Hin as [[= <-]|Hin]; [by exists [], l|].
    exfalso. apply Hn. change it with (it, e).1. by apply list_elem_of_fmap_2.
  - apply elem_of_cons in Hin as [[= -> _]|Hin]; [done|].
    destruct (IH Hd Hin) as (l1 & l2 & -> & ->). by exists ((i, e0) :: l1), l2.
Qed.
Lemma total_bytes_app l k : total_bytes (l ++ k) = total_bytes l + total_bytes k.
Proof. induction l as [|n l IH]; simpl; lia. Qed.

Lemma empty_index name it :
  (∅ : gmap string iterator) !! name = Some it ↔ ∃ e, ((it, e) ∈ ([] : list (iterator * entry))) ∧ e_name e = name.
Proof. rewrite lookup_empty. split; [done|]. by intros (? & ?%not_elem_of_nil & _). Qed.
Lemma new_cache_ok limit : 0 ≤ limit < 2 ^ 63 → cache_ok (new_cache limit).
Proof. intros. split; simpl; try done; [constructor|apply empty_index|lia]. Qed.
Lemma cache_clear_ok c : cache_ok c → cache_ok (cache_clear c).
Proof. intros [? _ _ _ _ _]. split; simpl; try done; [constructor|apply empty_index|lia]. Qed.

Section cache.
Implicit Types (c : payload_cache) (l : list (iterator * entry)).

Lemma ok_deref c name it :
  cache_ok c → c_entries c !! name = Some it →
  ∃ e, deref it c = (Ok e, c) ∧ (it, e) ∈ c_lru c ∧ e_name e = name.
Proof.
  intros Hc (e & He & Hn)%(ok_index c Hc). exists e. split_and!; [|done|done].
  unfold deref. by rewrite (proj2 (node_at_elem it e _ (ok_iterators c Hc)) He).
Qed.
Lemma deref_in c it e :
  cache_ok c → (it, e) ∈ c_lru c → c_entries c !! e_name e = Some it ∧ deref it c = (Ok e, c).
Proof.
  intros Hc Hin. split; [by apply (ok_index c Hc); exists e|].
  unfold deref. by rewrite (proj2 (node_at_elem it e _ (ok_iterators c Hc)) Hin).
Qed.
Lemma u64_between z : 0 ≤ z < 2 * 2 ^ 63 → u64 z = z.
Proof. intros. apply u64_small. unfold is_u64, u64_bound. lia. Qed.

(** Two nodes of a well-formed cache with one name are one node. *)
Lemma same_name_node c it it' e e' :
  cache_ok c → (it, e) ∈ c_lru c → (it', e') ∈ c_lru c → e_name e = e_name e' → it = it'.
Proof.
  intros Hc H1 H2 En.
  assert (c_entries c !! e_name e = Some it) as E1 by (apply (ok_index c Hc); eauto).
  assert (c_entries c !! e_name e = Some it') as E2 by (apply (ok_index c Hc); eauto).
  congruence.
Qed.

(** Erasing takes one node out and keeps the invariant. *)
Lemma cache_erase_ok c it e :
  cache_ok c → (it, e) ∈ c_lru c →
  ∃ c' l1 l2, cache_erase it c = (Ok tt, c') ∧ cache_ok c' ∧ c_limit c' = c_limit c ∧
    c_fresh c' = c_fresh c ∧ c_entries c' = delete (e_name e) (c_entries c) ∧
    c_lru c = l1 ++ (it, e) :: l2 ∧ c_lru c' = l1 ++ l2 ∧
    c_bytes c' = c_bytes c - size (e_payload e).
Proof.
  intros Hc He. pose proof Hc as [Hl Hf Hi Hx Hb Hbd].
  destruct (unlink_spec it e _ Hi He) as (l1 & l2 & El & Eu).
  assert (0 ≤ c_bytes c - size (e_payload e) ≤ c_limit c) as Hrange.
  { rewrite Hb, El, total_bytes_app in *. simpl in *. pose proof (total_bytes_nonneg l1).
    pose proof (total_bytes_nonneg l2). pose proof (size_nonneg (e_payload e)). lia. }
  unfold cache_erase. rewrite (bind_ok _ _ _ c e).
  2:{ unfold deref. by rewrite (proj2 (node_at_elem it e _ Hi) He). }
  unfold modify. do 3 eexists. split; [done|]. simpl. rewrite Eu, u64_between by lia.
  split_and!; try done. split; simpl; try done; rewrite ?Eu.
  - rewrite El in Hf. apply Forall_app in Hf as [? Hf]. apply Forall_cons in Hf as [_ ?].
    by apply Forall_app.
  - rewrite El, !fmap_app in *. simpl in Hi. apply NoDup_app in Hi as (? & Hd & Hi).
    apply NoDup_cons in Hi as [_ ?]. apply NoDup_app. split_and!; [done| |done].
    intros x Hx1 Hx2. apply (Hd x Hx1). by right.
  - intros name it'. rewrite lookup_delete_Some, Hx. split.
    + intros (Hne & e' & He' & Hn). exists e'. split; [|done].
      rewrite El in He'. apply elem_of_app in He' as [?|[[= -> ->]|?]%elem_of_cons];
        apply elem_of_app; [by left|done|by right].
    + intros (e' & He' & Hn). assert ((it', e') ∈ c_lru c) as Hin.
      { rewrite El. apply elem_of_app. apply elem_of_app in He' as [?|?]; [by left|right; by right]. }
      split; [|by exists e']. intros En. rewrite <- Hn in En.
      assert (it = it') as <- by by eapply same_name_node.
      rewrite El, fmap_app in Hi. simpl in Hi. apply NoDup_app in Hi as (_ & Hd & Hi).
      apply NoDup_cons in Hi as [Hi _].
      apply elem_of_app in He' as [H1|H1]; apply (list_elem_of_fmap_2 fst) in H1; simpl in H1;
        [apply (Hd _ H1); by left|done].
  - rewrite Hb, El, !total_bytes_app. simpl. lia.
  - lia.
Qed.

Lemma cache_ok_ext c c' :
  c_limit c = c_limit c' → c_lru c = c_lru c' → c_fresh c = c_fresh c' →
  c_entries c = c_entries c' → c_bytes c = c_bytes c' → cache_ok c → cache_ok c'.
Proof.
  destruct c, c'; simpl. intros <- <- <- <- <- [? ? ? Hx ? ?]. by split.
Qed.
Lemma count_ok c :
  cache_ok c → cache_ok (count_miss c) ∧ cache_ok (count_hit c) ∧ cache_ok (count_eviction c).
Proof. intros. split_and!; by apply (cache_ok_ext c). Qed.
End cache.

Section cache_operations.
Implicit Types (c : payload_cache) (l : list (iterator * entry)).

(** A failed or successful lookup, in terms of the nodes. *)
Definition holds c (name : string) (version : Z) (payload : list byte) : Prop :=
  ∃ it e, (it, e) ∈ c_lru c ∧ e = Entry name version payload.

Lemma to_front_ok c it e l1 l2 :
  cache_ok c → c_lru c = l1 ++ (it, e) :: l2 → cache_ok (set_lru ((it, e) :: l1 ++ l2) c).
Proof.
  intros [Hl Hf Hi Hx Hb Hbd] El.
  assert ((it, e) :: l1 ++ l2 ≡ₚ c_lru c) as Hp by (rewrite El; apply Permutation_middle).
  split; simpl; try done.
  - by rewrite Hp.
  - change (NoDup ((it, e) :: l1 ++ l2).*1). by rewrite Hp.
  - intros name it'. rewrite Hx. by setoid_rewrite Hp.
  - rewrite Hb, El, !total_bytes_app. simpl. lia.
Qed.

Lemma cache_get_ok c name version :
  cache_ok c →
  ∃ r c', cache_get name version c = (Ok r, c') ∧ cache_ok c' ∧ c_limit c' = c_limit c ∧
    (r = None ∨ ∃ p, r = Some p ∧ holds c name version p) ∧
    (∀ n v p, holds c' n v p → holds c n v p).
Proof.
  intros Hc. unfold cache_get, get. rewrite (bind_ok _ _ _ c c) by done.
  destruct (c_entries c !! name) as [it|] eqn:E.
  2:{ eexists None, (count_miss c). split_and!; [done|by apply count_ok|done|by left|done]. }
  destruct (ok_deref c name it Hc E) as (e & Hd & He & Hn). m_run Hd.
  destruct (Z.eqb_spec (e_version e) version) as [Hv|]; cbn [negb].
  - destruct (unlink_spec it e _ (ok_iterators c Hc) He) as (l1 & l2 & El & Eu).
    exists (Some (e_payload e)), (set_lru ((it, e) :: l1 ++ l2) (count_hit c)).
    split_and!; [by rewrite <- Eu|by apply to_front_ok; [apply count_ok|]|done| |].
    + right. eexists. split; [done|]. exists it, e. split; [done|]. destruct e; simpl in *; congruence.
    + intros n v p (it' & e' & Hin & ->). exists it', (Entry n v p). split; [|done].
      simpl in Hin. rewrite El. apply elem_of_cons in Hin as [[= -> ->]|Hin].
      * apply elem_of_app. right. by left.
      * apply elem_of_app. apply elem_of_app in Hin as [?|?]; [by left|right; by right].
  - destruct (cache_erase_ok (count_miss c) it e) as (c' & l1 & l2 & Er & Hc' & Hlim & _ & _ & El & El' & _);
      [by apply count_ok|done|].
    exists None, c'. split_and!; [|done|done|by left|].
    + rewrite (bind_ok _ _ _ (count_miss c) tt) by done. by m_run Er.
    + intros nm v p (it' & e' & Hin & ->). exists it', (Entry nm v p). split; [|done].
      simpl in El. rewrite El. rewrite El' in Hin. apply elem_of_app.
      apply elem_of_app in Hin as [?|?]; [by left|right; by right].
Qed.

(** What is in the cache is found, and moves to the front. *)
Lemma cache_get_hit c it e :
  cache_ok c → (it, e) ∈ c_lru c →
  ∃ c', cache_get (e_name e) (e_version e) c = (Ok (Some (e_payload e)), c') ∧ cache_ok c' ∧
    head (c_lru c') = Some (it, e).
Proof.
  intros Hc Hin. destruct (deref_in c it e Hc Hin) as [Hn Hd]. unfold cache_get.
  m_run (eq_refl : get c = (Ok c, c)). rewrite Hn. m_run Hd. rewrite Z.eqb_refl. cbn [negb].
  destruct (unlink_spec it e _ (ok_iterators c Hc) Hin) as (l1 & l2 & El & Eu).
  exists (set_lru ((it, e) :: l1 ++ l2) (count_hit c)). split_and!; [by rewrite <- Eu| |done].
  apply to_front_ok; [by apply count_ok|done].
Qed.

(** Eviction drops a suffix of the list, no more than needed. *)
Lemma evict_ok fuel incoming c :
  cache_ok c → 0 ≤ incoming ≤ c_limit c → (length (c_lru c) ≤ fuel)%nat →
  ∃ c' l, evict fuel incoming c = (Ok tt, c') ∧ cache_ok c' ∧ c_limit c' = c_limit c ∧
    c_lru c = c_lru c' ++ l ∧ c_bytes c' + incoming ≤ c_limit c ∧
    (∀ n, c_entries c !! n = None → c_entries c' !! n = None) ∧
    (∀ it e l', l = (it, e) :: l' → c_limit c < c_bytes c' + size (e_payload e) + incoming).
Proof.
  revert c. induction fuel as [|fuel IH]; intros c Hc Hin Hlen;
    unfold evict; fold evict; rewrite (bind_ok _ _ _ c c) by done;
    destruct (last (c_lru c)) as [[it e]|] eqn:El.
  1: { apply last_Some in El as [l El]. rewrite El, length_app in Hlen. simpl in Hlen. lia. }
  1, 3: apply last_None in El; pose proof (ok_bytes c Hc) as Hb; rewrite El in Hb; simpl in Hb;
    exists c, []; rewrite app_nil_r; split_and!; [done|done|done|done|lia|done|done].
  apply last_Some in El as [l El]. pose proof (ok_bound c Hc) as Hbd. pose proof (ok_limit c Hc).
  assert (0 ≤ c_bytes c) by (rewrite (ok_bytes c Hc); done).
  rewrite u64_between by lia.
  destruct (Z.gtb_spec (c_bytes c + incoming) (c_limit c)) as [Hgt|Hle].
  2:{ exists c, []. rewrite app_nil_r. split_and!; [done|done|done|done|lia|done|done]. }
  assert ((it, e) ∈ c_lru c) as He by (rewrite El; apply elem_of_app; right; by left).
  destruct (cache_erase_ok c it e Hc He) as (c1 & l1 & l2 & Er & Hc1 & Hl1 & _ & Hx1 & E1 & E2 & Hb1).
  assert (c_lru c1 = l) as Elru.
  { rewrite E2. pose proof (ok_iterators c Hc) as Hi. rewrite El in E1, Hi.
    destruct l2 as [|n l2 _] using rev_ind; [by rewrite app_nil_r; apply app_inj_tail in E1 as [? _]|].
    rewrite app_comm_cons, app_assoc in E1. apply app_inj_tail in E1 as [E1 <-].
    rewrite E1, fmap_app in Hi. simpl in Hi. rewrite fmap_app in Hi. apply NoDup_app in Hi as (_ & Hi & _).
    exfalso. apply (Hi it); [apply elem_of_app; right; by left|by left]. }
  destruct (IH (count_eviction c1)) as (c' & l' & Ee & Hc' & Hl' & El' & Hb' & Hx' & Hmin);
    [by apply count_ok|simpl; lia|simpl; rewrite Elru; rewrite El, length_app in Hlen; simpl in Hlen; lia|].
  simpl in *. exists c', (l' ++ [(it, e)]). m_run Er.
  rewrite (bind_ok _ _ _ (count_eviction c1) tt) by done. rewrite Ee.
  split_and!; [done|done|congruence| |lia| |].
  - by rewrite El, <- Elru, El', app_assoc.
  - intros n Hn. apply Hx'. rewrite Hx1. by rewrite lookup_delete_None; right.
  - intros it' e' l0. destruct l' as [|x l']; simpl.
    + intros [= <- <- <-]. rewrite app_nil_r in El'. rewrite Elru in El'.
      assert (c_bytes c' = c_bytes c1) as ->.
      { rewrite (ok_bytes c' Hc'), (ok_bytes c1 Hc1), Elru. by rewrite El'. }
      lia.
    + intros [= -> _]. rewrite <- Hl1. by eapply Hmin.
Qed.

Lemma push_entry_ok name version payload c :
  cache_ok c → c_entries c !! name = None → c_bytes c + size payload ≤ c_limit c →
  cache_ok (push_entry name version payload c).
Proof.
  intros [Hl Hf Hi Hx Hb Hbd] Hn Hfit. unfold push_entry. rewrite Hn.
  pose proof (size_nonneg payload). pose proof (total_bytes_nonneg (c_lru c)).
  rewrite u64_between by lia. split; simpl; try done.
  - constructor; [simpl; lia|]. eapply Forall_impl; [done|]. simpl. lia.
  - constructor; [|done]. intros ([it e] & E & Hin)%list_elem_of_fmap.
    eapply Forall_forall in Hf; [|done]. simpl in *. lia.
  - intros n it. rewrite lookup_insert_Some, Hx. setoid_rewrite elem_of_cons. split.
    + intros [[<- <-]|[Hne (e & He & Hen)]];
        [by exists (Entry name version payload); split; [left|]|].
      exists e. split; [by right|done].
    + intros (e & [[= -> ->]|He] & Hen); [by left|]. right. split; [|by exists e].
      intros ->. assert (c_entries c !! n = Some it) as E by (apply Hx; by exists e). by rewrite Hn in E.
  - lia.
Qed.

(** Taking an entry of the same name out first. *)
Lemma drop_name_ok name c :
  cache_ok c →
  ∃ c', match c_entries c !! name with Some it => cache_erase it | None => mret tt end c = (Ok tt, c') ∧
    cache_ok c' ∧ c_limit c' = c_limit c ∧ c_entries c' !! name = None ∧
    (∀ x, x ∈ c_lru c' → x ∈ c_lru c).
Proof.
  intros Hc. destruct (c_entries c !! name) as [it|] eqn:E; [|by exists c].
  destruct (ok_deref c name it Hc E) as (e & _ & He & Hn).
  destruct (cache_erase_ok c it e Hc He) as (c' & l1 & l2 & Er & Hc' & Hl & _ & Hx & E1 & E2 & _).
  exists c'. split_and!; [done|done|done|by rewrite Hx, Hn, lookup_delete_eq|].
  intros x. rewrite E1, E2, !elem_of_app. intros [?|?]; [by left|right; by right].
Qed.

Lemma cache_put_ok c name version payload :
  cache_ok c →
  ∃ c', cache_put name version payload c = (Ok payload, c') ∧ cache_ok c' ∧ c_limit c' = c_limit c ∧
    (∀ n v p, holds c' n v p → (n, v, p) = (name, version, payload) ∨ holds c n v p) ∧
    (0 < c_limit c → size payload ≤ c_limit c →
     head (c_lru c') = Some (pred (c_fresh c'), Entry name version payload)).
Proof.
  intros Hc. unfold cache_put. rewrite (bind_ok _ _ _ c c) by done.
  pose proof (size_nonneg payload). pose proof (ok_limit c Hc).
  destruct (Z.eqb_spec (c_limit c) 0); [|destruct (Z.gtb_spec (size payload) (c_limit c))]; simpl.
  1, 2: exists c; split_and!; [done|done|done|by right|lia].
  destruct (drop_name_ok name c Hc) as (c1 & E1 & Hc1 & Hl1 & Hn1 & Hs1). m_run E1.
  rewrite (bind_ok _ _ _ c1 c1) by done.
  destruct (evict_ok (length (c_lru c1)) (size payload) c1) as (c2 & l & E2 & Hc2 & Hl2 & El & Hb2 & Hn2 & _);
    [done|lia|done|]. m_run E2.
  eexists. split_and!; [done|apply push_entry_ok; [done|by apply Hn2|lia]|simpl; congruence| |done].
  intros nm v p (it & e & Hin & ->). simpl in Hin.
  apply elem_of_cons in Hin as [[= _ -> -> ->]|Hin]; [by left|].
  right. exists it, (Entry nm v p). split; [|done]. apply Hs1. rewrite El. apply elem_of_app. by left.
Qed.
End cache_operations.

(** ** What the heap relies on

    A cache whose entries all satisfy [P] keeps that property, and what it hands out satisfies
    it; the cache never runs into an invalid iterator and never exceeds its limit. *)
Section coherence.
Context (P : string → Z → list byte → Prop).
Definition coherent (c : payload_cache) : Prop :=
  cache_ok c ∧ ∀ n v p, holds c n v p → P n v p.
Lemma get_coherent c name version :
  coherent c →
  ∃ r c', cache_get name version c = (Ok r, c') ∧ coherent c' ∧ ∀ p, r = Some p → P name version p.
Proof.
  intros [Hc Hp]. destruct (cache_get_ok c name version Hc) as (r & c' & E & Hc' & _ & Hr & Hsub).
  exists r, c'. split_and!; [done|split; [done|auto]|].
  intros p ->. destruct Hr as [|(? & [= <-] & ?)]; [done|auto].
Qed.
Lemma put_coherent c name version payload :
  coherent c → P name version payload →
  ∃ c', cache_put name version payload c = (Ok payload, c') ∧ coherent c'.
Proof.
  intros [Hc Hp] Hn. destruct (cache_put_ok c name version payload Hc) as (c' & E & Hc' & _ & Hsub & _).
  exists c'. split_and!; [done|split; [done|]]. intros n v p [[= -> -> ->]|?]%Hsub; auto.
Qed.
End coherence.
Lemma new_cache_coherent P limit : 0 ≤ limit < 2 ^ 63 → coherent P (new_cache limit).
Proof. intros Hl. split; [by apply new_cache_ok|]. by intros n v p (it & e & ?%not_elem_of_nil & _). Qed.
Lemma coherent_impl (P Q : string → Z → list byte → Prop) c :
  (∀ n v p, P n v p → Q n v p) → coherent P c → coherent Q c.
Proof. intros HPQ [Hc Hp]. split; eauto. Qed.
