(* ===== verification/Heap.v ===== *)
(** * The heap: [detail/heap_state.hpp] and [heap.hpp].

    [heap_state] owns the snapshot store, the journal, the payload cache and the table of roots.
    Its operations run in [M (heap_state * W)] over any storage [W]; an
    operation runs here as one step; file Concurrency cuts it where the mutexes are taken. *)
From S2P Require Import Prelude.
From S2P Require Import Binary.
From S2P Require Import OrderedMap.
From S2P Require Import Codec.
From S2P Require Import Storage.
From S2P Require Import Journal.
From S2P Require Import Snapshot.
From S2P Require Import Cache.

(** ** Data *)
Record heap_config := HeapConfig {
  cf_path : string;
  cf_checkpoint_journal_bytes : Z;
  cf_durability : durability_mode;
  cf_checksums : bool;
  cf_cache_bytes : Z
}.
Record heap_state := HeapState {
  hs_config : heap_config;
  hs_wal_sequence : Z;         (* [wal->last_sequence_] *)
  hs_cache : payload_cache;
  hs_roots : gmap string root_record;
  hs_next_transaction : Z;
  hs_closed : bool;
  hs_poisoned : bool;
  hs_last_sequence : Z
}.
Record loaded_root := LoadedRoot {
  ld_version : Z; ld_payload : option (list byte); ld_exists : bool }.
Record integrity_report := IntegrityReport {
  ir_ok : bool; ir_roots : Z; ir_journal_records : Z; ir_journal_bytes : Z;
  ir_last_sequence : Z; ir_message : string }.

(** [codec<value>::type_name] *)
Definition value_type_name : string := "opheap.value.v1".

Definition snapshot_of (config : heap_config) : snapshot_store :=
  SnapshotStore (path_join (cf_path config) "heap.snapshot") (cf_durability config) (cf_checksums config).
Definition wal_of (config : heap_config) : journal :=
  Journal (path_join (cf_path config) "heap.wal") (cf_durability config) (cf_checksums config).

Definition set_wal_sequence (q : Z) (h : heap_state) : heap_state :=
  HeapState (hs_config h) q (hs_cache h) (hs_roots h) (hs_next_transaction h) (hs_closed h)
    (hs_poisoned h) (hs_last_sequence h).
Definition set_cache (c : payload_cache) (h : heap_state) : heap_state :=
  HeapState (hs_config h) (hs_wal_sequence h) c (hs_roots h) (hs_next_transaction h) (hs_closed h)
    (hs_poisoned h) (hs_last_sequence h).
Definition set_roots (r : gmap string root_record) (h : heap_state) : heap_state :=
  HeapState (hs_config h) (hs_wal_sequence h) (hs_cache h) r (hs_next_transaction h) (hs_closed h)
    (hs_poisoned h) (hs_last_sequence h).
Definition set_poisoned (h : heap_state) : heap_state :=
  HeapState (hs_config h) (hs_wal_sequence h) (hs_cache h) (hs_roots h) (hs_next_transaction h)
    (hs_closed h) true (hs_last_sequence h).
Definition set_last_sequence (q : Z) (h : heap_state) : heap_state :=
  HeapState (hs_config h) (hs_wal_sequence h) (hs_cache h) (hs_roots h) (hs_next_transaction h)
    (hs_closed h) (hs_poisoned h) q.

(** ** Operations *)
Section heap_operations.
Context {W : Type} `{storage W}.

(** The constructor, with [heap::open]. *)
Definition heap_open (config : heap_config) : M W heap_state :=
  if bool_decide (cf_path config = "") then throw (storage_error "heap path must not be empty")
  else
    _ ← create_directories (cf_path config);
    _ ← open_file (j_path (wal_of config)) true;
    image ← snapshot_load (snapshot_of config);
    recovered ← with_local 0 (
      r ← recover (wal_of config) (i_roots image) (i_sequence image) true;
      q ← on_fst get;
      mret (r, q));
    mret (HeapState config recovered.2 (new_cache (cf_cache_bytes config)) (r_roots recovered.1)
            1 false false (r_last_sequence recovered.1)).

Definition heap := M (heap_state * W).
Definition on_wal {A} (m : M (Z * W) A) : heap A := λ '(h, w),
  let '(r, (q, w')) := m (hs_wal_sequence h, w) in (r, (set_wal_sequence q h, w')).
Definition on_cache {A} (m : M payload_cache A) : heap A := λ '(h, w),
  let '(r, c) := m (hs_cache h) in (r, (set_cache c h, w)).
Definition state : heap heap_state := on_fst get.
Definition update (f : heap_state → heap_state) : heap unit := on_fst (modify f).

(** [read_payload] and [load_payload] *)
Definition read_payload (config : heap_config) (record : root_record) (offset count : Z)
    : M W (list byte) :=
  if bool_decide (l_kind (rr_payload record) = src_snapshot)
  then snapshot_read (snapshot_of config) (rr_payload record) offset count
  else journal_read (wal_of config) (rr_payload record) offset count.
Definition load_payload (config : heap_config) (where_ : loc) : M W (list byte) :=
  if bool_decide (l_kind where_ = src_snapshot)
  then snapshot_load_payload (snapshot_of config) where_
  else journal_load (wal_of config) where_.

(** [heap_state::load]: the part under the commit lock, then the whole. *)
Definition load_uncached (name : string) : heap loaded_root :=
  h ← state;
  match hs_roots h !! name with
  | None => mret (LoadedRoot 0 None false)
  | Some record =>
      bytes ← on_snd (load_payload (hs_config h) (rr_payload record));
      cached ← on_cache (cache_put name (rr_version record) bytes);
      mret (LoadedRoot (rr_version record) (Some cached) true)
  end.
Definition load (name : string) : heap loaded_root :=
  h ← state;
  match hs_roots h !! name with
  | None => mret (LoadedRoot 0 None false)
  | Some record =>
      if negb (bool_decide (rr_type record = value_type_name))
      then throw (type_error ("root type is not opheap::value: " +:+ name))
      else
        cached ← on_cache (cache_get name (rr_version record));
        match cached with
        | Some bytes => mret (LoadedRoot (rr_version record) (Some bytes) true)
        | None => load_uncached name
        end
  end.

(** [checkpoint_locked] and [checkpoint] *)
Definition checkpoint_locked : heap unit :=
  h ← state;
  let config := hs_config h in
  written ← on_snd (snapshot_save (snapshot_of config) (read_payload config)
                      (Image (hs_roots h) (hs_wal_sequence h)));
  _ ← update (λ h, set_last_sequence (i_sequence written) (set_roots (i_roots written) h));
  on_snd (journal_reset (wal_of config)).
Definition checkpoint : heap unit :=
  h ← state;
  if hs_closed h then throw (transaction_error "heap is closed") else checkpoint_locked.

(** [commit]: the version check, the publication loop, and the whole. *)
Fixpoint check_versions (roots : gmap string root_record) (updates : list root_update) : result unit :=
  match updates with
  | [] => Ok tt
  | update :: updates =>
      if negb (version_of roots (u_name update) =? u_expected update)
      then Throw (conflict_error ("root version conflict: " +:+ u_name update))
      else check_versions roots updates
  end.
Fixpoint publish_updates (updates : list root_update) (locations : list loc) : heap unit :=
  match updates with
  | [] => mret tt
  | u :: updates =>
      match locations with
      | [] => throw (out_of_range "vector::at")
      | l :: locations =>
          _ ← update (λ h, set_roots (<[u_name u := RootRecord (u_new u) (u_type u) l]> (hs_roots h)) h);
          _ ← on_cache (cache_put (u_name u) (u_new u) (u_payload u));
          publish_updates updates locations
      end
  end.
Definition commit (tx : Z) (updates : list root_update) : heap unit :=
  if bool_decide (updates = []) then mret tt
  else
    h ← state;
    if hs_closed h then throw (transaction_error "heap is closed")
    else if hs_poisoned h
    then throw (storage_error "heap is poisoned after a durability failure")
    else
      _ ← lift_result (check_versions (hs_roots h) updates);
      locations ← catch (on_wal (journal_append (wal_of (hs_config h)) tx updates))
                        (λ e, _ ← update set_poisoned; throw e);
      _ ← publish_updates updates locations;
      _ ← update (λ h, set_last_sequence (hs_wal_sequence h) h);
      n ← on_snd (file_size (j_path (wal_of (hs_config h))));
      if n >=? cf_checkpoint_journal_bytes (hs_config h) then checkpoint_locked else mret tt.

(** [integrity]: an exception becomes a report, so it always succeeds. *)
Definition error_message (e : error) : string :=
  match e with
  | corruption_error w | storage_error w | transaction_error w | conflict_error w
  | type_error w | out_of_range w | sql_error w | json_error w | usage_error w | runtime_error w
  | undefined w => w
  | bad_alloc => "std::bad_alloc"
  | out_of_fuel => ""
  end.
Fixpoint verify_payloads (config : heap_config) (records : list root_record) : M W unit :=
  match records with
  | [] => mret tt
  | record :: records =>
      _ ← load_payload config (rr_payload record);
      verify_payloads config records
  end.
Definition verify (config : heap_config) : M W integrity_report :=
  image ← snapshot_load (snapshot_of config);
  _ ← open_file (j_path (wal_of config)) true;
  recovered ← with_local 0 (recover (wal_of config) (i_roots image) (i_sequence image) false);
  _ ← verify_payloads config (map_to_list (r_roots recovered)).*2;
  n ← file_size (j_path (wal_of config));
  mret (IntegrityReport true (size (map_to_list (r_roots recovered))) (r_records recovered) n
          (r_last_sequence recovered) "ok").
Definition integrity : heap integrity_report :=
  h ← state;
  on_snd (catch (verify (hs_config h))
                (λ e, mret (IntegrityReport false 0 0 0 0 (error_message e)))).

(** [heap::begin]: the id of the new transaction. *)
Definition begin : heap Z :=
  h ← state;
  if hs_closed h then throw (transaction_error "heap is closed")
  else
    _ ← update (λ h, HeapState (hs_config h) (hs_wal_sequence h) (hs_cache h) (hs_roots h)
                       (u64 (hs_next_transaction h + 1)) (hs_closed h) (hs_poisoned h)
                       (hs_last_sequence h));
    mret (hs_next_transaction h).
Definition close : heap unit :=
  update (λ h, HeapState (hs_config h) (hs_wal_sequence h) (hs_cache h) (hs_roots h)
                 (hs_next_transaction h) true (hs_poisoned h) (hs_last_sequence h)).
End heap_operations.

Definition root_count (h : heap_state) : Z := size (map_to_list (hs_roots h)).
Definition root_names (h : heap_state) : list string := (sorted_roots (hs_roots h)).*1.
Definition cache (h : heap_state) : cache_info := cache_info_of (hs_cache h).
