(* ===== verification/Concurrency.v ===== *)
(** * Threads on one heap: the locks of [detail/heap_state.hpp].

    [load], [commit] and [checkpoint] are cut at the points where the code takes or releases
    [commit_mutex], [roots_mutex] or the mutex inside the cache; what lies between two such points
    is a section, and a thread stands before a section.  Sections of different threads interleave
    in any order that the mutexes allow.  [integrity] takes no lock; it is cut between its calls of
    the stores and, in [journal::recover], which goes on reading a file that others may append to or
    empty, between the calls of the file.  The snapshot is read in one section: a file that was
    opened once, and that others replace by another file but never write to. *)
From S2P Require Import Prelude.
From S2P Require Import Binary.
From S2P Require Import Storage.
From S2P Require Import Codec.
From S2P Require Import Journal.
From S2P Require Import Snapshot.
From S2P Require Import Cache.
From S2P Require Import Heap.

(** ** Data *)
Inductive call :=
| CallLoad (name : string)
| CallCommit (tx : Z) (updates : list root_update)
| CallCheckpoint
| CallIntegrity.
(** Where a thread stands: the section it will run next, with its local variables. *)
Inductive section :=
| Idle
| Looking (name : string)
| Hitting (name : string) (record : root_record)
| Missed (name : string)
| Starting (tx : Z) (updates : list root_update)
| Validating (tx : Z) (updates : list root_update)
| Appending (tx : Z) (updates : list root_update)
| Appended (updates : list root_update) (locations : list loc)
| Publishing (updates : list root_update) (locations : list loc)
| Measuring
| Entering
| Saving
| Switching (written : snapshot_image)
| Resetting
| Inspecting
| Reopening (image : snapshot_image)
| Rescanning (image : snapshot_image)
| Scanning (image : snapshot_image) (file_size : Z) (result : scan)
| Framing (image : snapshot_image) (file_size : Z) (result : scan) (frame_size : Z)
| Rechecking (records : list root_record) (recovered : recovery_result).
(** What a section leads to: the next one, or the end of the call. *)
Inductive outcome :=
| Goto (p : section)
| Loaded_ (r : result loaded_root)
| Done_ (r : result unit)
| Reported_ (report : integrity_report).

Definition entry (c : call) : section :=
  match c with
  | CallLoad name => Looking name
  | CallCommit tx updates => Starting tx updates
  | CallCheckpoint => Entering
  | CallIntegrity => Inspecting
  end.
(** [commit_mutex] is held before these sections, and needed for these. *)
Definition holds_commit (p : section) : bool :=
  match p with
  | Appending _ _ | Appended _ _ | Publishing _ _ | Measuring | Saving | Switching _ | Resetting => true
  | _ => false
  end.
Definition takes_commit (p : section) : bool :=
  match p with Missed _ | Validating _ _ | Entering => true | _ => holds_commit p end.
(** [roots_mutex] is held exclusively before this section, and needed, shared or not, for these. *)
Definition holds_roots (p : section) : bool :=
  match p with Publishing _ _ => true | _ => false end.
Definition takes_roots (p : section) : bool :=
  match p with
  | Looking _ | Missed _ | Validating _ _ | Appended _ _ | Publishing _ _ | Saving | Switching _ => true
  | _ => false
  end.

(** ** The sections *)
Section sections.
Context {W : Type} `{storage W}.

(** Run a computation; how it ends says where the thread goes. *)
Definition ends {A} (m : heap (W:=W) A) (next : A → outcome) (failed : error → outcome)
    (s : heap_state * W) : outcome * (heap_state * W) :=
  match m s with
  | (Ok a, s') => (next a, s')
  | (Throw e, s') => (failed e, s')
  end.
(** The first block of [load], on the table of roots. *)
Definition look (roots : gmap string root_record) (name : string) : outcome :=
  match roots !! name with
  | None => Loaded_ (Ok (LoadedRoot 0 None false))
  | Some record =>
      if negb (bool_decide (rr_type record = value_type_name))
      then Loaded_ (Throw (type_error ("root type is not opheap::value: " +:+ name)))
      else Goto (Hitting name record)
  end.
(** The checks of [commit]. *)
Definition validate (tx : Z) (updates : list root_update) (h : heap_state) : outcome :=
  if hs_closed h then Done_ (Throw (transaction_error "heap is closed"))
  else if hs_poisoned h
  then Done_ (Throw (storage_error "heap is poisoned after a durability failure"))
  else
    match check_versions (hs_roots h) updates with
    | Throw e => Done_ (Throw e)
    | Ok _ => Goto (Appending tx updates)
    end.
(** A turn of the loop of [journal::recover] up to the read of the frame; [None] ends the loop. *)
Definition scan_prefix (j : journal) (file_size : Z) (s : scan) : M W (option Z) :=
  if s_offset s <? file_size then
    if file_size - s_offset s <? prefix_size then mret None
    else
      prefix ← read_exact (j_path j) (s_offset s) prefix_size;
      frame_size ← lift_result (run read_prefix prefix);
      mret (if frame_size >? file_size - s_offset s - prefix_size then None else Some frame_size)
  else mret None.
(** The rest of the turn. *)
Definition scan_frame (j : journal) (snapshot_sequence : Z) (s : scan) (frame_size : Z) : M W scan :=
  frame ← read_exact (j_path j) (s_offset s + prefix_size) frame_size;
  lift_result (process_frame (j_checksums j) snapshot_sequence frame s).
(** The end of the loop, and of [journal::recover], which leaves a torn tail alone. *)
Definition scanned (s : scan) : section :=
  Rechecking (map_to_list (s_roots s)).*2
    (RecoveryResult (s_roots s) (s_last_sequence s) (s_records s) (s_last_good s)).
(** One turn of the publication loop: a root, then its payload in the cache. *)
Definition publish_one (u : root_update) (l : loc) : heap (W:=W) unit :=
  _ ← update (λ h, set_roots (<[u_name u := RootRecord (u_new u) (u_type u) l]> (hs_roots h)) h);
  _ ← on_cache (cache_put (u_name u) (u_new u) (u_payload u));
  mret tt.

Definition run_section (p : section) (s : heap_state * W) : outcome * (heap_state * W) :=
  let load_failed := λ e, Loaded_ (Throw e) in
  let failed := λ e, Done_ (Throw e) in
  let alarmed := λ e, Reported_ (IntegrityReport false 0 0 0 0 (error_message e)) in
  match p with
  | Idle => (Goto Idle, s)
  | Looking name => (look (hs_roots s.1) name, s)
  | Hitting name record =>
      ends (on_cache (cache_get name (rr_version record)))
        (λ cached, match cached with
                   | Some bytes => Loaded_ (Ok (LoadedRoot (rr_version record) (Some bytes) true))
                   | None => Goto (Missed name)
                   end) load_failed s
  | Missed name => ends (load_uncached name) (λ l, Loaded_ (Ok l)) load_failed s
  | Starting tx updates =>
      (if bool_decide (updates = []) then Done_ (Ok tt) else Goto (Validating tx updates), s)
  | Validating tx updates => (validate tx updates s.1, s)
  | Appending tx updates =>
      ends (h ← state;
            catch (on_wal (journal_append (wal_of (hs_config h)) tx updates))
                  (λ e, _ ← update set_poisoned; throw e))
        (λ locations, Goto (Appended updates locations)) failed s
  | Appended updates locations => (Goto (Publishing updates locations), s)
  | Publishing [] _ => ends (update (λ h, set_last_sequence (hs_wal_sequence h) h)) (λ _, Goto Measuring) failed s
  | Publishing (u :: updates) [] => (Done_ (Throw (out_of_range "vector::at")), s)
  | Publishing (u :: updates) (l :: locations) =>
      ends (publish_one u l) (λ _, Goto (Publishing updates locations)) failed s
  | Measuring =>
      ends (h ← state; on_snd (file_size (j_path (wal_of (hs_config h)))))
        (λ n, if n >=? cf_checkpoint_journal_bytes (hs_config s.1) then Goto Saving else Done_ (Ok tt)) failed s
  | Entering =>
      (if hs_closed s.1 then Done_ (Throw (transaction_error "heap is closed")) else Goto Saving, s)
  | Saving =>
      ends (h ← state;
            on_snd (snapshot_save (snapshot_of (hs_config h)) (read_payload (hs_config h))
                      (Image (hs_roots h) (hs_wal_sequence h))))
        (λ written, Goto (Switching written)) failed s
  | Switching written =>
      ends (update (λ h, set_last_sequence (i_sequence written) (set_roots (i_roots written) h)))
        (λ _, Goto Resetting) failed s
  | Resetting =>
      ends (h ← state; on_snd (journal_reset (wal_of (hs_config h)))) (λ _, Done_ (Ok tt)) failed s
  | Inspecting =>
      ends (h ← state; on_snd (snapshot_load (snapshot_of (hs_config h))))
        (λ image, Goto (Reopening image)) alarmed s
  | Reopening image =>
      ends (h ← state; on_snd (open_file (j_path (wal_of (hs_config h))) true))
        (λ _, Goto (Rescanning image)) alarmed s
  | Rescanning image =>
      ends (h ← state; on_snd (file_size (j_path (wal_of (hs_config h)))))
        (λ n, Goto (Scanning image n (initial_scan (i_roots image) (i_sequence image)))) alarmed s
  | Scanning image n result =>
      ends (h ← state; on_snd (scan_prefix (wal_of (hs_config h)) n result))
        (λ frame_size, Goto (match frame_size with
                             | None => scanned result
                             | Some m => Framing image n result m
                             end)) alarmed s
  | Framing image n result m =>
      ends (h ← state; on_snd (scan_frame (wal_of (hs_config h)) (i_sequence image) result m))
        (λ result', Goto (Scanning image n result')) alarmed s
  | Rechecking (record :: records) recovered =>
      ends (h ← state; on_snd (load_payload (hs_config h) (rr_payload record)))
        (λ _, Goto (Rechecking records recovered)) alarmed s
  | Rechecking [] recovered =>
      ends (h ← state; on_snd (file_size (j_path (wal_of (hs_config h)))))
        (λ n, Reported_ (IntegrityReport true (size (map_to_list (r_roots recovered))) (r_records recovered) n
                (r_last_sequence recovered) "ok")) alarmed s
  end.

(** A call that nothing interrupts. *)
Fixpoint run_alone (fuel : nat) (p : section) (s : heap_state * W) : outcome * (heap_state * W) :=
  match fuel with
  | O => (Goto p, s)
  | S fuel =>
      match run_section p s with
      | (Goto p', s') => run_alone fuel p' s'
      | r => r
      end
  end.

(** ** Systems of threads *)
Record system := System { sy_heap : heap_state; sy_store : W; sy_threads : list section }.
Inductive event :=
| Called (i : nat) (c : call)
| Stepped (i : nat)
| Committed (i : nat) (updates : list root_update)
| LoadEnded (i : nat) (name : string) (r : result loaded_root)
| Ended (i : nat) (r : result unit)
| Saved (i : nat)
| Verified (i : nat) (report : integrity_report)
| Began (i : nat) (tx : Z)
| Closed.

(** No other thread keeps thread [i] from running the section [p]. *)
Definition may_run (threads : list section) (i : nat) (p : section) : Prop :=
  ∀ j q, j ≠ i → threads !! j = Some q →
    (takes_commit p = true → holds_commit q = false) ∧ (takes_roots p = true → holds_roots q = false).
Definition event_of (i : nat) (p : section) (o : outcome) : event :=
  match p, o with
  | Appended updates _, _ => Committed i updates
  | Saving, Goto _ => Saved i
  | _, Reported_ report => Verified i report
  | (Looking name | Hitting name _ | Missed name), Loaded_ r => LoadEnded i name r
  | _, Done_ r => Ended i r
  | _, _ => Stepped i
  end.
Definition next_section (o : outcome) : section := match o with Goto p => p | _ => Idle end.

Inductive step : system → event → system → Prop :=
| step_call h w threads i c :
    threads !! i = Some Idle →
    step (System h w threads) (Called i c) (System h w (<[i := entry c]> threads))
| step_section h w threads i p o h' w' :
    threads !! i = Some p → p ≠ Idle → may_run threads i p → run_section p (h, w) = (o, (h', w')) →
    step (System h w threads) (event_of i p o) (System h' w' (<[i := next_section o]> threads))
| step_begin h w threads i tx h' w' :
    threads !! i = Some Idle → begin (h, w) = (Ok tx, (h', w')) →
    step (System h w threads) (Began i tx) (System h' w' threads)
| step_close h w threads h' w' :
    close (h, w) = (Ok tt, (h', w')) →
    step (System h w threads) Closed (System h' w' threads).
(** The events of an execution, in order. *)
Inductive execution (s : system) : list event → system → Prop :=
| execution_nil : execution s [] s
| execution_snoc events s1 e s2 :
    execution s events s1 → step s1 e s2 → execution s (events ++ [e]) s2.

(** ** A scheduler, for concrete executions *)
Inductive action := DoCall (i : nat) (c : call) | DoStep (i : nat).
Definition may_runb (threads : list section) (i : nat) (p : section) : bool :=
  forallb (λ '(j, q), bool_decide (j = i) ||
      (implb (takes_commit p) (negb (holds_commit q)) && implb (takes_roots p) (negb (holds_roots q))))
    (imap pair threads).
Definition act (a : action) (s : system) : option (event * system) :=
  match a with
  | DoCall i c =>
      match sy_threads s !! i with
      | Some Idle => Some (Called i c, System (sy_heap s) (sy_store s) (<[i := entry c]> (sy_threads s)))
      | _ => None
      end
  | DoStep i =>
      match sy_threads s !! i with
      | None | Some Idle => None
      | Some p =>
          if may_runb (sy_threads s) i p then
            let '(o, (h', w')) := run_section p (sy_heap s, sy_store s) in
            Some (event_of i p o, System h' w' (<[i := next_section o]> (sy_threads s)))
          else None
      end
  end.
Fixpoint play (actions : list action) (s : system) : option (list event * system) :=
  match actions with
  | [] => Some ([], s)
  | a :: actions =>
      '(e, s1) ← act a s;
      '(events, s2) ← play actions s1;
      Some (e :: events, s2)
  end.
End sections.
Arguments System {W} _ _ _.
Arguments system : clear implicits.
