(* ===== verification/HeapSpec.v ===== *)
(** * What the heap promises

    The abstract heap is a map from root names to versioned payloads ([amap]).  [recovers] says
    that what is on the storage recovers to an abstract heap, [heap_inv] that an open heap
    represents one.  The lemmas give, for every operation and for every outcome the storage
    contract allows, which abstract heap the result stands for. *)
From S2P Require Import Prelude.
From S2P Require Import Binary.
From S2P Require Import OrderedMap.
From S2P Require Import Codec.
From S2P Require Import Storage.
From S2P Require Import Journal.
From S2P Require Import Recovery.
From S2P Require Import Snapshot.
From S2P Require Import SnapshotImage.
From S2P Require Import Cache.
From S2P Require Import Heap.

(** ** The abstract heap *)
Record aroot := ARoot { a_version : Z; a_type : string; a_payload : list byte }.
Abbreviation amap := (gmap string aroot) (only parsing).
Definition a_commit (updates : list root_update) (A : amap) : amap :=
  foldl (λ A u, <[u_name u := ARoot (u_new u) (u_type u) (u_payload u)]> A) A updates.
Definition wf_aroot (name : string) (a : aroot) : Prop :=
  is_u64 (ssize name) ∧ is_u64 (a_version a) ∧ is_u64 (ssize (a_type a)) ∧ is_u64 (size (a_payload a)).
Definition wf_amap (A : amap) : Prop := ∀ n a, A !! n = Some a → wf_aroot n a.
(** What a snapshot can hold: the number of roots that loading accepts, names and types short
    enough for the index to have a 64-bit size, and payloads no longer than a journal record. *)
Definition saveable (A : amap) : Prop :=
  size (map_to_list A) ≤ max_root_count ∧
  ∀ n a, A !! n = Some a →
    ssize n ≤ 2 ^ 32 ∧ ssize (a_type a) ≤ 2 ^ 32 ∧ size (a_payload a) ≤ max_frame_size.

(** A root record stands for an abstract root when its locator designates the payload, in the
    contents [cs] of the snapshot or [cj] of the journal. *)
Definition located (cs : option (list byte)) (cj : list byte) (l : loc) (data : list byte) : Prop :=
  match l_kind l with
  | src_snapshot => ∃ c, cs = Some c ∧ loc_holds c l data
  | src_journal => loc_holds cj l data
  end.
Record root_holds (cs : option (list byte)) (cj : list byte) (r : root_record) (a : aroot) : Prop := {
  rh_version : rr_version r = a_version a;
  rh_type : rr_type r = a_type a;
  rh_payload : located cs cj (rr_payload r) (a_payload a)
}.
Definition roots_hold cs cj (roots : gmap string root_record) (A : amap) : Prop :=
  ∀ n, option_Forall2 (root_holds cs cj) (roots !! n) (A !! n).

(** What the cache may hold: payloads of current versions, and of older ones. *)
Definition cached_in (A : amap) (n : string) (v : Z) (p : list byte) : Prop :=
  ∃ a, A !! n = Some a ∧ v ≤ a_version a ∧ (v = a_version a → p = a_payload a).

Section roots_hold.
Implicit Types (roots : gmap string root_record) (A : amap).
Lemma roots_hold_lookup cs cj roots A n r :
  roots_hold cs cj roots A → roots !! n = Some r → ∃ a, A !! n = Some a ∧ root_holds cs cj r a.
Proof.
  intros Hr Hn. specialize (Hr n). rewrite Hn in Hr. inversion Hr; subst. eauto.
Qed.
Lemma roots_hold_None cs cj roots A n :
  roots_hold cs cj roots A → (roots !! n = None ↔ A !! n = None).
Proof. intros Hr. specialize (Hr n). by inversion Hr. Qed.
Lemma roots_hold_mono cs cj cs' cj' roots A :
  roots_hold cs cj roots A → (∀ l data, located cs cj l data → located cs' cj' l data) →
  roots_hold cs' cj' roots A.
Proof.
  intros Hr Hl n. destruct (Hr n) as [r a [? ? ?]|]; constructor. split; auto.
Qed.
Lemma located_app cs cj x l data : located cs cj l data → located cs (cj ++ x) l data.
Proof. unfold located. destruct (l_kind l); [done|]. apply loc_holds_app. Qed.
Lemma roots_hold_insert cs cj roots A n r a :
  roots_hold cs cj roots A → root_holds cs cj r a → roots_hold cs cj (<[n := r]> roots) (<[n := a]> A).
Proof.
  intros Hr Ha m. destruct (decide (n = m)) as [->|].
  - rewrite !lookup_insert_eq. by constructor.
  - by rewrite !lookup_insert_ne.
Qed.
(** Publishing a commit's updates gives the abstract commit. *)
Lemma publish_holds cs cj updates locs roots A :
  roots_hold cs cj roots A → Forall2 (loc_holds cj) locs (u_payload <$> updates) →
  Forall (λ l, l_kind l = src_journal) locs →
  roots_hold cs cj (publish updates locs roots) (a_commit updates A).
Proof.
  revert locs roots A. induction updates as [|u us IH]; intros [|l ls] roots A Hr Hl Hk;
    try (by inversion Hl).
  simpl in Hl. apply Forall2_cons in Hl as [Hl Hls]. apply Forall_cons in Hk as [Hk Hks].
  rewrite publish_cons. simpl. apply IH; [|done|done].
  apply roots_hold_insert; [done|]. split; [done|done|]. unfold located; simpl. by rewrite Hk.
Qed.
Lemma version_of_holds cs cj roots A n :
  roots_hold cs cj roots A → version_of roots n = default 0 (a_version <$> A !! n).
Proof.
  intros Hr. unfold version_of. specialize (Hr n). inversion Hr as [r a [Hv _ _]|]; simpl; [by rewrite Hv|done].
Qed.
Lemma a_commit_wf updates A :
  wf_amap A → Forall wf_update updates → wf_amap (a_commit updates A).
Proof.
  intros HA Hu. revert A HA. induction Hu as [|u us Hw _ IH]; intros A HA; simpl; [done|].
  apply IH. intros n a [[<- <-]|[_ Ha]]%lookup_insert_Some; [|by apply HA].
  pose proof (wf_update_u64 u Hw) as (? & ? & ?). destruct Hw as (_ & ? & _). by split_and!.
Qed.
End roots_hold.
#[export] Hint Resolve located_app : core.

(** ** States of the storage and of an open heap *)
Section heap_spec.
Context {W : Type} `{HW : storage_reliable W} (config : heap_config).
Definition snap_path : string := sn_path (snapshot_of config).
Definition wal_path : string := j_path (wal_of config).
Let ck := cf_checksums config.

Definition parse_image (cs : option (list byte)) : result snapshot_image :=
  match cs with None => Ok (Image ∅ 0) | Some c => parse_snapshot ck c end.
(** The good part of a journal: up to where its scan ended. *)
Definition good_part (s : scan) (cj : list byte) : list byte := take (Z.to_nat (s_last_good s)) cj.

Record disk_state (w : W) (A : amap) (image : snapshot_image) (cj : list byte) (s : scan) : Prop := {
  ds_snapshot : parse_image (file_of w snap_path) = Ok image;
  ds_journal : default [] (file_of w wal_path) = cj;
  ds_scan : scan_all ck (i_sequence image) cj (initial_scan (i_roots image) (i_sequence image)) = Ok s;
  ds_roots : roots_hold (file_of w snap_path) (good_part s cj) (s_roots s) A;
  ds_wf : wf_amap A;
  ds_sequence : is_u64 (i_sequence image) ∧ is_u64 (s_last_sequence s)
}.
Definition recovers (w : W) (A : amap) : Prop := ∃ image cj s, disk_state w A image cj s.

Record heap_state_ok (h : heap_state) (w : W) (A : amap) (image : snapshot_image) (cj : list byte)
    (s : scan) : Prop := {
  hi_config : hs_config h = config;
  hi_disk : disk_state w A image cj s;
  hi_journal : file_of w wal_path = Some cj;
  hi_complete : s_offset s = size cj ∧ s_last_good s = size cj;
  hi_roots : hs_roots h = s_roots s;
  hi_sequence : hs_wal_sequence h = s_last_sequence s;
  hi_cache : coherent (cached_in A) (hs_cache h)
}.
(** The open heap [h] on the storage [w] represents [A]; the transactions of [pending] have
    left unfinished records in the journal. *)
Definition heap_inv (h : heap_state) (w : W) (A : amap) (pending : gmap Z pending_transaction) : Prop :=
  ∃ image cj s, heap_state_ok h w A image cj s ∧ s_pending s = pending.

Lemma heap_inv_recovers h w A p : heap_inv h w A p → recovers w A.
Proof. intros (image & cj & s & Hh & _). exists image, cj, s. apply Hh. Qed.

(** *** Paths *)
Lemma paths_differ : snap_path ≠ wal_path ∧ temporary (snapshot_of config) ≠ wal_path ∧
  temporary (snapshot_of config) ≠ snap_path.
Proof.
  unfold snap_path, wal_path, temporary; simpl. unfold path_join.
  split_and!; intros E%(f_equal ssize); rewrite !ssize_app in E; unfold ssize in E; simpl in E; lia.
Qed.

Lemma good_part_complete s cj : s_last_good s = size cj → good_part s cj = cj.
Proof. unfold good_part. intros ->. unfold size. by rewrite Nat2Z.id, firstn_all. Qed.
Lemma disk_state_same_files w w' A image cj s :
  same_files w w' → disk_state w A image cj s → disk_state w' A image cj s.
Proof. intros Hs [H1 H2 H3 H4 H5 H6]. split; by rewrite ?Hs. Qed.
Lemma recovers_same_files w w' A : same_files w w' → recovers w A → recovers w' A.
Proof. intros Hs (image & cj & s & H1). exists image, cj, s. by eapply disk_state_same_files. Qed.
Lemma heap_inv_same_files h w w' A p : same_files w w' → heap_inv h w A p → heap_inv h w' A p.
Proof.
  intros Hs (image & cj & s & [H1 H2 H3 H4 H5 H6 H7] & Hp). exists image, cj, s. split; [|done].
  split; try done; [by eapply disk_state_same_files|by rewrite Hs].
Qed.
(** Only the two files matter. *)
Lemma recovers_files w w' A :
  file_of w' snap_path = file_of w snap_path → file_of w' wal_path = file_of w wal_path →
  recovers w A → recovers w' A.
Proof.
  intros Es Ew (image & cj & s & [H1 H2 H3 H4 H5 H6]). exists image, cj, s. split; by rewrite ?Es, ?Ew.
Qed.
Lemma heap_inv_files h w w' A p :
  file_of w' snap_path = file_of w snap_path → file_of w' wal_path = file_of w wal_path →
  heap_inv h w A p → heap_inv h w' A p.
Proof.
  intros Es Ew (image & cj & s & [H1 [? ? ? ? ? ?] H3 H4 H5 H6 H7] & Hp). exists image, cj, s.
  split; [|done]. split; try done; [split; by rewrite ?Es, ?Ew|by rewrite Ew].
Qed.

(** *** Opening *)

(** Cutting off the torn tail of the journal keeps what it recovers to, and completes it. *)
Lemma disk_state_truncated w w' A image cj s :
  disk_state w A image cj s →
  file_of w' snap_path = file_of w snap_path → file_of w' wal_path = Some (good_part s cj) →
  disk_state w' A image (good_part s cj) s ∧
  s_offset s = size (good_part s cj) ∧ s_last_good s = size (good_part s cj).
Proof.
  intros [H1 H2 H3 H4 H5 H6] Es Ew.
  destruct (complete_truncated _ _ _ _ _ H3) as [(Hscan & Ho & Hg) _];
    [simpl; pose proof (size_nonneg cj); lia|done|].
  fold (good_part s cj) in Hscan, Ho, Hg. split; [|done]. split; rewrite ?Es, ?Ew; try done.
  by rewrite good_part_complete.
Qed.

Lemma open_wal_spec w A image cj s :
  disk_state w A image cj s →
  ∃ r w', open_file wal_path true w = (r, w') ∧ disk_state w' A image cj s ∧
    (is_ok r → is_Some (file_of w' wal_path)) ∧ (reliable w → r = Ok tt ∧ reliable w').
Proof.
  intros Hd. destruct (leaves_create wal_path w) as (r & w' & E & Hb & Hf & Hok).
  pose proof (open_file_law wal_path true w) as Hl. rewrite E in Hl.
  exists r, w'. split_and!; [done| | |].
  - destruct r as [u|e]; [|by eapply disk_state_same_files].
    destruct Hl as (_ & Hw & _). destruct Hd as [H1 H2 H3 H4 H5 H6].
    pose proof paths_differ as [Hne _]. split; rewrite ?(Hb snap_path) by done; try done. by rewrite Hw.
  - intros Hr'. rewrite (Hf Hr'). done.
  - intros [[[] ->] ?]%Hok. done.
Qed.

Lemma recover_spec image cj s q w A :
  disk_state w A image cj s → file_of w wal_path = Some cj →
  ∃ r q' w', recover (wal_of config) (i_roots image) (i_sequence image) true (q, w) = (r, (q', w')) ∧
    recovers w' A ∧
    (∀ x, r = Ok x → x = result_of s ∧ q' = s_last_sequence s ∧
       disk_state w' A image (good_part s cj) s ∧ file_of w' wal_path = Some (good_part s cj)) ∧
    (reliable w → r = Ok (result_of s) ∧ reliable w').
Proof.
  intros Hd Hw. pose proof Hd as [H1 _ H3 _ _ _]. pose proof paths_differ as [Hne _].
  destruct (recover_scan (wal_of config) (i_roots image) (i_sequence image) true q cj w Hw)
    as (r & q' & w' & E & Hb & Hr & Hok).
  assert (file_of w' snap_path = file_of w snap_path) as Es by by apply Hb.
  change (j_checksums (wal_of config)) with ck in *. change (j_path (wal_of config)) with wal_path in *.
  rewrite H3 in Hr, Hok. simpl in Hok.
  assert (file_of w' wal_path = Some (good_part s cj) → disk_state w' A image (good_part s cj) s) as Htr.
  { intros Ew. by eapply disk_state_truncated. }
  exists r, q', w'. split; [done|]. split_and!; [| |by intros [? ?]%Hok].
  - destruct r as [x|e].
    + destruct Hr as (s' & [= <-] & _ & _ & Ew). simpl in Ew. do 3 eexists. by apply Htr.
    + destruct Hr as [_ [Ew|(s' & [= <-] & Ew)]].
      * exists image, cj, s. destruct Hd as [? ? ? ? ? ?]. split; rewrite ?Es, ?Ew; try done.
      * do 3 eexists. by apply Htr.
  - intros x ->. destruct Hr as (s' & [= <-] & -> & -> & Ew). split_and!; try done. by apply Htr.
Qed.

Lemma create_directories_computes p w :
  computes (create_directories p) w (Ok tt).
Proof.
  pose proof (create_directories_law p w) as Hl. pose proof (λ Hr, create_directories_ok p w Hr) as Hok.
  unfold computes. destruct (create_directories p w) as [[[]|e] w']; simpl in Hl;
    do 2 eexists; (split_and!; [done|done| |]).
  - by left.
  - by intros (? & [= <-] & ?)%Hok.
  - right. by eexists.
  - by intros (? & [=] & ?)%Hok.
Qed.

(** The freshly opened state. *)
Definition opened (s : scan) : heap_state :=
  HeapState config (s_last_sequence s) (new_cache (cf_cache_bytes config)) (s_roots s) 1 false false
    (s_last_sequence s).
Lemma opened_inv w A image cj s :
  0 ≤ cf_cache_bytes config < 2 ^ 63 →
  disk_state w A image (good_part s cj) s → file_of w wal_path = Some (good_part s cj) →
  s_offset s = size (good_part s cj) ∧ s_last_good s = size (good_part s cj) →
  heap_inv (opened s) w A (s_pending s).
Proof.
  intros Hcache Hd Hw Hc. exists image, (good_part s cj), s. split; [|done]. split; try done.
  split; [by apply new_cache_ok|]. by intros n v p (it & e & ?%not_elem_of_nil & _).
Qed.

(** Loading the snapshot, then recovering the journal over it. *)
Definition open_journal : M W heap_state :=
  image ← snapshot_load (snapshot_of config);
  recovered ← with_local 0 (
    r ← recover (wal_of config) (i_roots image) (i_sequence image) true;
    q ← on_fst get;
    mret (r, q));
  mret (HeapState config recovered.2 (new_cache (cf_cache_bytes config)) (r_roots recovered.1)
          1 false false (r_last_sequence recovered.1)).
Lemma open_journal_spec w A image cj' s :
  0 ≤ cf_cache_bytes config < 2 ^ 63 → disk_state w A image cj' s → is_Some (file_of w wal_path) →
  ∃ r w', open_journal w = (r, w') ∧ recovers w' A ∧
    (∀ h, r = Ok h → h = opened s ∧ heap_inv h w' A (s_pending s)) ∧
    (reliable w → is_ok r ∧ reliable w').
Proof.
  intros Hcache Hd [cj Hw].
  assert (cj' = cj) as -> by (pose proof (ds_journal _ _ _ _ _ Hd) as E; by rewrite Hw in E).
  pose proof (snapshot_load_parse (snapshot_of config) w) as Hload. fold snap_path in Hload.
  change (match file_of w snap_path with None => Ok (Image ∅ 0) | Some c => parse_snapshot (sn_checksums (snapshot_of config)) c end)
    with (parse_image (file_of w snap_path)) in Hload.
  rewrite (ds_snapshot _ _ _ _ _ Hd) in Hload.
  destruct Hload as (r1 & w1 & E1 & Hs1 & Hr1 & Hok1).
  pose proof (disk_state_same_files _ _ _ _ _ _ Hs1 Hd) as Hd1.
  unfold open_journal, mbind, M_bind. rewrite E1. destruct Hr1 as [->|[e ->]].
  2:{ do 2 eexists. split; [done|]. split_and!; [by do 3 eexists|done|by intros [[=] ?]%Hok1]. }
  destruct (recover_spec image cj s 0 w1 A Hd1) as (r2 & q2 & w2 & E2 & Hrec2 & Hr2 & Hok2);
    [by rewrite Hs1|].
  unfold with_local. rewrite E2. destruct r2 as [x|e].
  2:{ do 2 eexists. split; [done|]. split_and!; [done|done|by intros [_ [[=] ?]%Hok2]%Hok1]. }
  destruct (Hr2 x eq_refl) as (-> & -> & Hd2 & Hw2). simpl.
  do 2 eexists. split; [done|]. split_and!; [done| |].
  - intros h [= <-]. split; [done|]. eapply opened_inv; [done|done|done|].
    destruct (disk_state_truncated _ w2 _ _ _ _ Hd1) as [_ ?]; [|done|done].
    destruct Hd2 as [H2 _ _ _ _ _], Hd1 as [H1' _ _ _ _ _].
    assert (∀ q, q ≠ wal_path → file_of w2 q = file_of w1 q) as Hb.
    { destruct (recover_scan (wal_of config) (i_roots image) (i_sequence image) true 0 cj w1) as
        (r' & q' & w' & E' & Hb & _); [by rewrite Hs1|]. rewrite E' in E2. by injection E2 as -> -> ->. }
    apply Hb, paths_differ.
  - intros [_ [_ ?]%Hok2]%Hok1. split; [by eexists|done].
Qed.

(** What is opened is what is on the storage. *)
Lemma heap_open_exact w A image cj s :
  cf_path config ≠ "" → 0 ≤ cf_cache_bytes config < 2 ^ 63 → disk_state w A image cj s →
  ∃ r w', heap_open config w = (r, w') ∧ recovers w' A ∧
    (∀ h, r = Ok h → h = opened s ∧ heap_inv h w' A (s_pending s)) ∧
    (reliable w → is_ok r ∧ reliable w').
Proof.
  intros Hp Hcache Hd. unfold heap_open. rewrite bool_decide_false by done.
  destruct (create_directories_computes (cf_path config) w) as (r1 & w1 & E1 & Hs1 & Hr1 & Hok1).
  pose proof (disk_state_same_files _ _ _ _ _ _ Hs1 Hd) as Hd1.
  unfold mbind at 1, M_bind at 1. rewrite E1. destruct Hr1 as [->|[e ->]].
  2:{ do 2 eexists. split; [done|]. split_and!; [by do 3 eexists|done|by intros [[=] ?]%Hok1]. }
  destruct (open_wal_spec w1 A image cj s Hd1) as (r2 & w2 & E2 & Hd2 & Hsome & Hok2). fold wal_path.
  unfold mbind at 1, M_bind at 1. rewrite E2. destruct r2 as [u|e].
  2:{ do 2 eexists. split; [done|]. split_and!; [by do 3 eexists|done|by intros [_ [[=] ?]%Hok2]%Hok1]. }
  destruct (open_journal_spec w2 A image cj s Hcache Hd2 (Hsome ltac:(by eexists))) as (r3 & w3 & E3 & Hrec3 & Hh & Hok3).
  exists r3, w3. split_and!; [exact E3|done|done|]. by intros [_ [_ ?%Hok3]%Hok2]%Hok1.
Qed.
Lemma heap_open_spec w A :
  cf_path config ≠ "" → 0 ≤ cf_cache_bytes config < 2 ^ 63 → recovers w A →
  ∃ r w', heap_open config w = (r, w') ∧ recovers w' A ∧
    (∀ h, r = Ok h → ∃ s, h = opened s ∧ heap_inv h w' A (s_pending s)) ∧
    (reliable w → is_ok r ∧ reliable w').
Proof.
  intros Hp Hcache (image & cj & s & Hd). destruct (heap_open_exact w A image cj s Hp Hcache Hd) as (r & w' & E & Hrec & Ho & Hok).
  exists r, w'. split_and!; [done|done|by intros h ?%Ho; exists s|done].
Qed.

(** A journal that a scan finds damaged: the heap is not opened, and nothing is changed. *)
Definition refuses (w : W) : Prop :=
  reliable w → ∃ what w', heap_open config w = (Throw (corruption_error what), w') ∧ same_files w w'.
Lemma heap_open_refuses w image c what :
  cf_path config ≠ "" → parse_image (file_of w snap_path) = Ok image → file_of w wal_path = Some c →
  scan_all ck (i_sequence image) c (initial_scan (i_roots image) (i_sequence image)) = Throw (corruption_error what) →
  refuses w.
Proof.
  intros Hp Hi Hc Hs Hrel. unfold heap_open. rewrite bool_decide_false by done.
  destruct (create_directories_computes (cf_path config) w) as (r1 & w1 & E1 & Hs1 & _ & Hok1).
  destruct (Hok1 Hrel) as [-> Hrel1]. assert (file_of w1 wal_path = Some c) as Hc1 by by rewrite Hs1.
  destruct (computes_open wal_path c true w1 Hc1) as (r2 & w2 & E2 & Hs2 & _ & Hok2).
  destruct (Hok2 Hrel1) as [-> Hrel2]. pose proof (same_files_trans _ _ _ Hs1 Hs2) as Hs12.
  pose proof (snapshot_load_parse (snapshot_of config) w2) as Hload. fold snap_path in Hload.
  change (match file_of w2 snap_path with None => Ok (Image ∅ 0) | Some c => parse_snapshot (sn_checksums (snapshot_of config)) c end)
    with (parse_image (file_of w2 snap_path)) in Hload.
  rewrite Hs12, Hi in Hload. destruct Hload as (r3 & w3 & E3 & Hs3 & _ & Hok3).
  destruct (Hok3 Hrel2) as [-> Hrel3]. pose proof (same_files_trans _ _ _ Hs12 Hs3) as Hs13.
  destruct (recover_scan (wal_of config) (i_roots image) (i_sequence image) true 0 c w3) as
    (r4 & q & w4 & E4 & Hb & Hr & Hok4); [by rewrite Hs13|].
  destruct (Hok4 Hrel3) as [_ Er]. change (j_checksums (wal_of config)) with ck in *. rewrite Hs in Er, Hr. simpl in Er. subst r4.
  exists what, w4. split.
  - fold wal_path. by m_run E1; m_run E2; m_run E3; unfold mbind, M_bind, with_local; rewrite E4.
  - eapply same_files_trans; [exact Hs13|]. intros q'. destruct (decide (q' = wal_path)) as [->|Hq]; [|by apply Hb].
    destruct Hr as (_ & [Ew|(s & [=] & _)]). change (j_path (wal_of config)) with wal_path in Ew. by rewrite Ew, Hs13.
Qed.

(** *** Reading payloads *)

(** The bytes a record designates, in given contents. *)
Definition payload_in (cs : option (list byte)) (cj : list byte) (r : root_record) : list byte :=
  let l := rr_payload r in
  slice (match l_kind l with src_snapshot => default [] cs | src_journal => cj end) (l_offset l) (l_size l).
Lemma payload_in_holds cs cj r a : root_holds cs cj r a → payload_in cs cj r = a_payload a.
Proof.
  intros [_ _ Hl]. unfold payload_in, located in *. destruct (l_kind (rr_payload r)).
  - destruct Hl as (c & -> & Hl). apply Hl.
  - apply Hl.
Qed.
Lemma located_loc cs cj l data : located cs cj l data → l_size l = size data ∧ l_checksum l = crc32c data.
Proof. unfold located. destruct (l_kind l); [intros (c & _ & [? ? _ _])|intros [? ? _ _]]; done. Qed.

Lemma read_payload_computes cj r a off n w :
  root_holds (file_of w snap_path) cj r a → file_of w wal_path = Some cj →
  0 ≤ off → 0 ≤ n → off + n ≤ size (a_payload a) →
  computes (read_payload config r off n) w (Ok (slice (a_payload a) off n)).
Proof.
  intros [_ _ Hl] Hw Ho Hn Hle. unfold read_payload, located in *.
  destruct (l_kind (rr_payload r)) eqn:Hk.
  - rewrite bool_decide_true by done. destruct Hl as (c & Hc & Hl).
    by eapply snapshot_read_holds.
  - rewrite bool_decide_false by done. by eapply journal_read_holds.
Qed.
Lemma load_payload_computes cj r a w :
  root_holds (file_of w snap_path) cj r a → file_of w wal_path = Some cj →
  size (a_payload a) < u64_bound →
  computes (load_payload config (rr_payload r)) w (Ok (a_payload a)).
Proof.
  intros [_ _ Hl] Hw Hu. unfold load_payload, located in *.
  destruct (l_kind (rr_payload r)) eqn:Hk.
  - rewrite bool_decide_true by done. destruct Hl as (c & Hc & Hl).
    by eapply snapshot_load_payload_holds.
  - rewrite bool_decide_false by done. by eapply journal_load_holds.
Qed.

Lemma load_payload_harmless l w : harmless (load_payload config l) w.
Proof.
  unfold load_payload, snapshot_load_payload, journal_load, snapshot_read, journal_read.
  repeat first [apply harmless_throw|apply harmless_ret|apply harmless_read|apply harmless_open
               |apply harmless_bind; [|intros]|case_match].
Qed.

(** *** Saving the roots of an open heap *)
Section checkpointing.
Context (h : heap_state) (w : W) (A : amap) (image : snapshot_image) (cj : list byte) (s : scan).
Context (Hh : heap_state_ok h w A image cj s) (Hsave : saveable A).
Let pl : root_record → list byte := payload_in (file_of w snap_path) cj.
Let now : snapshot_image := Image (hs_roots h) (hs_wal_sequence h).

Lemma checkpoint_roots : roots_hold (file_of w snap_path) cj (hs_roots h) A.
Proof.
  destruct Hh as [_ Hd _ [_ Hg] -> _ _]. pose proof (ds_roots _ _ _ _ _ Hd) as Hr.
  by rewrite good_part_complete in Hr.
Qed.
(** Each indexed root, with the abstract root it stands for. *)
Lemma checkpoint_root roots x :
  ordered_roots now = Ok roots → x ∈ roots →
  ∃ a, A !! x_name x = Some a ∧ root_holds (file_of w snap_path) cj (x_record x) a.
Proof.
  intros Ho Hx. destruct (ordered_roots_spec _ _ Ho) as (H1 & _). apply H1 in Hx.
  by apply (roots_hold_lookup _ _ _ _ _ _ checkpoint_roots).
Qed.
Lemma checkpoint_reads roots :
  ordered_roots now = Ok roots →
  Forall (λ x, reads_payload (snapshot_of config) (read_payload config) pl w (x_record x)) roots.
Proof.
  intros Ho. apply Forall_forall. intros x Hx.
  destruct (checkpoint_root roots x Ho Hx) as (a & Ha & Hr).
  unfold reads_payload, pl. rewrite (payload_in_holds _ _ _ _ Hr).
  destruct (located_loc _ _ _ _ (rh_payload _ _ _ _ Hr)) as [-> _]. split; [done|].
  intros off n w' Hb ? ? ?. destruct paths_differ as (_ & Hne1 & Hne2).
  eapply read_payload_computes; [|by rewrite Hb, (hi_journal _ _ _ _ _ _ Hh)|done|done|done].
  by rewrite Hb.
Qed.
Lemma size_payloads off n roots :
  placed off n roots →
  Forall (λ x, reads_payload (snapshot_of config) (read_payload config) pl w (x_record x)) roots →
  size (payloads pl roots) = n - off.
Proof.
  induction 1 as [|off n x roots <- _ IH]; intros Hr; simpl; [rewrite size_nil; lia|].
  apply Forall_cons in Hr as [[Hsz _] Hr]. rewrite size_app, IH, Hsz by done. lia.
Qed.
Lemma checkpoint_wf_indexed roots :
  ordered_roots now = Ok roots → Forall (wf_indexed (size (payloads pl roots))) roots.
Proof.
  intros Ho. destruct (ordered_roots_spec _ _ Ho) as (_ & _ & _ & n & Hn & Hp).
  pose proof (checkpoint_reads roots Ho) as Hr. rewrite (size_payloads 0 n) by done.
  destruct (placed_le 0 n roots Hp) as [_ Hpl].
  { eapply Forall_impl; [done|]. intros x [-> _]. done. }
  apply Forall_forall. intros x Hx. destruct (checkpoint_root roots x Ho Hx) as (a & Ha & [Hv Ht Hl]).
  destruct (located_loc _ _ _ _ Hl) as [Hsz Hcrc].
  destruct Hh as [_ Hd _ _ _ _ _]. destruct (ds_wf _ _ _ _ _ Hd _ _ Ha) as (? & ? & ? & Hu).
  eapply Forall_forall in Hpl as [Ho1 Ho2]; [|done]. pose proof (size_nonneg (a_payload a)).
  split; rewrite ?Hv, ?Ht, ?Hcrc; try done; [|by rewrite Hsz|apply crc32c_u32|lia].
  unfold is_u64. rewrite Hsz in Ho2. lia.
Qed.
Lemma checkpoint_count roots :
  ordered_roots now = Ok roots → size roots ≤ max_root_count ∧ is_u64 (size (index_bytes roots)).
Proof.
  intros Ho. destruct (ordered_roots_spec _ _ Ho) as (Hin & _ & Hd & _).
  assert (size roots ≤ size (map_to_list A)) as Hle.
  { unfold size. apply Nat2Z.inj_le. rewrite <- (length_fmap x_name), <- (length_fmap fst).
    apply submseteq_length, NoDup_submseteq; [done|].
    intros n (x & -> & Hx)%list_elem_of_fmap. destruct (checkpoint_root roots x Ho Hx) as (a & Ha & _).
    apply list_elem_of_fmap. exists (x_name x, a). split; [done|]. by apply elem_of_map_to_list. }
  destruct Hsave as [Hcount Hshort]. split; [lia|].
  assert (size (index_bytes roots) ≤ size roots * (2 ^ 33 + 44)) as Hi.
  { assert (Forall (λ x, ssize (x_name x) ≤ 2 ^ 32 ∧ ssize (rr_type (x_record x)) ≤ 2 ^ 32) roots) as Hall.
    { apply Forall_forall. intros x Hx. destruct (checkpoint_root roots x Ho Hx) as (a & Ha & Hr).
      rewrite (rh_type _ _ _ _ Hr). by destruct (Hshort _ _ Ha) as (? & ? & _). }
    clear -Hall. induction Hall as [|x roots [? ?] _ IH]; simpl; [done|].
    rewrite size_app, size_cons. unfold index_entry. autorewrite with size. lia. }
  pose proof (size_nonneg (index_bytes roots)). unfold is_u64, u64_bound, max_root_count in *. lia.
Qed.

(** The payload sizes do not overflow. *)
Lemma place_roots_ok off l :
  Forall (λ e, l_size (rr_payload (snd e)) ≤ max_frame_size) l →
  off + size l * max_frame_size < u64_bound → is_ok (place_roots off l).
Proof.
  intros Hl. revert off. induction Hl as [|[n r] l Hr _ IH]; intros off; simpl; [by eexists|].
  simpl in Hr. rewrite size_cons. intros Hoff. pose proof (size_nonneg l).
  unfold max_frame_size in *.
  destruct (Z.gtb_spec (l_size (rr_payload r)) (u64_bound - 1 - off)); [lia|].
  destruct (IH (off + l_size (rr_payload r)) ltac:(lia)) as [rest ->]. simpl. by eexists.
Qed.
Lemma checkpoint_ordered : is_ok (ordered_roots now).
Proof.
  destruct Hsave as [Hcount Hshort]. apply place_roots_ok.
  - apply Forall_forall. intros [n r] Hin%sorted_roots_elem. simpl.
    destruct (roots_hold_lookup _ _ _ _ _ _ checkpoint_roots Hin) as (a & Ha & Hr).
    destruct (located_loc _ _ _ _ (rh_payload _ _ _ _ Hr)) as [-> _]. by eapply Hshort.
  - assert (size (sorted_roots (i_roots now)) ≤ size (map_to_list A)) as Hle.
    { unfold size. apply Nat2Z.inj_le. rewrite <- (length_fmap fst), <- (length_fmap fst (map_to_list A)).
      apply submseteq_length, NoDup_submseteq; [apply sorted_roots_NoDup|].
      intros n ([m r] & -> & Hin%sorted_roots_elem)%list_elem_of_fmap.
      destruct (roots_hold_lookup _ _ _ _ _ _ checkpoint_roots Hin) as (a & Ha & _).
      apply list_elem_of_fmap. exists (m, a). split; [done|]. by apply elem_of_map_to_list. }
    unfold max_root_count, max_frame_size, u64_bound in *. lia.
Qed.
Lemma saved_versions roots n :
  ordered_roots now = Ok roots →
  version_of (s_roots s) n ≤ version_of (saved_roots (snapshot_base roots) roots) n.
Proof.
  intros Ho. destruct (ordered_roots_spec _ _ Ho) as (_ & Hall & Hd & _).
  unfold version_of at 1. rewrite <- (hi_roots _ _ _ _ _ _ Hh).
  destruct (hs_roots h !! n) as [r|] eqn:Hn; simpl.
  - destruct (Hall n r Hn) as (x & Hx & [= <- <-]). unfold version_of.
    by rewrite saved_roots_lookup.
  - unfold version_of. destruct (saved_roots _ roots !! n) as [r|] eqn:Hs; simpl; [|done].
    destruct (saved_roots_inv _ _ _ _ Hd Hs) as (x & Hx & <- & _).
    destruct (ordered_roots_spec _ _ Ho) as (Hin & _). by rewrite Hin in Hn.
Qed.
(** The saved roots designate the same payloads in the new snapshot. *)
Lemma saved_roots_hold roots cs' cj' :
  ordered_roots now = Ok roots →
  cs' = Some (snapshot_bytes ck (hs_wal_sequence h) roots (payloads pl roots)) →
  roots_hold cs' cj' (saved_roots (snapshot_base roots) roots) A.
Proof.
  intros Ho -> n. destruct (ordered_roots_spec _ _ Ho) as (Hin & Hall & Hd & m & _ & Hp).
  destruct (saved_roots _ roots !! n) as [r|] eqn:Hs.
  - destruct (saved_roots_inv _ _ _ _ Hd Hs) as (x & Hx & <- & ->).
    destruct (checkpoint_root roots x Ho Hx) as (a & Ha & Hr). rewrite Ha. constructor.
    destruct (located_loc _ _ _ _ (rh_payload _ _ _ _ Hr)) as [Hsz _].
    split; [apply Hr|apply Hr|]. unfold located. simpl. eexists. split; [done|].
    rewrite <- (payload_in_holds _ _ _ _ Hr). fold pl.
    pose proof (placed_holds (snapshot_of config) (read_payload config) pl w
      (header_bytes ck (hs_wal_sequence h) roots ++ index_bytes roots) 0 m roots [] x Hp
      (checkpoint_reads roots Ho)) as Hl.
    rewrite app_nil_r, size_app, size_header_bytes, Z.sub_0_r, <- app_assoc in Hl.
    apply Hl; [|done]. intros y Hy. destruct (checkpoint_root roots y Ho Hy) as (b & _ & Hb).
    unfold pl. rewrite (payload_in_holds _ _ _ _ Hb). by apply (located_loc _ _ _ _ (rh_payload _ _ _ _ Hb)).
  - destruct (A !! n) as [a|] eqn:Ha; [|constructor].
    pose proof (roots_hold_None _ _ _ _ n checkpoint_roots) as Hnone.
    destruct (hs_roots h !! n) as [r|] eqn:Hr; [|by rewrite (proj1 Hnone eq_refl) in Ha].
    destruct (Hall n r Hr) as (x & Hx & [= <- <-]). by rewrite saved_roots_lookup in Hs.
Qed.

(** Once the new snapshot is in place, the old journal recovers to the same roots. *)
Lemma saved_state roots w' :
  ordered_roots now = Ok roots →
  replaced_by (snapshot_of config) w
    (snapshot_bytes ck (hs_wal_sequence h) roots (payloads pl roots)) w' →
  ∃ t, disk_state w' A (Image (saved_roots (snapshot_base roots) roots) (hs_wal_sequence h)) cj t ∧
    s_roots t = saved_roots (snapshot_base roots) roots ∧ s_last_sequence t = hs_wal_sequence h ∧
    s_pending t = s_pending s ∧ s_offset t = s_offset s ∧ s_last_good t = s_last_good s.
Proof.
  intros Ho (Hp & _ & Hq). destruct paths_differ as (Hne & Hne1 & _).
  assert (file_of w' wal_path = Some cj) as Hw' by (rewrite Hq by done; apply Hh).
  destruct (ordered_roots_spec _ _ Ho) as (_ & _ & Hd & _).
  destruct (checkpoint_count roots Ho) as [Hcnt Hidx].
  pose proof Hh as [_ Hdisk _ _ _ Hseq _].
  pose proof (ds_sequence _ _ _ _ _ Hdisk) as [_ Hu]. rewrite <- Hseq in Hu.
  set (saved := saved_roots (snapshot_base roots) roots) in *.
  destruct (scan_all_over ck (i_sequence image) (hs_wal_sequence h) saved cj _ s
    (initial_scan saved (hs_wal_sequence h)) (ds_scan _ _ _ _ _ Hdisk)) as (t & Ht & H1 & H2 & H3 & H4 & H5 & H6);
    [done|by split_and!|split; [intros n; by apply saved_versions|by rewrite Hseq]|].
  exists t. split; [|done]. split; simpl.
  - unfold snap_path. rewrite Hp. by apply parse_snapshot_bytes; [| | |apply checkpoint_wf_indexed|].
  - by rewrite Hw'.
  - done.
  - rewrite H1. apply saved_roots_hold; done.
  - apply (ds_wf _ _ _ _ _ Hdisk).
  - by rewrite H2.
Qed.
End checkpointing.

(** The journal emptied, or not quite, over a snapshot that has everything. *)
Lemma reset_spec h w A image cj t :
  heap_state_ok h w A image cj t → s_roots t = i_roots image → s_last_sequence t = i_sequence image →
  (∀ n r, i_roots image !! n = Some r → l_kind (rr_payload r) = src_snapshot) →
  ∃ r w', journal_reset (wal_of config) w = (r, w') ∧ recovers w' A ∧
    (heap_inv h w' A (s_pending t) ∨ heap_inv h w' A ∅) ∧
    (r = Ok tt → heap_inv h w' A ∅ ∧ file_of w' wal_path = Some []) ∧
    (reliable w → is_ok r ∧ reliable w').
Proof.
  intros Hh Hr Hq Hk.
  destruct (truncate_flush_spec (wal_of config) cj 0 w (hi_journal _ _ _ _ _ _ Hh))
    as (r & w' & E & Hb & Hf & Hr' & Hok).
  change (j_path (wal_of config)) with wal_path in *. rewrite truncate_to_nil in *.
  assert (file_of w' snap_path = file_of w snap_path) as Es by (apply Hb, paths_differ).
  assert (file_of w' wal_path = Some [] → heap_inv h w' A ∅) as Hempty.
  { intros Ew. exists image, [], (initial_scan (i_roots image) (i_sequence image)). split; [|done].
    destruct Hh as [Hc [D1 D2 D3 D4 D5 D6] Hw Hcm Hro Hsq Hca].
    split; try done; [|by rewrite Hro, Hr|by rewrite Hsq, Hq]. split; rewrite ?Es, ?Ew; try done.
    - simpl. intros n. specialize (D4 n). rewrite Hr in D4.
      destruct (i_roots image !! n) as [x|] eqn:En; inversion D4 as [? a [? ? Hl]|]; subst; constructor.
      split; [done|done|]. unfold located in *. by rewrite (Hk _ _ En) in *.
    - destruct D6. done. }
  assert (heap_inv h w' A (s_pending t) ∨ heap_inv h w' A ∅) as Hinv.
  { destruct Hf as [Ew|Ew]; [left|right; by apply Hempty].
    apply (heap_inv_files h w w'); [done|by rewrite Ew, (hi_journal _ _ _ _ _ _ Hh)|].
    by exists image, cj, t. }
  exists r, w'. split; [exact E|]. split_and!; [|done| |].
  - destruct Hinv; by eapply heap_inv_recovers.
  - intros ->. split; [apply Hempty|]; by apply Hr'.
  - intros [-> ?]%Hok. split; [by eexists|done].
Qed.

(** [checkpoint_locked]: whatever happens, the storage recovers to the same abstract heap; when
    it succeeds the journal is empty. *)
Lemma checkpoint_locked_spec h w A p :
  heap_inv h w A p → saveable A →
  ∃ r h' w', checkpoint_locked (h, w) = (r, (h', w')) ∧ recovers w' A ∧
    hs_closed h' = hs_closed h ∧ hs_poisoned h' = hs_poisoned h ∧
    hs_next_transaction h' = hs_next_transaction h ∧
    (r = Ok tt → heap_inv h' w' A ∅ ∧ file_of w' wal_path = Some []) ∧
    (reliable w → is_ok r ∧ reliable w').
Proof.
  intros Hinv Hsave. pose proof (heap_inv_recovers _ _ _ _ Hinv) as Hrec.
  destruct Hinv as (image & cj & s & Hh & Hp). unfold checkpoint_locked, state, update.
  set (now := Image (hs_roots h) (hs_wal_sequence h)).
  unfold mbind at 1, M_bind at 1, on_fst at 1, get at 1. rewrite (hi_config _ _ _ _ _ _ Hh).
  destruct (ordered_roots now) as [roots|e] eqn:Ho.
  2:{ exfalso. destruct (checkpoint_ordered h w A image cj s Hh Hsave) as [? E]. fold now in E. congruence. }
  destruct (save_spec (snapshot_of config) (read_payload config) _ w now roots Ho
    (checkpoint_reads h w A image cj s Hh roots Ho)) as (r1 & w1 & E1 & Hcase & Hok1).
  unfold mbind, M_bind, on_snd. fold now. rewrite E1.
  destruct paths_differ as (Hne & Hne1 & Hne2).
  destruct Hcase as [[Hb [e ->]]|[Hrep Hr1]].
  { do 3 eexists. split; [done|]. split_and!; try done.
    - by apply (recovers_files w); [apply Hb|apply Hb|].
    - by intros [[? [=]] ?]%Hok1. }
  destruct (saved_state h w A image cj s Hh Hsave roots w1 Ho Hrep) as (t & Hd & T1 & T2 & T3 & T4 & T5).
  destruct Hr1 as [->|[e ->]].
  2:{ do 3 eexists. split; [done|]. split_and!; try done; [by do 3 eexists|by intros [[? [=]] ?]%Hok1]. }
  unfold on_fst, modify; simpl.
  set (h1 := set_last_sequence _ _).
  assert (heap_state_ok h1 w1 A (Image (saved_roots (snapshot_base roots) roots) (hs_wal_sequence h)) cj t) as Hh1.
  { destruct Hrep as (_ & _ & Hq), Hh as [Hcf _ Hw [Hc1 Hc2] _ _ Hca]. split; try done.
    - by rewrite Hq.
    - by rewrite T4, T5. }
  destruct (reset_spec h1 w1 A _ cj t Hh1) as (r2 & w2 & E2 & Hrec2 & _ & Hr2 & Hok2); [done|done| |].
  { intros n r Hn. simpl in Hn. destruct (ordered_roots_spec _ _ Ho) as (_ & _ & Hdup & _).
    by destruct (saved_roots_inv _ _ _ _ Hdup Hn) as (x & _ & _ & ->). }
  rewrite E2. exists r2, h1, w2. split_and!; try done. by intros [_ ?%Hok2]%Hok1.
Qed.

(** *** Committing *)

(** What a transaction hands to [commit]: different names, growing versions, encodable. *)
Record valid_updates (h : heap_state) (updates : list root_update) : Prop := {
  vu_wf : Forall wf_update updates;
  vu_names : NoDup (u_name <$> updates);
  vu_versions : Forall (λ u, u_expected u < u_new u) updates;
  vu_sequence : hs_wal_sequence h + size updates + 2 < u64_bound
}.
Definition versions_match (A : amap) (updates : list root_update) : Prop :=
  Forall (λ u, default 0 (a_version <$> A !! u_name u) = u_expected u) updates.

Lemma check_versions_ok roots updates :
  check_versions roots updates = Ok tt ↔ Forall (λ u, version_of roots (u_name u) = u_expected u) updates.
Proof.
  induction updates as [|u us IH]; simpl; [split; [constructor|done]|].
  rewrite Forall_cons. destruct (Z.eqb_spec (version_of roots (u_name u)) (u_expected u)); cbn [negb].
  - rewrite IH. split; [done|by intros [_ ?]].
  - split; [done|by intros [? _]].
Qed.
Lemma check_versions_throw roots updates e :
  check_versions roots updates = Throw e → ∃ u, u ∈ updates ∧
    e = conflict_error ("root version conflict: " +:+ u_name u) ∧ version_of roots (u_name u) ≠ u_expected u.
Proof.
  induction updates as [|u us IH]; simpl; [done|].
  destruct (Z.eqb_spec (version_of roots (u_name u)) (u_expected u)); cbn [negb].
  - intros (u' & ? & ? & ?)%IH. exists u'. split; [by right|done].
  - intros [= <-]. exists u. split; [by left|done].
Qed.
Lemma versions_match_roots cs cj roots A updates :
  roots_hold cs cj roots A →
  (versions_match A updates ↔ Forall (λ u, version_of roots (u_name u) = u_expected u) updates).
Proof.
  intros Hr. unfold versions_match. apply Forall_proper; [|done]. intros u.
  by rewrite (version_of_holds _ _ _ _ _ Hr).
Qed.

Lemma cached_in_commit updates A n v p :
  versions_match A updates → Forall (λ u, u_expected u < u_new u) updates → NoDup (u_name <$> updates) →
  cached_in A n v p → cached_in (a_commit updates A) n v p.
Proof.
  intros Hm Hv Hd. revert A Hm. induction updates as [|u us IH]; intros A Hm Hc; [done|].
  apply Forall_cons in Hv as [Hlt Hv]. apply NoDup_cons in Hd as [Hn Hd].
  apply Forall_cons in Hm as [Hu Hm]. simpl. apply IH; [done|done| |].
  - apply Forall_forall. intros u' Hin. eapply Forall_forall in Hm; [|done].
    rewrite lookup_insert_ne; [done|]. intros E. apply Hn. rewrite E. by apply list_elem_of_fmap_2.
  - destruct Hc as (a & Ha & Hle & Heq). destruct (decide (u_name u = n)) as [<-|].
    + exists (ARoot (u_new u) (u_type u) (u_payload u)). rewrite lookup_insert_eq.
      rewrite Ha in Hu. simpl in *. split_and!; [done|lia|lia].
    + exists a. rewrite lookup_insert_ne by done. done.
Qed.
Lemma a_commit_lookup updates A u :
  NoDup (u_name <$> updates) → u ∈ updates →
  a_commit updates A !! u_name u = Some (ARoot (u_new u) (u_type u) (u_payload u)).
Proof.
  revert A. induction updates as [|u' us IH]; intros A Hd Hu; [by apply not_elem_of_nil in Hu|].
  apply NoDup_cons in Hd as [Hn Hd]. simpl. apply elem_of_cons in Hu as [->|Hu]; [|by apply IH].
  assert (∀ us B, u_name u' ∉ u_name <$> us → a_commit us B !! u_name u' = B !! u_name u') as Hother.
  { clear. induction us as [|v us IH]; intros B Hn; [done|]. simpl in *.
    apply not_elem_of_cons in Hn as [? ?]. rewrite IH by done. by rewrite lookup_insert_ne. }
  rewrite Hother by done. apply lookup_insert_eq.
Qed.

Lemma publish_updates_spec P updates locs h (w : W) :
  length updates = length locs → coherent P (hs_cache h) →
  Forall (λ u, P (u_name u) (u_new u) (u_payload u)) updates →
  ∃ c, publish_updates updates locs (h, w) =
         (Ok tt, (set_cache c (set_roots (publish updates locs (hs_roots h)) h), w)) ∧ coherent P c.
Proof.
  revert locs h. induction updates as [|u us IH]; intros [|l ls] h Hl Hc Hp; try done.
  { exists (hs_cache h). split; [|done]. simpl. by destruct h. }
  injection Hl as Hl. apply Forall_cons in Hp as [Hu Hp]. simpl.
  unfold mbind, M_bind, update, on_fst, modify, on_cache. simpl.
  destruct (put_coherent P (hs_cache h) (u_name u) (u_new u) (u_payload u) Hc Hu) as (c & -> & Hc').
  destruct (IH ls (set_cache c (set_roots (<[u_name u := RootRecord (u_new u) (u_type u) l]> (hs_roots h)) h)))
    as (c' & E & ?); [done|done|done|].
  exists c'. split; [|done]. rewrite E. by destruct h.
Qed.

Section committing.
Context (h : heap_state) (w : W) (A : amap) (image : snapshot_image) (cj : list byte) (s : scan).
Context (tx : Z) (updates : list root_update).
Context (Hh : heap_state_ok h w A image cj s) (Htx : is_u64 tx) (Hpend : s_pending s !! tx = None).
Context (Hvu : valid_updates h updates) (Hm : versions_match A updates).
Let batch : list byte := batch_bytes (wal_of config) tx (s_last_sequence s) updates.
Let locs : list loc := update_locs (size cj + 44) updates.

Lemma sequence_bounds :
  0 ≤ s_last_sequence s ∧ s_last_sequence s + size updates + 2 < u64_bound.
Proof.
  pose proof (vu_sequence _ _ Hvu). rewrite (hi_sequence _ _ _ _ _ _ Hh) in *.
  destruct (ds_sequence _ _ _ _ _ (hi_disk _ _ _ _ _ _ Hh)) as [_ [? ?]]. lia.
Qed.
Lemma journal_complete :
  complete ck (i_sequence image) cj (initial_scan (i_roots image) (i_sequence image)) s.
Proof. split; [apply Hh|]. apply (hi_complete _ _ _ _ _ _ Hh). Qed.
Lemma commit_roots : roots_hold (file_of w snap_path) cj (s_roots s) A.
Proof.
  pose proof (ds_roots _ _ _ _ _ (hi_disk _ _ _ _ _ _ Hh)) as Hr.
  rewrite good_part_complete in Hr; [done|]. apply (hi_complete _ _ _ _ _ _ Hh).
Qed.

Lemma updates_apply :
  apply_updates (zip_with recovered_of updates locs) (s_roots s) = Ok (publish updates locs (s_roots s)).
Proof.
  apply apply_updates_publish; [unfold locs; by rewrite update_locs_length|apply Hvu|].
  apply (versions_match_roots _ _ _ _ updates commit_roots) in Hm. pose proof (vu_versions _ _ Hvu) as Hv.
  unfold checked. clear -Hm Hv. induction Hm; inversion Hv; subst; constructor; auto.
Qed.
(** The whole batch in the journal: the storage recovers to the committed heap. *)
Lemma appended_state w' :
  file_of w' snap_path = file_of w snap_path → file_of w' wal_path = Some (cj ++ batch) →
  ∃ s', disk_state w' (a_commit updates A) image (cj ++ batch) s' ∧
    s_roots s' = publish updates locs (s_roots s) ∧
    s_last_sequence s' = s_last_sequence s + size updates + 2 ∧ s_pending s' = s_pending s ∧
    s_offset s' = size (cj ++ batch) ∧ s_last_good s' = size (cj ++ batch).
Proof.
  intros Es Ew. destruct sequence_bounds as [Hq0 Hq].
  assert (length updates = length locs) as Hlen by (unfold locs; by rewrite update_locs_length).
  destruct (batch_complete (wal_of config) tx (i_sequence image) cj _ s updates
    (publish updates locs (s_roots s)) journal_complete) as (s' & (Hs1 & Hs2 & Hs3) & Hr & Hl & Hp);
    [done|done|done|done|apply Hvu|done|exact updates_apply|].
  fold batch in Hs1, Hs2, Hs3. exists s'. split; [|by rewrite Hr].
  pose proof (hi_disk _ _ _ _ _ _ Hh) as [D1 D2 D3 D4 D5 D6]. split; rewrite ?Es, ?Ew; try done.
  - rewrite good_part_complete, Hr by done. apply publish_holds.
    + eapply roots_hold_mono; [apply commit_roots|auto].
    + apply batch_locs_hold.
    + apply update_locs_kind.
  - apply a_commit_wf; [done|apply Hvu].
  - rewrite Hl. pose proof (size_nonneg updates). unfold is_u64. split; [apply D6|lia].
Qed.
(** Bytes after the journal that a scan passes without a change to the roots: the storage recovers to
    the heap before the commit. *)
Lemma appended_torn x s' w' :
  file_of w' snap_path = file_of w snap_path → file_of w' wal_path = Some (cj ++ x) →
  scan_all ck (i_sequence image) (cj ++ x) (initial_scan (i_roots image) (i_sequence image)) = Ok s' →
  s_roots s' = s_roots s → s_last_sequence s ≤ s_last_sequence s' ≤ s_last_sequence s + size updates + 1 →
  recovers w' A.
Proof.
  intros Es Ew Hs Hr Hl. destruct sequence_bounds as [Hq0 Hq]. exists image, (cj ++ x), s'.
  pose proof (hi_disk _ _ _ _ _ _ Hh) as [D1 D2 D3 D4 D5 D6]. split; rewrite ?Es, ?Ew; try done.
  - rewrite Hr. eapply roots_hold_mono; [apply commit_roots|]. intros l data.
    assert (good_part s' (cj ++ x) = cj ++ drop (length cj) (good_part s' (cj ++ x))) as ->; [|apply located_app].
    unfold good_part. pose proof (torn_good_part _ _ _ _ _ _ _ journal_complete Hs ltac:(done)) as Hgood.
    rewrite take_app_ge by (unfold size in *; lia). by rewrite drop_app_length.
  - pose proof (size_nonneg updates). unfold is_u64. split; [apply D6|lia].
Qed.
(** Part of the batch: it recovers to the heap before the commit, or after it. *)
Lemma appended_part k w' :
  file_of w' snap_path = file_of w snap_path → file_of w' wal_path = Some (cj ++ take k batch) →
  recovers w' (if decide (k < length batch)%nat then A else a_commit updates A).
Proof.
  intros Es Ew. destruct sequence_bounds as [Hq0 Hq]. case_decide as Hk.
  - destruct (batch_torn (wal_of config) tx (i_sequence image) cj _ s updates k journal_complete)
      as (s' & Hs & Hr & Hp & Hl); [done|done|done|done|apply Hvu|done|done|]. by eapply appended_torn.
  - rewrite firstn_all2 in Ew by lia. destruct (appended_state w' Es Ew) as (s' & Hd & _).
    by do 3 eexists.
Qed.

(** [commit] after its checks: append, publish, perhaps checkpoint. *)
Definition commit_checked : heap (W:=W) unit :=
  locations ← catch (on_wal (journal_append (wal_of config) tx updates))
                    (λ e, _ ← update set_poisoned; throw e);
  _ ← publish_updates updates locations;
  _ ← update (λ h, set_last_sequence (hs_wal_sequence h) h);
  n ← on_snd (file_size (j_path (wal_of config)));
  if n >=? cf_checkpoint_journal_bytes config then checkpoint_locked else mret tt.

(** The open heap once everything is published. *)
Lemma published_inv c w' :
  file_of w' snap_path = file_of w snap_path → file_of w' wal_path = Some (cj ++ batch) →
  coherent (cached_in (a_commit updates A)) c →
  heap_inv (set_last_sequence (s_last_sequence s + size updates + 2)
             (set_cache c (set_roots (publish updates locs (hs_roots h))
               (set_wal_sequence (s_last_sequence s + size updates + 2) h))))
    w' (a_commit updates A) (s_pending s).
Proof.
  intros Es Ew Hc. destruct (appended_state w' Es Ew) as (s' & Hd & Hr & Hl & Hp & Ho & Hg).
  exists image, (cj ++ batch), s'. split; [|done]. pose proof Hh as [H1 _ _ _ H5 _ _].
  split; try done. simpl. by rewrite Hr, H5.
Qed.

Lemma commit_checked_spec :
  saveable (a_commit updates A) →
  ∃ r h' w', commit_checked (h, w) = (r, (h', w')) ∧
    match r with
    | Ok _ => ∃ p', heap_inv h' w' (a_commit updates A) p' ∧ (p' = s_pending s ∨ p' = ∅)
    | Throw _ => recovers w' A ∧ hs_poisoned h' = true ∨ recovers w' (a_commit updates A)
    end ∧ (reliable w → r = Ok tt ∧ reliable w').
Proof.
  intros Hsave. destruct sequence_bounds as [Hq0 Hq]. destruct paths_differ as (Hne & _ & _).
  destruct (journal_append_spec (wal_of config) tx cj (s_last_sequence s) updates w
    (hi_journal _ _ _ _ _ _ Hh) Hq0 Hq) as (r1 & w1 & E1 & Hb1 & Hr1 & Hok1).
  change (j_path (wal_of config)) with wal_path in *. fold batch locs in Hr1, Hok1.
  assert (file_of w1 snap_path = file_of w snap_path) as Es1 by by apply Hb1.
  unfold commit_checked, catch, on_wal. unfold mbind at 1, M_bind at 1.
  rewrite (hi_sequence _ _ _ _ _ _ Hh), E1. destruct r1 as [ls|e].
  2:{ destruct Hr1 as [k Ew]. pose proof (appended_part k w1 Es1 Ew) as Hrec.
      do 3 eexists. split; [done|]. split; [|by intros [_ [=]]%Hok1].
      case_decide; [by left|by right]. }
  destruct Hr1 as [-> Ew].
  set (h1 := set_wal_sequence _ h).
  destruct (publish_updates_spec (cached_in (a_commit updates A)) updates locs h1 w1) as (c & E2 & Hc).
  { unfold locs. by rewrite update_locs_length. }
  { eapply coherent_impl; [|apply (hi_cache _ _ _ _ _ _ Hh)]. intros n v q.
    apply cached_in_commit; [done|apply Hvu|apply Hvu]. }
  { apply Forall_forall. intros u Hu. eexists. split; [by apply a_commit_lookup; [apply Hvu|]|]. done. }
  unfold mbind at 1, M_bind at 1. fold locs. rewrite E2.
  unfold mbind at 1, M_bind at 1, update, on_fst, modify.
  pose proof (published_inv c w1 Es1 Ew Hc) as Hinv. fold h1 in Hinv.
  set (h2 := set_last_sequence (hs_wal_sequence _) _).
  change (heap_inv h2 w1 (a_commit updates A) (s_pending s)) in Hinv.
  unfold mbind at 1, M_bind at 1, on_snd. fold wal_path.
  destruct (computes_size wal_path _ w1 Ew) as (r3 & w3 & E3 & Hs3 & Hr3 & Hok3). rewrite E3.
  pose proof (heap_inv_same_files _ _ _ _ _ Hs3 Hinv) as Hinv3.
  destruct Hr3 as [->|[e ->]].
  2:{ do 3 eexists. split; [done|]. split; [right; by eapply heap_inv_recovers|].
      by intros [? _]%Hok1%proj1%Hok3. }
  destruct (_ >=? _).
  - destruct (checkpoint_locked_spec h2 w3 _ _ Hinv3 Hsave) as (r4 & h4 & w4 & E4 & Hrec4 & _ & _ & _ & Hr4 & Hok4).
    rewrite E4. do 3 eexists. split; [done|]. split.
    + destruct r4 as [[]|e]; [|by right]. destruct (Hr4 eq_refl) as [? _]. exists ∅. split; [done|by right].
    + intros [_ [[[] ->] ?]%Hok4]%Hok1%proj1%Hok3. done.
  - do 3 eexists. split; [done|]. split; [exists (s_pending s); split; [done|by left]|].
    by intros [_ ?]%Hok1%proj1%Hok3.
Qed.
End committing.

(** [commit]: a closed or poisoned heap and a version mismatch refuse the updates and change
    nothing; otherwise the updates are applied as one step, or the storage failed and what it
    recovers to is the heap before or after that step. *)
Inductive commit_outcome (h : heap_state) (w : W) (A : amap) (p : gmap Z pending_transaction)
    (updates : list root_update) : result unit → heap_state → W → Prop :=
| commit_closed :
    hs_closed h = true →
    commit_outcome h w A p updates (Throw (transaction_error "heap is closed")) h w
| commit_poisoned :
    hs_closed h = false → hs_poisoned h = true →
    commit_outcome h w A p updates
      (Throw (storage_error "heap is poisoned after a durability failure")) h w
| commit_conflict u :
    u ∈ updates → default 0 (a_version <$> A !! u_name u) ≠ u_expected u →
    commit_outcome h w A p updates
      (Throw (conflict_error ("root version conflict: " +:+ u_name u))) h w
| commit_done h' w' p' :
    versions_match A updates → heap_inv h' w' (a_commit updates A) p' → p' = p ∨ p' = ∅ →
    commit_outcome h w A p updates (Ok tt) h' w'
| commit_lost e h' w' :
    versions_match A updates → recovers w' A → hs_poisoned h' = true →
    commit_outcome h w A p updates (Throw e) h' w'
| commit_kept e h' w' :
    versions_match A updates → recovers w' (a_commit updates A) →
    commit_outcome h w A p updates (Throw e) h' w'.

Lemma commit_spec h w A p tx updates :
  heap_inv h w A p → updates ≠ [] → is_u64 tx → p !! tx = None → valid_updates h updates →
  saveable (a_commit updates A) →
  ∃ r h' w', commit tx updates (h, w) = (r, (h', w')) ∧ commit_outcome h w A p updates r h' w' ∧
    (reliable w → hs_closed h = false → hs_poisoned h = false → versions_match A updates →
     r = Ok tt ∧ reliable w').
Proof.
  intros (image & cj & s & Hh & Hp) Hne Htx Hpend Hvu Hsave. subst p.
  unfold commit. rewrite bool_decide_false by done.
  unfold state, mbind at 1, M_bind at 1, on_fst at 1, get at 1.
  rewrite (hi_config _ _ _ _ _ _ Hh).
  destruct (hs_closed h) eqn:Hcl.
  { do 3 eexists. split; [done|]. split; [by apply commit_closed|done]. }
  destruct (hs_poisoned h) eqn:Hpo.
  { do 3 eexists. split; [done|]. split; [by apply commit_poisoned|done]. }
  pose proof (commit_roots h w A image cj s Hh) as Hroots.
  rewrite <- (hi_roots _ _ _ _ _ _ Hh) in Hroots.
  unfold mbind at 1, M_bind at 1, lift_result at 1.
  destruct (check_versions (hs_roots h) updates) as [[]|e] eqn:Hcheck.
  - apply check_versions_ok in Hcheck.
    apply (versions_match_roots _ _ _ _ _ Hroots) in Hcheck.
    destruct (commit_checked_spec h w A image cj s tx updates Hh Htx Hpend Hvu Hcheck Hsave)
      as (r & h' & w' & E & Hr & Hok).
    exists r, h', w'. split; [exact E|]. split; [|by intros ? _ _ _; apply Hok].
    destruct r as [[]|e].
    + destruct Hr as (p' & ? & ?). by eapply commit_done.
    + destruct Hr as [[? ?]|?]; [by apply commit_lost|by apply commit_kept].
  - apply check_versions_throw in Hcheck as (u & Hu & -> & Hv).
    rewrite (version_of_holds _ _ _ _ _ Hroots) in Hv.
    do 3 eexists. split; [done|]. split; [by apply commit_conflict|].
    intros _ _ _ Hm. eapply Forall_forall in Hm; [|done]. done.
Qed.

(** *** Loading *)
Definition load_result (A : amap) (name : string) : result loaded_root :=
  match A !! name with
  | None => Ok (LoadedRoot 0 None false)
  | Some a =>
      if negb (bool_decide (a_type a = value_type_name))
      then Throw (type_error ("root type is not opheap::value: " +:+ name))
      else Ok (LoadedRoot (a_version a) (Some (a_payload a)) true)
  end.

Lemma heap_inv_cache h w A p c :
  heap_inv h w A p → coherent (cached_in A) c → heap_inv (set_cache c h) w A p.
Proof.
  intros (image & cj & s & [? ? ? ? ? ? ?] & Hp) Hc. exists image, cj, s. split; [|done]. by split.
Qed.
Lemma cached_now A n a : A !! n = Some a → cached_in A n (a_version a) (a_payload a).
Proof. intros. exists a. split_and!; [done|lia|done]. Qed.

Lemma load_uncached_spec h w A p name a :
  heap_inv h w A p → A !! name = Some a →
  ∃ r c w', load_uncached name (h, w) = (r, (set_cache c h, w')) ∧ heap_inv (set_cache c h) w' A p ∧
    same_files w w' ∧
    (r = Ok (LoadedRoot (a_version a) (Some (a_payload a)) true) ∨ ∃ e, r = Throw e) ∧
    (reliable w → r = Ok (LoadedRoot (a_version a) (Some (a_payload a)) true) ∧ reliable w').
Proof.
  intros Hinv Ha. pose proof Hinv as (image & cj & s & Hh & _).
  pose proof (commit_roots h w A image cj s Hh) as Hroots.
  rewrite <- (hi_roots _ _ _ _ _ _ Hh) in Hroots.
  unfold load_uncached, state. unfold mbind at 1, M_bind at 1, on_fst at 1, get at 1.
  pose proof (Hroots name) as Hn. rewrite Ha in Hn. inversion Hn as [r a' Hr E E'|]; subst.
  rewrite (hi_config _ _ _ _ _ _ Hh).
  destruct (load_payload_computes cj r a w Hr (hi_journal _ _ _ _ _ _ Hh)) as (r1 & w1 & E1 & Hs1 & Hr1 & Hok1).
  { by destruct (ds_wf _ _ _ _ _ (hi_disk _ _ _ _ _ _ Hh) _ _ Ha) as (_ & _ & _ & [_ ?]). }
  unfold mbind, M_bind, on_snd. rewrite E1.
  pose proof (heap_inv_same_files _ _ _ _ _ Hs1 Hinv) as Hinv1.
  destruct Hr1 as [->|[e ->]].
  2:{ exists (Throw e), (hs_cache h), w1. assert (set_cache (hs_cache h) h = h) as -> by by destruct h.
      split_and!; [done|done|done|right; by eexists|]. by intros [[=] ?]%Hok1. }
  unfold on_cache.
  destruct (put_coherent (cached_in A) (hs_cache h) name (rr_version r) (a_payload a)) as (c & -> & Hc).
  { apply Hh. }
  { rewrite (rh_version _ _ _ _ Hr). by apply cached_now. }
  rewrite (rh_version _ _ _ _ Hr).
  do 3 eexists. split_and!; [done|by apply heap_inv_cache|done|by left|]. by intros [_ ?]%Hok1.
Qed.

(** [load] gives the current version and payload, from the cache or from the storage, and
    changes nothing but the cache. *)
Lemma load_spec h w A p name :
  heap_inv h w A p →
  ∃ r c w', load name (h, w) = (r, (set_cache c h, w')) ∧ heap_inv (set_cache c h) w' A p ∧
    same_files w w' ∧ (r = load_result A name ∨ ∃ e, r = Throw e) ∧
    (reliable w → r = load_result A name ∧ reliable w').
Proof.
  intros Hinv. pose proof Hinv as (image & cj & s & Hh & _).
  pose proof (commit_roots h w A image cj s Hh) as Hroots.
  rewrite <- (hi_roots _ _ _ _ _ _ Hh) in Hroots.
  assert (set_cache (hs_cache h) h = h) as Hsame by by destruct h.
  unfold load, load_result, state. unfold mbind at 1, M_bind at 1, on_fst at 1, get at 1.
  pose proof (Hroots name) as Hn. inversion Hn as [r a Hr E E'|E E'].
  2:{ exists (Ok (LoadedRoot 0 None false)), (hs_cache h), w. rewrite Hsame.
      split_and!; [done|done|apply same_files_refl|by left|done]. }
  rewrite (rh_type _ _ _ _ Hr). case_bool_decide as Ht; cbn [negb].
  2:{ eexists _, (hs_cache h), w. rewrite Hsame.
      split_and!; [done|done|apply same_files_refl|by left|done]. }
  unfold mbind, M_bind, on_cache.
  destruct (get_coherent (cached_in A) (hs_cache h) name (rr_version r) (hi_cache _ _ _ _ _ _ Hh))
    as (o & c & -> & Hc & Ho).
  pose proof (heap_inv_cache h w A p c Hinv Hc) as Hinv1. rewrite (rh_version _ _ _ _ Hr) in *.
  destruct o as [bytes|].
  - destruct (Ho bytes eq_refl) as (a' & Ha' & _ & Heq).
    assert (a' = a) as -> by congruence. rewrite (Heq eq_refl).
    do 3 eexists. split_and!; [done|done|apply same_files_refl|by left|done].
  - destruct (load_uncached_spec _ w A p name a Hinv1 (eq_sym E')) as (r' & c' & w' & E1 & Hinv' & Hs & Hr' & Hok).
    rewrite E1. exists r', c', w'. assert (set_cache c' (set_cache c h) = set_cache c' h) as Ec by by destruct h.
    rewrite Ec in *. split_and!; done.
Qed.

(** *** Integrity *)
Lemma verify_payloads_computes cj A records w :
  file_of w wal_path = Some cj → wf_amap A →
  Forall (λ r, ∃ n a, A !! n = Some a ∧ root_holds (file_of w snap_path) cj r a) records →
  computes (verify_payloads config records) w (Ok tt).
Proof.
  intros Hw HA Hr. revert w Hw Hr. induction records as [|r rs IH]; intros w Hw Hr; simpl; [apply computes_ret|].
  apply Forall_cons in Hr as [(n & a & Ha & Hr) Hrs].
  eapply computes_step; [eapply load_payload_computes; [done|done|apply (HA _ _ Ha)]|].
  intros w' Hs. apply IH; [by rewrite Hs|by rewrite Hs].
Qed.

(** Scanning the journal again, over any snapshot. *)
Lemma rescan_computes base snap cj w :
  file_of w wal_path = Some cj →
  computes (with_local 0 (recover (wal_of config) base snap false)) w
    (s ← scan_all ck snap cj (initial_scan base snap); Ok (result_of s)).
Proof.
  intros Hw. destruct (recover_scan (wal_of config) base snap false 0 cj w Hw) as (r & q' & w' & E & Hb & Hr & Hok).
  change (j_checksums (wal_of config)) with ck in *. change (j_path (wal_of config)) with wal_path in *.
  unfold computes, with_local. rewrite E. exists r, w'. split_and!; [done| | |by intros [? ?]%Hok].
  - intros q. destruct (decide (q = wal_path)) as [->|]; [|by apply Hb]. rewrite Hw.
    destruct r as [x|e]; [by destruct Hr as (? & _ & _ & _ & ?)|].
    by destruct Hr as [_ [?|(? & _ & ?)]].
  - destruct r as [x|e]; [|right; by eexists]. destruct Hr as (s' & -> & -> & _). by left.
Qed.
Lemma recover_computes image cj s w A :
  disk_state w A image cj s → file_of w wal_path = Some cj →
  computes (with_local 0 (recover (wal_of config) (i_roots image) (i_sequence image) false)) w
    (Ok (result_of s)).
Proof.
  intros Hd Hw. pose proof (rescan_computes (i_roots image) (i_sequence image) cj w Hw) as Hc.
  by rewrite (ds_scan _ _ _ _ _ Hd) in Hc.
Qed.
(** The check of an open heap that the storage lets finish reports no problem. *)
Lemma verify_computes h w A p :
  heap_inv h w A p →
  ∃ report, computes (verify config) w (Ok report) ∧ ir_ok report = true ∧
    ir_roots report = root_count h ∧ ir_last_sequence report = hs_wal_sequence h.
Proof.
  intros (image & cj & s & Hh & _). pose proof (hi_disk _ _ _ _ _ _ Hh) as Hd.
  pose proof (hi_journal _ _ _ _ _ _ Hh) as Hw.
  exists (IntegrityReport true (size (map_to_list (s_roots s))) (s_records s) (size cj) (s_last_sequence s) "ok").
  unfold root_count. rewrite (hi_roots _ _ _ _ _ _ Hh), (hi_sequence _ _ _ _ _ _ Hh).
  split; [|done]. unfold verify.
  apply (computes_step _ _ _ image).
  { pose proof (snapshot_load_parse (snapshot_of config) w) as Hl. fold snap_path in Hl.
    rewrite <- (ds_snapshot _ _ _ _ _ Hd). exact Hl. }
  intros w1 Hs1. eapply computes_step; [eapply computes_open; rewrite Hs1; exact Hw|].
  intros w2 Hs2. assert (same_files w w2) as Hs by by eapply same_files_trans.
  pose proof (disk_state_same_files _ _ _ _ _ _ Hs Hd) as Hd2.
  eapply computes_step; [eapply recover_computes; [exact Hd2|by rewrite Hs]|].
  intros w3 Hs3. assert (same_files w w3) as Hs03 by by eapply same_files_trans.
  eapply computes_step.
  { eapply (verify_payloads_computes cj A); [by rewrite Hs03|apply (ds_wf _ _ _ _ _ Hd)|].
    apply Forall_forall. intros r ([n r'] & -> & Hin%elem_of_map_to_list)%list_elem_of_fmap.
    rewrite Hs03. destruct (roots_hold_lookup _ _ _ _ _ _ (commit_roots h w A image cj s Hh) Hin) as (a & ? & ?).
    by exists n, a. }
  intros w4 Hs4. eapply computes_step; [apply (computes_size _ cj); by rewrite Hs4, Hs03|].
  intros. apply computes_ret.
Qed.
Lemma integrity_spec h w A p :
  heap_inv h w A p →
  ∃ report w', integrity (h, w) = (Ok report, (h, w')) ∧ same_files w w' ∧ 
    (ir_ok report = true → ir_roots report = root_count h ∧ ir_last_sequence report = hs_wal_sequence h) ∧
    (reliable w → ir_ok report = true ∧ reliable w').
Proof.
  intros Hinv. destruct (verify_computes h w A p Hinv) as (report & (r & w' & E & Hs & Hr & Hok) & H1 & H2 & H3).
  destruct Hinv as (image & cj & s & Hh & _).
  unfold integrity, state. unfold mbind, M_bind, on_fst, get. rewrite (hi_config _ _ _ _ _ _ Hh).
  unfold on_snd, catch. rewrite E. destruct Hr as [->|[e ->]].
  - exists report, w'. split_and!; [done|done|done|]. by intros [_ ?]%Hok.
  - do 2 eexists. split_and!; [done|done|done|]. by intros [[=] ?]%Hok.
Qed.
End heap_spec.
