(* ===== verification/Power.v ===== *)
(** * Power failures: what the storage promises to keep, and what the heap makes of it.

    [storage_durable] states, call by call, what may be found under a name after the power failed:
    what was never synced may be missing or be anything, and a directory entry that was never
    synced may be missing or lead to the file it replaced.  Every point at which the power can fail
    during an operation is the end of a run of it in which the next call to the storage failed, so
    that it is enough to look at the states operations end in, whatever fails. *)
From S2P Require Import Prelude.
From S2P Require Import Binary.
From S2P Require Import Codec.
From S2P Require Import OrderedMap.
From S2P Require Import Storage.
From S2P Require Import Journal.
From S2P Require Import Recovery.
From S2P Require Import Snapshot.
From S2P Require Import SnapshotImage.
From S2P Require Import Cache.
From S2P Require Import Heap.
From S2P Require Import HeapSpec.
#[local] Open Scope Z_scope.

(** ** The contract *)
Class storage_durable (W : Type) `{storage_laws W} := {
  (** What a name may lead to after a power failure; what the file it leads to now may then hold;
      and that the medium has its directory entry. *)
  survives : W → string → option (list byte) → Prop;
  medium : W → string → list byte → Prop;
  linked : W → string → Prop;
  untouched (w w' : W) (p : string) : Prop :=
    (linked w p → linked w' p) ∧ (∀ c, medium w' p c → medium w p c) ∧ (∀ o, survives w' p o → survives w p o);
  everywhere (w w' : W) : Prop := ∀ p, untouched w w' p;
  elsewhere (q : string) (w w' : W) : Prop := ∀ p, p ≠ q → untouched w w' p;
  linked_law w p o : linked w p → survives w p o → ∃ c, o = Some c ∧ medium w p c;
  open_power p create w : elsewhere p w (open_file p create w).2 ∧
    (create = false ∨ is_Some (file_of w p) → everywhere w (open_file p create w).2);
  create_directories_power p w : everywhere w (create_directories p w).2;
  exists_power p w : everywhere w (exists_ p w).2;
  file_size_power p w : everywhere w (file_size p w).2;
  read_power p off n w : everywhere w (read_exact p off n w).2;
  write_power p off data w : elsewhere p w (write_exact p off data w).2;
  (** What every possible content begins with is still there; what follows may be anything, of at
      most the length that was written. *)
  append_power p data w c : file_of w p = Some c → let w' := (append p data w).2 in
    elsewhere p w w' ∧ (linked w p → linked w' p) ∧
    ∀ b, (∀ c0, medium w p c0 → b `prefix_of` c0) →
      ∀ c', medium w' p c' → medium w p c' ∨ b `prefix_of` c' ∧ size c' ≤ size c + size data;
  truncate_power p n w : elsewhere p w (truncate p n w).2 ∧
    ∀ c, file_of w p = Some c → 0 ≤ n ≤ size c →
    match truncate p n w with
    | (Ok _, w') => (linked w p → linked w' p) ∧
        ∀ c', medium w' p c' → medium w p c' ∨ c' = truncate_to c n
    | (Throw _, w') => everywhere w w'
    end;
  flush_data_power p w : everywhere w (flush_data p w).2 ∧
    ∀ w' c, flush_data p w = (Ok tt, w') → file_of w p = Some c → ∀ c', medium w' p c' → c' = c;
  flush_all_power p w : everywhere w (flush_all p w).2 ∧
    ∀ w' c, flush_all p w = (Ok tt, w') → file_of w p = Some c → ∀ c', medium w' p c' → c' = c;
  replace_power from to w :
    match atomic_replace from to w with
    | (Ok _, w') => (∀ p, p ≠ from → p ≠ to → untouched w w' p) ∧
        (∀ c, medium w' to c → medium w from c) ∧
        ∀ o, survives w' to o → survives w to o ∨ ∃ c, o = Some c ∧ medium w from c
    | (Throw _, w') => everywhere w w'
    end;
  sync_directory_power d w : everywhere w (sync_directory d w).2 ∧
    ∀ w' name, sync_directory d w = (Ok tt, w') → is_Some (file_of w (path_join d name)) →
      linked w' (path_join d name)
}.

(** ** The disk of the file Storage honours it *)
Section disk.
Import Disk.
Definition d_medium (d : disk) (p : string) (c : list byte) : Prop := ∃ f, entries d !! p = Some f ∧ between f c.
Definition d_linked (d : disk) (p : string) : Prop :=
  replaced d !! p = None ∧ ∃ f, entries d !! p = Some f ∧ Disk.linked f = true.
Definition same_at (d d' : disk) (p : string) : Prop :=
  entries d' !! p = entries d !! p ∧ replaced d' !! p = replaced d !! p.
Lemma survives_same d d' p o : same_at d d' p → Disk.survives d' p o → Disk.survives d p o.
Proof.
  intros [He Hr] Hs. inversion Hs as [f c Hf Hb|f c Hf Hb|Hn|f Hf Hl Hn]; subst.
  - eapply survives_entry; [|done]. congruence.
  - eapply survives_replaced; [|done]. congruence.
  - apply survives_absent. congruence.
  - apply (survives_unlinked _ _ f); congruence.
Qed.
Lemma medium_same d d' p c : same_at d d' p → d_medium d' p c → d_medium d p c.
Proof. intros [He Hr] (f & Hf & Hb). exists f. split; [congruence|done]. Qed.
Lemma linked_same d d' p : same_at d d' p → d_linked d p → d_linked d' p.
Proof. intros [He Hr] (Hn & f & Hf & Hl). split; [congruence|]. exists f. split; [congruence|done]. Qed.
Definition d_untouched (d d' : disk) (p : string) : Prop :=
  (d_linked d p → d_linked d' p) ∧ (∀ c, d_medium d' p c → d_medium d p c) ∧
  (∀ o, Disk.survives d' p o → Disk.survives d p o).
Lemma untouched_same d d' p : same_at d d' p → d_untouched d d' p.
Proof.
  intros Hs. split_and!; [by apply linked_same|intros c; by apply medium_same|intros o; by apply survives_same].
Qed.
(** A new state of an entry that holds no more than the old one. *)
Lemma untouched_entry d p f f' l :
  entries d !! p = Some f → (∀ c, between f' c → between f c) → (Disk.linked f = true → Disk.linked f' = true) →
  ∀ q, d_untouched d (Mk (<[p := f']> (entries d)) (replaced d) l) q.
Proof.
  intros Hf Hb Hl q. destruct (decide (q = p)) as [->|Hq].
  2:{ apply untouched_same. split; simpl; [by rewrite lookup_insert_ne|done]. }
  split_and!.
  - intros (Hn & g & Hg & Hlg). split; [done|]. exists f'. simpl. rewrite lookup_insert_eq.
    split; [done|]. apply Hl. congruence.
  - intros c (g & Hg & Hc). simpl in Hg. rewrite lookup_insert_eq in Hg. injection Hg as <-. exists f. auto.
  - intros o Ho. inversion Ho as [g c Hg Hc|g c Hg Hc|Hn|g Hg Hlg Hn]; subst; simpl in *.
    + rewrite lookup_insert_eq in Hg. injection Hg as <-. eapply survives_entry; eauto.
    + eapply survives_replaced; eauto.
    + by rewrite lookup_insert_eq in Hn.
    + rewrite lookup_insert_eq in Hg. injection Hg as <-. apply (survives_unlinked _ _ f); [done| |done].
      destruct (Disk.linked f); [by rewrite Hl in Hlg|done].
Qed.
Lemma untouched_refl d q : d_untouched d d q.
Proof. by apply untouched_same. Qed.
Lemma same_elsewhere d p f q : q ≠ p → d_untouched d (Mk (<[p := f]> (entries d)) (replaced d) (schedule d)) q.
Proof. intros Hq. apply untouched_same. split; simpl; [by rewrite lookup_insert_ne|done]. Qed.
(** The schedule does not matter. *)
Definition rescheduled (d : disk) (l : list fault) : disk := Mk (entries d) (replaced d) l.
Lemma untouched_rescheduled d l d' q : d_untouched (rescheduled d l) d' q → d_untouched d d' q.
Proof.
  intros (H1 & H2 & H3). split_and!.
  - intros Hl. apply H1. by apply (linked_same d).
  - intros c Hc. apply (medium_same d (rescheduled d l)); [done|auto].
  - intros o Ho. apply (survives_same d (rescheduled d l)); [done|auto].
Qed.
Lemma next_fault_inv d k d1 : next_fault d = (Ok k, d1) → ∃ l, d1 = rescheduled d l.
Proof.
  unfold next_fault. destruct (schedule d) as [|f l] eqn:E; intros [= <- <-]; [exists []|by exists l].
  destruct d; simpl in *. by subst.
Qed.
Lemma guarded_cases {A} op path (m : M disk A) d (P : result A * disk → Prop) :
  (∀ l e, P (Throw e, rescheduled d l)) → (∀ l, P (m (rescheduled d l))) → P (guarded op path m d).
Proof.
  intros Hf Hm. unfold guarded, mbind, M_bind. destruct (next_fault d) as [[k|e] d1] eqn:E.
  - destruct (next_fault_inv _ _ _ E) as [l ->]. destruct k; [apply Hm|apply Hf|apply Hf].
  - unfold next_fault in E. by destruct (schedule d).
Qed.
Lemma guarded_ok {A} op path (m : M disk A) d a d' :
  guarded op path m d = (Ok a, d') → ∃ l, m (rescheduled d l) = (Ok a, d').
Proof.
  unfold guarded. intros H. apply bind_inv_ok in H as (k & d1 & [l ->]%next_fault_inv & H).
  destruct k; [by exists l|done|done].
Qed.
Lemma guarded_everywhere {A} op path (m : M disk A) d q :
  (∀ d, d_untouched d (m d).2 q) → d_untouched d (guarded op path m d).2 q.
Proof.
  intros Hm. apply (guarded_cases op path m d (λ x, d_untouched d x.2 q)).
  - intros l e. by apply untouched_same.
  - intros l. apply (untouched_rescheduled d l), Hm.
Qed.
Lemma file_read d p : (file p d).2 = d.
Proof. unfold file. by destruct (entries d !! p). Qed.
Lemma reading_everywhere {A} op path p (g : dfile → M disk A) d q :
  (∀ f d, (g f d).2 = d) → d_untouched d (guarded op path (f ← file p; g f) d).2 q.
Proof.
  intros Hg. apply guarded_everywhere. intros d1. unfold mbind, M_bind. pose proof (file_read d1 p) as Hf.
  destruct (file p d1) as [[f|e] d2]; simpl in Hf; subst; [rewrite Hg|]; apply untouched_refl.
Qed.
Lemma flush_power p d : (∀ q, d_untouched d (d_flush p d).2 q) ∧
  ∀ d' c, d_flush p d = (Ok tt, d') → d_file_of d p = Some c → ∀ c', d_medium d' p c' → c' = c.
Proof.
  assert (∀ v c : list byte, v `prefix_of` c → size c ≤ size v → c = v) as Hsame.
  { intros v c [[|b x] ->]; [by rewrite app_nil_r|]. rewrite size_app, size_cons. pose proof (size_nonneg x). lia. }
  unfold d_flush. split.
  - intros q. apply guarded_everywhere. intros d1. unfold mbind, M_bind, file, set_file.
    destruct (entries d1 !! p) as [f|] eqn:E; [|apply untouched_refl]. simpl.
    apply (untouched_entry d1 p f); [done| |done]. simpl. intros c [->|[->|[H1 H2]]]; simpl in *.
    + by right; left.
    + by right; left.
    + right. left. by apply Hsame.
  - intros d' c [l Hl]%guarded_ok. revert Hl.
    unfold mbind, M_bind, file, set_file, d_file_of. simpl. destruct (entries d !! p) as [f|] eqn:E; [|done].
    intros [= <-] [= <-] c' (g & Hg & Hb). simpl in Hg. rewrite lookup_insert_eq in Hg. injection Hg as <-.
    destruct Hb as [->|[->|[H1 H2]]]; simpl in *; [done|done|by apply Hsame].
Qed.
Lemma write_power_disk p off data d q : q ≠ p → d_untouched d (d_write p off data d).2 q.
Proof.
  intros Hq. unfold d_write, mbind, M_bind. destruct (next_fault d) as [[k|e] d1] eqn:E.
  2:{ unfold next_fault in E. by destruct (schedule d). }
  destruct (next_fault_inv _ _ _ E) as [l ->]. apply (untouched_rescheduled d l).
  destruct k as [| |n]; [|apply untouched_refl|]; unfold file; simpl; destruct (entries d !! p); simpl;
    try apply untouched_refl; by apply (same_elsewhere (rescheduled d l)).
Qed.
(** The medium holds what was synced before and, after it, anything. *)
Lemma between_appended f m l (data b c : list byte) :
  (∀ c0, between f c0 → b `prefix_of` c0) →
  between (Dfile (visible f ++ take m data) (synced f) l) c →
  between f c ∨ b `prefix_of` c ∧ size c ≤ size (visible f) + size data.
Proof.
  intros Hb. assert (size (take m data) ≤ size data) by (rewrite size_take; lia).
  intros [->|[->|[H1 H2]]]; simpl in *; [by left; left|right..].
  - rewrite size_app. split; [|lia]. apply prefix_app_r, Hb. by right; left.
  - rewrite size_app in H2. split; [|lia]. etrans; [apply Hb; by left|done].
Qed.
Lemma append_power_disk p data d c : d_file_of d p = Some c → let d' := (d_append p data d).2 in
  (∀ q, q ≠ p → d_untouched d d' q) ∧ (d_linked d p → d_linked d' p) ∧
  ∀ b, (∀ c0, d_medium d p c0 → b `prefix_of` c0) →
    ∀ c', d_medium d' p c' → d_medium d p c' ∨ b `prefix_of` c' ∧ size c' ≤ size c + size data.
Proof.
  unfold d_file_of. intros Hc. destruct (entries d !! p) as [f|] eqn:Ef; [|done]. injection Hc as <-.
  unfold d_append, d_write, mbind, M_bind, file. rewrite Ef.
  destruct (next_fault d) as [[k|e] d1] eqn:E; [|unfold next_fault in E; by destruct (schedule d)].
  destruct (next_fault_inv _ _ _ E) as [l ->].
  assert (∀ m, let d' := Mk (<[p := Dfile (visible f ++ take m data) (synced f) (Disk.linked f)]> (entries d)) (replaced d) l in
    (∀ q, q ≠ p → d_untouched d d' q) ∧ (d_linked d p → d_linked d' p) ∧
    ∀ b, (∀ c0, d_medium d p c0 → b `prefix_of` c0) →
      ∀ c', d_medium d' p c' → d_medium d p c' ∨ b `prefix_of` c' ∧ size c' ≤ size (visible f) + size data) as Hm.
  { intros m d'. split_and!.
    - intros q Hq. apply untouched_same. split; simpl; [by rewrite lookup_insert_ne|done].
    - intros (Hn & g & Hg & Hl). split; [done|]. eexists. simpl. rewrite lookup_insert_eq. split; [done|]. simpl. congruence.
    - intros b Hpre c' (g & Hg & Hb). simpl in Hg. rewrite lookup_insert_eq in Hg. injection Hg as <-.
      eapply (between_appended f) in Hb as [Hb|Hb]; [left; by exists f|by right|].
      intros c0 Hc0. apply Hpre. by exists f. }
  destruct k as [| |n]; simpl; rewrite ?Ef; simpl; rewrite ?write_at_end.
  - specialize (Hm (length data)). by rewrite firstn_all in Hm.
  - split_and!; [intros; by apply untouched_same|done|by left].
  - apply Hm.
Qed.
Lemma truncate_elsewhere p n d q : q ≠ p → d_untouched d (d_truncate p n d).2 q.
Proof.
  intros Hq. apply guarded_everywhere. intros d1. unfold mbind, M_bind, file.
  destruct (entries d1 !! p); simpl; [by apply same_elsewhere|apply untouched_refl].
Qed.
Lemma truncate_power_disk p n d c : d_file_of d p = Some c → 0 ≤ n ≤ size c →
  match d_truncate p n d with
  | (Ok _, d') => (d_linked d p → d_linked d' p) ∧
      ∀ c', d_medium d' p c' → d_medium d p c' ∨ c' = truncate_to c n
  | (Throw _, d') => ∀ q, d_untouched d d' q
  end.
Proof.
  intros Hc Hn. unfold d_truncate, guarded, mbind, M_bind.
  destruct (next_fault d) as [[k|e2] d1] eqn:En; [|unfold next_fault in En; by destruct (schedule d)].
  destruct (next_fault_inv _ _ _ En) as [l ->]. unfold d_file_of in Hc.
  destruct k; simpl; [|intros q; by apply untouched_same..]. unfold file. simpl.
  destruct (entries d !! p) as [f|] eqn:Ef; [|done]. simpl. injection Hc as <-. split.
  - intros (Hr & g & Hg & Hl). split; [done|]. eexists. simpl. rewrite lookup_insert_eq. split; [done|]. simpl. congruence.
  - intros c' (g & Hg & Hb). simpl in Hg. rewrite lookup_insert_eq in Hg. injection Hg as <-.
    destruct Hb as [->|[->|[H1 H2]]]; simpl in *; [left; exists f; split; [done|by left]|by right|].
    left. exists f. split; [done|]. right. right. split; [done|]. rewrite truncate_to_take, size_take in H2 by done. lia.
Qed.
Lemma replace_power_disk from to d :
  match d_replace from to d with
  | (Ok _, d') => (∀ p, p ≠ from → p ≠ to → d_untouched d d' p) ∧
      (∀ c, d_medium d' to c → d_medium d from c) ∧
      ∀ o, Disk.survives d' to o → Disk.survives d to o ∨ ∃ c, o = Some c ∧ d_medium d from c
  | (Throw _, d') => ∀ p, d_untouched d d' p
  end.
Proof.
  unfold d_replace, guarded, mbind, M_bind. destruct (next_fault d) as [[k|e2] d1] eqn:En; [|unfold next_fault in En; by destruct (schedule d)].
  destruct (next_fault_inv _ _ _ En) as [l ->]. destruct k; simpl; [|intros; by apply untouched_same..].
  destruct (entries d !! from) as [f|] eqn:Ef; [|intros; by apply untouched_same].
  set (keep := λ q (r : gmap string dfile), match entries d !! q with Some g => if Disk.linked g then <[q:=g]> r else r | None => r end).
  match goal with |- context [Mk ?e ?r l] => replace r with (keep to (keep from (replaced d))) by (unfold keep; by rewrite Ef) end.
  assert (∀ p q r, p ≠ q → keep q r !! p = r !! p) as Hkeep.
  { intros p q r Hp. unfold keep. destruct (entries d !! q) as [g|]; [|done]. destruct (Disk.linked g); [|done]. by rewrite lookup_insert_ne. }
  split_and!.
  - intros p Hp1 Hp2. apply untouched_same. split; simpl.
    + by rewrite lookup_insert_ne, lookup_delete_ne.
    + by rewrite !Hkeep.
  - intros c (g & Hg & Hb). simpl in Hg. rewrite lookup_insert_eq in Hg. injection Hg as <-. by exists f.
  - intros o Ho. inversion Ho as [g c Hg Hb|g c Hg Hb|Hn|g Hg Hlg Hn]; subst; simpl in *.
    + rewrite lookup_insert_eq in Hg. injection Hg as <-. right. exists c. split; [done|]. by exists f.
    + assert (keep from (replaced d) !! to = Some g ∨ entries d !! to = Some g) as [H|H].
      { unfold keep in Hg at 1. destruct (entries d !! to) as [g'|] eqn:Et; [|by left].
        destruct (Disk.linked g'); [|by left]. rewrite lookup_insert_eq in Hg. right. congruence. }
      * destruct (decide (to = from)) as [->|Hne].
        -- unfold keep in H. rewrite Ef in H. destruct (Disk.linked f).
           ++ rewrite lookup_insert_eq in H. injection H as <-. right. exists c. split; [done|]. by exists f.
           ++ left. by eapply survives_replaced.
        -- rewrite Hkeep in H by done. left. by eapply survives_replaced.
      * left. by eapply survives_entry.
    + by rewrite lookup_insert_eq in Hn.
    + left.
      destruct (entries d !! to) as [g'|] eqn:Et; [|by apply survives_absent].
      assert (keep from (replaced d) !! to = None ∧ Disk.linked g' = false) as [Hn1 Hg'].
      { unfold keep in Hn at 1. rewrite Et in Hn. destruct (Disk.linked g'); [by rewrite lookup_insert_eq in Hn|done]. }
      apply (survives_unlinked _ _ g'); [done|done|]. destruct (decide (to = from)) as [->|Hne].
      * unfold keep in Hn1. rewrite Ef in Hn1. destruct (Disk.linked f); [by rewrite lookup_insert_eq in Hn1|done].
      * by rewrite Hkeep in Hn1.
Qed.
Lemma prefix_self dir name : String.prefix (dir +:+ "/") (path_join dir name) = true.
Proof.
  unfold path_join. induction dir as [|c dir IH]; simpl; [by destruct name|].
  destruct (Ascii.ascii_dec c c); [|done]. exact IH.
Qed.
Lemma sync_power_disk dir d : (∀ p, d_untouched d (d_sync_directory dir d).2 p) ∧
  ∀ d' name, d_sync_directory dir d = (Ok tt, d') → is_Some (d_file_of d (path_join dir name)) →
    d_linked d' (path_join dir name).
Proof.
  split.
  - intros p. apply guarded_everywhere. clear d. intros d. simpl. split_and!.
    + intros (Hn & f & Hf & Hl). split; simpl; rewrite map_lookup_imap; [by rewrite Hn|].
      rewrite Hf. simpl. case_decide; eexists; (split; [done|]); [done|exact Hl].
    + intros c (f & Hf & Hb). simpl in Hf. rewrite map_lookup_imap in Hf. destruct (entries d !! p) as [g|] eqn:E; [|done].
      simpl in Hf. exists g. split; [done|]. by case_decide; injection Hf as <-.
    + intros o Ho. inversion Ho as [f c Hf Hb|f c Hf Hb|Hn|f Hf Hlf Hn]; subst; simpl in *; rewrite map_lookup_imap in *.
      * destruct (entries d !! p) as [g|] eqn:E; [|done]. simpl in Hf. eapply survives_entry; [done|].
        by case_decide; injection Hf as <-.
      * destruct (replaced d !! p) as [g|] eqn:E; [|done]. simpl in Hf. case_decide; [done|]. injection Hf as <-.
        by eapply survives_replaced.
      * destruct (entries d !! p) as [g|] eqn:E; [by simpl in Hn; case_decide|]. by apply survives_absent.
      * destruct (entries d !! p) as [g|] eqn:E; [|done]. simpl in Hf.
        case_decide; injection Hf as <-; [done|]. apply (survives_unlinked _ _ g); [done|done|].
        by destruct (replaced d !! p).
  - intros d' name [l Hl]%guarded_ok Hf. injection Hl as <-. unfold d_file_of in Hf. apply fmap_is_Some in Hf as [f Hf].
    split; simpl; rewrite map_lookup_imap; simpl.
    + destruct (replaced d !! _); [|done]. simpl. by rewrite decide_True by apply prefix_self.
    + rewrite Hf. simpl. rewrite decide_True by apply prefix_self. by eexists.
Qed.
End disk.

#[global] Program Instance disk_durable : storage_durable Disk.disk := {|
  survives := Disk.survives; medium := d_medium; linked := d_linked |}.
Next Obligation.
  intros d p o (Hn & f & Hf & Hl) Ho. inversion Ho as [g c Hg Hb|g c Hg Hb|Hg|g Hg Hlg Hr]; subst; try congruence.
  exists c. split; [done|]. by exists g.
Qed.
Next Obligation.
  intros p create d. simpl.
  assert (∀ q, (q ≠ p ∨ create = false ∨ is_Some (Disk.d_file_of d p)) → d_untouched d (Disk.d_open p create d).2 q) as Ho.
  { intros q Hq. unfold Disk.d_open, Disk.guarded, mbind, M_bind.
    destruct (Disk.next_fault d) as [[k|e2] d1] eqn:En; [|unfold Disk.next_fault in En; by destruct (Disk.schedule d)].
    destruct (next_fault_inv _ _ _ En) as [l ->]. destruct k; simpl; [|by apply untouched_same..].
    unfold Disk.d_file_of in Hq. destruct (Disk.entries d !! p) as [f|] eqn:E; [by apply untouched_same|].
    destruct create; [|by apply untouched_same]. destruct Hq as [Hq|[[=]|[x [=]]]].
    apply untouched_same. split; simpl; [by rewrite lookup_insert_ne|done]. }
  split; [intros q Hq|intros Hp q]; apply Ho; auto.
Qed.
Next Obligation. intros p d q. simpl. apply guarded_everywhere. intros. apply untouched_refl. Qed.
Next Obligation. intros p d q. simpl. apply guarded_everywhere. intros. apply untouched_refl. Qed.
Next Obligation. intros p d q. simpl. by apply reading_everywhere. Qed.
Next Obligation. intros p off n d q. simpl. apply reading_everywhere. intros f d1. by case_match. Qed.
Next Obligation. intros p off data d q Hq. by apply write_power_disk. Qed.
Next Obligation. intros p data d c Hc. by apply append_power_disk. Qed.
Next Obligation.
  intros p n d. split; [intros q; apply truncate_elsewhere|]. intros c. exact (truncate_power_disk p n d c).
Qed.
Next Obligation. intros p d. apply flush_power. Qed.
Next Obligation. intros p d. apply flush_power. Qed.
Next Obligation. intros from to d. apply replace_power_disk. Qed.
Next Obligation. intros dir d. apply sync_power_disk. Qed.
