(* ===== verification/PowerSpec.v ===== *)
(** * The heap and power failures: what may be left of the snapshot and the journal after a
    checkpoint and a commit that the power interrupts, or that ended before it failed. *)
From S2P Require Import Prelude.
From S2P Require Import Binary.
From S2P Require Import Codec.
From S2P Require Import OrderedMap.
From S2P Require Import Storage.
From S2P Require Import Journal.
From S2P Require Import Recovery.
From S2P Require Import Damage.
From S2P Require Import Snapshot.
From S2P Require Import SnapshotImage.
From S2P Require Import Cache.
From S2P Require Import Heap.
From S2P Require Import HeapSpec.
From S2P Require Import Power.
#[local] Open Scope Z_scope.

Section power.
Context {W : Type} `{HW : storage_reliable W} `{HP : !storage_durable W}.
Implicit Types (w : W) (p q : string).

(** ** What a call leaves alone *)
Lemma untouched_id w p : untouched w w p.
Proof. done. Qed.
Lemma untouched_trans w1 w2 w3 p : untouched w1 w2 p → untouched w2 w3 p → untouched w1 w3 p.
Proof. intros (A1 & B1 & C1) (A2 & B2 & C2). split_and!; auto. Qed.
Lemma elsewhere_trans q w1 w2 w3 : elsewhere q w1 w2 → elsewhere q w2 w3 → elsewhere q w1 w3.
Proof. intros H1 H2 p Hp. eapply untouched_trans; auto. Qed.
Lemma everywhere_trans w1 w2 w3 : everywhere w1 w2 → everywhere w2 w3 → everywhere w1 w3.
Proof. intros H1 H2 p. eapply untouched_trans; auto. Qed.
Lemma everywhere_elsewhere q w1 w2 : everywhere w1 w2 → elsewhere q w1 w2.
Proof. intros H1 p _. apply H1. Qed.

(** [confined q m]: whatever happens, [m] touches no file but [q]. *)
Definition confined {A} q (m : M W A) : Prop := ∀ w, elsewhere q w (m w).2.
Lemma confined_ret {A} q (a : A) : confined q (mret a).
Proof. intros w p _. apply untouched_id. Qed.
Lemma confined_throw {A} q e : confined q (throw (A:=A) e).
Proof. intros w p _. apply untouched_id. Qed.
Lemma confined_bind {A B} q (m : M W A) (f : A → M W B) :
  confined q m → (∀ a, confined q (f a)) → confined q (m ≫= f).
Proof.
  intros Hm Hf w. specialize (Hm w). unfold mbind, M_bind. destruct (m w) as [[a|e] w1]; [|done].
  eapply elsewhere_trans; [done|apply Hf].
Qed.
Lemma confined_if {A} q (b : bool) (m1 m2 : M W A) : confined q m1 → confined q m2 → confined q (if b then m1 else m2).
Proof. by destruct b. Qed.
Lemma confined_when q b (m : M W unit) : confined q m → confined q (when b m).
Proof. intros. by apply confined_if, confined_ret. Qed.
Lemma confined_forM {A} q (l : list A) (f : A → M W unit) : (∀ a, confined q (f a)) → confined q (forM l f).
Proof.
  intros Hf. induction l as [|a l IH]; [apply confined_ret|]. apply confined_bind; [apply Hf|intros _; exact IH].
Qed.
Lemma confined_open q create : confined q (open_file q create).
Proof. intros w. apply open_power. Qed.
Lemma confined_write q off data : confined q (write_exact q off data).
Proof. intros w. apply write_power. Qed.
Lemma confined_read_open q p : confined q (open_file p false).
Proof. intros w. apply everywhere_elsewhere, open_power. by left. Qed.
Lemma confined_read q p off n : confined q (read_exact p off n).
Proof. intros w. apply everywhere_elsewhere, read_power. Qed.
Lemma confined_flush q p : confined q (flush_all p).
Proof. intros w. apply everywhere_elsewhere, flush_all_power. Qed.

Lemma confined_everywhere {A} (m : M W A) : (∀ q, confined q m) → ∀ w, everywhere w (m w).2.
Proof.
  intros Hm w p. apply (Hm (p +:+ "/")). intros E%(f_equal ssize). rewrite ssize_app in E. unfold ssize in E. simpl in E. lia.
Qed.

(** ** What the medium has for sure *)
Definition secure w p (c : list byte) : Prop :=
  file_of w p = Some c ∧ linked w p ∧ ∀ c', medium w p c' → c' = c.
Definition fixed w p : Prop :=
  (∃ c, secure w p c) ∨ file_of w p = None ∧ ∀ o, survives w p o → o = None.
(** The storage [w'] is what a power failure in [w] may leave. *)
Definition crashed w w' : Prop := ∀ p, survives w p (file_of w' p).
Lemma secure_crash w w' p c : secure w p c → crashed w w' → file_of w' p = Some c.
Proof. intros (_ & Hl & Hm) Hc. destruct (linked_law w p _ Hl (Hc p)) as (c' & -> & ->%Hm). done. Qed.
Lemma fixed_crash w w' p : fixed w p → crashed w w' → file_of w' p = file_of w p.
Proof.
  intros [[c Hs]|[Hn Hs]] Hc; [|by rewrite (Hs _ (Hc p))]. rewrite (secure_crash w w' p c Hs Hc). by destruct Hs as [-> _].
Qed.
Lemma secure_kept w w' p c : untouched w w' p → file_of w' p = file_of w p → secure w p c → secure w' p c.
Proof. intros (A & B & C) E (Hf & Hl & Hm). split_and!; [congruence|auto|auto]. Qed.
Lemma fixed_kept w w' p : untouched w w' p → file_of w' p = file_of w p → fixed w p → fixed w' p.
Proof.
  intros Hu E [[c Hs]|[Hn Hs]]; [left; exists c; by eapply secure_kept|]. right. destruct Hu as (A & B & C).
  split; [congruence|auto].
Qed.

(** ** Saving a snapshot *)
Section saving.
Context (sn : snapshot_store) (read : root_record → Z → Z → M W (list byte)).
Context (Hread : ∀ r off n w, everywhere w (read r off n w).2) (Hstrict : sn_durability sn = strict).
Let tmp : string := temporary sn.
Lemma confined_copy_payload fuel data_base copied root : confined tmp (copy_payload sn read fuel data_base copied root).
Proof.
  revert copied. induction fuel as [|fuel IH]; intros copied; simpl; (apply confined_if; [|apply confined_ret]).
  - apply confined_throw.
  - apply confined_bind; [intros w; apply everywhere_elsewhere, Hread|intros out].
    apply confined_bind; [apply confined_write|intros _; apply IH].
Qed.
(** What is written to the temporary file before it is flushed. *)
Lemma write_temporary_power sequence roots w w' bytes :
  write_temporary sn read sequence roots w = (Ok tt, w') → file_of w' tmp = Some bytes →
  ∀ c, medium w' tmp c → c = bytes.
Proof.
  unfold write_temporary. rewrite Hstrict. intros E Hf. m_inv E. m_inv E. m_inv E. m_inv E. m_inv E.
  rewrite bool_decide_true in E by done. simpl in E. fold tmp in E.
  match type of E with flush_all _ ?x = _ => destruct (flush_all_power tmp x) as [_ Hp];
    pose proof (flush_all_law tmp x) as Hs end.
  rewrite E in Hs. simpl in Hs. eapply Hp; [done|]. by rewrite <- Hs.
Qed.
Lemma confined_truncate n : confined tmp (truncate tmp n).
Proof. intros w. apply truncate_power. Qed.
Lemma write_temporary_confined sequence roots : confined tmp (write_temporary sn read sequence roots).
Proof.
  unfold write_temporary. fold tmp.
  repeat (apply confined_bind; [|intros _]); first [apply confined_open|apply confined_truncate|apply confined_write|idtac].
  - apply confined_when, confined_write.
  - apply confined_forM. intros x. apply confined_copy_payload.
  - apply confined_when, confined_flush.
Qed.

(** Every file of the directory has its entry on the medium. *)
Definition synced (dir : string) w : Prop :=
  ∀ name, is_Some (file_of w (path_join dir name)) → linked w (path_join dir name).

(** The end of a save: the old snapshot or the new one, and the new one once the directory is
    synced. *)
Lemma publish_power w0 image roots bytes w dir name :
  sn_path sn = path_join dir name → parent_path (sn_path sn) = dir →
  same_but tmp w0 w → file_of w tmp = Some bytes → (∀ c, medium w tmp c → c = bytes) →
  ∃ r w', publish_temporary sn image roots w = (r, w') ∧
    (∀ p, p ≠ tmp → p ≠ sn_path sn → untouched w w' p) ∧
    (everywhere w w' ∧ same_files w w' ∧ (∃ e, r = Throw e) ∨
     replaced_by sn w0 bytes w' ∧
       (∀ o, survives w' (sn_path sn) o → survives w (sn_path sn) o ∨ o = Some bytes) ∧
       (r = Ok (Image (saved_roots (snapshot_base roots) roots) (i_sequence image)) ∧
          secure w' (sn_path sn) bytes ∧ synced dir w' ∨
        ∃ e, r = Throw e)).
Proof.
  intros Hpath Hdir Hb Hf Hm. unfold publish_temporary. rewrite Hstrict. rewrite bool_decide_true by done. fold tmp.
  unfold mbind, M_bind, when. rewrite Hdir.
  pose proof (replace_power tmp (sn_path sn) w) as Hr. pose proof (atomic_replace_law tmp (sn_path sn) w) as Hl.
  destruct (atomic_replace tmp (sn_path sn) w) as [[u|e] w1].
  2:{ do 2 eexists. split_and!; [done|intros; apply Hr|left]. split_and!; [done|done|by eexists]. }
  destruct Hr as (Hp & Hmed & Hsurv). destruct Hl as (_ & Hnew & Htmp & Hothers). rewrite Hf in Hnew.
  assert (∀ w2, everywhere w1 w2 → same_files w1 w2 →
    (∀ p, p ≠ tmp → p ≠ sn_path sn → untouched w w2 p) ∧ replaced_by sn w0 bytes w2 ∧
    ∀ o, survives w2 (sn_path sn) o → survives w (sn_path sn) o ∨ o = Some bytes) as Hs2.
  { intros w2 Hw2 Hs. split_and!.
    - intros p Hp1 Hp2. eapply untouched_trans; [by apply Hp|apply Hw2].
    - unfold replaced_by. rewrite !Hs. fold tmp. split_and!; [done|by apply Htmp, temporary_ne|].
      intros q ? ?. by rewrite Hs, Hothers, Hb.
    - intros o Ho. destruct (Hw2 (sn_path sn)) as (_ & _ & H3). apply H3, Hsurv in Ho as [Ho|(c & -> & ->%Hm)]; [by left|by right]. }
  destruct (sync_directory_power dir w1) as [Hev Hlink]. pose proof (sync_directory_law dir w1) as Hsame.
  destruct (sync_directory dir w1) as [[u2|e] w2]; simpl in *; destruct (Hs2 w2 Hev Hsame) as (H1 & H2 & H3);
    do 2 eexists; (split_and!; [done|done|right]; split_and!; [done|done|]).
  - destruct u2. assert (synced dir w2) as Hsync by (intros n Hn; apply Hlink; [done|by rewrite <- Hsame]).
    left. split; [done|]. split; [|done]. split_and!; [by rewrite Hsame| |].
    + rewrite Hpath. apply Hsync. rewrite <- Hpath, Hsame, Hnew. by eexists.
    + intros c Hc. apply Hm, Hmed. destruct (Hev (sn_path sn)) as (_ & Hc2 & _). by apply Hc2.
  - right. by eexists.
Qed.
Lemma save_power payload image roots w dir name :
  sn_path sn = path_join dir name → parent_path (sn_path sn) = dir →
  ordered_roots image = Ok roots → Forall (λ x, reads_payload sn read payload w (x_record x)) roots →
  let bytes := snapshot_bytes (sn_checksums sn) (i_sequence image) roots (payloads payload roots) in
  ∃ r w', snapshot_save sn read image w = (r, w') ∧
    (∀ p, p ≠ tmp → p ≠ sn_path sn → untouched w w' p) ∧
    (same_but tmp w w' ∧ (fixed w (sn_path sn) → fixed w' (sn_path sn)) ∧ (∃ e, r = Throw e) ∨
     replaced_by sn w bytes w' ∧
       (fixed w (sn_path sn) → ∀ o, survives w' (sn_path sn) o → o = file_of w (sn_path sn) ∨ o = Some bytes) ∧
       (r = Ok (Image (saved_roots (snapshot_base roots) roots) (i_sequence image)) ∧
          secure w' (sn_path sn) bytes ∧ synced dir w' ∨
        ∃ e, r = Throw e)).
Proof.
  intros Hpath Hdir Ho Hreads bytes. rewrite snapshot_save_unfold, Ho.
  destruct (ordered_roots_spec _ _ Ho) as (_ & _ & _ & n & _ & Hp).
  destruct (write_temporary_leaves sn read payload w (i_sequence image) roots n Hp Hreads) as (r1 & w1 & E1 & Hb1 & Hf1 & _).
  pose proof (write_temporary_confined (i_sequence image) roots w) as Hc1. rewrite E1 in Hc1. simpl in Hc1.
  pose proof (not_eq_sym (temporary_ne sn)) as Hne. fold tmp in Hne, Hb1, Hf1.
  assert (fixed w (sn_path sn) → fixed w1 (sn_path sn)) as Hfix1 by (apply fixed_kept; [by apply Hc1|by apply Hb1]).
  assert (fixed w (sn_path sn) → ∀ o, survives w1 (sn_path sn) o → o = file_of w (sn_path sn)) as Hold.
  { intros Hfix. rewrite <- (Hb1 _ Hne). destruct (Hfix1 Hfix) as [[c (Hc & Hl & Hm)]|[-> ?]]; [|done].
    intros o Hs. destruct (linked_law _ _ _ Hl Hs) as (c' & -> & ->%Hm). by rewrite Hc. }
  unfold mbind, M_bind. rewrite E1. destruct r1 as [[]|e].
  2:{ do 2 eexists. split_and!; [done|intros p Hp1 _; by apply Hc1|left]. split_and!; [done|done|by eexists]. }
  specialize (Hf1 ltac:(by eexists)).
  destruct (publish_power w image roots bytes w1 dir name Hpath Hdir Hb1 Hf1 (write_temporary_power _ _ _ _ _ E1 Hf1))
    as (r & w' & E & Hp1 & Hcase).
  exists r, w'. split_and!; [done|intros p Hpt Hpp; eapply untouched_trans; [by apply Hc1|by apply Hp1]|].
  destruct Hcase as [(Hev & Hs & Hr)|(Hrep & Hs & Hr)]; [left|right].
  - split_and!; [by eapply same_but_trans, same_but_files| |done].
    intros Hfix. apply (fixed_kept w1); [apply Hev|apply Hs|auto].
  - split_and!; [done| |done]. intros Hfix o [Ho'|Ho']%Hs; [left; by apply Hold|by right].
Qed.
End saving.
End power.

Lemma last_slash_join d n : last_slash n = None → last_slash (path_join d n) = Some (String.length d).
Proof.
  intros Hn. unfold path_join. induction d as [|c d IH]; simpl.
  - change ("" +:+ n) with n. by rewrite Hn.
  - by rewrite IH.
Qed.
Lemma substring_app d s : String.substring 0 (String.length d) (d +:+ s) = d.
Proof. induction d as [|c d IH]; simpl; [by destruct s|]. f_equal. exact IH. Qed.
Lemma parent_join d n : d ≠ "" → last_slash n = None → parent_path (path_join d n) = d.
Proof.
  intros Hd Hn. unfold parent_path. rewrite last_slash_join by done. destruct d as [|c d]; [done|].
  simpl String.length. apply (substring_app (String c d)).
Qed.

(** ** The heap *)
Section heap.
Context {W : Type} `{HW : storage_reliable W} `{HP : !storage_durable W} (config : heap_config).
Context (Hstrict : cf_durability config = strict) (Hdir : cf_path config ≠ "").
Implicit Types (h : heap_state) (w : W) (A : amap).
(** The medium has the journal, directory entry and all, and it has the snapshot, if there is one. *)
Definition settled w : Prop := (∃ c, secure w (wal_path config) c) ∧ fixed w (snap_path config).

Lemma settled_crash w w' A : settled w → crashed w w' → recovers config w A → recovers config w' A.
Proof.
  intros [[c Hw] Hs] Hc. apply recovers_files; [by eapply fixed_crash|]. rewrite (secure_crash _ _ _ _ Hw Hc). by destruct Hw as [-> _].
Qed.
Lemma settled_kept w w' : everywhere w w' → same_files w w' → settled w → settled w'.
Proof.
  intros Hev Hs [[c Hw] Hf]. split; [exists c; by eapply secure_kept|by eapply fixed_kept].
Qed.
Lemma read_payload_everywhere r off n w : everywhere w (read_payload config r off n w).2.
Proof.
  revert w. apply confined_everywhere. intros q. unfold read_payload, snapshot_read, journal_read.
  repeat apply confined_if; try apply confined_throw; try apply confined_read.
  apply confined_bind; [apply confined_read_open|intros _; apply confined_read].
Qed.

(** A journal that was cut is on the medium as it is. *)
Lemma truncate_flush_secure n w c w' :
  file_of w (wal_path config) = Some c → linked w (wal_path config) → 0 ≤ n ≤ size c →
  truncate_flush (wal_of config) n w = (Ok tt, w') → secure w' (wal_path config) (truncate_to c n).
Proof.
  intros Hf Hl Hn. unfold truncate_flush. change (j_path (wal_of config)) with (wal_path config).
  change (j_durability (wal_of config)) with (cf_durability config). rewrite Hstrict, bool_decide_true by done.
  unfold mbind, M_bind, when. destruct (truncate_power (wal_path config) n w) as [_ Ht].
  specialize (Ht c Hf Hn). pose proof (truncate_law (wal_path config) n w) as Hlaw.
  destruct (truncate (wal_path config) n w) as [[u|e] w1]; [|done].
  destruct Hlaw as (_ & c' & Hc' & Hw1). assert (c' = c) as -> by congruence. destruct Ht as [Hl1 _].
  destruct (flush_all_power (wal_path config) w1) as [Hev Hfl].
  pose proof (flush_all_law (wal_path config) w1) as Hsame. intros E. rewrite E in Hsame, Hev. simpl in *.
  split_and!; [by rewrite Hsame|by apply Hev, Hl1|]. intros c2 Hc2. by eapply Hfl.
Qed.
(** Cutting the journal: the medium has the old one or what is left of it. *)
Lemma truncate_flush_power n w c :
  secure w (wal_path config) c → 0 ≤ n ≤ size c →
  ∃ r w', truncate_flush (wal_of config) n w = (r, w') ∧ elsewhere (wal_path config) w w' ∧
    (∀ o, survives w' (wal_path config) o →
       o = Some c ∨ o = Some (truncate_to c n) ∧ file_of w' (wal_path config) = Some (truncate_to c n)).
Proof.
  intros (Hf & Hl & Hm) Hn. unfold truncate_flush. change (j_path (wal_of config)) with (wal_path config).
  change (j_durability (wal_of config)) with (cf_durability config). rewrite Hstrict, bool_decide_true by done.
  unfold mbind, M_bind, when. destruct (truncate_power (wal_path config) n w) as [He Ht].
  specialize (Ht c Hf Hn). pose proof (truncate_law (wal_path config) n w) as Hlaw.
  assert (∀ w1, everywhere w w1 → ∀ o, survives w1 (wal_path config) o → o = Some c) as Hstay.
  { intros w1 Hev o Ho. apply Hev in Ho. destruct (linked_law _ _ _ Hl Ho) as (c' & -> & ->%Hm). done. }
  destruct (truncate (wal_path config) n w) as [[u|e] w1]; simpl in He.
  2:{ do 2 eexists. split_and!; [done|done|intros o Ho; left; by eapply Hstay]. }
  destruct Hlaw as (_ & c' & Hc' & Hw1). assert (c' = c) as -> by congruence. destruct Ht as [Hl1 Hm1].
  specialize (Hl1 Hl). destruct (flush_all_power (wal_path config) w1) as [Hev Hfl].
  pose proof (flush_all_law (wal_path config) w1) as Hsame.
  destruct (flush_all (wal_path config) w1) as [r w2]; simpl in *. do 2 eexists. split_and!; [done| |].
  - eapply elsewhere_trans; [done|by apply everywhere_elsewhere].
  - intros o Ho. apply Hev in Ho. destruct (linked_law _ _ _ Hl1 Ho) as (c2 & -> & [->%Hm| ->]%Hm1); [by left|right].
    by rewrite Hsame.
Qed.

Lemma snapshot_path : sn_path (snapshot_of config) = path_join (cf_path config) "heap.snapshot" ∧
  parent_path (sn_path (snapshot_of config)) = cf_path config.
Proof. split; [done|]. by apply parent_join. Qed.

Lemma truncate_flush_confined n : confined (W:=W) (wal_path config) (truncate_flush (wal_of config) n).
Proof.
  apply confined_bind; [intros w; apply truncate_power|intros _]. apply confined_when, confined_flush.
Qed.

(** A checkpoint: when the heap was settled and whenever the power fails, what is left recovers to
    the same map; and a checkpoint that returned leaves the heap settled, also when it was not. *)
Lemma checkpoint_power h w A p :
  heap_inv config h w A p → saveable A →
  ∃ r h' w', checkpoint_locked (h, w) = (r, (h', w')) ∧
    (settled w → ∀ w'', crashed w' w'' → recovers config w'' A) ∧ (r = Ok tt → settled w').
Proof.
  intros Hinv Hsave. pose proof (heap_inv_recovers _ _ _ _ _ Hinv) as Hrec.
  destruct Hinv as (image & cj & s & Hh & Hp). unfold checkpoint_locked, state, update.
  set (now := Image (hs_roots h) (hs_wal_sequence h)).
  unfold mbind at 1, M_bind at 1, on_fst at 1, get at 1. rewrite (hi_config _ _ _ _ _ _ _ Hh).
  destruct (checkpoint_ordered config h w A image cj s Hh Hsave) as [roots Ho]. fold now in Ho.
  destruct snapshot_path as [Hpath Hparent]. pose proof (hi_journal _ _ _ _ _ _ _ Hh) as Ew.
  destruct (paths_differ config) as (Hne & Hne1 & Hne2).
  destruct (save_power (snapshot_of config) (read_payload config) read_payload_everywhere Hstrict _ now roots w _ _
    Hpath Hparent Ho (checkpoint_reads config h w A image cj s Hh roots Ho)) as (r1 & w1 & E1 & Hp1 & Hcase).
  unfold mbind, M_bind, on_snd. fold now. rewrite E1.
  assert (settled w → file_of w1 (wal_path config) = Some cj → secure w1 (wal_path config) cj) as Hwal1.
  { intros [[c Hwal] _] E. assert (c = cj) as -> by (destruct Hwal; congruence).
    apply (secure_kept w); [by apply Hp1|congruence|done]. }
  destruct Hcase as [(Hb & Hfix1 & [e ->])|(Hrep & Hsurv & Hr)].
  { do 3 eexists. split_and!; [done| |done]. intros Hset w2 Hc. apply (settled_crash w1); [|done|].
    - split; [exists cj; apply Hwal1; [done|by rewrite Hb]|apply Hfix1, Hset].
    - by apply (recovers_files config w); [apply Hb|apply Hb|]. }
  destruct (saved_state config h w A image cj s Hh Hsave roots w1 Ho Hrep) as (t & Hd & T1 & T2 & T3 & T4 & T5).
  assert (file_of w1 (wal_path config) = Some cj) as Ew1 by by destruct Hrep as (_ & _ & ->).
  pose proof (λ Hset, Hwal1 Hset Ew1) as Hsec1. pose proof (proj1 Hrep) as Esn.
  set (bytes := snapshot_bytes _ _ _ _) in *. change (sn_path (snapshot_of config)) with (snap_path config) in *.
  destruct Hr as [(-> & Hsec & Hsync)|[e ->]].
  2:{ do 3 eexists. split_and!; [done| |done]. intros Hset w2 Hc.
      pose proof (secure_crash _ _ _ _ (Hsec1 Hset) Hc) as Ew2. destruct (Hsurv (proj2 Hset) _ (Hc (snap_path config))) as [Es|Es].
      - apply (recovers_files config w); [done|congruence|done].
      - apply (recovers_files config w1); [by rewrite Es, Esn|by rewrite Ew2|by do 3 eexists]. }
  unfold on_fst, modify; simpl. set (h1 := set_last_sequence _ _).
  assert (heap_state_ok config h1 w1 A (Image (saved_roots (snapshot_base roots) roots) (hs_wal_sequence h)) cj t) as Hh1.
  { destruct Hh as [Hcf _ Hw [Hc1 Hc2] _ _ Hca]. split; try done. by rewrite T4, T5. }
  destruct (reset_spec config h1 w1 A _ cj t Hh1) as (r2 & w2 & E2 & Hrec2 & Hs2 & Hr2 & _); [done|done| |].
  { intros n r Hn. simpl in Hn. destruct (ordered_roots_spec _ _ Ho) as (_ & _ & Hdup & _).
    by destruct (saved_roots_inv _ _ _ _ Hdup Hn) as (x & _ & _ & ->). }
  pose proof (truncate_flush_confined 0 w1) as Hels.
  change (truncate_flush (wal_of config) 0) with (journal_reset (W:=W) (wal_of config)) in Hels.
  rewrite E2 in Hels |- *. simpl in Hels.
  assert (file_of w2 (snap_path config) = Some bytes) as Es2.
  { destruct (truncate_flush_spec (wal_of config) cj 0 w1 Ew1) as (r3 & w3 & E3 & Hb3 & _).
    change (truncate_flush (wal_of config) 0) with (journal_reset (W:=W) (wal_of config)) in E3.
    rewrite E2 in E3. injection E3 as <- <-. by rewrite Hb3. }
  assert (secure w2 (snap_path config) bytes) as Hsec3 by (apply (secure_kept w1); [by apply Hels|congruence|done]).
  do 3 eexists. split_and!; [done| |].
  - intros Hset w3 Hc. pose proof (secure_crash _ _ _ _ Hsec3 Hc) as Es3.
    destruct (truncate_flush_power 0 w1 cj (Hsec1 Hset)) as (r2' & w2' & E2' & _ & Hsurv2); [split; [lia|auto]|].
    change (truncate_flush (wal_of config) 0) with (journal_reset (W:=W) (wal_of config)) in E2'. rewrite truncate_to_nil in *.
    rewrite E2 in E2'. injection E2' as <- <-. destruct (Hsurv2 _ (Hc (wal_path config))) as [Ew3|[Ew3 Ew2]].
    + apply (recovers_files config w1); [congruence|congruence|by do 3 eexists].
    + apply (recovers_files config w2); [congruence|congruence|done].
  - intros ->. split; [|left; by eexists]. exists (truncate_to cj 0).
    apply (truncate_flush_secure 0 w1); [done| |split; [lia|auto]|exact E2]. apply Hsync. by eexists.
Qed.

(** Appending a batch: the medium has the old journal with anything after it, no longer than the
    batch; and the batch when the append returned. *)
Lemma append_journal_power tx updates seq w c :
  secure w (wal_path config) c → 0 ≤ seq → seq + size updates + 2 < u64_bound →
  let batch := batch_bytes (wal_of config) tx seq updates in
  ∃ r q w', journal_append (wal_of config) tx updates (seq, w) = (r, (q, w')) ∧
    elsewhere (wal_path config) w w' ∧
    (∀ o, survives w' (wal_path config) o → ∃ t, o = Some (c ++ t) ∧ size t ≤ size batch) ∧
    (is_ok r → secure w' (wal_path config) (c ++ batch)).
Proof.
  intros (Hf & Hl & Hm) Hq0 Hq batch. unfold journal_append, mbind, M_bind, on_fst, on_snd, get, put.
  rewrite build_batch_spec by done. change (j_path (wal_of config)) with (wal_path config).
  change (j_durability (wal_of config)) with (cf_durability config). rewrite Hstrict, bool_decide_true by done.
  match goal with |- context [append _ ?b w] => change b with batch end.
  destruct (append_power (wal_path config) batch w c Hf) as (He & Hl1 & Hm1). pose proof (append_law (wal_path config) batch w) as Hlaw.
  destruct (append (wal_path config) batch w) as [r1 w1]. simpl in He, Hl1, Hm1. specialize (Hl1 Hl).
  assert (∀ w2, everywhere w1 w2 → ∀ o, survives w2 (wal_path config) o → ∃ t, o = Some (c ++ t) ∧ size t ≤ size batch) as Hsurv.
  { specialize (Hm1 c ltac:(by intros c0 ->%Hm)). intros w2 Hev o Ho%Hev.
    destruct (linked_law _ _ _ Hl1 Ho) as (c' & -> & [->%Hm|[[t ->] Ht]]%Hm1).
    - exists []. rewrite app_nil_r, size_nil. auto.
    - exists t. rewrite size_app in Ht. split; [done|lia]. }
  destruct r1 as [off|e].
  2:{ do 3 eexists. split_and!; [done|done|by apply Hsurv|by intros [? [=]]]. }
  destruct Hlaw as (_ & c' & Hc' & _ & Hw1). assert (c' = c) as -> by congruence. unfold when.
  destruct (flush_data_power (wal_path config) w1) as [Hev Hfl]. pose proof (flush_data_law (wal_path config) w1) as Hsame.
  destruct (flush_data (wal_path config) w1) as [[[]|e] w2]; simpl in *; do 3 eexists;
    (split_and!; [done|by eapply elsewhere_trans, everywhere_elsewhere|by apply Hsurv|]); [|by intros [? [=]]].
  intros _. split_and!; [by rewrite Hsame|by apply Hev|]. intros c2 Hc2. by eapply Hfl.
Qed.

(** The journal with what the power failure left of the batch: when the checks of the reader detect
    the damage, the storage recovers to the map before the commit or to the one after it, or it is
    refused. *)
Lemma appended_damaged h w A image cj s tx updates t w' :
  heap_state_ok config h w A image cj s → is_u64 tx → s_pending s !! tx = None → valid_updates h updates →
  versions_match A updates →
  file_of w' (snap_path config) = file_of w (snap_path config) → file_of w' (wal_path config) = Some (cj ++ t) →
  size t ≤ size (batch_bytes (wal_of config) tx (s_last_sequence s) updates) →
  damage_detected (cf_checksums config) (batch_records tx (s_last_sequence s) updates) t →
  recovers config w' A ∨ recovers config w' (a_commit updates A) ∨ refuses config w'.
Proof.
  intros Hh Htx Hpend Hvu Hm Es Ew Hsz Hd.
  destruct (sequence_bounds config h w A image cj s updates Hh Hvu) as [Hq0 Hq].
  assert (length (batch_records tx (s_last_sequence s) updates) = S (S (length updates))) as Hlen.
  { unfold batch_records. simpl. rewrite length_app, update_records_length. simpl. lia. }
  assert (∀ j, (j ≤ S (length updates))%nat →
    ∃ s', replay (i_sequence image) (take j (batch_records tx (s_last_sequence s) updates)) s = Ok s' ∧
      s_roots s' = s_roots s ∧ s_last_sequence s ≤ s_last_sequence s' ≤ s_last_sequence s + size updates + 1) as Hpart.
  { intros j Hj. destruct (replay_partial tx (i_sequence image) (s_last_sequence s) updates j s) as (s' & Hr & H1 & _ & H2);
      [apply Hvu|done|done|done|done|]. exists s'. split_and!; [done|done|unfold size; lia..]. }
  destruct (scan_damaged (cf_checksums config) (i_sequence image) cj _ s (batch_records tx (s_last_sequence s) updates) t
    (journal_complete config h w A image cj s Hh)) as [->|[(j & s' & Hj & Hr & Hs)|[what Hs]]]; [done|by apply wf_batch; [..|apply Hvu]| |done|done|..].
  - intros j Hj. destruct (decide (j = S (S (length updates)))) as [->|Hne].
    + rewrite <- Hlen, firstn_all. destruct (replay_batch tx (i_sequence image) (s_last_sequence s) updates s)
        as (n & off & Hr); [done|done|apply Hvu|done|done|]. pose proof (journal_complete config h w A image cj s Hh) as (_ & Hoff & _).
      rewrite Hr, Hoff, (updates_apply config h w A image cj s updates Hh Hvu Hm). by eexists.
    + destruct (Hpart j ltac:(lia)) as (s' & Hr & _). by exists s'.
  - right. left. destruct (appended_state config h w A image cj s tx updates Hh Htx Hpend Hvu Hm w' Es Ew) as (s' & Hs & _).
    by do 3 eexists.
  - left. rewrite Hlen in Hj. destruct (Hpart j ltac:(lia)) as (s2 & Hr2 & Hroots & Hl). rewrite Hr in Hr2. injection Hr2 as <-.
    by apply (appended_torn config h w A image cj s updates Hh Hvu t s').
  - right. right. eapply heap_open_refuses; [done| |done|exact Hs]. rewrite Es. apply (hi_disk _ _ _ _ _ _ _ Hh).
Qed.

(** What a power failure left after the journal of [w] is no batch, by the checks of the reader, but
    the one that the commit wrote. *)
Definition batch_damage_detected h tx updates w w'' : Prop :=
  ∀ c t, file_of w (wal_path config) = Some c → file_of w'' (wal_path config) = Some (c ++ t) →
    damage_detected (cf_checksums config) (batch_records tx (hs_wal_sequence h) updates) t.

(** It left of the batch its first [k] bytes. *)
Definition batch_cut h tx updates w w'' k : Prop :=
  ∀ c, file_of w (wal_path config) = Some c →
    file_of w'' (wal_path config) = Some (c ++ take k (batch_bytes (wal_of config) tx (hs_wal_sequence h) updates)).
(** What a power failure may make of a commit. *)
Definition all_or_nothing h tx updates w A w'' : Prop :=
  (batch_damage_detected h tx updates w w'' →
     recovers config w'' A ∨ recovers config w'' (a_commit updates A) ∨ refuses config w'') ∧
  (∀ k, batch_cut h tx updates w w'' k → recovers config w'' A ∨ recovers config w'' (a_commit updates A)).
Lemma all_or_nothing_done h tx updates w A w'' :
  recovers config w'' A ∨ recovers config w'' (a_commit updates A) → all_or_nothing h tx updates w A w''.
Proof. intros Hr. split; [intros _|intros k _]; destruct Hr; auto. Qed.

(** The part of [commit] after its checks. *)
Lemma commit_checked_power h w A image cj s tx updates :
  heap_state_ok config h w A image cj s → settled w → is_u64 tx → s_pending s !! tx = None → valid_updates h updates →
  versions_match A updates → saveable (a_commit updates A) →
  ∃ r h' w', commit_checked config tx updates (h, w) = (r, (h', w')) ∧
    (∀ w'', crashed w' w'' → all_or_nothing h tx updates w A w'') ∧
    (r = Ok tt → settled w' ∧ ∀ w'', crashed w' w'' → recovers config w'' (a_commit updates A)).
Proof.
  intros Hh Hset Htx Hpend Hvu Hm Hsave. destruct Hset as [[c Hwal] Hfix].
  assert (c = cj) as -> by (destruct Hwal as [Hc _]; rewrite (hi_journal _ _ _ _ _ _ _ Hh) in Hc; congruence).
  destruct (sequence_bounds config h w A image cj s updates Hh Hvu) as [Hq0 Hq].
  destruct (paths_differ config) as (Hne & _ & _).
  destruct (append_journal_power tx updates (s_last_sequence s) w cj Hwal Hq0 Hq) as (r1 & q1 & w1 & E1 & He1 & Hs1 & Hsec1).
  destruct (journal_append_spec (wal_of config) tx cj (s_last_sequence s) updates w
    (hi_journal _ _ _ _ _ _ _ Hh) Hq0 Hq) as (r1' & w1' & E1' & Hb1 & Hr1 & _).
  rewrite E1 in E1'. injection E1' as <- -> <-. change (j_path (wal_of config)) with (wal_path config) in *.
  assert (file_of w1 (snap_path config) = file_of w (snap_path config)) as Es1 by by apply Hb1.
  assert (fixed w1 (snap_path config)) as Hfix1 by (apply (fixed_kept w); [by apply He1|done|done]).
  assert (∀ w2, crashed w1 w2 → all_or_nothing h tx updates w A w2) as Hcrash1.
  { intros w2 Hc. assert (file_of w2 (snap_path config) = file_of w (snap_path config)) as Es2
      by by rewrite (fixed_crash _ _ _ Hfix1 Hc).
    pose proof (hi_journal _ _ _ _ _ _ _ Hh) as Ej. pose proof (hi_sequence _ _ _ _ _ _ _ Hh) as Eq. split.
    - intros Hd. destruct (Hs1 _ (Hc (wal_path config))) as (t & Et & Ht).
      eapply (appended_damaged h w A image cj s tx updates t); [done..|]. rewrite <- Eq. by apply (Hd cj t).
    - intros k Hk. specialize (Hk cj Ej). rewrite Eq in Hk.
      pose proof (appended_part config h w A image cj s tx updates Hh Htx Hpend Hvu Hm k w2 Es2 Hk) as Hpart. case_decide; auto. }
  unfold commit_checked, catch, on_wal. unfold mbind at 1, M_bind at 1.
  rewrite (hi_sequence _ _ _ _ _ _ _ Hh), E1. destruct r1 as [ls|e].
  2:{ do 3 eexists. split_and!; [done|done|done]. }
  destruct Hr1 as [-> Ew]. specialize (Hsec1 ltac:(by eexists)).
  assert (settled w1) as Hset1 by (split; [by eexists|done]).
  set (h1 := set_wal_sequence _ h).
  destruct (publish_updates_spec (cached_in (a_commit updates A)) updates (update_locs (size cj + 44) updates) h1 w1) as (k & E2 & Hk).
  { by rewrite update_locs_length. }
  { eapply coherent_impl; [|apply (hi_cache _ _ _ _ _ _ _ Hh)]. intros n v q.
    apply cached_in_commit; [done|apply Hvu|apply Hvu]. }
  { apply Forall_forall. intros u Hu. eexists. split; [by apply a_commit_lookup; [apply Hvu|]|]. done. }
  unfold mbind at 1, M_bind at 1. rewrite E2. unfold mbind at 1, M_bind at 1, update, on_fst, modify.
  pose proof (published_inv config h w A image cj s tx updates Hh Htx Hpend Hvu Hm k w1 Es1 Ew Hk) as Hinv. fold h1 in Hinv.
  set (h2 := set_last_sequence (hs_wal_sequence _) _).
  change (heap_inv config h2 w1 (a_commit updates A) (s_pending s)) in Hinv.
  unfold mbind at 1, M_bind at 1, on_snd. pose proof (file_size_power (wal_path config) w1) as Hev3.
  destruct (computes_size (wal_path config) _ w1 Ew) as (r3 & w3 & E3 & Hs3 & Hr3 & _).
  change (j_path (wal_of config)) with (wal_path config). rewrite E3 in Hev3 |- *. simpl in Hev3.
  pose proof (heap_inv_same_files _ _ _ _ _ _ Hs3 Hinv) as Hinv3. pose proof (settled_kept _ _ Hev3 Hs3 Hset1) as Hset3.
  assert (∀ w2, crashed w3 w2 → recovers config w2 (a_commit updates A)) as Hcrash3.
  { intros w2 Hc. eapply settled_crash; [exact Hset3|done|by eapply heap_inv_recovers]. }
  destruct Hr3 as [->|[e ->]].
  2:{ do 3 eexists. split_and!; [done| |done]. intros. apply all_or_nothing_done. right. by apply Hcrash3. }
  destruct (_ >=? _).
  - destruct (checkpoint_power h2 w3 _ _ Hinv3 Hsave) as (r4 & h4 & w4 & E4 & Hcrash4 & Hset4). specialize (Hcrash4 Hset3).
    rewrite E4. do 3 eexists. split_and!; [done|intros; apply all_or_nothing_done; right; by apply Hcrash4|intros ->; split; [by apply Hset4|done]].
  - do 3 eexists. split_and!; [done|intros; apply all_or_nothing_done; right; by apply Hcrash3|by intros _].
Qed.
(** [commit] of a settled heap: whenever the power fails, what is left recovers to the map before
    the commit or to the map after it, or is refused, as long as the checks of the reader detect the
    damage to the batch; after a commit that returned, it recovers to the map after it. *)
Lemma commit_power h w A p tx updates :
  heap_inv config h w A p → settled w → updates ≠ [] → is_u64 tx → p !! tx = None → valid_updates h updates →
  saveable (a_commit updates A) →
  ∃ r h' w', commit tx updates (h, w) = (r, (h', w')) ∧
    (∀ w'', crashed w' w'' → all_or_nothing h tx updates w A w'') ∧
    (r = Ok tt → settled w' ∧ ∀ w'', crashed w' w'' → recovers config w'' (a_commit updates A)).
Proof.
  intros Hinv Hset Hne Htx Hpend Hvu Hsave. pose proof (heap_inv_recovers _ _ _ _ _ Hinv) as Hrec.
  assert (∀ e, ∃ r h' w', (Throw (A:=unit) e, (h, w)) = (r, (h', w')) ∧
    (∀ w'', crashed w' w'' → all_or_nothing h tx updates w A w'') ∧
    (r = Ok tt → settled w' ∧ ∀ w'', crashed w' w'' → recovers config w'' (a_commit updates A))) as Hrefused.
  { intros e. do 3 eexists. split_and!; [done| |done]. intros w2 Hc. apply all_or_nothing_done. left. by eapply settled_crash. }
  destruct Hinv as (image & cj & s & Hh & Hp). subst p.
  unfold commit. rewrite bool_decide_false by done.
  unfold state, mbind at 1, M_bind at 1, on_fst at 1, get at 1. rewrite (hi_config _ _ _ _ _ _ _ Hh).
  destruct (hs_closed h); [apply Hrefused|]. destruct (hs_poisoned h); [apply Hrefused|].
  pose proof (commit_roots config h w A image cj s Hh) as Hroots. rewrite <- (hi_roots _ _ _ _ _ _ _ Hh) in Hroots.
  unfold mbind at 1, M_bind at 1, lift_result at 1.
  destruct (check_versions (hs_roots h) updates) as [[]|e] eqn:Hcheck; [|apply Hrefused].
  apply check_versions_ok in Hcheck. apply (versions_match_roots _ _ _ _ _ Hroots) in Hcheck.
  apply (commit_checked_power h w A image cj s); done.
Qed.

(** ** Opening *)
Lemma load_roots_confined q count data_base roots r w :
  elsewhere q w (load_roots (snapshot_of config) count data_base roots (r, w)).2.2.
Proof.
  revert roots r w. induction count as [|count IH]; intros roots r w; simpl.
  { unfold mbind, M_bind, on_fst, get. by destruct (negb (eof r)). }
  unfold load_root, mbind, M_bind, on_fst, on_snd, lift_result. destruct (read_entry r) as [[f|e] r1]; [|done].
  pose proof (file_size_power (sn_path (snapshot_of config)) w) as H1.
  destruct (file_size _ w) as [[n|e] w1]; [|by apply everywhere_elsewhere]. simpl in H1.
  destruct (f_relative f >? n - data_base); [by apply everywhere_elsewhere|].
  pose proof (file_size_power (sn_path (snapshot_of config)) w1) as H2.
  destruct (file_size _ w1) as [[n2|e] w2]; simpl in H2; pose proof (everywhere_trans _ _ _ H1 H2) as H12; [|by apply everywhere_elsewhere].
  destruct (f_size f >? n2 - data_base - f_relative f); [by apply everywhere_elsewhere|].
  destruct (add_root data_base f roots); [|by apply everywhere_elsewhere].
  eapply elsewhere_trans; [by apply everywhere_elsewhere|apply IH].
Qed.
Lemma confined_size q p : confined q (file_size (W:=W) p).
Proof. intros w. apply everywhere_elsewhere, file_size_power. Qed.
Lemma confined_result {X} q (r : result X) : confined (W:=W) q (lift_result r).
Proof. by intros w p _. Qed.
Lemma snapshot_load_everywhere w : everywhere w (snapshot_load (snapshot_of config) w).2.
Proof.
  revert w. apply confined_everywhere. intros q. unfold snapshot_load, load_index.
  repeat first [apply confined_if|apply confined_throw|apply confined_ret|apply confined_size|apply confined_read
    |apply confined_read_open|apply confined_result|apply confined_bind; [|intros ?]].
  - intros w. apply everywhere_elsewhere, exists_power.
  - intros w. unfold with_local. pose proof (load_roots_confined q (Z.to_nat (h_root_count a4)) (header_size + h_index_size a4) ∅ a6 w) as Hl.
    by destruct (load_roots _ _ _ _ (a6, w)) as [r [r' w']].
Qed.
Lemma recover_loop_everywhere fuel snap n s w : everywhere w (recover_loop (wal_of config) fuel snap n s w).2.
Proof.
  revert w. apply confined_everywhere. intros q. revert s. induction fuel as [|fuel IH]; intros s; simpl;
    (apply confined_if; [|apply confined_ret]); [apply confined_throw|].
  apply confined_bind; [|intros [s'|]; [apply IH|apply confined_ret]]. unfold recover_step.
  repeat first [apply confined_if|apply confined_ret|apply confined_read|apply confined_result|apply confined_bind; [|intros ?]].
Qed.

(** Recovering a settled heap: the journal is the old one or the good part of it. *)
Lemma recover_power image cj s q w A :
  disk_state config w A image cj s → secure w (wal_path config) cj → fixed w (snap_path config) →
  ∃ r q' w', recover (wal_of config) (i_roots image) (i_sequence image) true (q, w) = (r, (q', w')) ∧
    (∀ w'', crashed w' w'' → recovers config w'' A) ∧ (is_ok r → settled w').
Proof.
  intros Hd Hwal Hfix. pose proof Hwal as [Ew _]. destruct (paths_differ config) as [Hne _].
  assert (∀ w', everywhere w w' → same_files w w' →
    settled w' ∧ ∀ w'', crashed w' w'' → recovers config w'' A) as Hstay.
  { intros w' Hev Hs. assert (settled w') as Hset.
    { eapply settled_kept; [done..|]. split; [by eexists|done]. }
    split; [done|]. intros w2 Hc. eapply settled_crash; [done..|]. do 3 eexists. by eapply disk_state_same_files. }
  rewrite recover_unfold. change (j_path (wal_of config)) with (wal_path config) in *.
  pose proof (file_size_power (wal_path config) w) as Hev1.
  destruct (computes_size (wal_path config) cj w Ew) as (r1 & w1 & E1 & Hs1 & Hr1 & _).
  rewrite E1 in Hev1 |- *. simpl in Hev1. destruct Hr1 as [->|[e ->]].
  2:{ do 3 eexists. split; [done|]. split; [by apply Hstay|by intros [? [=]]]. }
  pose proof (recover_loop_everywhere (Z.to_nat (size cj)) (i_sequence image) (size cj)
    (initial_scan (i_roots image) (i_sequence image)) w1) as Hev2.
  destruct (recover_loop_scan (wal_of config) (Z.to_nat (size cj)) cj (i_sequence image)
    (initial_scan (i_roots image) (i_sequence image)) w1) as (r2 & w2 & E2 & Hs2 & Hr2 & _); [by rewrite Hs1|done|].
  rewrite E2 in Hev2 |- *. simpl in Hev2.
  pose proof (everywhere_trans _ _ _ Hev1 Hev2) as Hev. pose proof (same_files_trans _ _ _ Hs1 Hs2) as Hs.
  destruct r2 as [s2|e].
  2:{ do 3 eexists. split; [done|]. split; [by apply Hstay|by intros [? [=]]]. }
  destruct Hr2 as [Es|[? [=]]].
  assert (s2 = s) as ->.
  { pose proof (ds_scan _ _ _ _ _ _ Hd) as E. unfold scan_all in E. simpl s_offset in E. rewrite Z.sub_0_r in E. by injection (eq_trans Es E). }
  destruct (complete_truncated _ _ _ _ _ (ds_scan _ _ _ _ _ _ Hd)) as [_ Hgood]; [simpl; pose proof (size_nonneg cj); lia|done|].
  destruct (Hstay w2 Hev Hs) as [Hset2 Hcr2]. unfold when.
  destruct (true && negb (s_last_good s =? size cj)).
  2:{ do 3 eexists. by split. }
  assert (secure w2 (wal_path config) cj) as Hwal2 by (eapply secure_kept; [apply Hev|apply Hs|done]).
  destruct (truncate_flush_power (s_last_good s) w2 cj Hwal2) as (r3 & w3 & E3 & Hels & Hsurv); [lia|].
  destruct (truncate_flush_spec (wal_of config) cj (s_last_good s) w2 ltac:(by rewrite Hs)) as (r3' & w3' & E3' & Hb & _).
  rewrite E3 in E3'. injection E3' as <- <-.
  pose proof (λ H1, truncate_flush_secure (s_last_good s) w2 cj w3 (proj1 Hwal2) (proj1 (proj2 Hwal2)) H1) as Hsec.
  rewrite E3 in Hsec. rewrite E3. rewrite truncate_to_take in * by lia. fold (good_part s cj) in *.
  assert (file_of w3 (snap_path config) = file_of w (snap_path config)) as Es3 by (rewrite Hb by done; apply Hs).
  assert (fixed w3 (snap_path config)) as Hfix3.
  { apply (fixed_kept w2); [by apply Hels|by apply Hb|]. by destruct Hset2. }
  assert (∀ w'', crashed w3 w'' → recovers config w'' A) as Hcr3.
  { intros w4 Hc. pose proof (fixed_crash _ _ _ Hfix3 Hc) as Es4. rewrite Es3 in Es4.
    destruct (Hsurv _ (Hc (wal_path config))) as [Ew4|[Ew4 _]].
    - apply (recovers_files config w); [congruence|congruence|by do 3 eexists].
    - do 3 eexists. eapply disk_state_truncated; [exact Hd|done|done]. }
  destruct r3 as [[]|e]; do 3 eexists; (split; [done|]); (split; [exact Hcr3|]); [|by intros [? [=]]].
  intros _. split; [|done]. eexists. apply Hsec; [lia|done].
Qed.

(** Opening a settled heap: whenever the power fails, what is left recovers to the same map, and
    a heap that opened is settled. *)
Lemma heap_open_power w A :
  settled w → recovers config w A →
  ∃ r w', heap_open config w = (r, w') ∧
    (∀ w'', crashed w' w'' → recovers config w'' A) ∧ (is_ok r → settled w').
Proof.
  intros Hset Hrec. unfold heap_open. rewrite bool_decide_false by done.
  assert (∀ w', everywhere w w' → same_files w w' →
    settled w' ∧ recovers config w' A ∧ ∀ w'', crashed w' w'' → recovers config w'' A) as Hstay.
  { intros w' Hev Hs. pose proof (settled_kept _ _ Hev Hs Hset) as Hset'.
    pose proof (recovers_same_files config _ _ _ Hs Hrec) as Hrec'. split_and!; [done|done|]. intros w2 Hc. by eapply settled_crash. }
  pose proof (create_directories_power (cf_path config) w) as Hev1.
  destruct (create_directories_computes (cf_path config) w) as (r1 & w1 & E1 & Hs1 & Hr1 & _).
  unfold mbind at 1, M_bind at 1. rewrite E1 in Hev1 |- *. simpl in Hev1. destruct Hr1 as [->|[e ->]].
  2:{ do 2 eexists. split; [done|]. split; [by apply Hstay|by intros [? [=]]]. }
  destruct (Hstay w1 Hev1 Hs1) as (Hset1 & _ & _). pose proof Hset1 as [[cj Hwal1] _].
  change (j_path (wal_of config)) with (wal_path config).
  destruct (open_power (wal_path config) true w1) as [_ Hev2].
  specialize (Hev2 ltac:(right; destruct Hwal1 as [-> _]; by eexists)).
  pose proof (open_file_law (wal_path config) true w1) as Hlaw.
  assert (same_files w1 (open_file (wal_path config) true w1).2) as Hs2.
  { destruct (open_file _ true w1) as [[u|e] w2]; simpl; [|done]. destruct Hlaw as (Hb & Hw & _).
    intros p. destruct (decide (p = wal_path config)) as [->|Hp]; [|by apply Hb]. rewrite Hw. by destruct Hwal1 as [-> _]. }
  unfold mbind at 1, M_bind at 1. destruct (open_file _ true w1) as [r2 w2]. simpl in Hev2, Hs2.
  pose proof (everywhere_trans _ _ _ Hev1 Hev2) as Hev. pose proof (same_files_trans _ _ _ Hs1 Hs2) as Hs.
  destruct r2 as [u|e].
  2:{ do 2 eexists. split; [done|]. split; [by apply Hstay|by intros [? [=]]]. }
  pose proof (snapshot_load_everywhere w2) as Hev3.
  pose proof (snapshot_load_parse (snapshot_of config) w2) as Hload.
  destruct Hload as (r3 & w3 & E3 & Hs3 & Hr3 & _).
  unfold mbind at 1, M_bind at 1. rewrite E3 in Hev3 |- *. simpl in Hev3.
  pose proof (everywhere_trans _ _ _ Hev Hev3) as Hev'. pose proof (same_files_trans _ _ _ Hs Hs3) as Hs'.
  destruct (Hstay w3 Hev' Hs') as (Hset3 & Hrec3 & Hcr3).
  destruct r3 as [image|e].
  2:{ do 2 eexists. split; [done|]. split; [done|by intros [? [=]]]. }
  destruct Hr3 as [Ei|[? [=]]].
  destruct Hrec3 as (image' & cj' & s & Hd). destruct Hset3 as [[c Hwal3] Hfix3].
  assert (cj' = c) as -> by (pose proof (ds_journal _ _ _ _ _ _ Hd) as E; destruct Hwal3 as [E' _]; by rewrite E' in E).
  assert (image' = image) as ->.
  { pose proof (ds_snapshot _ _ _ _ _ _ Hd) as E. unfold parse_image in E. rewrite Hs3 in E.
    change (sn_path (snapshot_of config)) with (snap_path config) in Ei.
    change (sn_checksums (snapshot_of config)) with (cf_checksums config) in Ei. congruence. }
  destruct (recover_power image c s 0 w3 A Hd Hwal3 Hfix3) as (r4 & q4 & w4 & E4 & Hcr4 & Hset4).
  unfold mbind at 1, M_bind at 1, with_local, mbind at 1, M_bind at 1. rewrite E4.
  destruct r4 as [x|e]; do 2 eexists; (split; [done|]); (split; [exact Hcr4|]); [|by intros [? [=]]].
  intros _. apply Hset4. by eexists.
Qed.
End heap.
