(* ===== verification/ConcurrencySpec.v ===== *)
(** * What threads on one heap can observe.

    A [view] is the abstract heap that the events of an execution build up, with the maps each
    thread may have read since its call.  [legal] says which events an abstract heap with atomic
    commits and loads allows.  The invariant of executions relates the two, section by section. *)
From stdpp Require Import functions.
From S2P Require Import Prelude.
From S2P Require Import Binary.
From S2P Require Import Storage.
From S2P Require Import Codec.
From S2P Require Import Journal.
From S2P Require Import Recovery.
From S2P Require Import Snapshot.
From S2P Require Import SnapshotImage.
From S2P Require Import Cache.
From S2P Require Import Heap.
From S2P Require Import HeapSpec.
From S2P Require Import Concurrency.

(** ** One thread alone *)
Section alone.
Context {W : Type} `{storage W}.
Implicit Types (s : heap_state * W) (p : section).

(** How a call ended. *)
Definition end_load (x : result loaded_root * (heap_state * W)) : outcome * (heap_state * W) :=
  let '(r, s) := x in (Loaded_ r, s).
Definition end_report (x : result integrity_report * (heap_state * W)) : outcome * (heap_state * W) :=
  let '(r, s) := x in (match r with Ok report => Reported_ report | Throw e => Done_ (Throw e) end, s).
Definition end_unit (x : result unit * (heap_state * W)) : outcome * (heap_state * W) :=
  let '(r, s) := x in (Done_ r, s).

Lemma alone_S n p s :
  run_alone (S n) p s = match run_section p s with (Goto p', s') => run_alone n p' s' | r => r end.
Proof. done. Qed.
Lemma alone_load name s : run_alone 3 (Looking name) s = end_load (load name s).
Proof.
  destruct s as [h w]. cbn [run_alone run_section fst]. unfold look, load, state.
  unfold mbind at 1, M_bind at 1, on_fst at 1, get at 1.
  destruct (hs_roots h !! name) as [record|]; [|done]. destruct (negb _); [done|].
  cbn [run_section]. unfold ends at 1, mbind, M_bind at 1, on_cache. destruct (cache_get _ _ _) as [[[bytes|]|e] c]; [done| |done].
  cbn [run_section]. unfold ends. by destruct (load_uncached _ _) as [[l|e] s'].
Qed.
Lemma alone_checkpoint_locked n s : run_alone (3 + n) Saving s = end_unit (checkpoint_locked s).
Proof.
  destruct s as [h w]. cbn [Nat.add run_alone run_section fst]. unfold checkpoint_locked, state, update.
  unfold ends at 1, mbind, M_bind, on_fst, on_snd, get, modify.
  destruct (snapshot_save _ _ _ w) as [[written|e] w1]; [|done]. cbn [run_section].
  unfold ends at 1, mbind, M_bind, on_fst, on_snd, get, modify. simpl.
  unfold ends, mbind, M_bind, state, on_fst, on_snd, get, wal_of, set_last_sequence, set_roots; simpl.
  by destruct (journal_reset _ w1) as [[[]|e] w2].
Qed.
Lemma alone_checkpoint s : run_alone 4 Entering s = end_unit (checkpoint s).
Proof.
  destruct s as [h w]. change (run_alone 4 Entering (h, w)) with (match
    (if hs_closed h then Done_ (Throw (transaction_error "heap is closed")) else Goto Saving) with
    | Goto p => run_alone 3 p (h, w) | o => (o, (h, w)) end).
  unfold checkpoint, state, mbind, M_bind at 1, on_fst, get.
  destruct (hs_closed h); [done|]. apply (alone_checkpoint_locked 0).
Qed.
Lemma publish_updates_config updates locations h (w : W) r h' w' :
  publish_updates updates locations (h, w) = (r, (h', w')) → hs_config h' = hs_config h ∧ w' = w.
Proof.
  revert locations h. induction updates as [|u us IH]; intros [|l ls] h; try by intros [= _ <- <-].
  simpl. unfold mbind, M_bind, update, on_fst, modify, on_cache. simpl.
  destruct (cache_put _ _ _ _) as [[x|e] c]; simpl; [by intros E%IH|by intros [= _ <- <-]].
Qed.
Lemma alone_publish updates locations n h w :
  run_alone (length updates + S n) (Publishing updates locations) (h, w) =
  match publish_updates updates locations (h, w) with
  | (Ok _, (h', w')) => run_alone n Measuring (set_last_sequence (hs_wal_sequence h') h', w')
  | (Throw e, s') => (Done_ (Throw e), s')
  end.
Proof.
  revert locations h. induction updates as [|u us IH]; intros locations h; [done|].
  destruct locations as [|l ls]; [done|]. simpl. unfold ends, publish_one, mbind, M_bind, update, on_fst, modify, on_cache.
  simpl. destruct (cache_put _ _ _ _) as [[x|e] c]; simpl; [|done]. apply IH.
Qed.
Lemma alone_append tx updates h w :
  run_alone (length updates + 7) (Appending tx updates) (h, w) = end_unit (
    (locations ← catch (on_wal (journal_append (wal_of (hs_config h)) tx updates))
                       (λ e, _ ← update set_poisoned; throw e);
     _ ← publish_updates updates locations;
     _ ← update (λ h, set_last_sequence (hs_wal_sequence h) h);
     n ← on_snd (file_size (j_path (wal_of (hs_config h))));
     if n >=? cf_checkpoint_journal_bytes (hs_config h) then checkpoint_locked else mret tt) (h, w)).
Proof.
  replace (length updates + 7)%nat with (S (S (length updates + S 4))) by lia.
  rewrite alone_S. cbn [run_section]. unfold ends, state, mbind, M_bind, catch, on_wal, update, on_fst, modify, throw, get, on_snd.
  destruct (journal_append _ _ _ _) as [[locations|e] [q w1]]; [|done].
  rewrite alone_S. cbn [run_section]. rewrite alone_publish.
  destruct (publish_updates _ _ _) as [[[]|e] [h2 w2]] eqn:E; [|done].
  apply publish_updates_config in E as [Hc _]. simpl in Hc.
  rewrite alone_S. cbn [run_section fst]. unfold ends, mbind, M_bind, state, on_fst, get, on_snd.
  replace (hs_config (set_last_sequence (hs_wal_sequence h2) h2)) with (hs_config h) by done.
  destruct (file_size _ w2) as [[n|e] w3]; [|done]. destruct (_ >=? _); [|done].
  apply (alone_checkpoint_locked 0).
Qed.
Lemma alone_commit tx updates s :
  run_alone (length updates + 9) (Starting tx updates) s = end_unit (commit tx updates s).
Proof.
  destruct s as [h w]. replace (length updates + 9)%nat with (S (S (length updates + 7))) by lia.
  rewrite alone_S. cbn [run_section]. unfold commit. destruct (bool_decide _); [done|].
  rewrite alone_S. cbn [run_section fst]. unfold validate, state.
  unfold mbind at 1, M_bind at 1, on_fst at 1, get at 1.
  destruct (hs_closed h); [done|]. destruct (hs_poisoned h); [done|].
  unfold mbind at 1, M_bind at 1, lift_result. destruct (check_versions _ _) as [[]|e]; [|done].
  apply alone_append.
Qed.

(** [integrity]: five sections, two for every record of the journal, and one for every root. *)
Definition alarm (e : error) : outcome := Reported_ (IntegrityReport false 0 0 0 0 (error_message e)).
Definition reports (m : M W integrity_report) h (w : W) : outcome * (heap_state * W) :=
  match m w with (Ok report, w') => (Reported_ report, (h, w')) | (Throw e, w') => (alarm e, (h, w')) end.
Lemma reports_assoc {A B} (m : M W A) (f : A → M W B) g h w :
  reports ((m ≫= f) ≫= g) h w = reports (m ≫= λ a, f a ≫= g) h w.
Proof. unfold reports. by rewrite bind_assoc. Qed.
Definition comes_to p s (x : outcome * (heap_state * W)) : Prop := ∃ n, run_alone n p s = x.
Lemma reads_ends {A} (m : heap_config → M W A) next h w :
  ends (h ← state; on_snd (m (hs_config h))) next alarm (h, w) =
  match m (hs_config h) w with (Ok a, w') => (next a, (h, w')) | (Throw e, w') => (alarm e, (h, w')) end.
Proof.
  unfold ends, state, mbind, M_bind, on_fst, get, on_snd. by destruct (m (hs_config h) w) as [[a|e] w'].
Qed.
(** A section that reads in front of the rest. *)
Lemma comes_to_reads {A} p (m : heap_config → M W A) (next : A → section) f h w :
  run_section p (h, w) = ends (h ← state; on_snd (m (hs_config h))) (λ a, Goto (next a)) alarm (h, w) →
  (∀ a w', comes_to (next a) (h, w') (reports (f a) h w')) →
  comes_to p (h, w) (reports (m (hs_config h) ≫= f) h w).
Proof.
  intros E Hf. rewrite reads_ends in E. unfold reports, mbind, M_bind.
  destruct (m (hs_config h) w) as [[a|e] w']; [|exists 1%nat; simpl; by rewrite E].
  destruct (Hf a w') as [n Hn]. exists (S n). rewrite alone_S, E. exact Hn.
Qed.
Lemma comes_to_recheck records recovered h w :
  comes_to (Rechecking records recovered) (h, w) (reports (
    _ ← verify_payloads (hs_config h) records;
    n ← file_size (j_path (wal_of (hs_config h)));
    mret (IntegrityReport true (size (map_to_list (r_roots recovered))) (r_records recovered) n
            (r_last_sequence recovered) "ok")) h w).
Proof.
  revert w. induction records as [|r rs IH]; intros w.
  - exists 1%nat. cbn [run_alone run_section]. rewrite reads_ends with (m := λ c, file_size (j_path (wal_of c))).
    unfold reports, mbind, M_bind. simpl. by destruct (file_size _ w) as [[n|e] w'].
  - cbn [verify_payloads]. rewrite reports_assoc.
    apply (comes_to_reads _ (λ c, load_payload c (rr_payload r)) (λ _, Rechecking rs recovered)); [done|].
    intros bytes w'. apply IH.
Qed.
(** The scan, which ends: every turn advances the offset. *)
Lemma comes_to_goto p x q x' y : run_section p x = (Goto q, x') → comes_to q x' y → comes_to p x y.
Proof. intros E [n Hn]. exists (S n). by rewrite alone_S, E. Qed.
Lemma comes_to_alarm p x e x' : run_section p x = (alarm e, x') → comes_to p x (alarm e, x').
Proof. intros E. exists 1%nat. by rewrite alone_S, E. Qed.
Lemma comes_to_scan image n (f : scan → M W integrity_report) h fuel (s : scan) (w : W) :
  (∀ (s1 : scan) w, comes_to (scanned s1) (h, w) (reports (f s1) h w)) →
  0 ≤ s_offset s → (Z.to_nat (n - s_offset s) ≤ fuel)%nat →
  comes_to (Scanning image n s) (h, w)
    (reports (recover_loop (wal_of (hs_config h)) fuel (i_sequence image) n s ≫= f) h w).
Proof.
  intros Hf. set (j := wal_of (hs_config h)).
  assert (∀ (s1 : scan) w, run_section (Scanning image n s1) (h, w) =
    match scan_prefix j n s1 w with
    | (Ok m, w') => (Goto (match m with None => scanned s1 | Some m => Framing image n s1 m end), (h, w'))
    | (Throw e, w') => (alarm e, (h, w'))
    end) as Hscan.
  { intros s1 w1. change (run_section (Scanning image n s1) (h, w1)) with
      (ends (h ← state; on_snd (scan_prefix (W:=W) (wal_of (hs_config h)) n s1))
        (λ m, Goto (match m with None => scanned s1 | Some m => Framing image n s1 m end)) alarm (h, w1)).
    apply (reads_ends (λ c, scan_prefix (wal_of c) n s1)). }
  assert (∀ (s1 : scan) m w, run_section (Framing image n s1 m) (h, w) =
    match scan_frame j (i_sequence image) s1 m w with
    | (Ok s', w') => (Goto (Scanning image n s'), (h, w'))
    | (Throw e, w') => (alarm e, (h, w'))
    end) as Hframe by (intros s1 m w1; apply (reads_ends (λ c, scan_frame (wal_of c) (i_sequence image) s1 m))).
  revert s w. induction fuel as [|fuel IH]; intros s w Ho Hfuel; simpl; specialize (Hscan s w); revert Hscan;
    unfold scan_prefix; destruct (Z.ltb_spec (s_offset s) n) as [Hlt|Hge]; [lia| | |]; intros Hscan.
  1,3: eapply comes_to_goto; [exact Hscan|apply Hf].
  revert Hscan. unfold recover_step. destruct (_ <? prefix_size); [intros Hscan; eapply comes_to_goto; [exact Hscan|apply Hf]|].
  unfold reports, mbind, M_bind, lift_result.
  destruct (read_exact (j_path j) (s_offset s) prefix_size w) as [[b|e] w1]; [|apply comes_to_alarm].
  destruct (run read_prefix b) as [m|e]; [|apply comes_to_alarm].
  destruct (m >? n - s_offset s - prefix_size); intros Hscan.
  { eapply comes_to_goto; [exact Hscan|]. apply Hf. }
  eapply comes_to_goto; [exact Hscan|]. specialize (Hframe s m w1). unfold scan_frame, mbind, M_bind, lift_result in Hframe.
  revert Hframe. destruct (read_exact (j_path j) (s_offset s + prefix_size) m w1) as [[fr|e] w2]; [|apply comes_to_alarm].
  destruct (process_frame _ _ _ _) as [s'|e] eqn:Ep; [|apply comes_to_alarm]. intros Hframe.
  eapply comes_to_goto; [exact Hframe|]. apply process_frame_inv in Ep as [Ep _]. pose proof (size_nonneg fr).
  unfold prefix_size in Ep. apply (IH s' w2); lia.
Qed.
Lemma alone_integrity s : comes_to Inspecting s (end_report (integrity s)).
Proof.
  destruct s as [h w]. assert (end_report (integrity (h, w)) = reports (verify (hs_config h)) h w) as ->.
  { unfold integrity, state, mbind, M_bind, on_fst, get, on_snd, catch, reports.
    by destruct (verify (hs_config h) w) as [[report|e] w']. }
  unfold verify. apply (comes_to_reads _ (λ c, snapshot_load (snapshot_of c)) Reopening); [done|]. intros image w1.
  apply (comes_to_reads _ (λ c, open_file (j_path (wal_of c)) true) (λ _, Rescanning image)); [done|]. intros _ w2.
  set (f := λ recovered : recovery_result, _ ← verify_payloads (hs_config h) (map_to_list (r_roots recovered)).*2;
    n ← file_size (j_path (wal_of (hs_config h)));
    mret (IntegrityReport true (size (map_to_list (r_roots recovered))) (r_records recovered) n (r_last_sequence recovered) "ok")).
  assert (reports (with_local 0 (recover (wal_of (hs_config h)) (i_roots image) (i_sequence image) false) ≫= f) h w2 =
    reports (file_size (j_path (wal_of (hs_config h))) ≫= λ n, recover_loop (wal_of (hs_config h)) (Z.to_nat n)
      (i_sequence image) n (initial_scan (i_roots image) (i_sequence image)) ≫= λ (s1 : scan), f (result_of s1)) h w2) as ->.
  { unfold reports, mbind, M_bind, with_local. rewrite recover_unfold.
    destruct (file_size _ w2) as [[n|e] w3]; [|done]. by destruct (recover_loop _ _ _ _ _ w3) as [[s|e] w4]. }
  apply (comes_to_reads _ (λ c, file_size (j_path (wal_of c)))
    (λ n, Scanning image n (initial_scan (i_roots image) (i_sequence image)))); [done|]. intros n w3.
  apply comes_to_scan; [intros s w4; apply comes_to_recheck|done|simpl; lia].
Qed.
End alone.

(** ** What is observed *)
Record view := View {
  v_map : amap;                    (* the map of the commits so far *)
  v_history : list amap;           (* every map so far, the last first *)
  v_seen : nat → list amap;        (* the maps a thread may have read since its call *)
  v_call : nat → option call;      (* what a thread was last asked to do *)
  v_applied : nat → bool;          (* whether its commit has taken place *)
  v_closed : bool;
  v_sequence : Z                   (* the number of journal records *)
}.
Definition initial_view (A : amap) (closed : bool) (sequence : Z) : view :=
  View A [A] (λ _, []) (λ _, None) (λ _, false) closed sequence.
Definition observe (v : view) (e : event) : view :=
  match e with
  | Called i c =>
      View (v_map v) (v_history v) (<[i := [v_map v]]> (v_seen v)) (<[i := Some c]> (v_call v))
        (<[i := false]> (v_applied v)) (v_closed v) (v_sequence v)
  | Committed i updates =>
      let A := a_commit updates (v_map v) in
      View A (A :: v_history v) (λ j, A :: v_seen v j) (v_call v)
        (<[i := true]> (v_applied v)) (v_closed v) (v_sequence v + size updates + 2)
  | Closed => View (v_map v) (v_history v) (v_seen v) (v_call v) (v_applied v) true (v_sequence v)
  | _ => v
  end.
Definition view_after (v : view) (events : list event) : view := foldl observe v events.

(** How a [commit] or a [checkpoint] may end. *)
Definition may_end (v : view) (i : nat) (r : result unit) : Prop :=
  match r with
  | Ok _ => v_applied v i = true ∨ v_call v i = Some CallCheckpoint ∨ ∃ tx, v_call v i = Some (CallCommit tx [])
  | Throw e => v_applied v i = false ∧
      (e = transaction_error "heap is closed" ∧ v_closed v = true ∨
       ∃ tx updates u, v_call v i = Some (CallCommit tx updates) ∧ u ∈ updates ∧
         default 0 (a_version <$> v_map v !! u_name u) ≠ u_expected u ∧
         e = conflict_error ("root version conflict: " +:+ u_name u))
  end.
(** What an abstract heap with atomic commits and loads allows. *)
Definition legal (v : view) (e : event) : Prop :=
  match e with
  | Committed i updates =>
      versions_match (v_map v) updates ∧ v_applied v i = false ∧ ∃ tx, v_call v i = Some (CallCommit tx updates)
  | LoadEnded i name r =>
      v_call v i = Some (CallLoad name) ∧ ∃ B, B ∈ v_seen v i ∧ r = load_result B name
  | Ended i r => may_end v i r
  | _ => True
  end.
Fixpoint legal_run (v : view) (events : list event) : Prop :=
  match events with
  | [] => True
  | e :: events => legal v e ∧ legal_run (observe v e) events
  end.

Lemma view_after_snoc v events e : view_after v (events ++ [e]) = observe (view_after v events) e.
Proof. apply foldl_snoc. Qed.
Lemma legal_run_snoc v events e :
  legal_run v (events ++ [e]) ↔ legal_run v events ∧ legal (view_after v events) e.
Proof. revert v. induction events as [|e' events IH]; intros v; simpl; [tauto|]. rewrite IH. tauto. Qed.
