(* ===== verification/ConcurrencyInvariant.v ===== *)
(** * The invariant of threads on one heap.

    [phase] says what the shared state is while a thread stands between two sections with the
    commit lock; [thread_ok] what a thread knows from the sections it has run.  Every section that
    the locks let run keeps the invariant, and the event it gives is one the view allows. *)
From stdpp Require Import functions.
From S2P Require Import Prelude.
From S2P Require Import Binary.
From S2P Require Import Storage.
From S2P Require Import Codec.
From S2P Require Import Journal.
From S2P Require Import Recovery.
From S2P Require Import Snapshot.
From S2P Require Import SnapshotImage.
From S2P Require Import Cache.
From S2P Require Import Heap.
From S2P Require Import HeapSpec.
From S2P Require Import Concurrency.
From S2P Require Import ConcurrencySpec.

(** ** Maps over time *)
(** The payload of a version of a root in one of the maps. *)
Definition ever (maps : list amap) (n : string) (ver : Z) (payload : list byte) : Prop :=
  ∃ B a, B ∈ maps ∧ B !! n = Some a ∧ a_version a = ver ∧ a_payload a = payload.
(** The maps so far and the last of them: a version of a root never changes, and versions grow. *)
Record history_ok (maps : list amap) (A : amap) : Prop := {
  ho_current : A ∈ maps;
  ho_chain B B' n a a' : B ∈ maps → B' ∈ maps → B !! n = Some a → B' !! n = Some a' →
    a_version a = a_version a' → a = a';
  ho_below B n a : B ∈ maps → B !! n = Some a → ∃ a', A !! n = Some a' ∧ a_version a ≤ a_version a'
}.
(** A root that [load] accepts. *)
Definition typed (A : amap) (n : string) : Prop := ∃ a, A !! n = Some a ∧ a_type a = value_type_name.

Section history.
Implicit Types (A B : amap) (updates : list root_update).
Lemma history_ok_initial A : history_ok [A] A.
Proof.
  split; [by left| |].
  - intros B B' n a a' ->%list_elem_of_singleton ->%list_elem_of_singleton. congruence.
  - intros B n a ->%list_elem_of_singleton Ha. by exists a.
Qed.
Lemma ever_cached maps A n ver p : history_ok maps A → ever maps n ver p → cached_in A n ver p.
Proof.
  intros [Hc Hch Hb] (B & a & HB & Ha & <- & <-). destruct (Hb B n a HB Ha) as (a' & Ha' & Hle).
  exists a'. split_and!; [done|done|]. intros E. by rewrite (Hch _ _ _ _ _ HB Hc Ha Ha' E).
Qed.
Lemma a_commit_other updates A n : n ∉ u_name <$> updates → a_commit updates A !! n = A !! n.
Proof.
  revert A. induction updates as [|u us IH]; intros A Hn; [done|]. simpl in *.
  apply not_elem_of_cons in Hn as [? ?]. rewrite IH by done. by rewrite lookup_insert_ne.
Qed.
Lemma a_commit_cases updates A n :
  NoDup (u_name <$> updates) →
  (∃ u, u ∈ updates ∧ u_name u = n ∧ a_commit updates A !! n = Some (ARoot (u_new u) (u_type u) (u_payload u))) ∨
  (n ∉ u_name <$> updates) ∧ a_commit updates A !! n = A !! n.
Proof.
  intros Hd. destruct (decide (n ∈ u_name <$> updates)) as [Hn|Hn]; [left|right].
  - apply list_elem_of_fmap in Hn as (u & -> & Hu). exists u. split_and!; [done|done|by apply a_commit_lookup].
  - split; [done|by apply a_commit_other].
Qed.
Lemma history_ok_commit maps A updates :
  history_ok maps A → versions_match A updates → NoDup (u_name <$> updates) →
  Forall (λ u, u_expected u < u_new u) updates →
  history_ok (a_commit updates A :: maps) (a_commit updates A).
Proof.
  intros [Hc Hch Hb] Hm Hd Hv.
  assert (∀ u B a, u ∈ updates → B ∈ maps → B !! u_name u = Some a → a_version a < u_new u) as Hlt.
  { intros u B a Hu HB Ha. destruct (Hb B _ a HB Ha) as (a' & Ha' & Hle).
    pose proof (proj1 (Forall_forall _ _) Hm u Hu) as E. pose proof (proj1 (Forall_forall _ _) Hv u Hu) as Hn.
    simpl in E, Hn. rewrite Ha' in E. simpl in E. lia. }
  assert (∀ B n a a', B ∈ maps → B !! n = Some a → a_commit updates A !! n = Some a' →
    a_version a = a_version a' → a = a') as Hnew.
  { intros B n a a' HB Ha Ha' E. destruct (a_commit_cases updates A n Hd) as [(u & Hu & <- & Eu)|[_ Eu]]; rewrite Eu in Ha'.
    - injection Ha' as <-. pose proof (Hlt u B a Hu HB Ha). simpl in E. lia.
    - by apply (Hch B A n). }
  split; [by left| |].
  - intros B B' n a a' [->|HB]%elem_of_cons [->|HB']%elem_of_cons Ha Ha' E; [congruence| | |by apply (Hch B B' n)].
    + symmetry. by apply (Hnew B' n).
    + by apply (Hnew B n).
  - intros B n a [->|HB]%elem_of_cons Ha; [by exists a|].
    destruct (a_commit_cases updates A n Hd) as [(u & Hu & <- & Eu)|[_ Eu]]; rewrite Eu.
    + eexists. split; [done|]. simpl. pose proof (Hlt u B a Hu HB Ha). lia.
    + by apply (Hb B).
Qed.
Lemma typed_commit updates A n :
  NoDup (u_name <$> updates) → Forall (λ u, u_type u = value_type_name) updates → typed A n →
  typed (a_commit updates A) n.
Proof.
  intros Hd Ht (a & Ha & E). destruct (a_commit_cases updates A n Hd) as [(u & Hu & <- & Eu)|[_ Eu]].
  - eexists. split; [done|]. simpl. by apply (proj1 (Forall_forall _ _) Ht).
  - exists a. by rewrite Eu.
Qed.
Lemma load_result_typed A n a :
  A !! n = Some a → a_type a = value_type_name → load_result A n = Ok (LoadedRoot (a_version a) (Some (a_payload a)) true).
Proof. intros Ha Ht. unfold load_result. rewrite Ha, Ht. by rewrite bool_decide_true. Qed.
End history.

(** ** The invariant *)
Section invariant.
Context {W : Type} `{HW : storage_reliable W} (config : heap_config).
Context (p0 : gmap Z pending_transaction) (room : Z).
Implicit Types (h : heap_state) (w : W) (A : amap) (v : view) (q : section) (s : system W).

(** What a thread may be asked: distinct roots, growing versions, encodable payloads of values, an
    id of no unfinished transaction, and as many records as there are sequence numbers for. *)
Definition call_ok (c : call) : Prop :=
  match c with
  | CallCommit tx updates =>
      is_u64 tx ∧ p0 !! tx = None ∧ Forall wf_update updates ∧ NoDup (u_name <$> updates) ∧
      Forall (λ u, u_expected u < u_new u) updates ∧ Forall (λ u, u_type u = value_type_name) updates ∧
      room + size updates + 2 < u64_bound
  | _ => True
  end.

(** The roots of the heap have the versions and types of the map. *)
Definition readable h A : Prop :=
  ∀ n, option_Forall2 (λ r a, rr_version r = a_version a ∧ rr_type r = a_type a) (hs_roots h !! n) (A !! n).
(** Nothing but the cache, the flags and the counters may differ. *)
Definition like h h1 : Prop := hs_config h1 = hs_config h ∧ hs_wal_sequence h1 = hs_wal_sequence h.
(** With this table of roots, the heap would represent the map. *)
Definition becomes h roots w A pending : Prop :=
  ∀ h1, like h h1 → hs_roots h1 = roots → coherent (cached_in A) (hs_cache h1) → heap_inv config h1 w A pending.
(** The snapshot has everything that is in the journal. *)
Definition resettable h w A pending : Prop :=
  ∃ image cj t, heap_state_ok config h w A image cj t ∧ s_pending t = pending ∧ s_roots t = i_roots image ∧
    s_last_sequence t = i_sequence image ∧ ∀ n r, i_roots image !! n = Some r → l_kind (rr_payload r) = src_snapshot.

Definition phase q h w A (sequence : Z) pending : Prop :=
  match q with
  | Appending _ _ | Measuring | Saving => heap_inv config h w A pending ∧ hs_wal_sequence h = sequence
  | Appended updates locations =>
      readable h A ∧ length updates = length locations ∧ hs_wal_sequence h = sequence + size updates + 2 ∧
      becomes h (publish updates locations (hs_roots h)) w (a_commit updates A) pending
  | Publishing updates locations =>
      length updates = length locations ∧ hs_wal_sequence h = sequence ∧
      Forall (λ u, A !! u_name u = Some (ARoot (u_new u) (u_type u) (u_payload u))) updates ∧
      becomes h (publish updates locations (hs_roots h)) w A pending
  | Switching written =>
      readable h A ∧ hs_wal_sequence h = sequence ∧
      ∀ h1, like h h1 → hs_roots h1 = i_roots written → coherent (cached_in A) (hs_cache h1) → resettable h1 w A pending
  | Resetting => resettable h w A pending ∧ hs_wal_sequence h = sequence
  | _ => False
  end.

Definition thread_ok v (i : nat) q : Prop :=
  match q with
  | Idle => True
  | Looking name => v_call v i = Some (CallLoad name) ∧ v_map v ∈ v_seen v i
  | Hitting name record =>
      v_call v i = Some (CallLoad name) ∧ v_map v ∈ v_seen v i ∧ typed (v_map v) name ∧
      ∃ B a, B ∈ v_seen v i ∧ B !! name = Some a ∧ a_type a = value_type_name ∧ a_version a = rr_version record
  | Missed name => v_call v i = Some (CallLoad name) ∧ v_map v ∈ v_seen v i ∧ typed (v_map v) name
  | Starting tx updates =>
      v_call v i = Some (CallCommit tx updates) ∧ v_applied v i = false ∧ call_ok (CallCommit tx updates)
  | Validating tx updates =>
      v_call v i = Some (CallCommit tx updates) ∧ v_applied v i = false ∧ call_ok (CallCommit tx updates)
  | Appending tx updates =>
      v_call v i = Some (CallCommit tx updates) ∧ v_applied v i = false ∧ call_ok (CallCommit tx updates) ∧
      versions_match (v_map v) updates
  | Appended updates _ =>
      ∃ tx, v_call v i = Some (CallCommit tx updates) ∧ v_applied v i = false ∧ call_ok (CallCommit tx updates) ∧
        versions_match (v_map v) updates
  | Publishing _ _ | Measuring => v_applied v i = true
  | Entering => v_call v i = Some CallCheckpoint ∧ v_applied v i = false
  | Saving | Switching _ | Resetting => v_applied v i = true ∨ v_call v i = Some CallCheckpoint
  | Inspecting | Reopening _ | Rescanning _ | Scanning _ _ _ | Framing _ _ _ _ | Rechecking _ _ => True
  end.

Definition nobody (threads : list section) : Prop := ∀ j q, threads !! j = Some q → holds_commit q = false.
Record inv s v : Prop := {
  in_reliable : reliable (sy_store s);
  in_config : hs_config (sy_heap s) = config;
  in_poisoned : hs_poisoned (sy_heap s) = false;
  in_closed : hs_closed (sy_heap s) = v_closed v;
  in_history : history_ok (v_history v) (v_map v);
  in_seen i B : B ∈ v_seen v i → B ∈ v_history v;
  in_cache : coherent (ever (v_history v)) (hs_cache (sy_heap s));
  in_exclusive i j q q' : sy_threads s !! i = Some q → sy_threads s !! j = Some q' →
    holds_commit q = true → holds_commit q' = true → i = j;
  in_shared : ∃ p, (p = p0 ∨ p = ∅) ∧
    (nobody (sy_threads s) →
       heap_inv config (sy_heap s) (sy_store s) (v_map v) p ∧ hs_wal_sequence (sy_heap s) = v_sequence v) ∧
    ∀ i q, sy_threads s !! i = Some q → holds_commit q = true →
      phase q (sy_heap s) (sy_store s) (v_map v) (v_sequence v) p;
  in_threads i q : sy_threads s !! i = Some q → thread_ok v i q
}.

(** ** What does not disturb it *)
Lemma heap_state_ok_like h h1 w A image cj t :
  heap_state_ok config h w A image cj t → like h h1 → hs_roots h1 = hs_roots h →
  coherent (cached_in A) (hs_cache h1) → heap_state_ok config h1 w A image cj t.
Proof. intros [H1 H2 H3 H4 H5 H6 H7] [L1 L2] Hr Hc. split; try done; congruence. Qed.
Lemma heap_inv_like h h1 w A p :
  heap_inv config h w A p → like h h1 → hs_roots h1 = hs_roots h →
  coherent (cached_in A) (hs_cache h1) → heap_inv config h1 w A p.
Proof.
  intros (image & cj & t & Hh & Hp) Hl Hr Hc. exists image, cj, t. split; [|done]. by eapply heap_state_ok_like.
Qed.
Lemma like_trans h h1 h2 : like h h1 → like h1 h2 → like h h2.
Proof. intros [? ?] [? ?]. split; congruence. Qed.
Lemma readable_inv h w A p : heap_inv config h w A p → readable h A.
Proof.
  intros (image & cj & t & Hh & _) n. pose proof (commit_roots config h w A image cj t Hh n) as Hn.
  rewrite <- (hi_roots _ _ _ _ _ _ _ Hh) in Hn. destruct Hn as [r a [? ? _]|]; by constructor.
Qed.
Lemma readable_like h h1 A : readable h A → hs_roots h1 = hs_roots h → readable h1 A.
Proof. intros Hr E n. rewrite E. apply Hr. Qed.
Lemma phase_like q h h1 w A sequence p :
  phase q h w A sequence p → like h h1 → hs_roots h1 = hs_roots h → coherent (cached_in A) (hs_cache h1) →
  phase q h1 w A sequence p.
Proof.
  intros Hp Hl Hr Hc. pose proof (like_trans h h1) as Ht. pose proof Hl as [_ Hs].
  destruct q; simpl in *; try done; rewrite ?Hr, ?Hs.
  1,4,5: destruct Hp as [? ?]; split; [by eapply heap_inv_like|done].
  - destruct Hp as (H1 & H2 & H3 & H4). split_and!; [by eapply readable_like|done|done|].
    intros h2 L2. apply H4. by apply Ht.
  - destruct Hp as (H1 & H2 & H3 & H4). split_and!; [done|done|done|]. intros h2 L2. apply H4. by apply Ht.
  - destruct Hp as (H1 & H2 & H3). split_and!; [by eapply readable_like|done|]. intros h2 L2. apply H3. by apply Ht.
  - destruct Hp as ((image & cj & t & Hh & Ht1) & ?). split; [|done]. exists image, cj, t. split; [|done].
    by eapply heap_state_ok_like.
Qed.

Lemma inv_cached s v : inv s v → ∀ c, coherent (ever (v_history v)) c → coherent (cached_in (v_map v)) c.
Proof. intros Hi c Hc. eapply coherent_impl; [|done]. intros n ver p. apply ever_cached, Hi. Qed.

(** A section that touches at most the cache, of a thread without the commit lock. *)
Lemma frame_reader h w threads v i q q' h1 :
  inv (System h w threads) v → threads !! i = Some q → holds_commit q = false → holds_commit q' = false →
  like h h1 → hs_roots h1 = hs_roots h → hs_poisoned h1 = hs_poisoned h → hs_closed h1 = hs_closed h →
  coherent (ever (v_history v)) (hs_cache h1) → thread_ok v i q' →
  inv (System h1 w (<[i := q']> threads)) v.
Proof.
  intros Hi Hq Hn Hn' Hl Hr Hp Hcl Hc Ht. pose proof (inv_cached _ _ Hi _ Hc) as Hcc.
  destruct Hi as [I1 I2 I3 I4 I5 I6 I7 I8 (p & Hpp & Ifree & Iheld) I10]; simpl in *.
  split; simpl; try done; try (by destruct Hl; congruence).
  - intros j k q1 q2 Hj Hk H1 H2.
    apply list_lookup_insert_Some in Hj as [(<- & <- & _)|[_ Hj]]; [congruence|].
    apply list_lookup_insert_Some in Hk as [(<- & <- & _)|[_ Hk]]; [congruence|]. by eapply I8.
  - exists p. split; [done|]. split.
    + intros Hno. destruct Ifree as [Hinv Hs].
      { intros j q1 Hj. destruct (decide (j = i)) as [->|Hne]; [congruence|].
        apply (Hno j). by rewrite list_lookup_insert_ne. }
      split; [by eapply heap_inv_like|by destruct Hl; congruence].
    + intros j q1 [(<- & <- & _)|[_ Hj]]%list_lookup_insert_Some Hh; [congruence|].
      eapply phase_like; [by apply (Iheld j)|done..].
  - intros j q1 [(<- & <- & _)|[_ Hj]]%list_lookup_insert_Some; [done|]. by apply I10.
Qed.

(** The storage that a thread finds: it recovers to a map, and the journal is there. *)
Lemma becomes_empty_cache h roots w A p :
  becomes h roots w A p → heap_inv config (set_cache (new_cache 0) (set_roots roots h)) w A p.
Proof.
  intros Hb. apply Hb; [done|done|]. split; [by apply new_cache_ok|]. by intros m ver pl (it & e & ?%not_elem_of_nil & _).
Qed.
Definition on_disk w A : Prop :=
  ∃ image cj t, disk_state config w A image cj t ∧ file_of w (wal_path config) = Some cj.
Lemma heap_inv_on_disk h w A p : heap_inv config h w A p → on_disk w A.
Proof. intros (image & cj & t & Hh & _). exists image, cj, t. split; apply Hh. Qed.
(** A commit between its append and its publication is on the storage already. *)
Definition stored q A : amap := match q with Appended updates _ => a_commit updates A | _ => A end.
Lemma phase_on_disk q h w A sequence p : phase q h w A sequence p → on_disk w (stored q A).
Proof.
  intros Hp. destruct q; try done; simpl in Hp |- *.
  - by eapply heap_inv_on_disk, Hp.
  - destruct Hp as (_ & _ & _ & Hb). by eapply heap_inv_on_disk, becomes_empty_cache.
  - destruct Hp as (_ & _ & _ & Hb). by eapply heap_inv_on_disk, becomes_empty_cache.
  - by eapply heap_inv_on_disk, Hp.
  - by eapply heap_inv_on_disk, Hp.
  - destruct Hp as (_ & _ & Hb).
    destruct (Hb (set_cache (new_cache 0) (set_roots (i_roots written) h))) as (image & cj & t & Hh & _); [done|done| |].
    { split; [by apply new_cache_ok|]. by intros m ver pl (it & e & ?%not_elem_of_nil & _). }
    eapply heap_inv_on_disk. by exists image, cj, t.
  - destruct Hp as ((image & cj & t & Hh & _) & _). eapply heap_inv_on_disk. by exists image, cj, t.
Qed.
Lemma inv_on_disk s v :
  inv s v → ∃ A, on_disk (sy_store s) A ∧
    (A = v_map v ∨ ∃ i updates locations, sy_threads s !! i = Some (Appended updates locations) ∧
       A = a_commit updates (v_map v)).
Proof.
  intros Hi. destruct (in_shared _ _ Hi) as (p & _ & Hfree & Hheld).
  destruct (decide (Forall (λ q, holds_commit q = false) (sy_threads s))) as [Hall|Hex].
  - exists (v_map v). split; [|by left]. eapply heap_inv_on_disk, Hfree. intros j q Hj. by eapply Forall_lookup_1 in Hall.
  - apply not_Forall_Exists in Hex; [|apply _]. apply Exists_exists in Hex as (q & [j Hj]%list_elem_of_lookup & Hq).
    apply not_false_is_true in Hq. exists (stored q (v_map v)). split; [by eapply phase_on_disk, Hheld|].
    destruct q; try (by left). right. by exists j, updates, locations.
Qed.
(** The two files of the heap are as they were. *)
Definition same_heap_files w w1 : Prop :=
  file_of w1 (snap_path config) = file_of w (snap_path config) ∧
  file_of w1 (wal_path config) = file_of w (wal_path config).
Lemma heap_state_ok_files h w w1 A image cj t :
  same_heap_files w w1 → heap_state_ok config h w A image cj t → heap_state_ok config h w1 A image cj t.
Proof.
  intros [Es Ew] [H1 [D1 D2 D3 D4 D5 D6] H3 H4 H5 H6 H7]. split; try done; [split; by rewrite ?Es, ?Ew|by rewrite Ew].
Qed.
Lemma resettable_files h w w1 A p : same_heap_files w w1 → resettable h w A p → resettable h w1 A p.
Proof.
  intros Hs (image & cj & t & Hh & Ht). exists image, cj, t. split; [|done]. by eapply heap_state_ok_files.
Qed.
Lemma phase_files q h w w1 A sequence p :
  same_heap_files w w1 → phase q h w A sequence p → phase q h w1 A sequence p.
Proof.
  intros Hs. assert (∀ h A p, heap_inv config h w A p → heap_inv config h w1 A p) as Hinv.
  { intros h0 A0 p0'. apply heap_inv_files; apply Hs. }
  destruct q; try done; simpl.
  - intros [H1 H2]. split; [by apply Hinv|done].
  - intros (H1 & H2 & H3 & H4). split_and!; [done|done|done|]. intros h1 L R C. by apply Hinv, H4.
  - intros (H1 & H2 & H3 & H4). split_and!; [done|done|done|]. intros h1 L R C. by apply Hinv, H4.
  - intros [H1 H2]. split; [by apply Hinv|done].
  - intros [H1 H2]. split; [by apply Hinv|done].
  - intros (H1 & H2 & H3). split_and!; [done|done|]. intros h1 L R C. by eapply resettable_files, H3.
  - intros [H1 H2]. split; [by eapply resettable_files|done].
Qed.
(** A section that reads the storage, of a thread that checks it. *)
Lemma frame_checker h w threads v i q q' w1 :
  inv (System h w threads) v → threads !! i = Some q → holds_commit q = false → holds_commit q' = false →
  same_heap_files w w1 → reliable w1 → thread_ok v i q' →
  inv (System h w1 (<[i := q']> threads)) v.
Proof.
  intros Hi Hq Hn Hn' Hs Hrel Ht.
  assert (inv (System h w (<[i := q']> threads)) v) as Hi1.
  { apply (frame_reader h w threads v i q); try done. apply Hi. }
  destruct Hi1 as [I1 I2 I3 I4 I5 I6 I7 I8 (p & Hpp & Ifree & Iheld) I10]; simpl in *.
  split; simpl; try done. exists p. split; [done|]. split.
  - intros Hno. destruct (Ifree Hno) as [Hinv Hsq]. split; [|done]. by eapply heap_inv_files; [apply Hs..|].
  - intros j q1 Hj Hh. by eapply phase_files, Iheld.
Qed.

Definition alone_in (threads : list section) (i : nat) : Prop :=
  ∀ j q, j ≠ i → threads !! j = Some q → holds_commit q = false.
(** The fields that a section leaves alone. *)
Ltac unchanged Hi :=
  first [done|exact (in_reliable _ _ Hi)|exact (in_config _ _ Hi)|exact (in_poisoned _ _ Hi)
        |exact (in_closed _ _ Hi)|exact (in_cache _ _ Hi)|idtac].
(** What the thread that has, or may take, the commit lock finds and leaves. *)
Definition locked q h w v : Prop :=
  ∃ p, (p = p0 ∨ p = ∅) ∧
    if holds_commit q then phase q h w (v_map v) (v_sequence v) p
    else heap_inv config h w (v_map v) p ∧ hs_wal_sequence h = v_sequence v.
Lemma inv_locked h w threads v i q :
  inv (System h w threads) v → threads !! i = Some q → may_run threads i q → takes_commit q = true →
  alone_in threads i ∧ locked q h w v.
Proof.
  intros Hi Hq Hrun Ht. assert (alone_in threads i) as Ha.
  { intros j q1 Hj Hq1. by apply (Hrun j q1). }
  split; [done|]. destruct (in_shared _ _ Hi) as (p & Hp & Hfree & Hheld). exists p. split; [done|]. simpl in *.
  destruct (holds_commit q) eqn:Hh; [by apply (Hheld i)|]. apply Hfree. intros j q1 Hj.
  destruct (decide (j = i)) as [->|]; [congruence|by eapply Ha].
Qed.
Lemma frame_locked h w threads v i q q' h1 w1 :
  inv (System h w threads) v → threads !! i = Some q → alone_in threads i →
  reliable w1 → hs_config h1 = config → hs_poisoned h1 = false → hs_closed h1 = v_closed v →
  coherent (ever (v_history v)) (hs_cache h1) → thread_ok v i q' → locked q' h1 w1 v →
  inv (System h1 w1 (<[i := q']> threads)) v.
Proof.
  intros Hi Hq Ha Hrel Hcf Hpo Hcl Hc Ht (p & Hp & Hlk).
  destruct Hi as [I1 I2 I3 I4 I5 I6 I7 I8 _ I10]; simpl in *. pose proof (lookup_lt_Some _ _ _ Hq) as Hlt.
  assert (∀ j q1, <[i:=q']> threads !! j = Some q1 → holds_commit q1 = true → j = i ∧ q1 = q') as Honly.
  { intros j q1 [(<- & <- & _)|[Hne Hj]]%list_lookup_insert_Some Hh; [done|].
    exfalso. rewrite (Ha j q1) in Hh by done. done. }
  split; simpl; try done.
  - intros j k q1 q2 Hj Hk H1 H2. destruct (Honly j q1 Hj H1) as [-> _]. by destruct (Honly k q2 Hk H2) as [-> _].
  - exists p. split; [done|]. split.
    + intros Hno. rewrite (Hno i q') in Hlk; [done|]. by apply list_lookup_insert_eq.
    + intros j q1 Hj Hh. destruct (Honly j q1 Hj Hh) as [-> ->]. by rewrite Hh in Hlk.
  - intros j q1 [(<- & <- & _)|[_ Hj]]%list_lookup_insert_Some; [done|]. by apply I10.
Qed.

(** ** Section by section *)
(** Running section [q] in thread [i] is allowed and keeps the invariant. *)
Definition section_ok h w (threads : list section) v (i : nat) q : Prop :=
  let '(o, (h', w')) := run_section q (h, w) in
  legal v (event_of i q o) ∧ inv (System h' w' (<[i := next_section o]> threads)) (observe v (event_of i q o)).

Lemma inv_readable h w threads v :
  inv (System h w threads) v → (∀ j q, threads !! j = Some q → holds_roots q = false) → readable h (v_map v).
Proof.
  intros Hi Hno. destruct (in_shared _ _ Hi) as (p & _ & Hfree & Hheld). simpl in *.
  destruct (decide (Forall (λ q, holds_commit q = false) threads)) as [Hall|Hex].
  - destruct Hfree as [Hinv _]; [|by eapply readable_inv]. intros j q Hj. by eapply Forall_lookup_1 in Hall.
  - apply not_Forall_Exists in Hex; [|apply _]. apply Exists_exists in Hex as (q & [j Hj]%list_elem_of_lookup & Hq).
    apply not_false_is_true in Hq. specialize (Hheld j q Hj Hq). specialize (Hno j q Hj).
    destruct q; simpl in *; try done; try (by eapply readable_inv, Hheld); try apply Hheld.
    destruct Hheld as ((image & cj & t & Hh & Ht) & _). eapply readable_inv. by exists image, cj, t.
Qed.
Lemma looking_ok h w threads v i name :
  inv (System h w threads) v → threads !! i = Some (Looking name) → may_run threads i (Looking name) →
  section_ok h w threads v i (Looking name).
Proof.
  intros Hi Hq Hrun. destruct (in_threads _ _ Hi _ _ Hq) as [Hcall Hseen].
  assert (readable h (v_map v)) as Hread.
  { apply (inv_readable h w threads); [done|]. intros j q1 Hj.
    destruct (decide (j = i)) as [->|Hne]; [|by apply (Hrun j q1)].
    assert (q1 = Looking name) as -> by congruence. done. }
  assert (∀ q', holds_commit q' = false → thread_ok v i q' → inv (System h w (<[i := q']> threads)) v) as Hframe.
  { intros q' Hh Ht. apply (frame_reader h w threads v i (Looking name)); try done. apply Hi. }
  unfold section_ok. cbn [run_section fst]. unfold look. specialize (Hread name).
  destruct (hs_roots h !! name) as [record|]; inversion Hread as [? a [Hv Ht] E E'|E E']; subst.
  2:{ split; [split; [done|]|by apply Hframe]. exists (v_map v). split; [done|]. unfold load_result. by rewrite <- E'. }
  rewrite Ht. case_bool_decide as Hty; cbn [negb].
  - split; [done|]. apply Hframe; [done|]. split_and!; [done|done|by exists a|]. by exists (v_map v), a.
  - split; [split; [done|]|by apply Hframe]. exists (v_map v). split; [done|]. unfold load_result. rewrite <- E'.
    by rewrite bool_decide_false.
Qed.
Lemma hitting_ok h w threads v i name record :
  inv (System h w threads) v → threads !! i = Some (Hitting name record) →
  section_ok h w threads v i (Hitting name record).
Proof.
  intros Hi Hq. destruct (in_threads _ _ Hi _ _ Hq) as (Hcall & Hseen & Hty & B & a & HB & Ha & Ht & Hv).
  unfold section_ok. cbn [run_section]. unfold ends, on_cache.
  destruct (get_coherent (ever (v_history v)) (hs_cache h) name (rr_version record) (in_cache _ _ Hi))
    as (r & c & -> & Hc & Hr).
  assert (∀ q', holds_commit q' = false → thread_ok v i q' → inv (System (set_cache c h) w (<[i := q']> threads)) v) as Hframe.
  { intros q' Hh Htq. by apply (frame_reader h w threads v i (Hitting name record)). }
  destruct r as [bytes|].
  - split; [|by apply Hframe]. split; [done|]. exists B. split; [done|].
    destruct (Hr bytes eq_refl) as (B' & a' & HB' & Ha' & Hv' & <-).
    assert (a = a') as <-.
    { apply (ho_chain _ _ (in_history _ _ Hi) B B' name); [by eapply in_seen|done|done|done|congruence]. }
    by rewrite (load_result_typed _ _ _ Ha Ht), Hv.
  - split; [done|]. by apply Hframe.
Qed.

(** [load] after a cache miss: the current root, which the cache may keep. *)
Lemma load_uncached_run h w A p name a (P : string → Z → list byte → Prop) :
  heap_inv config h w A p → A !! name = Some a → reliable w → coherent P (hs_cache h) →
  P name (a_version a) (a_payload a) →
  ∃ c w', load_uncached name (h, w) = (Ok (LoadedRoot (a_version a) (Some (a_payload a)) true), (set_cache c h, w')) ∧
    coherent P c ∧ same_files w w' ∧ reliable w'.
Proof.
  intros Hinv Ha Hrel Hc HP. pose proof Hinv as (image & cj & t & Hh & _).
  pose proof (commit_roots config h w A image cj t Hh) as Hroots. rewrite <- (hi_roots _ _ _ _ _ _ _ Hh) in Hroots.
  unfold load_uncached, state. unfold mbind at 1, M_bind at 1, on_fst at 1, get at 1.
  pose proof (Hroots name) as Hn. rewrite Ha in Hn. inversion Hn as [r a' Hr E E'|]; subst.
  rewrite (hi_config _ _ _ _ _ _ _ Hh).
  destruct (load_payload_computes config cj r a w Hr (hi_journal _ _ _ _ _ _ _ Hh)) as (r1 & w1 & E1 & Hs1 & _ & Hok1).
  { by destruct (ds_wf _ _ _ _ _ _ (hi_disk _ _ _ _ _ _ _ Hh) _ _ Ha) as (_ & _ & _ & [_ ?]). }
  destruct (Hok1 Hrel) as [-> Hrel1]. unfold mbind, M_bind, on_snd. rewrite E1. unfold on_cache.
  rewrite (rh_version _ _ _ _ Hr).
  destruct (put_coherent P (hs_cache h) name (a_version a) (a_payload a) Hc HP) as (c & -> & Hc').
  by exists c, w1.
Qed.
Lemma missed_ok h w threads v i name :
  inv (System h w threads) v → threads !! i = Some (Missed name) → may_run threads i (Missed name) →
  section_ok h w threads v i (Missed name).
Proof.
  intros Hi Hq Hrun. destruct (in_threads _ _ Hi _ _ Hq) as (Hcall & Hseen & a & Ha & Ht).
  destruct (inv_locked _ _ _ _ _ _ Hi Hq Hrun eq_refl) as [Halone (p & Hp & Hinv & Hsq)].
  destruct (load_uncached_run h w (v_map v) p name a (ever (v_history v)) Hinv Ha (in_reliable _ _ Hi) (in_cache _ _ Hi))
    as (c & w1 & E & Hc & Hs & Hrel).
  { exists (v_map v), a. split_and!; [apply Hi|done..]. }
  unfold section_ok. cbn [run_section]. unfold ends. rewrite E. cbn [event_of legal observe next_section]. split.
  - split; [done|]. exists (v_map v). split; [done|]. by rewrite (load_result_typed _ _ _ Ha Ht).
  - apply (frame_locked h w threads v i (Missed name)); unchanged Hi. exists p. split; [done|]. simpl.
    split; [|done]. eapply heap_inv_same_files; [done|]. eapply heap_inv_like; [done|done|done|]. by apply (inv_cached _ _ Hi).
Qed.

Lemma starting_ok h w threads v i tx updates :
  inv (System h w threads) v → threads !! i = Some (Starting tx updates) →
  section_ok h w threads v i (Starting tx updates).
Proof.
  intros Hi Hq. pose proof (in_threads _ _ Hi _ _ Hq) as (Hcall & Happ & Hok).
  assert (∀ q', holds_commit q' = false → thread_ok v i q' → inv (System h w (<[i := q']> threads)) v) as Hframe.
  { intros q' Hh Htq. apply (frame_reader h w threads v i (Starting tx updates)); try done. apply Hi. }
  unfold section_ok. cbn [run_section]. case_bool_decide as Hu; cbn [event_of legal observe next_section may_end].
  - split; [|by apply Hframe]. right. right. exists tx. by rewrite Hcall, Hu.
  - split; [done|]. by apply Hframe.
Qed.
Lemma validating_ok h w threads v i tx updates :
  inv (System h w threads) v → threads !! i = Some (Validating tx updates) →
  may_run threads i (Validating tx updates) → section_ok h w threads v i (Validating tx updates).
Proof.
  intros Hi Hq Hrun. pose proof (in_threads _ _ Hi _ _ Hq) as (Hcall & Happ & Hok).
  destruct (inv_locked _ _ _ _ _ _ Hi Hq Hrun eq_refl) as [Halone Hl].
  assert (∀ q', thread_ok v i q' → locked q' h w v → inv (System h w (<[i := q']> threads)) v) as Hframe.
  { intros q' Ht Hl'. apply (frame_locked h w threads v i (Validating tx updates)); unchanged Hi. }
  destruct Hl as (p & Hp & Hinv & Hsq).
  assert (inv (System h w (<[i := Idle]> threads)) v) as Hidle.
  { apply Hframe; [done|]. by exists p. }
  pose proof (readable_inv _ _ _ _ Hinv) as Hread.
  assert (∀ n, version_of (hs_roots h) n = default 0 (a_version <$> v_map v !! n)) as Hver.
  { intros n. unfold version_of. specialize (Hread n). inversion Hread as [r a [E _]|]; simpl; [by rewrite E|done]. }
  unfold section_ok. cbn [run_section fst]. unfold validate. pose proof (in_closed _ _ Hi) as Hclosed.
  pose proof (in_poisoned _ _ Hi) as Hpois. simpl in Hclosed, Hpois. rewrite Hpois.
  destruct (hs_closed h) eqn:Hcl; [split; [|done]; split; [done|by left]|].
  destruct (check_versions (hs_roots h) updates) as [[]|e] eqn:Hcheck.
  - split; [done|]. apply check_versions_ok in Hcheck. apply Hframe; [|by exists p].
    split_and!; [done|done|done|]. eapply Forall_impl; [exact Hcheck|]. simpl. intros u <-. by rewrite Hver.
  - apply check_versions_throw in Hcheck as (u & Hu & -> & Hne). rewrite Hver in Hne.
    split; [|done]. split; [done|right]. by exists tx, updates, u.
Qed.
Lemma appending_ok h w threads v i tx updates :
  inv (System h w threads) v → threads !! i = Some (Appending tx updates) →
  may_run threads i (Appending tx updates) → v_sequence v ≤ room → section_ok h w threads v i (Appending tx updates).
Proof.
  intros Hi Hq Hrun Hroom. pose proof (in_threads _ _ Hi _ _ Hq) as (Hcall & Happ & Hok & Hm).
  destruct (inv_locked _ _ _ _ _ _ Hi Hq Hrun eq_refl) as [Halone (p & Hp & Hinv & Hsq)].
  pose proof Hok as (Htx & Hpend & Hwf & Hnames & Hgrow & Htypes & Hsize).
  assert (p !! tx = None) as Hpend' by (destruct Hp as [->| ->]; [done|apply lookup_empty]).
  assert (valid_updates h updates) as Hvu by (split; [done|done|done|lia]).
  pose proof (readable_inv _ _ _ _ Hinv) as Hread.
  destruct Hinv as (image & cj & t & Hh & Ht). subst p.
  destruct (sequence_bounds config h w (v_map v) image cj t updates Hh Hvu) as [Hq0 Hqb].
  pose proof (hi_sequence _ _ _ _ _ _ _ Hh) as Hseq.
  destruct (journal_append_spec (wal_of config) tx cj (s_last_sequence t) updates w
    (hi_journal _ _ _ _ _ _ _ Hh) Hq0 Hqb) as (r1 & w1 & E1 & Hb1 & Hr1 & Hok1).
  destruct (Hok1 (in_reliable _ _ Hi)) as [Hrel1 ->]. destruct Hr1 as [_ Ew].
  unfold section_ok. cbn [run_section]. unfold ends, state, mbind, M_bind at 1, on_fst at 1, get, catch, on_wal.
  rewrite (hi_config _ _ _ _ _ _ _ Hh), Hseq, E1. cbn [event_of legal observe next_section]. split; [done|].
  apply (frame_locked h w threads v i (Appending tx updates)); unchanged Hi.
  { exists tx. by split_and!. }
  exists (s_pending t). split; [done|]. simpl. split_and!.
  - by eapply readable_like.
  - by rewrite update_locs_length.
  - lia.
  - intros h1 [Hc1 Hs1] Hr1 Hca.
    pose proof (published_inv config h w (v_map v) image cj t tx updates Hh Htx Hpend' Hvu Hm (hs_cache h1) w1) as Hpub.
    eapply heap_inv_like; [apply Hpub| | |done]; [by apply Hb1; destruct (paths_differ config)|done|done|split; simpl in *; congruence|done].
Qed.

(** Taking the roots lock to publish is where the commit takes place. *)
Lemma thread_ok_committed v i j updates q :
  j ≠ i → holds_commit q = false → NoDup (u_name <$> updates) →
  Forall (λ u, u_type u = value_type_name) updates → thread_ok v j q → thread_ok (observe v (Committed i updates)) j q.
Proof.
  intros Hne Hh Hd Ht. destruct q; try done; simpl; rewrite ?fn_lookup_insert_ne by done; try done.
  - intros [? _]. split; [done|by left].
  - intros (? & _ & Hty & B & a & HB & ?). split_and!; [done|by left|by apply typed_commit|].
    exists B, a. split; [by right|done].
  - intros (? & _ & Hty). split_and!; [done|by left|by apply typed_commit].
Qed.
Lemma appended_ok h w threads v i updates locations :
  inv (System h w threads) v → threads !! i = Some (Appended updates locations) →
  may_run threads i (Appended updates locations) → section_ok h w threads v i (Appended updates locations).
Proof.
  intros Hi Hq Hrun. pose proof (in_threads _ _ Hi _ _ Hq) as (tx & Hcall & Happ & Hok & Hm).
  destruct (inv_locked _ _ _ _ _ _ Hi Hq Hrun eq_refl) as [Halone (p & Hp & Hread & Hlen & Hsq & Hbec)].
  pose proof Hok as (_ & _ & _ & Hnames & Hgrow & Htypes & _).
  unfold section_ok. cbn [run_section event_of next_section]. split; [split_and!; [done|done|by exists tx]|].
  destruct Hi as [I1 I2 I3 I4 I5 I6 I7 I8 _ I10]; simpl in *.
  assert (∀ j q1, <[i:=Publishing updates locations]> threads !! j = Some q1 → holds_commit q1 = true →
    j = i ∧ q1 = Publishing updates locations) as Honly.
  { intros j q1 [(<- & <- & _)|[Hne Hj]]%list_lookup_insert_Some Hh; [done|].
    exfalso. rewrite (Halone j q1) in Hh by done. done. }
  split; simpl; try done.
  - by apply history_ok_commit.
  - intros j B [->|HB]%elem_of_cons; [by left|right]. by eapply I6.
  - eapply coherent_impl; [|exact I7]. intros n ver pl (B & a & HB & ?). exists B, a. split; [by right|done].
  - intros j k q1 q2 Hj Hk H1 H2. destruct (Honly j q1 Hj H1) as [-> _]. by destruct (Honly k q2 Hk H2) as [-> _].
  - exists p. split; [done|]. split.
    + intros Hno. specialize (Hno i (Publishing updates locations)). simpl in Hno.
      rewrite list_lookup_insert_eq in Hno by (by eapply lookup_lt_Some). by specialize (Hno eq_refl).
    + intros j q1 Hj Hh. destruct (Honly j q1 Hj Hh) as [-> ->]. simpl. split_and!; [done|done| |done].
      apply Forall_forall. intros u Hu. by apply a_commit_lookup.
  - intros j q1 [(<- & <- & _)|[Hne Hj]]%list_lookup_insert_Some; simpl; [by rewrite fn_lookup_insert|].
    apply (thread_ok_committed v i j updates); [done|by apply (Halone j)|done|done|by apply I10].
Qed.
Lemma publishing_ok h w threads v i updates locations :
  inv (System h w threads) v → threads !! i = Some (Publishing updates locations) →
  may_run threads i (Publishing updates locations) → section_ok h w threads v i (Publishing updates locations).
Proof.
  intros Hi Hq Hrun. pose proof (in_threads _ _ Hi _ _ Hq) as Happ. simpl in Happ.
  destruct (inv_locked _ _ _ _ _ _ Hi Hq Hrun eq_refl) as [Halone (p & Hp & Hlen & Hsq & Hall & Hbec)].
  destruct updates as [|u us], locations as [|l ls]; try done.
  - unfold section_ok. cbn [run_section]. unfold ends, update, on_fst, modify. cbn [event_of legal observe next_section].
    split; [done|]. apply (frame_locked h w threads v i (Publishing [] [])); unchanged Hi.
    exists p. split; [done|]. simpl. split; [|done]. apply Hbec; [done|done|]. apply (inv_cached _ _ Hi), Hi.
  - apply Forall_cons in Hall as [Hu Hus]. injection Hlen as Hlen.
    unfold section_ok. cbn [run_section].
    unfold ends, publish_one, update, on_fst, modify, on_cache, mbind, M_bind. simpl hs_cache.
    destruct (put_coherent (ever (v_history v)) (hs_cache h) (u_name u) (u_new u) (u_payload u) (in_cache _ _ Hi))
      as (c & Ec & Hc). { eexists _, _. split_and!; [apply Hi|exact Hu|done|done]. }
    rewrite Ec. cbn [event_of legal observe next_section]. split; [done|].
    apply (frame_locked h w threads v i (Publishing (u :: us) (l :: ls))); unchanged Hi.
    exists p. split; [done|]. simpl. split_and!; [done|done|done|]. intros h1 [L1 L2] Hr1. apply Hbec; [done|]. by rewrite Hr1.
Qed.
Lemma measuring_ok h w threads v i :
  inv (System h w threads) v → threads !! i = Some Measuring → may_run threads i Measuring →
  section_ok h w threads v i Measuring.
Proof.
  intros Hi Hq Hrun. pose proof (in_threads _ _ Hi _ _ Hq) as Happ. simpl in Happ.
  destruct (inv_locked _ _ _ _ _ _ Hi Hq Hrun eq_refl) as [Halone (p & Hp & Hinv & Hsq)].
  pose proof Hinv as (image & cj & t & Hh & _).
  destruct (computes_size (wal_path config) cj w (hi_journal _ _ _ _ _ _ _ Hh)) as (r & w1 & E & Hs & _ & Hok).
  destruct (Hok (in_reliable _ _ Hi)) as [-> Hrel].
  assert (∀ q', thread_ok v i q' → (∀ A sq p, phase q' h w1 A sq p = (heap_inv config h w1 A p ∧ hs_wal_sequence h = sq)) ∨ holds_commit q' = false →
    inv (System h w1 (<[i := q']> threads)) v) as Hframe.
  { intros q' Ht Hph. apply (frame_locked h w threads v i Measuring); unchanged Hi.
    pose proof (heap_inv_same_files _ _ _ _ _ _ Hs Hinv) as Hinv1. exists p. split; [done|].
    destruct Hph as [Hph| ->]; [rewrite Hph; by destruct (holds_commit q')|done]. }
  unfold section_ok. cbn [run_section fst]. unfold ends, state, mbind, M_bind, on_fst, get, on_snd.
  rewrite (hi_config _ _ _ _ _ _ _ Hh). change (j_path (wal_of config)) with (wal_path config). rewrite E.
  destruct (_ >=? _); cbn [event_of legal observe next_section may_end].
  - split; [done|]. apply Hframe; [by left|by left].
  - split; [by left|]. apply Hframe; [done|by right].
Qed.
Lemma entering_ok h w threads v i :
  inv (System h w threads) v → threads !! i = Some Entering → may_run threads i Entering →
  section_ok h w threads v i Entering.
Proof.
  intros Hi Hq Hrun. pose proof (in_threads _ _ Hi _ _ Hq) as [Hcall Happ].
  destruct (inv_locked _ _ _ _ _ _ Hi Hq Hrun eq_refl) as [Halone (p & Hp & Hinv & Hsq)].
  assert (∀ q', thread_ok v i q' → locked q' h w v → inv (System h w (<[i := q']> threads)) v) as Hframe.
  { intros q' Ht Hl'. apply (frame_locked h w threads v i Entering); unchanged Hi. }
  unfold section_ok. cbn [run_section fst]. pose proof (in_closed _ _ Hi) as Hclosed. simpl in Hclosed.
  destruct (hs_closed h) eqn:Hcl; cbn [event_of legal observe next_section may_end].
  - split; [split; [done|by left]|]. apply Hframe; [done|by exists p].
  - split; [done|]. apply Hframe; [by right|by exists p].
Qed.

Lemma saving_ok h w threads v i :
  inv (System h w threads) v → threads !! i = Some Saving → may_run threads i Saving →
  saveable (v_map v) → section_ok h w threads v i Saving.
Proof.
  intros Hi Hq Hrun Hsave. pose proof (in_threads _ _ Hi _ _ Hq) as Happ. simpl in Happ.
  destruct (inv_locked _ _ _ _ _ _ Hi Hq Hrun eq_refl) as [Halone (p & Hp & Hinv & Hsq)].
  pose proof (readable_inv _ _ _ _ Hinv) as Hread. destruct Hinv as (image & cj & t & Hh & Ht).
  set (now := Image (hs_roots h) (hs_wal_sequence h)).
  destruct (checkpoint_ordered config h w (v_map v) image cj t Hh Hsave) as [roots Ho]. fold now in Ho.
  destruct (save_spec (snapshot_of config) (read_payload config) _ w now roots Ho
    (checkpoint_reads config h w (v_map v) image cj t Hh roots Ho)) as (r1 & w1 & E1 & Hcase & Hok1).
  destruct (Hok1 (in_reliable _ _ Hi)) as [[x ->] Hrel].
  destruct Hcase as [[_ [e [=]]]|[Hrep [[= ->]|[e [=]]]]].
  destruct (saved_state config h w (v_map v) image cj t Hh Hsave roots w1 Ho Hrep) as (t' & Hd & T1 & T2 & T3 & T4 & T5).
  unfold section_ok. cbn [run_section]. unfold ends, state, mbind, M_bind, on_fst, get, on_snd.
  rewrite (hi_config _ _ _ _ _ _ _ Hh). fold now. rewrite E1. cbn [event_of legal observe next_section]. split; [done|].
  apply (frame_locked h w threads v i Saving); unchanged Hi.
  exists p. split; [done|]. simpl. split_and!; [done|done|]. intros h1 [L1 L2] Hr1 Hc1.
  eexists _, cj, t'. split; [split; [..|exact Hc1]|].
  - rewrite L1. apply (hi_config _ _ _ _ _ _ _ Hh).
  - exact Hd.
  - destruct Hrep as (_ & _ & Hkeep). rewrite Hkeep; [apply Hh|by apply not_eq_sym, paths_differ|by apply not_eq_sym, paths_differ].
  - rewrite T4, T5. apply Hh.
  - by rewrite Hr1, T1.
  - by rewrite L2, T2.
  - split_and!; [by rewrite T3|done|done|]. intros n r Hn. simpl in Hn. destruct (ordered_roots_spec _ _ Ho) as (_ & _ & Hdup & _).
    by destruct (saved_roots_inv _ _ _ _ Hdup Hn) as (x & _ & _ & ->).
Qed.
Lemma switching_ok h w threads v i written :
  inv (System h w threads) v → threads !! i = Some (Switching written) → may_run threads i (Switching written) →
  section_ok h w threads v i (Switching written).
Proof.
  intros Hi Hq Hrun. pose proof (in_threads _ _ Hi _ _ Hq) as Happ. simpl in Happ.
  destruct (inv_locked _ _ _ _ _ _ Hi Hq Hrun eq_refl) as [Halone (p & Hp & Hread & Hsq & Hbec)].
  unfold section_ok. cbn [run_section]. unfold ends, update, on_fst, modify. cbn [event_of legal observe next_section].
  split; [done|]. apply (frame_locked h w threads v i (Switching written)); unchanged Hi.
  exists p. split; [done|]. simpl. split; [|done]. apply Hbec; [done|done|]. apply (inv_cached _ _ Hi), Hi.
Qed.
Lemma resetting_ok h w threads v i :
  inv (System h w threads) v → threads !! i = Some Resetting → may_run threads i Resetting →
  section_ok h w threads v i Resetting.
Proof.
  intros Hi Hq Hrun. pose proof (in_threads _ _ Hi _ _ Hq) as Happ. simpl in Happ.
  destruct (inv_locked _ _ _ _ _ _ Hi Hq Hrun eq_refl) as [Halone (p & Hp & (image & cj & t & Hh & Ht & T1 & T2 & T3) & Hsq)].
  destruct (reset_spec config h w (v_map v) image cj t Hh T1 T2 T3) as (r & w1 & E & _ & _ & Hr & Hok).
  destruct (Hok (in_reliable _ _ Hi)) as [[[] ->] Hrel]. destruct (Hr eq_refl) as [Hinv _].
  unfold section_ok. cbn [run_section]. unfold ends, state, mbind, M_bind, on_fst, get, on_snd.
  rewrite (hi_config _ _ _ _ _ _ _ Hh), E. cbn [event_of legal observe next_section may_end]. split.
  - destruct Happ; auto.
  - apply (frame_locked h w threads v i Resetting); unchanged Hi. exists ∅. split; [by right|done].
Qed.

(** The sections of [integrity]: whatever they find, they change no file. *)
Lemma same_files_heap w w1 : same_files w w1 → same_heap_files w w1.
Proof. intros Hs. split; apply Hs. Qed.
Definition checks q : bool :=
  match q with
  | Inspecting | Reopening _ | Rescanning _ | Scanning _ _ _ | Framing _ _ _ _ | Rechecking _ _ => true
  | _ => false
  end.
Definition checked h (w : W) (x : outcome * (heap_state * W)) : Prop :=
  ∃ o w1, x = (o, (h, w1)) ∧ same_files w w1 ∧ reliable w1 ∧
    ((∃ q', o = Goto q' ∧ checks q' = true) ∨ ∃ report, o = Reported_ report).
Lemma checked_ends {X} (m : heap_config → M W X) (next : X → outcome) h w :
  reliable w → harmless (m (hs_config h)) w →
  (∀ a, (∃ q', next a = Goto q' ∧ checks q' = true) ∨ ∃ report, next a = Reported_ report) →
  checked h w (ends (h ← state; on_snd (m (hs_config h))) next alarm (h, w)).
Proof.
  intros Hr Hm Hn. rewrite reads_ends. destruct (Hm Hr) as [Hr1 Hs1]. destruct (m (hs_config h) w) as [[a|e] w1].
  - by exists (next a), w1.
  - exists (alarm e), w1. split_and!; [done|done|done|]. right. by eexists.
Qed.
Lemma harmless_result {X} (r : result X) w : harmless (lift_result (S:=W) r) w.
Proof. intros Hr. split; [done|apply same_files_refl]. Qed.
Lemma harmless_scan_prefix j n (t : scan) w : harmless (scan_prefix (W:=W) j n t) w.
Proof.
  unfold scan_prefix.
  repeat first [apply harmless_ret|apply harmless_read|apply harmless_result|apply harmless_bind; [|intros]|case_match].
Qed.
Lemma harmless_scan_frame j snap (t : scan) m w : harmless (scan_frame (W:=W) j snap t m) w.
Proof. apply harmless_bind; [apply harmless_read|]. intros. apply harmless_result. Qed.
Lemma checks_checked h w threads v i q :
  inv (System h w threads) v → threads !! i = Some q → checks q = true → checked h w (run_section q (h, w)).
Proof.
  intros Hi Hq Hc. destruct (inv_on_disk _ _ Hi) as (A & (image & cj & t & Hd & Hw) & _). simpl in Hw.
  pose proof (in_reliable _ _ Hi) as Hrel. pose proof (in_config _ _ Hi) as Hcf. simpl in Hrel, Hcf.
  destruct q as [| | | | | | | | | | | | | | |image'|image'|image' n t'|image' n t' m|[|r records] recovered]; try done; cbn [run_section].
  - apply (checked_ends (λ c, snapshot_load (snapshot_of c))); [done|eapply harmless_computes, snapshot_load_parse|].
    intros a. left. by eexists.
  - apply (checked_ends (λ c, open_file (j_path (wal_of c)) true)); [done| |intros a; left; by eexists].
    rewrite Hcf. eapply harmless_computes, computes_open, Hw.
  - apply (checked_ends (λ c, file_size (j_path (wal_of c)))); [done| |intros a; left; by eexists].
    rewrite Hcf. eapply harmless_computes, computes_size, Hw.
  - apply (checked_ends (λ c, scan_prefix (wal_of c) n t')); [done|apply harmless_scan_prefix|].
    intros [m|]; left; by eexists.
  - apply (checked_ends (λ c, scan_frame (wal_of c) (i_sequence image') t' m)); [done|apply harmless_scan_frame|].
    intros a. left. by eexists.
  - apply (checked_ends (λ c, file_size (j_path (wal_of c)))); [done| |intros a; right; by eexists].
    rewrite Hcf. eapply harmless_computes, computes_size, Hw.
  - apply (checked_ends (λ c, load_payload c (rr_payload r))); [done|apply load_payload_harmless|].
    intros a. left. by eexists.
Qed.
Lemma checking_ok h w threads v i q :
  inv (System h w threads) v → threads !! i = Some q → checks q = true → section_ok h w threads v i q.
Proof.
  intros Hi Hq Hc. destruct (checks_checked h w threads v i q Hi Hq Hc) as (o & w1 & E & Hs & Hrel & Ho).
  unfold section_ok. rewrite E.
  assert (legal v (event_of i q o) ∧ observe v (event_of i q o) = v) as [Hl ->].
  { by destruct Ho as [(q' & -> & _)|[report ->]]; destruct q. }
  assert (holds_commit (next_section o) = false ∧ thread_ok v i (next_section o)) as [Hh Ht].
  { destruct Ho as [(q' & -> & Hq')|[report ->]]; [by destruct q'|done]. }
  split; [done|]. pose proof (same_files_heap w w1 Hs). apply (frame_checker h w threads v i q); try done. by destruct q.
Qed.

Lemma section_step h w threads v i q :
  inv (System h w threads) v → threads !! i = Some q → q ≠ Idle → may_run threads i q →
  v_sequence v ≤ room → saveable (v_map v) → section_ok h w threads v i q.
Proof.
  intros Hi Hq Hne Hrun Hroom Hsave. destruct q; [done|..].
  - by apply looking_ok.
  - by apply hitting_ok.
  - by apply missed_ok.
  - by apply starting_ok.
  - by apply validating_ok.
  - by apply appending_ok.
  - by apply appended_ok.
  - by apply publishing_ok.
  - by apply measuring_ok.
  - by apply entering_ok.
  - by apply saving_ok.
  - by apply switching_ok.
  - by apply resetting_ok.
  - by apply checking_ok.
  - by apply checking_ok.
  - by apply checking_ok.
  - by apply checking_ok.
  - by apply checking_ok.
  - by apply checking_ok.
Qed.

(** ** Executions *)
(** A new call. *)
Lemma called_ok h w threads v i c :
  inv (System h w threads) v → threads !! i = Some Idle → call_ok c →
  inv (System h w (<[i := entry c]> threads)) (observe v (Called i c)).
Proof.
  intros Hi Hq Hc.
  assert (holds_commit (entry c) = false) as Hh by by destruct c.
  destruct Hi as [I1 I2 I3 I4 I5 I6 I7 I8 (p & Hp & Ifree & Iheld) I10]; simpl in *.
  assert (∀ j q1, <[i:=entry c]> threads !! j = Some q1 → holds_commit q1 = true → threads !! j = Some q1) as Hold.
  { intros j q1 [(<- & <- & _)|[Hne Hj]]%list_lookup_insert_Some Hh1; [congruence|done]. }
  split; simpl; try done.
  - intros j B. destruct (decide (j = i)) as [->|]; [|rewrite fn_lookup_insert_ne by done; apply I6].
    rewrite fn_lookup_insert. intros ->%list_elem_of_singleton. apply I5.
  - intros j k q1 q2 Hj Hk H1 H2. apply (I8 j k q1 q2); auto.
  - exists p. split; [done|]. split; [|by eauto]. intros Hno. apply Ifree. intros j q1 Hj.
    destruct (decide (j = i)) as [->|]; [by assert (q1 = Idle) as -> by congruence|].
    apply (Hno j). by rewrite list_lookup_insert_ne.
  - intros j q1 [(<- & <- & _)|[Hne Hj]]%list_lookup_insert_Some.
    + destruct c; simpl; rewrite ?fn_lookup_insert; [|split; [done|split; [done|exact Hc]]|done|done].
      split; [done|by left].
    + specialize (I10 j q1 Hj). destruct q1; simpl in *; rewrite ?fn_lookup_insert_ne by done; done.
Qed.
(** The flags and the counter of transactions. *)
Lemma flags_ok h w threads v h1 e :
  inv (System h w threads) v → like h h1 → hs_roots h1 = hs_roots h → hs_cache h1 = hs_cache h →
  hs_poisoned h1 = hs_poisoned h → hs_closed h1 = v_closed (observe v e) →
  (∀ i c, e ≠ Called i c) → (∀ i us, e ≠ Committed i us) → inv (System h1 w threads) (observe v e).
Proof.
  intros Hi Hl Hr Hc Hp Hcl Hn1 Hn2. pose proof (inv_cached _ _ Hi _ (in_cache _ _ Hi)) as Hcc.
  destruct Hi as [I1 I2 I3 I4 I5 I6 I7 I8 (p & Hpp & Ifree & Iheld) I10]; simpl in *.
  assert (∃ b, observe v e = View (v_map v) (v_history v) (v_seen v) (v_call v) (v_applied v) b (v_sequence v)) as [b E].
  { destruct e; simpl; try (by exists (v_closed v); destruct v); [by destruct (Hn1 i c)|by destruct (Hn2 i updates)|by exists true]. }
  rewrite E in *. simpl in Hcl. pose proof Hl as [L1 L2]. rewrite <- Hc in Hcc.
  split; simpl; try done; try congruence.
  - exists p. split; [done|]. split.
    + intros Hno. destruct (Ifree Hno) as [Hinv Hs]. split; [by eapply heap_inv_like|congruence].
    + intros i q Hq Hh. eapply phase_like; [by apply (Iheld i)|done..].
Qed.

Lemma step_ok s v e s' :
  inv s v → step s e s' → (∀ i c, e = Called i c → call_ok c) → v_sequence v ≤ room → saveable (v_map v) →
  legal v e ∧ inv s' (observe v e).
Proof.
  intros Hi Hs Hcall Hroom Hsave. destruct Hs as [h w threads i c Hq|h w threads i q o h' w' Hq Hne Hrun E|
    h w threads i tx h' w' Hq E|h w threads h' w' E].
  - split; [done|]. apply called_ok; [done|done|by eapply Hcall].
  - pose proof (section_step h w threads v i q Hi Hq Hne Hrun Hroom Hsave) as Hok. unfold section_ok in Hok.
    by rewrite E in Hok.
  - split; [done|]. revert E. unfold begin, mbind, M_bind, state, update, on_fst, get, modify.
    pose proof (in_closed _ _ Hi) as Hcl. simpl in Hcl. destruct (hs_closed h) eqn:Ec; [done|]. intros [= _ <- <-].
    apply (flags_ok h); try done. simpl. by rewrite Ec.
  - split; [done|]. revert E. unfold close, update, on_fst, modify. intros [= <- <-]. by apply (flags_ok h).
Qed.
Lemma v_sequence_mono v e : v_sequence v ≤ v_sequence (observe v e).
Proof. destruct e; simpl; try lia. pose proof (size_nonneg updates). lia. Qed.
Lemma v_history_mono v e B : B ∈ v_history v → B ∈ v_history (observe v e).
Proof. destruct e; simpl; try done. by right. Qed.

(** What the theorems ask of the calls of an execution. *)
Definition admissible v (events : list event) : Prop :=
  (∀ i c, Called i c ∈ events → call_ok c) ∧ v_sequence (view_after v events) ≤ room ∧
  ∀ B, B ∈ v_history (view_after v events) → saveable B.
Lemma admissible_snoc v events e : admissible v (events ++ [e]) → admissible v events.
Proof.
  intros (H1 & H2 & H3). rewrite view_after_snoc in *. split_and!.
  - intros i c Hc. apply (H1 i). apply elem_of_app. by left.
  - pose proof (v_sequence_mono (view_after v events) e). lia.
  - intros B HB. by apply H3, v_history_mono.
Qed.
Lemma execution_ok s v events s' :
  inv s v → execution s events s' → admissible v events →
  legal_run v events ∧ inv s' (view_after v events).
Proof.
  intros Hi He. induction He as [|events s1 e s2 He IH Hs]; intros Ha; [done|].
  destruct (IH (admissible_snoc _ _ _ Ha)) as [Hrun Hi1].
  pose proof (admissible_snoc _ _ _ Ha) as (_ & Hroom & Hsave).
  destruct (step_ok s1 _ e s2 Hi1 Hs) as [Hl Hi2]; [|done|apply Hsave, Hi1|].
  - intros i c ->. destruct Ha as [H1 _]. apply (H1 i). apply elem_of_app. right. by left.
  - rewrite legal_run_snoc, view_after_snoc. done.
Qed.

(** A heap that was just opened, with idle threads. *)
Lemma inv_initial h w A n :
  heap_inv config h w A p0 → reliable w → hs_poisoned h = false →
  coherent (ever [A]) (hs_cache h) →
  inv (System h w (replicate n Idle)) (initial_view A (hs_closed h) (hs_wal_sequence h)).
Proof.
  intros Hinv Hrel Hpo Hc.
  assert (∀ i q, replicate n Idle !! i = Some q → q = Idle) as Hidle.
  { intros i q Hq. by apply lookup_replicate in Hq as [-> _]. }
  split; simpl; try done.
  - by destruct Hinv as (? & ? & ? & [? _ _ _ _ _ _] & _).
  - apply history_ok_initial.
  - by intros i B ?%elem_of_nil.
  - by intros i j q q' ->%Hidle.
  - exists p0. split; [by left|]. split; [done|]. by intros i q ->%Hidle.
  - by intros i q ->%Hidle.
Qed.
End invariant.
