(* ===== verification/Transaction.v ===== *)
(** * Transactions: [transaction.hpp].

    A transaction loads roots on demand, binds each to itself, hands out references to them (the
    tokens), is told about changes through [changed], and commits the roots that changed. *)
From S2P Require Import Prelude.
From S2P Require Import Binary.
From S2P Require Import OrderedMap.
From S2P Require Import Value.
From S2P Require Import Observer.
From S2P Require Import Codec.
From S2P Require Import Storage.
From S2P Require Import Journal.
From S2P Require Import Heap.

(** ** Data *)
Record working_root := WorkingRoot {
  wr_name : string; wr_expected : Z; wr_dirty : bool; wr_data : node }.
(** A transaction object, with its [implementation]; [tr_self] is the identity of the object, by
    which the data it hands out know it as their observer. *)
Record transaction := Transaction {
  tr_self : Z;
  tr_id : Z;
  tr_active : bool;
  tr_roots : list working_root;
  tr_by_name : gmap string Z
}.

Definition set_dirty (r : working_root) : working_root :=
  WorkingRoot (wr_name r) (wr_expected r) true (wr_data r).
Definition set_data (n : node) (r : working_root) : working_root :=
  WorkingRoot (wr_name r) (wr_expected r) (wr_dirty r) n.
Definition set_working (l : list working_root) (t : transaction) : transaction :=
  Transaction (tr_self t) (tr_id t) (tr_active t) l (tr_by_name t).
Definition set_active (b : bool) (t : transaction) : transaction :=
  Transaction (tr_self t) (tr_id t) b (tr_roots t) (tr_by_name t).

(** ** Operations *)

(** [transaction::changed]: marks the root of the event, if it is one of this transaction. *)
Definition changed (event : change_event) (t : transaction) : transaction :=
  if negb (tr_active t) || (ev_root event =? 0) || (ev_root event >? size (tr_roots t)) then t
  else set_working (alter set_dirty (Z.to_nat (ev_root event - 1)) (tr_roots t)) t.
(** A sent event arrives when this transaction is the observer it was sent to. *)
Definition deliver (s : sent) (t : transaction) : transaction :=
  if s.1 =? tr_self t then changed s.2 t else t.
(** An operation on the tree behind a reference, and the delivery of its events. *)
Definition mutate (token : Z) (f : node → node * list sent) (t : transaction) : transaction :=
  match tr_roots t !! Z.to_nat (token - 1) with
  | None => t
  | Some r =>
      let '(n, events) := f (wr_data r) in
      foldl (λ t s, deliver s t)
        (set_working (<[Z.to_nat (token - 1) := set_data n r]> (tr_roots t)) t) events
  end.
(** What is read through a reference. *)
Definition data_of (token : Z) (t : transaction) : option value :=
  (λ r, content (wr_data r)) <$> tr_roots t !! Z.to_nat (token - 1).

Definition abort (t : transaction) : transaction := set_active false t.
Definition active (t : transaction) : bool := tr_active t.
Definition id (t : transaction) : Z := tr_id t.
Definition dirty_roots (t : transaction) : Z := size (filter (λ r, wr_dirty r = true) (tr_roots t)).
(** The defaulted move constructor: the implementation changes hands, the object is another. *)
Definition moved_to (self : Z) (t : transaction) : transaction :=
  Transaction self (tr_id t) (tr_active t) (tr_roots t) (tr_by_name t).

(** The loop of [commit]: the dirty roots, encoded. *)
Definition update_of (r : working_root) : root_update :=
  RootUpdate (wr_name r) (wr_expected r) (u64 (wr_expected r + 1)) value_type_name
    (value_encode (content (wr_data r))).
Definition updates_of (t : transaction) : list root_update :=
  update_of <$> filter (λ r, wr_dirty r = true) (tr_roots t).

Section transaction_operations.
Context {W : Type} `{storage W}.
Definition session := M (transaction * (heap_state * W)).

(** [heap::begin], with the identity of the object it returns. *)
Definition transaction_begin (self : Z) : heap (W:=W) transaction :=
  tx ← begin; mret (Transaction self tx true [] ∅).

(** The payload of a loaded root, decoded; a root that does not exist starts as null. *)
Definition decode_root (loaded : loaded_root) : result value :=
  if ld_exists loaded then
    match ld_payload loaded with
    | None => Throw (undefined "null payload pointer")
    | Some payload =>
        run (v ← value_decode;
             reader ← get;
             if negb (eof reader) then throw (corruption_error "root payload contains trailing bytes")
             else mret v) payload
    end
  else Ok VNull.
(** The new working root: bound to this transaction under its token. *)
Definition add_root (name : string) (loaded : loaded_root) (v : value) (t : transaction) : transaction :=
  let token := size (tr_roots t) + 1 in
  let data := node_bind (Some (Bound (tr_self t) token)) (fresh v) in
  Transaction (tr_self t) (tr_id t) (tr_active t)
    (tr_roots t ++ [WorkingRoot name (ld_version loaded) (negb (ld_exists loaded)) data])
    (match tr_by_name t !! name with
     | Some _ => tr_by_name t
     | None => <[name := token]> (tr_by_name t)
     end).
(** [transaction::root]: the token of the root. *)
Definition root (name : string) : session Z :=
  t ← on_fst get;
  if negb (tr_active t) then throw (transaction_error "transaction is not active")
  else if bool_decide (name = "") then throw (transaction_error "root name must not be empty")
  else
    match tr_by_name t !! name with
    | Some token =>
        if (0 <? token) && (token <=? size (tr_roots t)) then mret token
        else throw (out_of_range "vector::at")
    | None =>
        loaded ← on_snd (load name);
        v ← lift_result (decode_root loaded);
        _ ← on_fst (modify (add_root name loaded v));
        mret (size (tr_roots t) + 1)
    end.
(** [transaction::object_root] *)
Definition object_root (name : string) : session Z :=
  token ← root name;
  _ ← on_fst (modify (mutate token as_object));
  mret token.

(** [transaction::commit] *)
Definition transaction_commit : session unit :=
  t ← on_fst get;
  if negb (tr_active t) then throw (transaction_error "transaction is not active")
  else
    _ ← on_snd (commit (tr_id t) (updates_of t));
    on_fst (modify (set_active false)).
End transaction_operations.
