(* ===== verification/TransactionSpec.v ===== *)
(** * What transactions promise: roots are read as stored or as written before, every change makes
    its root dirty, and a commit writes the dirty roots. *)
From S2P Require Import Prelude.
From S2P Require Import Binary.
From S2P Require Import OrderedMap.
From S2P Require Import Value.
From S2P Require Import Observer.
From S2P Require Import ObserverSpec.
From S2P Require Import Codec.
From S2P Require Import Storage.
From S2P Require Import Journal.
From S2P Require Import Recovery.
From S2P Require Import Snapshot.
From S2P Require Import SnapshotImage.
From S2P Require Import Cache.
From S2P Require Import Heap.
From S2P Require Import HeapSpec.
From S2P Require Import Transaction.

(** ** Invariant *)
Record tx_ok (t : transaction) : Prop := {
  tk_index name token : tr_by_name t !! name = Some token ↔
    ∃ i r, tr_roots t !! i = Some r ∧ wr_name r = name ∧ token = Z.of_nat i + 1;
  tk_names : NoDup (wr_name <$> tr_roots t);
  tk_bound i r : tr_roots t !! i = Some r →
    bound_to node_bind (Some (Bound (tr_self t) (Z.of_nat i + 1))) (wr_data r)
}.

Lemma new_transaction_ok self tx : tx_ok (Transaction self tx true [] ∅).
Proof.
  split; simpl; [|constructor|by intros i r ?].
  intros name token. rewrite lookup_empty. split; [done|]. by intros (i & r & ? & _).
Qed.

Lemma token_index i : Z.to_nat (Z.of_nat i + 1 - 1) = i.
Proof. lia. Qed.

(** ** Changes *)
Section changes.
Implicit Types (t : transaction).

Lemma set_working_same t : set_working (tr_roots t) t = t.
Proof. by destruct t. Qed.
Lemma deliver_own t i r o k n :
  tr_active t = true → tr_roots t !! i = Some r →
  deliver (tr_self t, ChangeEvent (Z.of_nat i + 1) k o n) t =
  set_working (<[i := set_dirty r]> (tr_roots t)) t.
Proof.
  intros Ha Hi. unfold deliver, changed; simpl. rewrite Z.eqb_refl, Ha. simpl.
  pose proof (lookup_lt_Some _ _ _ Hi). unfold size.
  destruct (Z.eqb_spec (Z.of_nat i + 1) 0); [lia|].
  destruct (Z.gtb_spec (Z.of_nat i + 1) (Z.of_nat (length (tr_roots t)))); [lia|].
  rewrite token_index. f_equal. apply list_eq. intros j. destruct (decide (i = j)) as [<-|].
  - rewrite list_lookup_alter_eq, Hi. by rewrite list_lookup_insert_eq by done.
  - by rewrite list_lookup_alter_ne, list_lookup_insert_ne.
Qed.
(** Events bound to root [i] mark exactly that root, if there are any. *)
Lemma deliver_all t i r events :
  tr_active t = true → tr_roots t !! i = Some r →
  addressed (Some (Bound (tr_self t) (Z.of_nat i + 1))) events →
  foldl (λ t s, deliver s t) t events =
  if decide (events = []) then t else set_working (<[i := set_dirty r]> (tr_roots t)) t.
Proof.
  intros Ha Hi He. assert (∀ es (t' : transaction), addressed (Some (Bound (tr_self t) (Z.of_nat i + 1))) es →
    t' = set_working (<[i := set_dirty r]> (tr_roots t)) t →
    foldl (λ t s, deliver s t) t' es = t') as Hrest.
  { intros es t' Hes. revert t'. induction Hes as [|[o e] es E _ IH]; intros t' ->; [done|].
    simpl in *. injection E as <- E2. destruct e as [token k off n]. simpl in E2. subst token.
    change (tr_self t) with (tr_self (set_working (<[i:=set_dirty r]> (tr_roots t)) t)) at 1.
    rewrite (deliver_own _ i (set_dirty r)); [|done|simpl; apply list_lookup_insert_eq, (lookup_lt_Some _ _ _ Hi)].
    simpl. rewrite list_insert_insert_eq. by apply IH. }
  destruct events as [|[o e] es]; [done|]. inversion He as [|? ? E He']; subst.
  injection E as <- E2. destruct e as [token k off n]; simpl in E2 |- *. subst token.
  rewrite (deliver_own t i r) by done. by apply Hrest.
Qed.

(** Operating on a root through its reference: its data become what the operation gives, it is
    dirty if it was or if anything was sent, and the other roots are as before. *)
Lemma mutate_spec t i r f :
  tx_ok t → tr_active t = true → tr_roots t !! i = Some r → observed node_bind content f →
  let r' := WorkingRoot (wr_name r) (wr_expected r)
              (wr_dirty r || negb (bool_decide ((f (wr_data r)).2 = []))) (f (wr_data r)).1 in
  mutate (Z.of_nat i + 1) f t = set_working (<[i := r']> (tr_roots t)) t.
Proof.
  intros Ht Ha Hi Hf. destruct (Hf _ _ (tk_bound _ Ht i r Hi)) as (_ & Hadr & _).
  unfold mutate. rewrite token_index, Hi. destruct (f (wr_data r)) as [n events]. simpl in *.
  pose proof (lookup_lt_Some _ _ _ Hi).
  erewrite (deliver_all _ i (set_data n r)); [|done|simpl; by apply list_lookup_insert_eq|done].
  unfold set_dirty, set_data; simpl. destruct events as [|s events].
  - rewrite decide_True, orb_false_r by done. done.
  - rewrite decide_False by done. simpl. rewrite orb_true_r. unfold set_working; simpl.
    by rewrite list_insert_insert_eq.
Qed.
Lemma mutate_ok t i r f :
  tx_ok t → tr_active t = true → tr_roots t !! i = Some r → observed node_bind content f →
  tx_ok (mutate (Z.of_nat i + 1) f t).
Proof.
  intros Ht Ha Hi Hf. rewrite (mutate_spec t i r f) by done. pose proof Ht as [H1 H2 H3].
  pose proof (lookup_lt_Some _ _ _ Hi).
  assert (∀ r', wr_name r' = wr_name r → wr_name <$> <[i := r']> (tr_roots t) = wr_name <$> tr_roots t) as En.
  { intros r' E. rewrite list_fmap_insert, E. apply list_insert_id. by rewrite list_lookup_fmap, Hi. }
  split; simpl.
  - intros name token. rewrite H1. split; intros (j & rj & Hj & Hn & Htok).
    + destruct (decide (i = j)) as [<-|].
      * eexists i, _. rewrite list_lookup_insert_eq by done. split; [done|]. simpl. split; [congruence|done].
      * exists j, rj. by rewrite list_lookup_insert_ne.
    + destruct (decide (i = j)) as [<-|].
      * rewrite list_lookup_insert_eq in Hj by done. injection Hj as <-. by exists i, r.
      * exists j, rj. by rewrite list_lookup_insert_ne in Hj.
  - by rewrite En.
  - intros j rj Hj. destruct (decide (i = j)) as [<-|].
    + rewrite list_lookup_insert_eq in Hj by done. injection Hj as <-. simpl.
      by destruct (Hf _ _ (H3 i r Hi)) as (? & _).
    + rewrite list_lookup_insert_ne in Hj by done. by apply H3.
Qed.
End changes.

(** ** Editing through a reference *)
Lemma data_of_token t i : data_of (Z.of_nat i + 1) t = (λ r, content (wr_data r)) <$> tr_roots t !! i.
Proof. unfold data_of. by rewrite token_index. Qed.
Lemma edit_root_spec t i r e :
  tx_ok t → tr_active t = true → tr_roots t !! i = Some r →
  ∃ r', mutate (Z.of_nat i + 1) (run_edit e) t = set_working (<[i := r']> (tr_roots t)) t ∧
    content (wr_data r') = apply_edit e (content (wr_data r)) ∧
    wr_name r' = wr_name r ∧ wr_expected r' = wr_expected r ∧
    (wr_dirty r = true → wr_dirty r' = true) ∧
    (wr_dirty r' = false → apply_edit e (content (wr_data r)) = content (wr_data r)).
Proof.
  intros Ht Ha Hi. eexists. split; [by apply mutate_spec, run_edit_observed|]. simpl.
  pose proof (tk_bound _ Ht i r Hi) as Hb. pose proof (run_edit_refines e _ _ Hb) as Hc.
  destruct (run_edit_observed e _ _ Hb) as (_ & _ & Hs).
  split_and!; [done|done|done|by intros ->|]. intros [_ E]%orb_false_iff.
  apply negb_false_iff, bool_decide_eq_true in E. rewrite <- Hc. by apply Hs.
Qed.

(** ** Decoding what was encoded *)
Definition stored (v : value) : list byte := value_encode v.
Lemma decode_stored v version :
  wf_value v → decode_root (LoadedRoot version (Some (stored v)) true) = Ok v.
Proof.
  intros Hv. unfold decode_root; simpl. unfold run, stored.
  pose proof (decode_encode v [] Hv) as E. rewrite app_nil_r in E.
  change (decode (value_encode v) = (Ok v, [])) in E. change (@decode value _) with value_decode in E.
  by m_run E.
Qed.

(** What a transaction finds under a name in an abstract heap. *)
Definition root_value (A : amap) (name : string) : result value :=
  loaded ← load_result A name; decode_root loaded.
Lemma root_value_stored A name ver v :
  A !! name = Some (ARoot ver value_type_name (stored v)) → wf_value v → root_value A name = Ok v.
Proof.
  intros Ha Hv. unfold root_value, load_result. rewrite Ha. simpl a_type.
  rewrite bool_decide_true by done. simpl mbind. by apply decode_stored.
Qed.
Lemma root_value_absent A name : A !! name = None → root_value A name = Ok VNull.
Proof. intros Ha. unfold root_value, load_result. by rewrite Ha. Qed.

(** ** Loading roots *)
Section roots.
Context {W : Type} `{HW : storage_reliable W} (config : heap_config).
Implicit Types (t : transaction) (h : heap_state) (w : W) (A : amap).

Lemma by_name_None t name : tx_ok t → (tr_by_name t !! name = None ↔ name ∉ wr_name <$> tr_roots t).
Proof.
  intros Ht. split.
  - intros Hn (r & -> & Hr)%list_elem_of_fmap. apply list_elem_of_lookup in Hr as [i Hi].
    assert (tr_by_name t !! wr_name r = Some (Z.of_nat i + 1)) as E by (apply (tk_index _ Ht); eauto).
    by rewrite Hn in E.
  - intros Hn. destruct (tr_by_name t !! name) as [token|] eqn:E; [|done].
    apply (tk_index _ Ht) in E as (i & r & Hi & <- & _). exfalso. apply Hn.
    apply list_elem_of_fmap_2. by eapply list_elem_of_lookup_2.
Qed.
Lemma add_root_ok t name loaded v :
  tx_ok t → tr_by_name t !! name = None → tx_ok (add_root name loaded v t).
Proof.
  intros Ht Hn. pose proof Ht as [H1 H2 H3]. unfold add_root. rewrite Hn. split; simpl.
  - intros n token. rewrite lookup_insert_Some, H1. split.
    + intros [[<- <-]|(Hne & i & r & Hi & Hrn & Htok)].
      * eexists (length (tr_roots t)), _. split; [by apply list_lookup_middle|done].
      * exists i, r. split; [by apply lookup_app_l_Some|done].
    + intros (i & r & [Hi|[Hlt Hi]]%lookup_app_Some & Hrn & Htok).
      * right. split; [|by exists i, r]. intros ->.
        apply by_name_None in Hn; [|done]. apply Hn. rewrite <- Hrn. apply list_elem_of_fmap_2.
        by eapply list_elem_of_lookup_2.
      * apply list_lookup_singleton_Some in Hi as [Hi <-]. simpl in Hrn. left. split; [done|].
        rewrite Htok. unfold size. lia.
  - rewrite fmap_app. apply NoDup_app. split_and!; [done| |apply NoDup_singleton].
    apply by_name_None in Hn; [|done]. intros x Hx ->%list_elem_of_singleton. done.
  - intros i r [Hi|[Hlt Hi]]%lookup_app_Some; [by apply H3|].
    apply list_lookup_singleton_Some in Hi as [Hi <-]. simpl.
    replace (Z.of_nat i + 1) with (size (tr_roots t) + 1) by (unfold size; lia). apply node_bound_bind.
Qed.

(** A root the transaction has already: the same reference, with whatever was written to it. *)
Lemma root_again t hw name i r :
  tx_ok t → tr_active t = true → name ≠ "" → tr_roots t !! i = Some r → wr_name r = name →
  root (W:=W) name (t, hw) = (Ok (Z.of_nat i + 1), (t, hw)).
Proof.
  intros Ht Ha Hname Hi Hn. unfold root. unfold mbind, M_bind, on_fst, get. rewrite Ha. cbn [negb].
  rewrite bool_decide_false by done.
  assert (tr_by_name t !! name = Some (Z.of_nat i + 1)) as -> by (apply (tk_index _ Ht); eauto).
  pose proof (lookup_lt_Some _ _ _ Hi). unfold size.
  destruct (Z.ltb_spec 0 (Z.of_nat i + 1)); [|lia].
  destruct (Z.leb_spec (Z.of_nat i + 1) (Z.of_nat (length (tr_roots t)))); [done|lia].
Qed.

(** A new root: what is stored, or null for a root that does not exist, which is dirty. *)
Lemma root_new t h w A p name :
  heap_inv config h w A p → tx_ok t → tr_active t = true → name ≠ "" → name ∉ wr_name <$> tr_roots t →
  ∃ r t' c w', root name (t, (h, w)) = (r, (t', (set_cache c h, w'))) ∧
    heap_inv config (set_cache c h) w' A p ∧ same_files w w' ∧ tx_ok t' ∧
    match r with
    | Ok token => ∃ v loaded, root_value A name = Ok v ∧ load_result A name = Ok loaded ∧
        t' = add_root name loaded v t ∧ token = size (tr_roots t) + 1
    | Throw _ => t' = t
    end ∧
    (reliable w → reliable w' ∧ (is_ok (root_value A name) → is_ok r)).
Proof.
  intros Hinv Ht Ha Hname Hn. apply by_name_None in Hn; [|done].
  unfold root. unfold mbind at 1, M_bind at 1, on_fst at 1, get at 1. rewrite Ha. cbn [negb].
  rewrite bool_decide_false, Hn by done.
  destruct (load_spec config h w A p name Hinv) as (r1 & c & w1 & E1 & Hinv1 & Hs1 & Hr1 & Hok1).
  unfold mbind at 1, M_bind at 1, on_snd at 1. rewrite E1. unfold root_value.
  destruct r1 as [loaded|e].
  2:{ exists (Throw e), t, c, w1. split_and!; try done. intros [<- ?]%Hok1. split; [done|by intros [? [=]]]. }
  destruct Hr1 as [<-|[? [=]]]. simpl mbind.
  unfold mbind at 1, M_bind at 1, lift_result. destruct (decode_root loaded) as [v|e] eqn:Ev.
  2:{ exists (Throw e), t, c, w1. split_and!; try done. intros [_ ?]%Hok1. split; [done|by intros [? [=]]]. }
  exists (Ok (size (tr_roots t) + 1)), (add_root name loaded v t), c, w1.
  split_and!; try done; [by apply add_root_ok|by exists v, loaded|].
  intros [_ ?]%Hok1. split; [done|by eexists].
Qed.
End roots.

(** ** Committing *)
Section commits.
Context {W : Type} `{HW : storage_reliable W} (config : heap_config).
Implicit Types (t : transaction) (h : heap_state) (w : W) (A : amap).

(** The dirty roots can be encoded into records: versions do not wrap, and the encoded data fit
    a journal record. *)
Definition encodable t : Prop :=
  Forall (λ r, wr_dirty r = true → 0 ≤ wr_expected r < u64_bound - 1 ∧
    size (e_bytes (encode_update (update_of r))) + 32 ≤ max_frame_size) (tr_roots t).
(** No other transaction has committed a root this one changed. *)
Definition current t A : Prop :=
  Forall (λ r, wr_dirty r = true → default 0 (a_version <$> A !! wr_name r) = wr_expected r) (tr_roots t).

Lemma elem_updates_of t u :
  u ∈ updates_of t ↔ ∃ r, r ∈ tr_roots t ∧ wr_dirty r = true ∧ u = update_of r.
Proof.
  unfold updates_of. rewrite list_elem_of_fmap. split.
  - intros (r & -> & [? ?]%list_elem_of_filter). by exists r.
  - intros (r & ? & ? & ->). exists r. split; [done|]. by apply list_elem_of_filter.
Qed.
Lemma new_version r : 0 ≤ wr_expected r < u64_bound - 1 → u_new (update_of r) = wr_expected r + 1.
Proof. intros. simpl. apply u64_small. unfold is_u64. lia. Qed.
Lemma updates_of_valid t h :
  tx_ok t → encodable t → hs_wal_sequence h + size (tr_roots t) + 2 < u64_bound →
  valid_updates h (updates_of t).
Proof.
  intros Ht He Hs. split.
  - apply Forall_forall. intros u (r & Hr & Hd & ->)%elem_updates_of.
    destruct (proj1 (Forall_forall _ _) He r Hr Hd) as [Hv Hsz]. split; [|split; [|done]].
    + simpl. unfold is_u64. lia.
    + rewrite new_version by done. unfold is_u64. lia.
  - unfold updates_of. rewrite <- list_fmap_compose.
    change (u_name ∘ update_of) with wr_name. eapply sublist_NoDup; [apply (tk_names _ Ht)|].
    apply fmap_sublist, sublist_filter.
  - apply Forall_forall. intros u (r & Hr & Hd & ->)%elem_updates_of.
    destruct (proj1 (Forall_forall _ _) He r Hr Hd) as [Hv Hsz]. rewrite new_version by done. simpl. lia.
  - unfold updates_of, size in *. rewrite length_fmap.
    pose proof (length_filter (λ r, wr_dirty r = true) (tr_roots t)). lia.
Qed.
Lemma current_versions_match t A : current t A → versions_match A (updates_of t).
Proof.
  intros Hc. apply Forall_forall. intros u (r & Hr & Hd & ->)%elem_updates_of. simpl.
  by apply (proj1 (Forall_forall _ _) Hc r Hr Hd).
Qed.
(** What the committed heap holds under a dirty root. *)
Lemma committed_root t A r :
  tx_ok t → encodable t → r ∈ tr_roots t → wr_dirty r = true →
  a_commit (updates_of t) A !! wr_name r =
  Some (ARoot (wr_expected r + 1) value_type_name (stored (content (wr_data r)))).
Proof.
  intros Ht He Hr Hd. pose proof (updates_of_valid t (HeapState config 0 (new_cache 0) ∅ 0 false false 0) Ht He) as Hv.
  assert (update_of r ∈ updates_of t) as Hin by (apply elem_updates_of; eauto).
  change (wr_name r) with (u_name (update_of r)).
  rewrite (a_commit_lookup _ _ (update_of r)); [|unfold updates_of; rewrite <- list_fmap_compose|done].
  - rewrite new_version; [done|]. by destruct (proj1 (Forall_forall _ _) He r Hr Hd).
  - change (u_name ∘ update_of) with wr_name. eapply sublist_NoDup; [apply (tk_names _ Ht)|].
    apply fmap_sublist, sublist_filter.
Qed.
Lemma committed_other t A n :
  (∀ r, r ∈ tr_roots t → wr_dirty r = true → wr_name r ≠ n) → a_commit (updates_of t) A !! n = A !! n.
Proof.
  intros Hn. assert (∀ us B, Forall (λ u, u_name u ≠ n) us → a_commit us B !! n = B !! n) as Hall.
  { induction us as [|u us IH]; intros B Hus; [done|]. apply Forall_cons in Hus as [? ?]. simpl.
    rewrite IH by done. by rewrite lookup_insert_ne. }
  apply Hall, Forall_forall. intros u (r & Hr & Hd & ->)%elem_updates_of. by apply Hn.
Qed.
End commits.
