(* ===== verification/Quiet.v ===== *)
(** * Work in a transaction before its commit.

    A computation on a transaction is [quiet] when all it changes is the transaction and the cache
    of the heap.  The SQL statements and the commands of the command-line client are quiet up to
    their commit. *)
From S2P Require Import Prelude.
From S2P Require Import Binary.
From S2P Require Import OrderedMap.
From S2P Require Import Value.
From S2P Require Import Observer.
From S2P Require Import Codec.
From S2P Require Import Storage.
From S2P Require Import Journal.
From S2P Require Import Recovery.
From S2P Require Import Snapshot.
From S2P Require Import SnapshotImage.
From S2P Require Import Cache.
From S2P Require Import Heap.
From S2P Require Import HeapSpec.
From S2P Require Import Transaction.
From S2P Require Import TransactionSpec.
#[local] Open Scope Z_scope.

(** ** Quiet computations *)
Section quiet.
Context {W : Type} `{HW : storage_reliable W} (config : heap_config).
Implicit Types (t : transaction) (h : heap_state) (w : W) (A : amap).

(** [t'], [h'], [w'] are a transaction, heap and storage that may be reached without committing. *)
Record before_commit A p t h w t' h' w' : Prop := {
  bc_inv : heap_inv config h' w' A p;
  bc_tx : tx_ok t';
  bc_active : tr_active t' = true;
  bc_id : tr_id t' = tr_id t;
  bc_heap : ∃ c, h' = set_cache c h;
  bc_files : same_files w w'
}.
Definition quiet {X} (m : session (W:=W) X) : Prop := ∀ t h w A p,
  heap_inv config h w A p → tx_ok t → tr_active t = true →
  ∃ r t' h' w', m (t, (h, w)) = (r, (t', (h', w'))) ∧ before_commit A p t h w t' h' w'.

Lemma set_cache_same h : set_cache (hs_cache h) h = h.
Proof. by destruct h. Qed.
Lemma before_commit_refl A p t h w :
  heap_inv config h w A p → tx_ok t → tr_active t = true → before_commit A p t h w t h w.
Proof. intros. split; try done. exists (hs_cache h). by rewrite set_cache_same. Qed.
Lemma before_commit_trans A p t h w t1 h1 w1 t2 h2 w2 :
  before_commit A p t h w t1 h1 w1 → before_commit A p t1 h1 w1 t2 h2 w2 → before_commit A p t h w t2 h2 w2.
Proof.
  intros [_ _ _ Hi [c1 ->] Hs] [? ? ? Hi2 [c2 ->] Hs2]. split; try done.
  - by rewrite Hi2.
  - by exists c2.
  - by eapply same_files_trans.
Qed.
End quiet.

(** Nothing changed. *)
Ltac unchanged := do 4 eexists; split; [done|by apply before_commit_refl].

Section quiet_rules.
Context {W : Type} `{HW : storage_reliable W} (config : heap_config).
Implicit Types (t : transaction) (h : heap_state) (w : W) (A : amap).
#[local] Abbreviation quiet := (quiet (W:=W) config).
#[local] Abbreviation before_commit := (before_commit (W:=W) config).

Lemma quiet_ret {X} (x : X) : quiet (mret x).
Proof. intros t h w A p ? ? ?. unchanged. Qed.
Lemma quiet_throw {X} e : quiet (throw (A:=X) e).
Proof. intros t h w A p ? ? ?. unchanged. Qed.
Lemma quiet_result {X} (r : result X) : quiet (lift_result r).
Proof. intros t h w A p ? ? ?. destruct r; unchanged. Qed.
Lemma quiet_bind {X Y} (m : session (W:=W) X) (f : X → session (W:=W) Y) :
  quiet m → (∀ x, quiet (f x)) → quiet (m ≫= f).
Proof.
  intros Hm Hf t h w A p Hi Ht Ha. destruct (Hm t h w A p Hi Ht Ha) as (r & t1 & h1 & w1 & E & Hb).
  unfold mbind, M_bind. rewrite E. destruct r as [x|e]; [|by exists (Throw e), t1, h1, w1].
  pose proof Hb as [B1 B2 B3 _ _ _].
  destruct (Hf x t1 h1 w1 A p B1 B2 B3) as (r2 & t2 & h2 & w2 & -> & Hb2).
  exists r2, t2, h2, w2. split; [done|]. by eapply before_commit_trans.
Qed.
Lemma quiet_modify t h w A p t' :
  heap_inv config h w A p → tx_ok t' → tr_active t' = true → tr_id t' = tr_id t → before_commit A p t h w t' h w.
Proof. intros. split; try done. exists (hs_cache h). by rewrite set_cache_same. Qed.
Lemma quiet_mutate token f : observed node_bind content f → quiet (on_fst (modify (mutate token f))).
Proof.
  intros Hf t h w A p Hi Ht Ha. exists (Ok tt), (mutate token f t), h, w. split; [done|].
  destruct (tr_roots t !! Z.to_nat (token - 1)) as [r|] eqn:Er.
  - assert (mutate token f t = mutate (Z.of_nat (Z.to_nat (token - 1)) + 1) f t) as ->
      by (unfold mutate; by rewrite token_index).
    apply quiet_modify; [done|by eapply mutate_ok| |]; by rewrite (mutate_spec t _ r) by done.
  - unfold mutate. rewrite Er. by apply before_commit_refl.
Qed.
Lemma quiet_root name : quiet (root name).
Proof.
  intros t h w A p Hi Ht Ha. destruct (decide (name = "")) as [->|Hname].
  { unfold root, mbind, M_bind, on_fst, get. rewrite Ha. unchanged. }
  destruct (decide (name ∈ wr_name <$> tr_roots t)) as [Hin|Hn].
  - apply list_elem_of_fmap in Hin as (r & -> & Hr). apply list_elem_of_lookup in Hr as [i Hi'].
    rewrite (root_again t (h, w) (wr_name r) i r) by done. unchanged.
  - destruct (root_new config t h w A p name Hi Ht Ha Hname Hn) as (r & t' & c & w' & E & Hi' & Hs & Ht' & Hr & _).
    exists r, t', (set_cache c h), w'. split; [done|].
    assert (tr_active t' = true ∧ tr_id t' = tr_id t) as [? ?].
    { destruct r as [?|?]; [destruct Hr as (? & ? & _ & _ & -> & _)|subst t']; done. }
    split; try done. by exists c.
Qed.
Lemma quiet_if {X} (b : bool) (m1 m2 : session (W:=W) X) : quiet m1 → quiet m2 → quiet (if b then m1 else m2).
Proof. by destruct b. Qed.

(** The transaction begun for a command or a statement. *)
Lemma begin_spec self h w A p :
  heap_inv config h w A p →
  hs_closed h = true ∧ transaction_begin self (h, w) = (Throw (transaction_error "heap is closed"), (h, w)) ∨
  ∃ h', transaction_begin self (h, w) = (Ok (Transaction self (hs_next_transaction h) true [] ∅), (h', w)) ∧
    heap_inv config h' w A p.
Proof.
  intros (image & cj & s & Hh & Hp). unfold transaction_begin, begin, state, update.
  unfold mbind, M_bind, on_fst, get, modify. destruct (hs_closed h); [by left|right].
  eexists. split; [done|]. exists image, cj, s. split; [|done]. by destruct Hh; split.
Qed.
End quiet_rules.

Create HintDb quiet.
#[export] Hint Resolve quiet_ret quiet_throw quiet_result quiet_root : quiet.
#[export] Hint Extern 1 (quiet _ (_ ≫= _)) => apply quiet_bind; [|intros ?] : quiet.
#[export] Hint Extern 1 (quiet _ (if _ then _ else _)) => apply quiet_if : quiet.
