(* ===== verification/Cli.v ===== *)
(** * The command-line client: [run.hpp], [get_path.hpp], [execute.hpp] of the module [cli].

    One command on a heap opened for it.  The state of a command is the console over the heap over
    the storage; while a transaction is open, the console over the transaction over those. *)
From stdpp Require Import pretty.
From S2P Require Import Prelude.
From S2P Require Import Binary.
From S2P Require Import OrderedMap.
From S2P Require Import Value.
From S2P Require Import Observer.
From S2P Require Import Codec.
From S2P Require Import Storage.
From S2P Require Import Journal.
From S2P Require Import Heap.
From S2P Require Import Transaction.
From S2P Require Import Chars.
From S2P Require Import Console.
From S2P Require Import Json.
From Stdlib Require Import Ascii.
#[local] Open Scope Z_scope.

(** ** Arguments *)
Definition print_usage : string := String.concat end_of_line [
  "usage: opheap-cli [-C <heap-directory>] <command> [arguments]";
  "";
  "commands:";
  "  create <name> <json|->  create a named JSON root";
  "  get <path>             print a root or dotted object path as JSON";
  "  inspect                print all named roots as a JSON object";
  "  update <name> <json|-> replace an existing root";
  "  delete <name>          logically delete an existing root";
  "  checkpoint             compact the WAL into a snapshot";
  "  verify                 verify the snapshot and WAL";
  ""].
Definition is_one_of (s : string) (l : list string) : bool := bool_decide (s ∈ l).
(** The leading options: the heap's directory, and the arguments that are left. *)
Fixpoint options (heap_path : string) (arguments : list string) : result (string * list string) :=
  match arguments with
  | option :: rest =>
      if is_one_of option ["-C"; "--path"] then
        match rest with
        | [] => Throw (usage_error (option +:+ " requires a directory"))
        | directory :: rest => options directory rest
        end
      else Ok (heap_path, arguments)
  | [] => Ok (heap_path, [])
  end.
(** [heap_config{.path = ...}] *)
Definition default_config (path : string) : heap_config :=
  HeapConfig path (64 * 1024 * 1024) strict true (8 * 1024 * 1024).

(** The components of a dotted path: what the searches for the next dot cut it into. *)
Fixpoint split_dots (path : list ascii) : list (list ascii) :=
  match path with
  | [] => [[]]
  | c :: path =>
      let parts := split_dots path in
      if char_is c "." then [] :: parts
      else match parts with part :: parts => (c :: part) :: parts | [] => [[c]] end
  end.
(** The loop of [get_path], from the value reached so far. *)
Fixpoint get_properties (current : value) (keys : list (list ascii)) : result value :=
  match keys with
  | [] => Ok current
  | key :: keys =>
      let key := text_of key in
      if bool_decide (key = "") then Throw (usage_error "path contains an empty property name")
      else
        match current with
        | VObject object =>
            match om_find key object with
            | Some entry => get_properties entry keys
            | None => Throw (runtime_error ("path property not found: " +:+ key))
            end
        | _ => Throw (runtime_error ("path component is not an object: " +:+ key))
        end
  end.

Section cli.
Context {W : Type} `{storage W}.
(** The address of the local variable that holds the transaction. *)
Context (self : Z).
Definition program := M (console * W).
Definition command := M (console * (heap_state * W)).
Definition editing := M (console * (transaction * (heap_state * W))).

Definition in_transaction {A} (m : editing A) : command A :=
  tx ← on_snd (transaction_begin self); with_object tx m.
Definition read_root (token : Z) : editing value :=
  t ← on_snd (on_fst get);
  match data_of token t with
  | Some v => mret v
  | None => throw (undefined "no such reference")
  end.
Definition put_json (v : value) : editing unit := text ← lift_result (write_json v); put (text_of text).
Definition get_path (path : string) : editing value :=
  match split_dots (chars_of path) with
  | [] => throw (undefined "a path has at least one component")
  | root_name :: keys =>
      let root_name := text_of root_name in
      if bool_decide (root_name = "") then throw (usage_error "path must start with a root name")
      else
        token ← on_snd (root root_name);
        current ← read_root token;
        if is_null current then throw (runtime_error ("root not found: " +:+ root_name))
        else lift_result (get_properties current keys)
  end.
Definition read_json_argument (argument : string) : editing string :=
  if negb (bool_decide (argument = "-")) then mret argument else get_all.
(** [json_parser{payload}.parse()], with [json_error] turned into [usage_error]. *)
Definition parse_payload (payload : string) : result value :=
  match Json.parse payload with
  | Throw (json_error what) => Throw (usage_error what)
  | r => r
  end.

(** ** Commands *)
Definition run_checkpoint (rest : list string) : command Z :=
  if negb (bool_decide (rest = [])) then throw (usage_error "checkpoint takes no arguments")
  else _ ← on_snd checkpoint; mret 0.
Definition bool_text (b : bool) : string := if b then "true" else "false".
Definition json_name (name : string) : string := text_of (write_string name) +:+ ":".
Definition run_verify (rest : list string) : command Z :=
  if negb (bool_decide (rest = [])) then throw (usage_error "verify takes no arguments")
  else
    report ← on_snd integrity;
    _ ← put (String.concat "" [
      "{"; json_name "ok"; bool_text (ir_ok report);
      ","; json_name "roots"; pretty (ir_roots report);
      ","; json_name "journal_records"; pretty (ir_journal_records report);
      ","; json_name "journal_bytes"; pretty (ir_journal_bytes report);
      ","; json_name "last_sequence"; pretty (ir_last_sequence report);
      ","; json_name "message"; text_of (write_string (ir_message report)); "}"; end_of_line]);
    mret (if ir_ok report then 0 else 1).
Fixpoint put_roots (first : bool) (names : list string) : editing unit :=
  match names with
  | [] => mret tt
  | name :: names =>
      _ ← put (if first then "" else ",");
      _ ← put (json_name name);
      token ← on_snd (root name);
      v ← read_root token;
      _ ← put_json v;
      put_roots false names
  end.
Definition run_inspect (rest : list string) : command Z :=
  if negb (bool_decide (rest = [])) then throw (usage_error "inspect takes no arguments")
  else
    in_transaction (
      _ ← put "{";
      names ← on_snd (on_snd (h ← state; mret (root_names h)));
      _ ← put_roots true names;
      _ ← put ("}" +:+ end_of_line);
      mret 0).
Definition run_get (name : string) (rest : list string) : command Z :=
  if negb (bool_decide (rest = [])) then throw (usage_error "get takes one root name")
  else
    in_transaction (
      v ← get_path name; _ ← put_json v; _ ← put end_of_line; mret 0).
Definition run_delete (name : string) (rest : list string) (token : Z) : editing Z :=
  if negb (bool_decide (rest = [])) then throw (usage_error "delete takes one root name")
  else
    v ← read_root token;
    if is_null v then throw (runtime_error ("root not found: " +:+ name))
    else
      _ ← on_snd (on_fst (modify (mutate token assign_null)));
      _ ← on_snd transaction_commit;
      mret 0.
Definition run_write (name_of_command name : string) (rest : list string) (token : Z) : editing Z :=
  if negb (is_one_of name_of_command ["create"; "update"])
  then throw (usage_error ("unknown command: " +:+ name_of_command))
  else
    match rest with
    | [argument] =>
        v ← read_root token;
        if bool_decide (name_of_command = "create") && negb (is_null v)
        then throw (runtime_error ("root already exists: " +:+ name))
        else if bool_decide (name_of_command = "update") && is_null v
        then throw (runtime_error ("root not found: " +:+ name))
        else
          payload ← read_json_argument argument;
          parsed ← lift_result (parse_payload payload);
          _ ← on_snd (on_fst (modify (mutate token (assign_move (fresh parsed)))));
          _ ← on_snd transaction_commit;
          written ← read_root token;
          _ ← put_json written;
          _ ← put end_of_line;
          mret 0
    | _ => throw (usage_error (name_of_command +:+ " requires a root name and one JSON value"))
    end.
Definition run_edit_command (name_of_command name : string) (rest : list string) : command Z :=
  if bool_decide (name = "") then throw (usage_error "root name must not be empty")
  else
    in_transaction (
      token ← on_snd (root name);
      if bool_decide (name_of_command = "delete") then run_delete name rest token
      else run_write name_of_command name rest token).
Definition run_command (name_of_command : string) (rest : list string) : command Z :=
  if bool_decide (name_of_command = "checkpoint") then run_checkpoint rest
  else if bool_decide (name_of_command = "verify") then run_verify rest
  else if bool_decide (name_of_command = "inspect") then run_inspect rest
  else
    match rest with
    | [] => throw (usage_error (name_of_command +:+ " requires a root name"))
    | name :: rest =>
        if bool_decide (name_of_command = "get") then run_get name rest
        else run_edit_command name_of_command name rest
    end.

(** [run] and [execute]: the exit code. *)
Definition cli_run (arguments : list string) : program Z :=
  parsed ← lift_result (options "." arguments);
  match parsed.2 with
  | [] => _ ← put print_usage; mret 2
  | name :: rest =>
      if is_one_of name ["help"; "--help"; "-h"] then _ ← put print_usage; mret 0
      else
        h ← on_snd (heap_open (default_config parsed.1));
        with_object h (run_command name rest)
  end.
Definition cli_execute (arguments : list string) : program Z :=
  catch (cli_run arguments) (λ e,
    match e with
    | usage_error what =>
        _ ← put_error ("opheap-cli: " +:+ what +:+ end_of_line); _ ← put_error print_usage; mret 2
    | undefined _ | out_of_fuel => throw e
    | e => _ ← put_error ("opheap-cli: " +:+ error_message e +:+ end_of_line); mret 1
    end).
End cli.
