(* ===== verification/SqlInterpreter.v ===== *)
(** * The SQL interpreter: [interpreter.hpp], [coerce.hpp], [compare_value_literal.hpp],
    [less_for_sort.hpp], [to_literal.hpp], [assign_literal.hpp], [column_type_from_string.hpp].

    A statement runs in a transaction of its own over the heap.  The program works on references
    into the transaction's data; here a reference is the token of a root with the path the code
    followed, what is read through it is the content, and every write is an edit of the root. *)
From stdpp Require Import pretty.
From S2P Require Import Prelude.
From S2P Require Import Binary.
From S2P Require Import OrderedMap.
From S2P Require Import Value.
From S2P Require Import Observer.
From S2P Require Import ObserverSpec.
From S2P Require Import Codec.
From S2P Require Import Storage.
From S2P Require Import Journal.
From S2P Require Import Heap.
From S2P Require Import Transaction.
From S2P Require Import Double.
From S2P Require Import Chars.
From S2P Require Import SqlSyntax.
From S2P Require Import SqlParser.
#[local] Open Scope Z_scope.

(** ** Values and literals *)
Definition literal_value (lit : literal) : value :=
  match lit with
  | LNull => VNull | LBool b => VBool b | LInteger z => VInteger z | LReal d => VNumber d
  | LText s => VString s
  end.
(** [assign_literal]: an assignment of the value. *)
Definition assign_literal (lit : literal) : edit :=
  match lit with
  | LNull => e_null | LBool b => e_bool b | LInteger z => e_integer z | LReal d => e_number d
  | LText s => e_string s
  end.
Definition to_literal (v : value) : result literal :=
  match v with
  | VNull => Ok LNull
  | VBool b => Ok (LBool b)
  | VInteger z => Ok (LInteger z)
  | VNumber d => Ok (LReal d)
  | VString s => Ok (LText s)
  | _ => Throw (sql_error "value has no SQL-representable type")
  end.
(** [-1], [0], [1]; [None] for [std::nullopt]. *)
Definition compare_strings (a b : string) : Z :=
  if string_less a b then -1 else if string_less b a then 1 else 0.
Definition compare_doubles (a b : double) : Z :=
  if d_less a b then -1 else if d_less b a then 1 else 0.
Definition numeric_value (v : value) : option double :=
  match v with VInteger z => Some (d_of_integer z) | VNumber d => Some d | _ => None end.
Definition numeric_literal (lit : literal) : option double :=
  match lit with LInteger z => Some (d_of_integer z) | LReal d => Some d | _ => None end.
Definition compare_value_literal (v : value) (lit : literal) : result (option Z) :=
  match v, lit with
  | VNull, _ | _, LNull => Ok None
  | VString a, LText b => Ok (Some (compare_strings a b))
  | VBool a, LBool b => Ok (Some (if Bool.eqb a b then 0 else if a then 1 else -1))
  | _, _ =>
      match numeric_value v, numeric_literal lit with
      | Some a, Some b => Ok (Some (compare_doubles a b))
      | _, _ => Throw (sql_error "incomparable types in expression")
      end
  end.
Definition less_for_sort (a b : value) : result bool :=
  if is_null a then Ok false
  else if is_null b then Ok true
  else
    lit ← to_literal b;
    cmp ← compare_value_literal a lit;
    match cmp with
    | None => Throw (sql_error "incomparable types in ORDER BY")
    | Some c => Ok (c <? 0)
    end.

Definition coerce (lit : literal) (type : column_type) (column_name : string) : result literal :=
  match lit, type with
  | LNull, _ => Ok lit
  | LInteger _, ct_integer => Ok lit
  | _, ct_integer => Throw (sql_error ("column '" +:+ column_name +:+ "' expects INTEGER"))
  | LInteger z, ct_real => Ok (LReal (d_of_integer z))
  | LReal _, ct_real => Ok lit
  | _, ct_real => Throw (sql_error ("column '" +:+ column_name +:+ "' expects REAL"))
  | LText _, ct_text => Ok lit
  | _, ct_text => Throw (sql_error ("column '" +:+ column_name +:+ "' expects TEXT"))
  | LBool _, ct_boolean => Ok lit
  | _, ct_boolean => Throw (sql_error ("column '" +:+ column_name +:+ "' expects BOOLEAN"))
  end.
(** [to_string(column_type)] and [column_type_from_string]. *)
Definition type_to_string (t : column_type) : string :=
  match t with
  | ct_integer => "INTEGER" | ct_real => "REAL" | ct_text => "TEXT" | ct_boolean => "BOOLEAN"
  end.
Definition column_type_from_string (text : string) : result column_type :=
  if decide (text = "INTEGER") then Ok ct_integer
  else if decide (text = "REAL") then Ok ct_real
  else if decide (text = "TEXT") then Ok ct_text
  else if decide (text = "BOOLEAN") then Ok ct_boolean
  else Throw (sql_error ("unknown column type '" +:+ text +:+ "' in catalog")).

(** ** Expressions *)
Abbreviation fields := (list (string * value)) (only parsing).
Definition at_field (name : string) (row : list (string * value)) : result value :=
  match om_find name row with Some v => Ok v | None => Throw (out_of_range "map::at") end.
Definition compare_holds (op : comparison_operator) (c : Z) : bool :=
  match op with
  | c_eq => c =? 0 | c_neq => negb (c =? 0)
  | c_lt => c <? 0 | c_lte => c <=? 0 | c_gt => c >? 0 | c_gte => c >=? 0
  end.
Fixpoint evaluate (expr : expression) (row : list (string * value)) : result bool :=
  match expr with
  | Comparison column op v =>
      match om_find column row with
      | None => Throw (sql_error ("no such column: " +:+ column))
      | Some found =>
          cmp ← compare_value_literal found v;
          Ok (match cmp with None => false | Some c => compare_holds op c end)
      end
  | Logical and_op l r => b ← evaluate l row; if (b : bool) then evaluate r row else Ok false
  | Logical or_op l r => b ← evaluate l row; if (b : bool) then Ok true else evaluate r row
  | Negation e => b ← evaluate e row; Ok (negb b)
  end.
(** [!stmt.where || evaluate( *stmt.where, fields)]. *)
Definition selected (where_ : option expression) (row : list (string * value)) : result bool :=
  match where_ with None => Ok true | Some e => evaluate e row end.

(** ** Columns *)
Definition contains_column (columns : list column_definition) (name : string) : bool :=
  bool_decide (name ∈ cd_name <$> columns).
(** [type_by_name]: the first definition of a name wins, as with [emplace]. *)
Definition type_by_name (columns : list column_definition) : gmap string column_type :=
  list_to_map ((λ c, (cd_name c, cd_type c)) <$> columns).
Definition no_such_column (name : string) : error := sql_error ("no such column: " +:+ name).
Fixpoint check_columns (known : string → bool) (names : list string) : result unit :=
  match names with
  | [] => Ok tt
  | name :: names => if known name then check_columns known names else Throw (no_such_column name)
  end.

(** ** Reading and editing through references *)
Record sql_result := SqlResult {
  sr_message : string; sr_columns : list string; sr_rows : list (list literal); sr_affected : Z }.

Definition catalog_root_name : string := "sql.catalog".
Definition table_root_name (table : string) : string := "sql.table." +:+ table.

Section interpreter.
Context {W : Type} `{storage W}.
(** What a statement does in its transaction. *)
Abbreviation script := (session (W:=W)).

Definition read (token : Z) : script value :=
  t ← on_fst get;
  match data_of token t with
  | Some v => mret v
  | None => throw (undefined "no such reference")
  end.
Definition write (token : Z) (e : edit) : script unit := on_fst (modify (mutate token (run_edit e))).
(** A read that converts what it reads first, as the mutable accessors do. *)
Definition read_object (token : Z) : script (list (string * value)) :=
  _ ← write token e_as_object; v ← read token; mret (object_content v).
Definition read_array (token : Z) : script (list value) :=
  _ ← write token e_as_array; v ← read token; mret (array_content v).

(** [load_columns]: the definition [column] at place [i], then all of them. *)
Definition load_column (catalog : Z) (table : string) (i : nat) (column : value) : script column_definition :=
  let in_column e := e_key table (e_key "columns" (e_at i e)) in
  _ ← write catalog (in_column e_as_object);
  let fields := object_content column in
  name ← lift_result (at_field "name" fields);
  _ ← write catalog (in_column (e_key "name" e_as_string));
  type ← lift_result (at_field "type" fields);
  _ ← write catalog (in_column (e_key "type" e_as_string));
  t ← lift_result (column_type_from_string (string_content type));
  mret (ColumnDefinition (string_content name) t).
Fixpoint load_definitions (catalog : Z) (table : string) (i : nat) (definitions : list value)
    : script (list column_definition) :=
  match definitions with
  | [] => mret []
  | d :: definitions =>
      c ← load_column catalog table i d;
      cs ← load_definitions catalog table (S i) definitions;
      mret (c :: cs)
  end.
Definition load_columns (table : string) : script (list column_definition) :=
  catalog ← object_root catalog_root_name;
  entries ← read_object catalog;
  match om_find table entries with
  | None => throw (sql_error ("no such table: " +:+ table))
  | Some entry =>
      _ ← write catalog (e_key table e_as_object);
      definitions ← lift_result (at_field "columns" (object_content entry));
      _ ← write catalog (e_key table (e_key "columns" e_as_array));
      load_definitions catalog table 0 (array_content definitions)
  end.
(** [tx.root(table_root_name(table)).as_array()] *)
Definition open_table (table : string) : script (Z * list value) :=
  token ← root (table_root_name table);
  rows ← read_array token;
  mret (token, rows).

(** [execute(create_table_statement)] *)
Definition definition_value (column : column_definition) : value :=
  apply_edit (e_seq (e_key "name" (e_string (cd_name column)))
                    (e_key "type" (e_string (type_to_string (cd_type column))))) VNull.
Fixpoint push_definitions (catalog : Z) (table : string) (columns : list column_definition) : script unit :=
  match columns with
  | [] => mret tt
  | column :: columns =>
      _ ← write catalog (e_key table (e_key "columns" (e_push true (definition_value column))));
      push_definitions catalog table columns
  end.
Definition execute_create (stmt : create_table_statement) : script sql_result :=
  catalog ← object_root catalog_root_name;
  entries ← read_object catalog;
  if om_contains (ct_table stmt) entries
  then throw (sql_error ("table already exists: " +:+ ct_table stmt))
  else
    _ ← write catalog (e_key (ct_table stmt) (e_key "columns" e_as_array));
    _ ← push_definitions catalog (ct_table stmt) (ct_columns stmt);
    _ ← open_table (ct_table stmt);
    _ ← transaction_commit;
    mret (SqlResult "CREATE TABLE" [] [] 0).

(** [execute(insert_statement)]: the row is built as a value of its own. *)
Fixpoint null_fields (columns : list column_definition) (row : list (string * value)) : list (string * value) :=
  match columns with
  | [] => row
  | column :: columns => null_fields columns (om_put (cd_name column) VNull row)
  end.
Fixpoint fill_fields (types : gmap string column_type) (targets : list string) (tuple : list literal)
    (row : list (string * value)) : result (list (string * value)) :=
  match targets, tuple with
  | name :: targets, lit :: tuple =>
      type ← match types !! name with Some t => Ok t | None => Throw (out_of_range "unordered_map::at") end;
      coerced ← coerce lit type name;
      fill_fields types targets tuple (om_put name (literal_value coerced) row)
  | _, _ => Ok row
  end.
Definition build_row (columns : list column_definition) (targets : list string) (tuple : list literal)
    : result value :=
  if negb (size tuple =? size targets)
  then Throw (sql_error "value count does not match column count")
  else
    row ← fill_fields (type_by_name columns) targets tuple (null_fields columns []);
    Ok (VObject row).
Fixpoint insert_rows (token : Z) (columns : list column_definition) (targets : list string)
    (rows : list (list literal)) (inserted : Z) : script Z :=
  match rows with
  | [] => mret inserted
  | tuple :: rows =>
      row ← lift_result (build_row columns targets tuple);
      _ ← write token (e_push true row);
      insert_rows token columns targets rows (inserted + 1)
  end.
Definition execute_insert (stmt : insert_statement) : script sql_result :=
  columns ← load_columns (in_table stmt);
  let targets := match in_columns stmt with [] => cd_name <$> columns | names => names end in
  _ ← lift_result (check_columns (λ n, bool_decide (is_Some (type_by_name columns !! n))) targets);
  table ← open_table (in_table stmt);
  inserted ← insert_rows table.1 columns targets (in_rows stmt) 0;
  _ ← transaction_commit;
  mret (SqlResult ("INSERT " +:+ pretty inserted) [] [] inserted).

(** [execute(select_statement)] *)
Fixpoint select_rows (token : Z) (where_ : option expression) (rows : list value) (i : nat)
    : script (list (list (string * value))) :=
  match rows with
  | [] => mret []
  | row :: rows =>
      _ ← write token (e_at i e_as_object);
      b ← lift_result (selected where_ (object_content row));
      matched ← select_rows token where_ rows (S i);
      mret (if (b : bool) then object_content row :: matched else matched)
  end.
(** [std::stable_sort] by a comparison that may throw: a merge would compare other pairs, so
    that which of several errors is thrown is not specified; the order is. *)
Fixpoint insert_sorted (less : list (string * value) → list (string * value) → result bool)
    (x : list (string * value)) (l : list (list (string * value))) : result (list (list (string * value))) :=
  match l with
  | [] => Ok [x]
  | y :: l' =>
      b ← less x y;
      if (b : bool) then Ok (x :: l) else l' ← insert_sorted less x l'; Ok (y :: l')
  end.
Fixpoint stable_sort (less : list (string * value) → list (string * value) → result bool)
    (sorted l : list (list (string * value))) : result (list (list (string * value))) :=
  match l with
  | [] => Ok sorted
  | x :: l => sorted ← insert_sorted less x sorted; stable_sort less sorted l
  end.
(** What [std::stable_sort] asks of a comparison on the elements it sorts: that it is a strict order,
    and that those that are not ordered against each other form classes.  C++ leaves the call undefined
    otherwise, as for three keys of which one is a NaN. *)
Definition puts_before (less : list (string * value) → list (string * value) → result bool)
    (a b : list (string * value)) : bool :=
  match less a b with Ok b => b | Throw _ => false end.
Definition strict_weak (less : list (string * value) → list (string * value) → result bool)
    (rows : list (list (string * value))) : bool :=
  let before := puts_before less in
  let unordered a b := negb (before a b) && negb (before b a) in
  forallb (λ a, negb (before a a) && forallb (λ b, forallb (λ c,
    implb (before a b && before b c) (before a c) && implb (unordered a b && unordered b c) (unordered a c)) rows) rows) rows.
Definition sort_by (less : list (string * value) → list (string * value) → result bool)
    (rows : list (list (string * value))) : result (list (list (string * value))) :=
  if strict_weak less rows then stable_sort less [] rows
  else Throw (undefined "std::stable_sort without a strict weak order").
Definition ascending_order (key : string) (a b : list (string * value)) : result bool :=
  x ← at_field key a; y ← at_field key b; less_for_sort x y.
Definition sort_rows (order_by : option string) (direction : sort_direction)
    (rows : list (list (string * value))) : result (list (list (string * value))) :=
  match order_by with
  | None => Ok rows
  | Some key =>
      match direction with
      | ascending => sort_by (ascending_order key) rows
      | descending => sort_by (λ a b, ascending_order key b a) rows
      end
  end.
Definition limit_rows {A} (limit : option Z) (rows : list A) : list A :=
  match limit with
  | Some n => if (0 <=? n) && (n <? size rows) then take (Z.to_nat n) rows else rows
  | None => rows
  end.
Fixpoint project (names : list string) (row : list (string * value)) : result (list literal) :=
  match names with
  | [] => Ok []
  | name :: names =>
      v ← at_field name row; lit ← to_literal v; line ← project names row; Ok (lit :: line)
  end.
Fixpoint project_rows (names : list string) (rows : list (list (string * value))) : result (list (list literal)) :=
  match rows with
  | [] => Ok []
  | row :: rows => line ← project names row; lines ← project_rows names rows; Ok (line :: lines)
  end.
Definition execute_select (stmt : select_statement) : script sql_result :=
  columns ← load_columns (se_table stmt);
  projection ← (match se_columns stmt with
                | [] => mret (cd_name <$> columns)
                | names => _ ← lift_result (check_columns (contains_column columns) names); mret names
                end);
  _ ← lift_result (match se_order_by stmt with
                   | Some key => check_columns (contains_column columns) [key]
                   | None => Ok tt
                   end);
  table ← open_table (se_table stmt);
  matched ← select_rows table.1 (se_where stmt) table.2 0;
  sorted ← lift_result (sort_rows (se_order_by stmt) (se_direction stmt) matched);
  lines ← lift_result (project_rows projection (limit_rows (se_limit stmt) sorted));
  mret (SqlResult ("SELECT " +:+ pretty (size lines)) projection lines (size lines)).

(** [execute(update_statement)] *)
Fixpoint assign_fields (token : Z) (i : nat) (types : gmap string column_type)
    (assignments : list (string * literal)) : script unit :=
  match assignments with
  | [] => mret tt
  | (name, lit) :: assignments =>
      type ← lift_result (match types !! name with
                          | Some t => Ok t | None => Throw (out_of_range "unordered_map::at") end);
      coerced ← lift_result (coerce lit type name);
      _ ← write token (e_at i (e_key name (assign_literal coerced)));
      assign_fields token i types assignments
  end.
Fixpoint update_rows (token : Z) (types : gmap string column_type) (stmt : update_statement)
    (rows : list value) (i : nat) (updated : Z) : script Z :=
  match rows with
  | [] => mret updated
  | row :: rows =>
      _ ← write token (e_at i e_as_object);
      b ← lift_result (selected (up_where stmt) (object_content row));
      if negb b then update_rows token types stmt rows (S i) updated
      else
        _ ← assign_fields token i types (up_assignments stmt);
        update_rows token types stmt rows (S i) (updated + 1)
  end.
Definition execute_update (stmt : update_statement) : script sql_result :=
  columns ← load_columns (up_table stmt);
  let types := type_by_name columns in
  _ ← lift_result (check_columns (λ n, bool_decide (is_Some (types !! n))) (up_assignments stmt).*1);
  table ← open_table (up_table stmt);
  updated ← update_rows table.1 types stmt table.2 0 0;
  _ ← transaction_commit;
  mret (SqlResult ("UPDATE " +:+ pretty updated) [] [] updated).

(** [execute(delete_statement)]: the iterator stays where it is when its element is erased. *)
Fixpoint delete_rows (token : Z) (where_ : option expression) (rows : list value) (i : nat) (deleted : Z)
    : script Z :=
  match rows with
  | [] => mret deleted
  | row :: rows =>
      _ ← write token (e_at i e_as_object);
      b ← lift_result (selected where_ (object_content row));
      if (b : bool) then
        _ ← write token (e_erase_at i);
        delete_rows token where_ rows i (deleted + 1)
      else delete_rows token where_ rows (S i) deleted
  end.
Definition execute_delete (stmt : delete_statement) : script sql_result :=
  _ ← load_columns (de_table stmt);
  table ← open_table (de_table stmt);
  deleted ← delete_rows table.1 (de_where stmt) table.2 0 0;
  _ ← transaction_commit;
  mret (SqlResult ("DELETE " +:+ pretty deleted) [] [] deleted).

Definition execute_statement (stmt : statement) : script sql_result :=
  match stmt with
  | SCreate s => execute_create s
  | SInsert s => execute_insert s
  | SSelect s => execute_select s
  | SUpdate s => execute_update s
  | SDelete s => execute_delete s
  end.
(** A transaction begun for the statement, at the address of the local variable. *)
Definition in_transaction {A} (self : Z) (m : script A) : heap (W:=W) A :=
  tx ← transaction_begin self; with_local tx m.
(** [execute] and [list_tables] *)
Definition sql_execute (self : Z) (text : string) : heap (W:=W) sql_result :=
  parsed ← lift_result (parse_statement text);
  in_transaction self (execute_statement parsed).
Definition list_tables (self : Z) : heap (W:=W) sql_result :=
  in_transaction self (
    catalog ← object_root catalog_root_name;
    entries ← read_object catalog;
    mret (SqlResult "" ["table"] ((λ e, [LText e.1]) <$> entries) 0)).
End interpreter.
