(* ===== verification/SqlShell.v ===== *)
(** * The SQL shell: [run.hpp], [to_display_string.hpp], [execute.hpp] of the module [sql].

    It reads statements from the standard input, runs each on the heap, and prints tables.  Its
    state is the console over the heap over the storage. *)
From stdpp Require Import pretty.
From S2P Require Import Prelude.
From S2P Require Import Double.
From S2P Require Import Chars.
From S2P Require Import Console.
From S2P Require Import Storage.
From S2P Require Import Heap.
From S2P Require Import SqlSyntax.
From S2P Require Import SqlInterpreter.
From S2P Require Import Cli.
From Stdlib Require Import Ascii.
#[local] Open Scope Z_scope.

(** ** Printing *)
Definition to_display_string (lit : literal) : string :=
  match lit with
  | LNull => "NULL"
  | LBool b => if b then "true" else "false"
  | LInteger z => pretty z
  | LReal d => to_string_double d
  | LText s => s
  end.
(** [std::string(n, c)] *)
Definition filled (n : Z) (c : ascii) : string := text_of (replicate (Z.to_nat n) c).
Definition out_of_widths {A} : result A := Throw (undefined "widths[i]").
(** The inner loop over a row: every column at least as wide as its cell. *)
Fixpoint widen (widths : list Z) (cells : list string) : result (list Z) :=
  match cells, widths with
  | [], _ => Ok widths
  | _ :: _, [] => out_of_widths
  | cell :: cells, width :: widths =>
      rest ← widen widths cells; Ok (Z.max width (ssize cell) :: rest)
  end.
Fixpoint widen_all (widths : list Z) (rows : list (list string)) : result (list Z) :=
  match rows with
  | [] => Ok widths
  | row :: rows => widths ← widen widths row; widen_all widths rows
  end.
(** [print_row], from the [i]th value on; the subtraction is one of [std::size_t]. *)
Definition padded (width : Z) (text : string) : string :=
  text +:+ filled (u64 (width - ssize text)) " ".
Fixpoint row_text (first : bool) (widths : list Z) (values : list string) : result string :=
  match values, widths with
  | [], _ => Ok end_of_line
  | _ :: _, [] => out_of_widths
  | text :: values, width :: widths =>
      rest ← row_text false widths values;
      Ok ((if first then "" else " | ") +:+ padded width text +:+ rest)
  end.
Fixpoint rows_text (widths : list Z) (rows : list (list string)) : result string :=
  match rows with
  | [] => Ok ""
  | row :: rows =>
      line ← row_text true widths row; rest ← rows_text widths rows; Ok (line +:+ rest)
  end.
Definition rule_width (widths : list Z) : Z := foldl (λ n width, n + (width + 3)) 0 widths.
Definition table_text (columns : list string) (rows : list (list literal)) : result string :=
  let cells : list (list string) := map (map to_display_string) rows in
  widths ← widen_all (ssize <$> columns) cells;
  head ← row_text true widths columns;
  body ← rows_text widths cells;
  Ok (head +:+ (filled (rule_width widths) "-" +:+ end_of_line) +:+ body).
Definition result_text (res : sql_result) : result string :=
  table ← (if bool_decide (sr_columns res = []) then Ok "" else table_text (sr_columns res) (sr_rows res));
  Ok (table +:+ (if bool_decide (sr_message res = "") then "" else sr_message res +:+ end_of_line)).

Definition blank_char (c : ascii) : bool :=
  char_is c " " || char_is c "009" || char_is c "013" || char_is c "010".
Definition is_blank (text : list ascii) : bool := forallb blank_char text.

(** ** The loop *)
Definition usage : string := "usage: opheap-sql <database-directory>" +:+ end_of_line.
Definition greeting : string :=
  "opheap-sql: minimal SQL over an opheap store. Statements end with ';'. .tables lists tables, .exit quits."
  +:+ end_of_line.

Section shell.
Context {W : Type} `{storage W}.
(** The address of the local variable that holds a statement's transaction. *)
Context (self : Z).
Definition shell := M (console * (heap_state * W)).

Definition print_result (res : sql_result) : shell unit := text ← lift_result (result_text res); put text.
(** One statement: what it throws is printed. *)
Definition run_statement (text : list ascii) : shell unit :=
  catch (res ← on_snd (sql_execute self (text_of text)); print_result res) (λ e,
    match e with
    | undefined _ | out_of_fuel => throw e
    | e => put ("Error: " +:+ error_message e +:+ end_of_line)
    end).
(** The inner loop: the complete statements of the buffer, and what is left of it. *)
Fixpoint drain (fuel : nat) (buffer : list ascii) : shell (list ascii) :=
  match fuel with
  | O => throw out_of_fuel
  | S fuel =>
      match extract_statement (text_of buffer) with
      | None => mret buffer
      | Some (text, consumed) =>
          let buffer := drop consumed buffer in
          if is_blank (chars_of text) then drain fuel buffer
          else _ ← run_statement (chars_of text); drain fuel buffer
      end
  end.
(** Every statement takes its terminator at least. *)
Definition drain_all (buffer : list ascii) : shell (list ascii) := drain (S (length buffer)) buffer.
Definition cleared (buffer : list ascii) : list ascii := if is_blank buffer then [] else buffer.
Fixpoint repl (fuel : nat) (buffer : list ascii) : shell unit :=
  match fuel with
  | O => throw out_of_fuel
  | S fuel =>
      let empty := bool_decide (buffer = []) in
      _ ← put (if empty then "sql> " else "...> ");
      line ← get_line;
      match line with
      | None => mret tt
      | Some line =>
          if empty && is_one_of line [".exit"; ".quit"] then mret tt
          else if empty && bool_decide (line = ".tables") then
            _ ← (res ← on_snd (list_tables self); print_result res);
            repl fuel buffer
          else
            rest ← drain_all (buffer ++ chars_of line ++ ["010"%char]);
            repl fuel (cleared rest)
      end
  end.
(** Every line takes a character of the input at least. *)
Definition repl_all : shell unit := c ← on_fst get; repl (S (length (cn_input c))) [].

(** [run] and [execute]: the exit code. *)
Definition shell_run (arguments : list string) : program (W:=W) Z :=
  match arguments with
  | [] => throw (usage_error "missing <database-directory> argument")
  | path :: _ =>
      h ← on_snd (heap_open (default_config path));
      with_object h (
        _ ← put greeting;
        _ ← repl_all;
        _ ← on_snd checkpoint;
        mret 0)
  end.
Definition shell_execute (arguments : list string) : program (W:=W) Z :=
  catch (shell_run arguments) (λ e,
    match e with
    | usage_error what =>
        _ ← put_error ("opheap-sql: " +:+ what +:+ end_of_line); _ ← put_error usage; mret 2
    | e => throw e
    end).
End shell.
