(* ===== verification/CodecTheorems.v ===== *)
(** * Properties of the encodings: values, checksums, journal records. *)
From S2P Require Import Prelude.
From S2P Require Import Binary.
From S2P Require Import OrderedMap.
From S2P Require Import Value.
From S2P Require Import Codec.
From S2P Require Import Storage.
From S2P Require Import Journal.
From S2P Require Import Recovery.

(** C24: Every well-formed value survives [codec<value>]: decoding its encoding, whatever bytes
    follow, gives the value back and leaves exactly those bytes. *)
Theorem value_round_trip v rest :
  wf_value v → value_decode (value_encode v ++ rest) = (Ok v, rest).
Proof. intros Hv. exact (@decode_encode value _ value_codec_laws v rest Hv). Qed.
Definition sample_value : value :=
  VObject [("a", VArray [VInteger (-7); VBool true; VString "hi"]); ("b", VNumber 4607182418800017408)].
Lemma value_round_trip_witness :
  wf_value sample_value ∧ value_decode (value_encode sample_value ++ [x00]) = (Ok sample_value, [x00]).
Proof.
  assert (wf_value sample_value) as H.
  { repeat (constructor; try done). }
  split; [exact H|]. apply (value_round_trip sample_value [x00] H).
Defined.

(** An array that claims 2^63 elements and has none, and one that claims two and has them. *)
Definition greedy_array : list byte := scalar 1 tag_array ++ scalar 8 (2 ^ 63).
Definition honest_array : list byte := value_encode (VArray [VNull; VBool true]).

(** Different values have different encodings, and no encoding is a proper prefix of
    another. *)
Theorem value_encode_prefix_free v1 v2 rest1 rest2 :
  wf_value v1 → wf_value v2 →
  value_encode v1 ++ rest1 = value_encode v2 ++ rest2 → v1 = v2 ∧ rest1 = rest2.
Proof.
  intros H1 H2 E.
  assert (value_decode (value_encode v1 ++ rest1) = (Ok v1, rest1)) as D1
    by exact (@decode_encode value _ value_codec_laws v1 rest1 H1).
  assert (value_decode (value_encode v2 ++ rest2) = (Ok v2, rest2)) as D2
    by exact (@decode_encode value _ value_codec_laws v2 rest2 H2).
  rewrite E, D2 in D1. by injection D1 as -> ->.
Qed.
Lemma value_encode_prefix_free_witness :
  wf_value (VBool true) ∧ VBool true = VBool true ∧ [x00] = [x00].
Proof.
  split; [constructor|].
  apply (value_encode_prefix_free (VBool true) (VBool true) [x00] [x00]); [constructor|constructor|reflexivity].
Defined.

(** CRC-32C detects every change confined to four consecutive bytes: two messages of the
    same length that differ only inside such a window never have the same checksum. *)
Theorem crc32c_detects_window pre w w' post :
  length w = length w' → size w ≤ 4 → w ≠ w' →
  crc32c (pre ++ w ++ post) ≠ crc32c (pre ++ w' ++ post).
Proof. apply crc32c_window. Qed.
Lemma crc32c_detects_window_witness :
  crc32c ([x01] ++ [x02; x03] ++ [x04]) ≠ crc32c ([x01] ++ [x02; x07] ++ [x04]).
Proof. apply (crc32c_detects_window [x01] [x02; x03] [x02; x07] [x04]); [reflexivity|vm_compute; discriminate|discriminate]. Defined.

(** A record written by [make_record] is read back field by field by the loop of
    [journal::recover], with checksums on or off, for every record within the frame limit. *)
Theorem record_round_trip checksums r :
  wf_record r →
  run read_prefix (prefix_of_record r) = Ok (size (frame_of checksums r)) ∧
  read_frame checksums (frame_of checksums r) =
    Ok (lr_type r, lr_sequence r, lr_transaction r, lr_payload r) ∧
  make_record (lr_type r) (lr_sequence r) (lr_transaction r) (lr_payload r) checksums =
    prefix_of_record r ++ frame_of checksums r.
Proof.
  intros Hr. split_and!; [|by apply read_frame_of|apply log_frame_eq].
  rewrite read_prefix_of_record by done. autorewrite with size. f_equal. lia.
Qed.
Definition sample_record : log_record := LogRecord rt_commit 3 1 (scalar 8 1).
Lemma record_round_trip_witness :
  read_frame true (frame_of true sample_record) = Ok (rt_commit, 3, 1, scalar 8 1).
Proof.
  apply (record_round_trip true sample_record).
  unfold wf_record, sample_record, is_u64; simpl. autorewrite with size. vm_compute. split_and!; congruence.
Defined.

(** What [decode_update] reconstructs from an encoded root update is the update itself, with
    a locator that designates the bytes of its payload in the file and carries their checksum. *)
Theorem update_round_trip u before after k :
  wf_update u →
  decode_update (e_bytes (encode_update u)) (size before) =
    Ok (recovered_of u (Loc src_journal (size before + e_payload_offset (encode_update u))
                            (size (u_payload u)) (crc32c (u_payload u)))) ∧
  loc_holds (before ++ e_bytes (encode_update u) ++ after)
    (Loc k (size before + e_payload_offset (encode_update u)) (size (u_payload u)) (crc32c (u_payload u)))
    (u_payload u).
Proof.
  intros Hu. split; [by apply decode_encode_update|].
  destruct (encode_update_split u) as (h & -> & <-). rewrite <- size_app, <- app_assoc, app_assoc.
  apply loc_holds_mid.
Qed.
Definition sample_update : root_update := RootUpdate "r" 0 1 "t" [x05; x06].
Lemma update_round_trip_witness :
  wf_update sample_update ∧
  decode_update (e_bytes (encode_update sample_update)) (size [x00]) =
    Ok (recovered_of sample_update (Loc src_journal 43 2 (crc32c [x05; x06]))).
Proof.
  assert (wf_update sample_update) as H.
  { unfold wf_update, is_u64. destruct (size_encode_update sample_update) as [E1 E2].
    rewrite E1, E2. vm_compute. split_and!; congruence. }
  split; [exact H|]. apply (update_round_trip sample_update [x00] [] src_journal H).
Defined.

(** With checksums on, a record whose body was changed in up to four consecutive bytes is
    rejected as corrupt; recovery never reads its fields. *)
Theorem corrupted_body_detected r pre w w' post :
  body_of r = pre ++ w ++ post → length w = length w' → size w ≤ 4 → w ≠ w' →
  read_frame true (pre ++ w' ++ post ++ scalar 4 (checksum_of true r)) =
  Throw (corruption_error "journal checksum mismatch").
Proof.
  intros Hb Hl Hs Hne. unfold read_frame.
  assert (size (pre ++ w' ++ post) = size (body_of r)) as Hsz by (rewrite Hb; unfold size; rewrite !length_app; lia).
  rewrite !app_assoc, <- (app_assoc pre). rewrite size_app, size_scalar.
  pose proof (size_nonneg (pre ++ w' ++ post)).
  destruct (Z.ltb_spec (size (pre ++ w' ++ post) + Z.of_nat 4) 4); [lia|].
  assert (Z.to_nat (size (pre ++ w' ++ post) + Z.of_nat 4 - 4) = length (pre ++ w' ++ post)) as ->
    by (unfold size; lia).
  rewrite drop_app_length, take_app_length.
  rewrite (run_ok _ _ _ _ (r_scalar_all 4 _)). simpl mbind. unfold checksum_of.
  rewrite Z.mod_small by apply (crc32c_u32 (body_of r)). rewrite Hb.
  destruct (Z.eqb_spec (crc32c (pre ++ w ++ post)) (crc32c (pre ++ w' ++ post))) as [E|]; [|done].
  exfalso. by eapply crc32c_window.
Qed.
Lemma corrupted_body_detected_witness :
  let r := LogRecord 1 1 1 [x08] in
  read_frame true (take 28 (body_of r) ++ [x09] ++ [] ++ scalar 4 (checksum_of true r)) =
  Throw (corruption_error "journal checksum mismatch").
Proof.
  apply (corrupted_body_detected (LogRecord 1 1 1 [x08]) (take 28 (body_of (LogRecord 1 1 1 [x08]))) [x08] [x09] []);
    [vm_compute; reflexivity|reflexivity|vm_compute; discriminate|discriminate].
Defined.
