(* ===== verification/JournalTheorems.v ===== *)
(** * Properties of the write-ahead journal. *)
From S2P Require Import Prelude.
From S2P Require Import Binary.
From S2P Require Import Codec.
From S2P Require Import Storage.
From S2P Require Import Journal.
From S2P Require Import Recovery.
From S2P Require Import Damage.

(** ** Recovery is total: helper lemmas *)
(** The fuel of [recover] is enough on any contents. *)
Lemma scan_loop_corruption ck snap fuel c s e :
  0 ≤ s_offset s → size c - s_offset s ≤ Z.of_nat fuel →
  scan_loop ck snap fuel c s = Throw e → is_corruption e.
Proof.
  revert s. induction fuel as [|fuel IH]; intros s Ho Hf; simpl;
    (destruct (Z.ltb_spec (s_offset s) (size c)); [try lia|done]).
  destruct (scan_step ck snap c s) as [[s'|]|e'] eqn:E; simpl; [|done|].
  - apply IH; apply scan_step_inv in E; lia.
  - intros [= <-]. by eapply scan_step_corruption.
Qed.

(** ** Transaction ids with records left over *)
Section leftovers.
Context (j : journal) (tx snapshot_sequence : Z).

Lemma replay_batch_leftover seq updates s us b :
  Forall wf_update updates → 0 ≤ seq → seq + size updates + 2 < u64_bound →
  s_last_sequence s = seq → s_pending s !! tx = Some (Pending us b) → us ≠ [] →
  ∃ s', replay snapshot_sequence (begin_record tx seq :: update_records tx (seq + 1) updates) s = Ok s' ∧
    replay_record snapshot_sequence (commit_record tx (seq + 1 + size updates) (size updates)) s' =
    Throw (corruption_error "COMMIT update count mismatch").
Proof.
  intros Hu Hq0 Hq Hs Hp Hus. simpl replay. unfold replay_record at 1; simpl.
  destruct (Z.leb_spec (seq + 1) (s_last_sequence s)); [lia|]. simpl.
  unfold process_record; simpl. unfold pending_of at 1. rewrite Hp. simpl.
  match goal with |- context [replay _ _ ?t] => set (s1 := t) end.
  destruct (replay_updates tx snapshot_sequence (seq + 1) updates s1 us)
    as (s2 & Hr2 & _ & Hq2 & Hp2 & _).
  { done. }
  { unfold s1; simpl. by rewrite pending_of_insert. }
  { unfold s1; simpl. lia. }
  exists s2. split; [done|]. unfold replay_record; simpl.
  destruct (Z.leb_spec (seq + 1 + size updates + 1) (s_last_sequence s2)); [lia|]. simpl.
  unfold process_record; simpl. unfold pending_of in Hp2.
  destruct (s_pending s2 !! tx) as [[us2 b2]|]; simpl in Hp2.
  2:{ injection Hp2 as E. exfalso. apply Hus. by destruct us. }
  injection Hp2 as -> ->. pose proof (size_nonneg updates).
  rewrite (run_ok _ _ _ _ (eq_trans (bind_ok _ _ _ _ _ (r_scalar_u64_all (size updates) ltac:(unfold is_u64; lia))) eq_refl)).
  simpl. match goal with |- context [size updates =? ?m] => destruct (Z.eqb_spec (size updates) m) as [e|] end;
    [|done].
  exfalso. apply Hus. destruct us; [done|]. revert e. unfold size. rewrite length_app, length_zip_with, update_locs_length.
  simpl. lia.
Qed.
Lemma scan_batch_leftover c s0 s updates us b :
  complete (j_checksums j) snapshot_sequence c s0 s → 0 ≤ s_offset s0 → is_u64 tx →
  Forall wf_update updates → 0 ≤ s_last_sequence s → s_last_sequence s + size updates + 2 < u64_bound →
  s_pending s !! tx = Some (Pending us b) → us ≠ [] →
  scan_all (j_checksums j) snapshot_sequence (c ++ batch_bytes j tx (s_last_sequence s) updates) s0 =
  Throw (corruption_error "COMMIT update count mismatch").
Proof.
  intros Hc Ho0 Htx Hu Hq0 Hq Hp Hus.
  destruct (replay_batch_leftover (s_last_sequence s) updates s us b) as (s' & Hr & Ht); [done..|].
  pose proof (wf_batch tx (s_last_sequence s) updates Htx Hq0 Hq Hu) as Hw.
  assert (batch_records tx (s_last_sequence s) updates =
    (begin_record tx (s_last_sequence s) :: update_records tx (s_last_sequence s + 1) updates) ++
    [commit_record tx (s_last_sequence s + 1 + size updates) (size updates)]) as E by done.
  unfold batch_bytes. rewrite E in *. apply Forall_app in Hw as [Hw1 Hw2]. apply Forall_cons in Hw2 as [Hw2 _].
  pose proof (complete_records _ _ _ _ _ _ _ Hc Ho0 Hw1 Hr) as Hc'. destruct Hc' as (Hs' & Ho' & _).
  unfold log_bytes at 1. rewrite flat_map_app, app_assoc. fold (log_bytes (j_checksums j)).
  change (flat_map (log_frame (j_checksums j))) with (log_bytes (j_checksums j)).
  rewrite (scan_all_app _ _ _ _ _ _ Hs' Ho0 Ho'). rewrite scan_all_unfold by (rewrite Ho'; done).
  set (d := c ++ _) in *. set (r := commit_record _ _ _) in *.
  assert (log_bytes (j_checksums j) [r] = log_frame (j_checksums j) r) as -> by apply app_nil_r.
  rewrite size_app, Ho', size_log_frame. pose proof (size_nonneg (lr_payload r)).
  destruct (Z.ltb_spec (size d) (size d + (44 + size (lr_payload r)))); [|lia].
  pose proof (scan_step_record (j_checksums j) snapshot_sequence d r [] s' Hw2 Ho') as Hstep.
  rewrite app_nil_r, Ht in Hstep. by rewrite Hstep.
Qed.
End leftovers.

(** ** Frames that claim to be longer than the file *)
Lemma scan_step_overlong ck snap before n rest s :
  s_offset s = size before → 4 ≤ n ≤ max_frame_size → size rest < n →
  scan_step ck snap (before ++ (scalar 4 record_magic ++ scalar 8 n) ++ rest) s = Ok None.
Proof.
  intros Ho Hn Hr. unfold scan_step. rewrite Ho. autorewrite with size. unfold prefix_size.
  pose proof (size_nonneg rest). simpl (Z.of_nat _).
  match goal with |- context [if ?b then _ else _] => destruct b eqn:E end; [done|].
  replace (4 + 8) with (size (scalar 4 record_magic ++ scalar 8 n)) by (by autorewrite with size).
  rewrite slice_mid. unfold read_prefix, run. m_run (r_scalar_scalar 4 record_magic (scalar 8 n)).
  change (record_magic `mod` 2 ^ (8 * Z.of_nat 4)) with record_magic. rewrite Z.eqb_refl. cbn [negb].
  assert (is_u64 n) as Hu by (unfold is_u64, u64_bound, max_frame_size in *; lia).
  m_run (r_scalar_u64_all n Hu).
  destruct (Z.ltb_spec n 4); [lia|]. destruct (Z.gtb_spec n max_frame_size); [lia|]. simpl.
  match goal with |- context [if ?b then _ else _] => destruct b eqn:E2 end; [done|].
  autorewrite with size in E2. lia.
Qed.

(** ** A journal to try the theorems on *)
Definition sample_journal : journal := Journal "w" strict true.
Definition sample_disk (c : list byte) : Disk.disk := Disk.Mk {["w" := Disk.Dfile c c true]} ∅ [].
Definition sample_updates : list root_update := [RootUpdate "r" 0 1 "t" [x05; x06]].
Definition sample_start : scan := initial_scan ∅ 0.
Lemma sample_wf : Forall wf_update sample_updates.
Proof.
  constructor; [|constructor]. unfold wf_update.
  destruct (size_encode_update (RootUpdate "r" 0 1 "t" [x05; x06])) as [-> ->]. done.
Qed.
Lemma sample_names : NoDup (u_name <$> sample_updates).
Proof. apply NoDup_singleton. Qed.
Lemma sample_checked : checked sample_updates ∅.
Proof. repeat constructor. Qed.

(** ** The properties *)
Section journal_theorems.
Context {W : Type} `{HW : storage_reliable W} (j : journal).
Let p := j_path j.
Let ck := j_checksums j.

(** C19: A committed transaction is recovered.  Take a journal that scans completely and has no
    unfinished records of transaction [tx], updates of distinct roots at the versions the scan found,
    and sequence numbers enough.  After [journal::append] has put their batch behind the journal,
    [journal::recover] gives, on reliable storage, the roots of before with exactly the updates of the
    batch published, at the locators [append] returned, and keeps every byte.  (With unfinished records
    of the same id it fails: [reused_transaction_unrecoverable].) *)
Theorem append_recovers c base snap s tx updates q (w : W) :
  file_of w p = Some c → complete ck snap c (initial_scan base snap) s →
  is_u64 tx → s_pending s !! tx = None →
  0 ≤ s_last_sequence s → s_last_sequence s + size updates + 2 < u64_bound →
  Forall wf_update updates → NoDup (u_name <$> updates) → checked updates (s_roots s) →
  reliable w →
  ∃ locs w1, journal_append j tx updates (s_last_sequence s, w) =
    (Ok locs, (s_last_sequence s + size updates + 2, w1)) ∧
  ∃ r w2, recover j base snap true (q, w1) = (Ok r, (s_last_sequence s + size updates + 2, w2)) ∧
    r_roots r = publish updates locs (s_roots s) ∧ file_of w2 p = file_of w1 p.
Proof.
  intros Hf Hc Htx Hpend Hq0 Hq Hu Hd Hck Hrel.
  destruct (journal_append_spec j tx c (s_last_sequence s) updates w Hf Hq0 Hq)
    as (r & w1 & E & _ & _ & Hok). destruct (Hok Hrel) as [Hrel1 ->].
  exists (update_locs (size c + 44) updates), w1. split; [done|].
  assert (file_of w1 p = Some (c ++ batch_bytes j tx (s_last_sequence s) updates)) as Hf1.
  { destruct (journal_append_spec j tx c (s_last_sequence s) updates w Hf Hq0 Hq)
      as (r' & w1' & E' & _ & Hr' & _). rewrite E in E'. injection E' as <- <-. apply Hr'. }
  assert (length updates = length (update_locs (size c + 44) updates)) as Hlen
    by by rewrite update_locs_length.
  destruct Hc as (Hs & Ho & Hg).
  destruct (batch_complete j tx snap c (initial_scan base snap) s updates
    (publish updates (update_locs (size c + 44) updates) (s_roots s)))
    as (s' & (Hs1 & Ho1 & Hg1) & Hr & Hl & _); [by split_and!|done|done|done|done|done|done| |].
  { by apply apply_updates_publish. }
  destruct (recover_scan j base snap true q _ w1 Hf1) as (rr & q' & w2 & E2 & _ & Hrr & Hok2).
  destruct (Hok2 Hrel1) as [_ Err]. rewrite Hs1 in Err. simpl in Err. subst rr.
  destruct Hrr as (s2 & Es2 & _ & -> & Hf2). rewrite Hs1 in Es2. injection Es2 as <-.
  exists (result_of s'), w2. rewrite <- Hl. split_and!; [exact E2|exact Hr|].
  fold p in Hf2. rewrite Hf2, Hf1. unfold kept. rewrite Hg1. unfold size. by rewrite Nat2Z.id, firstn_all.
Qed.

(** C20: A commit that did not reach the disk completely never happened.  Whatever proper prefix
    of a batch follows a complete journal, [journal::recover] gives the roots of before, without
    any of the transaction's updates, and cuts the file somewhere inside the torn batch: no byte
    of an earlier transaction is lost. *)
Theorem torn_append_ignored c base snap s tx updates k q (w : W) :
  complete ck snap c (initial_scan base snap) s →
  is_u64 tx → s_pending s !! tx = None →
  0 ≤ s_last_sequence s → s_last_sequence s + size updates + 2 < u64_bound →
  Forall wf_update updates → (k < length (batch_bytes j tx (s_last_sequence s) updates))%nat →
  file_of w p = Some (c ++ take k (batch_bytes j tx (s_last_sequence s) updates)) →
  reliable w →
  ∃ r q' w' n, recover j base snap true (q, w) = (Ok r, (q', w')) ∧ r_roots r = s_roots s ∧
    file_of w' p = Some (c ++ take n (batch_bytes j tx (s_last_sequence s) updates)) ∧ (n ≤ k)%nat.
Proof.
  intros Hc Htx Hpend Hq0 Hq Hu Hk Hf Hrel.
  destruct (batch_torn j tx snap c (initial_scan base snap) s updates k Hc)
    as (s' & Hs & Hr & _ & _); [done..|].
  destruct (recover_scan j base snap true q _ w Hf) as (rr & q' & w2 & E2 & _ & Hrr & Hok2).
  destruct (Hok2 Hrel) as [_ Err]. rewrite Hs in Err. simpl in Err. subst rr.
  destruct Hrr as (s2 & Es2 & _ & -> & Hf2). rewrite Hs in Es2. injection Es2 as <-.
  exists (result_of s'), (s_last_sequence s'), w2, (Nat.min (Z.to_nat (s_last_good s') - length c) k)%nat.
  split_and!; [exact E2|exact Hr| |lia].
  fold p in Hf2. rewrite Hf2. unfold kept. rewrite take_app, take_take. do 2 f_equal.
  pose proof (torn_good_part _ _ _ _ _ _ _ Hc Hs ltac:(done)).
  apply firstn_all2. unfold size in *. lia.
Qed.

(** C21: [journal::recover] ends on every file.  Whatever bytes the journal holds, it either
    returns a result whose [valid_bytes] lie inside the file, having cut the file there if it was
    asked to, or it throws [corruption_error] and leaves the file alone; its loop never needs
    more turns than the file has bytes. *)
Theorem recover_total c base snap trunc q (w : W) :
  file_of w p = Some c → reliable w →
  ∃ r q' w', recover j base snap trunc (q, w) = (r, (q', w')) ∧
    match r with
    | Ok r => 0 ≤ r_valid_bytes r ≤ size c ∧
              file_of w' p = Some (if trunc then take (Z.to_nat (r_valid_bytes r)) c else c)
    | Throw e => is_corruption e ∧ q' = q ∧ file_of w' p = Some c
    end.
Proof.
  intros Hf Hrel. destruct (recover_scan j base snap trunc q c w Hf) as (r & q' & w' & E & _ & Hr & Hok).
  destruct (Hok Hrel) as [_ Er]. exists r, q', w'. split; [done|]. destruct r as [r|e].
  - destruct Hr as (s & Hs & -> & _ & Hf'). split; [|done]. simpl.
    by destruct (complete_truncated _ _ c _ _ Hs) as [_ ?]; [simpl; pose proof (size_nonneg c); lia|..].
  - destruct (scan_all (j_checksums j) snap c (initial_scan base snap)) as [s|e'] eqn:Es; simpl in Er; [done|].
    injection Er as <-. destruct Hr as [-> [Hf'|(s & [=] & _)]]. split_and!; [|done|done].
    eapply scan_loop_corruption; [..|exact Es]; simpl; pose proof (size_nonneg c); lia.
Qed.

(** What [journal::append] returns designates the payloads it was given: [journal::load] of
    each locator gives the payload of the corresponding update back, checksum included. *)
Theorem appended_payloads_load c seq tx updates i u (w : W) :
  file_of w p = Some c → 0 ≤ seq → seq + size updates + 2 < u64_bound →
  Forall wf_update updates → updates !! i = Some u → reliable w →
  ∃ locs w1 l, journal_append j tx updates (seq, w) = (Ok locs, (seq + size updates + 2, w1)) ∧
    locs !! i = Some l ∧ ∃ w2, journal_load j l w1 = (Ok (u_payload u), w2).
Proof.
  intros Hf Hq0 Hq Hu Hi Hrel.
  destruct (journal_append_spec j tx c seq updates w Hf Hq0 Hq) as (r & w1 & E & _ & Hr & Hok).
  destruct (Hok Hrel) as [Hrel1 ->]. destruct Hr as [_ Hf1].
  pose proof (batch_locs_hold j tx c seq updates) as Hall.
  assert ((u_payload <$> updates) !! i = Some (u_payload u)) as Hp by by rewrite list_lookup_fmap, Hi.
  destruct (Forall2_lookup_r _ _ _ _ _ Hall Hp) as (l & Hl & Hh).
  exists (update_locs (size c + 44) updates), w1, l. split_and!; [done|done|].
  assert (l_kind l = src_journal) as Hk.
  { eapply (Forall_lookup_1 (λ l, l_kind l = src_journal)); [apply update_locs_kind|done]. }
  assert (size (u_payload u) < u64_bound) as Hs 
    by (destruct (wf_update_u64 u (Forall_lookup_1 _ _ _ _ Hu Hi)) as (_ & _ & [_ ?]); done).
  destruct (journal_load_holds j _ _ _ _ Hf1 Hh Hk Hs) as (r & w2 & E2 & _ & _ & Hok2).
  destruct (Hok2 Hrel1) as [-> _]. by exists w2.
Qed.

(** Replaying a journal over a snapshot that already contains its effects changes nothing:
    recovery after a crash between publishing the snapshot and resetting the journal gives
    exactly the snapshot's roots and sequence. *)
Theorem recover_over_snapshot c base snap s base' snap' trunc q (w : W) :
  file_of w p = Some c → scan_all ck snap c (initial_scan base snap) = Ok s →
  (∀ n, version_of (s_roots s) n ≤ version_of base' n) → s_last_sequence s ≤ snap' → reliable w →
  ∃ r w', recover j base' snap' trunc (q, w) = (Ok r, (snap', w')) ∧
    r_roots r = base' ∧ r_last_sequence r = snap' ∧ r_records r = s_records s.
Proof.
  intros Hf Hs Hv Hq Hrel.
  destruct (scan_all_over ck snap snap' base' c _ s (initial_scan base' snap') Hs)
    as (t & Ht & Hr & Hl & Hn & _); [done|by split_and!|by split|].
  destruct (recover_scan j base' snap' trunc q c w Hf) as (r & q' & w' & E & _ & Hrr & Hok).
  destruct (Hok Hrel) as [_ Er]. fold ck in Er, Hrr. rewrite Ht in Er. simpl in Er. subst r.
  destruct Hrr as (t' & Et & _ & -> & _). rewrite Ht in Et. injection Et as <-.
  exists (result_of t), w'. split_and!; [by rewrite E, Hl|exact Hr|exact Hl|exact Hn].
Qed.

(** A transaction id must not be reused while records of it are in the journal.  When the
    journal ends with a [BEGIN] and some updates of [tx] and no [COMMIT], [journal::append] of a
    batch under the same id succeeds, and the journal it leaves can not be recovered: the
    leftover updates are counted with the new ones. *)
Theorem reused_transaction_unrecoverable c base snap s tx us b updates q trunc (w : W) :
  file_of w p = Some c → complete ck snap c (initial_scan base snap) s →
  is_u64 tx → s_pending s !! tx = Some (Pending us b) → us ≠ [] →
  0 ≤ s_last_sequence s → s_last_sequence s + size updates + 2 < u64_bound →
  Forall wf_update updates → reliable w →
  ∃ locs q1 w1, journal_append j tx updates (s_last_sequence s, w) = (Ok locs, (q1, w1)) ∧
  ∃ w2, recover j base snap trunc (q, w1) =
    (Throw (corruption_error "COMMIT update count mismatch"), (q, w2)).
Proof.
  intros Hf Hc Htx Hpend Hus Hq0 Hq Hu Hrel.
  destruct (journal_append_spec j tx c (s_last_sequence s) updates w Hf Hq0 Hq)
    as (r & w1 & E & _ & Hr & Hok). destruct (Hok Hrel) as [Hrel1 ->]. destruct Hr as [_ Hf1].
  do 3 eexists. split; [exact E|].
  destruct (recover_scan j base snap trunc q _ w1 Hf1) as (rr & q' & w2 & E2 & _ & Hrr & Hok2).
  destruct (Hok2 Hrel1) as [_ Err].
  rewrite (scan_batch_leftover j tx snap c (initial_scan base snap) s updates us b) in Err by done.
  simpl in Err. subst rr. destruct Hrr as [-> _]. by exists w2.
Qed.

(** The length field of a record is not protected by the record's checksum.  A record whose
    length, after damage, reaches past the end of the file is taken for a torn tail: recovery
    succeeds and cuts it off together with everything behind it, committed or not. *)
Theorem damaged_length_truncates c base snap s n rest q (w : W) :
  complete ck snap c (initial_scan base snap) s → 4 ≤ n ≤ max_frame_size → size rest < n →
  file_of w p = Some (c ++ (scalar 4 record_magic ++ scalar 8 n) ++ rest) → reliable w →
  ∃ r q' w', recover j base snap true (q, w) = (Ok r, (q', w')) ∧ r_roots r = s_roots s ∧
    file_of w' p = Some c.
Proof.
  intros (Hs & Ho & Hg) Hn Hrest Hf Hrel.
  set (x := (scalar 4 record_magic ++ scalar 8 n) ++ rest) in *.
  assert (scan_all ck snap (c ++ x) (initial_scan base snap) = Ok s) as Hscan.
  { rewrite (scan_all_app _ _ _ _ _ _ Hs) by done. rewrite scan_all_unfold by (rewrite Ho; done).
    pose proof (scan_step_overlong ck snap c n rest s Ho Hn Hrest) as Hstep. fold x in Hstep. rewrite Hstep. case_match; done. }
  destruct (recover_scan j base snap true q _ w Hf) as (r & q' & w' & E & _ & Hr & Hok).
  destruct (Hok Hrel) as [_ Er]. fold ck in Er, Hr. rewrite Hscan in Er. simpl in Er. subst r.
  destruct Hr as (s' & Es & _ & -> & Hf'). rewrite Hscan in Es. injection Es as <-.
  do 3 eexists. split_and!; [exact E|done|]. fold p in Hf'. rewrite Hf'. unfold kept. rewrite Hg.
  unfold size. by rewrite Nat2Z.id, take_app_length.
Qed.
End journal_theorems.

(** ** The properties at work *)
Lemma append_recovers_witness :
  ∃ locs w1, journal_append sample_journal 1 sample_updates (0, sample_disk []) = (Ok locs, (3, w1)) ∧
  ∃ r w2, recover sample_journal ∅ 0 true (0, w1) = (Ok r, (3, w2)) ∧
    r_roots r = publish sample_updates locs ∅ ∧ file_of w2 "w" = file_of w1 "w".
Proof.
  apply (append_recovers sample_journal [] ∅ 0 sample_start 1 sample_updates 0 (sample_disk []));
    [reflexivity|split_and!; reflexivity|vm_compute; split; congruence|reflexivity|done|done
    |exact sample_wf|exact sample_names|exact sample_checked|reflexivity].
Defined.

(** The first 60 bytes of the batch: its [BEGIN] and part of the update. *)
Definition sample_torn : list byte := take 60 (batch_bytes sample_journal 1 0 sample_updates).
Lemma torn_append_ignored_witness :
  ∃ r q' w' n, recover sample_journal ∅ 0 true (0, sample_disk sample_torn) = (Ok r, (q', w')) ∧
    r_roots r = ∅ ∧ file_of w' "w" = Some ([] ++ take n (batch_bytes sample_journal 1 0 sample_updates)) ∧ (n ≤ 60)%nat.
Proof.
  apply (torn_append_ignored sample_journal [] ∅ 0 sample_start 1 sample_updates 60 0 (sample_disk sample_torn));
    [split_and!; reflexivity|vm_compute; split; congruence|reflexivity|done|done
    |exact sample_wf|apply Nat.ltb_lt; vm_compute; reflexivity|reflexivity|reflexivity].
Defined.

Lemma recover_total_witness :
  ∃ r q' w', recover sample_journal ∅ 0 true (0, sample_disk [x01; x02]) = (r, (q', w')) ∧
    match r with
    | Ok r => 0 ≤ r_valid_bytes r ≤ 2 ∧
              file_of w' "w" = Some (take (Z.to_nat (r_valid_bytes r)) [x01; x02])
    | Throw e => is_corruption e ∧ q' = 0 ∧ file_of w' "w" = Some [x01; x02]
    end.
Proof. apply (recover_total sample_journal [x01; x02] ∅ 0 true 0 (sample_disk [x01; x02])); reflexivity. Defined.

Lemma appended_payloads_load_witness :
  ∃ locs w1 l, journal_append sample_journal 1 sample_updates (0, sample_disk []) = (Ok locs, (3, w1)) ∧
    locs !! 0%nat = Some l ∧ ∃ w2, journal_load sample_journal l w1 = (Ok [x05; x06], w2).
Proof.
  apply (appended_payloads_load sample_journal [] 0 1 sample_updates 0 (RootUpdate "r" 0 1 "t" [x05; x06]) (sample_disk []));
    [reflexivity|done|done|exact sample_wf|reflexivity|reflexivity].
Defined.

(** A journal with one committed transaction, and what scanning it gives. *)
Definition sample_log : list byte := batch_bytes sample_journal 1 0 sample_updates.
Definition scanned (c : list byte) : scan :=
  match scan_all true 0 c sample_start with Ok s => s | Throw _ => sample_start end.
Lemma recover_over_snapshot_witness :
  ∃ r w', recover sample_journal (s_roots (scanned sample_log)) 3 true (0, sample_disk sample_log) = (Ok r, (3, w')) ∧
    r_roots r = s_roots (scanned sample_log) ∧ r_last_sequence r = 3 ∧ r_records r = s_records (scanned sample_log).
Proof.
  apply (recover_over_snapshot sample_journal sample_log ∅ 0 (scanned sample_log) (s_roots (scanned sample_log)) 3 true 0
    (sample_disk sample_log)); [reflexivity|vm_compute; reflexivity|done|apply Z.leb_le; vm_compute; reflexivity|reflexivity].
Defined.

(** A journal that ends with the [BEGIN] and the update of transaction 1. *)
Definition sample_leftover : list byte := log_bytes true (take 2 (batch_records 1 0 sample_updates)).
Lemma reused_transaction_unrecoverable_witness :
  ∃ locs q1 w1, journal_append sample_journal 1 sample_updates (2, sample_disk sample_leftover) = (Ok locs, (q1, w1)) ∧
  ∃ w2, recover sample_journal ∅ 0 true (0, w1) = (Throw (corruption_error "COMMIT update count mismatch"), (0, w2)).
Proof.
  apply (reused_transaction_unrecoverable sample_journal sample_leftover ∅ 0 (scanned sample_leftover) 1
    (p_updates (pending_of (s_pending (scanned sample_leftover)) 1)) true sample_updates 0 true (sample_disk sample_leftover));
    [reflexivity|split_and!; vm_compute; reflexivity|vm_compute; split; congruence|vm_compute; reflexivity
    |vm_compute; congruence|apply Z.leb_le; vm_compute; reflexivity|apply Z.ltb_lt; vm_compute; reflexivity|exact sample_wf|reflexivity].
Defined.

(** A committed transaction whose first length field reads 1000 instead of 32. *)
Definition sample_damaged : list byte :=
  [] ++ (scalar 4 record_magic ++ scalar 8 1000) ++ drop 12 sample_log.
Lemma damaged_length_truncates_witness :
  ∃ r q' w', recover sample_journal ∅ 0 true (0, sample_disk sample_damaged) = (Ok r, (q', w')) ∧
    r_roots r = ∅ ∧ file_of w' "w" = Some [].
Proof.
  apply (damaged_length_truncates sample_journal [] ∅ 0 sample_start 1000 (drop 12 sample_log) 0 (sample_disk sample_damaged));
    [split_and!; reflexivity|vm_compute; split; congruence|apply Z.ltb_lt; vm_compute; reflexivity|reflexivity|reflexivity].
Defined.
