(* ===== verification/StoreTheorems.v ===== *)
(** * Properties of the snapshot store and of the payload cache. *)
From S2P Require Import Prelude.
From S2P Require Import Binary.
From S2P Require Import Codec.
From S2P Require Import OrderedMap.
From S2P Require Import Storage.
From S2P Require Import Journal.
From S2P Require Import Recovery.
From S2P Require Import Snapshot.
From S2P Require Import SnapshotImage.
From S2P Require Import Cache.

(** ** Loading is total: helper lemmas *)
Lemma safe_read_entry r : safe_at read_entry r.
Proof. unfold read_entry. do 6 (apply safe_bind; [done|]; intros ? ? _). done. Qed.
Lemma safe_read_header r : safe_at read_header r.
Proof.
  unfold read_header. apply safe_bind; [done|]. intros ? ? _. apply safe_if; [done|].
  apply safe_bind; [done|]. intros ? ? _. apply safe_if; [done|].
  do 5 (apply safe_bind; [done|]; intros ? ? _). apply safe_bind; [done|]. intros ? ? _. by apply safe_if.
Qed.
Lemma safe_parse_root n base roots r : safe_at (parse_root n base roots) r.
Proof.
  unfold parse_root. apply safe_bind; [apply safe_read_entry|]. intros f r1 _.
  apply safe_if; [apply safe_throw|]. apply safe_if; [apply safe_throw|].
  unfold safe_at, lift_result, add_root. destruct (roots !! f_name f); [by eexists|done].
Qed.
Lemma safe_parse_roots count n base roots r : safe_at (parse_roots count n base roots) r.
Proof.
  revert roots r. induction count as [|count IH]; intros roots r; simpl.
  - apply safe_bind; [done|]. intros ? ? _. by apply safe_if.
  - apply safe_bind; [apply safe_parse_root|]. intros. apply IH.
Qed.
Lemma run_throw_corruption {A} (m : M reader A) r e : safe_at m r → run m r = Throw e → is_corruption e.
Proof. unfold safe_at, run. destruct (m r) as [[a|e'] r']; simpl; [done|]. by intros ? [= <-]. Qed.
Lemma parse_snapshot_corruption ck c e :
  size c < u64_bound → parse_snapshot ck c = Throw e → is_corruption e.
Proof.
  intros Hsz. unfold parse_snapshot. case_match; [done|]. case_match; [intros [= <-]; by eexists|].
  unfold parse_header. destruct (run read_header _) as [h|e'] eqn:E; simpl.
  2:{ intros [= <-]. eapply run_throw_corruption; [apply safe_read_header|done]. }
  case_match; [intros [= <-]; by eexists|]. case_match; [intros [= <-]; by eexists|]. simpl.
  unfold parse_index. destruct (Z.gtb_spec (h_index_size h) (size c - header_size)); [intros [= <-]; by eexists|].
  destruct (Z.gtb_spec (h_index_size h) (u64_bound - 1)); [unfold header_size in *; lia|].
  case_match; [intros [= <-]; by eexists|].
  destruct (run _ (slice c header_size (h_index_size h))) as [roots|e'] eqn:E'; simpl; [done|].
  intros [= <-]. eapply run_throw_corruption; [apply safe_parse_roots|done].
Qed.

(** ** A snapshot to try the theorems on *)
Definition sample_store : snapshot_store := SnapshotStore "db/heap.snapshot" strict true.
Definition sample_payload : list byte := [x05; x06].
Definition sample_image : snapshot_image :=
  Image {["r" := RootRecord 3 "t" (Loc src_journal 40 2 (crc32c sample_payload))]} 9.
Definition sample_roots : list indexed_root :=
  [IndexedRoot "r" (RootRecord 3 "t" (Loc src_journal 40 2 (crc32c sample_payload))) 0].
(** A payload reader that has the payload in memory. *)
Definition sample_reader (_ : root_record) (off n : Z) : M Disk.disk (list byte) :=
  mret (slice sample_payload off n).
Lemma sample_reads : Forall (λ x, reads_payload sample_store sample_reader (λ _, sample_payload) Disk.empty (x_record x)) sample_roots.
Proof.
  constructor; [|constructor]. split; [done|]. intros off n w _ _ _ _. apply computes_ret.
Qed.
Lemma sample_wf_roots : Forall (wf_indexed (size (payloads (λ _, sample_payload) sample_roots))) sample_roots.
Proof. constructor; [|constructor]. split; [done|done|done|done|done|apply crc32c_u32|done]. Qed.

(** ** The snapshot store *)
Section snapshot_theorems.
Context {W : Type} `{HW : storage_reliable W} (sn : snapshot_store).
Context (read_payload : root_record → Z → Z → M W (list byte)) (payload : root_record → list byte).

(** C22: Saving a snapshot and loading it gives the image back.  With a reader that delivers each root's
    payload, with the checksum its record has, on reliable storage, and for at most 10,000,000 roots
    (the count beyond which [load] refuses what [save] wrote) whose fields and whose index fit the
    widths of the format: [save] returns, [load] then returns the very image [save] described; it
    has the sequence of the image that was saved and exactly its roots, no name more and no name
    less, each with its version and type; and the payload of each root, loaded through its new
    locator with its checksum verified, is the payload that was saved. *)
Theorem snapshot_round_trip image roots (w : W) :
  ordered_roots image = Ok roots → Forall (λ x, reads_payload sn read_payload payload w (x_record x)) roots →
  Forall (wf_indexed (size (payloads payload roots))) roots →
  Forall (λ x, l_checksum (rr_payload (x_record x)) = crc32c (payload (x_record x))) roots →
  is_u64 (i_sequence image) → size roots ≤ max_root_count → is_u64 (size (index_bytes roots)) → reliable w →
  ∃ image' w1 w2, snapshot_save sn read_payload image w = (Ok image', w1) ∧
    snapshot_load sn w1 = (Ok image', w2) ∧ i_sequence image' = i_sequence image ∧
    dom (i_roots image') = dom (i_roots image) ∧
    ∀ n r, i_roots image !! n = Some r →
      ∃ r', i_roots image' !! n = Some r' ∧ rr_version r' = rr_version r ∧ rr_type r' = rr_type r ∧
        ∃ w3, snapshot_load_payload sn (rr_payload r') w2 = (Ok (payload r), w3).
Proof.
  intros Ho Hreads Hwf Hck Hseq Hcount Hidx Hrel.
  destruct (save_spec sn read_payload payload w image roots Ho Hreads) as (r & w1 & E1 & Hcase & Hok).
  destruct (Hok Hrel) as [[image' ->] Hrel1].
  destruct Hcase as [[_ [e [=]]]|[(Hf & _) [[= ->]|[e [=]]]]].
  destruct (ordered_roots_spec image roots Ho) as (_ & Hin & Hd & k & _ & Hp).
  pose proof (snapshot_load_parse sn w1) as Hl. rewrite Hf in Hl.
  rewrite parse_snapshot_bytes in Hl by done.
  destruct Hl as (r2 & w2 & E2 & Hs2 & _ & Hok2). destruct (Hok2 Hrel1) as [-> Hrel2].
  do 3 eexists. split_and!; [done|exact E2|done|by apply saved_roots_dom|]. intros n r Hn.
  destruct (Hin n r Hn) as (x & Hx & Ex). injection Ex as <- <-.
  exists (saved_record (snapshot_base roots) x). split_and!; [by apply saved_roots_lookup|done|done|].
  pose proof (placed_holds sn read_payload payload w
    (header_bytes (sn_checksums sn) (i_sequence image) roots ++ index_bytes roots) 0 k roots [] x Hp Hreads
    (λ y Hy, proj1 (Forall_forall _ _) Hck y Hy) Hx) as Hh.
  rewrite app_nil_r, size_app, size_header_bytes, Z.sub_0_r in Hh.
  pose proof (proj1 (Forall_forall _ _) Hwf x Hx) as Hwx.
  destruct (proj1 (Forall_forall _ _) Hreads x Hx) as [Hsz _].
  destruct (snapshot_load_payload_holds sn (snapshot_bytes (sn_checksums sn) (i_sequence image) roots (payloads payload roots))
    (rr_payload (saved_record (snapshot_base roots) x)) (payload (x_record x)) w2) as (r3 & w3 & E3 & _ & _ & Hok3).
  - by rewrite Hs2.
  - unfold snapshot_bytes. by rewrite app_assoc.
  - done.
  - rewrite <- Hsz. apply Hwx.
  - destruct (Hok3 Hrel2) as [-> _]. by exists w3.
Qed.

(** Saving a snapshot is all or nothing.  Whatever faults occur, after [save] the snapshot
    file is the old one, untouched, and the call threw, or it is the complete new one; no file
    but the snapshot and its temporary file is touched; and on reliable storage it is the new
    one. *)
Theorem snapshot_save_atomic image roots (w : W) :
  ordered_roots image = Ok roots → Forall (λ x, reads_payload sn read_payload payload w (x_record x)) roots →
  ∃ r w', snapshot_save sn read_payload image w = (r, w') ∧
    (file_of w' (sn_path sn) = file_of w (sn_path sn) ∧ (∃ e, r = Throw e) ∨
     file_of w' (sn_path sn) =
       Some (snapshot_bytes (sn_checksums sn) (i_sequence image) roots (payloads payload roots))) ∧
    (∀ q, q ≠ temporary sn → q ≠ sn_path sn → file_of w' q = file_of w q) ∧
    (reliable w → is_ok r ∧ reliable w').
Proof.
  intros Ho Hreads. destruct (save_spec sn read_payload payload w image roots Ho Hreads) as (r & w' & E & Hcase & Hok).
  exists r, w'. split_and!; [done| | |done].
  - destruct Hcase as [[Hb He]|[(Hf & _) _]]; [left|by right]. split; [|done].
    apply Hb. apply not_eq_sym, temporary_ne.
  - intros q Hq1 Hq2. destruct Hcase as [[Hb _]|[(_ & _ & Hb) _]]; auto.
Qed.

(** Loading a snapshot ends on every file: whatever bytes it holds, [load] returns an image or
    throws [corruption_error], and leaves the file as it is. *)
Theorem snapshot_load_total c (w : W) :
  file_of w (sn_path sn) = Some c → size c < u64_bound → reliable w →
  ∃ r w', snapshot_load sn w = (r, w') ∧ same_files w w' ∧
    match r with Ok _ => True | Throw e => is_corruption e end.
Proof.
  intros Hf Hsz Hrel. pose proof (snapshot_load_parse sn w) as Hl. rewrite Hf in Hl.
  destruct Hl as (r & w' & E & Hs & _ & Hok). exists r, w'. split_and!; [done|done|].
  destruct (Hok Hrel) as [-> _]. destruct (parse_snapshot _ c) as [i|e] eqn:Ep; [done|].
  by eapply parse_snapshot_corruption.
Qed.
End snapshot_theorems.
Lemma snapshot_round_trip_witness :
  ∃ image' w1 w2, snapshot_save sample_store sample_reader sample_image Disk.empty = (Ok image', w1) ∧
    snapshot_load sample_store w1 = (Ok image', w2) ∧ i_sequence image' = 9 ∧
    dom (i_roots image') = dom (i_roots sample_image) ∧
    ∀ n r, i_roots sample_image !! n = Some r →
      ∃ r', i_roots image' !! n = Some r' ∧ rr_version r' = rr_version r ∧ rr_type r' = rr_type r ∧
        ∃ w3, snapshot_load_payload sample_store (rr_payload r') w2 = (Ok sample_payload, w3).
Proof.
  apply (snapshot_round_trip sample_store sample_reader (λ _, sample_payload) sample_image sample_roots Disk.empty);
    [vm_compute; reflexivity|exact sample_reads|exact sample_wf_roots|constructor; [reflexivity|constructor]
    |split; [discriminate|reflexivity]|discriminate|split; [discriminate|reflexivity]|reflexivity].
Defined.
Lemma snapshot_save_atomic_witness :
  ∃ r w', snapshot_save sample_store sample_reader sample_image Disk.empty = (r, w') ∧
    (file_of w' "db/heap.snapshot" = file_of Disk.empty "db/heap.snapshot" ∧ (∃ e, r = Throw e) ∨
     file_of w' "db/heap.snapshot" =
       Some (snapshot_bytes true 9 sample_roots (payloads (λ _, sample_payload) sample_roots))) ∧
    (∀ q, q ≠ temporary sample_store → q ≠ "db/heap.snapshot" → file_of w' q = file_of Disk.empty q) ∧
    (reliable Disk.empty → is_ok r ∧ reliable w').
Proof.
  apply (snapshot_save_atomic sample_store sample_reader (λ _, sample_payload) sample_image sample_roots Disk.empty);
    [vm_compute; reflexivity|exact sample_reads].
Defined.
Lemma snapshot_load_total_witness :
  let d := Disk.Mk {["db/heap.snapshot" := Disk.Dfile [x01] [x01] true]} ∅ [] in
  ∃ r w', snapshot_load sample_store d = (r, w') ∧ same_files d w' ∧
    match r with Ok _ => True | Throw e => is_corruption e end.
Proof.
  apply (snapshot_load_total sample_store [x01]); [reflexivity|reflexivity|reflexivity].
Defined.

(** ** The payload cache *)

(** The cache stays within its limit and never follows an invalid iterator: from a well-formed
    cache, [get], [put] and [clear] return (no [undefined], no endless eviction) and leave a
    well-formed cache, whose byte count is the sum of its entries and at most the limit; [put]
    returns the payload it was given, and what [get] finds was in the cache. *)
Theorem cache_operations_safe c name version payload :
  cache_ok c →
  (∃ r c', cache_get name version c = (Ok r, c') ∧ cache_ok c' ∧ c_limit c' = c_limit c ∧
     (∀ p, r = Some p → holds c name version p)) ∧
  (∃ c', cache_put name version payload c = (Ok payload, c') ∧ cache_ok c' ∧ c_limit c' = c_limit c) ∧
  cache_ok (cache_clear c).
Proof.
  intros Hc. split_and!.
  - destruct (cache_get_ok c name version Hc) as (r & c' & E & Hc' & Hl & Hr & _).
    exists r, c'. split_and!; [done|done|done|]. intros p ->. destruct Hr as [[=]|(p' & [= <-] & Hh)]. done.
  - destruct (cache_put_ok c name version payload Hc) as (c' & E & Hc' & Hl & _). by exists c'.
  - by apply cache_clear_ok.
Qed.
Lemma cache_operations_safe_witness :
  (∃ c', cache_put "r" 1 [x05] (new_cache 8) = (Ok [x05], c') ∧ cache_ok c' ∧ c_limit c' = 8).
Proof.
  apply (cache_operations_safe (new_cache 8) "r" 1 [x05]). apply new_cache_ok. split; [discriminate|reflexivity].
Defined.

(** What was put is found.  A payload that fits the limit, once put, is what [get] returns for
    its name and version, and asking for any other version of the name misses. *)
Theorem cache_put_get c name version payload version' :
  cache_ok c → 0 < c_limit c → size payload ≤ c_limit c →
  ∃ c' c'', cache_put name version payload c = (Ok payload, c') ∧
    cache_get name version' c' = (Ok (if version =? version' then Some payload else None), c'').
Proof.
  intros Hc Hpos Hfit. destruct (cache_put_ok c name version payload Hc) as (c' & E & Hc' & Hl & _ & Hh).
  specialize (Hh Hpos Hfit). set (it := pred (c_fresh c') : iterator) in *. set (e := Entry name version payload) in *.
  assert ((it, e) ∈ c_lru c') as Hin.
  { destruct (c_lru c') as [|x l]; [done|]. injection Hh as ->. by left. }
  destruct (deref_in c' it e Hc' Hin) as [Hn Ed]. change (e_name e) with name in Hn.
  assert (∃ c'', cache_get name version' c' = (Ok (if version =? version' then Some payload else None), c''))
    as [c'' E2]; [|by exists c', c''].
  unfold cache_get. m_run (eq_refl : get c' = (Ok c', c')). rewrite Hn. m_run Ed. change (e_version e) with version.
  destruct (Z.eqb_spec version version') as [<-|Hne]; simpl; [by eexists|].
  destruct (cache_erase_ok (count_miss c') it e) as (c2 & _ & _ & E2 & _); [by apply count_ok|done|].
  exists c2. m_run (eq_refl : modify count_miss c' = (Ok tt, count_miss c')). by m_run E2.
Qed.
Lemma cache_put_get_witness :
  ∃ c' c'', cache_put "r" 1 [x05] (new_cache 8) = (Ok [x05], c') ∧ cache_get "r" 2 c' = (Ok None, c'').
Proof.
  apply (cache_put_get (new_cache 8) "r" 1 [x05] 2); [apply new_cache_ok; split; [discriminate|reflexivity]|reflexivity|discriminate].
Defined.

(** Eviction drops the least recently used entries and no more of them than it must: it removes
    a tail of the list after which the new payload fits, and without the last removal it would not
    have fitted. *)
Theorem cache_eviction_minimal incoming c :
  cache_ok c → 0 ≤ incoming ≤ c_limit c →
  ∃ c' dropped, evict (length (c_lru c)) incoming c = (Ok tt, c') ∧ c_lru c = c_lru c' ++ dropped ∧
    c_bytes c' + incoming ≤ c_limit c ∧
    ∀ it e rest, dropped = (it, e) :: rest → c_limit c < c_bytes c' + size (e_payload e) + incoming.
Proof.
  intros Hc Hin. destruct (evict_ok (length (c_lru c)) incoming c Hc Hin (le_n _))
    as (c' & l & E & _ & _ & El & Hb & _ & Hmin). by exists c', l.
Qed.
Lemma cache_eviction_minimal_witness :
  ∃ c' dropped, evict 0 8 (new_cache 8) = (Ok tt, c') ∧ [] = c_lru c' ++ dropped ∧ c_bytes c' + 8 ≤ 8 ∧
    ∀ it e rest, dropped = (it, e) :: rest → 8 < c_bytes c' + size (e_payload e) + 8.
Proof.
  apply (cache_eviction_minimal 8 (new_cache 8)); [apply new_cache_ok; split; [discriminate|reflexivity]|split; discriminate].
Defined.
