(* ===== verification/HeapTheorems.v ===== *)
(** * Properties of the heap: opening, committing, loading, checkpoints, integrity; and concrete
    runs on a disk with faults. *)
From S2P Require Import Prelude.
From S2P Require Import Binary.
From S2P Require Import OrderedMap.
From S2P Require Import Value.
From S2P Require Import Codec.
From S2P Require Import Storage.
From S2P Require Import Journal.
From S2P Require Import Recovery.
From S2P Require Import Snapshot.
From S2P Require Import SnapshotImage.
From S2P Require Import Cache.
From S2P Require Import Heap.
From S2P Require Import HeapSpec.

(** ** A heap to try the theorems on *)
Definition sample_config : heap_config := HeapConfig "db" (64 * 1024 * 1024) strict true 1024.
Definition payload_of (v : value) : list byte := value_encode v.
Definition write_root (name : string) (expected : Z) (v : value) : root_update :=
  RootUpdate name expected (expected + 1) value_type_name (payload_of v).
Definition sample_updates : list root_update := [write_root "r" 0 (VInteger 7)].

(** The heap opened on an empty disk, and the disk it is then on. *)
Definition opened_disk : Disk.disk :=
  Disk.Mk {["db/heap.wal" := Disk.Dfile [] [] false]} ∅ [].
Definition opened_heap : heap_state := HeapState sample_config 0 (new_cache 1024) ∅ 1 false false 0.
Definition committed : heap_state * Disk.disk := (commit 1 sample_updates (opened_heap, opened_disk)).2.
Definition sample_map : gmap string aroot := a_commit sample_updates ∅.

Lemma empty_recovers config : recovers config Disk.empty ∅.
Proof.
  exists (Image ∅ 0), [], (initial_scan ∅ 0).
  split; [done|done|reflexivity|intros n; constructor|by intros n a ?|done].
Qed.
Lemma sample_empty_recovers : recovers sample_config Disk.empty ∅.
Proof. apply empty_recovers. Qed.
(** A heap opened on an empty disk has an empty journal and no snapshot, and nothing unfinished. *)
Lemma opened_empty_inv config h w :
  cf_path config ≠ "" → 0 ≤ cf_cache_bytes config < 2 ^ 63 → heap_open config Disk.empty = (Ok h, w) →
  file_of w (snap_path config) = None → file_of w (wal_path config) = Some [] → heap_inv config h w ∅ ∅.
Proof.
  intros Hp Hc Eo Hsnap Hwal.
  destruct (heap_open_spec config Disk.empty ∅ Hp Hc (empty_recovers config)) as (r & w' & E & _ & Hr & _).
  rewrite Eo in E. injection E as <- <-. destruct (Hr _ eq_refl) as (s & _ & Hinv).
  assert (s_pending s = ∅) as <-; [|done].
  destruct Hinv as (image & cj & s' & Hh & Hp'). rewrite <- Hp'.
  pose proof (hi_disk _ _ _ _ _ _ _ Hh) as [H1 H2 H3 _ _ _]. rewrite Hsnap in H1. rewrite Hwal in H2.
  injection H1 as <-. simpl in H2. subst cj. by injection H3 as <-.
Qed.
Lemma sample_inv : heap_inv sample_config opened_heap opened_disk ∅ ∅.
Proof. apply opened_empty_inv; done. Qed.
Lemma sample_updates_wf : Forall wf_update sample_updates.
Proof.
  constructor; [|constructor]. unfold wf_update.
  destruct (size_encode_update (write_root "r" 0 (VInteger 7))) as [-> ->]. done.
Qed.
Lemma sample_updates_valid : valid_updates opened_heap sample_updates.
Proof.
  split; [exact sample_updates_wf|apply NoDup_singleton|repeat constructor|done].
Qed.
Lemma sample_map_saveable : saveable sample_map.
Proof.
  split; [by apply Z.leb_le|]. intros n a. unfold sample_map. simpl. rewrite insert_empty.
  intros [<- <-]%lookup_singleton_Some. done.
Qed.
Lemma sample_commit_ok : commit 1 sample_updates (opened_heap, opened_disk) = (Ok tt, committed).
Proof. vm_compute. reflexivity. Qed.
Lemma sample_committed_inv : heap_inv sample_config committed.1 committed.2 sample_map ∅.
Proof.
  destruct (commit_spec sample_config opened_heap opened_disk ∅ ∅ 1 sample_updates)
    as (r & h & w & E & Hout & _);
    [exact sample_inv|done|done|done|exact sample_updates_valid|exact sample_map_saveable|].
  rewrite sample_commit_ok in E. destruct committed as [h' w']. injection E as <- <- <-.
  inversion Hout as [| | |? ? p' _ Hinv Hp| |]; subst. by destruct Hp as [->| ->].
Qed.

(** ** The properties *)
Section heap_theorems.
Context {W : Type} `{HW : storage_reliable W} (config : heap_config).
Implicit Types (h : heap_state) (w : W) (A : amap).

(** C3: Opening a heap on storage that recovers to an abstract heap never changes what it
    recovers to, whatever faults occur; when it returns, the open heap represents that abstract
    heap; and on reliable storage it returns. *)
Theorem open_recovers w A :
  cf_path config ≠ "" → 0 ≤ cf_cache_bytes config < 2 ^ 63 → recovers config w A →
  ∃ r w', heap_open config w = (r, w') ∧ recovers config w' A ∧
    (∀ h, r = Ok h → ∃ p, heap_inv config h w' A p) ∧
    (reliable w → is_ok r ∧ reliable w').
Proof.
  intros H1 H2 H3. destruct (heap_open_spec config w A H1 H2 H3) as (r & w' & E & Hr & Ho & Hok).
  exists r, w'. split_and!; [done|done| |done]. intros h (s & -> & Hi)%Ho. by exists (s_pending s).
Qed.

(** C1: A commit is atomic and isolated from stale data.  Take an open heap, a transaction id that no
    unfinished record of its journal has (ids restart at 1 in every session; with a reused id the
    journal may not recover at all, see [successful_commit_bricks_heap]), and encodable updates of
    distinct roots to growing versions, within the limits of the journal and of a snapshot.  Then,
    whatever the storage does, [commit] ends in one of these ways: the heap is closed or poisoned and
    nothing changes; a root has another version than the transaction read and nothing changes; it
    returns and the open heap represents the old map with all the updates; or it throws, and the
    storage then recovers to the old map (with the heap poisoned against further commits) or to the
    new one, never to anything in between.  With matching versions and reliable storage it returns. *)
Theorem commit_atomic h w A p tx updates :
  heap_inv config h w A p → updates ≠ [] → is_u64 tx → p !! tx = None → valid_updates h updates →
  saveable (a_commit updates A) →
  ∃ r h' w', commit tx updates (h, w) = (r, (h', w')) ∧ commit_outcome config h w A p updates r h' w' ∧
    (reliable w → hs_closed h = false → hs_poisoned h = false → versions_match A updates →
     r = Ok tt ∧ reliable w').
Proof. apply commit_spec. Qed.

(** C2: What was committed is there after closing and opening again.  When the id of the transaction was
    that of no unfinished record of the journal, the updates were valid, and [commit] has returned,
    then on storage that does not fail from then on, opening the heap again returns a heap that
    represents the map with the updates.  (A session that reuses the id of a transaction which a crash
    cut off is excluded: its commit returns and the heap cannot be opened again, see
    [successful_commit_bricks_heap].) *)
Theorem committed_survives_reopen h w A p tx updates h' w' :
  cf_path config ≠ "" → 0 ≤ cf_cache_bytes config < 2 ^ 63 →
  heap_inv config h w A p → updates ≠ [] → is_u64 tx → p !! tx = None → valid_updates h updates →
  saveable (a_commit updates A) →
  commit tx updates (h, w) = (Ok tt, (h', w')) → reliable w' →
  ∃ h2 w2 p2, heap_open config w' = (Ok h2, w2) ∧ heap_inv config h2 w2 (a_commit updates A) p2.
Proof.
  intros Hpath Hcache Hinv Hne Htx Hp Hv Hs E Hrel.
  destruct (commit_spec config h w A p tx updates Hinv Hne Htx Hp Hv Hs) as (r & h1 & w1 & E1 & Hout & _).
  rewrite E in E1. injection E1 as <- <- <-.
  inversion Hout as [| | |? ? p' _ Hinv' _| |]; subst.
  destruct (heap_open_spec config w' _ Hpath Hcache (heap_inv_recovers _ _ _ _ _ Hinv'))
    as (r2 & w2 & E2 & _ & Hr2 & Hok2). destruct (Hok2 Hrel) as [[h2 ->] _].
  destruct (Hr2 h2 eq_refl) as (s & _ & Hi). by exists h2, w2, (s_pending s).
Qed.

(** The first committer wins.  Of two transactions that read one root in the same version and
    both changed it, after the first has committed the second throws [conflict_error], and
    neither the open heap nor the storage changes. *)
Theorem second_commit_conflicts h w A p tx1 updates1 h1 w1 tx2 updates2 u1 u2 :
  heap_inv config h w A p → is_u64 tx1 → p !! tx1 = None → valid_updates h updates1 →
  saveable (a_commit updates1 A) →
  commit tx1 updates1 (h, w) = (Ok tt, (h1, w1)) →
  u1 ∈ updates1 → u2 ∈ updates2 → u_name u1 = u_name u2 → u_expected u1 = u_expected u2 →
  hs_closed h1 = false → hs_poisoned h1 = false →
  ∃ u, u ∈ updates2 ∧
    commit tx2 updates2 (h1, w1) = (Throw (conflict_error ("root version conflict: " +:+ u_name u)), (h1, w1)).
Proof.
  intros Hinv Htx Hp Hv Hs E Hu1 Hu2 Hn He Hcl Hpo.
  assert (updates1 ≠ []) as Hne by (intros ->; by apply not_elem_of_nil in Hu1).
  destruct (commit_spec config h w A p tx1 updates1 Hinv Hne Htx Hp Hv Hs) as (r & h1' & w1' & E1 & Hout & _).
  rewrite E in E1. injection E1 as <- <- <-.
  inversion Hout as [| | |? ? p' _ Hinv' _| |]; subst.
  destruct Hinv' as (image & cj & s & Hh & _). pose proof (commit_roots config h1 w1 _ image cj s Hh) as Hroots.
  rewrite <- (hi_roots _ _ _ _ _ _ _ Hh) in Hroots.
  assert (updates2 ≠ []) as Hne2 by (intros ->; by apply not_elem_of_nil in Hu2).
  unfold commit. rewrite bool_decide_false by done. unfold mbind, M_bind, state, on_fst, get.
  rewrite Hcl, Hpo. unfold lift_result.
  destruct (check_versions (hs_roots h1) updates2) as [[]|e] eqn:Ec.
  - exfalso. apply check_versions_ok in Ec. pose proof (proj1 (Forall_forall _ _) Ec u2 Hu2) as Hver.
    simpl in Hver. rewrite (version_of_holds _ _ _ _ _ Hroots), <- Hn in Hver.
    rewrite (a_commit_lookup updates1 A u1 (vu_names _ _ Hv) Hu1) in Hver. simpl in Hver.
    pose proof (proj1 (Forall_forall _ _) (vu_versions _ _ Hv) u1 Hu1) as Hlt. simpl in Hlt. lia.
  - apply check_versions_throw in Ec as (u & Hu & -> & _). by exists u.
Qed.

(** [heap_state::load] returns the version and payload of the map the heap represents, from
    the cache or from the storage, or an error of the storage; it changes nothing but the cache,
    and a root of a foreign type is refused. *)
Theorem load_current h w A p name :
  heap_inv config h w A p →
  ∃ r c w', load name (h, w) = (r, (set_cache c h, w')) ∧ heap_inv config (set_cache c h) w' A p ∧
    same_files w w' ∧ (r = load_result A name ∨ ∃ e, r = Throw e) ∧
    (reliable w → r = load_result A name ∧ reliable w').
Proof. apply load_spec. Qed.

(** C4: A checkpoint is invisible.  Whatever faults occur, the storage recovers to the same
    abstract heap; a checkpoint that returns leaves the open heap representing it with an empty
    journal; and on reliable storage it returns. *)
Theorem checkpoint_invisible h w A p :
  heap_inv config h w A p → saveable A → hs_closed h = false →
  ∃ r h' w', checkpoint (h, w) = (r, (h', w')) ∧ recovers config w' A ∧
    (r = Ok tt → heap_inv config h' w' A ∅ ∧ file_of w' (wal_path config) = Some []) ∧
    (reliable w → is_ok r ∧ reliable w').
Proof.
  intros Hinv Hs Hcl. destruct (checkpoint_locked_spec config h w A p Hinv Hs)
    as (r & h' & w' & E & Hr & _ & _ & _ & Hok & Hrel).
  exists r, h', w'. split_and!; [|done|done|done].
  unfold checkpoint. unfold mbind, M_bind, state, on_fst, get. by rewrite Hcl.
Qed.

(** [integrity] never throws and changes nothing; on an open heap it reports the number of
    roots and the last sequence number of the heap, and on reliable storage it finds no fault. *)
Theorem integrity_accepts h w A p :
  heap_inv config h w A p →
  ∃ report w', integrity (h, w) = (Ok report, (h, w')) ∧ same_files w w' ∧
    (ir_ok report = true → ir_roots report = root_count h ∧ ir_last_sequence report = hs_wal_sequence h) ∧
    (reliable w → ir_ok report = true ∧ reliable w').
Proof. apply integrity_spec. Qed.
End heap_theorems.

(** ** The properties at work *)
Lemma open_recovers_witness :
  ∃ r w', heap_open sample_config Disk.empty = (r, w') ∧ recovers sample_config w' ∅ ∧
    (∀ h, r = Ok h → ∃ p, heap_inv sample_config h w' ∅ p) ∧ (reliable Disk.empty → is_ok r ∧ reliable w').
Proof. apply (open_recovers sample_config Disk.empty ∅); [discriminate|split; [discriminate|reflexivity]|exact sample_empty_recovers]. Defined.
Lemma commit_atomic_witness :
  ∃ r h' w', commit 1 sample_updates (opened_heap, opened_disk) = (r, (h', w')) ∧
    commit_outcome sample_config opened_heap opened_disk ∅ ∅ sample_updates r h' w' ∧
    (reliable opened_disk → hs_closed opened_heap = false → hs_poisoned opened_heap = false →
     versions_match ∅ sample_updates → r = Ok tt ∧ reliable w').
Proof.
  apply (commit_atomic sample_config opened_heap opened_disk ∅ ∅ 1 sample_updates);
    [exact sample_inv|discriminate|split; [discriminate|reflexivity]|reflexivity|exact sample_updates_valid|exact sample_map_saveable].
Defined.
Lemma committed_survives_reopen_witness :
  ∃ h2 w2 p2, heap_open sample_config committed.2 = (Ok h2, w2) ∧ heap_inv sample_config h2 w2 sample_map p2.
Proof.
  apply (committed_survives_reopen sample_config opened_heap opened_disk ∅ ∅ 1 sample_updates committed.1 committed.2);
    [discriminate|split; [discriminate|reflexivity]|exact sample_inv|discriminate|split; [discriminate|reflexivity]|reflexivity
    |exact sample_updates_valid|exact sample_map_saveable|exact sample_commit_ok|vm_compute; reflexivity].
Defined.
Lemma second_commit_conflicts_witness :
  ∃ u, u ∈ sample_updates ∧
    commit 2 sample_updates committed =
    (Throw (conflict_error ("root version conflict: " +:+ u_name u)), committed).
Proof.
  apply (second_commit_conflicts sample_config opened_heap opened_disk ∅ ∅ 1 sample_updates committed.1 committed.2 2
    sample_updates (write_root "r" 0 (VInteger 7)) (write_root "r" 0 (VInteger 7)));
    [exact sample_inv|split; [discriminate|reflexivity]|reflexivity
    |exact sample_updates_valid|exact sample_map_saveable|exact sample_commit_ok|by left|by left|reflexivity|reflexivity
    |vm_compute; reflexivity|vm_compute; reflexivity].
Defined.
Lemma load_current_witness :
  ∃ r c w', load "r" committed = (r, (set_cache c committed.1, w')) ∧
    heap_inv sample_config (set_cache c committed.1) w' sample_map ∅ ∧ same_files committed.2 w' ∧
    (r = load_result sample_map "r" ∨ ∃ e, r = Throw e) ∧
    (reliable committed.2 → r = load_result sample_map "r" ∧ reliable w').
Proof. apply (load_current sample_config committed.1 committed.2 sample_map ∅ "r"). exact sample_committed_inv. Defined.
Lemma checkpoint_invisible_witness :
  ∃ r h' w', checkpoint committed = (r, (h', w')) ∧ recovers sample_config w' sample_map ∧
    (r = Ok tt → heap_inv sample_config h' w' sample_map ∅ ∧ file_of w' (wal_path sample_config) = Some []) ∧
    (reliable committed.2 → is_ok r ∧ reliable w').
Proof.
  apply (checkpoint_invisible sample_config committed.1 committed.2 sample_map ∅);
    [exact sample_committed_inv|exact sample_map_saveable|vm_compute; reflexivity].
Defined.
Lemma integrity_accepts_witness :
  ∃ report w', integrity committed = (Ok report, (committed.1, w')) ∧ same_files committed.2 w' ∧
    (ir_ok report = true → ir_roots report = root_count committed.1 ∧ ir_last_sequence report = hs_wal_sequence committed.1) ∧
    (reliable committed.2 → ir_ok report = true ∧ reliable w').
Proof. apply (integrity_accepts sample_config committed.1 committed.2 sample_map ∅). exact sample_committed_inv. Defined.

(** ** Runs on a disk with faults *)
Definition with_schedule (fs : list Disk.fault) (d : Disk.disk) : Disk.disk :=
  Disk.Mk (Disk.entries d) (Disk.replaced d) fs.
(** Open the heap, run [m] on it, and keep what [m] gives and the disk. *)
Definition on_heap {A} (m : heap (W:=Disk.disk) A) : M Disk.disk A :=
  h ← heap_open sample_config; with_local h m.
(** The first commit of a session, of transaction 1. *)
Definition first_commit (updates : list root_update) : heap (W:=Disk.disk) unit :=
  tx ← begin; commit tx updates.

(** A session whose commit is cut off by a failing write that leaves 160 bytes of its 205 in the
    journal; then a session that commits without any fault. *)
Definition cut_off : Disk.disk :=
  (on_heap (first_commit sample_updates)
     (with_schedule (replicate 4 Disk.f_run ++ [Disk.f_short 160]) Disk.empty)).2.
Definition second_session : result unit * Disk.disk :=
  on_heap (first_commit [write_root "s" 0 (VInteger 8)]) (with_schedule [] cut_off).

(** Because transaction ids start again at 1 in every session while the records of a commit
    that was cut off stay in the journal, a later session can commit successfully, in strict mode
    and without any fault, and leave a heap that can never be opened again. *)
Theorem successful_commit_bricks_heap :
  second_session.1 = Ok tt ∧
  (heap_open sample_config second_session.2).1 = Throw (corruption_error "COMMIT update count mismatch").
Proof. split; vm_compute; reflexivity. Qed.

(** A session without a cache that commits, makes a checkpoint, commits another root, makes a
    second checkpoint in which syncing the directory fails, and makes a third one without any
    fault; then a session that loads the first root.  The outcomes of the second and third
    checkpoints, whether the heap was poisoned, and the outcome of the load. *)
Definition no_cache : heap_config := HeapConfig "db" (64 * 1024 * 1024) strict true 0.
Definition failing_sync : list Disk.fault := replicate 11 Disk.f_run ++ [Disk.f_fail].
Definition first_session : heap (W:=Disk.disk) (result unit * result unit * bool) := λ s,
  let '(_, s) := commit 1 [write_root "z" 0 (VInteger 7)] s in
  let '(_, s) := checkpoint s in
  let '(_, (h, d)) := commit 2 [write_root "a" 0 (VString "a long payload")] s in
  let '(second, (h, d)) := checkpoint (h, with_schedule failing_sync d) in
  let '(third, (h, d)) := checkpoint (h, with_schedule [] d) in
  (Ok (second, third, hs_poisoned h), (h, d)).
Definition attempt {S A} (m : M S A) : M S (result A) := λ s, let '(r, s) := m s in (Ok r, s).
Definition stale_locators : M Disk.disk (result unit * result unit * bool * result loaded_root) :=
  h ← heap_open no_cache; first ← with_local h first_session;
  h ← heap_open no_cache; loaded ← with_local h (attempt (load "z"));
  mret (first, loaded).

(** When a checkpoint has put the new snapshot in place and then fails to sync the directory,
    the open heap keeps locators into the snapshot that is gone and is not poisoned; the next
    checkpoint copies the wrong bytes, succeeds, and empties the journal: a committed root is
    lost. *)
Theorem failed_checkpoint_loses_root :
  (stale_locators Disk.empty).1 =
  Ok (Throw (storage_error "fsync directory failed for db"), Ok tt, false,
      Throw (corruption_error "snapshot payload checksum mismatch")).
Proof. vm_compute. reflexivity. Qed.
