(* ===== verification/PowerTheorems.v ===== *)
(** * What power failures leave of commits, checkpoints and openings; and a fresh heap whose
    committed roots a power failure can lose. *)
From S2P Require Import Prelude.
From S2P Require Import Binary.
From S2P Require Import Value.
From S2P Require Import Codec.
From S2P Require Import Storage.
From S2P Require Import Journal.
From S2P Require Import Recovery.
From S2P Require Import Damage.
From S2P Require Import Snapshot.
From S2P Require Import SnapshotImage.
From S2P Require Import Cache.
From S2P Require Import Heap.
From S2P Require Import HeapSpec.
From S2P Require Import Power.
From S2P Require Import PowerSpec.
From S2P Require Import HeapTheorems.
#[local] Open Scope Z_scope.

Section power_theorems.
Context {W : Type} `{HW : storage_reliable W} `{HP : !storage_durable W} (config : heap_config).
Context (Hstrict : cf_durability config = strict) (Hpath : cf_path config ≠ "").
Implicit Types (h : heap_state) (w : W) (A : amap).

(** C6: A committed transaction survives a power failure.  Take a settled heap in strict mode (its
    journal and its snapshot are on the medium, directory entries and all), valid updates, and a
    transaction id that no unfinished record of the journal has (with a reused id the heap may not open
    again, power failure or not).  Once [commit] has returned, and whatever a power failure left of the
    files (anything that was not synced may be gone or be anything), opening the heap again, on storage
    that then works, returns a heap that represents the old map with all the updates. *)
Theorem commit_survives_power_failure h w A p tx updates h' w' w'' :
  0 ≤ cf_cache_bytes config < 2 ^ 63 →
  heap_inv config h w A p → settled config w → updates ≠ [] → is_u64 tx → p !! tx = None →
  valid_updates h updates → saveable (a_commit updates A) →
  commit tx updates (h, w) = (Ok tt, (h', w')) → crashed w' w'' → reliable w'' →
  ∃ h2 w2 p2, heap_open config w'' = (Ok h2, w2) ∧ heap_inv config h2 w2 (a_commit updates A) p2.
Proof.
  intros Hcache Hinv Hset Hne Htx Hp Hvu Hsave E Hc Hrel.
  destruct (commit_power config Hstrict Hpath h w A p tx updates) as (r & h1 & w1 & E1 & _ & Hok); try done.
  rewrite E in E1. injection E1 as <- <- <-. destruct (Hok eq_refl) as [_ Hrec].
  destruct (heap_open_spec config w'' _ Hpath Hcache (Hrec _ Hc)) as (r2 & w2 & E2 & _ & Ho & Hok2).
  destruct (Hok2 Hrel) as [[h2 ->] _]. destruct (Ho h2 eq_refl) as (s & -> & Hinv2). by do 3 eexists.
Qed.

(** C7: A power failure cannot split a commit.  Take a settled heap in strict mode, valid updates, and
    a transaction id that no unfinished record of the journal has.  Wherever the power fails during
    [commit] (every such point is the end of a run whose next call to the storage failed), the bytes
    after the old journal may be anything, no more than were written.  As long as the checks of the
    reader accept no record among them but those of this commit, opening what is left finds the map
    before the commit or the map with all its updates, or refuses it with a [corruption_error] and
    leaves the files as they are: never something in between.  If what is left is any part of the
    batch cut off at the end, the checks detect it, and opening never refuses. *)
Theorem power_failure_is_atomic h w A p tx updates :
  heap_inv config h w A p → settled config w → updates ≠ [] → is_u64 tx → p !! tx = None →
  valid_updates h updates → saveable (a_commit updates A) →
  ∃ r h' w', commit tx updates (h, w) = (r, (h', w')) ∧
    ∀ w'', crashed w' w'' →
      (batch_damage_detected config h tx updates w w'' →
         recovers config w'' A ∨ recovers config w'' (a_commit updates A) ∨ refuses config w'') ∧
      (∀ k, batch_cut config h tx updates w w'' k → recovers config w'' A ∨ recovers config w'' (a_commit updates A)).
Proof.
  intros Hinv Hset Hne Htx Hp Hvu Hsave.
  destruct (commit_power config Hstrict Hpath h w A p tx updates) as (r & h1 & w1 & E & Hc & _); try done.
  by exists r, h1, w1.
Qed.

(** C8: A checkpoint makes everything durable.  Whenever the power fails during a checkpoint of a
    settled heap, what is left recovers to the same map; and after a checkpoint that returned, the
    heap is settled, also when it was not before: the medium has its snapshot and its journal,
    directory entries and all, so that no power failure loses anything of the map. *)
Theorem checkpoint_settles_the_heap h w A p :
  heap_inv config h w A p → saveable A →
  ∃ r h' w', checkpoint (h, w) = (r, (h', w')) ∧
    (settled config w → ∀ w'', crashed w' w'' → recovers config w'' A) ∧
    (r = Ok tt → settled config w' ∧ ∀ w'', crashed w' w'' → recovers config w'' A).
Proof.
  intros Hinv Hsave. unfold checkpoint. unfold mbind, M_bind at 1, state, on_fst at 1, get at 1.
  destruct (hs_closed h).
  { do 3 eexists. split_and!; [done| |done]. intros Hset w2 Hc. eapply settled_crash; [done..|by eapply heap_inv_recovers]. }
  destruct (checkpoint_power config Hstrict Hpath h w A p Hinv Hsave) as (r & h1 & w1 & E & Hc & Hok).
  destruct (checkpoint_locked_spec config h w A p Hinv Hsave) as (r' & h1' & w1' & E' & Hrec & _).
  rewrite E in E'. injection E' as <- <- <-. exists r, h1, w1. split_and!; [done|done|].
  intros Hr. split; [by apply Hok|]. intros w2 Hc2. eapply settled_crash; [by apply Hok|done|done].
Qed.

(** C11: Opening survives a power failure.  Take a heap in strict mode whose journal and snapshot are on
    the medium, directory entries and all, and recover to a map, the journal perhaps with a torn tail
    that opening cuts off.  Wherever the power fails while it is opened, and whatever calls to the
    storage fail, what is left recovers to the same map; and a heap that opened is settled again: its
    cut journal is on the medium, so that commits can be put after it. *)
Theorem opening_survives_power_failure w A :
  settled config w → recovers config w A →
  ∃ r w', heap_open config w = (r, w') ∧
    (∀ w'', crashed w' w'' → recovers config w'' A) ∧ (is_ok r → settled config w').
Proof. by apply heap_open_power. Qed.
End power_theorems.

(** ** On the disk *)
(** Nothing need be lost; and where no entry was ever synced, everything may be. *)
Lemma crashed_disk_kept (d : Disk.disk) : crashed d d.
Proof.
  intros q. change (Disk.survives d q (Disk.visible <$> Disk.entries d !! q)).
  destruct (Disk.entries d !! q) as [f|] eqn:E; simpl; [|by apply Disk.survives_absent].
  apply (Disk.survives_entry _ _ f); [done|by right; left].
Qed.
Lemma crashed_disk_lost (d : Disk.disk) :
  map_Forall (λ _ f, Disk.linked f = false) (Disk.entries d) → Disk.replaced d = ∅ → crashed d Disk.empty.
Proof.
  intros Hl Hr q. change (Disk.survives d q None).
  destruct (Disk.entries d !! q) as [f|] eqn:E; [|by apply Disk.survives_absent].
  apply (Disk.survives_unlinked _ _ f); [done|by apply (Hl q)|by rewrite Hr].
Qed.

(** A commit that returned can be lost until the first checkpoint.  Opening a new heap creates
    heap.wal but never syncs the directory: in strict mode, after [commit] has flushed the journal and
    returned, a power failure may leave a directory without the file, which recovers to the empty
    map. *)
Theorem fresh_heap_loses_commit :
  ∃ h w h' w', cf_durability sample_config = strict ∧ heap_open sample_config Disk.empty = (Ok h, w) ∧
    commit 1 sample_updates (h, w) = (Ok tt, (h', w')) ∧ heap_inv sample_config h' w' sample_map ∅ ∧
    crashed w' Disk.empty ∧ recovers sample_config Disk.empty ∅ ∧ sample_map !! "r" ≠ None.
Proof.
  exists opened_heap, opened_disk, committed.1, committed.2. split_and!.
  - done.
  - vm_compute. reflexivity.
  - rewrite sample_commit_ok. by destruct committed.
  - exact sample_committed_inv.
  - apply crashed_disk_lost; [|vm_compute; reflexivity]. refine (bool_decide_unpack _ _). vm_compute. exact I.
  - exact sample_empty_recovers.
  - vm_compute. discriminate.
Qed.

(** A heap that was checkpointed: its journal and its snapshot have their entries on the medium. *)
Definition checkpointed : heap_state * Disk.disk := (checkpoint_locked (opened_heap, opened_disk)).2.
Lemma checkpointed_ok : checkpoint_locked (opened_heap, opened_disk) = (Ok tt, checkpointed).
Proof. vm_compute. reflexivity. Qed.
Lemma empty_saveable : saveable ∅.
Proof. split; [by apply Z.leb_le|by intros n a ?]. Qed.
Lemma checkpointed_settled : settled sample_config checkpointed.2.
Proof.
  destruct (checkpoint_power sample_config eq_refl ltac:(done) opened_heap opened_disk ∅ ∅ sample_inv empty_saveable)
    as (r & h & w & E & _ & Hok).
  rewrite checkpointed_ok in E. destruct checkpointed as [h' w']. injection E as <- <- <-. by apply Hok.
Qed.
Lemma checkpointed_inv : heap_inv sample_config checkpointed.1 checkpointed.2 ∅ ∅.
Proof.
  destruct (checkpoint_locked_spec sample_config opened_heap opened_disk ∅ ∅ sample_inv empty_saveable)
    as (r & h & w & E & _ & _ & _ & _ & Hok & _).
  rewrite checkpointed_ok in E. destruct checkpointed as [h' w']. injection E as <- <- <-. by apply Hok.
Qed.
Definition recommitted : heap_state * Disk.disk := (commit 1 sample_updates checkpointed).2.

Lemma commit_survives_power_failure_witness :
  ∃ h2 w2 p2, heap_open sample_config recommitted.2 = (Ok h2, w2) ∧ heap_inv sample_config h2 w2 sample_map p2.
Proof.
  apply (commit_survives_power_failure sample_config eq_refl ltac:(discriminate) checkpointed.1 checkpointed.2 ∅ ∅ 1
    sample_updates recommitted.1 recommitted.2 recommitted.2);
    [split; [discriminate|reflexivity]|exact checkpointed_inv|exact checkpointed_settled|discriminate
    |split; [discriminate|reflexivity]|reflexivity| |exact sample_map_saveable|vm_compute; reflexivity
    |exact (crashed_disk_kept _)|vm_compute; reflexivity].
  split; [exact sample_updates_wf|apply NoDup_singleton|repeat constructor|vm_compute; reflexivity].
Defined.
Lemma power_failure_is_atomic_witness :
  ∃ r h' w', commit 1 sample_updates checkpointed = (r, (h', w')) ∧
    ∀ w'', crashed w' w'' →
      (batch_damage_detected sample_config checkpointed.1 1 sample_updates checkpointed.2 w'' →
         recovers sample_config w'' ∅ ∨ recovers sample_config w'' sample_map ∨ refuses sample_config w'') ∧
      (∀ k, batch_cut sample_config checkpointed.1 1 sample_updates checkpointed.2 w'' k →
         recovers sample_config w'' ∅ ∨ recovers sample_config w'' sample_map).
Proof.
  apply (power_failure_is_atomic sample_config eq_refl ltac:(discriminate) checkpointed.1 checkpointed.2 ∅ ∅ 1 sample_updates);
    [exact checkpointed_inv|exact checkpointed_settled|discriminate
    |split; [discriminate|reflexivity]|reflexivity| |exact sample_map_saveable].
  split; [exact sample_updates_wf|apply NoDup_singleton|repeat constructor|vm_compute; reflexivity].
Defined.
(** The damage may be anything: a commit whose flush fails, and zeros where the batch was written.  No
    check of the reader accepts them, and what the power failure left is refused. *)
Definition unflushed : Disk.disk :=
  (commit 1 sample_updates (checkpointed.1, Disk.Mk (Disk.entries checkpointed.2) (Disk.replaced checkpointed.2)
    [Disk.f_run; Disk.f_fail])).2.2.
Definition zeroed : Disk.disk :=
  Disk.Mk (<["db/heap.wal" := Disk.Dfile (replicate 60 x00) (replicate 60 x00) true]> (Disk.entries checkpointed.2)) ∅ [].
Lemma zeros_detected ck n records : (12 ≤ n)%nat → damage_detected ck records (replicate n x00).
Proof.
  intros Hn j rest k E (Hsz & m & Hm & _). exfalso. destruct (take j records) as [|r l].
  - simpl in E. subst rest. unfold slice in Hm. rewrite drop_0, take_replicate, Nat.min_l in Hm by (unfold prefix_size; lia).
    by vm_compute in Hm.
  - destruct n as [|n]; [lia|]. simpl in E. rewrite log_frame_eq, <- !app_assoc in E. unfold prefix_of_record in E.
    rewrite <- app_assoc in E. destruct (scalar 4 record_magic) as [|b m'] eqn:Em; [by vm_compute in Em|].
    simpl in E. injection E as <- _. by vm_compute in Em.
Qed.
Lemma crashed_disk_damaged (d d' : Disk.disk) p f (c : list byte) :
  Disk.entries d !! p = Some f → Disk.synced f `prefix_of` c → size c ≤ size (Disk.visible f) →
  (∀ q, q ≠ p → Disk.entries d' !! q = Disk.entries d !! q) → Disk.d_file_of d' p = Some c → crashed d d'.
Proof.
  intros Hf Hpre Hsz Ho Hc q. change (Disk.survives d q (Disk.d_file_of d' q)). destruct (decide (q = p)) as [->|Hq].
  - rewrite Hc. apply (Disk.survives_entry _ _ f); [done|]. by right; right.
  - unfold Disk.d_file_of. rewrite Ho by done. exact (crashed_disk_kept d q).
Qed.
Lemma zeros_are_refused :
  crashed unflushed zeroed ∧
  batch_damage_detected sample_config checkpointed.1 1 sample_updates checkpointed.2 zeroed ∧
  refuses sample_config zeroed.
Proof.
  split_and!.
  - eapply (crashed_disk_damaged _ _ "db/heap.wal"); [vm_compute; reflexivity|by exists (replicate 60 x00)
      |by apply Z.leb_le; vm_compute| |vm_compute; reflexivity].
    intros q Hq. transitivity (Disk.entries checkpointed.2 !! q); [by apply lookup_insert_ne|].
    assert (delete "db/heap.wal" (Disk.entries unflushed) = delete "db/heap.wal" (Disk.entries checkpointed.2)) as E
      by (vm_compute; reflexivity).
    apply (f_equal (lookup q)) in E. by rewrite !lookup_delete_ne in E.
  - intros c t Hc Ht. assert (c = []) as -> by (vm_compute in Hc; congruence).
    change (Disk.d_file_of zeroed "db/heap.wal" = Some t) in Ht. vm_compute in Ht. injection Ht as <-.
    apply (zeros_detected _ 60). lia.
  - eapply heap_open_refuses; [discriminate|vm_compute; reflexivity..].
Qed.
Lemma checkpoint_settles_the_heap_witness :
  ∃ r h' w', checkpoint committed = (r, (h', w')) ∧
    (settled sample_config committed.2 → ∀ w'', crashed w' w'' → recovers sample_config w'' sample_map) ∧
    (r = Ok tt → settled sample_config w' ∧ ∀ w'', crashed w' w'' → recovers sample_config w'' sample_map).
Proof.
  apply (checkpoint_settles_the_heap sample_config eq_refl ltac:(discriminate) committed.1 committed.2 sample_map ∅);
    [exact sample_committed_inv|exact sample_map_saveable].
Defined.
Lemma opening_survives_power_failure_witness :
  ∃ r w', heap_open sample_config checkpointed.2 = (r, w') ∧
    (∀ w'', crashed w' w'' → recovers sample_config w'' ∅) ∧ (is_ok r → settled sample_config w').
Proof.
  apply (opening_survives_power_failure sample_config eq_refl ltac:(discriminate) checkpointed.2 ∅);
    [exact checkpointed_settled|exact (heap_inv_recovers _ _ _ _ _ checkpointed_inv)].
Defined.
