(* ===== verification/ConcurrencyTheorems.v ===== *)
(** * Properties of threads that share one heap. *)
From stdpp Require Import functions.
From S2P Require Import Prelude.
From S2P Require Import Binary.
From S2P Require Import Value.
From S2P Require Import Storage.
From S2P Require Import Codec.
From S2P Require Import Journal.
From S2P Require Import Recovery.
From S2P Require Import Snapshot.
From S2P Require Import SnapshotImage.
From S2P Require Import Cache.
From S2P Require Import Heap.
From S2P Require Import HeapSpec.
From S2P Require Import Concurrency.
From S2P Require Import ConcurrencySpec.
From S2P Require Import ConcurrencyInvariant.
From S2P Require Import HeapTheorems.

(** ** Locks and progress, on any storage *)
Section locks.
Context {W : Type} `{storage W}.
Implicit Types (s : system W) (q : section) (threads : list section).

(** How many sections a call may still run; the journal bytes that [integrity] has yet to scan and the
    payloads that it has yet to read, whose numbers it learns on the way, count apart. *)
Definition rank q : nat :=
  match q with
  | Idle => 0
  | Looking _ => 3
  | Hitting _ _ => 2
  | Missed _ => 1
  | Starting _ updates => length updates + 9
  | Validating _ updates => length updates + 8
  | Appending _ updates => length updates + 7
  | Appended updates _ => length updates + 6
  | Publishing updates _ => length updates + 5
  | Measuring => 4
  | Entering => 4
  | Saving => 3
  | Switching _ => 2
  | Resetting => 1
  | Inspecting => 5
  | Reopening _ => 4
  | Rescanning _ => 3
  | Scanning _ _ _ | Framing _ _ _ _ => 2
  | Rechecking _ _ => 1
  end.
Definition unread q : nat :=
  match q with
  | Scanning _ n s => let left := Z.to_nat (n - s_offset s) in if decide (left = 0) then 1 else 2 * left + 3
  | Framing _ n s _ => 2 * Z.to_nat (n - s_offset s) + 2
  | Rechecking records _ => length records
  | _ => 0
  end%nat.
Definition all_idle threads : Prop := Forall (λ q, q = Idle) threads.
#[export] Instance idle_dec q : Decision (q = Idle).
Proof. refine (match q with Idle => left eq_refl | _ => right _ end); discriminate. Defined.
#[export] Instance all_idle_dec threads : Decision (all_idle threads).
Proof. unfold all_idle. apply _. Defined.
Definition exclusive threads : Prop :=
  ∀ i j q q', threads !! i = Some q → threads !! j = Some q' →
    holds_commit q = true → holds_commit q' = true → i = j.

(** A section brings the call closer to its end, and holds the commit lock only when it had or
    took it. *)
Definition closer q (o : outcome) : Prop :=
  let q' := next_section o in
  (rank q' < rank q ∨ rank q' = rank q ∧ unread q' < unread q)%nat ∧ (holds_commit q' = true → takes_commit q = true).
Lemma ends_cases {A} (m : heap (W:=W) A) next failed x (P : outcome → Prop) :
  (∀ a, P (next a)) → (∀ e, P (failed e)) → P (ends m next failed x).1.
Proof. intros H1 H2. unfold ends. by destruct (m x) as [[a|e] x']; simpl. Qed.
(** The scan: a turn ends the loop or advances the offset. *)
Lemma scan_prefix_more j n (s : scan) (w w' : W) m : scan_prefix j n s w = (Ok (Some m), w') → s_offset s < n.
Proof. unfold scan_prefix. by destruct (Z.ltb_spec (s_offset s) n). Qed.
Lemma scan_frame_offset j snap (s s' : scan) m (w w' : W) :
  scan_frame j snap s m w = (Ok s', w') → s_offset s < s_offset s'.
Proof.
  unfold scan_frame, mbind, M_bind, lift_result. destruct (read_exact _ _ m w) as [[frame|e] w1]; [|done].
  intros [= E _]. apply process_frame_inv in E as [E _]. pose proof (size_nonneg frame). unfold prefix_size in E. lia.
Qed.
Lemma scan_closer q (x : heap_state * W) :
  match q with Scanning _ _ _ | Framing _ _ _ _ => closer q (run_section q x).1 | _ => True end.
Proof.
  destruct x as [h w]. destruct q as [| | | | | | | | | | | | | | | | |image n s|image n s m|]; try done; cbn [run_section];
    unfold ends, state, mbind, M_bind, on_fst, get, on_snd.
  - destruct (scan_prefix _ n s w) as [[[m|]|e] w1] eqn:E; split; simpl; try done; repeat case_decide; try lia.
    apply scan_prefix_more in E. lia.
  - destruct (scan_frame _ _ s m w) as [[s'|e] w1] eqn:E; split; simpl; try done; repeat case_decide; try lia.
    apply scan_frame_offset in E. lia.
Qed.
Lemma run_section_closer q (x : heap_state * W) : q ≠ Idle → closer q (run_section q x).1.
Proof.
  intros Hq. pose proof (scan_closer q x) as Hscan. destruct q; try done; clear Hscan; cbn [run_section];
    try (apply ends_cases; intros; repeat case_match; split; simpl; (lia || done)).
  - unfold look. simpl. repeat case_match; split; simpl; (lia || done).
  - simpl. case_bool_decide; split; simpl; (lia || done).
  - unfold validate. simpl. repeat case_match; split; simpl; (lia || done).
  - split; simpl; (lia || done).
  - destruct updates as [|u us], locations as [|l ls]; cbn [run_section];
      try (apply ends_cases; intros); split; simpl; (lia || done).
  - simpl. case_match; split; simpl; (lia || done).
  - destruct records; cbn [run_section]; apply ends_cases; intros; split; simpl; (lia || done).
Qed.

Lemma exclusive_idle threads : all_idle threads → exclusive threads.
Proof. intros Ha i j q q' Hi _ Hh _. by rewrite (Forall_lookup_1 _ _ _ _ Ha Hi) in Hh. Qed.
Lemma exclusive_step s e s' : exclusive (sy_threads s) → step s e s' → exclusive (sy_threads s').
Proof.
  intros Hx Hs. destruct Hs as [h w threads i c Hq|h w threads i q o h' w' Hq Hne Hrun E|h w threads i tx h' w' Hq E|h w threads h' w' E];
    simpl in *; [| |done|done].
  - intros j k q1 q2 [(<- & <- & _)|[_ Hj]]%list_lookup_insert_Some; [by destruct c|].
    intros [(<- & <- & _)|[_ Hk]]%list_lookup_insert_Some; [by destruct c|]. by apply (Hx j k q1 q2).
  - pose proof (run_section_closer q (h, w) Hne) as [_ Ht]. rewrite E in Ht. simpl in Ht.
    intros j k q1 q2 [(<- & <- & _)|[Hji Hj]]%list_lookup_insert_Some [(<- & <- & _)|[Hki Hk]]%list_lookup_insert_Some H1 H2.
    + done.
    + destruct (Hrun k q2 ltac:(done) Hk) as [Hc _]. by rewrite (Hc (Ht H1)) in H2.
    + destruct (Hrun j q1 ltac:(done) Hj) as [Hc _]. by rewrite (Hc (Ht H2)) in H1.
    + by apply (Hx j k q1 q2).
Qed.
Lemma exclusive_execution s events s' : all_idle (sy_threads s) → execution s events s' → exclusive (sy_threads s').
Proof.
  intros Ha He. induction He as [|events s1 e s2 He IH Hs]; [by apply exclusive_idle|]. by eapply exclusive_step.
Qed.
(** Of the threads that have something to do, one may go on. *)
Lemma somebody_runs threads :
  exclusive threads → ¬ all_idle threads → ∃ i q, threads !! i = Some q ∧ q ≠ Idle ∧ may_run threads i q.
Proof.
  intros Hx Hn. assert (∀ q, holds_roots q = true → holds_commit q = true) as Hroots by by intros [].
  destruct (decide (Exists (λ q, holds_commit q = true) threads)) as [Hex|Hno].
  - apply Exists_exists in Hex as (q & [i Hi]%list_elem_of_lookup & Hq). exists i, q. split_and!; [done|by intros ->|].
    intros j q' Hj Hq'. assert (holds_commit q' = false) as Hc.
    { destruct (holds_commit q') eqn:E; [|done]. by destruct Hj; eapply Hx. }
    split; intros _; [done|]. destruct (holds_roots q') eqn:E; [|done]. by rewrite (Hroots _ E) in Hc.
  - apply not_Forall_Exists in Hn; [|apply _].
    apply Exists_exists in Hn as (q & [i Hi]%list_elem_of_lookup & Hq). exists i, q. split_and!; [done|done|].
    intros j q' Hj Hq'. assert (holds_commit q' = false) as Hc.
    { destruct (holds_commit q') eqn:E; [|done]. destruct Hno. apply Exists_exists. exists q'. split; [|done].
      by eapply list_elem_of_lookup_2. }
    split; intros _; [done|]. destruct (holds_roots q') eqn:E; [|done]. by rewrite (Hroots _ E) in Hc.
Qed.
Lemma execution_cons s e s1 events s2 : step s e s1 → execution s1 events s2 → execution s (e :: events) s2.
Proof.
  intros Hs He. induction He as [|events s2 e2 s3 He IH Hs2].
  - apply (execution_snoc s [] s e s1); [constructor|done].
  - apply (execution_snoc s (e :: events) s2 e2 s3); [exact IH|done].
Qed.
Definition total (f : section → nat) threads : nat := sum_list (f <$> threads).
Lemma total_insert f threads i q q' :
  threads !! i = Some q → (total f (<[i := q']> threads) + f q = total f threads + f q')%nat.
Proof.
  unfold total. revert i. induction threads as [|q0 threads IH]; intros [|i] Hi; try done; simpl in Hi.
  - injection Hi as ->. change (<[0%nat:=q']> (q :: threads)) with (q' :: threads). rewrite !fmap_cons. simpl. lia.
  - specialize (IH i Hi). change (<[S i:=q']> (q0 :: threads)) with (q0 :: <[i:=q']> threads).
    rewrite !fmap_cons. simpl. lia.
Qed.
Lemma can_finish s : exclusive (sy_threads s) → ∃ more s2, execution s more s2 ∧ all_idle (sy_threads s2).
Proof.
  remember (total rank (sy_threads s)) as n eqn:En. remember (total unread (sy_threads s)) as m eqn:Em.
  revert m s En Em. induction n as [n IHn] using lt_wf_ind. intros m. induction m as [m IHm] using lt_wf_ind.
  intros s -> -> Hx. destruct (decide (all_idle (sy_threads s))) as [Ha|Hn].
  { exists [], s. split; [constructor|done]. }
  destruct (somebody_runs _ Hx Hn) as (i & q & Hi & Hq & Hrun). destruct s as [h w threads]. simpl in *.
  pose proof (run_section_closer q (h, w) Hq) as [Hr _].
  destruct (run_section q (h, w)) as [o [h' w']] eqn:E. simpl in Hr.
  assert (step (System h w threads) (event_of i q o) (System h' w' (<[i := next_section o]> threads))) as Hs.
  { by apply step_section. }
  pose proof (total_insert rank threads i q (next_section o) Hi) as T1.
  pose proof (total_insert unread threads i q (next_section o) Hi) as T2.
  pose proof (exclusive_step (System h w threads) _ _ Hx Hs) as Hx'. simpl in Hx'.
  assert (∃ more s2, execution (System h' w' (<[i := next_section o]> threads)) more s2 ∧ all_idle (sy_threads s2))
    as (more & s2 & He & Ha).
  { destruct Hr as [Hr|[Hr Hu]].
    - eapply (IHn (total rank (<[i := next_section o]> threads))); [lia|done|done|done].
    - eapply (IHm (total unread (<[i := next_section o]> threads))); [lia|simpl; lia|done|done]. }
  exists (event_of i q o :: more), s2. split; [by eapply execution_cons|done].
Qed.

(** C12: Threads never block one another for good.  In every execution, on any storage and whatever it
    answers, at most one thread holds the commit lock, and from every state that is reached the
    threads can go on until every call has returned. *)
Theorem calls_can_finish s events s' :
  all_idle (sy_threads s) → execution s events s' →
  exclusive (sy_threads s') ∧ ∃ more s'', execution s' more s'' ∧ all_idle (sy_threads s'').
Proof.
  intros Ha He. pose proof (exclusive_execution _ _ _ Ha He) as Hx. split; [done|]. by apply can_finish.
Qed.
(** The sections are the operations.  A call that no other thread interrupts does exactly what
    [load], [commit], [checkpoint] and [integrity] of the heap do, on every path, errors included. *)
Theorem sections_are_the_operations (x : heap_state * W) name tx updates :
  run_alone 3 (entry (CallLoad name)) x = end_load (load name x) ∧
  run_alone (length updates + 9) (entry (CallCommit tx updates)) x = end_unit (commit tx updates x) ∧
  run_alone 4 (entry CallCheckpoint) x = end_unit (checkpoint x) ∧
  ∃ n, run_alone n (entry CallIntegrity) x = end_report (integrity x).
Proof. split_and!; [apply alone_load|apply alone_commit|apply alone_checkpoint|apply alone_integrity]. Qed.
End locks.

(** ** What threads observe *)
(** The commits of an execution that changed a root. *)
Definition touches (name : string) (e : event) : bool :=
  match e with Committed _ updates => bool_decide (name ∈ u_name <$> updates) | _ => false end.
Definition commits_of (name : string) (events : list event) : Z :=
  foldl (λ n e, if touches name e then n + 1 else n) 0 events.
Lemma commits_of_snoc name events e :
  commits_of name (events ++ [e]) = commits_of name events + (if touches name e then 1 else 0).
Proof. unfold commits_of. rewrite foldl_snoc. destruct (touches name e); lia. Qed.

Section threads.
Context {W : Type} `{HW : storage_reliable W} (config : heap_config).
Context (p : gmap Z pending_transaction) (room : Z).
Implicit Types (h : heap_state) (w : W) (A : amap) (v : view) (s : system W).

(** A heap that was just opened. *)
Definition just_opened h w A : Prop :=
  heap_inv config h w A p ∧ reliable w ∧ hs_poisoned h = false ∧
  0 ≤ cf_cache_bytes config < 2 ^ 63 ∧ hs_cache h = new_cache (cf_cache_bytes config).
Definition opened_view h A : view := initial_view A (hs_closed h) (hs_wal_sequence h).
Lemma opened_inv_threads h w A n :
  just_opened h w A → inv config p room (System h w (replicate n Idle)) (opened_view h A).
Proof.
  intros (Hinv & Hrel & Hpo & Hc & Hcache). apply inv_initial; [done..|]. rewrite Hcache.
  by apply new_cache_coherent.
Qed.
Lemma calls_recorded A b q events i c :
  v_call (view_after (initial_view A b q) events) i = Some c → Called i c ∈ events.
Proof.
  revert i c. induction events as [|e events IH] using rev_ind; intros i c; [done|].
  rewrite view_after_snoc, elem_of_app.
  destruct e as [j c'| | | | | | | |]; try (intros Hc; left; by apply IH).
  simpl. destruct (decide (j = i)) as [->|Hne].
  - rewrite fn_lookup_insert. intros [= ->]. right. by left.
  - rewrite fn_lookup_insert_ne by done. intros Hc. left. by apply IH.
Qed.
Lemma versions_after A b q events name :
  let v := initial_view A b q in
  legal_run v events →
  (∀ i tx updates, Called i (CallCommit tx updates) ∈ events →
     NoDup (u_name <$> updates) ∧ Forall (λ u, u_new u = u_expected u + 1) updates) →
  default 0 (a_version <$> v_map (view_after v events) !! name) =
  default 0 (a_version <$> A !! name) + commits_of name events.
Proof.
  intros v. induction events as [|e events IH] using rev_ind; intros Hl Hu; [unfold commits_of; simpl; lia|].
  apply legal_run_snoc in Hl as [Hl He]. rewrite commits_of_snoc, view_after_snoc.
  assert (∀ i tx updates, Called i (CallCommit tx updates) ∈ events →
    NoDup (u_name <$> updates) ∧ Forall (λ u, u_new u = u_expected u + 1) updates) as Hu'.
  { intros i tx updates Hin. apply (Hu i tx). apply elem_of_app. by left. }
  specialize (IH Hl Hu'). destruct e as [| |i updates| | | | | |]; simpl in *; try lia.
  destruct He as (Hm & _ & tx & Hcall). destruct (Hu' i tx updates) as [Hd Hone]; [by eapply calls_recorded|].
  destruct (a_commit_cases updates (v_map (view_after v events)) name Hd) as [(u & Hin & <- & E)|[Hn E]]; rewrite E; simpl.
  - rewrite bool_decide_true by (by apply list_elem_of_fmap_2).
    pose proof (proj1 (Forall_forall _ _) Hm u Hin) as H1. pose proof (proj1 (Forall_forall _ _) Hone u Hin) as H2.
    simpl in H1, H2. lia.
  - rewrite bool_decide_false by done. lia.
Qed.

(** C5: Threads see one heap with atomic operations.  Threads make any admissible calls on a heap that
    was just opened, on storage that does not fail; a commit is admissible when its transaction id is
    that of no unfinished record of the journal, its roots are distinct, their versions grow, its
    payloads are encodable values, and there is room for it in the sequence numbers and in a snapshot.
    Then, however the locks let their sections interleave, every commit takes place at one
    instant between its call and its return, at which all its roots have the versions it expects;
    every [load] returns what one of the maps current since its call holds; a commit ends without
    taking place only by a conflict that exists at that moment or on a closed heap; and when all
    threads are idle the open heap represents the map of the commits so far. *)
Theorem interleavings_are_legal h w A n events s' :
  just_opened h w A → execution (System h w (replicate n Idle)) events s' →
  admissible p room (opened_view h A) events →
  legal_run (opened_view h A) events ∧
  (all_idle (sy_threads s') → ∃ p', (p' = p ∨ p' = ∅) ∧
     heap_inv config (sy_heap s') (sy_store s') (v_map (view_after (opened_view h A) events)) p').
Proof.
  intros Ho He Ha.
  destruct (execution_ok config p room _ _ _ _ (opened_inv_threads h w A n Ho) He Ha) as [Hl Hi].
  split; [done|]. intros Hidle. destruct (in_shared _ _ _ _ _ Hi) as (p' & Hp & Hfree & _). exists p'. split; [done|].
  apply Hfree. intros i q Hq. by rewrite (Forall_lookup_1 _ _ _ _ Hidle Hq).
Qed.

(** C9: No update is lost.  On reliable storage, when threads make admissible commits, each adding one to
    the versions of the roots it changes, as transactions do, then after any interleaving the version
    of a root has grown by exactly the number of commits that changed it. *)
Theorem no_update_is_lost h w A n events s' name :
  just_opened h w A → execution (System h w (replicate n Idle)) events s' →
  admissible p room (opened_view h A) events → all_idle (sy_threads s') →
  (∀ i tx updates, Called i (CallCommit tx updates) ∈ events → Forall (λ u, u_new u = u_expected u + 1) updates) →
  version_of (hs_roots (sy_heap s')) name = version_of (hs_roots h) name + commits_of name events.
Proof.
  intros Ho He Ha Hidle Hu.
  destruct (execution_ok config p room _ _ _ _ (opened_inv_threads h w A n Ho) He Ha) as [Hl Hi].
  destruct (in_shared _ _ _ _ _ Hi) as (p' & _ & Hfree & _).
  destruct Hfree as [Hinv _]; [intros i q Hq; by rewrite (Forall_lookup_1 _ _ _ _ Hidle Hq)|].
  assert (∀ h1 w1 A1 p1, heap_inv config h1 w1 A1 p1 →
    version_of (hs_roots h1) name = default 0 (a_version <$> A1 !! name)) as Hver.
  { intros h1 w1 A1 p1 Hi1. pose proof (readable_inv _ _ _ _ _ Hi1 name) as Hr. unfold version_of.
    inversion Hr as [r a [E _]|]; simpl; [by rewrite E|done]. }
  destruct Ho as (Hinv0 & _). rewrite (Hver _ _ _ _ Hinv), (Hver _ _ _ _ Hinv0). unfold opened_view.
  apply versions_after; [exact Hl|]. intros i tx updates Hin. split; [|by eapply Hu].
  destruct Ha as (Hcalls & _). destruct (Hcalls i _ Hin) as (_ & _ & _ & ? & _). done.
Qed.

(** C10: Stopping anywhere loses nothing.  Threads make any admissible calls (commits of valid updates,
    each under an id that no unfinished record of the journal has) on a heap that was just opened, on
    storage that does not fail.  At every point between two sections of any interleaving, what
    is on the storage recovers to the map of all commits that took place so far, or, if a commit
    stands between its append and its publication, to that map with its updates. *)
Theorem interrupted_execution_recovers h w A n events s' :
  just_opened h w A → execution (System h w (replicate n Idle)) events s' →
  admissible p room (opened_view h A) events →
  let B := v_map (view_after (opened_view h A) events) in
  recovers config (sy_store s') B ∨
  ∃ i updates locations, sy_threads s' !! i = Some (Appended updates locations) ∧
    recovers config (sy_store s') (a_commit updates B).
Proof.
  intros Ho He Ha B.
  destruct (execution_ok config p room _ _ _ _ (opened_inv_threads h w A n Ho) He Ha) as [_ Hi].
  destruct (inv_on_disk _ _ _ _ _ Hi) as (C & (image & cj & t & Hd & _) & HC). fold B in HC.
  assert (recovers config (sy_store s') C) as Hrec by by exists image, cj, t.
  destruct HC as [->|(i & updates & locations & Hq & ->)]; [by left|right]. by exists i, updates, locations.
Qed.
End threads.

(** ** Concrete executions *)
Section playing.
Context {W : Type} `{storage W}.
Lemma may_runb_sound threads i q : may_runb threads i q = true → may_run threads i q.
Proof.
  unfold may_runb. intros Hb j q' Hj Hq'. rewrite forallb_forall in Hb. specialize (Hb (j, q')).
  cbv beta iota in Hb. rewrite bool_decide_false in Hb by done. cbn [orb] in Hb.
  assert (In (j, q') (imap pair threads)) as Hin.
  { apply list_elem_of_In, list_elem_of_lookup. exists j. by rewrite list_lookup_imap, Hq'. }
  specialize (Hb Hin). apply andb_true_iff in Hb as [H1 H2].
  split; intros E; rewrite E in *; by apply negb_true_iff.
Qed.
Lemma act_step a (s : system W) e s' : act a s = Some (e, s') → step s e s'.
Proof.
  destruct s as [h w threads]. destruct a as [i c|i]; simpl.
  - destruct (threads !! i) as [q|] eqn:E; [|done]. destruct q; try done. intros [= <- <-]. by constructor.
  - destruct (threads !! i) as [q|] eqn:E; [|done].
    assert (q ≠ Idle → (if may_runb threads i q then
      let '(o, (h', w')) := run_section q (h, w) in
      Some (event_of i q o, System h' w' (<[i := next_section o]> threads)) else None) = Some (e, s') →
      step (System h w threads) e s') as Hgo.
    { intros Hne. destruct (may_runb threads i q) eqn:Eb; [|done].
      destruct (run_section q (h, w)) as [o [h' w']] eqn:Er. intros [= <- <-].
      apply step_section; [done|done|by apply may_runb_sound|done]. }
    destruct q; try done; by apply Hgo.
Qed.
Lemma play_execution actions (s : system W) events s' : play actions s = Some (events, s') → execution s events s'.
Proof.
  revert s events. induction actions as [|a actions IH]; intros s events; simpl; [intros [= <- <-]; constructor|].
  destruct (act a s) as [[e s1]|] eqn:Ea; [|done]. simpl.
  destruct (play actions s1) as [[more s2]|] eqn:Ep; [|done]. simpl. intros [= <- <-].
  eapply execution_cons; [by apply act_step in Ea|]. by apply IH.
Qed.
End playing.

(** Two threads on the sample heap: one commits the root r while the other asks for it, before the
    commit has taken the roots lock, and again afterwards. *)
Definition sample_system : system Disk.disk := System opened_heap opened_disk (replicate 2 Idle).
Definition sample_schedule : list action :=
  [DoCall 0 (CallCommit 1 sample_updates); DoStep 0; DoStep 0; DoStep 0; DoCall 1 (CallLoad "r"); DoStep 1;
   DoStep 0; DoStep 0; DoStep 0; DoStep 0; DoCall 1 (CallLoad "r"); DoStep 1; DoStep 1].
Definition played (actions : list action) (s : system Disk.disk) : list event * system Disk.disk :=
  default ([], s) (play actions s).
Definition sample_events : list event := (played sample_schedule sample_system).1.
Definition sample_final : system Disk.disk := (played sample_schedule sample_system).2.
Lemma sample_execution : execution sample_system sample_events sample_final.
Proof.
  apply (play_execution sample_schedule). unfold sample_events, sample_final, played.
  destruct (play sample_schedule sample_system) as [[events s']|] eqn:E; [done|].
  exfalso. revert E. vm_compute. discriminate.
Qed.
Lemma sample_events_are :
  sample_events =
  [Called 0 (CallCommit 1 sample_updates); Stepped 0; Stepped 0; Stepped 0;
   Called 1 (CallLoad "r"); LoadEnded 1 "r" (Ok (LoadedRoot 0 None false));
   Committed 0 sample_updates; Stepped 0; Stepped 0; Ended 0 (Ok tt);
   Called 1 (CallLoad "r"); Stepped 1; LoadEnded 1 "r" (Ok (LoadedRoot 1 (Some (payload_of (VInteger 7))) true))].
Proof. vm_compute. reflexivity. Qed.
Lemma sample_just_opened : just_opened sample_config ∅ opened_heap opened_disk ∅.
Proof. split_and!; [exact sample_inv|vm_compute; reflexivity|done|done|done|done]. Qed.
Lemma sample_call_ok : call_ok ∅ 100 (CallCommit 1 sample_updates).
Proof. split_and!; try done; [exact sample_updates_wf|apply NoDup_singleton|repeat constructor|repeat constructor]. Qed.
Lemma one_commit_admissible events :
  (∀ i c, Called i c ∈ events → c = CallCommit 1 sample_updates ∨ ∀ tx updates, c ≠ CallCommit tx updates) →
  v_sequence (view_after (opened_view opened_heap ∅) events) ≤ 100 →
  v_history (view_after (opened_view opened_heap ∅) events) = [sample_map; ∅ : amap] →
  admissible ∅ 100 (opened_view opened_heap ∅) events.
Proof.
  intros Hc Hs Hh. split_and!; [|done|].
  - intros i c Hin. destruct (Hc i c Hin) as [->|Hn]; [exact sample_call_ok|]. destruct c; try done. by destruct (Hn tx updates).
  - intros B. rewrite Hh. intros [->|[->|[]%not_elem_of_nil]%elem_of_cons]%elem_of_cons; [exact sample_map_saveable|].
    split; [by apply Z.leb_le|by intros n a ?].
Qed.
(** The calls in a list of events, for lists written out. *)
Ltac calls_in Hin :=
  repeat (apply elem_of_cons in Hin as [Hin|Hin]; [first [discriminate Hin|injection Hin as -> ->; by (left + right)]|]);
  by apply not_elem_of_nil in Hin.
Lemma sample_admissible : admissible ∅ 100 (opened_view opened_heap ∅) sample_events.
Proof.
  rewrite sample_events_are. apply one_commit_admissible; [|vm_compute; discriminate|done]. intros i c Hin. calls_in Hin.
Qed.
Lemma sample_final_idle : all_idle (sy_threads sample_final).
Proof. assert (sy_threads sample_final = [Idle; Idle]) as -> by (vm_compute; reflexivity). by repeat constructor. Qed.

Lemma interleavings_are_legal_witness :
  legal_run (opened_view opened_heap ∅) sample_events ∧
  (all_idle (sy_threads sample_final) → ∃ p', (p' = ∅ ∨ p' = ∅) ∧
     heap_inv sample_config (sy_heap sample_final) (sy_store sample_final)
       (v_map (view_after (opened_view opened_heap ∅) sample_events)) p').
Proof.
  apply (interleavings_are_legal sample_config ∅ 100 opened_heap opened_disk ∅ 2 sample_events sample_final);
    [exact sample_just_opened|exact sample_execution|exact sample_admissible].
Defined.
Lemma no_update_is_lost_witness : version_of (hs_roots (sy_heap sample_final)) "r" = 0 + 1.
Proof.
  apply (no_update_is_lost sample_config ∅ 100 opened_heap opened_disk ∅ 2 sample_events sample_final "r");
    [exact sample_just_opened|exact sample_execution|exact sample_admissible|exact sample_final_idle|].
  intros i tx updates. rewrite sample_events_are. intros Hin.
  repeat (apply elem_of_cons in Hin as [Hin|Hin]; [first [discriminate Hin|injection Hin as -> -> ->; repeat constructor]|]).
  by apply not_elem_of_nil in Hin.
Defined.
Lemma interrupted_execution_recovers_witness :
  let B := v_map (view_after (opened_view opened_heap ∅) sample_events) in
  recovers sample_config (sy_store sample_final) B ∨
  ∃ i updates locations, sy_threads sample_final !! i = Some (Appended updates locations) ∧
    recovers sample_config (sy_store sample_final) (a_commit updates B).
Proof.
  apply (interrupted_execution_recovers sample_config ∅ 100 opened_heap opened_disk ∅ 2 sample_events sample_final);
    [exact sample_just_opened|exact sample_execution|exact sample_admissible].
Defined.
Lemma calls_can_finish_witness :
  exclusive (sy_threads sample_final) ∧ ∃ more s'', execution sample_final more s'' ∧ all_idle (sy_threads s'').
Proof.
  apply (calls_can_finish sample_system sample_events sample_final); [|exact sample_execution].
  repeat constructor.
Defined.

(** Two transactions that each read both of two roots and then change one of them. *)
Definition two_roots : list root_update := [write_root "x" 0 (VInteger 1); write_root "y" 0 (VInteger 1)].
Definition change (name : string) : list root_update := [write_root name 1 (VInteger 2)].
Definition steps (i n : nat) : list action := replicate n (DoStep i).
Definition skew_schedule : list action :=
  [DoCall 0 (CallCommit 1 two_roots)] ++ steps 0 8 ++
  [DoCall 0 (CallLoad "x")] ++ steps 0 2 ++ [DoCall 0 (CallLoad "y")] ++ steps 0 2 ++
  [DoCall 1 (CallLoad "x")] ++ steps 1 2 ++ [DoCall 1 (CallLoad "y")] ++ steps 1 2 ++
  [DoCall 0 (CallCommit 2 (change "x"))] ++ steps 0 7 ++ [DoCall 1 (CallCommit 3 (change "y"))] ++ steps 1 7.
Definition ending (e : event) : bool := match e with LoadEnded _ _ _ | Ended _ _ => true | _ => false end.
(** Conflicts are found root by root, so that two transactions that each read both of two roots and
    each change the other one both commit: the result is one that no order of running the two gives. *)
Theorem write_skew_commits :
  let old := Ok (LoadedRoot 1 (Some (payload_of (VInteger 1))) true) in
  ∃ events s', execution sample_system events s' ∧
    filter (λ e, ending e = true) events =
      [Ended 0 (Ok tt); LoadEnded 0 "x" old; LoadEnded 0 "y" old; LoadEnded 1 "x" old; LoadEnded 1 "y" old;
       Ended 0 (Ok tt); Ended 1 (Ok tt)].
Proof.
  exists (played skew_schedule sample_system).1, (played skew_schedule sample_system).2. split.
  - apply (play_execution skew_schedule). unfold played.
    destruct (play skew_schedule sample_system) as [[events s']|] eqn:E; [done|].
    exfalso. revert E. vm_compute. discriminate.
  - vm_compute. reflexivity.
Qed.
