(* ===== verification/ConcurrencyIntegrity.v ===== *)
(** * Integrity checks that overlap with other calls.

    [integrity] takes no lock, and scans the journal while others append to it.  While no checkpoint
    is past the saving of its snapshot, the files only grow under it, and what it has read stays true;
    a checkpoint takes the journal away from under it. *)
From stdpp Require Import functions.
From S2P Require Import Prelude.
From S2P Require Import Binary.
From S2P Require Import Value.
From S2P Require Import Storage.
From S2P Require Import Codec.
From S2P Require Import Journal.
From S2P Require Import Recovery.
From S2P Require Import Snapshot.
From S2P Require Import SnapshotImage.
From S2P Require Import Cache.
From S2P Require Import Heap.
From S2P Require Import HeapSpec.
From S2P Require Import Concurrency.
From S2P Require Import ConcurrencySpec.
From S2P Require Import ConcurrencyInvariant.
From S2P Require Import HeapTheorems.
From S2P Require Import ConcurrencyTheorems.

Section integrity.
Context {W : Type} `{HW : storage_reliable W} (config : heap_config).
Context (p0 : gmap Z pending_transaction) (room : Z).
Implicit Types (h : heap_state) (w : W) (A : amap) (v : view) (q : section) (s : system W).

(** The snapshot is the same, and the journal has at most grown. *)
Definition grows w w1 : Prop :=
  file_of w1 (snap_path config) = file_of w (snap_path config) ∧
  ∀ cj, file_of w (wal_path config) = Some cj → ∃ x, file_of w1 (wal_path config) = Some (cj ++ x).
Lemma grows_same w w1 : same_files w w1 → grows w w1.
Proof. intros Hs. split; [apply Hs|]. intros cj Hw. exists []. by rewrite Hs, app_nil_r. Qed.

(** A scan under way: the journal begins with what it was when its size was read, and the rest of the
    scan of that finds the roots of one of the maps [reached]. *)
Definition scanning (reached : amap → Prop) w (image : snapshot_image) (n : Z) (t : scan) (cj : list byte) : Prop :=
  n = size cj ∧ 0 ≤ s_offset t ∧ (∃ x, file_of w (wal_path config) = Some (cj ++ x)) ∧
  ∃ B u, reached B ∧ wf_amap B ∧ scan_all (cf_checksums config) (i_sequence image) cj t = Ok u ∧
    roots_hold (file_of w (snap_path config)) cj (s_roots u) B.
(** The record that the scan has read the prefix of. *)
Definition framed (cj : list byte) (t : scan) (m : Z) : Prop :=
  s_offset t < size cj ∧ run read_prefix (slice cj (s_offset t) prefix_size) = Ok m ∧
  s_offset t + prefix_size + m ≤ size cj.
(** What a thread that checks the heap has found out. *)
Definition finding (reached : amap → Prop) w q : Prop :=
  match q with
  | Reopening image | Rescanning image => parse_image config (file_of w (snap_path config)) = Ok image
  | Scanning image n t => ∃ cj, scanning reached w image n t cj
  | Framing image n t m => ∃ cj, scanning reached w image n t cj ∧ framed cj t m
  | Rechecking records recovered =>
      ∃ cj B, reached B ∧ wf_amap B ∧ file_of w (wal_path config) = Some cj ∧
        size (map_to_list (r_roots recovered)) = size (map_to_list B) ∧
        Forall (λ r, ∃ n a, B !! n = Some a ∧ root_holds (file_of w (snap_path config)) cj r a) records
  | _ => True
  end.
Lemma scanning_grows (P Q : amap → Prop) w w1 image n t cj :
  (∀ B, P B → Q B) → grows w w1 → scanning P w image n t cj → scanning Q w1 image n t cj.
Proof.
  intros HPQ [Es Ew] (Hn & Ho & [x Hx] & B & u & HB & Hwf & Hs & Hr). unfold scanning. rewrite Es. split_and!; [done|done| |].
  - destruct (Ew _ Hx) as [y Hy]. exists (x ++ y). by rewrite app_assoc.
  - exists B, u. auto.
Qed.
Lemma finding_grows (P Q : amap → Prop) w w1 q :
  (∀ B, P B → Q B) → grows w w1 → finding P w q → finding Q w1 q.
Proof.
  intros HPQ Hg Hf. pose proof Hg as [Es Ew]. destruct q; try done; simpl in *; rewrite ?Es; try done.
  - destruct Hf as [cj Hf]. exists cj. by eapply scanning_grows.
  - destruct Hf as (cj & Hf & Hm). exists cj. split; [by eapply scanning_grows|done].
  - destruct Hf as (cj & B & HB & Hwf & Hw & Hn & Hr). destruct (Ew cj Hw) as [x Hx].
    exists (cj ++ x), B. split_and!; [by apply HPQ|done|done|done|]. eapply Forall_impl; [exact Hr|].
    intros r (n & a & Ha & [R1 R2 R3]). exists n, a. split; [done|]. split; auto.
Qed.

(** The scan reads on as if the journal had stopped growing. *)
Lemma scan_prefix_computes cj x snap (t u : scan) w :
  file_of w (wal_path config) = Some (cj ++ x) → 0 ≤ s_offset t →
  scan_all (cf_checksums config) snap cj t = Ok u →
  ∃ o, computes (scan_prefix (wal_of config) (size cj) t) w (Ok o) ∧
    match o with None => u = t | Some m => framed cj t m end.
Proof.
  intros Hw Ho. rewrite scan_all_unfold by done. unfold scan_prefix.
  destruct (Z.ltb_spec (s_offset t) (size cj)) as [Hlt|].
  2:{ intros [= ->]. exists None. split; [apply computes_ret|done]. }
  unfold scan_step. destruct (Z.ltb_spec (size cj - s_offset t) prefix_size) as [|Hsz].
  { intros [= ->]. exists None. split; [apply computes_ret|done]. }
  intros (o & Hm & Hu)%bind_result_ok. apply bind_result_ok in Hm as (m & Hm & Hrest).
  pose proof (size_nonneg x). assert (0 ≤ prefix_size) by done.
  exists (if m >? size cj - s_offset t - prefix_size then None else Some m). split.
  - eapply computes_step; [apply computes_read; [exact Hw|lia|done|rewrite size_app; lia]|]. intros w1 _.
    rewrite slice_app_l by lia. eapply computes_step; [rewrite Hm; apply computes_pure|]. intros. apply computes_ret.
  - destruct (Z.gtb_spec m (size cj - s_offset t - prefix_size)); [by injection Hrest as <-; injection Hu as <-|].
    split_and!; [done|done|lia].
Qed.
Lemma scan_frame_computes cj x snap (t u : scan) m w :
  file_of w (wal_path config) = Some (cj ++ x) → 0 ≤ s_offset t → framed cj t m →
  scan_all (cf_checksums config) snap cj t = Ok u →
  ∃ t', computes (scan_frame (wal_of config) snap t m) w (Ok t') ∧ 0 ≤ s_offset t' ∧
    scan_all (cf_checksums config) snap cj t' = Ok u.
Proof.
  intros Hw Ho (Hlt & Hm & Hle). pose proof (read_prefix_inv _ _ Hm). assert (0 ≤ prefix_size) by done.
  rewrite scan_all_unfold by done. destruct (Z.ltb_spec (s_offset t) (size cj)); [|lia]. unfold scan_step. rewrite Hm.
  destruct (Z.ltb_spec (size cj - s_offset t) prefix_size); [lia|]. cbn [mbind result_bind].
  destruct (Z.gtb_spec m (size cj - s_offset t - prefix_size)); [lia|].
  intros (o & Ht & Hu)%bind_result_ok. apply bind_result_ok in Ht as (t' & Ht & [= <-]).
  pose proof (process_frame_inv _ _ _ _ _ Ht) as [Hoff _]. pose proof (size_nonneg x).
  exists t'. split_and!; [|rewrite Hoff, size_slice; lia|done]. unfold scan_frame.
  eapply computes_step; [apply computes_read; [exact Hw|lia..|rewrite size_app; lia]|]. intros w1 _.
  rewrite slice_app_l by lia. rewrite <- Ht. apply computes_pure.
Qed.

(** Sections that read, or change the heap only. *)
Lemma ends_store {X} (m : heap (W:=W) X) next failed h w : (ends m next failed (h, w)).2 = (m (h, w)).2.
Proof. unfold ends. by destruct (m (h, w)) as [[a|e] s1]. Qed.
Lemma missed_store name h w : reliable w → same_files w (run_section (Missed name) (h, w)).2.2.
Proof.
  intros Hr. cbn [run_section]. rewrite ends_store. unfold load_uncached, state, mbind, M_bind, on_fst, get, on_snd, on_cache.
  destruct (hs_roots h !! name) as [record|]; [|apply same_files_refl].
  destruct (load_payload_harmless (hs_config h) (rr_payload record) w Hr) as [_ Hs].
  destruct (load_payload _ _ w) as [[bytes|e] w1]; [|done]. by destruct (cache_put _ _ _ _) as [[x|e] c].
Qed.
Lemma quick_store q h w :
  match q with
  | Missed _ | Appending _ _ | Measuring | Saving | Resetting => False
  | _ => checks q = false
  end → (run_section q (h, w)).2.2 = w.
Proof.
  destruct q as [| |name record| | | | | |us ls| | | |written| | | | | | |]; try done; cbn [run_section]; intros _; rewrite ?ends_store.
  - unfold on_cache. by destruct (cache_get _ _ _) as [r c].
  - destruct us as [|u us], ls as [|l ls]; rewrite ?ends_store; try done.
    all: unfold publish_one, update, on_fst, modify, on_cache, mbind, M_bind; simpl.
    by destruct (cache_put _ _ _ _) as [[x|e] c].
Qed.

(** A section that is not the saving of a snapshot, nor the end of a checkpoint, lets the files grow. *)
Lemma appending_store h w threads v i tx updates :
  inv config p0 room (System h w threads) v → threads !! i = Some (Appending tx updates) →
  may_run threads i (Appending tx updates) → v_sequence v ≤ room →
  grows w (run_section (Appending tx updates) (h, w)).2.2.
Proof.
  intros Hi Hq Hrun Hroom. pose proof (in_threads _ _ _ _ _ Hi _ _ Hq) as (_ & _ & (Htx & _ & Hwf & Hnames & Hgrow & _ & Hsize) & _).
  destruct (inv_locked _ _ _ _ _ _ _ _ _ Hi Hq Hrun eq_refl) as [_ (p & _ & (image & cj & t & Hh & _) & Hsq)].
  assert (valid_updates h updates) as Hvu by (split; [done|done|done|lia]).
  destruct (sequence_bounds config h w (v_map v) image cj t updates Hh Hvu) as [Hq0 Hqb].
  destruct (journal_append_spec (wal_of config) tx cj (s_last_sequence t) updates w
    (hi_journal _ _ _ _ _ _ _ Hh) Hq0 Hqb) as (r1 & w1 & E1 & Hb1 & Hr1 & Hok1).
  destruct (Hok1 (in_reliable _ _ _ _ _ Hi)) as [_ ->]. destruct Hr1 as [_ Ew].
  cbn [run_section]. unfold ends, state, mbind, M_bind at 1, on_fst at 1, get, catch, on_wal.
  rewrite (hi_config _ _ _ _ _ _ _ Hh), (hi_sequence _ _ _ _ _ _ _ Hh), E1. simpl. split.
  - apply Hb1. by destruct (paths_differ config).
  - intros cj' Hw. rewrite (hi_journal _ _ _ _ _ _ _ Hh) in Hw. injection Hw as <-. eauto.
Qed.
Lemma measuring_store h w threads v i :
  inv config p0 room (System h w threads) v → threads !! i = Some Measuring →
  may_run threads i Measuring → same_files w (run_section Measuring (h, w)).2.2.
Proof.
  intros Hi Hq Hrun.
  destruct (inv_locked _ _ _ _ _ _ _ _ _ Hi Hq Hrun eq_refl) as [_ (p & _ & (image & cj & t & Hh & _) & Hsq)].
  destruct (computes_size (wal_path config) cj w (hi_journal _ _ _ _ _ _ _ Hh)) as (r & w1 & E & Hs & _ & _).
  cbn [run_section]. rewrite ends_store. unfold state, mbind, M_bind, on_fst, get, on_snd.
  rewrite (hi_config _ _ _ _ _ _ _ Hh). change (j_path (wal_of config)) with (wal_path config). by rewrite E.
Qed.
Lemma saving_saves h w threads v i :
  inv config p0 room (System h w threads) v → threads !! i = Some Saving → may_run threads i Saving →
  saveable (v_map v) → event_of i Saving (run_section Saving (h, w)).1 = Saved i.
Proof.
  intros Hi Hq Hrun Hsave.
  destruct (inv_locked _ _ _ _ _ _ _ _ _ Hi Hq Hrun eq_refl) as [_ (p & _ & (image & cj & t & Hh & _) & Hsq)].
  set (now := Image (hs_roots h) (hs_wal_sequence h)).
  destruct (checkpoint_ordered config h w (v_map v) image cj t Hh Hsave) as [roots Ho]. fold now in Ho.
  destruct (save_spec (snapshot_of config) (read_payload config) _ w now roots Ho
    (checkpoint_reads config h w (v_map v) image cj t Hh roots Ho)) as (r1 & w1 & E1 & _ & Hok1).
  destruct (Hok1 (in_reliable _ _ _ _ _ Hi)) as [[x ->] _].
  cbn [run_section]. unfold ends, state, mbind, M_bind, on_fst, get, on_snd.
  rewrite (hi_config _ _ _ _ _ _ _ Hh). fold now. by rewrite E1.
Qed.
(** The end of a checkpoint, after it has saved the snapshot. *)
Definition settles q : bool := match q with Switching _ | Resetting => true | _ => false end.
Lemma section_grows h w threads v i q :
  inv config p0 room (System h w threads) v → threads !! i = Some q → may_run threads i q →
  v_sequence v ≤ room → saveable (v_map v) → event_of i q (run_section q (h, w)).1 ≠ Saved i → settles q = false →
  grows w (run_section q (h, w)).2.2.
Proof.
  intros Hi Hq Hrun Hroom Hsave Hne Hnr. destruct (checks q) eqn:Hc.
  - destruct (checks_checked _ _ _ _ _ _ _ _ _ Hi Hq Hc) as (o & w1 & -> & Hs & _). by apply grows_same.
  - destruct q; try done; try (rewrite quick_store by done; by apply grows_same, same_files_refl).
    + by apply grows_same, missed_store, Hi.
    + by eapply appending_store.
    + by eapply grows_same, measuring_store.
    + destruct Hne. by eapply saving_saves.
Qed.

(** What a section of [integrity] finds out. *)
Definition finds (reached : amap → Prop) (x : outcome * (heap_state * W)) : Prop :=
  finding reached x.2.2 (next_section x.1) ∧
  ∀ report, x.1 = Reported_ report →
    ir_ok report = true ∧ ∃ B, reached B ∧ ir_roots report = size (map_to_list B).
Lemma finds_computes {X} (P : amap → Prop) (m : heap_config → M W X) (next : X → outcome) a h w :
  reliable w → computes (m (hs_config h)) w (Ok a) →
  (∀ w1, same_files w w1 → finds P (next a, (h, w1))) →
  finds P (ends (h ← state; on_snd (m (hs_config h))) next alarm (h, w)).
Proof.
  intros Hr (r & w1 & E & Hs & _ & Hok) Hn. rewrite reads_ends, E. destruct (Hok Hr) as [-> _]. by apply Hn.
Qed.
Lemma roots_hold_size cs cj roots A : roots_hold cs cj roots A → size (map_to_list roots) = size (map_to_list A).
Proof.
  intros Hr. unfold size. f_equal. rewrite <- (length_fmap fst), <- (length_fmap fst (map_to_list A)).
  apply Permutation_length, NoDup_Permutation; [apply NoDup_fst_map_to_list..|]. intros n.
  assert (∀ B (m : gmap string B), n ∈ (map_to_list m).*1 ↔ is_Some (m !! n)) as Hdom.
  { intros B m. rewrite list_elem_of_fmap. split.
    - intros ([n' b] & -> & Hin%elem_of_map_to_list). by exists b.
    - intros [b Hb]. exists (n, b). split; [done|]. by apply elem_of_map_to_list. }
  rewrite !Hdom. specialize (Hr n). inversion Hr as [r a _ E E'|E E']; split; (intros [? ?]; eauto; congruence).
Qed.
Lemma checks_find (P : amap → Prop) h w threads v i q :
  inv config p0 room (System h w threads) v → threads !! i = Some q → checks q = true → finding P w q →
  (∀ A, A = v_map v ∨ (∃ j updates locations, threads !! j = Some (Appended updates locations) ∧
     A = a_commit updates (v_map v)) → P A) →
  finds P (run_section q (h, w)).
Proof.
  intros Hi Hq Hc Hf HP. destruct (inv_on_disk _ _ _ _ _ Hi) as (A & (image & cj & t & Hd & Hw) & HA).
  cbn [sy_store sy_threads] in Hd, Hw, HA.
  pose proof (in_reliable _ _ _ _ _ Hi) as Hrel. pose proof (in_config _ _ _ _ _ Hi) as Hcf. simpl in Hrel, Hcf.
  destruct q as [| | | | | | | | | | | | | | |image'|image'|image' n t'|image' n t' m|[|r records] recovered]; try done; cbn [run_section].
  - apply (finds_computes P (λ c, snapshot_load (snapshot_of c)) _ image); [done| |].
    + rewrite Hcf, <- (ds_snapshot _ _ _ _ _ _ Hd). apply snapshot_load_parse.
    + intros w1 Hs. split; [|done]. simpl. rewrite Hs. apply Hd.
  - apply (finds_computes P (λ c, open_file (j_path (wal_of c)) true) _ tt); [done| |].
    + rewrite Hcf. eapply computes_open, Hw.
    + intros w1 Hs. split; [|done]. simpl in *. by rewrite Hs.
  - simpl in Hf. rewrite (ds_snapshot _ _ _ _ _ _ Hd) in Hf. injection Hf as <-.
    apply (finds_computes P (λ c, file_size (j_path (wal_of c))) _ (size cj)); [done| |].
    + rewrite Hcf. eapply computes_size, Hw.
    + intros w1 Hs. split; [|done]. exists cj. split_and!; [done|done|exists []; by rewrite Hs, app_nil_r|].
      exists A, t. split_and!; [by apply HP|apply Hd|apply Hd|]. rewrite Hs. eapply roots_hold_mono; [apply Hd|]. intros l data Hl.
      rewrite <- (take_drop (Z.to_nat (s_last_good t)) cj). by apply located_app.
  - destruct Hf as (cj' & -> & Ho & [x Hx] & B & u & HB & Hwf & Hscan & Hr).
    destruct (scan_prefix_computes cj' x _ t' u w Hx Ho Hscan) as (o & Hc' & Ho').
    apply (finds_computes P (λ c, scan_prefix (wal_of c) (size cj') t') _ o); [done|by rewrite Hcf|].
    intros w1 Hs. split; [|done]. destruct o as [m|]; simpl.
    + exists cj'. split; [|done]. eapply scanning_grows; [done|by apply grows_same|]. split_and!; [done|done|by exists x|by exists B, u].
    + subst u. exists (cj' ++ x), B. rewrite !Hs. split_and!; [done|done|done|by eapply roots_hold_size|].
      apply Forall_forall. intros r ([n r'] & -> & Hin%elem_of_map_to_list)%list_elem_of_fmap.
      destruct (roots_hold_lookup _ _ _ _ _ _ Hr Hin) as (a & Ha & [R1 R2 R3]). exists n, a. split; [done|].
      split; [done|done|by apply located_app].
  - destruct Hf as (cj' & (-> & Ho & [x Hx] & B & u & HB & Hwf & Hscan & Hr) & Hfr).
    destruct (scan_frame_computes cj' x _ t' u m w Hx Ho Hfr Hscan) as (t2 & Hc' & Ho' & Hscan').
    apply (finds_computes P (λ c, scan_frame (wal_of c) (i_sequence image') t' m) _ t2); [done|by rewrite Hcf|].
    intros w1 Hs. split; [|done]. exists cj'. eapply scanning_grows; [done|by apply grows_same|].
    split_and!; [done|done|by exists x|by exists B, u].
  - destruct Hf as (cj' & B & HB & Hwf & Hw' & Hn & _).
    apply (finds_computes P (λ c, file_size (j_path (wal_of c))) _ (size cj)); [done| |].
    + rewrite Hcf. eapply computes_size, Hw.
    + intros w1 Hs. split; [done|]. intros report [= <-]. split; [done|]. by exists B.
  - destruct Hf as (cj' & B & HB & Hwf & Hw' & Hn & Hr). apply Forall_cons in Hr as [(n & a & Ha & Hr) Hrs].
    apply (finds_computes P (λ c, load_payload c (rr_payload r)) _ (a_payload a)); [done| |].
    + rewrite Hcf. eapply load_payload_computes; [exact Hr|exact Hw'|]. by destruct (Hwf _ _ Ha) as (_ & _ & _ & [_ ?]).
    + intros w1 Hs. split; [|done]. simpl. exists cj', B. by rewrite !Hs.
Qed.

(** The other sections lead to no check, and only saving leads to the end of a checkpoint. *)
Lemma others_find (P : amap → Prop) w i q (x : heap_state * W) :
  checks q = false → let o := (run_section q x).1 in
  finding P w (next_section o) ∧ ∀ j report, event_of i q o ≠ Verified j report.
Proof.
  intros Hc. destruct q; try done; cbn [run_section];
    try (apply (ends_cases _ _ _ _ (λ o, finding P w (next_section o) ∧ ∀ j report, event_of i _ o ≠ Verified j report));
         intros; repeat case_match; done).
  - unfold look. simpl. repeat case_match; done.
  - simpl. by case_bool_decide.
  - unfold validate. simpl. repeat case_match; done.
  - destruct updates as [|u us], locations as [|l ls]; cbn [run_section];
      try (apply (ends_cases _ _ _ _ (λ o, finding P w (next_section o) ∧ ∀ j report, event_of i _ o ≠ Verified j report)); intros);
      done.
  - simpl. by case_match.
Qed.
Lemma next_settles i q (x : heap_state * W) :
  settles q = false → event_of i q (run_section q x).1 ≠ Saved i → settles (next_section (run_section q x).1) = false.
Proof.
  intros Hq. destruct q; try done; cbn [run_section];
    try (apply (ends_cases _ _ _ _ (λ o, event_of i _ o ≠ Saved i → settles (next_section o) = false));
         intros; repeat case_match; simpl in *; done).
  - intros _. unfold look. simpl. repeat case_match; done.
  - intros _. simpl. by case_bool_decide.
  - intros _. unfold validate. simpl. repeat case_match; done.
  - destruct updates as [|u us], locations as [|l ls]; cbn [run_section];
      try (apply (ends_cases _ _ _ _ (λ o, event_of i _ o ≠ Saved i → settles (next_section o) = false)); intros); done.
  - intros _. simpl. by case_match.
  - destruct records; cbn [run_section];
      apply (ends_cases _ _ _ _ (λ o, event_of i _ o ≠ Saved i → settles (next_section o) = false)); done.
Qed.

(** The maps there were since the last call of thread [i], and those that a commit under way would
    make of them. *)
Definition reached (v0 : view) (events : list event) (i : nat) (B : amap) : Prop :=
  B ∈ v_seen (view_after v0 events) i ∨
  ∃ B0 j tx updates, B0 ∈ v_seen (view_after v0 events) i ∧ Called j (CallCommit tx updates) ∈ events ∧
    B = a_commit updates B0.
Lemma seen_observe v e i : (∀ c, e ≠ Called i c) → ∀ B, B ∈ v_seen v i → B ∈ v_seen (observe v e) i.
Proof.
  intros Hn B HB. destruct e as [j c| | | | | | | |]; try done; simpl.
  - rewrite fn_lookup_insert_ne; [done|]. intros ->. by destruct (Hn c).
  - by right.
Qed.
Lemma now_observe v e i : v_map v ∈ v_seen v i → v_map (observe v e) ∈ v_seen (observe v e) i.
Proof.
  intros Hv. destruct e as [j c| | | | | | | |]; try done; simpl; [|by left].
  destruct (decide (j = i)) as [->|]; [rewrite fn_lookup_insert; by left|by rewrite fn_lookup_insert_ne].
Qed.
Lemma reached_snoc v0 events e i :
  (∀ c, e ≠ Called i c) → ∀ B, reached v0 events i B → reached v0 (events ++ [e]) i B.
Proof.
  intros Hn B. unfold reached. rewrite view_after_snoc. intros [HB|(B0 & j & tx & us & HB & Hc & ->)].
  - left. by apply seen_observe.
  - right. exists B0, j, tx, us. split_and!; [by apply seen_observe|apply elem_of_app; by left|done].
Qed.
(** No checkpoint is past its saving, and thread [i] is right about what it has found out. *)
Definition undisturbed s : Prop := ∀ j q, sy_threads s !! j = Some q → settles q = false.
Definition found (P : amap → Prop) i s : Prop := ∀ q, sy_threads s !! i = Some q → finding P (sy_store s) q.
Definition verified (P : amap → Prop) i (e : event) : Prop :=
  ∀ report, e = Verified i report → ir_ok report = true ∧ ∃ B, P B ∧ ir_roots report = size (map_to_list B).
Lemma undisturbed_step s e s1 : undisturbed s → step s e s1 → (∀ i, e ≠ Saved i) → undisturbed s1.
Proof.
  intros Hu Hs Hne. destruct Hs as [h w threads i c Hq|h w threads i q o h' w' Hq Hx Hrun E|h w threads i tx h' w' Hq E|h w threads h' w' E];
    intros j q1 Hj; cbn [sy_threads] in Hj; try by apply (Hu j q1).
  - apply list_lookup_insert_Some in Hj as [(<- & <- & _)|[_ Hj]]; [by destruct c|by apply (Hu j q1)].
  - apply list_lookup_insert_Some in Hj as [(<- & <- & _)|[_ Hj]]; [|by apply (Hu j q1)].
    pose proof (next_settles i q (h, w) (Hu i q Hq)) as Hn. rewrite E in Hn. by apply Hn, (Hne i).
Qed.
Lemma step_find s (P Q : amap → Prop) v e s1 i :
  inv config p0 room s v → step s e s1 → v_sequence v ≤ room → saveable (v_map v) → (∀ j, e ≠ Saved j) →
  ((∀ c, e ≠ Called i c) → ∀ B, P B → Q B) →
  ((∀ c, e ≠ Called i c) → ∀ A, A = v_map v ∨ (∃ j updates locations, sy_threads s !! j = Some (Appended updates locations) ∧
     A = a_commit updates (v_map v)) → Q A) →
  undisturbed s → found P i s → found Q i s1 ∧ verified Q i e.
Proof.
  intros Hi Hs Hroom Hsave Hne HPQ HQ Hu Hf.
  assert (∀ w1, (∀ c, e ≠ Called i c) → grows (sy_store s) w1 → ∀ q, sy_threads s !! i = Some q → finding Q w1 q) as Hold.
  { intros w1 Hn Hg q Hj. eapply finding_grows; [by apply HPQ|exact Hg|by apply Hf]. }
  assert ((∀ j r, e ≠ Verified j r) → verified Q i e) as Hquiet by (intros Hn r ->; by destruct (Hn i r)).
  destruct Hs as [h w threads j c Hq|h w threads j q o h' w' Hq Hx Hrun E|h w threads j tx h' w' Hq E|h w threads h' w' E];
    cbn [sy_store sy_threads] in *.
  - split; [|by apply Hquiet]. intros q1 [(<- & <- & _)|[Hji Hj]]%list_lookup_insert_Some; [by destruct c|].
    eapply Hold; [by intros c' [= ]|apply grows_same, same_files_refl|exact Hj].
  - assert (∀ c, event_of j q o ≠ Called i c) as Hn by (intros c; by destruct q, o).
    specialize (HPQ Hn). specialize (HQ Hn).
    pose proof (section_grows h w threads v j q Hi Hq Hrun Hroom Hsave) as Hg. rewrite E in Hg. simpl in Hg.
    specialize (Hg (Hne j) (Hu j q Hq)).
    assert (j = i → finding Q w' (next_section o) ∧ verified Q i (event_of i q o)) as Hself.
    { intros ->. pose proof (Hold w Hn (grows_same w w (same_files_refl w)) q Hq) as Hf0. destruct (checks q) eqn:Hc.
      - pose proof (checks_find Q h w threads v i q Hi Hq Hc Hf0 HQ) as [Hn1 Hr].
        rewrite E in Hn1, Hr. simpl in Hn1, Hr. split; [done|]. intros r Hin. apply Hr. destruct q, o; simplify_eq/=; done.
      - pose proof (others_find Q w' i q (h, w) Hc) as [Hn1 Hn2]. rewrite E in Hn1, Hn2. split; [done|].
        intros r Hin. by destruct (Hn2 i r). }
    split.
    + intros q1 [(<- & <- & _)|[_ Hj]]%list_lookup_insert_Some; [by apply Hself|by eapply Hold].
    + intros r Hr. destruct (decide (j = i)) as [->|Hji]; [by apply Hself|].
      exfalso. destruct q, o; simplify_eq/=; done.
  - split; [|by apply Hquiet].
    assert (w' = w) as ->.
    { revert E. unfold begin, mbind, M_bind, state, update, on_fst, get, modify. by destruct (hs_closed h); intros [= ]. }
    intros q1 Hj. by eapply Hold; [|apply grows_same, same_files_refl|exact Hj].
  - split; [|by apply Hquiet].
    assert (w' = w) as -> by (revert E; unfold close, update, on_fst, modify; by intros [= ]).
    intros q1 Hj. by eapply Hold; [|apply grows_same, same_files_refl|exact Hj].
Qed.

Lemma execution_nil_inv s s1 : execution s [] s1 → s1 = s.
Proof. remember [] as l eqn:El. intros He. destruct He as [|l' s1 e s2]; [done|]. by destruct l'. Qed.
(** From the call of the check on. *)
Section overlap.
Context (A0 : amap) (b0 : bool) (n0 : Z) (s0 : system W) (before : list event) (s1 : system W) (i : nat).
Let v0 : view := initial_view A0 b0 n0.
Context (Hi : inv config p0 room s0 v0) (Hidle : all_idle (sy_threads s0)) (Hbefore : execution s0 before s1).
Context (Hund : undisturbed s1) (Hstart : sy_threads s1 !! i = Some Idle).
Lemma overlap_find during s2 :
  execution s1 during s2 → admissible p0 room v0 (before ++ during) → (∀ j, Saved j ∉ during) →
  (∃ c rest, during = Called i c :: rest) →
  let now := reached v0 (before ++ during) i in
  undisturbed s2 ∧ found now i s2 ∧
  v_map (view_after v0 (before ++ during)) ∈ v_seen (view_after v0 (before ++ during)) i ∧
  ∀ events e, during = events ++ [e] → verified now i e.
Proof.
  intros He. induction He as [|events s2 e s3 He IH Hs]; intros Ha Hn Hc; [by destruct Hc as (? & ? & ?)|].
  rewrite app_assoc in *. pose proof (admissible_snoc _ _ _ _ _ Ha) as Ha1.
  assert (execution s0 (before ++ events) s2) as He2.
  { clear -Hbefore He. induction He as [|events s2 e s3 He IH Hs]; [by rewrite app_nil_r|]. rewrite app_assoc. by eapply execution_snoc. }
  destruct (execution_ok _ _ _ _ _ _ _ Hi He2 Ha1) as [_ Hi2]. pose proof Ha1 as (_ & Hroom & Hsave).
  assert (∀ j, Saved j ∉ events) as Hn1 by (intros j Hin; apply (Hn j), elem_of_app; by left).
  assert (∀ j, e ≠ Saved j) as Hne by (intros j ->; apply (Hn j), elem_of_app; right; by left).
  assert (undisturbed s2 ∧ ∃ P : amap → Prop, found P i s2 ∧ ((∀ c, e ≠ Called i c) →
    (∀ B, P B → reached v0 (before ++ events) i B) ∧
    v_map (view_after v0 (before ++ events)) ∈ v_seen (view_after v0 (before ++ events)) i)) as (Hu & P & Hf & HP).
  { destruct events as [|e1 events].
    - destruct Hc as (c & rest & [= -> _]). apply execution_nil_inv in He as ->. split; [done|]. exists (λ _, True).
      split; [|by intros Hn2; destruct (Hn2 c)]. intros q Hq. assert (q = Idle) as -> by congruence. done.
    - destruct IH as (Hu & Hf & Hv & _); [done|done|destruct Hc as (c & rest & [= -> _]); by do 2 eexists|].
      split; [done|]. by exists (reached v0 (before ++ e1 :: events) i). }
  destruct (step_find s2 P (reached v0 (before ++ events ++ [e]) i) _ e s3 i Hi2 Hs Hroom) as [Hf3 Hv3]; rewrite ?app_assoc.
  - apply Hsave, Hi2.
  - done.
  - intros Hn2 B HB. by apply reached_snoc, HP.
  - intros Hn2 A HA. destruct (HP Hn2) as [_ Hnow]. apply reached_snoc; [done|]. destruct HA as [->|(j & us & ls & Hj & ->)]; [by left|right].
    destruct (in_threads _ _ _ _ _ Hi2 _ _ Hj) as (tx & Hcall & _). do 4 eexists. split_and!; [exact Hnow|by eapply calls_recorded|done].
  - done.
  - done.
  - rewrite app_assoc in Hf3, Hv3. split_and!; [by eapply undisturbed_step|done| |].
    + rewrite view_after_snoc. assert ((∀ c, e ≠ Called i c) ∨ ∃ c, e = Called i c) as [Hn2|[c ->]].
      { destruct e as [j c| | | | | | | |]; try by left. destruct (decide (j = i)) as [->|]; [right; by eexists|left; congruence]. }
      * by apply now_observe, HP.
      * simpl. rewrite fn_lookup_insert. by left.
    + intros events' e' [_ <-]%app_inj_tail. done.
Qed.
End overlap.
Lemma execution_called s i c rest s1 : execution s (Called i c :: rest) s1 → sy_threads s !! i = Some Idle.
Proof.
  remember (Called i c :: rest) as events eqn:Ee. intros He. revert rest Ee.
  induction He as [|events s1 e s2 He IH Hs]; intros rest Ee; [done|].
  destruct events as [|e1 events]; [|injection Ee as -> _; by eapply IH].
  apply execution_nil_inv in He as ->. injection Ee as -> _. remember (Called i c) as e eqn:Ee.
  destruct Hs as [h w threads j c' Hq|h w threads j q o h' w' Hq Hx Hrun E| |]; try done; [by injection Ee as -> _|].
  by destruct q, o.
Qed.

End integrity.

(** One thread commits the root r while another checks the heap: the check has loaded the snapshot,
    there is none yet, before the commit, reads the size of the journal when the batch is in it but not
    published, and then, read by read, scans it while the commit goes on. *)
Definition checking_schedule : list action :=
  [DoCall 1 CallIntegrity; DoStep 1; DoCall 0 (CallCommit 1 sample_updates); DoStep 0; DoStep 0; DoStep 1; DoStep 0;
   DoStep 1; DoStep 1; DoStep 0; DoStep 1; DoStep 0] ++ steps 1 4 ++ [DoStep 0] ++ steps 1 2 ++ [DoStep 0; DoStep 1].
Definition checking_events : list event := (played checking_schedule sample_system).1.
Definition checking_final : system Disk.disk := (played checking_schedule sample_system).2.
Definition passed_report : integrity_report := IntegrityReport true 1 3 205 3 "ok".
Definition checking_during : list event :=
  [Stepped 1; Called 0 (CallCommit 1 sample_updates); Stepped 0; Stepped 0; Stepped 1; Stepped 0;
   Stepped 1; Stepped 1; Committed 0 sample_updates; Stepped 1; Stepped 0; Stepped 1; Stepped 1; Stepped 1; Stepped 1;
   Stepped 0; Stepped 1; Stepped 1; Ended 0 (Ok tt)].
Lemma checking_events_are : checking_events = [] ++ Called 1 CallIntegrity :: checking_during ++ [Verified 1 passed_report].
Proof. vm_compute. reflexivity. Qed.
Lemma checking_execution :
  execution sample_system ([] ++ Called 1 CallIntegrity :: checking_during ++ [Verified 1 passed_report]) checking_final.
Proof.
  rewrite <- checking_events_are. apply (play_execution checking_schedule). unfold checking_events, checking_final, played.
  destruct (play checking_schedule sample_system) as [[events s']|] eqn:E; [done|].
  exfalso. revert E. vm_compute. discriminate.
Qed.
Lemma checking_admissible :
  admissible ∅ 100 (opened_view opened_heap ∅) ([] ++ Called 1 CallIntegrity :: checking_during ++ [Verified 1 passed_report]).
Proof. apply one_commit_admissible; [|vm_compute; discriminate|done]. intros i c Hin. calls_in Hin. Qed.

(** A checkpoint does raise a false alarm: it empties the journal between two reads of an integrity
    check, which holds no lock, be it in the scan, after its three first sections, or between the scan
    and the check of a payload, after ten.  The report says that the heap is corrupt, while nothing is
    wrong, as the same check finds afterwards. *)
Definition breaking_schedule (k : nat) : list action :=
  [DoCall 0 (CallCommit 1 sample_updates)] ++ steps 0 7 ++ [DoCall 1 CallIntegrity] ++ steps 1 k ++
  [DoCall 0 CallCheckpoint] ++ steps 0 4 ++ steps 1 1.
Theorem checkpoint_breaks_overlapping_check k :
  k = 3%nat ∨ k = 10%nat →
  ∃ events s', execution sample_system events s' ∧ all_idle (sy_threads s') ∧
    Verified 1 (IntegrityReport false 0 0 0 0 "unexpected EOF while reading db/heap.wal") ∈ events ∧
    (integrity (sy_heap s', sy_store s')).1 = Ok (IntegrityReport true 1 0 0 3 "ok").
Proof.
  intros Hk. exists (played (breaking_schedule k) sample_system).1, (played (breaking_schedule k) sample_system).2. split_and!.
  - apply (play_execution (breaking_schedule k)). unfold played.
    destruct (play (breaking_schedule k) sample_system) as [[events s']|] eqn:E; [done|].
    exfalso. revert E. destruct Hk as [-> | ->]; vm_compute; discriminate.
  - assert (sy_threads (played (breaking_schedule k) sample_system).2 = [Idle; Idle]) as ->
      by (destruct Hk as [-> | ->]; vm_compute; reflexivity). by repeat constructor.
  - apply list_elem_of_In. destruct Hk as [-> | ->]; vm_compute; tauto.
  - destruct Hk as [-> | ->]; vm_compute; reflexivity.
Qed.
