(* ===== verification/TransactionTheorems.v ===== *)
(** * Properties of transactions and of the data they hand out. *)
From S2P Require Import Prelude.
From S2P Require Import Binary.
From S2P Require Import OrderedMap.
From S2P Require Import Value.
From S2P Require Import Observer.
From S2P Require Import ObserverSpec.
From S2P Require Import Codec.
From S2P Require Import Storage.
From S2P Require Import Journal.
From S2P Require Import Recovery.
From S2P Require Import Snapshot.
From S2P Require Import SnapshotImage.
From S2P Require Import Cache.
From S2P Require Import Heap.
From S2P Require Import HeapSpec.
From S2P Require Import Transaction.
From S2P Require Import TransactionSpec.
From S2P Require Import HeapTheorems.

(** ** Helper lemmas *)
(** An event for another object is lost. *)
Lemma deliver_other t events b :
  addressed (Some b) events → b_observer b ≠ tr_self t → foldl (λ t s, deliver s t) t events = t.
Proof.
  induction 1 as [|[o e] es E _ IH]; intros Hne; [done|]. simpl.
  injection E as ->. unfold deliver at 2. simpl in *.
  destruct (Z.eqb_spec o (tr_self t)); [done|]. by apply IH.
Qed.

(** ** Sample transactions *)
Definition sample_tx : transaction := Transaction 100 1 true [] ∅.
Definition loaded_tx : transaction := add_root "r" (LoadedRoot 1 (Some (stored (VInteger 7))) true) (VInteger 7) sample_tx.
Definition sample_edit : edit := e_key "list" (e_seq (e_push false (VInteger 3)) (e_at 0 (e_string "x"))).
Lemma loaded_tx_ok : tx_ok loaded_tx.
Proof. apply add_root_ok; [apply new_transaction_ok|done]. Qed.
(** A transaction that has written a new root. *)
Definition written_tx : transaction :=
  mutate 1 (run_edit (e_integer 7)) (add_root "r" (LoadedRoot 0 None false) VNull sample_tx).
Lemma written_tx_ok : tx_ok written_tx.
Proof.
  apply (mutate_ok _ 0 (WorkingRoot "r" 0 true (node_bind (Some (Bound 100 1)) (fresh VNull))));
    [apply add_root_ok; [apply new_transaction_ok|done]|done|done|apply run_edit_observed].
Qed.
Lemma written_tx_updates : updates_of written_tx = sample_updates.
Proof. vm_compute. reflexivity. Qed.

(** ** Data *)

(** Editing data through a reference does what it says, tells the observer, and keeps
    watching.  Any edit of a tree that is bound to an observer, at any depth (assignment, string,
    array and object operations, nested access, sequences), gives the content its specification
    gives, keeps every node bound, sends its events to that observer and root only, and sends at
    least one if the content changed. *)
Theorem edits_observed e b n :
  bound_to node_bind (Some b) n →
  content (run_edit e n).1 = apply_edit e (content n) ∧
  bound_to node_bind (Some b) (run_edit e n).1 ∧
  Forall (λ s, s.1 = b_observer b ∧ ev_root s.2 = b_root b) (run_edit e n).2 ∧
  (apply_edit e (content n) ≠ content n → (run_edit e n).2 ≠ []).
Proof.
  intros Hb. pose proof (run_edit_refines e _ _ Hb) as Hc.
  destruct (run_edit_observed e _ _ Hb) as (H1 & H2 & H3). split_and!; [done|done| |].
  - eapply Forall_impl; [exact H2|]. simpl. intros s [= ->]. done.
  - intros Hne E. apply Hne. rewrite <- Hc. by apply H3.
Qed.
Lemma edits_observed_witness :
  let n := node_bind (Some (Bound 9 1)) (fresh VNull) in
  content (run_edit sample_edit n).1 = VObject [("list", VArray [VString "x"])] ∧ (run_edit sample_edit n).2 ≠ [].
Proof.
  destruct (edits_observed sample_edit (Bound 9 1) (node_bind (Some (Bound 9 1)) (fresh VNull))) as (H1 & _ & _ & H2);
    [reflexivity|]. split; [exact H1|]. apply H2. vm_compute. discriminate.
Defined.

(** ** Transactions *)

(** C23: A transaction tracks every change.  After an edit through the reference to a root, what is
    read through that reference is the edited content, every other root reads as before, the
    transaction stays well-formed, and the root is among those that will be committed if its
    content changed or if it was before. *)
Theorem edits_tracked t i r e :
  tx_ok t → tr_active t = true → tr_roots t !! i = Some r →
  let t' := mutate (Z.of_nat i + 1) (run_edit e) t in
  tx_ok t' ∧
  data_of (Z.of_nat i + 1) t' = Some (apply_edit e (content (wr_data r))) ∧
  (∀ j, j ≠ i → tr_roots t' !! j = tr_roots t !! j) ∧
  (wr_dirty r = true ∨ apply_edit e (content (wr_data r)) ≠ content (wr_data r) →
   RootUpdate (wr_name r) (wr_expected r) (u64 (wr_expected r + 1)) value_type_name
     (value_encode (apply_edit e (content (wr_data r)))) ∈ updates_of t').
Proof.
  intros Ht Ha Hi t'. pose proof (edit_root_spec t i r e Ht Ha Hi) as (r' & E & Hc & Hn & He & Hd1 & Hd2).
  pose proof (lookup_lt_Some _ _ _ Hi) as Hlt. split_and!.
  - apply (mutate_ok t i r); [done..|apply run_edit_observed].
  - unfold t'. rewrite data_of_token, E. simpl. rewrite list_lookup_insert_eq by done. simpl. by rewrite Hc.
  - intros j Hj. unfold t'. rewrite E. simpl. by rewrite list_lookup_insert_ne.
  - intros Hdirty. unfold t'. rewrite E. apply elem_updates_of. exists r'. split_and!.
    + simpl. eapply list_elem_of_lookup_2, list_lookup_insert_eq, Hlt.
    + destruct Hdirty; [by apply Hd1|]. destruct (wr_dirty r') eqn:Er; [done|]. by rewrite Hd2 in *.
    + unfold update_of. by rewrite Hn, He, Hc.
Qed.
Lemma edits_tracked_witness :
  data_of 1 (mutate 1 (run_edit (e_integer 8)) loaded_tx) = Some (VInteger 8) ∧
  RootUpdate "r" 1 2 value_type_name (value_encode (VInteger 8)) ∈ updates_of (mutate 1 (run_edit (e_integer 8)) loaded_tx).
Proof.
  destruct (edits_tracked loaded_tx 0 (WorkingRoot "r" 1 false (node_bind (Some (Bound 100 1)) (fresh (VInteger 7))))
    (e_integer 8)) as (_ & H1 & _ & H2); [exact loaded_tx_ok|reflexivity|reflexivity|].
  split; [exact H1|]. apply H2. right. vm_compute. discriminate.
Defined.

(** A transaction that is moved loses track of its roots.  Their data still name the address
    the transaction had when it loaded them, so an edit after the move changes the data and
    nothing else: what [commit] will write is what it would have written before, except for roots
    that were dirty already. *)
Theorem moved_transaction_forgets t i r e self :
  tx_ok t → tr_roots t !! i = Some r → self ≠ tr_self t → wr_dirty r = false →
  let t' := mutate (Z.of_nat i + 1) (run_edit e) (moved_to self t) in
  data_of (Z.of_nat i + 1) t' = Some (apply_edit e (content (wr_data r))) ∧
  updates_of t' = updates_of t.
Proof.
  intros Ht Hi Hself Hd t'. pose proof (lookup_lt_Some _ _ _ Hi) as Hlt.
  pose proof (tk_bound _ Ht i r Hi) as Hb. pose proof (run_edit_refines e _ _ Hb) as Hc.
  destruct (run_edit_observed e _ _ Hb) as (_ & Hadr & _).
  assert (t' = set_working (<[i := set_data (run_edit e (wr_data r)).1 r]> (tr_roots t)) (moved_to self t)) as E.
  { unfold t', mutate. rewrite token_index. simpl. rewrite Hi.
    destruct (run_edit e (wr_data r)) as [n events]. simpl in *.
    by apply (deliver_other _ _ (Bound (tr_self t) (Z.of_nat i + 1))). }
  rewrite E. split.
  - rewrite data_of_token. simpl. rewrite list_lookup_insert_eq by done. simpl. by rewrite Hc.
  - unfold updates_of. simpl. clear -Hi Hd. revert i Hi. induction (tr_roots t) as [|r0 l IH]; intros i Hi; [done|].
    destruct i as [|i]; simpl in *.
    + injection Hi as ->. rewrite !filter_cons. simpl. rewrite Hd. by rewrite !decide_False by done.
    + rewrite !filter_cons. case_decide; [rewrite !fmap_cons; f_equal|]; by apply IH.
Qed.
Lemma moved_transaction_forgets_witness :
  data_of 1 (mutate 1 (run_edit (e_integer 8)) (moved_to 101 loaded_tx)) = Some (VInteger 8) ∧
  updates_of (mutate 1 (run_edit (e_integer 8)) (moved_to 101 loaded_tx)) = [].
Proof.
  apply (moved_transaction_forgets loaded_tx 0 (WorkingRoot "r" 1 false (node_bind (Some (Bound 100 1)) (fresh (VInteger 7))))
    (e_integer 8) 101); [exact loaded_tx_ok|reflexivity|discriminate|reflexivity].
Defined.

Section transaction_theorems.
Context {W : Type} `{HW : storage_reliable W} (config : heap_config).
Implicit Types (t : transaction) (h : heap_state) (w : W) (A : amap).

(** A root that was just loaded. *)
Lemma data_of_added name loaded v t :
  data_of (size (tr_roots t) + 1) (add_root name loaded v t) = Some v.
Proof.
  unfold size. rewrite data_of_token. simpl. rewrite lookup_app_r by done. rewrite Nat.sub_diag. simpl.
  by rewrite content_bind, content_fresh.
Qed.
Lemma updates_of_added name loaded v t :
  ld_exists loaded = true → updates_of (add_root name loaded v t) = updates_of t.
Proof.
  intros He. unfold updates_of, add_root. simpl. rewrite He, filter_app. simpl.
  rewrite filter_cons. simpl. by rewrite app_nil_r.
Qed.
Lemma root_reads_value h w A p t name v :
  heap_inv config h w A p → tx_ok t → tr_active t = true → name ≠ "" → name ∉ wr_name <$> tr_roots t →
  root_value A name = Ok v → reliable w →
  ∃ t' c w', root name (t, (h, w)) = (Ok (size (tr_roots t) + 1), (t', (set_cache c h, w'))) ∧
    heap_inv config (set_cache c h) w' A p ∧ reliable w' ∧ tx_ok t' ∧ tr_active t' = true ∧
    data_of (size (tr_roots t) + 1) t' = Some v ∧
    (is_Some (A !! name) → updates_of t' = updates_of t) ∧
    (∀ s, root (W:=W) name (t', s) = (Ok (size (tr_roots t) + 1), (t', s))).
Proof.
  intros Hinv Ht Ha Hname Hn Hv Hrel.
  destruct (root_new config t h w A p name Hinv Ht Ha Hname Hn)
    as (r & t' & c & w' & E & Hinv' & _ & Ht' & Hr & Hok).
  destruct (Hok Hrel) as [Hrel' Hisok]. destruct Hisok as [tok ->]; [by exists v|].
  destruct Hr as (v' & loaded & Ev & El & -> & ->). assert (v' = v) as -> by congruence.
  do 3 eexists. split; [exact E|]. split_and!; [done|done|done|done|apply data_of_added| |].
  - intros [a Haa]. apply updates_of_added. revert El. unfold load_result. rewrite Haa.
    case_match; [done|]. by intros [= <-].
  - intros s.
    pose proof (list_lookup_middle (tr_roots t) [] (WorkingRoot name (ld_version loaded) (negb (ld_exists loaded))
      (node_bind (Some (Bound (tr_self t) (size (tr_roots t) + 1))) (fresh v))) (length (tr_roots t)) eq_refl) as Hl.
    by apply (root_again _ s name (length (tr_roots t)) _ Ht' Ha Hname Hl).
Qed.

(** A transaction reads what is committed.  Asking for a root it does not have yet gives a
    reference to the value the open heap's map holds under that name, or to null when there is
    none; a root that exists is not dirty by being read; asking again gives the same reference
    without going back to the heap. *)
Theorem root_reads_committed h w A p t name v :
  heap_inv config h w A p → tx_ok t → tr_active t = true → name ≠ "" → name ∉ wr_name <$> tr_roots t →
  (A !! name = None ∧ v = VNull ∨
   wf_value v ∧ ∃ ver, A !! name = Some (ARoot ver value_type_name (value_encode v))) → reliable w →
  ∃ t' c w', root name (t, (h, w)) = (Ok (size (tr_roots t) + 1), (t', (set_cache c h, w'))) ∧
    heap_inv config (set_cache c h) w' A p ∧ tx_ok t' ∧
    data_of (size (tr_roots t) + 1) t' = Some v ∧
    (is_Some (A !! name) → updates_of t' = updates_of t) ∧
    (∀ s, root (W:=W) name (t', s) = (Ok (size (tr_roots t) + 1), (t', s))).
Proof.
  intros Hinv Ht Ha Hname Hn Hv Hrel.
  assert (root_value A name = Ok v) as E.
  { destruct Hv as [[? ->]|[? [ver ?]]]; [by apply root_value_absent|by eapply root_value_stored]. }
  destruct (root_reads_value h w A p t name v Hinv Ht Ha Hname Hn E Hrel)
    as (t' & c & w' & ? & ? & _ & ? & _ & ? & ? & ?). by exists t', c, w'.
Qed.

Lemma commit_publishes h w A p t :
  heap_inv config h w A p → tx_ok t → tr_active t = true → encodable t → current t A →
  is_u64 (tr_id t) → p !! tr_id t = None → hs_wal_sequence h + size (tr_roots t) + 2 < u64_bound →
  saveable (a_commit (updates_of t) A) → hs_closed h = false → hs_poisoned h = false → reliable w →
  ∃ t' h' w' p', transaction_commit (t, (h, w)) = (Ok tt, (t', (h', w'))) ∧
    t' = set_active false t ∧ heap_inv config h' w' (a_commit (updates_of t) A) p' ∧ reliable w' ∧ (p' = p ∨ p' = ∅).
Proof.
  intros Hinv Ht Ha He Hc Hid Hp Hq Hs Hcl Hpo Hrel.
  unfold transaction_commit, mbind, M_bind, on_fst, on_snd, get, modify. rewrite Ha. cbn [negb].
  destruct (decide (updates_of t = [])) as [E|E].
  - rewrite E. unfold commit. rewrite bool_decide_true by done. simpl. exists (set_active false t), h, w, p. split_and!; try done. by left.
  - destruct (commit_spec config h w A p (tr_id t) (updates_of t)) as (r & h' & w' & E' & Hout & Hok);
      [done|done|done|done|by apply updates_of_valid|done|].
    destruct (Hok Hrel Hcl Hpo (current_versions_match t A Hc)) as [-> Hrel'].
    rewrite E'. inversion Hout as [| | |? ? p' _ Hinv' Hp'| |]; subst.
    by exists (set_active false t), h', w', p'.
Qed.

(** Committing a transaction publishes exactly its dirty roots.  When no other transaction
    has committed a root it changed, and storage is reliable, [commit] returns, the transaction
    is no longer active, and the heap represents the map in which every dirty root holds the
    encoding of its current content under the next version, and every other name holds what it
    held before. *)
Theorem commit_publishes_dirty h w A p t :
  heap_inv config h w A p → tx_ok t → tr_active t = true → encodable t → current t A →
  is_u64 (tr_id t) → p !! tr_id t = None → hs_wal_sequence h + size (tr_roots t) + 2 < u64_bound →
  saveable (a_commit (updates_of t) A) → hs_closed h = false → hs_poisoned h = false → reliable w →
  ∃ t' h' w' A' p', transaction_commit (t, (h, w)) = (Ok tt, (t', (h', w'))) ∧
    tr_active t' = false ∧ heap_inv config h' w' A' p' ∧
    (∀ r, r ∈ tr_roots t → wr_dirty r = true →
       A' !! wr_name r = Some (ARoot (wr_expected r + 1) value_type_name (value_encode (content (wr_data r))))) ∧
    (∀ n, (∀ r, r ∈ tr_roots t → wr_dirty r = true → wr_name r ≠ n) → A' !! n = A !! n).
Proof.
  intros Hinv Ht Ha He Hc Hid Hp Hq Hs Hcl Hpo Hrel.
  destruct (commit_publishes h w A p t) as (t' & h' & w' & p' & E & -> & Hinv' & _); [done..|].
  exists (set_active false t), h', w', (a_commit (updates_of t) A), p'.
  split_and!; [done|done|done| |].
  - intros r Hr Hd. by apply committed_root.
  - intros n Hn. by apply committed_other.
Qed.

(** C14: What one transaction commits, a later one reads.  On an open heap and reliable storage, take an
    active transaction whose id no unfinished record of the journal has, whose changes can be encoded,
    and whose changed roots nobody else has committed since it loaded them.  After its [commit], a new
    transaction on the same heap that asks for a root it changed gets a reference to exactly the
    content the first one had written. *)
Theorem committed_content_read_back h w A p t r self id :
  heap_inv config h w A p → tx_ok t → tr_active t = true → encodable t → current t A →
  is_u64 (tr_id t) → p !! tr_id t = None → hs_wal_sequence h + size (tr_roots t) + 2 < u64_bound →
  saveable (a_commit (updates_of t) A) → hs_closed h = false → hs_poisoned h = false → reliable w →
  r ∈ tr_roots t → wr_dirty r = true → wr_name r ≠ "" → wf_value (content (wr_data r)) →
  ∃ t' h' w', transaction_commit (t, (h, w)) = (Ok tt, (t', (h', w'))) ∧
  ∃ t2 h2 w2, root (wr_name r) (Transaction self id true [] ∅, (h', w')) = (Ok 1, (t2, (h2, w2))) ∧
    data_of 1 t2 = Some (content (wr_data r)).
Proof.
  intros Hinv Ht Ha He Hc Hid Hp Hq Hs Hcl Hpo Hrel Hr Hd Hname Hwf.
  destruct (commit_publishes h w A p t) as (t' & h' & w' & p' & E & -> & Hinv' & Hrel' & _); [done..|].
  do 3 eexists. split; [exact E|].
  destruct (root_reads_value h' w' _ p' (Transaction self id true [] ∅) (wr_name r) (content (wr_data r)) Hinv')
    as (t2 & c & w2 & E2 & _ & _ & _ & _ & Hdata & _);
    [apply new_transaction_ok|done|done|apply not_elem_of_nil| |done|].
  - eapply root_value_stored; [by apply committed_root|done].
  - by exists t2, (set_cache c h'), w2.
Qed.
End transaction_theorems.

(** ** The properties at work *)
Lemma root_reads_committed_witness :
  ∃ t' c w', root "r" (sample_tx, committed) = (Ok 1, (t', (set_cache c committed.1, w'))) ∧
    heap_inv sample_config (set_cache c committed.1) w' sample_map ∅ ∧ tx_ok t' ∧
    data_of 1 t' = Some (VInteger 7) ∧ (is_Some (sample_map !! "r") → updates_of t' = updates_of sample_tx) ∧
    (∀ s, root (W:=Disk.disk) "r" (t', s) = (Ok 1, (t', s))).
Proof.
  apply (root_reads_committed sample_config committed.1 committed.2 sample_map ∅ sample_tx "r" (VInteger 7));
    [exact sample_committed_inv|apply new_transaction_ok|reflexivity|discriminate|apply not_elem_of_nil
    |right; split; [constructor; split; [discriminate|reflexivity]|exists 1; vm_compute; reflexivity]|vm_compute; reflexivity].
Defined.
Lemma written_tx_encodable : encodable written_tx.
Proof.
  constructor; [|constructor]. intros _. split; [done|].
  match goal with |- size (e_bytes (encode_update ?u)) + _ ≤ _ => destruct (size_encode_update u) as [-> ->] end.
  by apply Z.leb_le.
Qed.
Lemma written_tx_current : current written_tx ∅.
Proof. constructor; [|constructor]. by intros _. Qed.
Lemma commit_publishes_dirty_witness :
  ∃ t' h' w' A' p', transaction_commit (written_tx, (opened_heap, opened_disk)) = (Ok tt, (t', (h', w'))) ∧
    tr_active t' = false ∧ heap_inv sample_config h' w' A' p' ∧
    (∀ r, r ∈ tr_roots written_tx → wr_dirty r = true →
       A' !! wr_name r = Some (ARoot (wr_expected r + 1) value_type_name (value_encode (content (wr_data r))))) ∧
    (∀ n, (∀ r, r ∈ tr_roots written_tx → wr_dirty r = true → wr_name r ≠ n) → A' !! n = (∅ : amap) !! n).
Proof.
  apply (commit_publishes_dirty sample_config opened_heap opened_disk ∅ ∅ written_tx);
    [exact sample_inv|exact written_tx_ok|reflexivity|exact written_tx_encodable|exact written_tx_current
    |split; [discriminate|reflexivity]|reflexivity|reflexivity
    |rewrite written_tx_updates; exact sample_map_saveable|reflexivity|reflexivity|reflexivity].
Defined.
Lemma committed_content_read_back_witness :
  ∃ t' h' w', transaction_commit (written_tx, (opened_heap, opened_disk)) = (Ok tt, (t', (h', w'))) ∧
  ∃ t2 h2 w2, root "r" (Transaction 101 2 true [] ∅, (h', w')) = (Ok 1, (t2, (h2, w2))) ∧
    data_of 1 t2 = Some (VInteger 7).
Proof.
  apply (committed_content_read_back sample_config opened_heap opened_disk ∅ ∅ written_tx
    (WorkingRoot "r" 0 true (node_bind (Some (Bound 100 1)) (fresh (VInteger 7)))) 101 2);
    [exact sample_inv|exact written_tx_ok|reflexivity|exact written_tx_encodable|exact written_tx_current
    |split; [discriminate|reflexivity]|reflexivity|reflexivity
    |rewrite written_tx_updates; exact sample_map_saveable|reflexivity|reflexivity|reflexivity
    |by left|reflexivity|discriminate|constructor; split; [discriminate|reflexivity]].
Defined.
