(* ===== verification/SqlSpec.v ===== *)
(** * What statements do to the transaction they run in and to the heap.

    Up to the commit, a statement is [quiet] (file Quiet): it changes its own transaction and the cache of the
    heap, and nothing else.  What it does to the rows of a table is what a function on the plain
    rows does. *)
From stdpp Require Import pretty.
From S2P Require Import Prelude.
From S2P Require Import Binary.
From S2P Require Import OrderedMap.
From S2P Require Import Value.
From S2P Require Import Observer.
From S2P Require Import ObserverSpec.
From S2P Require Import Codec.
From S2P Require Import Storage.
From S2P Require Import Journal.
From S2P Require Import Recovery.
From S2P Require Import Snapshot.
From S2P Require Import SnapshotImage.
From S2P Require Import Cache.
From S2P Require Import Heap.
From S2P Require Import HeapSpec.
From S2P Require Import Transaction.
From S2P Require Import TransactionSpec.
From S2P Require Import Quiet.
From S2P Require Import Double.
From S2P Require Import Chars.
From S2P Require Import SqlSyntax.
From S2P Require Import SqlParser.
From S2P Require Import SqlInterpreter.
#[local] Open Scope Z_scope.

(** ** Quiet scripts *)
Section scripts.
Context {W : Type} `{HW : storage_reliable W} (config : heap_config).
Lemma quiet_write token e : quiet (W:=W) config (write token e).
Proof. apply quiet_mutate, run_edit_observed. Qed.
Lemma quiet_read token : quiet (W:=W) config (read token).
Proof.
  intros t h w A p ? ? ?. unfold read, mbind, M_bind, on_fst, get.
  destruct (data_of token t); unchanged.
Qed.
End scripts.
#[export] Hint Resolve quiet_write quiet_read : quiet.

(** ** Statements *)
Section statements.
Context {W : Type} `{HW : storage_reliable W} (config : heap_config).
Implicit Types (t : transaction) (h : heap_state) (w : W) (A : amap).

Lemma quiet_object_root name : quiet (W:=W) config (object_root name).
Proof. unfold object_root. auto with quiet. apply quiet_bind; [auto with quiet|]. intros token.
  apply quiet_bind; [|auto with quiet]. apply quiet_mutate. apply (run_edit_observed e_as_object). Qed.
Hint Resolve quiet_object_root : quiet.
Lemma quiet_read_object token : quiet (W:=W) config (read_object token).
Proof. unfold read_object. auto with quiet. Qed.
Lemma quiet_read_array token : quiet (W:=W) config (read_array token).
Proof. unfold read_array. auto with quiet. Qed.
Hint Resolve quiet_read_object quiet_read_array : quiet.
Lemma quiet_load_column catalog table i column : quiet (W:=W) config (load_column catalog table i column).
Proof. unfold load_column. auto 20 with quiet. Qed.
Hint Resolve quiet_load_column : quiet.
Lemma quiet_load_definitions catalog table i l : quiet (W:=W) config (load_definitions catalog table i l).
Proof. revert i. induction l; intros i; simpl; auto 10 with quiet. Qed.
Hint Resolve quiet_load_definitions : quiet.
Lemma quiet_load_columns table : quiet (W:=W) config (load_columns table).
Proof.
  unfold load_columns. do 2 (apply quiet_bind; [auto with quiet|intros ?]).
  case_match; auto 10 with quiet.
Qed.
Lemma quiet_open_table table : quiet (W:=W) config (open_table table).
Proof. unfold open_table. auto 10 with quiet. Qed.
Hint Resolve quiet_load_columns quiet_open_table : quiet.
Lemma quiet_push_definitions catalog table l : quiet (W:=W) config (push_definitions catalog table l).
Proof. induction l; simpl; auto 10 with quiet. Qed.
Lemma quiet_insert_rows token columns targets rows n :
  quiet (W:=W) config (insert_rows token columns targets rows n).
Proof. revert n. induction rows; intros n; simpl; auto 10 with quiet. Qed.
Lemma quiet_select_rows token where_ rows i : quiet (W:=W) config (select_rows token where_ rows i).
Proof. revert i. induction rows; intros i; simpl; auto 10 with quiet. Qed.
Lemma quiet_assign_fields token i types l : quiet (W:=W) config (assign_fields token i types l).
Proof. induction l as [|[]]; simpl; auto 10 with quiet. Qed.
Hint Resolve quiet_push_definitions quiet_insert_rows quiet_select_rows quiet_assign_fields : quiet.
Lemma quiet_update_rows token types stmt rows i n : quiet (W:=W) config (update_rows token types stmt rows i n).
Proof. revert i n. induction rows; intros i n; simpl; auto 10 with quiet. Qed.
Lemma quiet_delete_rows token where_ rows i n : quiet (W:=W) config (delete_rows token where_ rows i n).
Proof. revert i n. induction rows; intros i n; simpl; auto 10 with quiet. Qed.
Hint Resolve quiet_update_rows quiet_delete_rows : quiet.
Lemma quiet_select stmt : quiet (W:=W) config (execute_select stmt).
Proof.
  unfold execute_select. apply quiet_bind; [auto with quiet|intros columns].
  apply quiet_bind; [case_match; auto with quiet|intros projection]. auto 20 with quiet.
Qed.

(** A script that is quiet up to its commit, which is the last thing it does. *)
Definition commits_last {X} (m : session (W:=W) X) : Prop := ∀ t h w A p,
  heap_inv config h w A p → tx_ok t → tr_active t = true →
  ∃ t' h' w', before_commit config A p t h w t' h' w' ∧
    ((∃ e, m (t, (h, w)) = (Throw e, (t', (h', w')))) ∨
     ∃ x, m (t, (h, w)) = (_ ← transaction_commit; mret x) (t', (h', w'))).
Lemma commits_last_bind {X Y} (m : session (W:=W) X) (f : X → session (W:=W) Y) :
  quiet config m → (∀ x, commits_last (f x)) → commits_last (m ≫= f).
Proof.
  intros Hm Hf t h w A p Hi Ht Ha. destruct (Hm t h w A p Hi Ht Ha) as (r & t1 & h1 & w1 & E & Hb).
  destruct r as [x|e].
  2:{ exists t1, h1, w1. split; [done|]. left. exists e. by rewrite (bind_throw _ _ _ _ _ E). }
  rewrite (bind_ok _ _ _ _ _ E). pose proof Hb as [B1 B2 B3 _ _ _].
  destruct (Hf x t1 h1 w1 A p B1 B2 B3) as (t2 & h2 & w2 & Hb2 & Hcase).
  exists t2, h2, w2. split; [by eapply before_commit_trans|done].
Qed.
Lemma commits_last_commit {X} (x : X) : commits_last (_ ← transaction_commit; mret x).
Proof. intros t h w A p ? ? ?. exists t, h, w. split; [by apply before_commit_refl|]. right. by exists x. Qed.
Lemma commits_last_throw {X} e : commits_last (X:=X) (throw e).
Proof. intros t h w A p ? ? ?. exists t, h, w. split; [by apply before_commit_refl|]. left. by exists e. Qed.
Hint Resolve commits_last_commit commits_last_throw : quiet.
Hint Extern 1 (commits_last (_ ≫= _)) => apply commits_last_bind; [|intros ?] : quiet.

Definition is_select (stmt : statement) : Prop := match stmt with SSelect _ => True | _ => False end.
Lemma commits_last_statement stmt : ¬ is_select stmt → commits_last (execute_statement stmt).
Proof.
  destruct stmt as [s|s|s|s|s]; simpl; [| |done| |]; intros _.
  - unfold execute_create. do 2 (apply commits_last_bind; [auto with quiet|intros ?]).
    case_match; auto 10 with quiet.
  - unfold execute_insert. auto 10 with quiet.
  - unfold execute_update. auto 10 with quiet.
  - unfold execute_delete. auto 10 with quiet.
Qed.

Lemma in_quiet_transaction {X} self (m : session (W:=W) X) h w A p :
  heap_inv config h w A p → quiet config m →
  ∃ r h' w', in_transaction self m (h, w) = (r, (h', w')) ∧ heap_inv config h' w' A p ∧ same_files w w'.
Proof.
  intros Hi Hm. unfold in_transaction. destruct (begin_spec config self h w A p Hi) as [[_ E]|(h1 & E & Hi1)].
  { rewrite (bind_throw _ _ _ _ _ E). do 3 eexists. split; [done|]. split; [done|apply same_files_refl]. }
  m_run E. destruct (Hm _ h1 w A p Hi1 (new_transaction_ok self (hs_next_transaction h)) eq_refl) as (r & t2 & h2 & w2 & E2 & Hb).
  unfold with_local. rewrite E2. exists r, h2, w2. split; [done|]. by destruct Hb.
Qed.
End statements.

(** ** Rows, through a reference *)
Section rows.
Context {W : Type} `{HW : storage W}.
Implicit Types (t : transaction) (s : heap_state * W).

(** The root behind token [i + 1] has the content [v]. *)
Definition holds t (i : nat) (v : value) : Prop :=
  tx_ok t ∧ tr_active t = true ∧ ∃ r, tr_roots t !! i = Some r ∧ content (wr_data r) = v.
(** From [t] to [t'] only that root was written, and it is dirty if its content changed. *)
Record edited (i : nat) t t' : Prop := {
  ed_others j : j ≠ i → tr_roots t' !! j = tr_roots t !! j;
  ed_root r : tr_roots t !! i = Some r → ∃ r', tr_roots t' !! i = Some r' ∧
    wr_name r' = wr_name r ∧ wr_expected r' = wr_expected r ∧
    (wr_dirty r = true → wr_dirty r' = true) ∧
    (wr_dirty r' = true ∨ content (wr_data r') = content (wr_data r));
  ed_id : tr_id t' = tr_id t
}.
Lemma edited_refl i t : edited i t t.
Proof. split; [done| |done]. intros r Hr. exists r. split_and!; auto. Qed.
Lemma edited_trans i t t1 t2 : edited i t t1 → edited i t1 t2 → edited i t t2.
Proof.
  intros [O1 R1 I1] [O2 R2 I2]. split; [intros j Hj; by rewrite O2, O1| |congruence].
  intros r Hr. destruct (R1 r Hr) as (r1 & H1 & N1 & E1 & D1 & C1).
  destruct (R2 r1 H1) as (r2 & H2 & N2 & E2 & D2 & C2). exists r2. split_and!; [done|congruence|congruence|auto|].
  destruct C2 as [|C2]; [by left|]. destruct C1 as [?%D2|C1]; [by left|right; congruence].
Qed.
Lemma write_spec t i v e s :
  holds t i v → ∃ t', write (Z.of_nat i + 1) e (t, s) = (Ok tt, (t', s)) ∧
    holds t' i (apply_edit e v) ∧ edited i t t'.
Proof.
  intros (Ht & Ha & r & Hr & Hc).
  destruct (edit_root_spec t i r e Ht Ha Hr) as (r' & E & Hc' & Hn & He & Hd & _).
  pose proof (mutate_spec t i r (run_edit e) Ht Ha Hr (run_edit_observed e)) as E2.
  pose proof (lookup_lt_Some _ _ _ Hr) as Hlt.
  exists (mutate (Z.of_nat i + 1) (run_edit e) t). split; [done|]. split.
  - split_and!; [apply (mutate_ok t i r); try done; apply run_edit_observed|by rewrite E|].
    exists r'. rewrite E, <- Hc, <- Hc'. split; [by apply list_lookup_insert_eq|done].
  - split; [intros j Hj; rewrite E; by apply list_lookup_insert_ne| |by rewrite E].
    intros r0 Hr0. assert (r0 = r) as -> by congruence. exists r'.
    rewrite E. split_and!; [by apply list_lookup_insert_eq|done|done|done|].
    rewrite E in E2. apply (f_equal (λ t, tr_roots t !! i)) in E2. simpl in E2.
    rewrite !list_lookup_insert_eq in E2 by done. injection E2 as ->. simpl.
    destruct (wr_dirty r); [by left|]. simpl.
    destruct (run_edit_observed e _ _ (tk_bound _ Ht i r Hr)) as (_ & _ & Hs).
    case_bool_decide as Hev; [right; by apply Hs|by left].
Qed.

(** On a transaction whose root [i] holds what [o] was computed from, [m] gives what [o] gives
    and leaves the content [o] says. *)
Definition runs {X} (i : nat) t s (m : session (W:=W) X) (o : result (X * value)) : Prop :=
  match o with
  | Ok (x, v) => ∃ t', m (t, s) = (Ok x, (t', s)) ∧ holds t' i v ∧ edited i t t'
  | Throw e => ∃ t', m (t, s) = (Throw e, (t', s))
  end.
Lemma runs_ret {X} i t s v (x : X) : holds t i v → runs i t s (mret x) (Ok (x, v)).
Proof. intros Ht. exists t. split_and!; [done|done|apply edited_refl]. Qed.
Lemma runs_write i t s v e : holds t i v → runs i t s (write (Z.of_nat i + 1) e) (Ok (tt, apply_edit e v)).
Proof. intros Ht. by apply write_spec. Qed.
Lemma runs_result {X} i t s v (r : result X) : holds t i v → runs i t s (lift_result r) (x ← r; Ok (x, v)).
Proof. intros Ht. destruct r as [x|e]; [by apply (runs_ret i t s v)|by exists t]. Qed.
Lemma runs_bind {X Y} i t s (m : session (W:=W) X) (f : X → session (W:=W) Y) o o2 :
  runs i t s m o → (∀ x v t', o = Ok (x, v) → holds t' i v → runs i t' s (f x) (o2 x v)) →
  runs i t s (m ≫= f) (r ← o; o2 r.1 r.2).
Proof.
  intros Hm Hf. destruct o as [[x v]|e]; simpl in *.
  - destruct Hm as (t1 & E & Hh & He). specialize (Hf x v t1 eq_refl Hh).
    destruct (o2 x v) as [[y v2]|e2]; simpl in *.
    + destruct Hf as (t2 & E2 & Hh2 & He2). exists t2. split_and!; [by m_run E|done|by eapply edited_trans].
    + destruct Hf as (t2 & E2). exists t2. by m_run E.
  - destruct Hm as (t1 & E). exists t1. by rewrite (bind_throw _ _ _ _ _ E).
Qed.
Lemma runs_write_bind {X} i t s v e (f : () → session (W:=W) X) o :
  holds t i v → (∀ t', holds t' i (apply_edit e v) → runs i t' s (f ()) o) →
  runs i t s (write (Z.of_nat i + 1) e ≫= f) o.
Proof.
  intros Ht Hf. apply (runs_bind i t s _ f (Ok (tt, apply_edit e v)) (λ _ _, o)); [by apply runs_write|].
  intros [] v' t' [= <-]. apply Hf.
Qed.
Lemma runs_result_bind {X Y} i t s v (r : result X) (f : X → session (W:=W) Y) o :
  holds t i v → (∀ x, r = Ok x → runs i t s (f x) (o x)) → runs i t s (lift_result r ≫= f) (x ← r; o x).
Proof.
  intros Ht Hf. destruct r as [x|e]; [|by exists t]. specialize (Hf x eq_refl).
  unfold runs in *. simpl. by destruct (o x) as [[]|].
Qed.
Lemma runs_inv {X} i t s (m : session (W:=W) X) o x t' s' :
  runs i t s m o → m (t, s) = (Ok x, (t', s')) → ∃ v, o = Ok (x, v) ∧ holds t' i v.
Proof.
  intros H E. destruct o as [[y v]|e].
  - destruct H as (t1 & E1 & Hh & _). rewrite E in E1. simplify_eq. by exists v.
  - destruct H as (t1 & E1). rewrite E in E1. by simplify_eq.
Qed.
Lemma runs_eq {X} i t s (m : session (W:=W) X) o o' : o = o' → runs i t s m o → runs i t s m o'.
Proof. by intros ->. Qed.
End rows.

(** ** Rows, as plain data *)
Definition as_row (row : value) : value := VObject (object_content row).
Fixpoint kept_rows (where_ : option expression) (rows : list value) : result (list value) :=
  match rows with
  | [] => Ok []
  | row :: rows =>
      b ← selected where_ (object_content row); kept ← kept_rows where_ rows;
      Ok (if (b : bool) then kept else as_row row :: kept)
  end.
Fixpoint found_rows (where_ : option expression) (rows : list value) : result (list (list (string * value))) :=
  match rows with
  | [] => Ok []
  | row :: rows =>
      b ← selected where_ (object_content row); found ← found_rows where_ rows;
      Ok (if (b : bool) then object_content row :: found else found)
  end.
(** The rows after an update, and how many were updated. *)
Fixpoint changed_rows (types : gmap string column_type) (stmt : update_statement) (rows : list value)
    : result (list value * Z) :=
  match rows with
  | [] => Ok ([], 0)
  | row :: rows =>
      b ← selected (up_where stmt) (object_content row);
      row' ← (if (b : bool)
              then fields ← fill_fields types (up_assignments stmt).*1 (up_assignments stmt).*2 (object_content row);
                   Ok (VObject fields)
              else Ok (as_row row));
      rest ← changed_rows types stmt rows;
      Ok (row' :: rest.1, rest.2 + if (b : bool) then 1 else 0)
  end.
Fixpoint new_rows (columns : list column_definition) (targets : list string) (tuples : list (list literal))
    : result (list value) :=
  match tuples with
  | [] => Ok []
  | tuple :: tuples =>
      row ← build_row columns targets tuple; rows ← new_rows columns targets tuples; Ok (row :: rows)
  end.

Section row_loops.
Context {W : Type} `{HW : storage W}.
Implicit Types (t : transaction) (s : heap_state * W) (rows before : list value).

(** Writing to the row after [before]. *)
Lemma alter_middle f before row rows : alter f (length before) (before ++ row :: rows) = before ++ f row :: rows.
Proof. induction before; simpl; [done|]. f_equal. done. Qed.
Lemma delete_middle before row rows : delete (length before) (before ++ row :: rows) = before ++ rows.
Proof. induction before; simpl; [done|]. f_equal. done. Qed.
Lemma runs_at_bind {X} i t s before row rows e (f : () → session (W:=W) X) o :
  holds t i (VArray (before ++ row :: rows)) →
  (∀ t', holds t' i (VArray (before ++ apply_edit e row :: rows)) → runs i t' s (f ()) o) →
  runs i t s (write (Z.of_nat i + 1) (e_at (length before) e) ≫= f) o.
Proof.
  intros Ht Hf. apply (runs_write_bind i t s _ _ f o Ht). intros t'. simpl. rewrite alter_middle. apply Hf.
Qed.
Lemma assign_literal_value lit v : apply_edit (assign_literal lit) v = literal_value lit.
Proof. by destruct lit. Qed.
Lemma result_bind_assoc {A B C} (r : result A) (f : A → result B) (g : B → result C) :
  (r ≫= f) ≫= g = r ≫= (λ x, f x ≫= g).
Proof. by destruct r. Qed.
Lemma result_bind_ext {A B} (r : result A) (f g : A → result B) : (∀ x, f x = g x) → r ≫= f = r ≫= g.
Proof. intros E. destruct r; [apply E|done]. Qed.

Lemma runs_delete i where_ rows before n t s :
  holds t i (VArray (before ++ rows)) →
  runs i t s (delete_rows (Z.of_nat i + 1) where_ rows (length before) n)
    (kept ← kept_rows where_ rows; Ok (n + size rows - size kept, VArray (before ++ kept))).
Proof.
  revert before n t. induction rows as [|row rows IH]; intros before n t Ht.
  { simpl. replace (n + size [] - size []) with n by (unfold size; simpl; lia). by apply runs_ret. }
  cbn [delete_rows kept_rows]. apply (runs_at_bind i t s before row rows e_as_object _ _ Ht). intros t1 Ht1.
  rewrite result_bind_assoc. apply (runs_result_bind i t1 s _ _ _ _ Ht1). intros [] _.
  - apply (runs_write_bind i t1 s _ _ _ _ Ht1). intros t2. simpl. rewrite delete_middle. intros Ht2.
    specialize (IH before (n + 1) t2 Ht2). destruct (kept_rows where_ rows); simpl in *; [|done].
    replace (n + size (row :: rows) - size a) with (n + 1 + size rows - size a) by (unfold size; simpl; lia). done.
  - replace (S (length before)) with (length (before ++ [as_row row])) by (rewrite length_app; simpl; lia).
    specialize (IH (before ++ [as_row row]) n t1). rewrite <- app_assoc in IH. specialize (IH Ht1).
    destruct (kept_rows where_ rows); simpl in *; [|done]. rewrite <- app_assoc in IH. simpl in IH.
    by replace (n + size (row :: rows) - size (as_row row :: a)) with (n + size rows - size a) by (unfold size; simpl; lia).
Qed.
Lemma runs_select i where_ rows before t s :
  holds t i (VArray (before ++ rows)) →
  runs i t s (select_rows (Z.of_nat i + 1) where_ rows (length before))
    (found ← found_rows where_ rows; Ok (found, VArray (before ++ (as_row <$> rows)))).
Proof.
  revert before t. induction rows as [|row rows IH]; intros before t Ht.
  { simpl. by apply runs_ret. }
  cbn [select_rows found_rows]. apply (runs_at_bind i t s before row rows e_as_object _ _ Ht). intros t1 Ht1.
  rewrite result_bind_assoc. apply (runs_result_bind i t1 s _ _ _ _ Ht1). intros b _.
  replace (S (length before)) with (length (before ++ [as_row row])) by (rewrite length_app; simpl; lia).
  specialize (IH (before ++ [as_row row]) t1). rewrite <- app_assoc in IH. specialize (IH Ht1).
  rewrite result_bind_assoc. destruct (found_rows where_ rows) as [found|e]; simpl in *.
  - destruct IH as (t2 & E & Hh & He). exists t2. rewrite <- app_assoc in Hh. split_and!; [|done|done].
    m_run E. by destruct b.
  - destruct IH as (t2 & E). exists t2. by rewrite (bind_throw _ _ _ _ _ E).
Qed.
Lemma runs_assign i types l fields before rows t s :
  holds t i (VArray (before ++ VObject fields :: rows)) →
  runs i t s (assign_fields (Z.of_nat i + 1) (length before) types l)
    (fields' ← fill_fields types l.*1 l.*2 fields; Ok (tt, VArray (before ++ VObject fields' :: rows))).
Proof.
  revert fields t. induction l as [|[name lit] l IH]; intros fields t Ht.
  { by apply (runs_ret i t s). }
  cbn [assign_fields fill_fields fmap list_fmap fst snd]. rewrite result_bind_assoc.
  apply (runs_result_bind i t s _ _ _ _ Ht). intros type _. rewrite result_bind_assoc.
  apply (runs_result_bind i t s _ _ _ _ Ht). intros coerced _.
  apply (runs_at_bind i t s before _ rows _ _ _ Ht). intros t1. cbn [apply_edit object_content].
  rewrite assign_literal_value. apply IH.
Qed.
Lemma runs_update i types stmt rows before n t s :
  holds t i (VArray (before ++ rows)) →
  runs i t s (update_rows (Z.of_nat i + 1) types stmt rows (length before) n)
    (r ← changed_rows types stmt rows; Ok (n + r.2, VArray (before ++ r.1))).
Proof.
  revert before n t. induction rows as [|row rows IH]; intros before n t Ht.
  { simpl. rewrite Z.add_0_r. by apply runs_ret. }
  cbn [update_rows changed_rows]. apply (runs_at_bind i t s before row rows e_as_object _ _ Ht). intros t1 Ht1.
  rewrite result_bind_assoc. apply (runs_result_bind i t1 s _ _ _ _ Ht1).
  assert (∀ row' m t, holds t i (VArray (before ++ row' :: rows)) →
    runs i t s (update_rows (Z.of_nat i + 1) types stmt rows (S (length before)) m)
      (rest ← changed_rows types stmt rows; Ok (m + rest.2, VArray (before ++ row' :: rest.1)))) as Hrest.
  { intros row' m t2 Ht2. specialize (IH (before ++ [row']) m t2). rewrite <- app_assoc in IH. specialize (IH Ht2).
    rewrite length_app, Nat.add_comm in IH. destruct (changed_rows types stmt rows); simpl in *; [|done].
    by rewrite <- app_assoc in IH. }
  intros [] _; cbn [negb].
  - rewrite result_bind_assoc.
    pose proof (runs_bind i t1 s _ (λ _, update_rows (Z.of_nat i + 1) types stmt rows (S (length before)) (n + 1)) _
      (λ _ v, rest ← changed_rows types stmt rows; Ok (n + 1 + rest.2,
         VArray (before ++ default VNull (array_content v !! length before) :: rest.1)))
      (runs_assign i types (up_assignments stmt) (object_content row) before rows t1 s Ht1)) as Hb.
    destruct (fill_fields types _ _ (object_content row)) as [fields|e]; simpl in *.
    + rewrite list_lookup_middle in Hb by done.
      eapply runs_eq; [|apply Hb].
      * destruct (changed_rows types stmt rows); simpl; [|done]. f_equal. f_equal. lia.
      * intros [] v t2 [= <-] Ht2. simpl. rewrite ?list_lookup_middle by done. by apply Hrest.
    + apply Hb. intros [] v t2 [=].
  - rewrite result_bind_assoc. simpl. specialize (Hrest (as_row row) n t1 Ht1).
    destruct (changed_rows types stmt rows); simpl in *; [|done]. by rewrite Z.add_0_r.
Qed.
Lemma runs_insert i columns targets tuples rows n t s :
  holds t i (VArray rows) →
  runs i t s (insert_rows (Z.of_nat i + 1) columns targets tuples n)
    (l ← new_rows columns targets tuples; Ok (n + size l, VArray (rows ++ l))).
Proof.
  revert rows n t. induction tuples as [|tuple tuples IH]; intros rows n t Ht.
  { simpl. replace (n + size []) with n by (unfold size; simpl; lia). rewrite app_nil_r. by apply runs_ret. }
  cbn [insert_rows new_rows]. rewrite result_bind_assoc. apply (runs_result_bind i t s _ _ _ _ Ht). intros row _.
  apply (runs_write_bind i t s _ _ _ _ Ht). intros t1 Ht1. simpl in Ht1. specialize (IH _ (n + 1) t1 Ht1).
  destruct (new_rows columns targets tuples); simpl in *; [|done].
  rewrite <- app_assoc in IH. simpl in IH.
  by replace (n + size (row :: a)) with (n + 1 + size a) by (unfold size; simpl; lia).
Qed.
End row_loops.
