(* ===== verification/SqlTypes.v ===== *)
(** * Tables stay typed, and typed tables can be queried.

    The columns of a table say which type the fields of its rows have.  Every statement that
    writes rows coerces what it writes, so the rows of a table conform to its columns; on such rows
    a condition whose literals can be compared with its columns never throws. *)
From stdpp Require Import pretty.
From S2P Require Import Prelude.
From S2P Require Import Binary.
From S2P Require Import OrderedMap.
From S2P Require Import Value.
From S2P Require Import Observer.
From S2P Require Import ObserverSpec.
From S2P Require Import Codec.
From S2P Require Import Storage.
From S2P Require Import Journal.
From S2P Require Import Heap.
From S2P Require Import Transaction.
From S2P Require Import TransactionSpec.
From S2P Require Import Double.
From S2P Require Import Chars.
From S2P Require Import SqlSyntax.
From S2P Require Import SqlParser.
From S2P Require Import SqlInterpreter.
From S2P Require Import SqlSpec.
#[local] Open Scope Z_scope.

(** ** Typed rows *)
Definition conforms (type : column_type) (v : value) : Prop :=
  match v, type with
  | VNull, _ | VInteger _, ct_integer | VNumber _, ct_real | VString _, ct_text | VBool _, ct_boolean => True
  | _, _ => False
  end.
Implicit Types (columns : list column_definition) (m : list (string * value)).
(** The fields of a row: exactly the columns, each of its type or null. *)
Record typed_fields columns m : Prop := {
  tf_sorted : om_sorted m;
  tf_names name : is_Some (om_find name m) ↔ is_Some (type_by_name columns !! name);
  tf_types name type v : type_by_name columns !! name = Some type → om_find name m = Some v → conforms type v
}.
Definition typed_row columns (row : value) : Prop := ∃ m, row = VObject m ∧ typed_fields columns m.

Lemma typed_row_fields columns row : typed_row columns row → typed_fields columns (object_content row).
Proof. by intros (m & -> & Hm). Qed.
Lemma as_row_typed columns row : typed_row columns row → as_row row = row.
Proof. by intros (m & -> & Hm). Qed.
Lemma typed_row_object columns m : typed_fields columns m → typed_row columns (VObject m).
Proof. intros Hm. by exists m. Qed.
#[export] Hint Resolve typed_row_fields typed_row_object : core.

Lemma type_by_name_cons c columns name :
  type_by_name (c :: columns) !! name =
  if decide (name = cd_name c) then Some (cd_type c) else type_by_name columns !! name.
Proof.
  unfold type_by_name. simpl. case_decide as E; [subst; apply lookup_insert_eq|by apply lookup_insert_ne].
Qed.
(** A column is known by its definitions and by the map made from them. *)
Lemma type_by_name_known columns name : is_Some (type_by_name columns !! name) ↔ name ∈ cd_name <$> columns.
Proof.
  induction columns as [|c columns IH]; [unfold type_by_name; simpl; rewrite lookup_empty; split; [by intros [? [=]]|by intros ?%not_elem_of_nil]|].
  rewrite type_by_name_cons, fmap_cons, elem_of_cons. case_decide as E.
  - split; [by left|by eexists].
  - rewrite IH. split; [by right|by intros [?|?]].
Qed.

Lemma coerce_conforms lit type name lit' : coerce lit type name = Ok lit' → conforms type (literal_value lit').
Proof. destruct lit, type; simpl; intros [= <-]; done. Qed.
Lemma typed_put columns m name type v :
  typed_fields columns m → type_by_name columns !! name = Some type → conforms type v →
  typed_fields columns (om_put name v m).
Proof.
  intros [H1 H2 H3] Ht Hv. split.
  - by apply om_put_sorted.
  - intros n. destruct (decide (name = n)) as [<-|Hne].
    + rewrite om_find_put, Ht. by split; eexists.
    + by rewrite om_find_put_ne.
  - intros n type' v' Ht'. destruct (decide (name = n)) as [<-|Hne].
    + rewrite om_find_put. intros [= <-]. by simplify_eq.
    + rewrite om_find_put_ne by done. by apply H3.
Qed.
Lemma fill_fields_typed columns targets tuple m m' :
  typed_fields columns m → fill_fields (type_by_name columns) targets tuple m = Ok m' → typed_fields columns m'.
Proof.
  revert tuple m. induction targets as [|name targets IH]; intros [|lit tuple] m Hm; simpl; try by intros [= <-].
  destruct (type_by_name columns !! name) as [type|] eqn:Et; simpl; [|done].
  destruct (coerce lit type name) as [lit'|] eqn:Ec; simpl; [|done]. apply IH.
  eapply typed_put; [done|done|by eapply coerce_conforms].
Qed.
(** The row of nulls an insertion starts from. *)
Lemma null_fields_find columns m name :
  om_sorted m → om_find name (null_fields columns m) =
  if decide (name ∈ cd_name <$> columns) then Some VNull else om_find name m.
Proof.
  revert m. induction columns as [|c columns IH]; intros m Hm; [done|]. simpl.
  rewrite IH by by apply om_put_sorted. destruct (decide (name ∈ cd_name <$> columns)) as [Hin|Hn].
  - rewrite decide_True; [done|]. by right.
  - destruct (decide (cd_name c = name)) as [<-|Hne].
    + rewrite decide_True by left. apply om_find_put.
    + rewrite decide_False by (intros [?|?]%elem_of_cons; [by apply Hne|by apply Hn]). by apply om_find_put_ne.
Qed.
Lemma null_fields_sorted columns m : om_sorted m → om_sorted (null_fields columns m).
Proof. revert m. induction columns; intros m Hm; simpl; [done|]. by apply IHcolumns, om_put_sorted. Qed.
Lemma null_fields_typed columns : typed_fields columns (null_fields columns []).
Proof.
  assert (om_sorted ([] : list (string * value))) as H0 by constructor. split.
  - by apply null_fields_sorted.
  - intros name. rewrite null_fields_find, type_by_name_known by done. case_decide; simpl; [|by split; [intros [? [=]]|]].
    by split; [|eexists].
  - intros name type v _. rewrite null_fields_find by done. case_decide; [by intros [= <-]|done].
Qed.
Lemma build_row_typed columns targets tuple row : build_row columns targets tuple = Ok row → typed_row columns row.
Proof.
  unfold build_row. case_match; [done|]. destruct (fill_fields _ _ _ _) as [m|] eqn:E; simpl; [|done].
  intros [= <-]. apply typed_row_object. eapply fill_fields_typed; [apply null_fields_typed|done].
Qed.
Lemma new_rows_typed columns targets tuples rows :
  new_rows columns targets tuples = Ok rows → Forall (typed_row columns) rows.
Proof.
  revert rows. induction tuples as [|tuple tuples IH]; intros rows; simpl; [by intros [= <-]|].
  destruct (build_row columns targets tuple) as [row|] eqn:E; simpl; [|done].
  destruct (new_rows columns targets tuples); simpl; [|done]. intros [= <-].
  constructor; [by eapply build_row_typed|by apply IH].
Qed.
Lemma kept_rows_typed columns where_ rows kept :
  Forall (typed_row columns) rows → kept_rows where_ rows = Ok kept → Forall (typed_row columns) kept.
Proof.
  intros Hr. revert kept. induction Hr as [|row rows Hrow _ IH]; intros kept; simpl; [by intros [= <-]|].
  destruct (selected where_ _) as [b|]; simpl; [|done]. destruct (kept_rows where_ rows); simpl; [|done].
  intros [= <-]. specialize (IH _ eq_refl). destruct b; [done|]. constructor; [|done]. by rewrite (as_row_typed columns).
Qed.
Lemma changed_rows_typed columns stmt rows r :
  Forall (typed_row columns) rows → changed_rows (type_by_name columns) stmt rows = Ok r →
  Forall (typed_row columns) r.1.
Proof.
  intros Hr. revert r. induction Hr as [|row rows Hrow _ IH]; intros r; simpl; [by intros [= <-]|].
  destruct (selected _ _) as [b|]; simpl; [|done].
  assert (∀ row' : value, typed_row columns row' →
    (rest ← changed_rows (type_by_name columns) stmt rows; Ok (row' :: rest.1, rest.2 + if b then 1 else 0)) = Ok r →
    Forall (typed_row columns) r.1) as Hrest.
  { intros row' Hrow'. destruct (changed_rows _ stmt rows); simpl; [|done]. intros [= <-]. simpl.
    constructor; [done|by apply IH]. }
  destruct b; simpl.
  - destruct (fill_fields _ _ _ _) as [m|] eqn:E; simpl; [|done]. apply Hrest. apply typed_row_object.
    eapply fill_fields_typed; [|done]. by apply typed_row_fields.
  - apply Hrest. by rewrite (as_row_typed columns).
Qed.

(** ** Typed conditions *)
Definition comparable (type : column_type) (lit : literal) : Prop :=
  match lit, type with
  | LNull, _ | LInteger _, (ct_integer | ct_real) | LReal _, (ct_integer | ct_real)
  | LText _, ct_text | LBool _, ct_boolean => True
  | _, _ => False
  end.
Fixpoint condition_ok columns (e : expression) : Prop :=
  match e with
  | Comparison column _ lit => ∃ type, type_by_name columns !! column = Some type ∧ comparable type lit
  | Logical _ l r => condition_ok columns l ∧ condition_ok columns r
  | Negation e => condition_ok columns e
  end.
Lemma compare_typed type v lit :
  conforms type v → comparable type lit → ∃ c, compare_value_literal v lit = Ok c.
Proof. destruct v, type, lit; simpl; intros; try done; by eexists. Qed.
Lemma evaluate_typed columns e m :
  typed_fields columns m → condition_ok columns e → ∃ b, evaluate e m = Ok b.
Proof.
  intros Hm. induction e as [column op lit|op l IHl r IHr|e IH]; simpl.
  - intros (type & Ht & Hc). destruct (proj2 (tf_names _ _ Hm column)) as [v Hv]; [by eexists|].
    rewrite Hv. destruct (compare_typed type v lit) as [c ->]; [by eapply tf_types|done|]. by eexists.
  - intros [[b ->]%IHl [b' ->]%IHr]. destruct op, b; simpl; by eexists.
  - intros [b ->]%IH. by eexists.
Qed.
(** Whether a row is selected, for rows and conditions that fit. *)
Definition where_ok columns (where_ : option expression) : Prop :=
  match where_ with Some e => condition_ok columns e | None => True end.
Definition picks (where_ : option expression) (row : value) : bool :=
  match selected where_ (object_content row) with Ok b => b | Throw _ => false end.
Lemma selected_typed columns where_ row :
  typed_row columns row → where_ok columns where_ → selected where_ (object_content row) = Ok (picks where_ row).
Proof.
  intros Hr%typed_row_fields Hw. unfold picks. destruct where_ as [e|]; [|done]. simpl.
  by destruct (evaluate_typed columns e _ Hr Hw) as [b ->].
Qed.
Lemma kept_rows_filter columns where_ rows :
  Forall (typed_row columns) rows → where_ok columns where_ →
  kept_rows where_ rows = Ok (filter (λ row, picks where_ row = false) rows).
Proof.
  intros Hr Hw. induction Hr as [|row rows Hrow _ IH]; [done|]. simpl.
  rewrite (selected_typed columns), filter_cons, IH by done. simpl. rewrite (as_row_typed columns) by done.
  by destruct (picks where_ row).
Qed.
Lemma found_rows_filter columns where_ rows :
  Forall (typed_row columns) rows → where_ok columns where_ →
  found_rows where_ rows = Ok (object_content <$> filter (λ row, picks where_ row = true) rows).
Proof.
  intros Hr Hw. induction Hr as [|row rows Hrow _ IH]; [done|]. simpl.
  rewrite (selected_typed columns), filter_cons, IH by done. simpl. by destruct (picks where_ row).
Qed.

(** ** Assigned fields *)
Definition fits (types : gmap string column_type) (a : string * literal) : Prop :=
  ∃ type lit, types !! a.1 = Some type ∧ coerce a.2 type a.1 = Ok lit.
(** [m'] is [m] with the assignments made: what is assigned holds the coerced literal, the rest is
    as it was. *)
Record assigned (types : gmap string column_type) (l : list (string * literal)) m m' : Prop := {
  as_given name lit : (name, lit) ∈ l → ∃ type lit',
    types !! name = Some type ∧ coerce lit type name = Ok lit' ∧ om_find name m' = Some (literal_value lit');
  as_rest name : name ∉ l.*1 → om_find name m' = om_find name m
}.
Lemma fill_fields_assigned types l m :
  om_sorted m → Forall (fits types) l → NoDup l.*1 →
  ∃ m', fill_fields types l.*1 l.*2 m = Ok m' ∧ assigned types l m m'.
Proof.
  intros Hm Hf. revert m Hm. induction Hf as [|[name lit] l (type & lit' & Ht & Hc) Hf IH]; intros m Hm Hn; simpl in *.
  { exists m. split; [done|]. split; [by intros ? ? ?%not_elem_of_nil|done]. }
  apply NoDup_cons in Hn as [Hn1 Hn2]. rewrite Ht. simpl. rewrite Hc. simpl.
  destruct (IH (om_put name (literal_value lit') m)) as (m' & E & [H1 H2]); [by apply om_put_sorted|done|].
  exists m'. split; [exact E|]. split.
  - intros n x [[= -> ->]|Hin]%elem_of_cons; [|by apply H1].
    exists type, lit'. split_and!; [done|done|]. rewrite H2 by done. apply om_find_put.
  - intros n [Hne Hn]%not_elem_of_cons. rewrite H2 by done. by apply om_find_put_ne.
Qed.
Lemma zip_fst_snd {A B} (l : list A) (k : list B) : length l = length k → (zip l k).*1 = l ∧ (zip l k).*2 = k.
Proof. intros E. split; [apply fst_zip|apply snd_zip]; lia. Qed.
Lemma build_row_assigned columns targets tuple :
  length targets = length tuple → NoDup targets → Forall (fits (type_by_name columns)) (zip targets tuple) →
  ∃ m, build_row columns targets tuple = Ok (VObject m) ∧ typed_fields columns m ∧
    assigned (type_by_name columns) (zip targets tuple) (null_fields columns []) m.
Proof.
  intros Hl Hn Hf. destruct (zip_fst_snd targets tuple Hl) as [E1 E2].
  destruct (fill_fields_assigned (type_by_name columns) (zip targets tuple) (null_fields columns []))
    as (m & E & Ha); [apply null_fields_typed|done|by rewrite E1|].
  rewrite E1, E2 in E. exists m. unfold build_row, size. rewrite Hl, Z.eqb_refl. cbn [negb].
  rewrite E. split_and!; [done| |done]. eapply fill_fields_typed; [apply null_fields_typed|done].
Qed.

(** A row before and after an update. *)
Definition row_updated columns (stmt : update_statement) (row row' : value) : Prop :=
  if picks (up_where stmt) row
  then typed_row columns row' ∧
       assigned (type_by_name columns) (up_assignments stmt) (object_content row) (object_content row')
  else row' = row.
Lemma changed_rows_updated columns stmt rows :
  Forall (typed_row columns) rows → where_ok columns (up_where stmt) →
  Forall (fits (type_by_name columns)) (up_assignments stmt) → NoDup (up_assignments stmt).*1 →
  ∃ rows', changed_rows (type_by_name columns) stmt rows =
      Ok (rows', size (filter (λ row, picks (up_where stmt) row = true) rows)) ∧
    Forall2 (row_updated columns stmt) rows rows'.
Proof.
  intros Hr Hw Hf Hn. induction Hr as [|row rows Hrow _ IH]; [by exists []|]. simpl.
  destruct IH as (rows' & E & Hu). rewrite (selected_typed columns), filter_cons by done. simpl.
  assert (row_updated columns stmt row =
    (λ row', if picks (up_where stmt) row then typed_row columns row' ∧
      assigned (type_by_name columns) (up_assignments stmt) (object_content row) (object_content row') else row' = row)) as Eu by done.
  pose proof (typed_row_fields _ _ Hrow) as Htf. destruct (picks (up_where stmt) row) eqn:Ep; simpl.
  - destruct (fill_fields_assigned (type_by_name columns) (up_assignments stmt) (object_content row))
      as (m & Em & Ha); [apply Htf|done|done|]. rewrite Em. simpl. rewrite E. simpl.
    exists (VObject m :: rows'). split; [do 2 f_equal; unfold size; simpl; lia|]. constructor; [|done].
    rewrite Eu. split; [|done]. apply typed_row_object. by eapply fill_fields_typed.
  - rewrite E. simpl. exists (row :: rows'). rewrite (as_row_typed columns), Z.add_0_r by done.
    split; [done|]. constructor; [|done]. by rewrite Eu.
Qed.
