(* ===== verification/SqlOrder.v ===== *)
(** * What conditions and orders mean: the order of cells, and what a sort by it gives.

    [cell_less] is the order of the values of a column, stated on the numbers, strings and booleans
    themselves; [holds_for] is what a condition says of a row in terms of that order.  On typed
    tables the interpreter computes exactly these, and [ORDER BY] sorts by that order and keeps
    rows with equal keys as they were. *)
From Stdlib Require Import Sorted.
From stdpp Require Import pretty.
From S2P Require Import Prelude.
From S2P Require Import Binary.
From S2P Require Import OrderedMap.
From S2P Require Import Value.
From S2P Require Import Observer.
From S2P Require Import ObserverSpec.
From S2P Require Import Codec.
From S2P Require Import Storage.
From S2P Require Import Journal.
From S2P Require Import Heap.
From S2P Require Import Transaction.
From S2P Require Import TransactionSpec.
From S2P Require Import Double.
From S2P Require Import DoubleOrder.
From S2P Require Import Chars.
From S2P Require Import SqlSyntax.
From S2P Require Import SqlParser.
From S2P Require Import SqlInterpreter.
From S2P Require Import SqlSpec.
From S2P Require Import SqlTypes.
#[local] Open Scope Z_scope.
Implicit Types (columns : list column_definition) (m : list (string * value)).

(** ** The order of cells *)

(** The number a cell stands for, in units of the smallest double: integers are taken as doubles. *)
Definition number (v : value) : option Z :=
  match v with VInteger z => d_value (d_of_integer z) | VNumber d => d_value d | _ => None end.
Definition number_less (x y : option Z) : bool :=
  match x, y with Some a, Some b => a <? b | _, _ => false end.
(** Null comes after everything, false before true; strings are compared byte by byte. *)
Definition cell_less (a b : value) : bool :=
  match a, b with
  | VNull, _ => false
  | _, VNull => true
  | VBool x, VBool y => negb x && y
  | VString x, VString y => String.ltb x y
  | _, _ => number_less (number a) (number b)
  end.
(** A cell that is not NaN. *)
Definition numbered (v : value) : Prop := match v with VNumber d => d_value d ≠ None | _ => True end.

Lemma number_known type v :
  type = ct_integer ∨ type = ct_real → conforms type v → numbered v → v = VNull ∨ is_Some (number v).
Proof.
  intros Ht Hc Hn. destruct v; try (by destruct Ht; subst); [by left|right..]; simpl in *; apply not_eq_None_Some;
    [apply integer_not_nan|done].
Qed.
(** Cells of a column that are not NaN: those not ordered against each other form classes. *)
Lemma cell_less_weak type a b c :
  conforms type a → conforms type b → conforms type c → numbered a → numbered b → numbered c →
  cell_less a b = true → cell_less a c = true ∨ cell_less c b = true.
Proof.
  intros Ha Hb Hc Na Nb Nc.
  assert (∀ x y z : string, less x y = true → less x z = true ∨ less z y = true) as Hs.
  { intros x y z E. destruct (less x z) eqn:E1; [by left|right]. destruct (less z y) eqn:E2; [done|].
    destruct (less z x) eqn:E3; [by rewrite (less_trans z x y) in E2|].
    pose proof (less_total x z E1 E3). subst. congruence. }
  assert (∀ x y z, is_Some x → is_Some y → is_Some z → number_less x y = true →
    number_less x z = true ∨ number_less z y = true) as Hn.
  { intros ? ? ? [x ->] [y ->] [z ->]. simpl. rewrite !Z.ltb_lt. lia. }
  destruct a as [|x|x|x|x|x|x], b as [|y|y|y|y|y|y], c as [|z|z|z|z|z|z], type; try done; cbn [cell_less];
    intros E; try (by left); try (by right); try (by apply Hs);
    try (by destruct x, y, z; auto);
    (apply Hn; [..|done]); simpl; apply not_eq_None_Some; (apply integer_not_nan || done).
Qed.
Lemma cell_less_asym a b : cell_less a b = true → cell_less b a = false.
Proof.
  assert (∀ x y, number_less x y = true → number_less y x = false) as Hn.
  { intros [x|] [y|]; simpl; try done. rewrite Z.ltb_lt, Z.ltb_ge. lia. }
  destruct a as [|x|x|x|x|x|x], b as [|y|y|y|y|y|y]; simpl; try done; try apply Hn.
  - by destruct x, y.
  - apply (less_asym x y).
Qed.

(** ** What the interpreter compares *)
Definition sign_of (a b : value) : Z := if cell_less a b then -1 else if cell_less b a then 1 else 0.
Lemma compare_cell type v lit :
  conforms type v → comparable type lit →
  compare_value_literal v lit =
  Ok (if is_null v || is_null (literal_value lit) then None else Some (sign_of v (literal_value lit))).
Proof.
  destruct v as [|x|x|x|x|x|x], lit as [|y|y|y|y], type; try done; intros _ _; simpl; try done;
    unfold sign_of, compare_doubles; cbn [cell_less literal_value number]; rewrite ?d_less_value; try done.
  by destruct x, y.
Qed.
(** [ORDER BY] compares by the order of cells, NaN included. *)
Lemma less_for_sort_cell type a b :
  conforms type a → conforms type b → less_for_sort a b = Ok (cell_less a b).
Proof.
  intros Ha Hb. unfold less_for_sort.
  destruct (is_null a) eqn:Ea; [by destruct a|]. destruct (is_null b) eqn:Eb; [by destruct b, a|].
  assert (∃ lit, to_literal b = Ok lit ∧ literal_value lit = b ∧ comparable type lit) as (lit & -> & El & Hl).
  { destruct b as [|y|y|y|y|y|y], type; try done; by eexists. }
  simpl. rewrite (compare_cell type), El, Ea, Eb by done. simpl. unfold sign_of.
  by destruct (cell_less a b), (cell_less b a).
Qed.

(** ** Conditions *)
Definition key_of (key : string) m : value := default VNull (om_find key m).
Fixpoint holds_for (e : expression) m : bool :=
  match e with
  | Comparison column op lit =>
      let v := key_of column m in
      let l := literal_value lit in
      negb (is_null v) && negb (is_null l) &&
      match op with
      | c_eq => negb (cell_less v l) && negb (cell_less l v)
      | c_neq => cell_less v l || cell_less l v
      | c_lt => cell_less v l
      | c_lte => negb (cell_less l v)
      | c_gt => cell_less l v
      | c_gte => negb (cell_less v l)
      end
  | Logical and_op l r => holds_for l m && holds_for r m
  | Logical or_op l r => holds_for l m || holds_for r m
  | Negation e => negb (holds_for e m)
  end.
Definition chosen (where_ : option expression) (row : value) : bool :=
  match where_ with Some e => holds_for e (object_content row) | None => true end.
Lemma evaluate_holds columns e m :
  typed_fields columns m → condition_ok columns e → evaluate e m = Ok (holds_for e m).
Proof.
  intros Hm. induction e as [column op lit|op l IHl r IHr|e IH]; simpl.
  - intros (type & Ht & Hc). destruct (proj2 (tf_names _ _ Hm column)) as [v Hv]; [by eexists|].
    unfold key_of. rewrite Hv. simpl. rewrite (compare_cell type) by (done || by eapply tf_types).
    destruct (is_null v), (is_null (literal_value lit)); simpl; try done. unfold sign_of.
    pose proof (cell_less_asym v (literal_value lit)).
    destruct op, (cell_less v (literal_value lit)), (cell_less (literal_value lit) v); try done; by specialize (H eq_refl).
  - intros [Hl Hr]. rewrite IHl by done. simpl. destruct op, (holds_for l m); simpl; auto.
  - intros He. by rewrite IH.
Qed.
Lemma picks_chosen columns where_ row :
  typed_row columns row → where_ok columns where_ → picks where_ row = chosen where_ row.
Proof.
  intros Hr%typed_row_fields Hw. unfold picks, chosen. destruct where_ as [e|]; [|done]. simpl.
  by rewrite (evaluate_holds columns).
Qed.

Lemma filter_chosen columns where_ rows :
  Forall (typed_row columns) rows → where_ok columns where_ →
  filter (λ row, picks where_ row = true) rows = filter (λ row, chosen where_ row = true) rows.
Proof.
  intros Hr Hw. induction Hr as [|row rows Hrow _ IH]; [done|].
  by rewrite !filter_cons, (picks_chosen columns), IH.
Qed.

(** ** Sorting *)
Lemma filter_none {A} (Q : A → Prop) `{∀ x, Decision (Q x)} l : Forall (λ x, ¬ Q x) l → filter Q l = [].
Proof. induction 1 as [|x l Hx _ IH]; [done|]. by rewrite filter_cons, decide_False. Qed.

(** A sort by [less] that never throws and is a strict weak order, on the elements at hand. *)
Section sorting.
Context (lessb : list (string * value) → list (string * value) → bool).
Context (less : list (string * value) → list (string * value) → result bool).
Context (P : list (string * value) → Prop).
Context (less_ok : ∀ x y, P x → P y → less x y = Ok (lessb x y)).
Context (less_antisym : ∀ x y, P x → P y → lessb x y = true → lessb y x = false).
Context (less_weak : ∀ x y z, P x → P y → P z → lessb x y = true → lessb x z = true ∨ lessb z y = true).
(** [b] may follow [a]; neither comes before the other. *)
Definition follows (a b : list (string * value)) : Prop := lessb b a = false.
Definition level (a b : list (string * value)) : bool := negb (lessb a b) && negb (lessb b a).

Lemma insert_sorted_spec r x l :
  P r → P x → Forall P l → StronglySorted follows l →
  ∃ l', insert_sorted less x l = Ok l' ∧ l' ≡ₚ x :: l ∧ StronglySorted follows l' ∧
    filter (λ y, level r y = true) l' = filter (λ y, level r y = true) (l ++ [x]).
Proof.
  intros Hr Hx Hl. induction Hl as [|y l Hy Hl IH]; intros Hs.
  { exists [x]. split_and!; [done|done|repeat constructor|done]. }
  apply StronglySorted_inv in Hs as [Hs Hd]. simpl. rewrite less_ok by done. simpl. destruct (lessb x y) eqn:E.
  - assert (Forall (λ z, lessb x z = true) (y :: l)) as Hall.
    { constructor; [done|]. apply Forall_forall. intros z Hz. rewrite Forall_forall in Hl, Hd.
      destruct (less_weak x y z) as [|H]; auto. specialize (Hd z Hz). unfold follows in Hd. congruence. }
    exists (x :: y :: l). split_and!; [done|done| |].
    + constructor; [by constructor|]. eapply Forall_impl; [apply Forall_and; split; [exact Hall|by constructor]|].
      intros z [Hz ?]. by apply less_antisym.
    + rewrite (app_comm_cons l [x] y), filter_app, filter_cons. case_decide as Hlev; [|by rewrite (filter_cons _ x []), decide_False, app_nil_r].
      rewrite (filter_cons _ x []), decide_True by done.
      rewrite (filter_none _ (y :: l)); [done|]. eapply Forall_impl; [apply Forall_and; split; [exact Hall|by constructor]|].
      intros z [Hz HPz]. unfold level in *. intros [Hz1 Hz2]%andb_prop. apply andb_prop in Hlev as [Hx1 Hx2].
      by destruct (less_weak x z r) as [H|H]; auto; rewrite H in *.
  - destruct (IH Hs) as (l' & -> & Hp & Hs' & Hf). simpl.
    exists (y :: l'). split_and!; [done| | |].
    + rewrite Hp. constructor.
    + constructor; [done|]. rewrite Hp. by constructor.
    + by rewrite !filter_cons, Hf.
Qed.
Lemma stable_sort_spec l sorted :
  Forall P l → Forall P sorted → StronglySorted follows sorted →
  ∃ l', stable_sort less sorted l = Ok l' ∧ l' ≡ₚ sorted ++ l ∧ StronglySorted follows l' ∧
    ∀ r, P r → filter (λ y, level r y = true) l' = filter (λ y, level r y = true) (sorted ++ l).
Proof.
  intros Hl. revert sorted. induction Hl as [|x l Hx Hl IH]; intros sorted Hp Hs; simpl.
  { exists sorted. by rewrite app_nil_r. }
  destruct (insert_sorted_spec x x sorted Hx Hx Hp Hs) as (s' & E & Hperm & Hs' & _). rewrite E. simpl.
  destruct (IH s') as (l' & E2 & Hp' & Hs2 & Hf); [by rewrite Hperm; constructor|done|].
  exists l'. split_and!; [done| |done|].
  - rewrite Hp', Hperm. apply Permutation_middle.
  - intros r Hr. rewrite Hf by done. destruct (insert_sorted_spec r x sorted Hr Hx Hp Hs) as (s2 & E3 & _ & _ & Hf2).
    rewrite E in E3. injection E3 as <-. rewrite filter_app, Hf2, <- filter_app, <- app_assoc. done.
Qed.
Lemma strict_weak_holds l : Forall P l → strict_weak less l = true.
Proof.
  intros Hl. rewrite Forall_forall in Hl. unfold strict_weak, puts_before.
  apply forallb_forall. intros a Ha%list_elem_of_In%Hl. apply andb_true_intro. split.
  { rewrite less_ok by done. destruct (lessb a a) eqn:E; [|done]. by rewrite (less_antisym a a) in E. }
  apply forallb_forall. intros b Hb%list_elem_of_In%Hl. apply forallb_forall. intros c Hc%list_elem_of_In%Hl.
  rewrite !less_ok by done.
  pose proof (less_antisym a b Ha Hb). pose proof (less_antisym b c Hb Hc). pose proof (less_weak b c a Hb Hc Ha).
  pose proof (less_weak a b c Ha Hb Hc). pose proof (less_weak a c b Ha Hc Hb). pose proof (less_weak c a b Hc Ha Hb).
  destruct (lessb a b), (lessb b a), (lessb b c), (lessb c b), (lessb a c), (lessb c a); simpl; intuition congruence.
Qed.
Lemma sort_by_spec l :
  Forall P l →
  ∃ l', sort_by less l = Ok l' ∧ l' ≡ₚ l ∧ StronglySorted follows l' ∧
    ∀ r, r ∈ l → filter (λ y, level r y = true) l' = filter (λ y, level r y = true) l.
Proof.
  intros Hl. unfold sort_by. rewrite strict_weak_holds by done.
  destruct (stable_sort_spec l [] Hl) as (l' & E & Hp & Hs & Hf); [constructor..|].
  exists l'. split_and!; [done..|]. intros r Hr. rewrite Forall_forall in Hl. by apply Hf, Hl.
Qed.
End sorting.

(** Whether [ORDER BY key] puts [a] before [b], and whether it leaves them as they were. *)
Definition row_before (key : string) (direction : sort_direction) (a b : list (string * value)) : bool :=
  match direction with
  | ascending => cell_less (key_of key a) (key_of key b)
  | descending => cell_less (key_of key b) (key_of key a)
  end.
Definition same_rank (key : string) (a b : list (string * value)) : bool :=
  negb (cell_less (key_of key a) (key_of key b)) && negb (cell_less (key_of key b) (key_of key a)).
(** The rows of a typed table whose cell in the column is not NaN. *)
Definition orderable columns key m : Prop := typed_fields columns m ∧ numbered (key_of key m).

Lemma key_conforms columns key m type :
  typed_fields columns m → type_by_name columns !! key = Some type →
  om_find key m = Some (key_of key m) ∧ conforms type (key_of key m).
Proof.
  intros Hm Ht. destruct (proj2 (tf_names _ _ Hm key)) as [x Hx]; [by eexists|].
  unfold key_of. rewrite Hx. simpl. split; [done|by eapply tf_types].
Qed.
Lemma ascending_order_cell columns key type a b :
  type_by_name columns !! key = Some type → typed_fields columns a → typed_fields columns b →
  ascending_order key a b = Ok (cell_less (key_of key a) (key_of key b)).
Proof.
  intros Ht Ha Hb. unfold ascending_order, at_field.
  destruct (key_conforms columns key a type Ha Ht) as [-> Hca], (key_conforms columns key b type Hb Ht) as [-> Hcb].
  simpl. by apply (less_for_sort_cell type).
Qed.
Lemma sort_rows_orders columns key direction rows :
  Forall (orderable columns key) rows → is_Some (type_by_name columns !! key) →
  ∃ sorted, sort_rows (Some key) direction rows = Ok sorted ∧ sorted ≡ₚ rows ∧
    StronglySorted (λ a b, row_before key direction b a = false) sorted ∧
    ∀ r, r ∈ rows → filter (λ y, same_rank key r y = true) sorted = filter (λ y, same_rank key r y = true) rows.
Proof.
  intros Hr [type Ht].
  assert (∀ x, orderable columns key x → conforms type (key_of key x)) as Hc
    by (intros x [Hx _]; by apply (key_conforms columns key x type)).
  destruct direction; unfold sort_rows.
  - destruct (sort_by_spec (λ a b, cell_less (key_of key a) (key_of key b)) (ascending_order key) (orderable columns key))
      with (l := rows) as (sorted & E & Hp & Hs & Hf); [| | |done|by exists sorted].
    + intros x y [] []. by apply (ascending_order_cell columns _ type).
    + intros x y _ _. apply cell_less_asym.
    + intros x y z Hx Hy Hz. apply (cell_less_weak type); (by apply Hc) || (by destruct Hx, Hy, Hz).
  - destruct (sort_by_spec (λ a b, cell_less (key_of key b) (key_of key a)) (λ a b, ascending_order key b a)
      (orderable columns key)) with (l := rows) as (sorted & E & Hp & Hs & Hf); [| | |done|].
    + intros x y [] []. by apply (ascending_order_cell columns _ type).
    + intros x y _ _. apply cell_less_asym.
    + intros x y z Hx Hy Hz H. apply or_comm. revert H. apply (cell_less_weak type); (by apply Hc) || (by destruct Hx, Hy, Hz).
    + exists sorted. split_and!; [done..|]. intros r Hr'. specialize (Hf r Hr'). unfold level in Hf. unfold same_rank.
      etransitivity; [|etransitivity; [exact Hf|]]; apply list_filter_iff; intros y; by rewrite andb_comm.
Qed.
