(* ===== verification/SqlTheorems.v ===== *)
(** * Properties of the SQL module. *)
From Stdlib Require Import Sorted.
From stdpp Require Import pretty.
From S2P Require Import Prelude.
From S2P Require Import Binary.
From S2P Require Import OrderedMap.
From S2P Require Import Value.
From S2P Require Import Observer.
From S2P Require Import ObserverSpec.
From S2P Require Import Codec.
From S2P Require Import Storage.
From S2P Require Import Journal.
From S2P Require Import Recovery.
From S2P Require Import Snapshot.
From S2P Require Import SnapshotImage.
From S2P Require Import Cache.
From S2P Require Import Heap.
From S2P Require Import HeapSpec.
From S2P Require Import Transaction.
From S2P Require Import TransactionSpec.
From S2P Require Import Quiet.
From S2P Require Import Double.
From S2P Require Import Chars.
From S2P Require Import SqlSyntax.
From S2P Require Import SqlParser.
From S2P Require Import SqlReadBack.
From S2P Require Import SqlInterpreter.
From S2P Require Import SqlSpec.
From S2P Require Import SqlTypes.
From S2P Require Import DoubleOrder.
From S2P Require Import SqlOrder.
From S2P Require Import HeapTheorems.
From Stdlib Require Import Ascii.
#[local] Open Scope Z_scope.

(** ** Parsing *)

(** Parsing ends on every text: [parse_statement] gives a statement or throws [sql_error].  No
    text makes the scanner or the recursive parser run out of fuel, and the token stream is never
    read past its end. *)
Theorem parse_statement_total text :
  match parse_statement text with Ok _ => True | Throw e => ∃ what, e = sql_error what end.
Proof.
  unfold parse_statement. pose proof (lex_spec (String.length text) (chars_of text) []) as Hl.
  assert (length (chars_of text) = String.length text) as El.
  { unfold chars_of. clear Hl. induction text as [|c s IH]; simpl; [done|]. by rewrite IH. }
  fold (tokenize text) in Hl. specialize (Hl ltac:(lia)). destruct (tokenize text) as [tokens|e]; simpl; [|done].
  destruct Hl as [k ->]. set (ts := TokenStream (k ++ [plain tk_end]) 0).
  assert (ts_ok ts) as Hok by (exists k; split; [done|simpl; lia]).
  pose proof (parses_whole (parse_fuel (k ++ [plain tk_end])) ts Hok) as Hp.
  assert (3 * ts_left ts + 2 ≤ parse_fuel (k ++ [plain tk_end]))%nat as Hf.
  { unfold ts_left, parse_fuel; simpl. lia. }
  specialize (Hp Hf). unfold parses, run in *. by destruct (parse_whole _ ts) as [[?|?] ?].
Qed.

(** *** Quoting *)

(** Any text can be put into a statement by quoting it, and stays one literal whatever it
    contains: the scanner reads the quoted text back as one string literal with exactly that text,
    and the statement splitter does not end the statement inside it, only at the semicolon that
    follows. *)
Theorem quoted_text_is_one_literal s rest :
  tokenize (text_of (quoted s)) = Ok [Token string_literal s 0 0; plain tk_end] ∧
  extract_statement (text_of (quoted s ++ ";"%char :: rest)) =
    Some (text_of (quoted s), S (length (quoted s))).
Proof.
  split.
  - unfold tokenize. rewrite length_text_of, chars_of_text_of. unfold quoted. cbn [length lex].
    assert (lex_step "'" (double_quotes (chars_of s) ++ ["'"%char]) =
      (body ← string_body (double_quotes (chars_of s) ++ ["'"%char]) [];
       Ok (Some (Token string_literal (text_of body.1) 0 0), body.2))) as -> by done.
    rewrite string_body_quotes by done. simpl. rewrite text_of_chars_of.
    by destruct (length (double_quotes (chars_of s) ++ ["'"%char])).
  - apply splits_after, passes_quoted.
Qed.

(** C33: Statements are read back as they are written.  Take any statement with names the scanner
    takes for names, literals that are integers from 0 to 2^63 - 1, texts, booleans or nulls (every REAL
    literal is excluded, and so is a negative number), lists the grammar wants not empty, and DESC only
    with a column to order by, written with upper-case keywords, a space after each token, texts
    quoted, and conditions with no more parentheses than they need.  With a semicolon after it, and
    whatever follows, the splitter cuts out exactly its text, and [parse_statement] reads exactly the
    statement from that. *)
Theorem statements_read_back s rest :
  statement_ok s = true →
  extract_statement (statement_text s +:+ text_of (";"%char :: rest)) =
    Some (statement_text s, S (String.length (statement_text s))) ∧
  parse_statement (statement_text s) = Ok s.
Proof.
  intros Hs. pose proof (statement_written s Hs) as Hw. unfold statement_text. split.
  - rewrite <- text_of_app, length_text_of. by apply splits_after, render_passes.
  - unfold parse_statement. rewrite tokenize_render by done. unfold mbind, result_bind.
    by apply whole_reads, statement_ok_printable.
Qed.
(** [SELECT id, name FROM t WHERE NOT (a = 'it''s; x' OR b >= 7) AND c <> NULL ORDER BY id DESC LIMIT 10] *)
Definition example_select : statement :=
  SSelect (Select "t" ["id"; "name"]
    (Some (Logical and_op
      (Negation (Logical or_op (Comparison "a" c_eq (LText "it's; x")) (Comparison "b" c_gte (LInteger 7))))
      (Comparison "c" c_neq LNull)))
    (Some "id") descending (Some 10)).
Lemma statements_read_back_witness :
  statement_ok example_select = true ∧
  extract_statement (statement_text example_select +:+ text_of (";"%char :: [])) =
    Some (statement_text example_select, S (String.length (statement_text example_select))) ∧
  parse_statement (statement_text example_select) = Ok example_select.
Proof.
  split; [vm_compute; reflexivity|]. apply (statements_read_back example_select []). vm_compute. reflexivity.
Defined.

(** The statement splitter does not know comments, which the scanner does.  After a comment
    with an apostrophe in it, the splitter takes everything that follows for the inside of a
    string and never finds the end of the statement, although scanner and parser accept the very
    text. *)
Theorem apostrophe_in_comment_blocks_splitter :
  let text := text_of (chars_of "-- don't" ++ "010"%char :: chars_of "SELECT id FROM t;") in
  extract_statement text = None ∧
  parse_statement text = Ok (SSelect (Select "t" ["id"] None None ascending None)).
Proof. split; vm_compute; reflexivity. Qed.

(** ** Statements and the heap *)
Section statements.
Context {W : Type} `{HW : storage_reliable W} (config : heap_config).
Implicit Types (t : transaction) (h : heap_state) (w : W) (A : amap).

(** Queries change nothing.  A [SELECT], and the listing of the tables, leaves an open heap
    representing the map it represented and every file with the content it had, whatever the
    outcome, even if the storage fails meanwhile. *)
Theorem queries_change_nothing h w A p self text s :
  heap_inv config h w A p → parse_statement text = Ok (SSelect s) →
  (∃ r h' w', sql_execute self text (h, w) = (r, (h', w')) ∧ heap_inv config h' w' A p ∧ same_files w w') ∧
  (∃ r h' w', list_tables self (h, w) = (r, (h', w')) ∧ heap_inv config h' w' A p ∧ same_files w w').
Proof.
  intros Hi Hp. split.
  - unfold sql_execute. rewrite Hp.
    m_run (eq_refl : lift_result (Ok (SSelect s)) (h, w) = (Ok (SSelect s), (h, w))).
    apply in_quiet_transaction; [done|]. apply quiet_select.
  - apply in_quiet_transaction; [done|]. apply quiet_bind; [apply quiet_object_root|intros ?].
    apply quiet_bind; [apply quiet_read_object|intros ?]. apply quiet_ret.
Qed.

(** C26: A statement is at most one commit, the last thing it does.  Whatever the text, either
    [execute] ends without a commit, and then the heap represents the map it represented and the
    files are as they were; or all it does to the heap is the commit of the roots its own
    transaction changed, and it fails exactly if that commit fails. *)
Theorem statement_commits_once h w A p self text :
  heap_inv config h w A p →
  ∃ t1 h1 w1, heap_inv config h1 w1 A p ∧ same_files w w1 ∧ tx_ok t1 ∧
    ((∃ r, sql_execute self text (h, w) = (r, (h1, w1))) ∨
     ∃ x r h' w', commit (hs_next_transaction h) (updates_of t1) (h1, w1) = (r, (h', w')) ∧
       sql_execute self text (h, w) = ((_ ← r; Ok x), (h', w'))).
Proof.
  intros Hi. destruct (parse_statement text) as [stmt|e] eqn:Hp; unfold sql_execute; rewrite Hp.
  2:{ exists (Transaction self 0 true [] ∅), h, w.
      split_and!; [done|apply same_files_refl|apply new_transaction_ok|left; by eexists]. }
  m_run (eq_refl : lift_result (Ok stmt) (h, w) = (Ok stmt, (h, w))). unfold in_transaction. destruct (begin_spec config self h w A p Hi) as [[_ E]|(h1 & E & Hi1)].
  { rewrite (bind_throw _ _ _ _ _ E). exists (Transaction self 0 true [] ∅), h, w.
    split_and!; [done|apply same_files_refl|apply new_transaction_ok|left; by eexists]. }
  m_run E. set (t0 := Transaction self (hs_next_transaction h) true [] ∅).
  assert (tx_ok t0) as Ht0 by apply new_transaction_ok. unfold with_local.
  destruct stmt as [s|s|s|s|s].
  3:{ destruct (quiet_select config s t0 h1 w A p Hi1 Ht0 eq_refl) as (r & t2 & h2 & w2 & E2 & [B1 B2 _ _ _ B6]).
      exists t2, h2, w2. split_and!; [done|done|done|left]. exists r. simpl. by rewrite E2. }
  all: match goal with |- context [execute_statement ?st] =>
         destruct (commits_last_statement config st ltac:(by intros []) t0 h1 w A p Hi1 Ht0 eq_refl)
           as (t2 & h2 & w2 & [B1 B2 B3 B4 _ B6] & Hcase) end;
    exists t2, h2, w2; (split_and!; [done|done|done|]);
    (destruct Hcase as [[e ->]|[x ->]]; [left; by eexists|right]);
    exists x; unfold transaction_commit, mbind, M_bind, on_fst, on_snd, get, modify; rewrite B3; cbn [negb];
    change (hs_next_transaction h) with (tr_id t0); rewrite <- B4;
    destruct (commit (tr_id t2) (updates_of t2) (h2, w2)) as [r [h3 w3]]; exists r, h3, w3;
    (split; [done|]); by destruct r.
Qed.
End statements.

(** ** Statements and the rows of a table *)

(** A table with an integer and a text column, its rows, and a transaction that has loaded it. *)
Definition sample_columns : list column_definition := [ColumnDefinition "id" ct_integer; ColumnDefinition "name" ct_text].
Definition sample_row (id : Z) (name : string) : value := VObject [("id", VInteger id); ("name", VString name)].
Definition sample_rows : list value := [sample_row 1 "a"; sample_row 2 "b"; sample_row 3 "c"].
Definition table_tx : transaction :=
  add_root "sql.table.t" (LoadedRoot 1 (Some (stored (VArray sample_rows))) true) (VArray sample_rows)
    (Transaction 100 1 true [] ∅).
Definition small_ids : expression := Comparison "id" c_lte (LInteger 2).
Definition any_state : heap_state * Disk.disk := (opened_heap, opened_disk).
Lemma table_tx_holds : holds table_tx 0 (VArray sample_rows).
Proof.
  split; [apply add_root_ok; [apply new_transaction_ok|done]|]. split; [done|]. eexists. split; [done|].
  vm_compute. reflexivity.
Qed.
Lemma sample_row_typed id name : typed_row sample_columns (sample_row id name).
Proof. by apply (build_row_typed _ ["id"; "name"] [LInteger id; LText name]). Qed.
Lemma sample_rows_typed : Forall (typed_row sample_columns) sample_rows.
Proof. repeat constructor; apply sample_row_typed. Qed.
Lemma small_ids_ok : where_ok sample_columns (Some small_ids).
Proof. by exists ct_integer. Qed.

Section rows.
Context {W : Type} `{HW : storage W}.
Implicit Types (t : transaction) (s : heap_state * W).

(** C27: The rows of a table conform to its columns.  On a table whose rows have exactly its
    columns, each with a value of the column's type or null, the loops of [INSERT], [UPDATE] and
    [DELETE] leave such a table whenever they return, whatever values and conditions the
    statement has. *)
Theorem tables_stay_typed i columns rows t s n :
  holds t i (VArray rows) → Forall (typed_row columns) rows →
  let typed t' := ∃ rows', holds t' i (VArray rows') ∧ Forall (typed_row columns) rows' in
  (∀ targets tuples x t' s', insert_rows (Z.of_nat i + 1) columns targets tuples n (t, s) = (Ok x, (t', s')) → typed t') ∧
  (∀ stmt x t' s', update_rows (Z.of_nat i + 1) (type_by_name columns) stmt rows 0 n (t, s) = (Ok x, (t', s')) → typed t') ∧
  (∀ where_ x t' s', delete_rows (Z.of_nat i + 1) where_ rows 0 n (t, s) = (Ok x, (t', s')) → typed t').
Proof.
  intros Ht Hr typed. split_and!.
  - intros targets tuples x t' s' E.
    destruct (runs_inv _ _ _ _ _ _ _ _ (runs_insert i columns targets tuples rows n t s Ht) E) as (v & Ev & Hv).
    destruct (new_rows columns targets tuples) as [l|] eqn:El; [|done]. injection Ev as _ <-.
    exists (rows ++ l). split; [done|]. apply Forall_app. split; [done|by eapply new_rows_typed].
  - intros stmt x t' s' E.
    destruct (runs_inv _ _ _ _ _ _ _ _ (runs_update i (type_by_name columns) stmt rows [] n t s Ht) E) as (v & Ev & Hv).
    destruct (changed_rows _ stmt rows) as [r|] eqn:El; [|done]. injection Ev as _ <-.
    exists r.1. split; [done|]. by eapply changed_rows_typed.
  - intros where_ x t' s' E.
    destruct (runs_inv _ _ _ _ _ _ _ _ (runs_delete i where_ rows [] n t s Ht) E) as (v & Ev & Hv).
    destruct (kept_rows where_ rows) as [l|] eqn:El; [|done]. injection Ev as _ <-.
    exists l. split; [done|]. by eapply kept_rows_typed.
Qed.

(** [INSERT] appends one row for a tuple that fits its target columns: the row holds the
    coerced literals in the targets and null in every other column, the rows before it are as
    they were, and no other root is touched. *)
Theorem insert_appends_row i columns targets tuple rows t s :
  holds t i (VArray rows) → length targets = length tuple → NoDup targets →
  Forall (fits (type_by_name columns)) (zip targets tuple) →
  ∃ row t', insert_rows (Z.of_nat i + 1) columns targets [tuple] 0 (t, s) = (Ok 1, (t', s)) ∧
    holds t' i (VArray (rows ++ [VObject row])) ∧ edited i t t' ∧
    (∀ name lit, (name, lit) ∈ zip targets tuple → ∃ type lit', type_by_name columns !! name = Some type ∧
       coerce lit type name = Ok lit' ∧ om_find name row = Some (literal_value lit')) ∧
    (∀ name, name ∈ cd_name <$> columns → name ∉ targets → om_find name row = Some VNull).
Proof.
  intros Ht Hl Hn Hf. destruct (build_row_assigned columns targets tuple Hl Hn Hf) as (m & E & Hm & [H1 H2]).
  pose proof (runs_insert i columns targets [tuple] rows 0 t s Ht) as H.
  cbn [new_rows] in H. rewrite E in H. destruct H as (t' & E' & Hh & He).
  exists m, t'. split_and!; [done|done|done|done|].
  intros name Hin Hout. rewrite H2 by by rewrite (proj1 (zip_fst_snd targets tuple Hl)).
  rewrite null_fields_find by constructor. by rewrite decide_True.
Qed.

(** [UPDATE] changes the selected rows and only them.  On a typed table, with a condition
    whose literals can be compared with its columns and assignments that fit their columns, the
    loop returns the number of rows the condition holds for; each of them has the assigned
    columns set to the coerced literals and the others as they were; every other row, and every
    other root, is as it was. *)
Theorem update_changes_selected i columns stmt rows t s :
  holds t i (VArray rows) → Forall (typed_row columns) rows → where_ok columns (up_where stmt) →
  Forall (fits (type_by_name columns)) (up_assignments stmt) → NoDup (up_assignments stmt).*1 →
  ∃ rows' t', update_rows (Z.of_nat i + 1) (type_by_name columns) stmt rows 0 0 (t, s) =
      (Ok (size (filter (λ row, picks (up_where stmt) row = true) rows)), (t', s)) ∧
    holds t' i (VArray rows') ∧ edited i t t' ∧ Forall2 (row_updated columns stmt) rows rows'.
Proof.
  intros Ht Hr Hw Hf Hn. destruct (changed_rows_updated columns stmt rows Hr Hw Hf Hn) as (rows' & E & Hu).
  pose proof (runs_update i (type_by_name columns) stmt rows [] 0 t s Ht) as H. rewrite E in H.
  destruct H as (t' & E' & Hh & He). by exists rows', t'.
Qed.

(** [DELETE] removes the selected rows and only them.  On a typed table, with a condition
    whose literals can be compared with its columns, the loop returns the number of rows the
    condition holds for and leaves the others, in their order; no other root is touched. *)
Theorem delete_removes_selected i columns where_ rows t s :
  holds t i (VArray rows) → Forall (typed_row columns) rows → where_ok columns where_ →
  ∃ t', delete_rows (Z.of_nat i + 1) where_ rows 0 0 (t, s) =
      (Ok (size (filter (λ row, picks where_ row = true) rows)), (t', s)) ∧
    holds t' i (VArray (filter (λ row, picks where_ row = false) rows)) ∧ edited i t t'.
Proof.
  intros Ht Hr Hw. pose proof (runs_delete i where_ rows [] 0 t s Ht) as H.
  rewrite (kept_rows_filter columns) in H by done. destruct H as (t' & E & Hh & He). exists t'.
  split_and!; [|done|done]. simpl in E. rewrite E. do 2 f_equal. clear.
  induction rows as [|row rows IH]; [done|]. rewrite !filter_cons. unfold size in *. simpl.
  destruct (picks where_ row); simpl in *; lia.
Qed.

End rows.

(** ** The properties at work *)
Lemma queries_change_nothing_witness :
  (∃ r h' w', sql_execute 100 "SELECT id FROM t" (opened_heap, opened_disk) = (r, (h', w')) ∧
     heap_inv sample_config h' w' ∅ ∅ ∧ same_files opened_disk w') ∧
  (∃ r h' w', list_tables 100 (opened_heap, opened_disk) = (r, (h', w')) ∧
     heap_inv sample_config h' w' ∅ ∅ ∧ same_files opened_disk w').
Proof.
  apply (queries_change_nothing sample_config opened_heap opened_disk ∅ ∅ 100 "SELECT id FROM t"
    (Select "t" ["id"] None None ascending None)); [exact sample_inv|vm_compute; reflexivity].
Defined.
Lemma statement_commits_once_witness :
  ∃ t1 h1 w1, heap_inv sample_config h1 w1 ∅ ∅ ∧ same_files opened_disk w1 ∧ tx_ok t1 ∧
    ((∃ r, sql_execute 100 "CREATE TABLE t (id INTEGER)" (opened_heap, opened_disk) = (r, (h1, w1))) ∨
     ∃ x r h' w', commit (hs_next_transaction opened_heap) (updates_of t1) (h1, w1) = (r, (h', w')) ∧
       sql_execute 100 "CREATE TABLE t (id INTEGER)" (opened_heap, opened_disk) = ((_ ← r; Ok x), (h', w'))).
Proof.
  exact (statement_commits_once sample_config opened_heap opened_disk ∅ ∅ 100 "CREATE TABLE t (id INTEGER)" sample_inv).
Defined.
Lemma tables_stay_typed_witness :
  ∃ t' rows', delete_rows 1 (Some small_ids) sample_rows 0 0 (table_tx, any_state) = (Ok 2, (t', any_state)) ∧
    holds t' 0 (VArray rows') ∧ Forall (typed_row sample_columns) rows'.
Proof.
  assert (delete_rows 1 (Some small_ids) sample_rows 0 0 (table_tx, any_state) =
    (Ok 2, ((delete_rows 1 (Some small_ids) sample_rows 0 0 (table_tx, any_state)).2.1, any_state))) as E
    by (vm_compute; reflexivity).
  destruct (tables_stay_typed 0 sample_columns sample_rows table_tx any_state 0 table_tx_holds sample_rows_typed)
    as (_ & _ & H). destruct (H _ _ _ _ E) as (rows' & H1 & H2). eexists _, rows'. split; [exact E|]. split; assumption.
Defined.
Lemma insert_appends_row_witness :
  ∃ row t', insert_rows 1 sample_columns ["id"] [[LInteger 4]] 0 (table_tx, any_state) = (Ok 1, (t', any_state)) ∧
    holds t' 0 (VArray (sample_rows ++ [VObject row])) ∧ om_find "name" row = Some VNull.
Proof.
  destruct (insert_appends_row 0 sample_columns ["id"] [LInteger 4] sample_rows table_tx any_state table_tx_holds)
    as (row & t' & H1 & H2 & _ & _ & H3); [reflexivity|apply NoDup_singleton| |].
  - constructor; [|constructor]. exists ct_integer, (LInteger 4). split; reflexivity.
  - exists row, t'. split; [exact H1|]. split; [exact H2|]. apply H3; vm_compute; [by right; left|].
    intros [?|?%not_elem_of_nil]%elem_of_cons; done.
Defined.
Lemma update_changes_selected_witness :
  let stmt := Update "t" [("name", LText "z")] (Some small_ids) in
  ∃ rows' t', update_rows 1 (type_by_name sample_columns) stmt sample_rows 0 0 (table_tx, any_state) =
      (Ok 2, (t', any_state)) ∧
    holds t' 0 (VArray rows') ∧ edited 0 table_tx t' ∧ Forall2 (row_updated sample_columns stmt) sample_rows rows'.
Proof.
  apply (update_changes_selected 0 sample_columns (Update "t" [("name", LText "z")] (Some small_ids)) sample_rows
    table_tx any_state table_tx_holds sample_rows_typed small_ids_ok).
  - constructor; [|constructor]. exists ct_text, (LText "z"). split; reflexivity.
  - apply NoDup_singleton.
Defined.
Lemma delete_removes_selected_witness :
  ∃ t', delete_rows 1 (Some small_ids) sample_rows 0 0 (table_tx, any_state) = (Ok 2, (t', any_state)) ∧
    holds t' 0 (VArray [sample_row 3 "c"]) ∧ edited 0 table_tx t'.
Proof.
  exact (delete_removes_selected 0 sample_columns (Some small_ids) sample_rows table_tx any_state
    table_tx_holds sample_rows_typed small_ids_ok).
Defined.
(** Two rows with equal names, after which one with a smaller name comes first. *)
Definition named_rows : list value := [sample_row 1 "b"; sample_row 2 "b"; sample_row 3 "c"; sample_row 0 "a"].
Definition named_tx : transaction :=
  add_root "sql.table.t" (LoadedRoot 1 (Some (stored (VArray named_rows))) true) (VArray named_rows)
    (Transaction 100 1 true [] ∅).

(** ** Where the code and its intent part *)

(** With a NaN among the keys the comparison is no strict weak order. *)
Theorem nan_keys_undefined :
  sort_rows (Some "k") ascending [[("k", VInteger 2)]; [("k", VNumber (2047 * 2 ^ 52 + 1))]; [("k", VInteger 1)]] =
  Throw (undefined "std::stable_sort without a strict weak order").
Proof. vm_compute. reflexivity. Qed.

(** Integers are compared as doubles: two different integers above 2^53 are equal for a
    condition. *)
Theorem wide_integers_compare_equal :
  compare_value_literal (VInteger (2 ^ 53 + 1)) (LInteger (2 ^ 53)) = Ok (Some 0) ∧
  evaluate (Comparison "id" c_eq (LInteger (2 ^ 53))) [("id", VInteger (2 ^ 53 + 1))] = Ok true.
Proof. split; vm_compute; reflexivity. Qed.
(** Nulls come last in ascending and first in descending order. *)
Theorem nulls_first_descending :
  let rows := [[("k", VInteger 1)]; [("k", VNull)]; [("k", VInteger 2)]] in
  sort_rows (Some "k") ascending rows = Ok [[("k", VInteger 1)]; [("k", VInteger 2)]; [("k", VNull)]] ∧
  sort_rows (Some "k") descending rows = Ok [[("k", VNull)]; [("k", VInteger 2)]; [("k", VInteger 1)]].
Proof. split; vm_compute; reflexivity. Qed.
