(* ===== verification/JsonTheorems.v ===== *)
(** * Properties of the JSON reader and writer. *)
From stdpp Require Import pretty.
From S2P Require Import Prelude.
From S2P Require Import OrderedMap.
From S2P Require Import Value.
From S2P Require Import Double.
From S2P Require Import Chars.
From S2P Require Import Json.
From Stdlib Require Import Ascii.
#[local] Open Scope Z_scope.

(** ** Consumption *)
Definition is_json (e : error) : Prop := ∃ m, e = json_error m.
Definition left (c : cursor) : nat := length (rest c).
(** [reads n m c]: from [c], [m] throws a [json_error] or consumes at least [n] characters. *)
Definition reads {A} (n : nat) (m : json A) (c : cursor) : Prop :=
  match m c with
  | (Ok _, c') => (left c' + n ≤ left c)%nat
  | (Throw e, _) => is_json e
  end.
Lemma reads_weaken {A} n k (m : json A) c : (k ≤ n)%nat → reads n m c → reads k m c.
Proof. unfold reads. destruct (m c) as [[?|?] ?]; [lia|done]. Qed.
Lemma reads_bind {A B} n k (m : json A) (f : A → json B) c :
  reads n m c → (∀ a c', (left c' + n ≤ left c)%nat → reads k (f a) c') → reads (n + k) (m ≫= f) c.
Proof.
  unfold reads, mbind, M_bind. destruct (m c) as [[a|e] c']; [|done]. intros Hl Hf. specialize (Hf a c' Hl).
  destruct (f a c') as [[?|?] ?]; [lia|done].
Qed.
Lemma reads_ret {A} (a : A) c : reads 0 (mret a) c.
Proof. unfold reads; simpl. lia. Qed.
Lemma reads_fail {A} n message c : reads (A:=A) n (fail message) c.
Proof. by eexists. Qed.
Lemma reads_get {B} n (f : cursor → json B) c : reads n (f c) c → reads n (c' ← get; f c') c.
Proof. done. Qed.
Lemma left_skip n c : (n ≤ left c)%nat → (left (skip n c) + n = left c)%nat.
Proof. unfold left, skip. simpl. rewrite length_drop. lia. Qed.
Lemma reads_skip n c : (n ≤ left c)%nat → reads n (modify (skip n)) c.
Proof. intros Hn. unfold reads, modify. pose proof (left_skip n c Hn). lia. Qed.
Lemma reads_take_while p c : reads 0 (take_while p) c.
Proof.
  unfold take_while. apply reads_get. apply (reads_bind 0 0); [|intros; apply reads_ret].
  eapply reads_weaken; [|apply reads_skip]; [lia|]. pose proof (span_app p (rest c)) as E.
  unfold left. rewrite <- E at 2. rewrite length_app. lia.
Qed.
Lemma reads_skip_space c : reads 0 skip_space c.
Proof. apply (reads_bind 0 0); [apply reads_take_while|intros; apply reads_ret]. Qed.
Lemma reads_front_is p c : reads 0 (front_is p) c.
Proof. apply reads_get, reads_ret. Qed.
(** A character that is consumed if it is there: in the first case the input got shorter. *)
Lemma reads_if_consume {A} r n k x (m1 m2 : json A) c :
  (r ≤ S n)%nat → (r ≤ k)%nat → (∀ c', (left c' + 1 ≤ left c)%nat → reads n m1 c') → reads k m2 c →
  reads r (b ← consume x; if (b : bool) then m1 else m2) c.
Proof.
  intros Hn Hk H1 H2. unfold consume, front_is. unfold reads, mbind, M_bind, get, modify, mret, M_ret in *. simpl.
  destruct (rest c) as [|y l] eqn:E; simpl.
  - destruct (m2 c) as [[?|?] ?]; [lia|done].
  - destruct (char_is y x).
    + pose proof (left_skip 1 c) as Hl. unfold left in Hl at 1. rewrite E in Hl. simpl in Hl.
      specialize (H1 (skip 1 c) ltac:(lia)). destruct (m1 (skip 1 c)) as [[?|?] ?]; [lia|done].
    + destruct (m2 c) as [[?|?] ?]; [lia|done].
Qed.
Lemma reads_if_consume_0 {A} x (m1 m2 : json A) c :
  (∀ c', (left c' + 1 ≤ left c)%nat → reads 0 m1 c') → reads 0 m2 c →
  reads 0 (b ← consume x; if (b : bool) then m1 else m2) c.
Proof. intros. apply (reads_if_consume 0 0 0); auto with arith. Qed.
Lemma reads_unless_consume {A} message x (m : json A) c :
  (∀ c', (left c' + 1 ≤ left c)%nat → reads 0 m c') →
  reads 0 (b ← consume x; if negb b then fail message else m) c.
Proof.
  intros H. pose proof (reads_if_consume_0 x m (fail message) c H (reads_fail 0 message c)) as Hr.
  revert Hr. unfold reads, mbind, M_bind. by destruct (consume x c) as [[[]|] ?].
Qed.
Lemma reads_consume x c : reads 0 (consume x) c.
Proof.
  unfold consume. apply (reads_bind 0 0); [apply reads_front_is|]. intros b c' Hl.
  unfold reads, mbind, M_bind, modify. destruct b; simpl; [|lia]. unfold left, skip; simpl. rewrite length_drop. lia.
Qed.
Lemma reads_expect token c : reads 0 (expect token) c.
Proof.
  apply reads_get. case_match; [apply reads_fail|]. unfold reads, modify, left, skip; simpl. rewrite length_drop. lia.
Qed.
Lemma reads_next c : (1 ≤ left c)%nat → reads 1 next c.
Proof.
  intros Hl. apply reads_get. unfold left in *. destruct (rest c) as [|x l] eqn:E; [simpl in *; lia|].
  apply (reads_bind 1 0); [|intros; apply reads_ret]. apply reads_skip. unfold left. by rewrite E.
Qed.
Create HintDb json.
#[export] Hint Resolve reads_ret reads_fail reads_take_while reads_skip_space reads_front_is reads_consume
  reads_expect : json.
#[export] Hint Extern 1 (reads _ (_ ← get; _) _) => apply reads_get : json.
#[export] Hint Extern 2 (reads 0 (_ ≫= _) _) => apply (reads_bind 0 0); [|intros ? ? ?] : json.
#[export] Hint Extern 1 (reads _ (if ?b then _ else _) _) => destruct b eqn:? : json.

(** *** Numbers *)
Lemma reads_some_digits message c : reads 0 (some_digits message) c.
Proof. unfold some_digits. auto with json. Qed.
#[export] Hint Resolve reads_some_digits : json.
Lemma reads_whole_part c : reads 0 parse_whole_part c.
Proof. unfold parse_whole_part. auto with json. Qed.
Lemma reads_exponent c : reads 0 parse_exponent c.
Proof.
  unfold parse_exponent. apply (reads_bind 0 0); [auto with json|]. intros b c' _. destruct b; [|auto with json].
  apply (reads_bind 0 0); [|auto 10 with json]. unfold reads, modify, left, skip; simpl. rewrite length_drop. lia.
Qed.
#[export] Hint Resolve reads_whole_part reads_exponent : json.
Lemma reads_number c : reads 0 parse_number c.
Proof.
  unfold parse_number. apply (reads_bind 0 0); [auto with json|]. intros negative c1 _. apply reads_get.
  case_match; [auto with json|]. do 4 (apply (reads_bind 0 0); [auto with json|intros ? ? _]).
  case_match; auto with json.
Qed.
#[export] Hint Resolve reads_number : json.

(** *** Strings *)
Lemma reads_bind_next {A} (f : ascii → json A) c :
  (1 ≤ left c)%nat → (∀ x c', (left c' + 1 ≤ left c)%nat → reads 0 (f x) c') → reads 0 (next ≫= f) c.
Proof.
  intros Hl Hf. eapply (reads_weaken (1 + 0)); [lia|]. apply reads_bind; [by apply reads_next|done].
Qed.
Lemma reads_hex_digits n acc c : (n ≤ left c)%nat → reads n (hex_digits n acc) c.
Proof.
  revert acc c. induction n as [|n IH]; intros acc c Hl; [apply reads_ret|]. cbn [hex_digits].
  assert (1 ≤ left c)%nat as Hl1 by lia. pose proof (reads_next c Hl1) as Hx.
  unfold next in *. unfold reads in Hx |- *. unfold mbind, M_bind, get, modify, mret, M_ret in Hx |- *.
  unfold left in Hl, Hl1. destruct (rest c) as [|x l] eqn:E; [simpl in *; lia|]. cbn zeta.
  destruct (hex_digit x =? 16); [by eexists|].
  assert (left (skip 1 c) + 1 = left c)%nat as Hs by (apply left_skip; unfold left; rewrite E; simpl; lia).
  assert (left c = S (length l)) as Hlc by (unfold left; by rewrite E).
  specialize (IH (Z.lor (Z.shiftl acc 4 mod 2 ^ 32) (hex_digit x)) (skip 1 c) ltac:(simpl in *; lia)).
  unfold reads in IH. destruct (hex_digits n _ (skip 1 c)) as [[?|?] ?]; [lia|done].
Qed.
Lemma reads_hex_escape c : reads 0 parse_hex_escape c.
Proof.
  apply reads_get. destruct (Z.ltb_spec (size (rest c)) 4); [apply reads_fail|].
  eapply (reads_weaken 4); [lia|]. apply reads_hex_digits. unfold size, left in *. lia.
Qed.
#[export] Hint Resolve reads_hex_escape : json.
Lemma reads_unicode c : reads 0 parse_unicode c.
Proof.
  unfold parse_unicode. apply (reads_bind 0 0); [auto with json|]. intros code c' _.
  case_match; [|auto with json]. apply reads_get. case_match; [apply reads_fail|].
  apply (reads_bind 0 0); [|auto 10 with json]. unfold reads, modify, left, skip; simpl. rewrite length_drop. lia.
Qed.
#[export] Hint Resolve reads_unicode : json.
Lemma reads_escape c : (1 ≤ left c)%nat → reads 0 parse_escape c.
Proof. intros Hl. apply reads_bind_next; [done|]. intros x c' _. auto 20 with json. Qed.
Lemma reads_string_loop fuel output c : (left c ≤ fuel)%nat → reads 0 (string_loop fuel output) c.
Proof.
  revert output c. induction fuel as [|fuel IH]; intros output c Hl; simpl; apply reads_get;
    unfold left in Hl; destruct (rest c) as [|x more] eqn:E; simpl in Hl; auto with json; [lia|].
  assert (left (skip 1 c) + 1 = left c)%nat as Hs by (apply left_skip; unfold left; rewrite E; simpl; lia).
  assert (left c = S (length more)) as Hlc by (unfold left; by rewrite E).
  eapply (reads_weaken (1 + 0)); [lia|]. unfold reads at 1. unfold mbind, M_bind, modify.
  match goal with |- context [(if char_is x quote then ?a else ?b) (skip 1 c)] =>
    assert (reads 0 (if char_is x quote then a else b) (skip 1 c)) as Hr end.
  { destruct (char_is x quote); [apply reads_ret|]. destruct (code x <? 32); [apply reads_fail|].
    destruct (negb (char_is x backslash)); [apply IH; lia|].
    destruct more as [|y more]; [apply reads_fail|].
    apply (reads_bind 0 0); [apply reads_escape; simpl in *; lia|]. intros text c' Hl'. apply IH. lia. }
  unfold reads in Hr. match goal with |- context [match ?m with _ => _ end] => destruct m as [[?|?] ?] end; [lia|done].
Qed.
Lemma reads_string c : reads 0 parse_string c.
Proof.
  unfold parse_string. apply (reads_bind 0 0); [auto with json|]. intros opened c' _.
  destruct (negb opened); [apply reads_fail|]. apply reads_get, reads_string_loop. done.
Qed.
#[export] Hint Resolve reads_string : json.

(** *** Values *)
Lemma reads_bind_skip {A} (f : () → json A) c :
  (1 ≤ left c)%nat → (∀ c', (left c' + 1 ≤ left c)%nat → reads 0 (f ()) c') → reads 0 (modify (skip 1) ≫= f) c.
Proof.
  intros Hl Hf. eapply (reads_weaken (1 + 0)); [lia|]. apply reads_bind; [by apply reads_skip|]. intros []. apply Hf.
Qed.
Lemma reads_values fuel c :
  ((2 * left c + 1 ≤ fuel)%nat → reads 0 (parse_value fuel) c) ∧
  (∀ l, (2 * left c + 2 ≤ fuel)%nat → reads 0 (array_loop fuel l) c) ∧
  (∀ m, (2 * left c + 2 ≤ fuel)%nat → reads 0 (object_loop fuel m) c).
Proof.
  revert c. induction fuel as [|fuel IH]; intros c; (split_and!; [intros Hf|intros l Hf|intros m Hf]); try lia.
  - cbn [parse_value]. apply reads_get. destruct (rest c) as [|x more] eqn:E; [apply reads_fail|].
    assert (1 ≤ left c)%nat as Hl by (unfold left; rewrite E; simpl; lia).
    repeat (match goal with |- reads _ (if ?b then _ else _) _ => destruct b end; [solve [auto with json]|]).
    destruct (char_is x "[").
    { apply reads_bind_skip; [done|]. intros c1 H1. apply (reads_bind 0 0); [auto with json|]. intros _ c2 H2.
      apply reads_if_consume_0; [auto with json|]. apply IH. lia. }
    destruct (char_is x "{").
    { apply reads_bind_skip; [done|]. intros c1 H1. apply (reads_bind 0 0); [auto with json|]. intros _ c2 H2.
      apply reads_if_consume_0; [auto with json|]. apply IH. lia. }
    auto with json.
  - cbn [array_loop]. apply (reads_bind 0 0); [auto with json|]. intros _ c1 H1.
    apply (reads_bind 0 0); [apply IH; lia|]. intros item c2 H2.
    apply (reads_bind 0 0); [auto with json|]. intros _ c3 H3.
    apply reads_if_consume_0; [auto with json|]. 
    apply reads_unless_consume. intros c4 H4. apply IH. lia.
  - cbn [object_loop]. apply (reads_bind 0 0); [auto with json|]. intros _ c1 H1.
    apply (reads_bind 0 0); [auto with json|]. intros b c2 H2. destruct (negb b); [apply reads_fail|].
    apply (reads_bind 0 0); [auto with json|]. intros key c3 H3.
    apply (reads_bind 0 0); [auto with json|]. intros _ c4 H4.
    apply reads_unless_consume. intros c5 H5. apply (reads_bind 0 0); [auto with json|]. intros _ c6 H6.
    destruct (om_contains key m); [apply reads_fail|].
    apply (reads_bind 0 0); [apply IH; lia|]. intros item c7 H7.
    apply (reads_bind 0 0); [auto with json|]. intros _ c8 H8.
    apply reads_if_consume_0; [auto with json|]. apply reads_unless_consume. intros c9 H9. apply IH. lia.
Qed.

(** ** Parsing *)

(** Parsing ends on every text, with a value or with [json_error].  No text makes the parser
    read past its end, and the fuel it is given is enough for any nesting. *)
Theorem parse_json_total input :
  match parse input with Ok _ => True | Throw e => ∃ m, e = json_error m end.
Proof.
  unfold parse, run. set (m := skip_space ≫= _). enough (reads 0 m (Cursor 0 (chars_of input))) as H.
  { unfold reads in H. destruct (m _) as [[?|?] ?]; [done|exact H]. }
  apply (reads_bind 0 0); [auto with json|]. intros _ c H. 
  assert (left (Cursor 0 (chars_of input)) = String.length input) as El.
  { unfold left. simpl. clear. induction input as [|x s IH]; [done|]. simpl. by rewrite IH. }
  apply (reads_bind 0 0); [apply (reads_values (parse_fuel input) c); unfold parse_fuel; lia|]. intros v c1 H1.
  apply (reads_bind 0 0); [auto with json|]. intros _ c2 H2. apply reads_get. case_match; auto with json.
Qed.

(** ** What was written *)

(** From any position on [text], [m] gives [a] and stops before [l]. *)
Definition gives {A} (m : json A) (text : list ascii) (a : A) (l : list ascii) : Prop :=
  ∀ p, ∃ p', m (Cursor p (text ++ l)) = (Ok a, Cursor p' l).
Lemma gives_bind {A B} (m : json A) (f : A → json B) t1 t2 a b l :
  gives m t1 a (t2 ++ l) → gives (f a) t2 b l → gives (m ≫= f) (t1 ++ t2) b l.
Proof.
  intros H1 H2 p. destruct (H1 p) as (p1 & E1). rewrite <- app_assoc. m_run E1. apply H2.
Qed.
Lemma gives_ret {A} (a : A) l : gives (mret a) [] a l.
Proof. intros p. by exists p. Qed.
Lemma gives_consume x l : gives (consume x) [x] true l.
Proof.
  intros p. exists (p + 1). unfold consume, front_is, mbind, M_bind, get, mret, M_ret. simpl.
  unfold char_is. by rewrite bool_decide_true.
Qed.
Lemma gives_no_consume x l : starts (λ y, char_is y x) l = false → gives (consume x) [] false l.
Proof.
  intros Hl p. exists p. unfold consume, front_is, mbind, M_bind, get, mret, M_ret. simpl.
  destruct l as [|y l]; [done|]. simpl in Hl. by rewrite Hl.
Qed.
Lemma gives_front p l : gives (front_is p) [] (starts p l) l.
Proof. intros q. exists q. by destruct l. Qed.
Lemma gives_take_while p run l :
  Forall (λ c, p c = true) run → starts p l = false → gives (take_while p) run run l.
Proof.
  intros Hr Hl q. unfold take_while, mbind, M_bind, get, modify, mret, M_ret. cbn [rest]. rewrite span_all by done.
  unfold skip. simpl. rewrite drop_app_length. by eexists.
Qed.
Lemma gives_no_space l : starts json_space l = false → gives skip_space [] tt l.
Proof.
  intros Hl q. destruct (gives_take_while json_space [] l) with q as (q' & E); [by constructor|done|].
  exists q'. unfold skip_space. by m_run E.
Qed.

(** *** Strings *)
Lemma hex_escape_run x1 x2 x3 x4 l p :
  (hex_digit x1 =? 16) = false → (hex_digit x2 =? 16) = false → (hex_digit x3 =? 16) = false → (hex_digit x4 =? 16) = false →
  ∃ p', parse_hex_escape (Cursor p (x1 :: x2 :: x3 :: x4 :: l)) =
    hex_digits 0 (foldl (λ acc x, Z.lor (Z.shiftl acc 4 mod 2 ^ 32) (hex_digit x)) 0 [x1; x2; x3; x4]) (Cursor p' l).
Proof.
  intros H1 H2 H3 H4. unfold parse_hex_escape, mbind, M_bind, get. cbn [rest].
  destruct (Z.ltb_spec (size (x1 :: x2 :: x3 :: x4 :: l)) 4) as [Hs|_]; [unfold size in Hs; simpl in Hs; lia|].
  cbn [hex_digits]. unfold next, mbind, M_bind, get, modify, mret, M_ret. cbn [rest skip drop].
  rewrite H1. cbn [rest skip drop]. rewrite H2. cbn [rest skip drop]. rewrite H3. cbn [rest skip drop].
  rewrite H4. by eexists.
Qed.
Lemma string_loop_escape fuel output x l p text c :
  parse_escape (Cursor (p + 1) (x :: l)) = (Ok text, c) →
  string_loop (S fuel) output (Cursor p (backslash :: x :: l)) = string_loop fuel (output ++ text) c.
Proof.
  intros E. change (string_loop (S fuel) output (Cursor p (backslash :: x :: l))) with
    ((text ← parse_escape; string_loop fuel (output ++ text)) (Cursor (p + 1) (x :: l))). by m_run E.
Qed.
Lemma string_step c fuel output l p :
  ∃ p', string_loop (S fuel) output (Cursor p (write_char c ++ l)) = string_loop fuel (output ++ [c]) (Cursor p' l).
Proof.
  destruct (code c <? 32) eqn:Hc.
  2:{ destruct c as [[] [] [] [] [] [] [] []]; try (vm_compute in Hc; discriminate Hc); by eexists. }
  destruct c as [[] [] [] [] [] [] [] []]; try (vm_compute in Hc; discriminate Hc); clear Hc; try by eexists.
  all: match goal with |- context [write_char ?c] => let w := eval vm_compute in (write_char c) in change (write_char c) with w end.
  all: cbn [app]; match goal with |- context [Cursor ?q (_ :: _ :: ?a :: ?b :: ?x :: ?y :: ?k)] =>
    destruct (hex_escape_run a b x y k (q + 1 + 1) eq_refl eq_refl eq_refl eq_refl) as (p' & E) end.
  all: exists p'; apply string_loop_escape.
  all: match type of E with parse_hex_escape ?k0 = hex_digits 0 ?n ?k1 =>
    let k := eval vm_compute in n in
    assert (parse_unicode k0 = (Ok k, k1)) as Eu by (unfold parse_unicode; rewrite (bind_ok _ _ _ _ _ E); reflexivity);
    change ((c ← parse_unicode; mret (utf8 c)) k0 = (Ok (utf8 k), k1)) end.
  all: by rewrite (bind_ok _ _ _ _ _ Eu).
Qed.
Lemma write_char_length c : (1 ≤ length (write_char c))%nat.
Proof. unfold write_char. repeat case_match; simpl; lia. Qed.
Lemma written_length l : (length l ≤ length (l ≫= write_char))%nat.
Proof.
  induction l as [|c l IH]; [done|]. rewrite bind_cons, length_app. pose proof (write_char_length c). cbn [length]. lia.
Qed.
Lemma string_loop_written s output l p fuel :
  (length s < fuel)%nat →
  ∃ p', string_loop fuel output (Cursor p ((s ≫= write_char) ++ quote :: l)) = (Ok (text_of (output ++ s)), Cursor p' l).
Proof.
  revert output p fuel. induction s as [|c s IH]; intros output p [|fuel] Hf; simpl in Hf; try lia.
  - exists (p + 1). by rewrite app_nil_r.
  - rewrite bind_cons, <- app_assoc.
    destruct (string_step c fuel output ((s ≫= write_char) ++ quote :: l) p) as (p1 & ->).
    destruct (IH (output ++ [c]) p1 fuel) as (p2 & ->); [lia|]. exists p2. by rewrite <- app_assoc.
Qed.
Lemma gives_string s l : gives parse_string (write_string s) s l.
Proof.
  intros p. unfold parse_string, write_string. cbn [app].
  destruct (gives_consume quote ((((chars_of s) ≫= write_char) ++ [quote]) ++ l) p) as (p1 & E1). m_run E1.
  cbn [negb]. unfold mbind at 1, M_bind at 1, get. cbn [rest]. rewrite <- app_assoc. cbn [app].
  destruct (string_loop_written (chars_of s) [] l p1 (length ((chars_of s ≫= write_char) ++ quote :: l))) as (p2 & ->).
  - rewrite length_app. pose proof (written_length (chars_of s)). simpl. lia.
  - exists p2. cbn [app]. by rewrite text_of_chars_of.
Qed.

(** *** Integers *)
(** What may follow a value. *)
Definition closes (l : list ascii) : Prop :=
  l = [] ∨ ∃ x k, l = x :: k ∧ (x = ","%char ∨ x = "]"%char ∨ x = "}"%char).
Lemma closes_starts p l :
  closes l → p ","%char = false → p "]"%char = false → p "}"%char = false → starts p l = false.
Proof. by intros [->|(x & k & -> & [->|[-> | ->]])]. Qed.
Lemma gives_integer z l : is_i64 z → closes l → gives parse_number (chars_of (pretty z)) (VInteger z) l.
Proof.
  intros Hz Hl. destruct (pretty_integer z) as (digits & -> & Hd & Hv & H0). unfold parse_number.
  assert (number_value (z <? 0) digits false [] 0 = Some (VInteger z)) as Hn.
  { unfold number_value. cbn [negb andb]. rewrite Hv.
    assert ((if z <? 0 then - Z.abs z else Z.abs z) = z) as -> by (destruct (Z.ltb_spec z 0); lia).
    by rewrite bool_decide_true. }
  apply (gives_bind _ _ _ _ (z <? 0)).
  { destruct (z <? 0); [apply gives_consume|]. apply gives_no_consume. destruct digits as [|c digits].
    - by apply closes_starts.
    - apply Forall_cons in Hd as [Hc _]. simpl. unfold char_is. apply bool_decide_eq_false. by intros ->. }
  intros p. unfold mbind at 1, M_bind at 1, get. cbn [rest].
  rewrite (bool_decide_false (digits ++ l = [])), andb_false_r; [|destruct H0 as [->|?]; [done|by destruct digits]].
  revert p. match goal with |- ∀ p, ∃ p', ?m _ = _ => change (gives m digits (VInteger z) l) end.
  rewrite <- (app_nil_r digits) at 1. apply (gives_bind _ _ _ _ digits).
  { unfold parse_whole_part. destruct H0 as [->|H0].
    - apply (gives_bind _ _ ["0"%char] [] true); [apply gives_consume|].
      apply (gives_bind _ _ [] [] false); [|apply gives_ret].
      pose proof (gives_front is_digit l) as Hf. by rewrite (closes_starts is_digit l) in Hf.
    - apply (gives_bind _ _ [] digits false).
      + apply gives_no_consume. destruct digits as [|c digits]; [done|]. simpl in *. by destruct (char_is c "0").
      + unfold some_digits. rewrite <- (app_nil_r digits) at 1. apply (gives_bind _ _ _ _ digits).
        * apply gives_take_while; [done|]. by apply closes_starts.
        * rewrite bool_decide_false by by destruct digits. apply gives_ret. }
  apply (gives_bind _ _ [] [] false); [apply gives_no_consume; by apply closes_starts|].
  apply (gives_bind _ _ [] [] []); [apply gives_ret|].
  apply (gives_bind _ _ [] [] None).
  { unfold parse_exponent. apply (gives_bind _ _ [] [] false); [|apply gives_ret].
    pose proof (gives_front (λ x, char_is x "e" || char_is x "E") l) as Hf.
    by rewrite (closes_starts (λ x, char_is x "e" || char_is x "E") l) in Hf. }
  cbn [orb default]. rewrite bool_decide_false by (by intros [? [=]]). rewrite Hn. apply gives_ret.
Qed.

(** *** Numbers: what follows the text does not matter, if it closes the value *)
Definition local {A} (m : json A) : Prop := ∀ l p r a c, closes l →
  m (Cursor p r) = (Ok a, c) → m (Cursor p (r ++ l)) = (Ok a, Cursor (position c) (rest c ++ l)).
Definition not_closing (p : ascii → bool) : Prop := p ","%char = false ∧ p "]"%char = false ∧ p "}"%char = false.
Lemma not_closing_starts p l : not_closing p → closes l → starts p l = false.
Proof. intros (? & ? & ?) Hl. by apply closes_starts. Qed.
Lemma local_bind {A B} (m : json A) (f : A → json B) : local m → (∀ a, local (f a)) → local (m ≫= f).
Proof.
  intros Hm Hf l p r b c Hl E. apply bind_inv_ok in E as (a & c1 & E1 & E2).
  m_run (Hm l p r a c1 Hl E1). destruct c1 as [p1 r1]. by apply Hf.
Qed.
Lemma local_ret {A} (a : A) : local (mret a).
Proof. intros l p r b c Hl [= <- <-]. done. Qed.
Lemma local_fail {A} message : local (A:=A) (fail message).
Proof. intros l p r a c Hl. done. Qed.
Lemma span_local p r l :
  starts p l = false → span p (r ++ l) = ((span p r).1, (span p r).2 ++ l).
Proof.
  intros Hl. induction r as [|x r IH]; simpl.
  - destruct l as [|x l]; [done|]. simpl in *. by rewrite Hl.
  - destruct (p x); [|done]. rewrite IH. by destruct (span p r).
Qed.
Lemma local_take_while p : not_closing p → local (take_while p).
Proof.
  intros Hp l q r a c Hl. unfold take_while, mbind, M_bind, get, modify, mret, M_ret. cbn [rest].
  rewrite span_local by by apply not_closing_starts. cbn [fst]. intros [= <- <-]. unfold skip. simpl. do 2 f_equal.
  rewrite drop_app_le; [done|]. pose proof (span_app p r) as E. rewrite <- E at 2. rewrite length_app. lia.
Qed.
Lemma local_if_front {A} p (m : json A) k :
  not_closing p → local m → local k → local (b ← front_is p; if (b : bool) then _ ← modify (skip 1); m else k).
Proof.
  intros Hp Hm Hk l q r a c Hl. unfold front_is, mbind, M_bind, get, modify, mret, M_ret. cbn [rest].
  destruct r as [|x r]; simpl.
  - pose proof (not_closing_starts p l Hp Hl) as Hs. intros E. specialize (Hk l q [] a c Hl E). simpl in Hk.
    destruct l as [|y l]; simpl in *; [done|]. by rewrite Hs.
  - destruct (p x); intros E; [by apply (Hm l _ r a c)|by apply (Hk l _ (x :: r) a c)].
Qed.
Lemma local_front p : not_closing p → local (front_is p).
Proof.
  intros Hp l q r a c Hl. unfold front_is, mbind, M_bind, get, mret, M_ret. cbn [rest]. intros [= <- <-]. simpl.
  destruct r as [|x r]; [|done]. pose proof (not_closing_starts p l Hp Hl) as Hs. destruct l; simpl in *; [done|by rewrite Hs].
Qed.
Lemma local_consume x : not_closing (λ y, char_is y x) → local (consume x).
Proof. intros Hx. apply local_if_front; [done|apply local_ret..]. Qed.
Create HintDb local.
#[local] Hint Resolve local_ret local_fail local_take_while local_front local_consume : local.
#[local] Hint Extern 1 (not_closing _) => (by split_and!) : local.
#[local] Hint Extern 1 (local (_ ≫= _)) => apply local_bind; [|intros ?] : local.
#[local] Hint Extern 1 (local (if ?b then _ else _)) => destruct b : local.
Lemma local_some_digits message : local (some_digits message).
Proof. unfold some_digits. auto with local. Qed.
#[local] Hint Resolve local_some_digits : local.
Lemma local_unless_empty {A} (b : bool) message (m : json A) :
  local m → local (c ← get; if b && bool_decide (rest c = []) then fail message else m).
Proof.
  intros Hm l p r a c Hl.
  change ((if b && bool_decide (r = []) then fail message else m) (Cursor p r) = (Ok a, c) →
    (if b && bool_decide (r ++ l = []) then fail message else m) (Cursor p (r ++ l)) =
    (Ok a, Cursor (position c) (rest c ++ l))).
  destruct r as [|x r], b; try done; by apply Hm.
Qed.
Lemma local_number : local parse_number.
Proof.
  unfold parse_number. apply local_bind; [auto with local|]. intros negative. apply local_unless_empty.
  apply local_bind; [unfold parse_whole_part; auto 10 with local|]. intros whole.
  apply local_bind; [auto with local|]. intros point. apply local_bind; [auto with local|]. intros fraction.
  apply local_bind; [|intros exponent; case_match; auto with local].
  apply local_if_front; auto 10 with local.
Qed.

(** *** Values *)

(** The text of a number that is read back as that number, as the double it is. *)
Definition number_start (x : ascii) : bool := is_digit x || char_is x "-".
Definition reads_back (d : double) : Prop :=
  starts number_start (chars_of (to_chars_double d)) = true ∧
  ∀ p, ∃ p', parse_number (Cursor p (chars_of (to_chars_double d))) = (Ok (VNumber d), Cursor p' []).
Fixpoint numbers_read_back (v : value) : Prop :=
  match v with
  | VNumber d => reads_back d
  | VArray l => (fix all (l : list value) := match l with [] => True | x :: l => numbers_read_back x ∧ all l end) l
  | VObject m =>
      (fix all (m : list (string * value)) := match m with [] => True | (_, x) :: m => numbers_read_back x ∧ all m end) m
  | _ => True
  end.
(** The first character of a value. *)
Definition opens (x : ascii) : bool := negb (json_space x || char_is x "]" || char_is x "}").
Lemma number_starts x r fuel p :
  number_start x = true → opens x = true ∧ parse_value (S fuel) (Cursor p (x :: r)) = parse_number (Cursor p (x :: r)).
Proof.
  intros Hx. destruct x as [[] [] [] [] [] [] [] []]; try (vm_compute in Hx; discriminate Hx); by split.
Qed.
Lemma opens_space text l : starts opens text = true → starts json_space (text ++ l) = false.
Proof.
  destruct text as [|x text]; [done|]. simpl. unfold opens. by destruct (json_space x).
Qed.
Lemma opens_not text l x :
  starts opens text = true → x = "]"%char ∨ x = "}"%char → starts (λ y, char_is y x) (text ++ l) = false.
Proof.
  destruct text as [|y text]; [done|]. simpl. unfold opens. intros H [->| ->].
  - destruct (char_is y "]"); [by rewrite orb_true_r in H|done].
  - destruct (char_is y "}"); [by rewrite orb_true_r in H|done].
Qed.
Lemma closes_space l : closes l → starts json_space l = false.
Proof. intros. by apply closes_starts. Qed.

Definition read_back (v : value) : Prop := ∀ text, wf_value v → numbers_read_back v → write_json v = Ok text →
  starts opens text = true ∧
  ∀ fuel l, closes l → (2 * length text ≤ fuel)%nat → gives (parse_value fuel) text v l.

Lemma read_back_number v text l fuel :
  starts number_start text = true → gives parse_number text v l → (1 ≤ fuel)%nat → gives (parse_value fuel) text v l.
Proof.
  intros Hs Hg Hf. destruct text as [|x text]; [done|]. destruct fuel as [|fuel]; [lia|].
  intros p. destruct (number_starts x (text ++ l) fuel p Hs) as [_ E]. cbn [app]. rewrite E. apply Hg.
Qed.
Lemma number_opens text : starts number_start text = true → starts opens text = true.
Proof. destruct text as [|x text]; [done|]. intros Hs. by destruct (number_starts x [] 0 0 Hs). Qed.
Lemma integer_starts (z : Z) : starts number_start (chars_of (pretty z)) = true.
Proof.
  destruct (pretty_integer z) as (digits & -> & Hd & _ & H0). destruct (z <? 0); [done|].
  destruct digits as [|c digits]; [by destruct H0|]. apply Forall_cons in Hd as [Hc _]. simpl. unfold number_start. by rewrite Hc.
Qed.

(** The texts of the items of an array and of an object, after the first one each with its comma. *)
Definition separator (first : bool) : list ascii := if first then [] else [","%char].
Fixpoint written_items (first : bool) (l : list value) : result (list ascii) :=
  match l with
  | [] => Ok []
  | item :: l =>
      text ← write_json item; more ← written_items false l; Ok (separator first ++ text ++ more)
  end.
Fixpoint written_fields (first : bool) (m : list (string * value)) : result (list ascii) :=
  match m with
  | [] => Ok []
  | (key, item) :: m =>
      text ← write_json item; more ← written_fields false m;
      Ok (separator first ++ write_string key ++ ":"%char :: text ++ more)
  end.
Lemma write_array l : write_json (VArray l) = (items ← written_items true l; Ok ("["%char :: items ++ ["]"%char])).
Proof. reflexivity. Qed.
Lemma write_object m : write_json (VObject m) = (items ← written_fields true m; Ok ("{"%char :: items ++ ["}"%char])).
Proof. reflexivity. Qed.

(** What stands after an item: the next one or the end. *)
Lemma items_close l more k : written_items false l = Ok more → closes (more ++ "]"%char :: k).
Proof.
  destruct l as [|x l]; simpl; [intros [= <-]; right; by do 2 eexists; split; [done|auto]|].
  destruct (write_json x); simpl; [|done]. destruct (written_items false l); simpl; [|done]. intros [= <-].
  right. do 2 eexists. split; [done|auto].
Qed.
Lemma fields_close m more k : written_fields false m = Ok more → closes (more ++ "}"%char :: k).
Proof.
  destruct m as [|[key x] m]; simpl; [intros [= <-]; right; by do 2 eexists; split; [done|auto]|].
  destruct (write_json x); simpl; [|done]. destruct (written_fields false m); simpl; [|done]. intros [= <-].
  right. do 2 eexists. split; [done|auto].
Qed.

Lemma gives_array_loop x l array tx more fuel k :
  Forall read_back (x :: l) → Forall wf_value (x :: l) → Forall numbers_read_back (x :: l) →
  write_json x = Ok tx → written_items false l = Ok more →
  (2 * length (tx ++ more ++ ["]"%char]) ≤ fuel)%nat →
  gives (array_loop fuel array) (tx ++ more ++ ["]"%char]) (VArray (array ++ x :: l)) k.
Proof.
  revert x array tx more fuel. induction l as [|y l IH]; intros x array tx more fuel Hr Hw Hn Htx Hmore Hf;
    apply Forall_cons in Hr as [Hrx Hr]; apply Forall_cons in Hw as [Hwx Hw]; apply Forall_cons in Hn as [Hnx Hn];
    destruct (Hrx tx Hwx Hnx Htx) as [Hox Hgx]; (destruct fuel as [|fuel]; [rewrite !length_app in Hf; simpl in Hf; lia|]);
    cbn [array_loop]; apply (gives_bind _ _ [] _ tt);
    try (apply gives_no_space; rewrite <- !app_assoc; by apply opens_space);
    (apply (gives_bind _ _ tx _ x); [rewrite <- app_assoc; apply Hgx; [by eapply items_close|rewrite !length_app in Hf; simpl in Hf; lia]|]).
  - simpl in Hmore. injection Hmore as <-. apply (gives_bind _ _ [] _ tt); [by apply gives_no_space|].
    apply (gives_bind _ _ ["]"%char] [] true); [apply gives_consume|apply gives_ret].
  - simpl in Hmore. destruct (write_json y) as [ty|] eqn:Hty; simpl in Hmore; [|done].
    destruct (written_items false l) as [more'|] eqn:Hm; simpl in Hmore; [|done]. injection Hmore as <-.
    replace ((","%char :: ty ++ more') ++ ["]"%char]) with ([","%char] ++ ty ++ more' ++ ["]"%char]) in * by (simpl; by rewrite <- app_assoc).
    apply (gives_bind _ _ [] _ tt); [by apply gives_no_space|].
    apply (gives_bind _ _ [] _ false); [by apply gives_no_consume|].
    apply (gives_bind _ _ [","%char] (ty ++ more' ++ ["]"%char]) true); [apply gives_consume|]. cbn [negb].
    replace (array ++ x :: y :: l) with ((array ++ [x]) ++ y :: l) by by rewrite <- app_assoc.
    apply IH; try done. revert Hf. rewrite (length_app tx), (length_app [_]). simpl. lia.
Qed.

(** Keys that come in order are new, and go to the end. *)
Lemma sorted_before (acc : list (string * value)) k v m :
  om_sorted (acc ++ (k, v) :: m) → Forall (λ e, less e.1 k = true) acc.
Proof.
  induction acc as [|[k0 v0] acc IH]; simpl; intros Hs; [constructor|].
  inversion Hs as [|? ? ? Hb Hs']; subst. constructor; [|by apply IH].
  apply Forall_app in Hb as [_ Hb]. by apply Forall_cons in Hb as [? _].
Qed.
Lemma find_after (acc : list (string * value)) k : Forall (λ e, less e.1 k = true) acc → om_find k acc = None.
Proof.
  induction 1 as [|[k0 v0] acc Hk _ IH]; [done|]. cbn [om_find]. simpl in Hk.
  by rewrite (less_asym k0 k Hk), Hk.
Qed.
Lemma write_string_starts p s l : starts p (write_string s ++ l) = p quote.
Proof. done. Qed.
Lemma write_string_space s l : starts json_space (write_string s ++ l) = false.
Proof. done. Qed.
Lemma gives_key_front s t k : gives (front_is (λ x, char_is x quote)) [] true ((write_string s ++ t) ++ k).
Proof. exact (gives_front (λ x, char_is x quote) ((write_string s ++ t) ++ k)). Qed.
Lemma parse_open_string s l fuel p :
  parse_value (S fuel) (Cursor p (write_string s ++ l)) =
  (x ← parse_string; mret (VString x)) (Cursor p (write_string s ++ l)).
Proof. done. Qed.
Lemma write_string_opens s : starts opens (write_string s) = true.
Proof. done. Qed.
Lemma write_string_length s : (1 ≤ length (write_string s))%nat.
Proof. unfold write_string. simpl. lia. Qed.
#[local] Opaque write_string.
Lemma gives_object_loop key x m object tx more fuel k :
  Forall (λ e, read_back e.2) ((key, x) :: m) → Forall (λ e, wf_value e.2) ((key, x) :: m) →
  Forall (λ e, numbers_read_back e.2) ((key, x) :: m) → om_sorted (object ++ (key, x) :: m) →
  write_json x = Ok tx → written_fields false m = Ok more →
  (2 * length (write_string key ++ ":"%char :: tx ++ more ++ ["}"%char]) ≤ fuel)%nat →
  gives (object_loop fuel object) (write_string key ++ ":"%char :: tx ++ more ++ ["}"%char])
    (VObject (object ++ (key, x) :: m)) k.
Proof.
  revert key x object tx more fuel. induction m as [|[key' y] m IH]; intros key x object tx more fuel Hr Hw Hn Hs Htx Hmore Hf;
    apply Forall_cons in Hr as [Hrx Hr]; apply Forall_cons in Hw as [Hwx Hw]; apply Forall_cons in Hn as [Hnx Hn];
    destruct (Hrx tx Hwx Hnx Htx) as [Hox Hgx]; (destruct fuel as [|fuel]; [rewrite !length_app in Hf; simpl in Hf; lia|]);
    pose proof (sorted_before _ _ _ _ Hs) as Hb;
    cbn [object_loop];
    (apply (gives_bind _ _ [] (write_string key ++ ":"%char :: tx ++ more ++ ["}"%char]) tt);
      [apply gives_no_space; rewrite <- app_assoc; apply write_string_space|]);
    (apply (gives_bind _ _ [] (write_string key ++ ":"%char :: tx ++ more ++ ["}"%char]) true);
      [apply gives_key_front|]); cbn [negb];
    (apply (gives_bind _ _ (write_string key) (":"%char :: tx ++ more ++ ["}"%char]) key); [apply gives_string|]);
    (apply (gives_bind _ _ [] (":"%char :: tx ++ more ++ ["}"%char]) tt); [by apply gives_no_space|]);
    (apply (gives_bind _ _ [":"%char] (tx ++ more ++ ["}"%char]) true); [apply gives_consume|]); cbn [negb];
    (apply (gives_bind _ _ [] _ tt); [apply gives_no_space; rewrite <- !app_assoc; by apply opens_space|]);
    unfold om_contains; rewrite (find_after object key Hb), (bool_decide_false (is_Some None)) by (by intros [? [=]]);
    (apply (gives_bind _ _ tx _ x);
      [rewrite <- app_assoc; apply Hgx; [by eapply fields_close|rewrite !length_app in Hf; simpl in Hf; rewrite !length_app in Hf; lia]|]);
    rewrite (om_put_last key x object Hb).
  - simpl in Hmore. injection Hmore as <-. apply (gives_bind _ _ [] _ tt); [by apply gives_no_space|].
    apply (gives_bind _ _ ["}"%char] [] true); [apply gives_consume|apply gives_ret].
  - simpl in Hmore. destruct (write_json y) as [ty|] eqn:Hty; simpl in Hmore; [|done].
    destruct (written_fields false m) as [more'|] eqn:Hm; simpl in Hmore; [|done]. injection Hmore as <-.
    set (next := write_string key' ++ ":"%char :: ty ++ more' ++ ["}"%char]).
    replace ((","%char :: write_string key' ++ ":"%char :: ty ++ more') ++ ["}"%char]) with ([","%char] ++ next) in *
      by (unfold next; simpl; rewrite <- (app_assoc (write_string key')); simpl; by rewrite <- app_assoc).
    apply (gives_bind _ _ [] _ tt); [by apply gives_no_space|].
    apply (gives_bind _ _ [] _ false); [by apply gives_no_consume|].
    apply (gives_bind _ _ [","%char] next true); [apply gives_consume|]. cbn [negb].
    replace (object ++ (key, x) :: (key', y) :: m) with ((object ++ [(key, x)]) ++ (key', y) :: m) in * by by rewrite <- app_assoc.
    apply IH; try done. revert Hf. rewrite (length_app (write_string key)). cbn [length]. rewrite (length_app tx), (length_app [_]).
    cbn [length]. fold next. lia.
Qed.

Lemma read_back_items l : numbers_read_back (VArray l) → Forall numbers_read_back l.
Proof. induction l as [|x l IH]; [constructor|]. intros [? ?]. constructor; [done|by apply IH]. Qed.
Lemma read_back_fields m : numbers_read_back (VObject m) → Forall (λ e, numbers_read_back e.2) m.
Proof. induction m as [|[k x] m IH]; [constructor|]. intros [? ?]. constructor; [done|by apply IH]. Qed.

(** A bracket, and what is parsed after it. *)
Lemma parse_open_array fuel p r :
  parse_value (S fuel) (Cursor p ("["%char :: r)) =
  (_ ← skip_space; closed ← consume "]"; if (closed : bool) then mret (VArray []) else array_loop fuel []) (Cursor (p + 1) r).
Proof. reflexivity. Qed.
Lemma parse_open_object fuel p r :
  parse_value (S fuel) (Cursor p ("{"%char :: r)) =
  (_ ← skip_space; closed ← consume "}"; if (closed : bool) then mret (VObject []) else object_loop fuel []) (Cursor (p + 1) r).
Proof. reflexivity. Qed.
Lemma gives_shift {A} (m1 m2 : json A) x t a l :
  (∀ p r, m1 (Cursor p (x :: r)) = m2 (Cursor (p + 1) r)) → gives m2 t a l → gives m1 (x :: t) a l.
Proof. intros E H p. cbn [app]. rewrite E. apply H. Qed.

Lemma gives_array l text fuel k :
  Forall read_back l → Forall wf_value l → Forall numbers_read_back l → write_json (VArray l) = Ok text →
  (2 * length text ≤ fuel)%nat → gives (parse_value fuel) text (VArray l) k.
Proof.
  intros Hr Hw Hn. rewrite write_array. destruct l as [|x l].
  - intros [= <-] Hf. destruct fuel as [|fuel]; [simpl in Hf; lia|].
    apply (gives_shift _ _ _ _ _ _ (parse_open_array fuel)).
    apply (gives_bind _ _ [] ["]"%char] tt); [by apply gives_no_space|].
    apply (gives_bind _ _ ["]"%char] [] true); [apply gives_consume|apply gives_ret].
  - cbn [written_items]. destruct (write_json x) as [tx|] eqn:Htx; cbn [mbind result_bind]; [|done].
    destruct (written_items false l) as [more|] eqn:Hm; [|done]. intros [= <-] Hf. rewrite <- app_assoc in Hf |- *.
    destruct fuel as [|fuel]; [simpl in Hf; lia|]. apply (gives_shift _ _ _ _ _ _ (parse_open_array fuel)).
    destruct (proj1 (Forall_cons _ _ _) Hr) as [Hrx _]. destruct (proj1 (Forall_cons _ _ _) Hw) as [Hwx _].
    destruct (proj1 (Forall_cons _ _ _) Hn) as [Hnx _]. destruct (Hrx tx Hwx Hnx Htx) as [Hox _].
    apply (gives_bind _ _ [] (tx ++ more ++ ["]"%char]) tt); [apply gives_no_space; rewrite <- app_assoc; by apply opens_space|].
    apply (gives_bind _ _ [] (tx ++ more ++ ["]"%char]) false).
    { apply gives_no_consume. rewrite <- app_assoc. apply opens_not; [done|by left]. }
    apply (gives_array_loop x l []); try done. simpl in Hf. lia.
Qed.
Lemma gives_object m text fuel k :
  Forall (λ e, read_back e.2) m → Forall (λ e, wf_value e.2) m → Forall (λ e, numbers_read_back e.2) m → om_sorted m →
  write_json (VObject m) = Ok text → (2 * length text ≤ fuel)%nat → gives (parse_value fuel) text (VObject m) k.
Proof.
  intros Hr Hw Hn Hs. rewrite write_object. destruct m as [|[key x] m].
  - intros [= <-] Hf. destruct fuel as [|fuel]; [simpl in Hf; lia|].
    apply (gives_shift _ _ _ _ _ _ (parse_open_object fuel)).
    apply (gives_bind _ _ [] ["}"%char] tt); [by apply gives_no_space|].
    apply (gives_bind _ _ ["}"%char] [] true); [apply gives_consume|apply gives_ret].
  - cbn [written_fields]. destruct (write_json x) as [tx|] eqn:Htx; cbn [mbind result_bind]; [|done].
    destruct (written_fields false m) as [more|] eqn:Hm; [|done]. intros [= <-].
    set (body := write_string key ++ ":"%char :: tx ++ more ++ ["}"%char]).
    replace ((write_string key ++ ":"%char :: tx ++ more) ++ ["}"%char]) with body
      by (unfold body; rewrite <- app_assoc; simpl; by rewrite <- app_assoc). intros Hf.
    destruct fuel as [|fuel]; [simpl in Hf; lia|]. apply (gives_shift _ _ _ _ _ _ (parse_open_object fuel)).
    apply (gives_bind _ _ [] body tt); [apply gives_no_space; unfold body; rewrite <- app_assoc; apply write_string_space|].
    apply (gives_bind _ _ [] body false).
    { apply gives_no_consume. unfold body. rewrite <- app_assoc. by rewrite write_string_starts. }
    apply (gives_object_loop key x m []); try done. fold body. simpl in Hf. lia.
Qed.
Lemma read_back_any v : read_back v.
Proof.
  induction v as [|b|z|d|s|l IH|m IH] using value_rect_nested; intros text Hw Hn Ht.
  - injection Ht as <-. split; [done|]. intros [|fuel] l _ Hf; [simpl in Hf; lia|]. intros p. by eexists.
  - injection Ht as <-. split; [by destruct b|]. intros [|fuel] l _ Hf; [by destruct b; simpl in Hf; lia|].
    intros p. destruct b; by eexists.
  - injection Ht as <-. inversion Hw; subst. pose proof (integer_starts z) as Hs. split; [by apply number_opens|].
    intros fuel l Hl Hf. apply read_back_number; [done|by apply gives_integer|].
    destruct (chars_of (pretty z)); [done|simpl in Hf; lia].
  - simpl in Ht, Hn. unfold write_number in Ht. destruct Hn as [Hs Hg]. case_match; [|done]. injection Ht as <-.
    split; [by apply number_opens|]. intros fuel l Hl Hf. apply read_back_number; [done| |].
    + intros p. destruct (Hg p) as (p' & E). exists p'. by rewrite (local_number l p _ _ _ Hl E).
    + destruct (chars_of (to_chars_double d)); [done|simpl in Hf; lia].
  - injection Ht as <-. split; [apply write_string_opens|]. pose proof (write_string_length s).
    intros [|fuel] l _ Hf; [lia|]. intros p. rewrite parse_open_string.
    destruct (gives_string s l p) as (p' & E). exists p'. by m_run E.
  - inversion Hw; subst. apply read_back_items in Hn. split.
    + rewrite write_array in Ht. destruct (written_items true l); simpl in Ht; [|done]. by injection Ht as <-.
    + intros fuel k _ Hf. by apply gives_array.
  - inversion Hw; subst. apply read_back_fields in Hn. split.
    + rewrite write_object in Ht. destruct (written_fields true m); simpl in Ht; [|done]. by injection Ht as <-.
    + intros fuel k _ Hf. by apply gives_object.
Qed.

(** Strings survive JSON.  Any string of bytes, written and read, is the same string: quotes,
    backslashes and control characters included. *)
Theorem json_string_round_trip s : parse (text_of (write_string s)) = Ok (VString s).
Proof.
  unfold parse, run. rewrite chars_of_text_of.
  replace (Cursor 0 (write_string s)) with (Cursor 0 (write_string s ++ [])) by by rewrite app_nil_r.
  destruct (gives_no_space (write_string s ++ []) (write_string_space s []) 0) as (p0 & E0). m_run E0.
  unfold parse_fuel. rewrite length_text_of.
  replace (2 * length (write_string s) + 2)%nat with (S (2 * length (write_string s) + 1)) by lia.
  pose proof (parse_open_string s [] (2 * length (write_string s) + 1) p0) as Eo.
  destruct (gives_string s [] p0) as (p1 & E1). rewrite (bind_ok _ _ _ _ _ E1) in Eo. m_run Eo.
  by destruct (gives_no_space [] eq_refl p1) as (p2 & E2); m_run E2.
Qed.

(** C34: Values survive JSON.  A well-formed value whose text can be written is what parsing that
    text gives, arrays, objects with their keys in order, and all 64-bit integers included, provided
    each of its floating-point numbers is one whose own text reads back as that number. *)
Theorem json_round_trip v text :
  wf_value v → numbers_read_back v → write_json v = Ok text → parse (text_of text) = Ok v.
Proof.
  intros Hw Hn Ht. destruct (read_back_any v text Hw Hn Ht) as [Ho Hg].
  unfold parse, run. rewrite chars_of_text_of. unfold parse_fuel. rewrite length_text_of.
  replace (Cursor 0 text) with (Cursor 0 (text ++ [])) by by rewrite app_nil_r.
  destruct (gives_no_space (text ++ []) (opens_space text [] Ho) 0) as (p0 & E0). m_run E0.
  destruct (Hg (2 * length text + 2)%nat [] ltac:(by left) ltac:(lia) p0) as (p1 & E1). m_run E1.
  by destruct (gives_no_space [] eq_refl p1) as (p2 & E2); m_run E2.
Qed.
Lemma json_round_trip_witness :
  let v := VObject [("a", VArray [VInteger (-5); VNull; VNumber 4609434218613702656]); ("b", VString "x")] in
  ∃ text, write_json v = Ok text ∧ parse (text_of text) = Ok v.
Proof.
  eexists. split; [vm_compute; reflexivity|]. apply json_round_trip; [..|vm_compute; reflexivity].
  - repeat constructor; vm_compute; discriminate.
  - refine (conj (conj I (conj I (conj _ I))) (conj I I)). split; [vm_compute; reflexivity|].
    intros p. eexists. vm_compute. reflexivity.
Defined.

(** JSON does not keep every number: a floating-point number without a fraction comes back as
    an integer, and not-a-number and the infinities are written as text that is not JSON. *)
Theorem json_numbers_lost :
  (text ← write_json (VNumber 4607182418800017408); parse (text_of text)) = Ok (VInteger 1) ∧
  (text ← write_json (VNumber 9221120237041090560); parse (text_of text)) =
    Throw (json_error "invalid value at byte 0") ∧
  (text ← write_json (VNumber 9218868437227405312); parse (text_of text)) =
    Throw (json_error "invalid number at byte 0").
Proof. split_and!; vm_compute; reflexivity. Qed.
