(* ===== verification/NativeTheorems.v ===== *)
(** * Properties of the native storage.

    The operations of [native_file] do what the storage contract of the engine (file Storage) asks
    of a file, for every behaviour of the system calls that their documentation allows. *)
From S2P Require Import Prelude.
From S2P Require Import Storage.
From S2P Require Import NativeFile.
#[local] Open Scope Z_scope.

(** ** Writing in pieces *)
Lemma write_at_app c off a b : 0 ≤ off → write_at (write_at c off a) (off + size a) b = write_at c off (a ++ b).
Proof.
  intros Ho. unfold write_at, size. set (n := Z.to_nat off).
  replace (Z.to_nat (off + Z.of_nat (length a))) with (n + length a)%nat by lia.
  set (T := take n (c ++ replicate (n - length c) x00)).
  assert (length T = n) as ET by (unfold T; rewrite length_take, length_app, length_replicate; lia).
  assert (length (T ++ a) = (n + length a)%nat) as Ea by (rewrite length_app; lia).
  rewrite (app_assoc T a), (take_app_le ((T ++ a) ++ _)), (take_app_le (T ++ a)) by (rewrite ?length_app in *; lia).
  rewrite take_ge by lia. rewrite (drop_app_ge (T ++ a)) by lia. rewrite Ea, drop_drop, length_app, <- !app_assoc.
  do 4 f_equal. lia.
Qed.
Lemma write_at_nothing c off : 0 ≤ off ≤ size c → write_at c off [] = c.
Proof.
  intros Ho. unfold write_at, size in *. replace (Z.to_nat off - length c)%nat with 0%nat by lia.
  by rewrite app_nil_r, Nat.add_0_r, app_nil_l, take_drop.
Qed.
Lemma off_t_small z : 0 ≤ z < 2 ^ 63 → off_t z = z.
Proof.
  intros Hz. unfold off_t. rewrite u64_small by (unfold is_u64, u64_bound; lia).
  by destruct (Z.ltb_spec z (2 ^ 63)); [|lia].
Qed.

Section native_theorems.
Context {K : Type} `{HK : posix_laws K}.
Implicit Types (k : K) (f : native_file).

Lemma same_open_refl k : same_open k k.
Proof. done. Qed.
Lemma same_open_trans k1 k2 k3 : same_open k1 k2 → same_open k2 k3 → same_open k1 k3.
Proof. intros [E1 B1] [E2 B2]. split; [congruence|]. intros i. by rewrite B2. Qed.
Lemma changes_after i c k1 k2 k3 : same_open k1 k2 → changes i c k2 k3 → changes i c k1 k3.
Proof. intros [E1 B1] (E2 & B2 & B3). split_and!; [congruence|done|]. intros j Hj. by rewrite B3, B1. Qed.
Lemma changes_again i c c' k1 k2 k3 : changes i c k1 k2 → changes i c' k2 k3 → changes i c' k1 k3.
Proof.
  intros (E1 & B1 & C1) (E2 & B2 & C2). split_and!; [congruence|done|]. intros j Hj. by rewrite C2, C1.
Qed.
Lemma same_changes i k1 k2 : same_open k1 k2 → changes i (bytes_in k1 i) k1 k2.
Proof. intros [E B]. split_and!; [done|done|]. intros. apply B. Qed.

(** ** read_exact *)

(** How many of the calls that [read_loop] makes are interrupted. *)
Fixpoint read_interruptions (fuel : nat) f (offset n : Z) (out : list byte) k : nat :=
  match fuel with
  | O => O
  | S fuel =>
      if size out <? n then
        let '(rc, k1) := sys_pread (nf_fd f) (n - size out) (off_t (offset + size out)) k in
        match rc with
        | Some [] => O
        | Some bytes => read_interruptions fuel f offset n (out ++ bytes) k1
        | None => if errno k1 =? EINTR then S (read_interruptions fuel f offset n out k1) else O
        end
      else O
  end.
Lemma read_loop_spec fuel f i off n out k :
  file_behind k !! nf_fd f = Some i → 0 ≤ off → off + n < 2 ^ 63 → 0 ≤ n →
  out = take (length out) (drop (Z.to_nat off) (bytes_in k i)) → size out ≤ n →
  ∃ r k', read_loop fuel f off n out k = (r, k') ∧ same_open k k' ∧
    match r with
    | Ok bs => bs = take (Z.to_nat n) (drop (Z.to_nat off) (bytes_in k i)) ∧ size bs = n
    | Throw (corruption_error _) => size (bytes_in k i) < off + n
    | Throw (storage_error _) => True
    | Throw out_of_fuel => Z.of_nat fuel ≤ n - size out + Z.of_nat (read_interruptions fuel f off n out k)
    | Throw _ => False
    end.
Proof.
  revert out k. induction fuel as [|fuel IH]; intros out k Hf Hoff Hmax Hn Hout Hle;
    simpl; destruct (Z.ltb_spec (size out) n) as [Hlt|Hge].
  { exists (Throw out_of_fuel), k. split_and!; [done|done|]. lia. }
  { exists (Ok out), k. split_and!; [done|done| |lia]. rewrite Hout at 1. f_equal. unfold size in *. lia. }
  2:{ exists (Ok out), k. split_and!; [done|done| |lia]. rewrite Hout at 1. f_equal. unfold size in *. lia. }
  assert (0 ≤ size out) by auto.
  pose proof (pread_law (nf_fd f) i (n - size out) (off + size out) k Hf ltac:(lia) ltac:(lia)) as Hr.
  unfold call, mbind, M_bind. rewrite off_t_small by lia.
  destruct (sys_pread (nf_fd f) (n - size out) (off + size out) k) as [r k1]. destruct Hr as (Hs & Hr).
  assert (file_behind k1 !! nf_fd f = Some i ∧ ∀ j, bytes_in k1 j = bytes_in k j) as [Hf1 Hb1] by (destruct Hs as [-> ?]; done).
  destruct r as [[|b bs]|].
  - exists (Throw (corruption_error ("unexpected EOF while reading " +:+ nf_path f))), k1.
    split_and!; [done|done|]. destruct Hr as [_ Hr]. specialize (Hr eq_refl). lia.
  - destruct Hr as [[rest Hr] _].
    assert (0 < size (b :: bs) ≤ n - size out) as [Hpos Hbs].
    { assert (size (take (Z.to_nat (n - size out)) (drop (Z.to_nat (off + size out)) (bytes_in k i))) = size ((b :: bs) ++ rest)) as El by by rewrite Hr.
      rewrite size_take, size_app in El. pose proof (size_nonneg rest). rewrite size_cons in *. pose proof (size_nonneg bs). lia. }
    destruct (IH (out ++ b :: bs) k1) as (r' & k2 & E & Hs2 & Hr2); rewrite ?Hb1, ?size_app in *; try done; try lia.
    { rewrite length_app. rewrite <- (take_take_drop _ (length out) (length (b :: bs))), <- Hout. f_equal.
      rewrite drop_drop. replace (Z.to_nat off + length out)%nat with (Z.to_nat (off + size out)) by (unfold size; lia).
      apply (f_equal (take (length (b :: bs)))) in Hr. rewrite take_take, take_app_length in Hr.
      rewrite <- Hr at 1. f_equal. unfold size in *. lia. }
    exists r', k2. split_and!; [exact E|by eapply same_open_trans|].
    destruct r' as [bs'|e]; [done|]. destruct e; try done. lia.
  - unfold get. destruct (Z.eqb_spec (errno k1) EINTR) as [He|He].
    + destruct (IH out k1) as (r' & k2 & E & Hs2 & Hr2); rewrite ?Hb1 in *; try done.
      exists r', k2. split_and!; [exact E|by eapply same_open_trans|].
      destruct r' as [bs'|e]; [done|]. destruct e; try done. lia.
    + do 2 eexists. split_and!; [reflexivity|done|done].
Qed.

(** ** write_exact *)

(** The content when a part of the data is written; writing nothing does not extend the file. *)
Definition written (c : list byte) (off : Z) (part : list byte) : list byte :=
  match part with [] => c | _ => write_at c off part end.
Lemma written_more c off d (data : list byte) rc :
  0 ≤ off → 0 ≤ d ≤ size data → 0 < rc ≤ size data - d →
  write_at (written c off (take (Z.to_nat d) data)) (off + d) (take (Z.to_nat rc) (drop (Z.to_nat d) data)) =
  written c off (take (Z.to_nat (d + rc)) data).
Proof.
  intros Ho Hd Hrc. unfold size in *.
  assert (take (Z.to_nat (d + rc)) data = take (Z.to_nat d) data ++ take (Z.to_nat rc) (drop (Z.to_nat d) data)) as ->.
  { rewrite Z2Nat.inj_add, take_take_drop by lia. done. }
  assert (length (take (Z.to_nat d) data) = Z.to_nat d) as Ed by (rewrite length_take; lia).
  assert (length (take (Z.to_nat rc) (drop (Z.to_nat d) data)) = Z.to_nat rc) as Er by (rewrite length_take, length_drop; lia).
  destruct (take (Z.to_nat d) data) as [|b l] eqn:E; simpl in Ed.
  - assert (d = 0) as -> by lia. simpl. rewrite Z.add_0_r. by destruct (take _ _); simpl in Er; [lia|].
  - unfold written. rewrite <- app_comm_cons. rewrite app_comm_cons, <- write_at_app by done. f_equal. unfold size. simpl. lia.
Qed.
(** How many of the calls that [write_loop] makes are interrupted. *)
Fixpoint write_interruptions (fuel : nat) f (offset : Z) (data : list byte) (done_ : Z) k : nat :=
  match fuel with
  | O => O
  | S fuel =>
      if done_ <? size data then
        let '(rc, k1) := sys_pwrite (nf_fd f) (drop (Z.to_nat done_) data) (off_t (offset + done_)) k in
        if rc <? 0 then if errno k1 =? EINTR then S (write_interruptions fuel f offset data done_ k1) else O
        else if rc =? 0 then O
        else write_interruptions fuel f offset data (done_ + rc) k1
      else O
  end.
Lemma write_loop_spec fuel f i off data d c k :
  file_behind k !! nf_fd f = Some i → 0 ≤ off → off + size data < 2 ^ 63 → 0 ≤ d ≤ size data →
  bytes_in k i = written c off (take (Z.to_nat d) data) →
  ∃ r k' m, write_loop fuel f off data d k = (r, k') ∧ 
    changes i (written c off (take m data)) k k' ∧
    match r with
    | Ok _ => m = length data
    | Throw (storage_error _) => (m < length data)%nat
    | Throw out_of_fuel => (m < length data)%nat ∧
        Z.of_nat fuel ≤ Z.of_nat m - d + Z.of_nat (write_interruptions fuel f off data d k)
    | Throw _ => False
    end.
Proof.
  revert d k. induction fuel as [|fuel IH]; intros d k Hf Hoff Hmax Hd Hc;
    simpl; destruct (Z.ltb_spec d (size data)) as [Hlt|Hge].
  { exists (Throw out_of_fuel), k, (Z.to_nat d). rewrite <- Hc.
    split_and!; [done|by apply same_changes|unfold size in *; lia|lia]. }
  { exists (Ok tt), k, (Z.to_nat d). rewrite <- Hc. split_and!; [done|by apply same_changes|unfold size in *; lia]. }
  2:{ exists (Ok tt), k, (Z.to_nat d). rewrite <- Hc. split_and!; [done|by apply same_changes|unfold size in *; lia]. }
  assert (drop (Z.to_nat d) data ≠ []) as Hne.
  { intros E%(f_equal length). rewrite length_drop in E. unfold size in *. simpl in E. lia. }
  pose proof (pwrite_law (nf_fd f) i (drop (Z.to_nat d) data) (off + d) k Hf Hne ltac:(lia)) as Hw.
  unfold call, mbind, M_bind. rewrite off_t_small by lia.
  destruct (sys_pwrite (nf_fd f) (drop (Z.to_nat d) data) (off + d) k) as [rc k1].
  destruct (Z.leb_spec rc 0) as [Hle0|Hle0]; destruct (Z.ltb_spec rc 0) as [Hrc|Hrc]; try lia.
  - rename Hw into Hs. unfold get. pose proof Hs as [Hs1 Hs2]. destruct (Z.eqb_spec (errno k1) EINTR) as [He|He].
    + destruct (IH d k1) as (r & k2 & m & E & Hch & Hr); rewrite ?Hs1, ?Hs2; try done.
      exists r, k2, m. split_and!; [exact E|by eapply changes_after|].
      destruct r as [u|e]; [done|]. destruct e; try done. lia.
    + eexists _, k1, (Z.to_nat d). split_and!; [reflexivity|rewrite <- Hc; by apply same_changes|simpl; unfold size in *; lia].
  - destruct (Z.eqb_spec rc 0) as [->|Hrc0]; [|lia].
    eexists _, k1, (Z.to_nat d). split_and!; [reflexivity|rewrite <- Hc; by apply same_changes|simpl; unfold size in *; lia].
  - destruct (Z.eqb_spec rc 0) as [->|Hrc0]; [lia|].
    destruct Hw as [Hle Hch]. rewrite size_drop in Hle. rewrite Hc, written_more in Hch by (unfold size in *; lia).
    destruct (IH (d + rc) k1) as (r & k2 & m & E & Hch2 & Hr); try done; try (unfold size in *; lia).
    { by destruct Hch as [-> _]. }
    { by destruct Hch as (_ & -> & _). }
    exists r, k2, m. split_and!; [exact E|by eapply changes_again|].
    destruct r as [u|e]; [done|]. destruct e; try done. lia.
Qed.

(** A native file reads what the storage contract asks for.  However the kernel interrupts the
    calls or transfers less than was asked for, [read_exact] ends within a call per byte and one per
    interruption: with exactly the bytes of the range, or with [corruption_error] when the
    file is shorter than the range, or with [storage_error]; no file changes, and a part of a range
    is never returned. *)
Theorem native_reads_exactly fuel f i off n k :
  file_behind k !! nf_fd f = Some i → 0 ≤ off → 0 ≤ n → off + n < 2 ^ 63 →
  ∃ r k', native_read_exact fuel f off n k = (r, k') ∧ same_open k k' ∧
    match r with
    | Ok bs => bs = take (Z.to_nat n) (drop (Z.to_nat off) (bytes_in k i)) ∧ size bs = n
    | Throw (corruption_error _) => size (bytes_in k i) < off + n
    | Throw (storage_error _) => True
    | Throw out_of_fuel => Z.of_nat fuel ≤ n + Z.of_nat (read_interruptions fuel f off n [] k)
    | Throw _ => False
    end.
Proof.
  intros Hf Ho Hn Hmax. destruct (read_loop_spec fuel f i off n [] k) as (r & k' & E & Hs & Hr); try done.
  exists r, k'. split_and!; [exact E|done|]. rewrite size_nil, Z.sub_0_r in Hr. exact Hr.
Qed.

(** C30: A native file writes what the storage contract asks for, and fails the way it allows, however
    the kernel interrupts or shortens the calls.  For positions below 2^63: [write_exact] returns
    when the file has all the data at their place, and throws [storage_error] with a proper prefix
    of the data in their place; nothing else in the file and no other file changes.  [append] does
    that at the end of the file, so that a failed append leaves the old content with a prefix of the
    data after it: the torn tail that recovery of the journal reckons with.  The loop makes at most
    one call per byte it writes and one per interruption: a bound on its calls ([fuel], any number)
    cuts it short only when all the others were interrupted, and then too it has written a proper
    prefix.  So it ends unless the kernel interrupts it for ever. *)
Theorem native_writes_exactly fuel f i off data k :
  file_behind k !! nf_fd f = Some i → off + size data < 2 ^ 63 → size (bytes_in k i) + size data < 2 ^ 63 → 0 ≤ off →
  (∃ r k' m, native_write_exact fuel f off data k = (r, k') ∧
     changes i (written (bytes_in k i) off (take m data)) k k' ∧
     match r with
     | Ok _ => m = length data
     | Throw (storage_error _) => (m < length data)%nat
     | Throw out_of_fuel => (m < length data)%nat ∧ (fuel ≤ m + write_interruptions fuel f off data 0 k)%nat
     | Throw _ => False
     end) ∧
  (∃ r k' m, native_append fuel f data k = (r, k') ∧ changes i (bytes_in k i ++ take m data) k k' ∧
     match r with
     | Ok n => n = size (bytes_in k i) ∧ m = length data
     | Throw (storage_error _) => (m < length data)%nat ∨ data = []
     | Throw out_of_fuel => (m < length data)%nat ∧
         (fuel ≤ m + write_interruptions fuel f (size (bytes_in k i)) data 0 (sys_fstat (nf_fd f) k).2)%nat
     | Throw _ => False
     end).
Proof.
  intros Hf Hmax Hmax2 Hoff. split.
  { destruct (write_loop_spec fuel f i off data 0 (bytes_in k i) k) as (r & k' & m & E & Hch & Hr);
      [done|done|done|split; [lia|auto]|done|]. exists r, k', m. split_and!; [exact E|done|].
    destruct r as [u|e]; [done|]. destruct e; try done. split; [apply Hr|lia]. }
  pose proof (fstat_law (nf_fd f) i k Hf) as Hs. unfold native_append, native_size, call, must, mbind, M_bind.
  destruct (sys_fstat (nf_fd f) k) as [[rc n] k1]. destruct Hs as (Hs & Hn). cbn [fst snd].
  assert (∀ l : list byte, written (bytes_in k i) (size (bytes_in k i)) l = bytes_in k i ++ l) as Hw.
  { intros [|b l]; [by rewrite app_nil_r|]. apply write_at_end. }
  destruct (Z.eqb_spec rc 0) as [->|Hrc]; cbn [negb].
  2:{ eexists _, k1, O. split_and!; [reflexivity| |].
      - rewrite take_0, app_nil_r. by apply same_changes.
      - simpl. destruct data; [by right|left; simpl; lia]. }
  rewrite (Hn eq_refl). assert (0 ≤ size (bytes_in k i)) by auto. assert (0 ≤ size data) by auto.
  rewrite u64_small by (unfold is_u64, u64_bound; lia).
  destruct (write_loop_spec fuel f i (size (bytes_in k i)) data 0 (bytes_in k i) k1) as (r & k' & m & E & Hch & Hr); try done; try lia.
  { by destruct Hs as [-> _]. }
  { by destruct Hs as [_ ->]. }
  rewrite Hw in Hch. unfold mret, M_ret, native_write_exact. rewrite E. apply (changes_after i _ _ _ _ Hs) in Hch.
  destruct r as [u|e]; do 3 eexists; (split_and!; [reflexivity|exact Hch|]); [done|].
  destruct e; try done; [by left|]. split; [apply Hr|lia].
Qed.

(** Syncing a directory never leaks its descriptor: on every path, with and without errors, the
    open descriptors and the files are afterwards what they were; and an error is that of [open] or
    of [fsync], not one that [close] left behind. *)
Theorem sync_directory_closes directory k :
  ∃ r k', native_sync_directory directory k = (r, k') ∧ file_behind k' = file_behind k ∧
    match r with
    | Ok _ => True
    | Throw e => ∃ operation k1 flags fd, (k1 = (sys_open directory flags k).2 ∧ operation = "open directory" ∨
          k1 = (sys_fsync fd (sys_open directory flags k).2).2 ∧ operation = "fsync directory") ∧
        e = storage_error (operation +:+ " failed for " +:+ directory +:+ ": " +:+ strerror (errno k1))
    end.
Proof.
  unfold native_sync_directory, call, mbind, M_bind, get, modify, io_error.
  set (flags := [O_RDONLY; O_DIRECTORY; O_CLOEXEC]). pose proof (open_law directory flags k) as Ho.
  destruct (sys_open directory flags k) as [fd k1] eqn:E1. destruct Ho as (Hfail & Hok & _).
  destruct (Z.ltb_spec fd 0) as [Hfd|Hfd].
  { do 2 eexists. split_and!; [reflexivity|by destruct (Hfail Hfd)|]. exists "open directory", k1, flags, 0.
    rewrite E1. split; [by left|done]. }
  destruct (Hok Hfd) as [Hnew [i Hi]]. pose proof (fsync_law fd k1) as [Hs _].
  destruct (sys_fsync fd k1) as [rc k2] eqn:E2. simpl in Hs.
  pose proof (close_law fd k2) as Hc. destruct (sys_close fd k2) as [rc2 k3] eqn:E3. simpl in Hc.
  assert (file_behind k3 = file_behind k) as Hk.
  { rewrite Hc, Hs, Hi, delete_insert_eq. by apply delete_id. }
  destruct (negb (rc =? 0)); [|do 2 eexists; split_and!; [reflexivity|done|done]].
  destruct (set_errno_law (errno k2) k3) as [[Hsame _] He].
  do 2 eexists. split_and!; [reflexivity|congruence|]. exists "fsync directory", k2, flags, fd.
  rewrite E1. simpl. rewrite E2. split; [by right|]. by rewrite He.
Qed.
End native_theorems.

(** ** A kernel

    Files by name, descriptors, and a plan of what goes wrong: the theorems are tried on it. *)
Module Kernel.
Inductive outcome := runs | interrupted | short (n : nat) | fails.
Record kernel := Mk {
  names : gmap string Z; opened : gmap Z Z; contents : gmap Z (list byte);
  plan : list outcome; last_error : Z }.
Definition eintr : Z := 4.
Definition eio : Z := 5.
Definition content_of (k : kernel) (i : Z) : list byte := default [] (contents k !! i).
Definition with_error (e : Z) (k : kernel) : kernel := Mk (names k) (opened k) (contents k) (plan k) e.
Definition with_content (i : Z) (c : list byte) (k : kernel) : kernel :=
  Mk (names k) (opened k) (<[i := c]> (contents k)) (plan k) (last_error k).
Definition with_opened (m : gmap Z Z) (k : kernel) : kernel :=
  Mk (names k) m (contents k) (plan k) (last_error k).
(** The next outcome of the plan. *)
Definition planned (k : kernel) : outcome * kernel :=
  match plan k with
  | [] => (runs, k)
  | o :: l => (o, Mk (names k) (opened k) (contents k) l (last_error k))
  end.
Definition attempt {A} (failed : A) (run : nat → kernel → A * kernel) (most : nat) (k : kernel) : A * kernel :=
  match planned k with
  | (runs, k) => run most k
  | (short n, k) => run (Nat.min (S n) most) k
  | (interrupted, k) => (failed, with_error eintr k)
  | (fails, k) => (failed, with_error eio k)
  end.
Definition k_open (path : string) (flags : list open_flag) (k : kernel) : Z * kernel :=
  match names k !! path with
  | Some i => let fd := fresh (dom (opened k)) in
              if fd <? 0 then (-1, k) else (fd, with_opened (<[fd := i]> (opened k)) k)
  | None => (-1, with_error 2 k)
  end.
Definition k_close (fd : Z) (k : kernel) : Z * kernel := (0, with_opened (delete fd (opened k)) (with_error 9 k)).
Definition k_fstat (fd : Z) (k : kernel) : (Z * Z) * kernel :=
  match opened k !! fd with
  | Some i => ((0, size (content_of k i)), k)
  | None => ((-1, 0), k)
  end.
Definition k_pread (fd n off : Z) (k : kernel) : option (list byte) * kernel :=
  match opened k !! fd with
  | None => (None, with_error eio k)
  | Some i =>
      attempt None (λ most k, (Some (take most (drop (Z.to_nat off) (content_of k i))), k)) (Z.to_nat n) k
  end.
Definition k_pwrite (fd : Z) (data : list byte) (off : Z) (k : kernel) : Z * kernel :=
  match opened k !! fd with
  | None => (-1, with_error eio k)
  | Some i =>
      attempt (-1) (λ most k, (Z.of_nat most, with_content i (write_at (content_of k i) off (take most data)) k))
        (length data) k
  end.
Definition k_ftruncate (fd n : Z) (k : kernel) : Z * kernel :=
  match opened k !! fd with
  | None => (-1, k)
  | Some i => (0, with_content i (truncate_to (content_of k i) n) k)
  end.
Definition k_sync (fd : Z) (k : kernel) : Z * kernel :=
  match planned k with
  | (runs, _) => (0, k)
  | _ => (-1, with_error eio k)
  end.
Definition k_rename (from to : string) (k : kernel) : Z * kernel :=
  match names k !! from with
  | None => (-1, with_error 2 k)
  | Some i => (0, Mk (<[to := i]> (delete from (names k))) (opened k) (contents k) (plan k) (last_error k))
  end.
Definition unchanged (k k' : kernel) : Prop := opened k' = opened k ∧ ∀ i, content_of k' i = content_of k i.
#[global] Instance kernel_posix : posix kernel := {|
  sys_open := k_open; sys_close := k_close; sys_fstat := k_fstat; sys_pread := k_pread; sys_pwrite := k_pwrite;
  sys_ftruncate := k_ftruncate; sys_fdatasync := k_sync; sys_fsync := k_sync; sys_rename := k_rename;
  errno := last_error; set_errno := with_error; EINTR := eintr;
  strerror e := if e =? eio then "Input/output error" else "error";
  fs_create_directories _ k := (None, k);
  fs_exists path k := ((bool_decide (is_Some (names k !! path)), None), k);
  fs_remove path k := (None, Mk (delete path (names k)) (opened k) (contents k) (plan k) (last_error k))
|}.
#[global] Program Instance kernel_laws : posix_laws kernel := {|
  file_behind := opened; bytes_in := content_of |}.
Next Obligation.
  intros path flags k. simpl. unfold k_open. destruct (names k !! path) as [i|]; [|by repeat split].
  destruct (Z.ltb_spec (fresh (dom (opened k))) 0); split_and!; try done; try lia.
  intros _. split; [|by exists i]. apply not_elem_of_dom, is_fresh.
Qed.
Next Obligation. done. Qed.
Next Obligation. intros fd i k Hi. simpl. unfold k_fstat. rewrite Hi. by split_and!. Qed.
Next Obligation.
  intros fd i n off k Hi Hn Hoff. simpl. unfold k_pread, attempt, planned. rewrite Hi.
  set (d := drop (Z.to_nat off) (content_of k i)).
  assert (∀ m l, (0 < m ≤ Z.to_nat n)%nat →
    let k1 := Mk (names k) (opened k) (contents k) l (last_error k) in
    unchanged k k1 ∧ take m d `prefix_of` take (Z.to_nat n) d ∧ (take m d = [] → size (content_of k i) ≤ off)) as Hm.
  { intros m l Hm k1. split_and!; [done| |].
    - exists (take (Z.to_nat n - m) (drop m d)). rewrite take_take_drop. f_equal. lia.
    - intros E. apply (f_equal length) in E. unfold d in E. rewrite length_take, length_drop in E. simpl in E. unfold size. lia. }
  destruct (plan k) as [|[| |m|] l] eqn:Ep; cbn [fst snd]; try (by split).
  - specialize (Hm (Z.to_nat n) (plan k) ltac:(lia)). destruct k; simpl in *; subst; exact Hm.
  - apply Hm. lia.
  - apply Hm. lia.
Qed.
Next Obligation.
  intros fd i data off k Hi Hd Hoff. simpl. unfold k_pwrite, attempt, planned. rewrite Hi.
  assert (0 < length data)%nat by (destruct data; simpl; [done|lia]).
  assert (∀ m l (P : Prop), (0 < m ≤ length data)%nat →
    let k1 := Mk (names k) (opened k) (contents k) l (last_error k) in
    if Z.of_nat m <=? 0 then P
    else Z.of_nat m ≤ size data ∧
      opened k1 = opened k ∧ content_of (with_content i (write_at (content_of k i) off (take m data)) k1) i =
        write_at (content_of k i) off (take (Z.to_nat (Z.of_nat m)) data) ∧
      ∀ j, j ≠ i → content_of (with_content i (write_at (content_of k i) off (take m data)) k1) j = content_of k j) as Hm.
  { intros m l P Hm k1. destruct (Z.leb_spec (Z.of_nat m) 0); [lia|].
    unfold content_of, with_content. simpl. unfold size.
    split_and!; [lia|done|by rewrite lookup_insert_eq, Nat2Z.id|intros j Hj; by rewrite lookup_insert_ne]. }
  destruct (plan k) as [|[| |m|] l] eqn:Ep; cbn [fst snd]; try (by split).
  - apply (Hm (length data) (plan k)). lia.
  - apply Hm. lia.
  - apply Hm. lia.
Qed.
Next Obligation.
  intros fd i n k Hi Hn. simpl. unfold k_ftruncate. rewrite Hi. simpl. unfold content_of, with_content. simpl.
  split_and!; [done|by rewrite lookup_insert_eq|intros j Hj; by rewrite lookup_insert_ne].
Qed.
Next Obligation. intros fd k. simpl. unfold k_sync, planned. destruct (plan k) as [|[| | |] l]; done. Qed.
Next Obligation. done. Qed.
End Kernel.

(** ** The properties at work *)
Import Kernel.
Definition bytes_from (z : Z) (n : nat) : list byte := byte_of_Z <$> ((λ i, z + Z.of_nat i) <$> seq 0 n).
(** A file of eight bytes, open as descriptor 7, and a kernel that interrupts and shortens. *)
Definition flaky (l : list outcome) : kernel :=
  Kernel.Mk {["db/heap.wal" := 1]} {[7 := 1]} {[1 := bytes_from 0 8]} l 0.
Definition wal_file : native_file := NativeFile "db/heap.wal" 7.
Lemma native_reads_exactly_witness :
  let k := flaky [interrupted; short 1; interrupted] in
  (native_read_exact 10 wal_file 2 5 k).1 = Ok (bytes_from 2 5) ∧
  ∃ r k', native_read_exact 10 wal_file 2 5 k = (r, k') ∧ same_open k k' ∧
    match r with
    | Ok bs => bs = take (Z.to_nat 5) (drop (Z.to_nat 2) (bytes_in k 1)) ∧ size bs = 5
    | Throw (corruption_error _) => size (bytes_in k 1) < 2 + 5
    | Throw (storage_error _) => True
    | Throw out_of_fuel => Z.of_nat 10 ≤ 5 + Z.of_nat (read_interruptions 10 wal_file 2 5 [] k)
    | Throw _ => False
    end.
Proof. split; [reflexivity|]. apply (native_reads_exactly 10 wal_file 1 2 5); [reflexivity|lia|lia|lia]. Defined.
(** A failure after a part and an interruption; and a kernel that interrupts four times, with four
    calls allowed and with eight. *)
Lemma native_writes_exactly_witness :
  let k := flaky [short 0; interrupted; fails] in
  let busy := flaky [interrupted; interrupted; interrupted; interrupted] in
  (native_append 10 wal_file (bytes_from 90 4) k).1 = Throw (storage_error "pwrite failed for db/heap.wal: Input/output error") ∧
  (native_append 4 wal_file (bytes_from 90 4) busy).1 = Throw out_of_fuel ∧
  (native_append 8 wal_file (bytes_from 90 4) busy).1 = Ok 8 ∧
  (∃ r k' m, native_write_exact 10 wal_file 6 (bytes_from 90 4) k = (r, k') ∧
     changes 1 (written (bytes_in k 1) 6 (take m (bytes_from 90 4))) k k' ∧
     match r with Ok _ => m = length (bytes_from 90 4)
     | Throw (storage_error _) => (m < length (bytes_from 90 4))%nat
     | Throw out_of_fuel => (m < length (bytes_from 90 4))%nat ∧
         (10 ≤ m + write_interruptions 10 wal_file 6 (bytes_from 90 4) 0 k)%nat
     | Throw _ => False end) ∧
  (∃ r k' m, native_append 10 wal_file (bytes_from 90 4) k = (r, k') ∧
     changes 1 (bytes_in k 1 ++ take m (bytes_from 90 4)) k k' ∧
     match r with Ok n => n = size (bytes_in k 1) ∧ m = length (bytes_from 90 4)
     | Throw (storage_error _) => (m < length (bytes_from 90 4))%nat ∨ bytes_from 90 4 = []
     | Throw out_of_fuel => (m < length (bytes_from 90 4))%nat ∧
         (10 ≤ m + write_interruptions 10 wal_file (size (bytes_in k 1)) (bytes_from 90 4) 0 (sys_fstat 7 k).2)%nat
     | Throw _ => False end).
Proof.
  do 3 (split; [vm_compute; reflexivity|]).
  apply (native_writes_exactly 10 wal_file 1 6 (bytes_from 90 4) (flaky [short 0; interrupted; fails]));
    [reflexivity| | |lia]; apply Z.ltb_lt; reflexivity.
Defined.
