(* ===== verification/SqlShellTheorems.v ===== *)
(** * Properties of the SQL shell. *)
From stdpp Require Import pretty.
From S2P Require Import Prelude.
From S2P Require Import Double.
From S2P Require Import OrderedMap.
From S2P Require Import Chars.
From S2P Require Import Console.
From S2P Require Import Storage.
From S2P Require Import Heap.
From S2P Require Import SqlSyntax.
From S2P Require Import SqlParser.
From S2P Require Import SqlInterpreter.
From S2P Require Import Cli.
From S2P Require Import SqlShell.
From S2P Require Import HeapTheorems.
From Stdlib Require Import Ascii.
#[local] Open Scope Z_scope.

(** ** The script of a text

    What the shell should run: the text cut at every semicolon outside of quotes, in one pass and
    without regard to lines. *)
Fixpoint cut (l : list ascii) (in_string : bool) (current : list ascii) : list (list ascii) * list ascii :=
  match l with
  | [] => ([], current)
  | c :: l =>
      if char_is c "'" then cut l (negb in_string) (current ++ [c])
      else if char_is c ";" && negb in_string then
        let '(statements, rest) := cut l false [] in (current :: statements, rest)
      else cut l in_string (current ++ [c])
  end.
Definition script_of (text : list ascii) : list (list ascii) := (cut text false []).1.
(** An odd number of quotes. *)
Definition quotes (l : list ascii) : bool := foldr (λ c b, xorb (char_is c "'") b) false l.
(** The lines of a text. *)
Fixpoint lines_from (current l : list ascii) : list (list ascii) :=
  match l with
  | [] => [current]
  | c :: l => if char_is c "010" then current :: lines_from [] l else lines_from (current ++ [c]) l
  end.
Definition lines_of (text : list ascii) : list string := text_of <$> lines_from [] text.

Section script.
Context {W : Type} `{storage W} (self : Z).
(** A statement on the heap alone: what it throws is dropped. *)
Definition run_quietly (text : list ascii) : heap (W:=W) unit :=
  catch (_ ← sql_execute self (text_of text); mret tt) (λ e,
    match e with undefined _ | out_of_fuel => throw e | _ => mret tt end).
Definition run_unless_blank (text : list ascii) : heap (W:=W) unit :=
  if is_blank text then mret tt else run_quietly text.
Definition run_script (statements : list (list ascii)) : heap (W:=W) unit := forM statements run_unless_blank.
End script.

(** ** Cutting *)
Lemma quotes_app a b : quotes (a ++ b) = xorb (quotes a) (quotes b).
Proof. induction a as [|c a IH]; simpl; [by destruct (quotes b)|]. rewrite IH. by rewrite xorb_assoc. Qed.
Lemma quotes_blank l : is_blank l = true → quotes l = false.
Proof.
  induction l as [|c l IH]; [done|]. simpl. intros [Hc Hl]%andb_true_iff. rewrite (IH Hl).
  unfold blank_char in Hc. unfold char_is in *. by repeat case_bool_decide; subst.
Qed.
Lemma cut_app a b in_string current :
  in_string = quotes current →
  cut (a ++ b) in_string current =
    let '(s1, r1) := cut a in_string current in
    let '(s2, r2) := cut b (quotes r1) r1 in (s1 ++ s2, r2).
Proof.
  revert in_string current. induction a as [|c a IH]; intros q cur ->; simpl.
  - by destruct (cut b (quotes cur) cur).
  - destruct (char_is c "'") eqn:Ec; [|destruct (char_is c ";" && negb (quotes cur)) eqn:Es].
    + apply IH. rewrite quotes_app. simpl. rewrite Ec. by destruct (quotes cur).
    + rewrite IH by done. destruct (cut a false []) as [s1 r1]. by destruct (cut b (quotes r1) r1).
    + apply IH. rewrite quotes_app. simpl. rewrite Ec. by destruct (quotes cur).
Qed.
Lemma find_terminator_cut l in_string i current :
  match find_terminator l in_string i with
  | None => cut l in_string current = ([], current ++ l)
  | Some j => ∃ a b, l = a ++ ";"%char :: b ∧ j = (i + length a)%nat ∧
      cut l in_string current = ((current ++ a) :: (cut b false []).1, (cut b false []).2)
  end.
Proof.
  revert in_string i current. induction l as [|c l IH]; intros q i cur; simpl; [by rewrite app_nil_r|].
  destruct (char_is c "'") eqn:Ec; [|destruct (char_is c ";" && negb q) eqn:Es].
  2:{ apply andb_true_iff in Es as [Es _]. apply bool_decide_eq_true in Es as ->.
      exists [], l. rewrite app_nil_r. simpl. split_and!; [done|lia|]. by destruct (cut l false []). }
  - specialize (IH (negb q) (S i) (cur ++ [c])). destruct (find_terminator l (negb q) (S i)).
    + destruct IH as (a & b & -> & -> & ->). exists (c :: a), b. simpl. rewrite <- app_assoc. split_and!; [done|lia|done].
    + by rewrite IH, <- app_assoc.
  - specialize (IH q (S i) (cur ++ [c])). destruct (find_terminator l q (S i)).
    + destruct IH as (a & b & -> & -> & ->). exists (c :: a), b. simpl. rewrite <- app_assoc. split_and!; [done|lia|done].
    + by rewrite IH, <- app_assoc.
Qed.
Lemma extract_cut buffer :
  match extract_statement (text_of buffer) with
  | None => cut buffer false [] = ([], buffer)
  | Some (text, consumed) =>
      cut buffer false [] = (chars_of text :: (cut (drop consumed buffer) false []).1, (cut (drop consumed buffer) false []).2) ∧
      (length (drop consumed buffer) < length buffer)%nat
  end.
Proof.
  unfold extract_statement. rewrite chars_of_text_of. pose proof (find_terminator_cut buffer false 0 []) as Hf.
  destruct (find_terminator buffer false 0) as [j|]; [|done]. destruct Hf as (a & b & -> & -> & ->). simpl.
  rewrite (substring_text_of a (";"%char :: b)), chars_of_text_of.
  assert (drop (S (length a)) (a ++ ";"%char :: b) = b) as ->.
  { change (S (length a)) with (1 + length a)%nat. rewrite Nat.add_comm, <- drop_drop, drop_app_length. done. }
  split; [done|]. rewrite length_app. simpl. lia.
Qed.
Lemma cut_remainder l in_string current :
  in_string = quotes current → ((cut l in_string current).1 ≠ [] ∨ (cut current false []).1 = []) →
  (cut (cut l in_string current).2 false []) = ([], (cut l in_string current).2).
Proof.
  revert in_string current. induction l as [|c l IH]; intros q cur -> Hcur; simpl in *.
  - destruct Hcur as [|Hcur]; [done|]. pose proof (find_terminator_cut cur false 0 []) as Hf.
    destruct (find_terminator cur false 0); [|done]. destruct Hf as (a & b & -> & -> & E). by rewrite E in Hcur.
  - assert (∀ q', q' = quotes (cur ++ [c]) → char_is c ";" && negb (quotes cur) = false →
        ((cut l q' (cur ++ [c])).1 ≠ [] ∨ (cut cur false []).1 = []) →
        cut (cut l q' (cur ++ [c])).2 false [] = ([], (cut l q' (cur ++ [c])).2)) as Hnext.
    { intros q' -> Hc Hor. apply IH; [done|]. destruct Hor as [?|Hor]; [by left|right].
      rewrite cut_app by done. destruct (cut cur false []) as [s1 r1] eqn:E. simpl in Hor. subst s1.
      pose proof (find_terminator_cut cur false 0 []) as Hf. destruct (find_terminator cur false 0).
      { destruct Hf as (a & b & -> & -> & E2). by rewrite E2 in E. }
      rewrite E in Hf. injection Hf as ->. simpl. destruct (char_is c "'"); [done|]. simpl.
      by rewrite Hc. }
    destruct (char_is c "'") eqn:Ec; [|destruct (char_is c ";" && negb (quotes cur)) eqn:Es].
    + apply Hnext; [rewrite quotes_app; simpl; rewrite Ec; by destruct (quotes cur)| |done].
      unfold char_is in *. by repeat case_bool_decide; subst.
    + specialize (IH false [] eq_refl (or_intror eq_refl)). by destruct (cut l false []).
    + apply Hnext; [rewrite quotes_app; simpl; rewrite Ec; by destruct (quotes cur)|done|done].
Qed.

(** Blanks in front of a text change neither what is cut from it nor how it is scanned. *)
Definition blanks_before (a b : list ascii) : Prop := ∃ blanks, is_blank blanks = true ∧ a = blanks ++ b.
Lemma cut_blanks blanks l in_string current :
  is_blank blanks = true →
  Forall2 blanks_before (cut l in_string (blanks ++ current)).1 (cut l in_string current).1 ∧
  blanks_before (cut l in_string (blanks ++ current)).2 (cut l in_string current).2.
Proof.
  intros Hb. revert in_string current. induction l as [|c l IH]; intros q cur; simpl.
  { split; [done|by eexists]. }
  rewrite <- app_assoc. destruct (char_is c "'"); [apply IH|]. destruct (char_is c ";" && negb q); [|apply IH].
  destruct (cut l false []) as [s r]. simpl. assert (∀ a, blanks_before a a) as Hrefl by (intros a; by exists []).
  split; [|done]. constructor; [by eexists|]. by apply Forall_Forall2_diag, Forall_true.
Qed.
Lemma blank_spaces l c : is_blank (c :: l) = true → is_space c = true ∧ is_blank l = true.
Proof.
  simpl. intros [Hc Hl]%andb_true_iff. split; [|done]. unfold blank_char, char_is in Hc.
  by repeat case_bool_decide; subst.
Qed.
Lemma tokenize_blanks blanks l : is_blank blanks = true → tokenize (text_of (blanks ++ l)) = tokenize (text_of l).
Proof.
  intros Hb. unfold tokenize. rewrite !length_text_of, !chars_of_text_of.
  induction blanks as [|c blanks IH]; [done|]. apply blank_spaces in Hb as [Hc Hb].
  simpl. unfold lex_step. rewrite Hc. simpl. by apply IH.
Qed.
Lemma blank_app a b : is_blank (a ++ b) = is_blank a && is_blank b.
Proof. apply forallb_app. Qed.

(** ** Printing a table *)
Definition rectangle (n : nat) {A} (rows : list (list A)) : Prop := Forall (λ row, length row = n) rows.
Lemma Forall2_compose {A B C} (P : A → B → Prop) (Q : B → C → Prop) (R : A → C → Prop) l k m :
  (∀ x y z, P x y → Q y z → R x z) → Forall2 P l k → Forall2 Q k m → Forall2 R l m.
Proof.
  intros HR Hl. revert m. induction Hl; intros m Hm; inversion Hm; subst; constructor; eauto.
Qed.
Lemma widen_spec widths cells :
  length cells = length widths →
  ∃ wider, widen widths cells = Ok wider ∧ length wider = length widths ∧
    Forall2 (λ w w', w ≤ w') widths wider ∧ Forall2 (λ cell w, ssize cell ≤ w) cells wider.
Proof.
  revert cells. induction widths as [|w widths IH]; intros [|c cells] Hl; try done.
  { by exists []. }
  destruct (IH cells ltac:(simpl in *; lia)) as (wider & E & El & H1 & H2). simpl. rewrite E.
  exists (Z.max w (ssize c) :: wider). simpl. split_and!; [done|by rewrite El| |]; constructor; done || lia.
Qed.
Lemma widen_all_spec widths rows :
  rectangle (length widths) rows →
  ∃ wider, widen_all widths rows = Ok wider ∧ length wider = length widths ∧
    Forall2 (λ w w', w ≤ w') widths wider ∧ Forall (λ row, Forall2 (λ cell w, ssize cell ≤ w) row wider) rows.
Proof.
  unfold rectangle. revert widths. induction rows as [|row rows IH]; intros widths Hr.
  { exists widths. split_and!; [done|done|apply Forall_Forall2_diag, Forall_true; lia|constructor]. }
  apply Forall_cons in Hr as [Hrow Hr]. destruct (widen_spec widths row Hrow) as (w1 & E & El & H1 & H2).
  rewrite <- El in Hr. destruct (IH w1 Hr) as (w2 & E2 & El2 & H3 & H4). simpl. rewrite E. simpl.
  exists w2. split_and!; [done|congruence| |].
  - eapply Forall2_compose; [|exact H1|exact H3]. simpl. lia.
  - constructor; [|done]. eapply Forall2_compose; [|exact H2|exact H3]. simpl. lia.
Qed.
Lemma ssize_filled n c : 0 ≤ n → ssize (filled n c) = n.
Proof. intros. unfold ssize, filled. rewrite length_text_of, length_replicate. lia. Qed.
Lemma ssize_padded width text : is_u64 width → ssize text ≤ width → ssize (padded width text) = width.
Proof.
  intros Hw Ht. assert (0 ≤ ssize text) by (unfold ssize; lia). unfold padded.
  rewrite u64_small by (unfold is_u64 in *; lia). rewrite ssize_app, ssize_filled by lia. lia.
Qed.
(** What a line of a table with columns of these widths takes, its end included. *)
Definition line_width (first : bool) (widths : list Z) : Z :=
  foldr (λ w n, w + 3 + n) 1 widths - (if first && negb (bool_decide (widths = [])) then 3 else 0).
Lemma row_text_spec first widths values :
  Forall2 (λ v w, ssize v ≤ w) values widths →
  ∃ line, row_text first widths values = Ok line ∧ (Forall is_u64 widths → ssize line = line_width first widths).
Proof.
  intros Hv. revert first. induction Hv as [|v w values widths Hvw Hv IH]; intros first.
  { exists end_of_line. by destruct first. }
  destruct (IH false) as (rest & E & Er). simpl. rewrite E. simpl.
  eexists. split; [done|]. intros [Hw1 Hw]%Forall_cons. rewrite !ssize_app, ssize_padded, Er by done. unfold line_width.
  assert (ssize (if first then "" else " | ") = if first then 0 else 3) as -> by by destruct first.
  destruct first; simpl; lia.
Qed.
Lemma rows_text_spec widths rows :
  Forall (λ row, Forall2 (λ v w, ssize v ≤ w) row widths) rows →
  ∃ lines, rows_text widths rows = Ok (String.concat "" lines) ∧ length lines = length rows ∧
    (Forall is_u64 widths → Forall (λ line, ssize line = line_width true widths) lines).
Proof.
  intros Hr. induction Hr as [|row rows Hrow Hr IH]; [by exists []|].
  destruct (row_text_spec true widths row Hrow) as (line & E & El). destruct IH as (lines & E2 & Ell & Hl).
  simpl. rewrite E. simpl. rewrite E2. exists (line :: lines). split_and!; [|simpl; lia|intros; constructor; auto].
  simpl. f_equal. destruct lines; [|done]. simpl. by rewrite string_app_nil_r.
Qed.
Lemma table_text_spec columns rows :
  rectangle (length columns) rows →
  ∃ widths head lines, table_text columns rows =
      Ok (head +:+ (filled (rule_width widths) "-" +:+ end_of_line) +:+ String.concat "" lines) ∧
    length lines = length rows ∧ Forall2 (λ column w, ssize column ≤ w) columns widths ∧
    Forall (Forall2 (λ w lit, ssize (to_display_string lit) ≤ w) widths) rows ∧
    (Forall is_u64 widths → ssize head = line_width true widths ∧ Forall (λ line, ssize line = ssize head) lines).
Proof.
  intros Hr. unfold table_text. set (cells := map (map to_display_string) rows).
  assert (rectangle (length (ssize <$> columns)) cells) as Hc.
  { unfold rectangle, cells in *. rewrite length_fmap. apply Forall_fmap. eapply Forall_impl; [exact Hr|].
    intros row <-. apply length_map. }
  destruct (widen_all_spec _ _ Hc) as (widths & E & El & Hw & Hrows). rewrite Forall2_fmap_l in Hw.
  destruct (row_text_spec true widths columns Hw) as (head & E2 & Eh).
  destruct (rows_text_spec widths cells Hrows) as (lines & E3 & Ell & Hl).
  rewrite E. simpl. rewrite E2. simpl. rewrite E3. exists widths, head, lines. split_and!; [done| |done| |].
  - rewrite Ell. apply length_map.
  - unfold cells in Hrows. apply (Forall_fmap (A:=list literal)) in Hrows. eapply Forall_impl; [exact Hrows|]. intros row Hrow.
    apply Forall2_flip. by apply (Forall2_fmap_l (A:=literal)) in Hrow.
  - intros Hu. rewrite (Eh Hu). by split; [|apply Hl].
Qed.
(** ** Lines *)
Definition is_command (line : string) : Prop := line ∈ [".exit"; ".quit"; ".tables"].
Lemma span_newline l : ∃ line rest,
  span (λ c, negb (char_is c "010")) l = (line, rest) ∧ Forall (λ c, char_is c "010" = false) line ∧
  l = line ++ rest ∧ (rest = [] ∨ ∃ rest', rest = "010"%char :: rest').
Proof.
  induction l as [|c l (line & rest & E & Hl & El & Hr)]; simpl.
  { exists [], []. split_and!; [done|constructor|done|by left]. }
  destruct (char_is c "010") eqn:Ec; simpl.
  - exists [], (c :: l). apply bool_decide_eq_true in Ec as ->. split_and!; [done|constructor|done|right; by eexists].
  - rewrite E. exists (c :: line), rest. rewrite El. split_and!; [done|by constructor|done|done].
Qed.
Lemma lines_from_line line current l :
  Forall (λ c, char_is c "010" = false) line → lines_from current (line ++ l) = lines_from (current ++ line) l.
Proof.
  intros Hl. revert current. induction Hl as [|c line Hc Hl IH]; intros current; simpl; [by rewrite app_nil_r|].
  rewrite Hc, IH, <- app_assoc. done.
Qed.
(** The line [getline] gives is the first of the input's lines, and no terminator hides in the end
    of a line that the end of the input replaces. *)
Lemma split_line_spec input :
  ∃ line rest, split_line input = (line, rest) ∧ (input ≠ [] → (length rest < length input)%nat) ∧
    (lines_of input = text_of line :: lines_of rest ∨ (lines_of input = [text_of line] ∧ rest = [])) ∧
    ∀ b, script_of (b ++ input) = script_of ((b ++ line ++ ["010"%char]) ++ rest).
Proof.
  unfold split_line. destruct (span_newline input) as (line & rest & -> & Hl & -> & Hr).
  exists line, (tail rest). split; [done|]. unfold lines_of. rewrite lines_from_line by done. simpl.
  destruct Hr as [->|[rest' ->]]; simpl.
  - split_and!; [|by right|].
    + rewrite app_nil_r. destruct line; simpl; [congruence|lia].
    + intros b. rewrite !app_nil_r. unfold script_of. rewrite app_assoc, (cut_app (b ++ line)) by done.
      destruct (cut (b ++ line) false []) as [s1 r1]. simpl. by rewrite app_nil_r.
  - split_and!; [rewrite length_app; simpl; lia|by left|]. intros b. by rewrite <- !app_assoc.
Qed.

Section shell_spec.
Context {W : Type} `{storage W} (self : Z).
Implicit Types (s : heap_state * W) (c : console).

Lemma run_script_blanks l l' s : Forall2 blanks_before l l' → run_script self l s = run_script self l' s.
Proof.
  intros Hl. revert s. induction Hl as [|x y l l' (blanks & Hb & ->) Hl IH]; intros s; [done|].
  assert (run_unless_blank self (blanks ++ y) s = run_unless_blank self y s) as E.
  { unfold run_unless_blank. rewrite blank_app, Hb. simpl. destruct (is_blank y); [done|].
    unfold run_quietly, sql_execute, parse_statement. by rewrite tokenize_blanks. }
  unfold run_script. simpl. unfold mbind, M_bind. rewrite E. destruct (run_unless_blank self y s) as [[u|e] s1]; [|done].
  apply IH.
Qed.
Lemma run_script_app l l' s : run_script self (l ++ l') s = (_ ← run_script self l; run_script self l') s.
Proof.
  revert s. unfold run_script, mbind, M_bind. induction l as [|x l IH]; intros s; [done|].
  simpl. unfold mbind, M_bind. destruct (run_unless_blank self x s) as [[u|e] s1]; [|done]. apply IH.
Qed.

(** ** A part of the shell that does not read: what it does to the heap *)
Definition does {A} (m : shell A) (m' : heap (W:=W) A) : Prop := ∀ c s,
  ∃ c', cn_input c' = cn_input c ∧ m (c, s) = ((m' s).1, (c', (m' s).2)).
Lemma does_ret {A} (x : A) : does (mret x) (mret x).
Proof. intros c s. by exists c. Qed.
Lemma does_put text : does (put text) (mret tt).
Proof. intros c s. exists (Console (cn_input c) (cn_output c +:+ text) (cn_error c)). done. Qed.
Lemma does_bind {A B} (m : shell A) m' (f : A → shell B) f' :
  does m m' → (∀ x, does (f x) (f' x)) → does (m ≫= f) (m' ≫= f').
Proof.
  intros Hm Hf c s. destruct (Hm c s) as (c1 & E1 & Em). unfold mbind, M_bind. rewrite Em.
  destruct (m' s) as [[x|e] s1]; simpl; [|by exists c1].
  destruct (Hf x c1 s1) as (c2 & E2 & ->). exists c2. by rewrite E2.
Qed.

(** Every row that a statement returns has the columns of the result. *)
Definition rectangular (res : sql_result) : Prop := rectangle (length (sr_columns res)) (sr_rows res).
Lemma project_length names row line : project names row = Ok line → length line = length names.
Proof.
  revert line. induction names as [|n names IH]; simpl; intros line E; [by injection E as <-|].
  apply bind_result_ok in E as (v & _ & E). apply bind_result_ok in E as (l & _ & E).
  apply bind_result_ok in E as (rest & Er & [= <-]). simpl. by rewrite (IH _ Er).
Qed.
Lemma project_rows_length names rows lines :
  project_rows names rows = Ok lines → Forall (λ row, length row = length names) lines.
Proof.
  revert lines. induction rows as [|r rows IH]; simpl; intros lines E; [by injection E as <-|].
  apply bind_result_ok in E as (line & El & E). apply bind_result_ok in E as (rest & Er & [= <-]).
  constructor; [by eapply project_length|by apply IH].
Qed.
Lemma execute_statement_rectangular stmt ts res ts' :
  execute_statement (W:=W) stmt ts = (Ok res, ts') → rectangular res.
Proof.
  unfold rectangular, rectangle.
  destruct stmt; cbn [execute_statement]; unfold execute_create, execute_insert, execute_select, execute_update, execute_delete; intros E.
  - m_inv E. m_inv E. destruct (om_contains _ _); [done|]. m_inv E. m_inv E. m_inv E. m_inv E. by injection E as <- _.
  - m_inv E. m_inv E. m_inv E. m_inv E. m_inv E. by injection E as <- _.
  - m_inv E. m_inv E. m_inv E. m_inv E. m_inv E. m_inv E. m_inv E.
    match goal with H : lift_result (project_rows _ _) _ = _ |- _ => apply lift_result_ok in H as [Hp _] end.
    injection E as <- _. by apply project_rows_length in Hp.
  - m_inv E. m_inv E. m_inv E. m_inv E. m_inv E. by injection E as <- _.
  - m_inv E. m_inv E. m_inv E. m_inv E. by injection E as <- _.
Qed.
Lemma sql_execute_rectangular text s res s' : sql_execute self text s = (Ok res, s') → rectangular res.
Proof.
  unfold sql_execute, in_transaction. intros E. m_inv E. m_inv E. unfold with_local in E.
  destruct (execute_statement a (a0, s1)) as [r [t s2]] eqn:Ex. injection E as -> <-.
  by eapply execute_statement_rectangular.
Qed.

Lemma result_text_total res : rectangular res → ∃ text, result_text res = Ok text.
Proof.
  intros Hr. unfold result_text. destruct (bool_decide (sr_columns res = [])); [eexists; reflexivity|].
  destruct (table_text_spec _ _ Hr) as (widths & head & lines & -> & _). eexists; reflexivity.
Qed.
Lemma does_statement text : does (run_statement self text) (run_quietly self text).
Proof.
  intros c s. unfold run_statement, run_quietly, catch, on_snd, mbind, M_bind.
  destruct (sql_execute self (text_of text) s) as [[res|e] s1] eqn:E; simpl.
  - apply sql_execute_rectangular in E. destruct (result_text_total _ E) as [out Eo].
    unfold print_result, mbind, M_bind, lift_result. rewrite Eo.
    by exists (Console (cn_input c) (cn_output c +:+ out) (cn_error c)).
  - destruct e; try (by exists c);
      match goal with |- context [put ?m] => by exists (Console (cn_input c) (cn_output c +:+ m) (cn_error c)) end.
Qed.
Lemma does_drain fuel buffer :
  (length buffer < fuel)%nat →
  does (drain self fuel buffer)
       (_ ← run_script self (script_of buffer); mret (cut buffer false []).2).
Proof.
  unfold script_of. revert buffer. induction fuel as [|fuel IH]; intros buffer Hf; [lia|].
  pose proof (extract_cut buffer) as Hx. simpl. destruct (extract_statement (text_of buffer)) as [[text n]|].
  2:{ rewrite Hx. simpl. intros c s. by exists c. }
  destruct Hx as [-> Hl]. specialize (IH (drop n buffer) ltac:(lia)). intros c s. simpl.
  unfold run_script in *. simpl. unfold run_unless_blank. destruct (is_blank (chars_of text)); [apply IH|].
  destruct (does_statement (chars_of text) c s) as (c1 & E1 & Er). unfold mbind, M_bind. rewrite Er.
  destruct (run_quietly self (chars_of text) s) as [[[]|e] s1]; simpl; [|by exists c1].
  destruct (IH c1 s1) as (c2 & E2 & ->). exists c2. by rewrite E2.
Qed.

Lemma script_continues buffer rest s :
  run_script self (script_of (buffer ++ rest)) s =
  (_ ← run_script self (script_of buffer);
   run_script self (script_of (cleared (cut buffer false []).2 ++ rest))) s.
Proof.
  pose proof (cut_remainder buffer false [] eq_refl (or_intror eq_refl)) as Hr. unfold script_of.
  rewrite cut_app by done. destruct (cut buffer false []) as [s1 r1]. simpl in *.
  destruct (cut rest (quotes r1) r1) as [s2 r2] eqn:E2. simpl. rewrite run_script_app.
  unfold mbind, M_bind. destruct (run_script self s1 s) as [[u|e] s']; [|done]. unfold cleared.
  destruct (is_blank r1) eqn:Eb; simpl.
  - rewrite (quotes_blank _ Eb) in E2. destruct (cut_blanks r1 rest false [] Eb) as [Hs _].
    rewrite app_nil_r, E2 in Hs. by apply run_script_blanks.
  - rewrite cut_app, Hr by done. by rewrite E2.
Qed.
Lemma cleared_open buffer : script_of (cleared (cut buffer false []).2) = [].
Proof.
  unfold cleared. destruct (is_blank _); [done|]. unfold script_of.
  by rewrite (cut_remainder buffer false [] eq_refl (or_intror eq_refl)).
Qed.
Lemma repl_spec fuel c s buffer :
  (length (cn_input c) < fuel)%nat → script_of buffer = [] → Forall (λ l, ¬ is_command l) (lines_of (cn_input c)) →
  ∃ c', repl self fuel buffer (c, s) =
    ((run_script self (script_of (buffer ++ cn_input c)) s).1,
     (c', (run_script self (script_of (buffer ++ cn_input c)) s).2)).
Proof.
  revert c s buffer. induction fuel as [|fuel IH]; intros c s buffer Hf Hb Hl; [lia|]. cbn [repl].
  set (prompt := if bool_decide (buffer = []) then "sql> " else "...> ").
  destruct c as [input out err]. simpl in Hf, Hl |- *.
  m_run (eq_refl : put prompt (Console input out err, s) = (Ok tt, (Console input (out +:+ prompt) err, s))).
  destruct input as [|ch input].
  { rewrite app_nil_r, Hb. by eexists. }
  destruct (split_line_spec (ch :: input)) as (line & rest & E & Hlen & Hlines & Hscript). specialize (Hlen ltac:(done)).
  assert (get_line (W:=heap_state * W) (Console (ch :: input) (out +:+ prompt) err, s) =
    (Ok (Some (text_of line)), (Console rest (out +:+ prompt) err, s))) as Eg.
  { unfold get_line, on_fst, mbind, M_bind, get. cbn [cn_input]. rewrite E. done. }
  m_run Eg. assert (¬ is_command (text_of line) ∧ Forall (λ l, ¬ is_command l) (lines_of rest)) as [Hline Hrest].
  { destruct Hlines as [Hls|[Hls ->]]; rewrite Hls in Hl; apply Forall_cons in Hl as [? ?]; [done|].
    split; [done|]. repeat constructor. intros Hc. unfold is_command in Hc. by rewrite !elem_of_cons, elem_of_nil in Hc; destruct Hc as [?|[?|[?|?]]]. }
  unfold is_command in Hline. rewrite !elem_of_cons, elem_of_nil in Hline. unfold is_one_of.
  rewrite (bool_decide_eq_false_2 (text_of line ∈ _)) by (rewrite !elem_of_cons, elem_of_nil; tauto).
  rewrite (bool_decide_eq_false_2 (text_of line = ".tables")) by tauto. rewrite !andb_false_r, chars_of_text_of.
  rewrite Hscript. set (buffer2 := buffer ++ line ++ ["010"%char]). rewrite script_continues.
  destruct (does_drain (S (length buffer2)) buffer2 ltac:(lia) (Console rest (out +:+ prompt) err) s) as (c2 & E2 & Ed).
  unfold drain_all, mbind, M_bind in Ed |- *. simpl in E2. rewrite Ed.
  destruct (run_script self (script_of buffer2) s) as [[u|e] s1]; simpl; [|by exists c2].
  rewrite <- E2. apply IH; rewrite ?E2; [simpl in *; lia|apply cleared_open|done].
Qed.

(** C29: The shell runs the statements of its input, no matter how they are broken into lines.  When
    no line is a command of the shell, the loop does to the heap and the storage what running, one
    after the other, the texts between the semicolons that stand outside of quotes does, each as a
    statement whose failure does not stop the next; what follows the last semicolon is dropped.
    The loop always comes to the end of the input, and printing never leaves the table of
    widths. *)
Theorem shell_runs_the_script c s :
  Forall (λ line, ¬ is_command line) (lines_of (cn_input c)) →
  ∃ c', repl_all self (c, s) =
    ((run_script self (script_of (cn_input c)) s).1, (c', (run_script self (script_of (cn_input c)) s).2)).
Proof.
  intros Hl. unfold repl_all.
  m_run (eq_refl : on_fst (W:=heap_state * W) get (c, s) = (Ok c, (c, s))).
  apply (repl_spec _ c s []); [lia|done|done].
Qed.
End shell_spec.

Definition two_lines : console := Console (chars_of ("INSERT INTO t
VALUES (';'); SELECT x; COMMIT")) "" "".
Lemma shell_runs_the_script_witness :
  script_of (cn_input two_lines) = [chars_of "INSERT INTO t
VALUES (';')"; chars_of " SELECT x"] ∧
  ∃ (s : heap_state * Disk.disk) c', repl_all 100 (two_lines, s) =
    ((run_script 100 (script_of (cn_input two_lines)) s).1,
     (c', (run_script 100 (script_of (cn_input two_lines)) s).2)).
Proof.
  split; [by vm_compute|]. exists (opened_heap, opened_disk). apply shell_runs_the_script.
  apply (bool_decide_unpack _). by vm_compute.
Defined.
