(* ===== verification/Sessions.v ===== *)
(** * A heap in service and a transaction on one of its roots.

    What the front ends build on: a transaction begun for one command or call, the root it loads,
    what a commit of that root stores, and that the heap stays in service. *)
From S2P Require Import Prelude.
From S2P Require Import Binary.
From S2P Require Import OrderedMap.
From S2P Require Import Value.
From S2P Require Import Observer.
From S2P Require Import ObserverSpec.
From S2P Require Import Codec.
From S2P Require Import Storage.
From S2P Require Import Journal.
From S2P Require Import Recovery.
From S2P Require Import Snapshot.
From S2P Require Import Cache.
From S2P Require Import Heap.
From S2P Require Import HeapSpec.
From S2P Require Import Transaction.
From S2P Require Import TransactionSpec.
From S2P Require Import Quiet.
From S2P Require Import HeapTheorems.
From S2P Require Import TransactionTheorems.
#[local] Open Scope Z_scope.

(** ** What a commit leaves alone *)
Section frames.
Context {W : Type} `{storage W}.
Implicit Types (h : heap_state) (w : W).
(** A part [view] of the heap on which the cache, the roots and the last sequence have no influence. *)
Context {V : Type} (view : heap_state → V).
Context (view_cache : ∀ c h, view (set_cache c h) = view h) (view_roots : ∀ r h, view (set_roots r h) = view h).
Context (view_last : ∀ q h, view (set_last_sequence q h) = view h).
Definition framed {X} (m : heap (W:=W) X) : Prop := ∀ s, view (m s).2.1 = view s.1.
Lemma framed_bind {X Y} (m : heap (W:=W) X) (f : X → heap (W:=W) Y) :
  framed m → (∀ x, framed (f x)) → framed (m ≫= f).
Proof.
  intros Hm Hf s. specialize (Hm s). unfold mbind, M_bind. destruct (m s) as [[x|e] s1]; [|done].
  by rewrite Hf.
Qed.
Lemma framed_storage {X} (m : M W X) : framed (on_snd m).
Proof. intros [h w]. unfold on_snd. by destruct (m w). Qed.
Lemma framed_cache {X} (m : M payload_cache X) : framed (on_cache m).
Proof. intros [h w]. unfold on_cache. destruct (m _). apply view_cache. Qed.
Lemma framed_update f : (∀ h, view (f h) = view h) → framed (update f).
Proof. intros Hf [h w]. apply Hf. Qed.
Lemma framed_state : framed state.
Proof. by intros [h w]. Qed.
Lemma framed_checkpoint : framed checkpoint_locked.
Proof.
  apply framed_bind; [apply framed_state|intros h]. apply framed_bind; [apply framed_storage|intros written].
  apply framed_bind; [apply framed_update; intros h'; by rewrite view_last, view_roots|intros _]. apply framed_storage.
Qed.
Lemma framed_publish updates : ∀ locations, framed (publish_updates updates locations).
Proof.
  induction updates as [|u updates IH]; intros [|l locations]; simpl; try by intros s.
  apply framed_bind; [apply framed_update; intros h; apply view_roots|intros _].
  apply framed_bind; [apply framed_cache|intros _]. apply IH.
Qed.
(** After the journal, a commit changes nothing else. *)
Lemma commit_framed tx updates h w s' :
  commit tx updates (h, w) = (Ok tt, s') →
  (updates = [] ∧ s' = (h, w)) ∨
  ∃ locations q w1, journal_append (wal_of (hs_config h)) tx updates (hs_wal_sequence h, w) = (Ok locations, (q, w1)) ∧
    view s'.1 = view (set_wal_sequence q h).
Proof.
  unfold commit. case_bool_decide; [intros [= <-]; by left|]. intros E. right. revert E.
  unfold mbind at 1, M_bind at 1, state, on_fst, get. destruct (hs_closed h); [done|]. destruct (hs_poisoned h); [done|].
  unfold mbind at 1, M_bind at 1, lift_result. destruct (check_versions _ _); [|done].
  unfold mbind at 1, M_bind at 1, catch, on_wal.
  destruct (journal_append _ _ _ _) as [[locations|e] [q w1]]; [|done].
  set (rest := (_ ← publish_updates _ _; _)). assert (framed rest) as Hr.
  { apply framed_bind; [apply framed_publish|intros _]. apply framed_bind; [apply framed_update; intros h'; apply view_last|intros _].
    apply framed_bind; [apply framed_storage|intros n]. destruct (_ >=? _); [apply framed_checkpoint|by intros s]. }
  intros E. exists locations, q, w1. split; [done|]. specialize (Hr (set_wal_sequence q h, w1)). by rewrite E in Hr.
Qed.
End frames.
Definition flags (h : heap_state) : bool * bool * Z := (hs_closed h, hs_poisoned h, hs_next_transaction h).
Lemma commit_flags {W} `{storage W} tx updates (s s' : heap_state * W) :
  commit tx updates s = (Ok tt, s') → flags s'.1 = flags s.1.
Proof.
  destruct s as [h w]. intros E. by destruct (commit_framed flags ltac:(done) ltac:(done) ltac:(done) _ _ _ _ _ E)
    as [[_ ->]|(? & ? & ? & _ & ->)].
Qed.

(** The sequence number after a commit of at most one root, and that the ids go on. *)
Lemma append_sequence {W} `{storage W} j tx updates q w locations q' w' :
  journal_append j tx updates (q, w) = (Ok locations, (q', w')) → 0 ≤ q → q + size updates + 2 < u64_bound →
  q' = q + size updates + 2.
Proof.
  intros E Hq Hb. revert E. unfold journal_append, mbind, M_bind, on_fst, on_snd, get, put, when.
  rewrite build_batch_spec by done. destruct (append _ _ w) as [[off|e] w1]; [|done].
  destruct (bool_decide _); [destruct (flush_data _ w1) as [[[]|e] w2]; [|done]|]; by intros [= _ <- _].
Qed.
Lemma commit_sequence {W} `{storage W} t t' (h h' : heap_state) (w w' : W) :
  transaction_commit (t, (h, w)) = (Ok tt, (t', (h', w'))) → size (updates_of t) ≤ 1 →
  0 ≤ hs_wal_sequence h → hs_wal_sequence h + 3 < u64_bound →
  hs_wal_sequence h ≤ hs_wal_sequence h' ≤ hs_wal_sequence h + 3 ∧ hs_next_transaction h' = hs_next_transaction h.
Proof.
  intros E Hu Hq Hb. revert E. unfold transaction_commit, mbind, M_bind, on_fst, on_snd, get, modify.
  destruct (negb (tr_active t)); [done|]. destruct (commit _ _ _) as [[[]|e] [h1 w1]] eqn:Ec; [|done].
  intros [= _ <- <-]. pose proof (size_nonneg (updates_of t)).
  destruct (commit_framed (λ h, (hs_wal_sequence h, hs_next_transaction h)) ltac:(done) ltac:(done) ltac:(done) _ _ _ _ _ Ec)
    as [[_ [= -> _]]|(l & q & w2 & Ea & [= -> ->])]; [simpl; lia|].
  apply append_sequence in Ea; [|done|lia]. simpl. lia.
Qed.

Section sessions.
Context {W : Type} `{HW : storage_reliable W} (config : heap_config) (self : Z).
Implicit Types (t : transaction) (h : heap_state) (w : W) (A : amap).

(** An open heap in service. *)
Definition in_service h w A p : Prop :=
  heap_inv config h w A p ∧ reliable w ∧ hs_closed h = false ∧ hs_poisoned h = false.
Definition begun h : heap_state :=
  HeapState (hs_config h) (hs_wal_sequence h) (hs_cache h) (hs_roots h) (u64 (hs_next_transaction h + 1))
    (hs_closed h) (hs_poisoned h) (hs_last_sequence h).
Definition new_transaction h : transaction := Transaction self (hs_next_transaction h) true [] ∅.
Lemma in_service_begun h w A p : in_service h w A p → in_service (begun h) w A p.
Proof.
  intros ((image & cj & s & Hh & Hp) & Hr & Hc & Hpo). split_and!; [|done..].
  exists image, cj, s. split; [|done]. by destruct Hh; split.
Qed.
Lemma begin_in_service h w A p :
  in_service h w A p → transaction_begin self (h, w) = (Ok (new_transaction h), (begun h, w)).
Proof.
  intros (_ & _ & Hc & _). unfold transaction_begin, begin, state, update.
  unfold mbind, M_bind, on_fst, get, modify. by rewrite Hc.
Qed.
Lemma opened_in_service w A :
  cf_path config ≠ "" → 0 ≤ cf_cache_bytes config < 2 ^ 63 → recovers config w A → reliable w →
  ∃ h w1 p, heap_open config w = (Ok h, w1) ∧ in_service h w1 A p ∧ hs_next_transaction h = 1.
Proof.
  intros Hd Hcache Hrec Hrel.
  destruct (heap_open_spec config w A Hd Hcache Hrec) as (r & w1 & E & _ & Ho & Hok).
  destruct (Hok Hrel) as [[h ->] Hrel1]. destruct (Ho h eq_refl) as (s & -> & Hi).
  by exists (opened config s), w1, (s_pending s).
Qed.

(** A process that opens the heap again finds the same. *)
Lemma reopened_in_service h w A p :
  cf_path config ≠ "" → 0 ≤ cf_cache_bytes config < 2 ^ 63 → in_service h w A p →
  ∃ h' w', heap_open config w = (Ok h', w') ∧ in_service h' w' A p ∧
    hs_wal_sequence h' = hs_wal_sequence h ∧ hs_next_transaction h' = 1.
Proof.
  intros Hd Hcache ((image & cj & s & Hh & <-) & Hrel & _).
  destruct (heap_open_exact config w A image cj s Hd Hcache (hi_disk _ _ _ _ _ _ _ Hh)) as (r & w1 & E & _ & Ho & Hok).
  destruct (Hok Hrel) as [[h1 ->] Hrel1]. destruct (Ho h1 eq_refl) as [-> Hi]. exists (opened config s), w1.
  split_and!; [done|by split_and!|by rewrite (hi_sequence _ _ _ _ _ _ _ Hh)|done].
Qed.
(** A checkpoint leaves nothing unfinished. *)
Lemma checkpoint_in_service h w A p :
  in_service h w A p → saveable A →
  ∃ h' w', checkpoint (h, w) = (Ok tt, (h', w')) ∧ in_service h' w' A ∅ ∧
    hs_wal_sequence h' = hs_wal_sequence h ∧ hs_next_transaction h' = hs_next_transaction h.
Proof.
  intros (Hi & Hrel & Hc & Hpo) Hsave.
  destruct (checkpoint_locked_spec config h w A p Hi Hsave) as (r & h' & w' & E & _ & Hcl & Hps & Hnt & Hr & Hok).
  destruct (Hok Hrel) as [[[] ->] Hrel']. destruct (Hr eq_refl) as [Hi' _]. exists h', w'. split_and!; [| |  |done].
  - unfold checkpoint, state, mbind, M_bind, on_fst, get. rewrite Hc. exact E.
  - split_and!; [done|done|congruence|congruence].
  - pose proof (framed_checkpoint hs_wal_sequence ltac:(done) ltac:(done) (h, w)) as Hf. by rewrite E in Hf.
Qed.
(** On files that are not there yet. *)
Lemma fresh_in_service w :
  cf_path config ≠ "" → 0 ≤ cf_cache_bytes config < 2 ^ 63 →
  file_of w (wal_path config) = None → file_of w (snap_path config) = None → reliable w →
  ∃ h w', heap_open config w = (Ok h, w') ∧ in_service h w' ∅ ∅ ∧ hs_wal_sequence h = 0 ∧ hs_next_transaction h = 1 ∧
    hs_cache h = new_cache (cf_cache_bytes config).
Proof.
  intros Hd Hcache Hw Hs Hrel.
  assert (disk_state config w ∅ (Image ∅ 0) [] (initial_scan ∅ 0)) as Hds.
  { split; [by unfold parse_image; rewrite Hs|by rewrite Hw|reflexivity|intros n; constructor|by intros n a ?|done]. }
  destruct (heap_open_exact config w ∅ _ _ _ Hd Hcache Hds) as (r & w1 & E & _ & Ho & Hok).
  destruct (Hok Hrel) as [[h1 ->] Hrel1]. destruct (Ho h1 eq_refl) as [-> Hi].
  by exists (opened config (initial_scan ∅ 0)), w1.
Qed.

(** The root a session asks for. *)
Definition loaded_transaction h A (name : string) v : transaction :=
  add_root name (LoadedRoot (default 0 (a_version <$> A !! name)) None (bool_decide (is_Some (A !! name)))) v
    (new_transaction h).
Lemma loaded_transaction_ok h A name v : tx_ok (loaded_transaction h A name v).
Proof. apply add_root_ok; [apply new_transaction_ok|done]. Qed.
Lemma root_in_service h w A p name v :
  in_service h w A p → name ≠ "" → root_value A name = Ok v →
  ∃ k w', root name (new_transaction h, (begun h, w)) =
      (Ok 1, (loaded_transaction h A name v, (set_cache k (begun h), w'))) ∧
    in_service (set_cache k (begun h)) w' A p.
Proof.
  intros Hs Hname Hv. destruct (in_service_begun _ _ _ _ Hs) as (Hi & Hrel & Hc & Hpo).
  destruct (root_new config (new_transaction h) (begun h) w A p name Hi (new_transaction_ok _ _) eq_refl Hname)
    as (r & t' & k & w' & E & Hi' & _ & _ & Hr & Hok); [apply not_elem_of_nil|].
  destruct (Hok Hrel) as [Hrel' [token ->]]; [by exists v|]. destruct Hr as (v' & loaded & Ev & El & -> & ->).
  assert (v' = v) as -> by congruence. exists k, w'. split; [|by split_and!].
  rewrite E. do 3 f_equal. unfold loaded_transaction, add_root. f_equal. f_equal. f_equal.
  unfold load_result in El. destruct (A !! name) as [a|]; simpl.
  - case_bool_decide; [|done]. by injection El as <-.
  - by injection El as <-.
Qed.
Lemma data_of_loaded h A name v : data_of 1 (loaded_transaction h A name v) = Some v.
Proof. apply (data_of_added name _ v (new_transaction h)). Qed.

(** The map with the root replaced by the next version of it, and when a commit can store it. *)
Definition version_in A (name : string) : Z := default 0 (a_version <$> A !! name).
Definition with_root A (name : string) v : amap :=
  <[name := ARoot (version_in A name + 1) value_type_name (stored v)]> A.
Record storable h A (p : gmap Z pending_transaction) (name : string) v : Prop := {
  st_wf : wf_value v;
  st_version : 0 ≤ version_in A name < u64_bound - 1;
  st_size : size (e_bytes (encode_update (RootUpdate name (version_in A name) (u64 (version_in A name + 1))
    value_type_name (value_encode v)))) + 32 ≤ max_frame_size;
  st_saveable : saveable (with_root A name v);
  st_sequence : hs_wal_sequence h + 3 < u64_bound;
  st_id : is_u64 (hs_next_transaction h);
  st_new : p !! hs_next_transaction h = None
}.
Lemma root_value_with A name v : wf_value v → root_value (with_root A name v) name = Ok v.
Proof. intros Hv. eapply root_value_stored; [apply lookup_insert_eq|done]. Qed.

(** On an empty heap only sizes matter. *)
Lemma storable_first h name v :
  wf_value v → 40 + ssize name + ssize value_type_name + size (value_encode v) + 32 ≤ max_frame_size → ssize name ≤ 2 ^ 32 →
  hs_wal_sequence h + 3 < u64_bound → is_u64 (hs_next_transaction h) → storable h ∅ ∅ name v.
Proof.
  intros Hv Hz Hn Hq Hid. split; try done.
  - destruct (size_encode_update (RootUpdate name (version_in ∅ name) (u64 (version_in ∅ name + 1)) value_type_name (value_encode v)))
      as [-> ->]. exact Hz.
  - unfold saveable, with_root. rewrite insert_empty. split; [rewrite map_to_list_singleton; by apply Z.leb_le|]. intros n a.
    intros [<- <-]%lookup_singleton_Some. split_and!; [done|by apply Z.leb_le; vm_compute|]. simpl. unfold stored.
    pose proof (ssize_nonneg name). pose proof (ssize_nonneg value_type_name). lia.
Qed.

(** What a transaction whose one root was changed hands to the heap. *)
Lemma root_updates h A p name v0 v r :
  let t := set_working [r] (loaded_transaction h A name v0) in
  storable h A p name v → wr_name r = name → wr_expected r = version_in A name → wr_dirty r = true → content (wr_data r) = v →
  encodable t ∧ current t A ∧ updates_of t = [update_of r] ∧ a_commit (updates_of t) A = with_root A name v.
Proof.
  intros t [S1 S2 S3 S4 S5 S6 S7] Hn He Hd Hc.
  assert (updates_of t = [update_of r]) as Eu.
  { unfold updates_of, t. simpl. rewrite filter_cons. by rewrite decide_True. }
  split_and!; [| |done|].
  - constructor; [|constructor]. intros _. rewrite He. split; [exact S2|]. unfold update_of. rewrite Hc, Hn, He. exact S3.
  - constructor; [|constructor]. intros _. by rewrite Hn, He.
  - rewrite Eu. unfold with_root, stored. simpl. rewrite Hn, He, Hc. do 2 f_equal. apply u64_small. unfold is_u64. lia.
Qed.
(** Committing it. *)
Lemma commit_root h w A p name v0 v k r :
  let t := set_working [r] (loaded_transaction h A name v0) in
  in_service (set_cache k (begun h)) w A p → storable h A p name v → tx_ok t →
  wr_name r = name → wr_expected r = version_in A name → wr_dirty r = true → content (wr_data r) = v →
  ∃ h' w' p', transaction_commit (t, (set_cache k (begun h), w)) = (Ok tt, (set_active false t, (h', w'))) ∧
    in_service h' w' (with_root A name v) p' ∧ (p' = p ∨ p' = ∅).
Proof.
  intros t (Hi & Hrel & Hcl & Hpo) Hst Ht Hn He Hd Hc. pose proof Hst as [_ _ _ S4 S5 S6 S7].
  destruct (root_updates h A p name v0 v r Hst Hn He Hd Hc) as (Henc & Hcur & _ & Ea). fold t in Henc, Hcur, Ea.
  destruct (commit_publishes config _ _ A p t Hi Ht eq_refl Henc) as (t' & h' & w' & p' & E & -> & Hi' & Hr' & Hp'); try done.
  - simpl. unfold size. simpl. lia.
  - by rewrite Ea.
  - exists h', w', p'. split; [done|]. split; [|exact Hp']. rewrite <- Ea. split_and!; [done|done| |];
      revert E; unfold transaction_commit, mbind at 1, M_bind at 1, on_fst at 1, get at 1; cbn [negb tr_active set_working loaded_transaction add_root new_transaction t];
      unfold mbind, M_bind, on_snd, on_fst, modify;
      destruct (commit _ _ _) as [[[]|e] [h1 w1]] eqn:Ec; intros [= <- <-]; apply commit_flags in Ec;
      injection Ec as E1 E2 _; simpl in *; congruence.
Qed.
(** *** Editing the root that was loaded: what a client may do before it commits *)
Record edited h A (name : string) (v0 : value) (t : transaction) (r : working_root) (v : value) : Prop := {
  ed_transaction : t = set_working [r] (loaded_transaction h A name v0);
  ed_ok : tx_ok t;
  ed_name : wr_name r = name;
  ed_expected : wr_expected r = version_in A name;
  ed_content : content (wr_data r) = v;
  ed_clean : wr_dirty r = false → v = v0
}.
Lemma edited_start h A name v : ∃ r, edited h A name v (loaded_transaction h A name v) r v.
Proof.
  eexists (WorkingRoot _ _ _ _). split; [reflexivity|apply loaded_transaction_ok|done|done| |done].
  simpl. by rewrite content_bind, content_fresh.
Qed.
Lemma edited_edit h A name v0 t r v e :
  edited h A name v0 t r v → ∃ t' r', mutate 1 (run_edit e) t = t' ∧ edited h A name v0 t' r' (apply_edit e v).
Proof.
  intros [-> Ht Hn He Hc Hd].
  destruct (edit_root_spec _ O r e Ht eq_refl eq_refl) as (r' & E & C & N & X & D1 & D2).
  pose proof (mutate_ok _ O r _ Ht eq_refl eq_refl (run_edit_observed e)) as Hok. rewrite E in Hok.
  exists (set_working [r'] (loaded_transaction h A name v0)), r'. split; [exact E|].
  split; [done|exact Hok|congruence|congruence|by rewrite C, Hc|]. intros Hf.
  assert (wr_dirty r = false) as Hfr by (destruct (wr_dirty r); [by rewrite D1 in Hf|done]).
  rewrite <- Hc, D2 by done. rewrite Hc. by apply Hd.
Qed.
Lemma edited_data h A name v0 t r v : edited h A name v0 t r v → data_of 1 t = Some v.
Proof. by intros [-> _ _ _ <- _]. Qed.
(** [object_root], once [root] has the root. *)
Lemma object_root_loaded h A name v (s0 s : heap_state * W) :
  root name (new_transaction h, s0) = (Ok 1, (loaded_transaction h A name v, s)) →
  ∃ t r, object_root name (new_transaction h, s0) = (Ok 1, (t, s)) ∧ edited h A name v t r (apply_edit e_as_object v).
Proof using Type.
  intros E. destruct (edited_start h A name v) as [r0 Hr0].
  destruct (edited_edit h A name v _ _ _ e_as_object Hr0) as (t & r & E1 & Hr). exists t, r. split; [|done].
  unfold object_root. m_run E. change (mutate 1 (run_edit e_as_object)) with (mutate 1 as_object) in E1.
  unfold mbind, M_bind, on_fst, modify. by rewrite E1.
Qed.
(** Committing stores the new content, or there is nothing to store. *)
Lemma edited_commit h w A p name v0 t r v k :
  edited h A name v0 t r v → in_service (set_cache k (begun h)) w A p → storable h A p name v →
  ∃ t' h' w' A' p', transaction_commit (t, (set_cache k (begun h), w)) = (Ok tt, (t', (h', w'))) ∧
    in_service h' w' A' p' ∧ (p' = p ∨ p' = ∅) ∧ (A' = A ∧ v = v0 ∨ A' = with_root A name v) ∧
    hs_wal_sequence h ≤ hs_wal_sequence h' ≤ hs_wal_sequence h + 3 ∧
    hs_next_transaction h' = u64 (hs_next_transaction h + 1).
Proof.
  intros He Hs Hst. pose proof He as [-> Ht Hn Hx Hc Hd].
  assert (∃ t' h' w' A' p', transaction_commit (set_working [r] (loaded_transaction h A name v0), (set_cache k (begun h), w)) =
      (Ok tt, (t', (h', w'))) ∧ in_service h' w' A' p' ∧ (p' = p ∨ p' = ∅) ∧ (A' = A ∧ v = v0 ∨ A' = with_root A name v))
    as (t' & h' & w' & A' & p' & E & Hs' & Hp & HA).
  { destruct (wr_dirty r) eqn:Er.
    - destruct (commit_root h w A p name v0 v k r) as (h' & w' & p' & E & Hs' & Hp); try done. do 5 eexists.
      split; [exact E|]. split_and!; [exact Hs'|done|by right].
    - do 5 eexists. unfold transaction_commit, mbind, M_bind, on_fst, on_snd, get, modify. simpl.
      unfold updates_of. simpl. rewrite filter_cons, decide_False by by rewrite Er. simpl. split; [reflexivity|].
      split_and!; [exact Hs|by left|left; auto]. }
  exists t', h', w', A', p'. split_and!; [done|done|done|done| | |]; eapply commit_sequence in E as [? ?];
    try (simpl; unfold updates_of; simpl; rewrite filter_cons; case_decide; simpl; unfold size; simpl; lia);
    try apply Hst; simpl in *; try lia; try done;
    destruct Hs as ((image & cj & s & Hh & _) & _); pose proof (ds_sequence _ _ _ _ _ _ (hi_disk _ _ _ _ _ _ _ Hh)) as [_ [? _]];
    pose proof (hi_sequence _ _ _ _ _ _ _ Hh); simpl in *; lia.
Qed.
End sessions.
