(* ===== verification/CacheFrames.v ===== *)
(** * Invariants of the payload cache.

    What the operations of the heap do to its cache goes through [cache_get] and [cache_put]: a
    property of caches that these two keep is kept by [load], [commit] and [checkpoint], however
    they end. *)
From S2P Require Import Prelude.
From S2P Require Import Storage.
From S2P Require Import Journal.
From S2P Require Import Cache.
From S2P Require Import Heap.

Section keeps.
Context {W : Type} `{storage W} (R : payload_cache → Prop).
Definition keeps {X} (m : heap (W:=W) X) : Prop := ∀ s, R (hs_cache s.1) → R (hs_cache (m s).2.1).
Lemma keeps_bind {X Y} (m : heap (W:=W) X) (f : X → heap (W:=W) Y) : keeps m → (∀ x, keeps (f x)) → keeps (m ≫= f).
Proof. intros Hm Hf s Hs. specialize (Hm s Hs). unfold mbind, M_bind. destruct (m s) as [[x|e] s1]; [by apply Hf|done]. Qed.
Lemma keeps_catch {X} (m : heap (W:=W) X) f : keeps m → (∀ e, keeps (f e)) → keeps (catch m f).
Proof. intros Hm Hf s Hs. specialize (Hm s Hs). unfold catch. destruct (m s) as [[x|e] s1]; [done|by apply Hf]. Qed.
Lemma keeps_same {X} (m : heap (W:=W) X) : (∀ s, hs_cache (m s).2.1 = hs_cache s.1) → keeps m.
Proof. intros Hm s Hs. by rewrite Hm. Qed.
Lemma keeps_ret {X} (x : X) : keeps (mret x).
Proof. by intros s. Qed.
Lemma keeps_throw {X} e : keeps (X:=X) (throw e).
Proof. by intros s. Qed.
Lemma keeps_result {X} (r : result X) : keeps (lift_result r).
Proof. by intros s. Qed.
Lemma keeps_storage {X} (m : M W X) : keeps (on_snd m).
Proof. apply keeps_same. intros [h w]. unfold on_snd. by destruct (m w). Qed.
Lemma keeps_wal {X} (m : M (Z * W) X) : keeps (on_wal m).
Proof. apply keeps_same. intros [h w]. unfold on_wal. by destruct (m _) as [r [q w']]. Qed.
Lemma keeps_update f : (∀ h, hs_cache (f h) = hs_cache h) → keeps (update f).
Proof. intros Hf. apply keeps_same. intros [h w]. apply Hf. Qed.
Lemma keeps_state : keeps state.
Proof. by intros [h w]. Qed.
Lemma keeps_cache {X} (m : M payload_cache X) : (∀ c, R c → R (m c).2) → keeps (on_cache m).
Proof. intros Hm [h w] Hs. unfold on_cache. specialize (Hm _ Hs). simpl in *. by destruct (m (hs_cache h)). Qed.
End keeps.
Create HintDb keeps.
#[export] Hint Resolve keeps_ret keeps_throw keeps_result keeps_storage keeps_wal keeps_state : keeps.
#[export] Hint Extern 1 (keeps _ (_ ≫= _)) => apply keeps_bind; [|intros ?] : keeps.
#[export] Hint Extern 1 (keeps _ (catch _ _)) => apply keeps_catch; [|intros ?] : keeps.
#[export] Hint Extern 1 (keeps _ (update _)) => apply keeps_update; intros ?; reflexivity : keeps.
#[export] Hint Extern 2 (keeps _ (match ?x with _ => _ end)) => destruct x : keeps.


Section operations.
Context {W : Type} `{storage W} (R : payload_cache → Prop) (P : string → Z → list byte → Prop).
(** [R] is kept when a payload is stored that satisfies [P], and when one is asked for. *)
Class cache_invariant : Prop := {
  invariant_put n v p c : P n v p → R c → R (cache_put n v p c).2;
  invariant_get n v c : R c → R (cache_get n v c).2
}.
Context `{!cache_invariant}.
Abbreviation kept := (keeps (W:=W) R).
Lemma keeps_put n v p : P n v p → kept (on_cache (cache_put n v p)).
Proof. intros Hp. apply keeps_cache. intros c. by apply invariant_put. Qed.
Lemma keeps_get n v : kept (on_cache (cache_get n v)).
Proof. apply keeps_cache. intros c. apply invariant_get. Qed.
Hint Resolve keeps_put keeps_get : keeps.
Lemma keeps_load name : (∀ v p, P name v p) → kept (load name).
Proof. intros. unfold load, load_uncached. auto 20 with keeps. Qed.
Lemma keeps_checkpoint_locked : kept checkpoint_locked.
Proof. unfold checkpoint_locked. auto 20 with keeps. Qed.
Hint Resolve keeps_checkpoint_locked : keeps.
Definition puts (updates : list root_update) : Prop := Forall (λ u, P (u_name u) (u_new u) (u_payload u)) updates.
Lemma keeps_publish updates : puts updates → ∀ locations, kept (publish_updates updates locations).
Proof.
  induction 1 as [|u updates Hu Hall IH]; intros [|l locations]; cbn [publish_updates]; auto 10 with keeps.
Qed.
Lemma keeps_commit tx updates : puts updates → kept (commit tx updates).
Proof. intros Hp. pose proof (keeps_publish updates Hp). unfold commit. auto 20 with keeps. Qed.
Lemma keeps_checkpoint : kept checkpoint.
Proof. unfold checkpoint. auto 20 with keeps. Qed.
Lemma keeps_integrity : kept integrity.
Proof. unfold integrity. auto 20 with keeps. Qed.
End operations.
#[export] Hint Resolve keeps_checkpoint keeps_integrity : keeps.

(** Coherence is such an invariant. *)
#[export] Instance coherent_invariant P : cache_invariant (coherent P) P.
Proof.
  split.
  - intros n v p c Hp Hc. destruct (put_coherent P c n v p Hc Hp) as (c' & -> & Hc'). exact Hc'.
  - intros n v c Hc. destruct (get_coherent P c n v Hc) as (r & c' & -> & Hc' & _). exact Hc'.
Qed.

(** ** Counting evictions

    As long as the counter does not wrap, every entry that was put is in the cache, or was replaced,
    or was counted when it was evicted. *)
Section counts.
Implicit Types (c : payload_cache).
(** At most [n] entries have been put into a cache of this limit. *)
Record counted (limit n : Z) c : Prop := {
  ct_ok : cache_ok c;
  ct_limit : c_limit c = limit;
  ct_evictions : 0 ≤ c_evictions c;
  ct_puts : c_evictions c + size (c_lru c) ≤ n
}.
Lemma counted_more limit n m c : counted limit n c → n ≤ m → counted limit m c.
Proof. intros [? ? ? ?] ?. split; try done. lia. Qed.
Lemma counted_new limit : 0 ≤ limit < 2 ^ 63 → counted limit 0 (new_cache limit).
Proof. intros Hl. split; [by apply new_cache_ok|done|done|done]. Qed.
(** Nothing has been evicted, and of the other names nothing is lost. *)
Definition unharmed (name : string) c c' : Prop :=
  c_evictions c' = 0 → c_evictions c = 0 ∧ ∀ n v p, n ≠ name → holds c n v p → holds c' n v p.

Lemma erase_evictions it c : c_evictions (cache_erase it c).2 = c_evictions c.
Proof. unfold cache_erase, mbind, M_bind, deref. by destruct (node_at it (c_lru c)). Qed.
Lemma erase_counted limit n c it e :
  counted limit n c → (it, e) ∈ c_lru c →
  ∃ c', cache_erase it c = (Ok tt, c') ∧ counted limit n c' ∧ c_evictions c' = c_evictions c ∧
    size (c_lru c') = size (c_lru c) - 1 ∧ (∀ m v p, m ≠ e_name e → holds c m v p → holds c' m v p).
Proof.
  intros [Hok Hl He Hp] Hin. destruct (cache_erase_ok c it e Hok Hin) as (c' & l1 & l2 & E & Hok' & Hl' & _ & _ & E1 & E2 & _).
  pose proof (erase_evictions it c) as Ev. rewrite E in Ev. simpl in Ev. exists c'.
  assert (size (c_lru c') = size (c_lru c) - 1) as Es by (rewrite E1, E2; autorewrite with size; lia).
  split_and!; [done| |done|done|].
  - split; [done|congruence|lia|lia].
  - intros m v p Hm (it' & e' & Hin' & ->). exists it', (Entry m v p). split; [|done]. rewrite E1 in Hin'. rewrite E2.
    apply elem_of_app. apply elem_of_app in Hin' as [?|[[= _ <-]|?]%elem_of_cons]; [by left|by destruct Hm|by right].
Qed.
Lemma counted_same limit n c c' :
  counted limit n c → cache_ok c' → c_limit c' = c_limit c → c_evictions c' = c_evictions c → size (c_lru c') = size (c_lru c) →
  counted limit n c'.
Proof. intros [? ? ? ?] ? ? ? ?. split; [done|congruence|lia|lia]. Qed.
Lemma get_counted limit n c name version :
  counted limit n c → ∃ r c', cache_get name version c = (Ok r, c') ∧ counted limit n c' ∧ unharmed name c c'.
Proof.
  intros Hc. pose proof (ct_ok _ _ _ Hc) as Hok. unfold cache_get, get. rewrite (bind_ok _ _ _ c c) by done.
  destruct (c_entries c !! name) as [it|] eqn:E.
  2:{ exists None, (count_miss c). split_and!; [done|by apply (counted_same _ _ c); [|apply count_ok|..]|by intros ?]. }
  destruct (ok_deref c name it Hok E) as (e & Hd & He & Hn). m_run Hd. destruct (Z.eqb_spec (e_version e) version) as [Hv|]; cbn [negb].
  - destruct (unlink_spec it e _ (ok_iterators c Hok) He) as (l1 & l2 & El & Eu).
    exists (Some (e_payload e)), (set_lru ((it, e) :: l1 ++ l2) (count_hit c)). split_and!; [by rewrite <- Eu| |].
    + apply (counted_same _ _ c); [done|by apply to_front_ok; [apply count_ok|]|done|done|]. cbn [set_lru c_lru]. rewrite El. autorewrite with size. lia.
    + intros H0. split; [done|]. intros m v p Hm (it' & e' & Hin & ->). exists it', (Entry m v p). split; [|done].
      simpl. rewrite El in Hin. rewrite elem_of_cons, elem_of_app. rewrite elem_of_app, elem_of_cons in Hin. tauto.
  - assert (counted limit n (count_miss c)) as Hm by (by apply (counted_same _ _ c); [|apply count_ok|..]).
    destruct (erase_counted limit n (count_miss c) it e Hm He) as (c' & Er & Hc' & Ev & _ & Hh). exists None, c'. split_and!; [|done|].
    + rewrite (bind_ok _ _ _ (count_miss c) tt) by done. by m_run Er.
    + intros H0. split; [simpl in Ev; congruence|]. intros m v p Hm'. apply Hh. congruence.
Qed.
Lemma evict_counted limit n fuel incoming : ∀ c r c',
  counted limit n c → n < u64_bound → evict fuel incoming c = (r, c') →
  counted limit n c' ∧ c_evictions c ≤ c_evictions c' ∧ (c_evictions c' = c_evictions c → c_lru c' = c_lru c).
Proof.
  induction fuel as [|fuel IH]; intros c r c' Hc Hn; cbn [evict]; unfold mbind at 1, M_bind at 1, get;
    (destruct (last (c_lru c)) as [[it e]|] eqn:El; [destruct (_ >? _)|]); try by intros [= <- <-].
  apply last_Some in El as [l El]. assert ((it, e) ∈ c_lru c) as Hin by (rewrite El; apply elem_of_app; right; by left).
  destruct (erase_counted limit n c it e Hc Hin) as (c1 & Er & Hc1 & Ev1 & Hsz & _). unfold mbind at 1, M_bind at 1. rewrite Er.
  unfold mbind at 1, M_bind at 1, modify. intros E. pose proof (ct_puts _ _ _ Hc) as Hp. pose proof (ct_evictions _ _ _ Hc).
  pose proof (size_nonneg (c_lru c1)).
  assert (c_evictions (count_eviction c1) = c_evictions c + 1) as Ev2 by (simpl; rewrite Ev1, u64_small; [done|unfold is_u64; lia]).
  destruct (IH (count_eviction c1) r c') as (Hc' & Hle & _); [|done|exact E|].
  - split; [by apply count_ok, Hc1|by apply Hc1|lia|]. change (c_lru (count_eviction c1)) with (c_lru c1). lia.
  - split_and!; [done|lia|lia].
Qed.
Lemma put_counted limit n c name version payload :
  counted limit n c → n + 1 < u64_bound →
  ∃ c', cache_put name version payload c = (Ok payload, c') ∧ counted limit (n + 1) c' ∧ unharmed name c c'.
Proof.
  intros Hc Hn. destruct (cache_put_ok c name version payload (ct_ok _ _ _ Hc)) as (c' & E & Hok' & Hl' & _). exists c'. split; [done|].
  revert E. unfold cache_put. unfold mbind at 1, M_bind at 1, get.
  destruct ((c_limit c =? 0) || (size payload >? c_limit c)).
  { intros [= <-]. split; [eapply counted_more; [done|lia]|by intros ?]. }
  assert (∃ c1, match c_entries c !! name with Some it => cache_erase it | None => mret tt end c = (Ok tt, c1) ∧
    counted limit n c1 ∧ c_evictions c1 = c_evictions c ∧ (∀ m v p, m ≠ name → holds c m v p → holds c1 m v p)) as (c1 & E1 & Hc1 & Ev1 & Hh1).
  { destruct (c_entries c !! name) as [it|] eqn:Ex; [|by exists c].
    destruct (ok_deref c name it (ct_ok _ _ _ Hc) Ex) as (e & _ & Hin & <-).
    destruct (erase_counted limit n c it e Hc Hin) as (c1 & Er & Hc1 & Ev & _ & Hh). by exists c1. }
  unfold mbind at 1, M_bind at 1. rewrite E1. unfold mbind at 1, M_bind at 1. unfold mbind at 1, M_bind at 1.
  destruct (evict (length (c_lru c1)) (size payload) c1) as [[[]|e] c2] eqn:E2; [|done].
  destruct (evict_counted limit n _ _ _ _ _ Hc1 ltac:(lia) E2) as (Hc2 & Hle & Hsame). intros [= <-]. split.
  - split; [done|rewrite Hl'; apply Hc|apply Hc2|]. unfold push_entry. simpl. pose proof (ct_puts _ _ _ Hc2). autorewrite with size. lia.
  - intros H0. simpl in H0. pose proof (ct_evictions _ _ _ Hc1). assert (c_evictions c1 = 0) as H1 by lia. split; [lia|].
    intros m v p Hm Hh. destruct (Hh1 m v p Hm Hh) as (it & e & Hin & ->). exists it, (Entry m v p). split; [|done].
    unfold push_entry. simpl. right. by rewrite Hsame by lia.
Qed.
(** Names with payloads of this size take their room. *)
Lemma held_bytes k names : ∀ l, NoDup names →
  (∀ n, n ∈ names → ∃ it e, (it, e) ∈ l ∧ e_name e = n ∧ k ≤ size (e_payload e)) → k * size names ≤ total_bytes l.
Proof.
  induction names as [|n names IH]; intros l Hd Hn; [unfold size; simpl; pose proof (total_bytes_nonneg l); lia|].
  apply NoDup_cons in Hd as [Hnot Hd]. destruct (Hn n ltac:(by left)) as (it & e & Hin & En & Hk).
  apply list_elem_of_split in Hin as (l1 & l2 & ->). assert (k * size names ≤ total_bytes (l1 ++ l2)) as Hrest.
  { apply IH; [done|]. intros m Hm. destruct (Hn m ltac:(by right)) as (it' & e' & Hin' & En' & Hk'). exists it', e'. split; [|done].
    apply elem_of_app. apply elem_of_app in Hin' as [?|[[= -> ->]|?]%elem_of_cons]; [by left| |by right]. subst. by destruct Hnot. }
  rewrite total_bytes_app in *. cbn [total_bytes foldr snd]. fold (total_bytes l2). autorewrite with size. lia.
Qed.
End counts.

Section counted_loads.
Context {W : Type} `{storage W}.
Implicit Types (h : heap_state) (w : W).
Lemma unharmed_refl name c : unharmed name c c.
Proof. by intros ?. Qed.
Lemma unharmed_trans name c c1 c2 : unharmed name c c1 → unharmed name c1 c2 → unharmed name c c2.
Proof. intros H1 H2 H0. destruct (H2 H0) as [H01 K2]. destruct (H1 H01) as [H00 K1]. split; [done|]. intros n v p Hn Hh. by apply K2, K1. Qed.
Lemma load_uncached_counted limit n name h w r h' w' :
  counted limit n (hs_cache h) → n + 1 < u64_bound → load_uncached name (h, w) = (r, (h', w')) →
  counted limit (n + 1) (hs_cache h') ∧ unharmed name (hs_cache h) (hs_cache h').
Proof.
  intros Hc Hn. unfold load_uncached, state. unfold mbind at 1, M_bind at 1, on_fst, get.
  destruct (hs_roots h !! name) as [record|].
  2:{ intros [= _ <- _]. split; [apply (counted_more _ n); [done|lia]|apply unharmed_refl]. }
  unfold mbind at 1, M_bind at 1, on_snd. destruct (load_payload _ _ w) as [[bytes|e] w1].
  2:{ intros [= _ <- _]. split; [apply (counted_more _ n); [done|lia]|apply unharmed_refl]. }
  unfold mbind at 1, M_bind at 1, on_cache. destruct (put_counted limit n (hs_cache h) name (rr_version record) bytes Hc Hn) as (c' & -> & Hc' & Hu).
  by intros [= _ <- _].
Qed.
Lemma load_counted limit n name h w r h' w' :
  counted limit n (hs_cache h) → n + 1 < u64_bound → load name (h, w) = (r, (h', w')) →
  counted limit (n + 1) (hs_cache h') ∧ unharmed name (hs_cache h) (hs_cache h').
Proof.
  intros Hc Hn. unfold load, state. unfold mbind at 1, M_bind at 1, on_fst, get.
  destruct (hs_roots h !! name) as [record|].
  2:{ intros [= _ <- _]. split; [apply (counted_more _ n); [done|lia]|apply unharmed_refl]. }
  destruct (negb _).
  { intros [= _ <- _]. split; [apply (counted_more _ n); [done|lia]|apply unharmed_refl]. }
  unfold mbind at 1, M_bind at 1, on_cache. destruct (get_counted limit n (hs_cache h) name (rr_version record) Hc) as (x & c & -> & Hc' & Hu).
  destruct x as [bytes|].
  - intros [= _ <- _]. split; [apply (counted_more _ n); [done|lia]|done].
  - intros E. destruct (load_uncached_counted limit n name (set_cache c h) w r h' w') as [H1 H2]; [done..|]. split; [done|]. by eapply unharmed_trans.
Qed.
End counted_loads.
