(* ===== verification/CliTheorems.v ===== *)
(** * Properties of the command-line client. *)
From S2P Require Import Prelude.
From S2P Require Import Binary.
From S2P Require Import OrderedMap.
From S2P Require Import Value.
From S2P Require Import Observer.
From S2P Require Import Codec.
From S2P Require Import Storage.
From S2P Require Import Journal.
From S2P Require Import Recovery.
From S2P Require Import Snapshot.
From S2P Require Import Cache.
From S2P Require Import Heap.
From S2P Require Import HeapSpec.
From S2P Require Import Transaction.
From S2P Require Import TransactionSpec.
From S2P Require Import Quiet.
From S2P Require Import Chars.
From S2P Require Import Console.
From S2P Require Import Json.
From S2P Require Import Cli.
From S2P Require Import HeapTheorems.
From S2P Require Import TransactionTheorems.
From S2P Require Import Sessions.
From Stdlib Require Import Ascii.
#[local] Open Scope Z_scope.

(** What is printed, one piece after the other. *)
Definition printed (c : console) (text : string) : console :=
  Console (cn_input c) (cn_output c +:+ text) (cn_error c).

(** ** Dotted paths *)
Definition join_dots (first : list ascii) (parts : list (list ascii)) : list ascii :=
  first ++ concat (cons "."%char <$> parts).
Definition no_dot (l : list ascii) : Prop := Forall (λ c, char_is c "." = false) l.
Lemma split_join first parts :
  no_dot first → Forall no_dot parts → split_dots (join_dots first parts) = first :: parts.
Proof.
  intros Hf Hp. revert first Hf. induction Hp as [|part parts Hpart Hp IH]; intros first Hf; unfold join_dots in *; simpl.
  - rewrite app_nil_r. induction Hf as [|c l Hc Hl IHl]; [done|]. simpl. by rewrite IHl, Hc.
  - induction Hf as [|c l Hc Hl IHl]; simpl; [by rewrite IH|]. by rewrite IHl, Hc.
Qed.

Section cli_spec.
Context {W : Type} `{HW : storage_reliable W} (config : heap_config) (self : Z).
Implicit Types (t : transaction) (h : heap_state) (w : W) (A : amap) (c : console).

#[local] Abbreviation in_service := (in_service (W:=W) config).
#[local] Abbreviation new_transaction := (new_transaction self).
#[local] Abbreviation loaded_transaction := (loaded_transaction self).

Lemma in_transaction_spec {X} (m : editing (W:=W) X) c h w A p :
  in_service h w A p →
  in_transaction self m (c, (h, w)) =
    let '(r, (c', (_, s'))) := m (c, (new_transaction h, (begun h, w))) in (r, (c', s')).
Proof.
  intros Hs. unfold in_transaction, mbind, M_bind, on_snd. by rewrite (begin_in_service config self h w A p Hs).
Qed.
Lemma read_loaded c s h A name v :
  read_root (W:=W) 1 (c, (loaded_transaction h A name v, s)) = (Ok v, (c, (loaded_transaction h A name v, s))).
Proof.
  unfold read_root, mbind, M_bind, on_snd, on_fst, get. by rewrite data_of_loaded.
Qed.
Lemma run_get_spec c h w A p path name keys v u text :
  in_service h w A p → split_dots (chars_of path) = chars_of name :: keys → name ≠ "" →
  root_value A name = Ok v → is_null v = false → get_properties v keys = Ok u → write_json u = Ok text →
  ∃ h' w', run_get self path [] (c, (h, w)) =
      (Ok 0, (printed (printed c (text_of text)) end_of_line, (h', w'))) ∧ in_service h' w' A p.
Proof.
  intros Hs Hsplit Hname Hv Hnull Hu Ht. unfold run_get. rewrite bool_decide_true by done. cbn [negb].
  rewrite (in_transaction_spec _ _ _ _ _ _ Hs). unfold get_path. rewrite Hsplit, text_of_chars_of.
  rewrite bool_decide_false by done. destruct (root_in_service config self h w A p name v Hs Hname Hv) as (k & w' & E & Hs').
  exists (set_cache k (begun h)), w'. split; [|done].
  unfold mbind, M_bind, on_snd at 1. rewrite E, read_loaded, Hnull. unfold lift_result. rewrite Hu.
  unfold put_json, mbind, M_bind, lift_result. rewrite Ht. done.
Qed.

(** ** Writing a root *)

(** The root after the assignment. *)
Definition assigned (n : node) (v : value) (name : string) (A : amap) : working_root :=
  WorkingRoot name (default 0 (a_version <$> A !! name)) true (assign_move (fresh v) n).1.
Lemma assign_spec h A name v0 v :
  ∃ n, mutate 1 (assign_move (fresh v)) (loaded_transaction h A name v0) =
      set_working [assigned n v name A] (loaded_transaction h A name v0) ∧
    content (wr_data (assigned n v name A)) = v ∧
    tx_ok (set_working [assigned n v name A] (loaded_transaction h A name v0)).
Proof.
  set (t := loaded_transaction h A name v0).
  assert (tx_ok t) as Ht by apply loaded_transaction_ok.
  pose proof (replace_observed ck_value (n_data (fresh v))) as Ho. change (replace ck_value (n_data (fresh v))) with (assign_move (fresh v)) in Ho.
  destruct (tr_roots t !! O) as [r|] eqn:Er; [|done].
  pose proof (tk_bound _ Ht O r Er) as Hb. exists (wr_data r).
  pose proof (mutate_spec t O r _ Ht eq_refl Er Ho) as E. pose proof (mutate_ok t O r _ Ht eq_refl Er Ho) as Hok.
  rewrite E in Hok. change (Z.of_nat 0 + 1) with 1 in E.
  assert ((assign_move (fresh v) (wr_data r)).2 ≠ []) as Hne.
  { unfold assign_move, replace. destruct (variant_assign _ _) as [d e]. simpl.
    rewrite (bound_binding _ _ Hb). destruct e; done. }
  unfold assigned. injection Er as <-. simpl in E, Hok, Hne |- *.
  rewrite (bool_decide_eq_false_2 _ Hne), orb_true_r in E, Hok. split_and!; [exact E| |exact Hok].
  unfold assign_move. rewrite replace_content. pose proof (content_fresh v) as Ec. by destruct (fresh v).
Qed.

Lemma run_write_spec c h w A p command name argument v0 v text :
  in_service h w A p → name ≠ "" → root_value A name = Ok v0 →
  (command = "create" ∧ is_null v0 = true ∨ command = "update" ∧ is_null v0 = false) → argument ≠ "-" →
  Json.parse argument = Ok v → write_json v = Ok text → storable h A p name v →
  ∃ h' w' p', run_edit_command self command name [argument] (c, (h, w)) =
      (Ok 0, (printed (printed c (text_of text)) end_of_line, (h', w'))) ∧
    heap_inv config h' w' (with_root A name v) p' ∧ reliable w'.
Proof.
  intros Hs Hname Hv0 Hcmd Harg Hparse Htext Hst. unfold run_edit_command. rewrite bool_decide_false by done.
  rewrite (in_transaction_spec _ _ _ _ _ _ Hs).
  destruct (root_in_service config self h w A p name v0 Hs Hname Hv0) as (k & w1 & E & Hs1).
  destruct (assign_spec h A name v0 v) as (n & Em & Hc & Ht).
  destruct (commit_root config self h w1 A p name v0 v k _ Hs1 Hst Ht eq_refl eq_refl eq_refl Hc)
    as (h' & w' & p' & Ec & (Hi' & Hr' & _) & _).
  exists h', w', p'. split; [|done].
  assert (bool_decide (command = "delete") = false ∧ is_one_of command ["create"; "update"] = true ∧
    bool_decide (command = "create") && negb (is_null v0) = false ∧ bool_decide (command = "update") && is_null v0 = false)
    as (Hdel & Hone & Hc1 & Hc2) by by destruct Hcmd as [[-> ->]|[-> ->]].
  unfold mbind at 1, M_bind at 1, on_snd at 1. rewrite E, Hdel. unfold run_write. rewrite Hone. cbn [negb].
  unfold mbind, M_bind. rewrite read_loaded, Hc1, Hc2. unfold read_json_argument, parse_payload.
  rewrite bool_decide_false by done. cbn [negb]. unfold mret, M_ret, lift_result. rewrite Hparse.
  unfold on_snd, on_fst, modify. rewrite Em, Ec. unfold read_root, mbind, M_bind, on_snd, on_fst, get.
  assert (data_of 1 (set_active false (set_working [assigned n v name A] (loaded_transaction h A name v0))) = Some v) as ->.
  { unfold data_of. simpl. f_equal. exact Hc. }
  unfold put_json, mbind, M_bind, lift_result. cbn beta iota zeta. unfold put_json, mret, M_ret, mbind, M_bind. rewrite Htext. done.
Qed.
End cli_spec.

(** ** Commands that only read

    [calm] is [quiet] with a console beside it; a [still] command leaves the storage recovering to
    the map it recovered to. *)
Section calm.
Context {W : Type} `{HW : storage_reliable W} (config : heap_config).
Implicit Types (t : transaction) (h : heap_state) (w : W) (A : amap) (c : console).
Definition calm {X} (m : editing (W:=W) X) : Prop := ∀ c t h w A p,
  heap_inv config h w A p → tx_ok t → tr_active t = true →
  ∃ r c' t' h' w', m (c, (t, (h, w))) = (r, (c', (t', (h', w')))) ∧ before_commit config A p t h w t' h' w'.
Lemma calm_console {X} (m : editing (W:=W) X) :
  (∀ c s, ∃ r c', m (c, s) = (r, (c', s))) → calm m.
Proof.
  intros Hm c t h w A p ? ? ?. destruct (Hm c (t, (h, w))) as (r & c' & E).
  exists r, c', t, h, w. split; [exact E|by apply before_commit_refl].
Qed.
Lemma calm_session {X} (m : session (W:=W) X) : quiet config m → calm (on_snd m).
Proof.
  intros Hm c t h w A p Hi Ht Ha. destruct (Hm t h w A p Hi Ht Ha) as (r & t' & h' & w' & E & Hb).
  exists r, c, t', h', w'. split; [|done]. unfold on_snd. by rewrite E.
Qed.
Lemma calm_bind {X Y} (m : editing (W:=W) X) (f : X → editing (W:=W) Y) :
  calm m → (∀ x, calm (f x)) → calm (m ≫= f).
Proof.
  intros Hm Hf c t h w A p Hi Ht Ha. destruct (Hm c t h w A p Hi Ht Ha) as (r & c1 & t1 & h1 & w1 & E & Hb).
  unfold mbind, M_bind. rewrite E. destruct r as [x|e]; [|by exists (Throw e), c1, t1, h1, w1].
  pose proof Hb as [B1 B2 B3 _ _ _].
  destruct (Hf x c1 t1 h1 w1 A p B1 B2 B3) as (r2 & c2 & t2 & h2 & w2 & -> & Hb2).
  exists r2, c2, t2, h2, w2. split; [done|]. by eapply before_commit_trans.
Qed.
Lemma calm_ret {X} (x : X) : calm (mret x).
Proof. apply calm_console. intros c s. by do 2 eexists. Qed.
Lemma calm_throw {X} e : calm (throw (A:=X) e).
Proof. apply calm_console. intros c s. by do 2 eexists. Qed.
Lemma calm_result {X} (r : result X) : calm (lift_result r).
Proof. apply calm_console. intros c s. by do 2 eexists. Qed.
Lemma calm_put text : calm (put text).
Proof. apply calm_console. intros c s. by do 2 eexists. Qed.
Lemma quiet_heap {X} (f : heap_state → X) : quiet (W:=W) config (on_snd (h ← state; mret (f h))).
Proof. intros t h w A p ? ? ?. unchanged. Qed.
Lemma calm_read_root token : calm (read_root token).
Proof.
  apply calm_console. intros c [t s]. unfold read_root, mbind, M_bind, on_snd, on_fst, get.
  destruct (data_of token t); by do 2 eexists.
Qed.
Lemma calm_if {X} (b : bool) (m1 m2 : editing (W:=W) X) : calm m1 → calm m2 → calm (if b then m1 else m2).
Proof. by destruct b. Qed.
End calm.

Create HintDb calm.
#[export] Hint Resolve calm_ret calm_throw calm_result calm_put calm_session calm_read_root quiet_root quiet_heap : calm.
#[export] Hint Extern 1 (calm _ (_ ≫= _)) => apply calm_bind; [|intros ?] : calm.
#[export] Hint Extern 1 (calm _ (if _ then _ else _)) => apply calm_if : calm.

Section still.
Context {W : Type} `{HW : storage_reliable W} (config : heap_config) (self : Z).
Implicit Types (t : transaction) (h : heap_state) (w : W) (A : amap) (c : console).
Lemma calm_put_json v : calm (W:=W) config (put_json v).
Proof. unfold put_json. auto with calm. Qed.
Hint Resolve calm_put_json : calm.
Lemma calm_put_roots first names : calm (W:=W) config (put_roots first names).
Proof. revert first. induction names; intros first; simpl; auto 10 with calm. Qed.
Lemma calm_get_path path : calm (W:=W) config (get_path path).
Proof. unfold get_path. case_match; auto 10 with calm. Qed.
Hint Resolve calm_put_roots calm_get_path : calm.
Definition still {X} (m : command (W:=W) X) : Prop := ∀ c h w A p,
  heap_inv config h w A p → saveable A → ∃ r c' h' w', m (c, (h, w)) = (r, (c', (h', w'))) ∧ recovers config w' A.
Lemma still_throw {X} e : still (throw (A:=X) e).
Proof. intros c h w A p Hi _. do 4 eexists. split; [done|]. by eapply heap_inv_recovers. Qed.
Lemma still_transaction {X} (m : editing (W:=W) X) : calm config m → still (in_transaction self m).
Proof.
  intros Hm c h w A p Hi _. unfold in_transaction, mbind, M_bind, on_snd.
  destruct (begin_spec config self h w A p Hi) as [[_ ->]|(h1 & -> & Hi1)].
  { do 4 eexists. split; [done|]. by eapply heap_inv_recovers. }
  destruct (Hm c _ h1 w A p Hi1 (new_transaction_ok self (hs_next_transaction h)) eq_refl) as (r & c' & t' & h' & w' & E & Hb).
  unfold with_object. rewrite E. do 4 eexists. split; [done|]. destruct Hb as [B _ _ _ _ _]. by eapply heap_inv_recovers.
Qed.
Definition reader (name : string) : bool := is_one_of name ["get"; "inspect"; "verify"; "checkpoint"].
Lemma still_command name rest : reader name = true → still (run_command self name rest).
Proof.
  unfold reader, is_one_of. intros Hn%bool_decide_eq_true. rewrite !elem_of_cons, elem_of_nil in Hn.
  destruct Hn as [->|[->|[->|[->|[]]]]].
  - destruct rest as [|path rest]; [apply still_throw|].
    change (run_command self "get" (path :: rest)) with (run_get (W:=W) self path rest). unfold run_get.
    destruct (negb _); [apply still_throw|]. apply still_transaction. auto 10 with calm.
  - change (run_command self "inspect" rest) with (run_inspect (W:=W) self rest). unfold run_inspect.
    destruct (negb _); [apply still_throw|]. apply still_transaction. auto 10 with calm.
  - change (run_command self "verify" rest) with (run_verify (W:=W) rest). unfold run_verify.
    destruct (negb _); [apply still_throw|]. intros c h w A p Hi _.
    destruct (integrity_spec config h w A p Hi) as (report & w' & E & Hs & _).
    unfold mbind, M_bind, on_snd. rewrite E. do 4 eexists. split; [done|].
    eapply heap_inv_recovers, heap_inv_same_files; done.
  - change (run_command self "checkpoint" rest) with (run_checkpoint (W:=W) rest). unfold run_checkpoint.
    destruct (negb _); [apply still_throw|]. intros c h w A p Hi Hsave.
    unfold checkpoint, mbind, M_bind, on_snd, state, on_fst, get. destruct (hs_closed h).
    { do 4 eexists. split; [done|]. by eapply heap_inv_recovers. }
    destruct (checkpoint_locked_spec config h w A p Hi Hsave) as (r & h' & w' & -> & Hr & _).
    destruct r as [[]|e]; do 4 eexists; (split; [done|exact Hr]).
Qed.
End still.

(** ** Commands of their own process *)
Section processes.
Context {W : Type} `{HW : storage_reliable W} (directory : string).
Implicit Types (h : heap_state) (w : W) (A : amap) (c : console).
Definition config_of : heap_config := default_config directory.
Lemma run_options self c w command rest :
  is_one_of command ["-C"; "--path"; "help"; "--help"; "-h"] = false →
  cli_run self ("-C" :: directory :: command :: rest) (c, w) =
    (h ← on_snd (heap_open config_of); with_object h (run_command self command rest)) (c, w).
Proof.
  intros Hc. assert (is_one_of command ["-C"; "--path"] = false ∧ is_one_of command ["help"; "--help"; "-h"] = false) as [Hc1 Hc2].
  { unfold is_one_of in *. apply bool_decide_eq_false in Hc.
    split; apply bool_decide_eq_false_2; intros Hin; apply Hc; rewrite !elem_of_cons in *; tauto. }
  unfold cli_run. assert (options "." ("-C" :: directory :: command :: rest) = Ok (directory, command :: rest)) as ->.
  { simpl. by rewrite Hc1. }
  unfold lift_result, mbind, M_bind, on_snd. cbn beta iota delta [fst snd]. by rewrite Hc2.
Qed.
Lemma execute_opened self c w h w1 command rest :
  heap_open config_of w = (Ok h, w1) → is_one_of command ["-C"; "--path"; "help"; "--help"; "-h"] = false →
  cli_run self ("-C" :: directory :: command :: rest) (c, w) =
    let '(r, (c', (_, w'))) := run_command self command rest (c, (h, w1)) in (r, (c', w')).
Proof. intros Eo Hc. rewrite run_options by done. unfold mbind, M_bind, on_snd. by rewrite Eo. Qed.
Lemma execute_failed self c w e w1 command rest :
  heap_open config_of w = (Throw e, w1) → is_one_of command ["-C"; "--path"; "help"; "--help"; "-h"] = false →
  cli_run self ("-C" :: directory :: command :: rest) (c, w) = (Throw e, (c, w1)).
Proof. intros Eo Hc. rewrite run_options by done. unfold mbind, M_bind, on_snd. by rewrite Eo. Qed.
Lemma execute_ok self c w arguments n c' w' :
  cli_run self arguments (c, w) = (Ok n, (c', w')) → cli_execute self arguments (c, w) = (Ok n, (c', w')).
Proof. intros E. unfold cli_execute, catch. by rewrite E. Qed.

Lemma get_prints self c w A name keys v u text :
  directory ≠ "" → recovers config_of w A → reliable w → no_dot name → Forall no_dot keys → name ≠ [] →
  root_value A (text_of name) = Ok v → is_null v = false → get_properties v keys = Ok u → write_json u = Ok text →
  ∃ w', cli_execute self ["-C"; directory; "get"; text_of (join_dots name keys)] (c, w) =
      (Ok 0, (printed (printed c (text_of text)) end_of_line, w')) ∧ recovers config_of w' A ∧ reliable w'.
Proof.
  intros Hd Hrec Hrel Hn Hk Hne Hv Hnull Hu Ht.
  destruct (opened_in_service config_of w A Hd ltac:(done) Hrec Hrel) as (h & w1 & p & Eo & Hs & _).
  destruct (run_get_spec config_of self c h w1 A p (text_of (join_dots name keys)) (text_of name) keys v u text Hs)
    as (h' & w' & E & Hs'); try done.
  { by rewrite !chars_of_text_of, split_join. }
  { by destruct name. }
  exists w'. split; [|destruct Hs' as (? & ? & _); split; [by eapply heap_inv_recovers|done]].
  apply execute_ok. rewrite (execute_opened _ _ _ _ _ _ _ Eo) by done.
  change (run_command self "get" [text_of (join_dots name keys)]) with (run_get (W:=W) self (text_of (join_dots name keys)) []).
  by rewrite E.
Qed.

(** C28: A root that a command creates or updates is what later commands read.  On reliable storage
    that recovers to a map, a [create] of a root (with a name without dots) that is not there, or an
    [update] of one that is, whose argument is not "-" and is the JSON of a value that can be stored
    (within the limits of a record and a snapshot, under a transaction id, 1 in every process, that no
    unfinished record of the journal has), exits with 0 and prints the JSON of the value; the storage
    then recovers to the map with that root in its next version; and if the value is not null (of which
    [get] says that there is no such root), a later process that gets any dotted path that exists in
    the root prints the value at that path and leaves what the storage recovers to as it is. *)
Theorem written_root_is_printed self c w A h w1 p command name argument v0 v text :
  directory ≠ "" → recovers config_of w A →
  heap_open config_of w = (Ok h, w1) → heap_inv config_of h w1 A p → reliable w1 →
  no_dot name → name ≠ [] → root_value A (text_of name) = Ok v0 →
  (command = "create" ∧ is_null v0 = true ∨ command = "update" ∧ is_null v0 = false) → argument ≠ "-" →
  Json.parse argument = Ok v → write_json v = Ok text → storable h A p (text_of name) v →
  ∃ w2, cli_execute self ["-C"; directory; command; text_of name; argument] (c, w) =
      (Ok 0, (printed (printed c (text_of text)) end_of_line, w2)) ∧
    recovers config_of w2 (with_root A (text_of name) v) ∧
    ∀ self' c' keys u text', is_null v = false → Forall no_dot keys → get_properties v keys = Ok u → write_json u = Ok text' →
      ∃ w3, cli_execute self' ["-C"; directory; "get"; text_of (join_dots name keys)] (c', w2) =
          (Ok 0, (printed (printed c' (text_of text')) end_of_line, w3)) ∧
        recovers config_of w3 (with_root A (text_of name) v).
Proof.
  intros Hd Hrec Eo Hi Hrel Hn Hne Hv0 Hcmd Harg Hparse Htext Hst.
  destruct (heap_open_spec config_of w A Hd ltac:(done) Hrec) as (r & w1' & Eo' & _ & Ho & _).
  rewrite Eo in Eo'. injection Eo' as <- <-. destruct (Ho h eq_refl) as (s & Hh & _).
  assert (in_service config_of h w1 A p) as Hs by (subst h; by split_and!).
  assert (text_of name ≠ "") as Hne' by by destruct name.
  destruct (run_write_spec config_of self c h w1 A p command (text_of name) argument v0 v text Hs) as
    (h2 & w2 & p2 & E & Hi2 & Hrel2); try done.
  exists w2. split_and!; [|by eapply heap_inv_recovers|].
  - apply execute_ok. rewrite (execute_opened _ _ _ _ _ _ _ Eo) by by destruct Hcmd as [[-> _]|[-> _]].
    assert (run_command self command [text_of name; argument] = run_edit_command self command (text_of name) [argument]) as ->
      by by destruct Hcmd as [[-> _]|[-> _]].
    by rewrite E.
  - intros self' c' keys u text' Hnull Hk Hu Ht'.
    destruct (get_prints self' c' w2 (with_root A (text_of name) v) name keys v u text') as (w3 & E3 & Hrec3 & _); try done.
    + by eapply heap_inv_recovers.
    + eapply root_value_stored; [apply lookup_insert_eq|by destruct Hst].
    + by exists w3.
Qed.

(** Commands that read leave the roots alone, whatever happens.  With [get], [inspect], [verify] or
    [checkpoint], any further arguments, right or wrong, and any faults of the storage, the storage
    afterwards recovers to the map it recovered to before. *)
Theorem readers_keep_the_roots self c w A name rest :
  directory ≠ "" → recovers config_of w A → saveable A → reader name = true →
  ∃ r c' w', cli_execute self ("-C" :: directory :: name :: rest) (c, w) = (r, (c', w')) ∧ recovers config_of w' A.
Proof.
  intros Hd Hrec Hsave Hname.
  assert (∃ r c' w', cli_run self ("-C" :: directory :: name :: rest) (c, w) = (r, (c', w')) ∧ recovers config_of w' A)
    as (r & c' & w' & E & Hw').
  { destruct (heap_open_spec config_of w A Hd ltac:(done) Hrec) as (r & w1 & Eo & Hrec1 & Ho & _).
    assert (is_one_of name ["-C"; "--path"; "help"; "--help"; "-h"] = false) as Hn.
    { unfold reader, is_one_of in Hname. apply bool_decide_eq_true in Hname. rewrite !elem_of_cons, elem_of_nil in Hname.
      by destruct Hname as [->|[->|[->|[->|[]]]]]. }
    destruct r as [h|e].
    - destruct (Ho h eq_refl) as (s & _ & Hi). rewrite (execute_opened _ _ _ _ _ _ _ Eo Hn).
      destruct (still_command config_of self name rest Hname c h w1 A _ Hi Hsave) as (r & c' & h' & w' & E & Hr).
      rewrite E. by exists r, c', w'.
    - rewrite (execute_failed _ _ _ _ _ _ _ Eo Hn). by exists (Throw e), c, w1. }
  unfold cli_execute, catch. rewrite E. destruct r as [n|e]; [by exists (Ok n), c', w'|].
  destruct e; unfold mbind, M_bind; do 3 eexists; (split; [reflexivity|done]).
Qed.
End processes.

(** ** The properties at work *)
Definition db : heap_config := default_config "db".
Definition db_heap : heap_state := HeapState db 0 (new_cache (8 * 1024 * 1024)) ∅ 1 false false 0.
Lemma db_opens : heap_open db Disk.empty = (Ok db_heap, opened_disk).
Proof. vm_compute. reflexivity. Qed.
Lemma db_inv : heap_inv db db_heap opened_disk ∅ ∅.
Proof. by apply opened_empty_inv. Qed.
Definition some_users : value := VObject [("ada", VArray [VInteger 1815; VString "x"])].
Definition users_text : string := String.concat (String "034" "") ["{"; "ada"; ": [1815, "; "x"; "]}"].
Definition users_json : string := String.concat (String "034" "") ["{"; "ada"; ":[1815,"; "x"; "]}"].
Definition start : console := Console [] "" "".
Lemma some_users_wf : wf_value some_users.
Proof.
  apply wf_object; [done|repeat constructor|by repeat constructor|]. constructor; [|constructor].
  apply wf_array; [done|]. repeat constructor; done.
Qed.
Lemma some_users_storable : storable db_heap ∅ ∅ "users" some_users.
Proof.
  apply storable_first; [apply some_users_wf|apply Z.leb_le; vm_compute; reflexivity|apply Z.leb_le; vm_compute; reflexivity|done|done].
Qed.
Lemma written_root_is_printed_witness :
  ∃ w2, cli_execute 100 ["-C"; "db"; "create"; "users"; users_text] (start, Disk.empty) =
      (Ok 0, (printed (printed start users_json) end_of_line, w2)) ∧
    recovers db w2 (with_root ∅ "users" some_users) ∧
    ∀ self' c' keys u text', is_null some_users = false → Forall no_dot keys →
      get_properties some_users keys = Ok u → write_json u = Ok text' →
      ∃ w3, cli_execute self' ["-C"; "db"; "get"; text_of (join_dots (chars_of "users") keys)] (c', w2) =
          (Ok 0, (printed (printed c' (text_of text')) end_of_line, w3)) ∧
        recovers db w3 (with_root ∅ "users" some_users).
Proof.
  apply (written_root_is_printed "db" 100 start Disk.empty ∅ db_heap opened_disk ∅ "create" (chars_of "users") users_text
    VNull some_users (chars_of users_json));
    [discriminate|apply empty_recovers|exact db_opens|exact db_inv|reflexivity|by repeat constructor|discriminate
    |apply (root_value_absent ∅ "users"), lookup_empty|left; split; reflexivity|vm_compute; discriminate
    |vm_compute; reflexivity|vm_compute; reflexivity|exact some_users_storable].
Defined.
Lemma readers_keep_the_roots_witness :
  ∃ r c' w', cli_execute 100 ["-C"; "db"; "inspect"] (start, with_schedule [Disk.f_run; Disk.f_fail] Disk.empty) = (r, (c', w')) ∧
    recovers db w' ∅.
Proof.
  apply (readers_keep_the_roots "db" 100 start (with_schedule [Disk.f_run; Disk.f_fail] Disk.empty) ∅ "inspect" []);
    [done| |split; [by apply Z.leb_le|intros n a Ha; by rewrite lookup_empty in Ha]|done].
  exists (Image ∅ 0), [], (initial_scan ∅ 0).
  split; [done|done|reflexivity|intros n; constructor|intros n a Ha; by rewrite lookup_empty in Ha|done].
Defined.
