(* ===== verification/Simulation.v ===== *)
(** * Storages that behave alike.

    A [storage_morphism] maps the states of one storage to those of another such that every call
    answers the same and ends in corresponding states.  Everything built on the storage then behaves
    alike too: the journal, the snapshot store, the heap and transactions.  *)
From S2P Require Import Prelude.
From S2P Require Import Binary.
From S2P Require Import OrderedMap.
From S2P Require Import Value.
From S2P Require Import Observer.
From S2P Require Import Codec.
From S2P Require Import Storage.
From S2P Require Import Journal.
From S2P Require Import Snapshot.
From S2P Require Import Cache.
From S2P Require Import Heap.
From S2P Require Import Transaction.
#[local] Open Scope Z_scope.

(** ** Computations that correspond *)
Section simulates.
Context {S1 S2 : Type} (f : S1 → S2).
Definition simulates {A} (m1 : M S1 A) (m2 : M S2 A) : Prop := ∀ s, m2 (f s) = ((m1 s).1, f (m1 s).2).
Lemma simulates_run {A} (m1 : M S1 A) (m2 : M S2 A) s r s' : simulates m1 m2 → m1 s = (r, s') → m2 (f s) = (r, f s').
Proof. intros Hm E. by rewrite Hm, E. Qed.
Lemma simulates_ret {A} (a : A) : simulates (mret a) (mret a).
Proof. done. Qed.
Lemma simulates_throw {A} e : simulates (A:=A) (throw e) (throw e).
Proof. done. Qed.
Lemma simulates_result {A} (r : result A) : simulates (lift_result r) (lift_result r).
Proof. done. Qed.
Lemma simulates_bind {A B} (m1 : M S1 A) (m2 : M S2 A) (k1 : A → M S1 B) (k2 : A → M S2 B) :
  simulates m1 m2 → (∀ a, simulates (k1 a) (k2 a)) → simulates (m1 ≫= k1) (m2 ≫= k2).
Proof.
  intros Hm Hk s. unfold mbind, M_bind. rewrite Hm. destruct (m1 s) as [[a|e] s']; [|done]. simpl. apply Hk.
Qed.
Lemma simulates_catch {A} (m1 : M S1 A) (m2 : M S2 A) k1 k2 :
  simulates m1 m2 → (∀ e, simulates (k1 e) (k2 e)) → simulates (catch m1 k1) (catch m2 k2).
Proof. intros Hm Hk s. unfold catch. rewrite Hm. destruct (m1 s) as [[a|e] s']; [done|]. simpl. apply Hk. Qed.
Lemma simulates_when (b : bool) (m1 : M S1 unit) (m2 : M S2 unit) : simulates m1 m2 → simulates (when b m1) (when b m2).
Proof. by destruct b. Qed.
Lemma simulates_forM {X} (l : list X) (k1 : X → M S1 unit) (k2 : X → M S2 unit) :
  (∀ x, simulates (k1 x) (k2 x)) → simulates (forM l k1) (forM l k2).
Proof. intros Hk. induction l; [done|]. simpl. by apply simulates_bind. Qed.
End simulates.

(** The same beside a state that is left alone. *)
Definition beside {T S1 S2} (f : S1 → S2) (s : T * S1) : T * S2 := (s.1, f s.2).
Section beside.
Context {S1 S2 : Type} (f : S1 → S2) {T : Type}.
Lemma simulates_on_snd {A} (m1 : M S1 A) (m2 : M S2 A) :
  simulates f m1 m2 → simulates (beside (T:=T) f) (on_snd m1) (on_snd m2).
Proof. intros Hm [t s]. unfold beside, on_snd. simpl. rewrite Hm. by destruct (m1 s). Qed.
Lemma simulates_on_fst {A} (m : M T A) : simulates (beside (T:=T) f) (on_fst m) (on_fst m).
Proof. intros [t s]. unfold beside, on_fst. simpl. by destruct (m t). Qed.
Lemma simulates_local {A} (t : T) (m1 : M (T * S1) A) (m2 : M (T * S2) A) :
  simulates (beside f) m1 m2 → simulates f (with_local t m1) (with_local t m2).
Proof.
  intros Hm s. unfold with_local. specialize (Hm (t, s)). unfold beside in Hm. simpl in Hm. rewrite Hm.
  by destruct (m1 (t, s)) as [r [t' s']].
Qed.
End beside.

Create HintDb simulates.
#[export] Hint Resolve simulates_ret simulates_throw simulates_result simulates_when simulates_forM simulates_on_snd
  simulates_on_fst simulates_local : simulates.
#[export] Hint Extern 1 (simulates _ (_ ≫= _) _) => apply simulates_bind; [|intros ?] : simulates.
#[export] Hint Extern 1 (simulates _ (catch _ _) _) => apply simulates_catch; [|intros ?] : simulates.
#[export] Hint Extern 2 (simulates _ (match ?x with _ => _ end) _) => destruct x : simulates.

(** ** Storages

    In three steps: the calls that read, the calls that write in place, and all of them. *)
Class reading_morphism {W1 W2 : Type} `{storage W1} `{storage W2} (f : W1 → W2) := {
  morphism_open_file p create : simulates f (open_file p create) (open_file p create);
  morphism_exists p : simulates f (exists_ p) (exists_ p);
  morphism_file_size p : simulates f (file_size p) (file_size p);
  morphism_read_exact p off n : simulates f (read_exact p off n) (read_exact p off n)
}.
Class writing_morphism {W1 W2 : Type} `{storage W1} `{storage W2} (f : W1 → W2) := {
  #[export] morphism_reading :: reading_morphism f;
  morphism_create_directories p : simulates f (create_directories p) (create_directories p);
  morphism_remove_file p : simulates f (remove_file p) (remove_file p);
  morphism_sync_directory p : simulates f (sync_directory p) (sync_directory p);
  morphism_write_exact p off data : simulates f (write_exact p off data) (write_exact p off data);
  morphism_truncate p n : simulates f (truncate p n) (truncate p n);
  morphism_flush_all p : simulates f (flush_all p) (flush_all p)
}.
Class storage_morphism {W1 W2 : Type} `{storage W1} `{storage W2} (f : W1 → W2) := {
  #[export] morphism_writing :: writing_morphism f;
  morphism_atomic_replace p q : simulates f (atomic_replace p q) (atomic_replace p q);
  morphism_append p data : simulates f (append p data) (append p data);
  morphism_flush_data p : simulates f (flush_data p) (flush_data p)
}.
#[export] Hint Resolve @morphism_open_file @morphism_create_directories @morphism_exists @morphism_atomic_replace
  @morphism_remove_file @morphism_sync_directory @morphism_file_size @morphism_read_exact @morphism_write_exact
  @morphism_append @morphism_truncate @morphism_flush_data @morphism_flush_all : simulates.

Ltac simulate := auto 40 with simulates typeclass_instances.

(** *** The parts of the heap's state *)
Section states.
Context {W1 W2 : Type} (f : W1 → W2).
Lemma simulates_state : simulates (beside f) state state.
Proof. apply simulates_on_fst. Qed.
Lemma simulates_update g : simulates (beside f) (update g) (update g).
Proof. apply simulates_on_fst. Qed.
Lemma simulates_wal {A} (m1 : M (Z * W1) A) (m2 : M (Z * W2) A) :
  simulates (beside f) m1 m2 → simulates (beside f) (on_wal m1) (on_wal m2).
Proof.
  intros Hm [h w]. unfold beside, on_wal. specialize (Hm (hs_wal_sequence h, w)). unfold beside in Hm. simpl in *.
  rewrite Hm. by destruct (m1 _) as [r [q w']].
Qed.
Lemma simulates_cache {A} (m : M payload_cache A) : simulates (beside f) (on_cache m) (on_cache m).
Proof. intros [h w]. unfold beside, on_cache. simpl. by destruct (m _). Qed.
End states.
#[export] Hint Resolve simulates_state simulates_update simulates_wal simulates_cache : simulates.

(** *** What only reads *)
Section reading.
Context {W1 W2 : Type} `{HM : reading_morphism W1 W2 f}.
Lemma simulates_journal_read j l off n : simulates f (journal_read j l off n) (journal_read j l off n).
Proof. unfold journal_read. simulate. Qed.
Hint Resolve simulates_journal_read : simulates.
Lemma simulates_journal_load j l : simulates f (journal_load j l) (journal_load j l).
Proof. unfold journal_load. simulate. Qed.
Lemma simulates_snapshot_read sn l off n : simulates f (snapshot_read sn l off n) (snapshot_read sn l off n).
Proof. unfold snapshot_read. simulate. Qed.
Hint Resolve simulates_journal_load simulates_snapshot_read : simulates.
Lemma simulates_snapshot_payload sn l : simulates f (snapshot_load_payload sn l) (snapshot_load_payload sn l).
Proof. unfold snapshot_load_payload. simulate. Qed.
Hint Resolve simulates_snapshot_payload : simulates.
Lemma simulates_read_payload config r off n : simulates f (read_payload config r off n) (read_payload config r off n).
Proof. unfold read_payload. simulate. Qed.
Lemma simulates_load_payload config l : simulates f (load_payload config l) (load_payload config l).
Proof. unfold load_payload. simulate. Qed.
Hint Resolve simulates_read_payload simulates_load_payload : simulates.
Lemma simulates_load name : simulates (beside f) (load name) (load name).
Proof. unfold load, load_uncached. simulate. Qed.
Lemma simulates_begin : simulates (beside f) begin begin.
Proof. unfold begin. simulate. Qed.
Lemma simulates_close : simulates (beside f) close close.
Proof. apply simulates_update. Qed.
Hint Resolve simulates_load simulates_begin : simulates.
Lemma simulates_transaction_begin self : simulates (beside f) (transaction_begin self) (transaction_begin self).
Proof. unfold transaction_begin. simulate. Qed.
Lemma simulates_root name : simulates (beside (beside f)) (root name) (root name).
Proof. unfold root. simulate. Qed.
End reading.
#[export] Hint Resolve simulates_journal_read simulates_journal_load simulates_snapshot_read simulates_snapshot_payload
  simulates_read_payload simulates_load_payload simulates_load simulates_begin simulates_close simulates_transaction_begin
  simulates_root : simulates.

(** *** What writes in place *)
Section writing.
Context {W1 W2 : Type} `{HM : writing_morphism W1 W2 f}.
Lemma simulates_copy_payload sn r1 r2 fuel : (∀ r off n, simulates f (r1 r off n) (r2 r off n)) →
  ∀ base copied root, simulates f (copy_payload sn r1 fuel base copied root) (copy_payload sn r2 fuel base copied root).
Proof.
  intros Hr. induction fuel as [|fuel IH]; intros base copied root; cbn [copy_payload]; destruct (_ <? _); simulate.
Qed.
Lemma simulates_copy_root sn r1 r2 base root : (∀ r off n, simulates f (r1 r off n) (r2 r off n)) →
  simulates f (copy_root sn r1 base root) (copy_root sn r2 base root).
Proof. intros. by apply simulates_copy_payload. Qed.
End writing.
#[export] Hint Resolve simulates_copy_root : simulates.

(** *** Everything *)
Section morphism.
Context {W1 W2 : Type} `{HM : storage_morphism W1 W2 f}.
Lemma simulates_recover_loop j fuel : ∀ q n s, simulates f (recover_loop j fuel q n s) (recover_loop j fuel q n s).
Proof.
  induction fuel as [|fuel IH]; intros q n s; cbn [recover_loop]; destruct (_ <? _); [simulate|simulate| |simulate].
  apply simulates_bind; [unfold recover_step; simulate|]. intros [s'|]; [apply IH|simulate].
Qed.
Hint Resolve simulates_recover_loop : simulates.
Lemma simulates_recover j base q torn : simulates (beside f) (recover j base q torn) (recover j base q torn).
Proof. unfold recover. simulate. Qed.
Lemma simulates_append j tx updates : simulates (beside f) (journal_append j tx updates) (journal_append j tx updates).
Proof. unfold journal_append. simulate. Qed.
Lemma simulates_journal_reset j : simulates f (journal_reset j) (journal_reset j).
Proof. unfold journal_reset. simulate. Qed.
Lemma simulates_load_roots sn count : ∀ base roots,
  simulates (beside f) (load_roots sn count base roots) (load_roots sn count base roots).
Proof.
  induction count as [|count IH]; intros base roots; cbn [load_roots]; [simulate|].
  apply simulates_bind; [unfold load_root; simulate|intros ?; apply IH].
Qed.
Hint Resolve simulates_recover simulates_append simulates_journal_reset simulates_load_roots : simulates.
Lemma simulates_load_index sn h : simulates f (load_index sn h) (load_index sn h).
Proof. unfold load_index. simulate. Qed.
Hint Resolve simulates_load_index : simulates.
Lemma simulates_snapshot_load sn : simulates f (snapshot_load sn) (snapshot_load sn).
Proof. unfold snapshot_load. simulate. Qed.
Lemma simulates_save sn r1 r2 image : (∀ r off n, simulates f (r1 r off n) (r2 r off n)) →
  simulates f (snapshot_save sn r1 image) (snapshot_save sn r2 image).
Proof. intros Hr. unfold snapshot_save. simulate. Qed.
Hint Resolve simulates_snapshot_load simulates_save : simulates.
Lemma simulates_heap_open config : simulates f (heap_open config) (heap_open config).
Proof. unfold heap_open. simulate. Qed.
Lemma simulates_checkpoint_locked : simulates (beside f) checkpoint_locked checkpoint_locked.
Proof. unfold checkpoint_locked. simulate. Qed.
Hint Resolve simulates_checkpoint_locked : simulates.
Lemma simulates_checkpoint : simulates (beside f) checkpoint checkpoint.
Proof. unfold checkpoint. simulate. Qed.
Lemma simulates_publish updates : ∀ locations,
  simulates (beside f) (publish_updates updates locations) (publish_updates updates locations).
Proof. induction updates; intros [|l locations]; cbn [publish_updates]; simulate. Qed.
Hint Resolve simulates_publish : simulates.
Lemma simulates_commit tx updates : simulates (beside f) (commit tx updates) (commit tx updates).
Proof. unfold commit. simulate. Qed.
Lemma simulates_verify_payloads config records :
  simulates f (verify_payloads config records) (verify_payloads config records).
Proof. induction records; cbn [verify_payloads]; simulate. Qed.
Hint Resolve simulates_verify_payloads : simulates.
Lemma simulates_integrity : simulates (beside f) integrity integrity.
Proof. unfold integrity, verify. simulate. Qed.
Hint Resolve simulates_checkpoint simulates_commit : simulates.
Lemma simulates_transaction_commit : simulates (beside (beside f)) transaction_commit transaction_commit.
Proof. unfold transaction_commit. simulate. Qed.
End morphism.

(** ** The contract is inherited

    A storage that maps to one that keeps the contract keeps it too, with the same files. *)
Section inherited.
Context {W1 W2 : Type} `{HM : storage_morphism W1 W2 f}.
Ltac inherit law :=
  let L := fresh in
  pose proof law as L;
  repeat match type of L with
  | context [?m (f ?s)] => first
      [ rewrite (morphism_open_file _ _ s) in L | rewrite (morphism_create_directories _ s) in L
      | rewrite (morphism_exists _ s) in L | rewrite (morphism_atomic_replace _ _ s) in L
      | rewrite (morphism_sync_directory _ s) in L | rewrite (morphism_file_size _ s) in L
      | rewrite (morphism_read_exact _ _ _ s) in L | rewrite (morphism_write_exact _ _ _ s) in L
      | rewrite (morphism_append _ _ s) in L | rewrite (morphism_truncate _ _ s) in L
      | rewrite (morphism_flush_data _ s) in L | rewrite (morphism_flush_all _ s) in L ]
  end;
  repeat match goal with |- context [match ?m ?s with _ => _ end] => destruct (m s) as [[?|?] ?] end; first [exact L | exact (L _)].
Definition inherited_laws `{!storage_laws W2} : storage_laws W1.
Proof.
  refine {| file_of s := file_of (f s) |}; intros.
  - inherit (open_file_law p create (f w)).
  - inherit (create_directories_law p (f w)).
  - inherit (exists_law p (f w)).
  - inherit (atomic_replace_law from to (f w)).
  - inherit (sync_directory_law p (f w)).
  - inherit (file_size_law p (f w)).
  - inherit (read_exact_law p off n (f w)).
  - inherit (write_exact_law p off data (f w)).
  - inherit (append_law p data (f w)).
  - inherit (truncate_law p n (f w)).
  - inherit (flush_data_law p (f w)).
  - inherit (flush_all_law p (f w)).
Defined.
(** What succeeds there succeeds here. *)
Lemma inherited_ok {A} (m1 : M W1 A) (m2 : M W2 A) (R : W2 → Prop) a s :
  simulates f m1 m2 → (∃ w', m2 (f s) = (Ok a, w') ∧ R w') → ∃ s', m1 s = (Ok a, s') ∧ R (f s').
Proof. intros Hm (w' & E & HR). rewrite Hm in E. destruct (m1 s) as [r s']. injection E as -> <-. by exists s'. Qed.
Lemma inherited_some {A} (m1 : M W1 A) (m2 : M W2 A) (R : W2 → Prop) s :
  simulates f m1 m2 → (∃ a w', m2 (f s) = (Ok a, w') ∧ R w') → ∃ a s', m1 s = (Ok a, s') ∧ R (f s').
Proof. intros Hm (a & ?). exists a. by eapply inherited_ok. Qed.
Lemma inherited_keeps {A} (m1 : M W1 A) (m2 : M W2 A) (R : W2 → Prop) s :
  simulates f m1 m2 → R (m2 (f s)).2 → R (f (m1 s).2).
Proof. intros Hm. by rewrite Hm. Qed.
Definition inherited_reliable `{!storage_laws W2} `{!storage_reliable W2} : storage_reliable (H0:=inherited_laws) W1.
Proof.
  refine (Build_storage_reliable W1 _ inherited_laws (λ s, reliable (f s)) _ _ _ _ _ _ _ _ _ _ _ _ _ _);
    intros.
  - eapply inherited_ok; [apply morphism_open_file|by apply open_file_ok].
  - eapply inherited_ok; [apply morphism_create_directories|by apply create_directories_ok].
  - eapply inherited_some; [apply morphism_exists|by apply exists_ok].
  - eapply inherited_ok; [apply morphism_atomic_replace|by apply atomic_replace_ok].
  - eapply inherited_ok; [apply morphism_sync_directory|by apply sync_directory_ok].
  - eapply inherited_some; [apply morphism_file_size|by apply file_size_ok].
  - eapply inherited_some; [apply morphism_read_exact|by eapply read_exact_ok].
  - eapply inherited_keeps; [apply morphism_read_exact|by apply read_exact_keeps].
  - eapply inherited_keeps; [apply morphism_open_file|by apply open_existing_keeps].
  - eapply inherited_ok; [apply morphism_write_exact|by apply write_exact_ok].
  - eapply inherited_some; [apply morphism_append|by apply append_ok].
  - eapply inherited_ok; [apply morphism_truncate|by apply truncate_ok].
  - eapply inherited_ok; [apply morphism_flush_data|by apply flush_data_ok].
  - eapply inherited_ok; [apply morphism_flush_all|by apply flush_all_ok].
Defined.
End inherited.
