(* ===== verification/Credentials.v ===== *)
(** * The credential service of [examples/beast_credentials]: [credential_service.cpp],
    [password_kdf.cpp] and their headers.

    The service keeps a map of attempt windows, a password KDF and a heap with one root, in which
    every principal has a record.  libsodium is a class of functions; the readings of the two
    clocks that a call makes are arguments of the call. *)
From S2P Require Import Prelude.
From S2P Require Import Binary.
From S2P Require Import OrderedMap.
From S2P Require Import Value.
From S2P Require Import Observer.
From S2P Require Import ObserverSpec.
From S2P Require Import Storage.
From S2P Require Import Heap.
From S2P Require Import Transaction.
From S2P Require Import Cli.
From Stdlib Require Import Ascii.
#[local] Open Scope Z_scope.

(** ** Data *)
Record kdf_parameters := KdfParameters { ops_limit : Z; mem_limit : Z }.
Record rate_limit_policy := RateLimitPolicy { max_attempts : Z; window : Z }.
Record service_config := ServiceConfig {
  storage_path : string; kdf : kdf_parameters; rate_limit : rate_limit_policy;
  min_secret_length : Z; max_principal_length : Z }.
(** The default members; durations are counted in nanoseconds. *)
Definition default_service_config (path : string) : service_config :=
  ServiceConfig path (KdfParameters 3 (256 * 1024 * 1024)) (RateLimitPolicy 10 (60 * 10 ^ 9)) 8 256.
Inductive provision_status := provision_ok | provision_invalid_principal | provision_invalid_secret | provision_rate_limited.
Inductive verify_status := verify_ok | verify_rejected | verify_rate_limited.
Inductive remove_status := remove_ok | remove_rate_limited.
#[export] Instance provision_status_eq_dec : EqDecision provision_status.
Proof. solve_decision. Defined.
#[export] Instance verify_status_eq_dec : EqDecision verify_status.
Proof. solve_decision. Defined.
#[export] Instance remove_status_eq_dec : EqDecision remove_status.
Proof. solve_decision. Defined.

(** ** The password KDF *)

(** What is called of libsodium.  [crypto_pwhash_str] draws a salt: its first argument tells the
    calls of the process apart.  It gives the buffer it leaves, or [None] where the C function does
    not return 0. *)
Class sodium := {
  sodium_init : Z;
  crypto_pwhash_str : nat → string → Z → Z → option string;
  crypto_pwhash_str_verify : string → string → Z;
  crypto_pwhash_str_needs_rehash : string → Z → Z → Z
}.
(** The expensive calls that were made, in order, and the decoy hash once it exists. *)
Inductive kdf_call :=
| Hashing (secret : string) (params : kdf_parameters)
| Verifying (encoded secret : string).
Record kdf_state := KdfState { kd_calls : list kdf_call; kd_decoy : option string }.
Definition kdf_op := M kdf_state.

(** A string up to its first null character: what C functions see of it. *)
Fixpoint c_string (s : string) : string :=
  match s with
  | EmptyString => ""
  | String c s => if decide (c = "000"%char) then "" else String c (c_string s)
  end.

Section kdf.
Context `{S : sodium}.
Definition ensure_sodium_initialized : kdf_op unit :=
  if sodium_init <? 0 then throw (runtime_error "libsodium initialization failed") else mret tt.
Definition called (c : kdf_call) : kdf_op unit :=
  modify (λ k, KdfState (kd_calls k ++ [c]) (kd_decoy k)).
Definition hash_secret (secret : string) (params : kdf_parameters) : kdf_op string :=
  _ ← ensure_sodium_initialized;
  k ← get;
  _ ← called (Hashing secret params);
  match crypto_pwhash_str (length (kd_calls k)) secret (ops_limit params) (mem_limit params) with
  | None => throw (runtime_error "Argon2id hashing failed (likely out of memory)")
  | Some encoded => mret (c_string encoded)
  end.
Definition verify_secret (encoded_hash secret : string) : kdf_op bool :=
  _ ← ensure_sodium_initialized;
  _ ← called (Verifying (c_string encoded_hash) secret);
  mret (crypto_pwhash_str_verify (c_string encoded_hash) secret =? 0).
Definition needs_rehash (encoded_hash : string) (params : kdf_parameters) : kdf_op bool :=
  _ ← ensure_sodium_initialized;
  mret (crypto_pwhash_str_needs_rehash (c_string encoded_hash) (ops_limit params) (mem_limit params) =? 1).
Definition decoy_secret : string := "opheap-beast-credentials-example-decoy".
(** The [call_once] that makes the decoy: not done if it throws. *)
Definition decoy (params : kdf_parameters) : kdf_op string :=
  k ← get;
  match kd_decoy k with
  | Some encoded => mret encoded
  | None =>
      encoded ← hash_secret decoy_secret params;
      _ ← modify (λ k, KdfState (kd_calls k) (Some encoded));
      mret encoded
  end.
Definition perform_decoy_verification (secret : string) (params : kdf_parameters) : kdf_op unit :=
  _ ← ensure_sodium_initialized;
  decoy_encoded ← decoy params;
  called (Verifying (c_string decoy_encoded) secret).
End kdf.

(** ** The rate limiter *)
Record attempt_window := AttemptWindow { count : Z; window_start : Z }.
Definition prune_threshold : Z := 4096.
Definition expired (policy : rate_limit_policy) (now : Z) (w : attempt_window) : bool :=
  now - window_start w >? window policy.
Definition prune (policy : rate_limit_policy) (now : Z) (rate : gmap string attempt_window) : gmap string attempt_window :=
  if size (map_to_list rate) >? prune_threshold
  then filter (λ entry, expired policy now entry.2 = false) rate
  else rate.
(** [allow_attempt]; [now] is the reading of [steady_clock]. *)
Definition allow_attempt (policy : rate_limit_policy) (now : Z) (client_key : string)
    : M (gmap string attempt_window) bool := λ rate,
  let rate := prune policy now rate in
  let w := default (AttemptWindow 0 0) (rate !! client_key) in
  let w := if expired policy now w then AttemptWindow 0 now else w in
  if count w >=? max_attempts policy then (Ok false, <[client_key := w]> rate)
  else (Ok true, <[client_key := AttemptWindow (count w + 1) (window_start w)]> rate).

(** ** The service *)
Record credential_service := CredentialService {
  sv_config : service_config; sv_rate : gmap string attempt_window; sv_kdf : kdf_state }.
(** The readings of [steady_clock], and of [now_epoch_seconds] in their order, during one call. *)
Record moments := Moments { mo_steady : Z; mo_epoch : Z; mo_epoch_later : Z }.

(** *** The record of a principal *)
Definition object_at (key : string) (m : list (string * value)) : option (list (string * value)) :=
  match om_find key m with Some (VObject fields) => Some fields | _ => None end.
Definition find_record (principal : string) (root : value) : option (list (string * value)) :=
  match root with
  | VObject root => credentials ← object_at "credentials" root; object_at principal credentials
  | _ => None
  end.
Definition disabled_in (fields : list (string * value)) : bool :=
  match om_find "disabled" fields with Some (VBool b) => b | _ => false end.
(** The digest [verify] finds: empty when there is none to compare with. *)
Definition digest_of (principal : string) (root : value) : string :=
  match find_record principal root with
  | Some fields =>
      if disabled_in fields then ""
      else match om_find "digest" fields with Some (VString digest) => digest | _ => "" end
  | None => ""
  end.
Definition integer_at (key : string) (record : option (list (string * value))) : option Z :=
  match record with
  | Some fields => match om_find key fields with Some (VInteger z) => Some z | _ => None end
  | None => None
  end.
(** [static_cast<std::int64_t>] of an unsigned 64-bit integer. *)
Definition to_i64 (z : Z) : Z := if z <? 2 ^ 63 then z else z - 2 ^ 64.
(** Signed addition: beyond the range it is undefined. *)
Definition next_version (version : Z) : result Z :=
  if bool_decide (is_i64 (version + 1)) then Ok (version + 1) else Throw (undefined "signed overflow").

Section service.
Context {W : Type} `{storage W} `{S : sodium}.
(** The address of the local variable that holds the transaction. *)
Context (self : Z).
Definition service_op := M (credential_service * (heap_state * W)).

Definition on_kdf {A} (m : kdf_op A) : service_op A := on_fst (λ s,
  let '(r, k) := m (sv_kdf s) in (r, CredentialService (sv_config s) (sv_rate s) k)).
Definition on_rate {A} (m : M (gmap string attempt_window) A) : service_op A := on_fst (λ s,
  let '(r, rate) := m (sv_rate s) in (r, CredentialService (sv_config s) rate (sv_kdf s))).
Definition configuration : service_op service_config := s ← on_fst get; mret (sv_config s).
Definition attempt (client_key : string) (at_ : moments) : service_op bool :=
  config ← configuration; on_rate (allow_attempt (rate_limit config) (mo_steady at_) client_key).

(** The constructor. *)
Definition service_open (config : service_config) : M W (credential_service * heap_state) :=
  h ← heap_open (default_config (storage_path config));
  mret (CredentialService config ∅ (KdfState [] None), h).

(** A transaction of one call. *)
Definition in_session {A} (m : session (W:=W) A) : heap (W:=W) A :=
  tx ← transaction_begin self; with_local tx m.
Definition contents (token : Z) : session (W:=W) value :=
  t ← on_fst get;
  match data_of token t with Some v => mret v | None => throw (undefined "no such reference") end.
Definition edit_root (token : Z) (e : edit) : session (W:=W) unit := on_fst (modify (mutate token (run_edit e))).
(** An edit of the record of a principal. *)
Definition in_record (principal : string) (e : edit) : edit := e_key "credentials" (e_key principal e).

(** What [provision_locked] does in its transaction. *)
Definition write_record (params : kdf_parameters) (principal encoded : string) (disabled : bool) (at_ : moments)
    : session (W:=W) unit :=
  token ← object_root "root";
  _ ← edit_root token (e_key "credentials" e_as_object);
  root ← contents token;
  let existing := find_record principal root in
  version ← lift_result (match integer_at "credential_version" existing with
                         | Some previous => next_version previous
                         | None => Ok 1
                         end);
  let created_at := default (mo_epoch at_) (integer_at "created_at" existing) in
  _ ← edit_root token (in_record principal e_as_object);
  _ ← edit_root token (in_record principal (e_key "scheme" (e_string "argon2id")));
  _ ← edit_root token (in_record principal (e_key "digest" (e_string encoded)));
  _ ← edit_root token (in_record principal (e_key "parameters" e_as_object));
  _ ← edit_root token (in_record principal (e_key "parameters" (e_key "ops_limit" (e_integer (to_i64 (ops_limit params))))));
  _ ← edit_root token (in_record principal (e_key "parameters" (e_key "mem_limit" (e_integer (to_i64 (mem_limit params))))));
  _ ← edit_root token (in_record principal (e_key "credential_version" (e_integer version)));
  _ ← edit_root token (in_record principal (e_key "disabled" (e_bool disabled)));
  _ ← edit_root token (in_record principal (e_key "created_at" (e_integer created_at)));
  _ ← edit_root token (in_record principal (e_key "updated_at" (e_integer (mo_epoch_later at_))));
  transaction_commit.
Definition provision_locked (principal secret : string) (disabled : bool) (at_ : moments) : service_op provision_status :=
  config ← configuration;
  if bool_decide (principal = "") || (ssize principal >? max_principal_length config)
  then mret provision_invalid_principal
  else if ssize secret <? min_secret_length config then mret provision_invalid_secret
  else
    encoded ← on_kdf (hash_secret secret (kdf config));
    _ ← on_snd (in_session (write_record (kdf config) principal encoded disabled at_));
    mret provision_ok.
Definition provision (principal secret : string) (disabled : bool) (client_key : string) (at_ : moments)
    : service_op provision_status :=
  allowed ← attempt ("admin:" +:+ client_key) at_;
  if negb allowed then mret provision_rate_limited else provision_locked principal secret disabled at_.

(** The lookup of [verify], and what it does with the digest it found. *)
Definition lookup_digest (principal : string) : session (W:=W) string :=
  token ← object_root "root";
  root ← contents token;
  _ ← on_fst (modify abort);
  mret (digest_of principal root).
Definition check_digest (principal secret digest : string) (at_ : moments) : service_op verify_status :=
  config ← configuration;
  if bool_decide (digest = "") then
    _ ← on_kdf (perform_decoy_verification secret (kdf config)); mret verify_rejected
  else
    matches ← on_kdf (verify_secret digest secret);
    if negb matches then mret verify_rejected
    else
      stale ← on_kdf (needs_rehash digest (kdf config));
      _ ← (if stale : bool then _ ← provision_locked principal secret false at_; mret tt else mret tt);
      mret verify_ok.
Definition verify (principal secret client_key : string) (at_ : moments) : service_op verify_status :=
  allowed ← attempt client_key at_;
  if negb allowed then mret verify_rate_limited
  else
    digest ← on_snd (in_session (lookup_digest principal));
    check_digest principal secret digest at_.

Definition disable_record (principal : string) (at_ : moments) : session (W:=W) remove_status :=
  token ← object_root "root";
  root ← contents token;
  match find_record principal root with
  | Some _ =>
      _ ← edit_root token (in_record principal (e_key "disabled" (e_bool true)));
      _ ← edit_root token (in_record principal (e_key "updated_at" (e_integer (mo_epoch at_))));
      _ ← transaction_commit;
      mret remove_ok
  | None => _ ← on_fst (modify abort); mret remove_ok
  end.
Definition remove (principal client_key : string) (at_ : moments) : service_op remove_status :=
  allowed ← attempt ("admin:" +:+ client_key) at_;
  if negb allowed then mret remove_rate_limited else on_snd (in_session (disable_record principal at_)).

Definition service_checkpoint : service_op unit := on_snd checkpoint.
Definition service_root_count : service_op Z := on_snd (h ← state; mret (root_count h)).
End service.
