(* ===== verification/Monitor.v ===== *)
(** * A storage that is watched: [examples/monitor.cpp].

    [monitored_backend] wraps another storage, reports every call on the standard output and counts
    it; the program uses it to show which calls a heap makes.  The wrapper is an instance of
    [storage] over any other. *)
From stdpp Require Import pretty.
From S2P Require Import Prelude.
From S2P Require Import Binary.
From S2P Require Import OrderedMap.
From S2P Require Import Value.
From S2P Require Import Double.
From S2P Require Import Observer.
From S2P Require Import ObserverSpec.
From S2P Require Import Storage.
From S2P Require Import Journal.
From S2P Require Import Cache.
From S2P Require Import Heap.
From S2P Require Import Transaction.
From S2P Require Import Credentials.
From S2P Require Import Console.
From S2P Require Import Json.
From Stdlib Require Import Ascii.
From Stdlib.Floats Require Import SpecFloat.
#[local] Open Scope Z_scope.

(** ** The monitor *)
Record counters := Counters {
  reads : Z; read_bytes : Z; writes : Z; write_bytes : Z; appends : Z; append_bytes : Z;
  data_flushes : Z; full_flushes : Z }.
Definition no_counters : counters := Counters 0 0 0 0 0 0 0 0.
(** With the standard output it prints on, to which the rest of the program prints too. *)
Record io_monitor := IoMonitor { im_label : string; im_counters : counters; im_enabled : bool; im_output : string }.
Definition new_monitor : io_monitor := IoMonitor "" no_counters false "".

Definition print (text : string) : M io_monitor unit :=
  modify (λ m, IoMonitor (im_label m) (im_counters m) (im_enabled m) (im_output m +:+ text)).
Definition monitor_begin (label : string) : M io_monitor unit :=
  _ ← modify (λ m, IoMonitor label no_counters true (im_output m));
  print (end_of_line +:+ "=== " +:+ label +:+ " ===" +:+ end_of_line).
Definition monitor_end : M io_monitor counters :=
  _ ← modify (λ m, IoMonitor (im_label m) (im_counters m) false (im_output m));
  m ← get; mret (im_counters m).
(** [path.filename()] *)
Definition filename (path : string) : string :=
  match last_slash path with
  | Some n => String.substring (S n) (String.length path - S n) path
  | None => path
  end.
(** The scheme of the five reports: nothing unless it is enabled. *)
Definition report (count : counters → counters) (text : string) : M io_monitor unit :=
  m ← get;
  if negb (im_enabled m) then mret tt
  else
    _ ← modify (λ m, IoMonitor (im_label m) (count (im_counters m)) (im_enabled m) (im_output m));
    print text.
Definition monitor_read (file : string) (offset bytes : Z) : M io_monitor unit :=
  report (λ c, Counters (u64 (reads c + 1)) (u64 (read_bytes c + bytes)) (writes c) (write_bytes c) (appends c)
                 (append_bytes c) (data_flushes c) (full_flushes c))
    ("[io] READ   " +:+ filename file +:+ " offset=" +:+ pretty offset +:+ " bytes=" +:+ pretty bytes +:+ end_of_line).
Definition monitor_write (file : string) (offset bytes : Z) : M io_monitor unit :=
  report (λ c, Counters (reads c) (read_bytes c) (u64 (writes c + 1)) (u64 (write_bytes c + bytes)) (appends c)
                 (append_bytes c) (data_flushes c) (full_flushes c))
    ("[io] WRITE  " +:+ filename file +:+ " offset=" +:+ pretty offset +:+ " bytes=" +:+ pretty bytes +:+ end_of_line).
Definition monitor_append (file : string) (bytes : Z) : M io_monitor unit :=
  report (λ c, Counters (reads c) (read_bytes c) (writes c) (write_bytes c) (u64 (appends c + 1))
                 (u64 (append_bytes c + bytes)) (data_flushes c) (full_flushes c))
    ("[io] APPEND " +:+ filename file +:+ " bytes=" +:+ pretty bytes +:+ end_of_line).
Definition monitor_flush_data (file : string) : M io_monitor unit :=
  report (λ c, Counters (reads c) (read_bytes c) (writes c) (write_bytes c) (appends c) (append_bytes c)
                 (u64 (data_flushes c + 1)) (full_flushes c))
    ("[io] FLUSH  " +:+ filename file +:+ " data" +:+ end_of_line).
Definition monitor_flush_all (file : string) : M io_monitor unit :=
  report (λ c, Counters (reads c) (read_bytes c) (writes c) (write_bytes c) (appends c) (append_bytes c)
                 (data_flushes c) (u64 (full_flushes c + 1)))
    ("[io] FSYNC  " +:+ filename file +:+ " all" +:+ end_of_line).

(** ** The wrapper: [monitored_file] and [monitored_backend] *)
Definition monitored (W : Type) : Type := io_monitor * W.
Section wrapper.
Context {W : Type} `{storage W}.
Definition watched {A} (note : M io_monitor unit) (call : M W A) : M (monitored W) A := _ ← on_fst note; on_snd call.
#[export] Instance monitored_storage : storage (monitored W) := {|
  open_file path create_if_missing := on_snd (open_file path create_if_missing);
  create_directories path := on_snd (create_directories path);
  exists_ path := on_snd (exists_ path);
  atomic_replace from to := on_snd (atomic_replace from to);
  remove_file path := on_snd (remove_file path);
  sync_directory directory := on_snd (sync_directory directory);
  file_size path := on_snd (file_size path);
  read_exact path offset count := watched (monitor_read path offset count) (read_exact path offset count);
  write_exact path offset data := watched (monitor_write path offset (size data)) (write_exact path offset data);
  append path data := watched (monitor_append path (size data)) (append path data);
  truncate path new_size := on_snd (truncate path new_size);
  flush_data path := watched (monitor_flush_data path) (flush_data path);
  flush_all path := watched (monitor_flush_all path) (flush_all path)
|}.
End wrapper.

(** ** Printing *)

(** [std::ostream] of a [double]: six significant digits, without trailing zeros. *)
Definition general_double (d : double) : string :=
  match sf_of_bits d with
  | S754_zero s => minus s +:+ "0"
  | S754_infinity s => minus s +:+ "inf"
  | S754_nan => minus (Z.testbit d 63) +:+ "nan"
  | S754_finite s p e =>
      let k := decimal_exponent (Z.pos p) e in
      let m := scaled_round (Z.pos p) e (6 - k) in
      let '(m, k) := if m =? 10 ^ 6 then (10 ^ 5, k + 1) else (m, k) in
      let '(m, e10) := strip_zeros 6 m (k - 6) in
      minus s +:+ (if (-4 <=? k - 1) && (k - 1 <? 6) then fixed_digits m e10 else scientific_digits m e10)
  end.
(** [std::quoted] *)
Fixpoint quoted_chars (s : string) : string :=
  match s with
  | EmptyString => ""
  | String c s =>
      if decide (c = "034"%char ∨ c = "092"%char) then String "092" (String c (quoted_chars s)) else String c (quoted_chars s)
  end.
Definition quoted (s : string) : string := String "034" (quoted_chars s +:+ String "034" "").
Definition indent (depth : nat) : string := String.concat "" (replicate depth "  ").
(** The elements of an array or the entries of an object, each on a line of its own. *)
Definition dump_lines (depth : nat) (lines : list string) : string :=
  match lines with
  | [] => ""
  | _ => end_of_line +:+ String.concat ("," +:+ end_of_line) ((λ line, indent (S depth) +:+ line) <$> lines) +:+
         end_of_line +:+ indent depth
  end.
Fixpoint dump (depth : nat) (v : value) : string :=
  match v with
  | VNull => "null"
  | VBool b => if b then "true" else "false"
  | VInteger z => pretty z
  | VNumber d => general_double d
  | VString s => quoted s
  | VArray l => "[" +:+ dump_lines depth (List.map (dump (S depth)) l) +:+ "]"
  | VObject m => "{" +:+ dump_lines depth (List.map (λ e, quoted e.1 +:+ ": " +:+ dump (S depth) e.2) m) +:+ "}"
  end.
Definition cache_text (c : cache_info) (label : string) : string :=
  "[cache] " +:+ label +:+ " entries=" +:+ pretty (ci_entries c) +:+ " bytes=" +:+ pretty (ci_bytes c) +:+
  " hits=" +:+ pretty (ci_hits c) +:+ " misses=" +:+ pretty (ci_misses c) +:+ " evictions=" +:+ pretty (ci_evictions c) +:+
  end_of_line.
Definition io_text (c : counters) : string :=
  "[io-summary] reads=" +:+ pretty (reads c) +:+ " read_bytes=" +:+ pretty (read_bytes c) +:+
  " appends=" +:+ pretty (appends c) +:+ " append_bytes=" +:+ pretty (append_bytes c) +:+
  " writes=" +:+ pretty (writes c) +:+ " write_bytes=" +:+ pretty (write_bytes c) +:+
  " flushes=" +:+ pretty (u64 (data_flushes c + full_flushes c)) +:+ end_of_line.

(** ** The program *)
Section program.
Context {W : Type} `{storage W} (self : Z).
Definition say (text : string) : M (monitored W) unit := on_fst (print text).
Definition watch (label : string) : heap (W:=monitored W) unit := on_snd (on_fst (monitor_begin label)).
(** [print_io(monitor->end()); print_cache(heap, label)] *)
Definition summarize (label : string) : heap (W:=monitored W) unit :=
  c ← on_snd (on_fst monitor_end);
  _ ← on_snd (say (io_text c));
  h ← state;
  on_snd (say (cache_text (cache h) label)).
Definition announce_commit : session (W:=monitored W) unit :=
  t ← on_fst get;
  on_snd (on_snd (say ("[commit] tx=" +:+ pretty (tr_id t) +:+ " dirty_roots=" +:+ pretty (dirty_roots t) +:+ end_of_line))).
Definition dumped (token : Z) (title : string) : session (W:=monitored W) unit :=
  v ← contents token;
  _ ← on_snd (on_snd (say (title +:+ end_of_line)));
  on_snd (on_snd (say (dump 0 v +:+ end_of_line))).
(** [at("arthur").at("age").as_integer()] *)
Definition age_of (v : value) : result Z := arthur ← at_const "arthur" v; age ← at_const "age" arthur; as_integer age.

Definition commit_roots : session (W:=monitored W) unit :=
  users ← object_root "users";
  _ ← edit_root users (e_key "arthur" (e_key "name" (e_string "Arthur")));
  _ ← edit_root users (e_key "arthur" (e_key "age" (e_integer 42)));
  _ ← edit_root users (e_key "arthur" (e_key "roles" (e_push true (VString "admin"))));
  _ ← edit_root users (e_key "ada" (e_key "name" (e_string "Ada")));
  _ ← edit_root users (e_key "ada" (e_key "age" (e_integer 36)));
  settings ← object_root "settings";
  _ ← edit_root settings (e_key "sample_rate" (e_integer 48000));
  _ ← edit_root settings (e_key "gain" (e_integer 12));
  _ ← edit_root settings (e_key "enabled" (e_bool true));
  telemetry ← object_root "telemetry";
  _ ← edit_root telemetry (e_key "temperature" (e_number (bits_of_sf (sf_of_decimal false 245 (-1)))));
  _ ← edit_root telemetry (e_key "pressure" (e_number (bits_of_sf (sf_of_decimal false 101325 (-2)))));
  _ ← announce_commit;
  transaction_commit.
Definition fetch_users : session (W:=monitored W) unit :=
  before ← on_snd (h ← state; mret (cache h));
  users ← root "users";
  after ← on_snd (h ← state; mret (cache h));
  _ ← on_snd (on_snd (say ("[fetch] users cache_delta: entries=" +:+ pretty (u64 (ci_entries after - ci_entries before)) +:+
                           " bytes=" +:+ pretty (u64 (ci_bytes after - ci_bytes before)) +:+
                           " misses=" +:+ pretty (u64 (ci_misses after - ci_misses before)) +:+ end_of_line)));
  _ ← dumped users "[root:users] decoded tree now resident in this transaction:";
  transaction_commit.
Definition read_age (title : string) : session (W:=monitored W) unit :=
  users ← root "users";
  v ← contents users;
  age ← lift_result (age_of v);
  _ ← on_snd (on_snd (say (title +:+ pretty age +:+ end_of_line)));
  transaction_commit.
Definition fetch_settings : session (W:=monitored W) unit :=
  settings ← root "settings";
  _ ← dumped settings "[root:settings] decoded tree:";
  transaction_commit.
Definition modify_users : session (W:=monitored W) unit :=
  users ← object_root "users";
  _ ← edit_root users (e_key "arthur" (e_key "age" (e_integer 43)));
  _ ← edit_root users (e_key "arthur" (e_key "roles" (e_push true (VString "maintainer"))));
  _ ← announce_commit;
  again ← root "users";
  _ ← dumped again "[root:users] transaction working tree before commit:";
  transaction_commit.

Definition monitor_config (path : string) : heap_config := HeapConfig path (64 * 1024 * 1024) strict true 200.
Definition first_session : heap (W:=monitored W) unit :=
  _ ← watch "commit three independent roots";
  _ ← in_session self commit_roots;
  _ ← summarize "after commit";
  _ ← checkpoint;
  close.
Definition second_session : heap (W:=monitored W) unit :=
  h ← state;
  _ ← on_snd (say (end_of_line +:+ "root metadata count=" +:+ pretty (root_count h) +:+ end_of_line));
  _ ← on_snd (say (cache_text (cache h) "immediately after reopen"));
  _ ← watch "fetch users root on first access";
  _ ← in_session self fetch_users;
  _ ← summarize "after users fetch";
  _ ← watch "fetch users again -- cache hit, no payload read";
  _ ← in_session self (read_age "[root:users] Arthur age=");
  _ ← summarize "after users cache hit";
  _ ← watch "fetch settings root only when requested";
  _ ← in_session self fetch_settings;
  _ ← summarize "after settings fetch";
  _ ← watch "modify users and commit to WAL";
  _ ← in_session self modify_users;
  _ ← summarize "after WAL commit";
  _ ← watch "read committed users from cache";
  _ ← in_session self (read_age "[root:users] committed age=");
  summarize "final".
(** [main], with the state of the second heap at its end; [path] is in the temporary directory, and
    nothing is there. *)
Definition monitor_main (path : string) : M (monitored W) heap_state :=
  h ← heap_open (monitor_config path);
  _ ← with_local h first_session;
  h ← heap_open (monitor_config path);
  with_local h (
    _ ← second_session;
    _ ← on_snd (say (end_of_line +:+ "Notice that telemetry was never fetched after reopen. " +:+
      "Its locator remains in root metadata, but its payload never entered the cache." +:+ end_of_line));
    state).
End program.
