(* ===== verification/CredentialsSpec.v ===== *)
(** * What the transactions of the credential service do to its root, and the service's calls on
    a heap in service. *)
From S2P Require Import Prelude.
From S2P Require Import Binary.
From S2P Require Import OrderedMap.
From S2P Require Import Value.
From S2P Require Import Observer.
From S2P Require Import ObserverSpec.
From S2P Require Import Codec.
From S2P Require Import Storage.
From S2P Require Import Journal.
From S2P Require Import Recovery.
From S2P Require Import Snapshot.
From S2P Require Import Cache.
From S2P Require Import Heap.
From S2P Require Import HeapSpec.
From S2P Require Import Transaction.
From S2P Require Import TransactionSpec.
From S2P Require Import Quiet.
From S2P Require Import Cli.
From S2P Require Import HeapTheorems.
From S2P Require Import TransactionTheorems.
From S2P Require Import Sessions.
From S2P Require Import Credentials.
#[local] Open Scope Z_scope.

#[export] Instance Ok_inj {X} : Inj (=) (=) (Ok (A:=X)).
Proof. by intros ?? [=]. Qed.

(** ** Edits that always send an event *)
Definition loud (f : node → node * list sent) : Prop :=
  ∀ b n, bound_to node_bind (Some b) n → (f n).2 ≠ [].
Lemma replace_loud k new : loud (replace k new).
Proof.
  intros b n Hb. pose proof (bound_binding _ _ Hb) as Eb. unfold replace.
  destruct (variant_assign _ _) as [d e]. simpl. rewrite Eb. by destruct e.
Qed.
Lemma node_at_loud key f : loud f → loud (Observer.node_at key f).
Proof.
  intros Hf b [b' d] Hb. pose proof (bound_binding _ _ Hb) as Eb. simpl in Eb. subst b'.
  unfold Observer.node_at, with_object, with_part. cbn [n_data n_binding]. destruct (part_object d) as [m|] eqn:Ed.
  - assert (d = NObject m) as -> by (destruct d; simpl in Ed; congruence).
    apply bound_object in Hb. pose proof (Hf b _ (emplaced_bound _ key m Hb)) as Hne.
    cbn [n_data]. rewrite Ed, map_at_key_eq. simpl. by intros [_ ?]%app_nil.
  - destruct d as [| | | | |[]|[]]; try done; simpl; by destruct (map_at_key _ _ _).
Qed.
Lemma loud_integer z : loud (run_edit (e_integer z)).
Proof. apply replace_loud. Qed.
Lemma loud_bool b : loud (run_edit (e_bool b)).
Proof. apply replace_loud. Qed.
Lemma loud_key key e : loud (run_edit e) → loud (run_edit (e_key key e)).
Proof. apply node_at_loud. Qed.
Create HintDb loud.
#[export] Hint Resolve loud_integer loud_bool loud_key : loud.

(** ** Sessions that write to one root *)
Section writing.
Context {W : Type} `{storage W}.
Implicit Types (t : transaction).

(** On a transaction with one root, [m] changes the content by [g], does nothing else and goes on as
    [k]; when something in it is [loudly] done, the root is dirty by then. *)
Definition leads {X} (loudly : bool) (g : value → value) (m k : session (W:=W) X) : Prop := ∀ t r s,
  tx_ok t → tr_active t = true → tr_roots t = [r] →
  ∃ r', m (t, s) = k (set_working [r'] t, s) ∧ tx_ok (set_working [r'] t) ∧
    content (wr_data r') = g (content (wr_data r)) ∧ wr_name r' = wr_name r ∧ wr_expected r' = wr_expected r ∧
    (loudly || wr_dirty r = true → wr_dirty r' = true).
Lemma leads_refl {X} (k : session (W:=W) X) : leads false (λ v, v) k k.
Proof.
  intros t r s Ht Ha Hr. exists r. rewrite <- Hr, set_working_same. split_and!; done.
Qed.
Lemma leads_edit {X} (l1 l2 : bool) e g (m k : session (W:=W) X) :
  (l1 = true → loud (run_edit e)) → leads l2 g m k →
  leads (l1 || l2) (λ v, g (apply_edit e v)) (_ ← edit_root 1 e; m) k.
Proof.
  intros Hl Hm t r s Ht Ha Hr. assert (tr_roots t !! O = Some r) as Hi by by rewrite Hr.
  pose proof (tk_bound _ Ht O r Hi) as Hb.
  pose proof (mutate_spec t O r _ Ht Ha Hi (run_edit_observed e)) as E.
  pose proof (mutate_ok t O r _ Ht Ha Hi (run_edit_observed e)) as Hok.
  change (Z.of_nat 0 + 1) with 1 in *. rewrite E in Hok. rewrite Hr in E, Hok. simpl in E, Hok.
  set (r1 := WorkingRoot _ _ _ _) in E, Hok.
  destruct (Hm (set_working [r1] t) r1 s Hok Ha eq_refl) as (r2 & E2 & Ht2 & C2 & N2 & X2 & D2).
  exists r2. unfold edit_root, on_fst, modify, mbind, M_bind. rewrite E, E2. split_and!; [done|exact Ht2| |done|done|].
  - rewrite C2. f_equal. by apply (run_edit_refines e _ _ Hb).
  - intros Hd. apply D2. unfold r1. simpl. destruct l2; [done|]. destruct l1; simpl in *.
    + rewrite bool_decide_eq_false_2 by by eapply Hl. apply orb_true_r.
    + by rewrite Hd.
Qed.
Lemma leads_quiet {X} l e g (m k : session (W:=W) X) :
  leads l g m k → leads l (λ v, g (apply_edit e v)) (_ ← edit_root 1 e; m) k.
Proof. intros Hm. by apply (leads_edit false l). Qed.
Lemma leads_loud {X} l e g (m k : session (W:=W) X) :
  loud (run_edit e) → leads l g m k → leads true (λ v, g (apply_edit e v)) (_ ← edit_root 1 e; m) k.
Proof. intros He Hm. by apply (leads_edit true l). Qed.
Lemma contents_of r t s :
  contents (W:=W) 1 (set_working [r] t, s) = (Ok (content (wr_data r)), (set_working [r] t, s)).
Proof. done. Qed.
End writing.

(** ** The record of a principal in the root's value *)
Definition record_value (principal : string) (root : value) : value :=
  default VNull (om_find principal (object_content (default VNull (om_find "credentials" (object_content root))))).
Definition as_fields (v : value) : option (list (string * value)) := match v with VObject fields => Some fields | _ => None end.
Lemma find_record_value principal root : find_record principal root = as_fields (record_value principal root).
Proof.
  unfold find_record, record_value, object_at. destruct root as [| | | | | |root]; try done. simpl.
  destruct (om_find "credentials" root) as [[| | | | | |c]|]; try done. simpl.
  by destruct (om_find principal c) as [[]|].
Qed.
Lemma record_value_open principal root :
  record_value principal (apply_edit (e_key "credentials" e_as_object) root) = record_value principal root.
Proof. unfold record_value. simpl. rewrite om_find_put. by destruct (om_find _ _) as [[]|]. Qed.
Lemma record_value_object principal root :
  record_value principal (apply_edit e_as_object root) = record_value principal root.
Proof. by destruct root. Qed.
Lemma record_value_same principal e root :
  record_value principal (apply_edit (in_record principal e) root) = apply_edit e (record_value principal root).
Proof. unfold record_value. simpl. rewrite om_find_put. simpl. by rewrite om_find_put. Qed.
(** Objects have sorted keys, down to the records; well-formed values do. *)
Definition sorted_object (v : value) : Prop := om_sorted (object_content v).
Definition credentials_of (root : value) : value := default VNull (om_find "credentials" (object_content root)).
Record tidy (root : value) : Prop := {
  td_credentials : sorted_object (credentials_of root);
  td_records principal : sorted_object (record_value principal root)
}.
Lemma wf_sorted v : wf_value v → sorted_object v.
Proof. destruct 1; unfold sorted_object; simpl; try done; constructor. Qed.
Lemma wf_entry key v : wf_value v → wf_value (default VNull (om_find key (object_content v))).
Proof.
  intros Hv. destruct (om_find key (object_content v)) as [x|] eqn:E; [|constructor].
  destruct Hv; simpl in E; try done. apply om_find_In in E as (k & Hin & _). simpl.
  match goal with Hf : Forall (λ e, wf_value e.2) _ |- _ => by apply (proj1 (Forall_forall _ _) Hf _ Hin) end.
Qed.
Lemma wf_tidy root : wf_value root → tidy root.
Proof. intros Hw. split; [|intros principal]; apply wf_sorted; repeat apply wf_entry; done. Qed.
Lemma record_value_other principal principal' e root :
  tidy root → principal' ≠ principal →
  record_value principal' (apply_edit (in_record principal e) root) = record_value principal' root.
Proof.
  intros [Hs _] Hne. unfold record_value. simpl. rewrite om_find_put. simpl.
  by rewrite om_find_put_ne by (done || exact Hs).
Qed.
Lemma tidy_open root : tidy root → tidy (apply_edit (e_key "credentials" e_as_object) root).
Proof.
  intros [Hs Hr]. split.
  - revert Hs. unfold sorted_object, credentials_of. simpl. rewrite om_find_put. by destruct (default VNull _).
  - intros principal. by rewrite record_value_open.
Qed.
Lemma tidy_edit principal e root :
  (∀ v, sorted_object v → sorted_object (apply_edit e v)) → tidy root → tidy (apply_edit (in_record principal e) root).
Proof.
  intros He Ht. pose proof Ht as [Hs Hr]. split.
  - revert Hs. unfold sorted_object, credentials_of. simpl. rewrite om_find_put. simpl. apply om_put_sorted.
  - intros principal'. destruct (decide (principal' = principal)) as [->|Hne].
    + rewrite record_value_same. by apply He.
    + by rewrite record_value_other.
Qed.
Lemma sorted_key key e v : sorted_object v → sorted_object (apply_edit (e_key key e) v).
Proof. unfold sorted_object. simpl. apply om_put_sorted. Qed.
Lemma sorted_as_object v : sorted_object v → sorted_object (apply_edit e_as_object v).
Proof. done. Qed.
Create HintDb tidy.
#[export] Hint Resolve tidy_edit sorted_key sorted_as_object tidy_open : tidy.

(** *** What [provision_locked] and [remove] make of the root *)
Definition record_edits (params : kdf_parameters) (encoded : string) (version : Z) (disabled : bool) (created updated : Z) : list edit :=
  [e_as_object;
   e_key "scheme" (e_string "argon2id");
   e_key "digest" (e_string encoded);
   e_key "parameters" e_as_object;
   e_key "parameters" (e_key "ops_limit" (e_integer (to_i64 (ops_limit params))));
   e_key "parameters" (e_key "mem_limit" (e_integer (to_i64 (mem_limit params))));
   e_key "credential_version" (e_integer version);
   e_key "disabled" (e_bool disabled);
   e_key "created_at" (e_integer created);
   e_key "updated_at" (e_integer updated)].
Definition disable_edits (updated : Z) : list edit :=
  [e_key "disabled" (e_bool true); e_key "updated_at" (e_integer updated)].
Definition edit_record (principal : string) (edits : list edit) (root : value) : value :=
  foldl (λ root e, apply_edit (in_record principal e) root) root edits.
(** The root as [object_root] and [root["credentials"].as_object()] leave it. *)
Definition opened_root (root : value) : value := apply_edit (e_key "credentials" e_as_object) (apply_edit e_as_object root).
Definition version_after (existing : option (list (string * value))) : result Z :=
  match integer_at "credential_version" existing with Some previous => next_version previous | None => Ok 1 end.
Definition provisioned_root (params : kdf_parameters) (principal encoded : string) (disabled : bool) (at_ : moments)
    (root : value) : result value :=
  version ← version_after (find_record principal root);
  Ok (edit_record principal
        (record_edits params encoded version disabled
           (default (mo_epoch at_) (integer_at "created_at" (find_record principal root))) (mo_epoch_later at_))
        (opened_root root)).
Definition disabled_root (principal : string) (at_ : moments) (root : value) : value :=
  edit_record principal (disable_edits (mo_epoch at_)) (apply_edit e_as_object root).

Definition tidy_edits (edits : list edit) : Prop :=
  Forall (λ e, ∀ v, sorted_object v → sorted_object (apply_edit e v)) edits.
Lemma edit_record_spec principal edits : ∀ root, tidy root → tidy_edits edits →
  tidy (edit_record principal edits root) ∧
  record_value principal (edit_record principal edits root) = foldl (λ v e, apply_edit e v) (record_value principal root) edits ∧
  ∀ other, other ≠ principal → record_value other (edit_record principal edits root) = record_value other root.
Proof.
  induction edits as [|e edits IH]; intros root Ht He; [done|]. apply Forall_cons in He as [He1 He].
  destruct (IH (apply_edit (in_record principal e) root)) as (H1 & H2 & H3); [by apply tidy_edit|done|].
  unfold edit_record in *. cbn [foldl]. split_and!; [done| |].
  - by rewrite H2, record_value_same.
  - intros other Hne. rewrite H3 by done. by apply record_value_other.
Qed.
Lemma record_edits_tidy params encoded version disabled created updated :
  tidy_edits (record_edits params encoded version disabled created updated).
Proof. repeat (apply Forall_cons_2; [intros v; first [apply sorted_key|apply sorted_as_object]|]). apply Forall_nil_2. Qed.
Lemma disable_edits_tidy updated : tidy_edits (disable_edits updated).
Proof. repeat (apply Forall_cons_2; [intros v; apply sorted_key|]). apply Forall_nil_2. Qed.
Lemma tidy_as_object root : tidy root → tidy (apply_edit e_as_object root).
Proof. intros [Hs Hr]. split; [by destruct root|]. intros p. by rewrite record_value_object. Qed.
Lemma opened_root_spec root :
  tidy root → tidy (opened_root root) ∧ ∀ principal, record_value principal (opened_root root) = record_value principal root.
Proof.
  intros Ht. split; [apply (tidy_open (apply_edit e_as_object root)), tidy_as_object, Ht|].
  intros principal. unfold opened_root. by rewrite record_value_open, record_value_object.
Qed.

(** The last edit of a field is what the field holds. *)
Definition field (key : string) (v : value) : option value := om_find key (object_content v).
Definition spares (key : string) (e : edit) : Prop := ∀ v, sorted_object v → field key (apply_edit e v) = field key v.
Lemma spares_as_object key : spares key e_as_object.
Proof. done. Qed.
Lemma spares_key key key' e : key' ≠ key → spares key (e_key key' e).
Proof. intros Hne v Hs. unfold field. simpl. by rewrite om_find_put_ne. Qed.
Lemma field_written key e x es1 es2 v :
  (∀ y, apply_edit e y = x) → sorted_object v → tidy_edits (es1 ++ e_key key e :: es2) → Forall (spares key) es2 →
  field key (foldl (λ v e, apply_edit e v) v (es1 ++ e_key key e :: es2)) = Some x.
Proof.
  intros Hx Hs Ht Hsp. rewrite foldl_app. cbn [foldl]. apply Forall_app in Ht as [Ht1 Ht2].
  apply Forall_cons in Ht2 as [Hk Ht2].
  assert (sorted_object (foldl (λ v e, apply_edit e v) v es1)) as Hs1.
  { clear -Hs Ht1. revert v Hs. induction Ht1 as [|e' es1 He _ IH]; intros v Hs; [done|]. by apply IH, He. }
  revert Hs1. generalize (foldl (λ v e, apply_edit e v) v es1). intros u Hu.
  assert (∀ w, sorted_object w → field key (foldl (λ v e, apply_edit e v) w es2) = field key w) as Hrest.
  { clear -Ht2 Hsp. induction es2 as [|e' es2 IH]; intros w Hw; [done|].
    apply Forall_cons in Ht2 as [? ?]. apply Forall_cons in Hsp as [Hsp ?]. cbn [foldl]. rewrite IH by auto. by apply Hsp. }
  rewrite Hrest by by apply Hk. unfold field. simpl. by rewrite om_find_put, Hx.
Qed.
Ltac spared := repeat (apply Forall_cons_2; [apply spares_key; discriminate|]); apply Forall_nil_2.
Lemma provisioned_root_spec params principal encoded disabled at_ root root' :
  tidy root → provisioned_root params principal encoded disabled at_ root = Ok root' →
  tidy root' ∧ (∀ other, other ≠ principal → find_record other root' = find_record other root) ∧
  ∃ fields, find_record principal root' = Some fields ∧ om_find "digest" fields = Some (VString encoded) ∧
    om_find "disabled" fields = Some (VBool disabled) ∧
    Ok (default 0 (integer_at "credential_version" (Some fields))) = version_after (find_record principal root) ∧
    (∀ created, integer_at "created_at" (find_record principal root) = Some created →
       integer_at "created_at" (Some fields) = Some created).
Proof.
  intros Ht. unfold provisioned_root. intros (version & -> & <-%(inj Ok))%bind_result_ok.
  destruct (opened_root_spec root Ht) as [Ht' Hr'].
  destruct (edit_record_spec principal (record_edits params encoded version disabled
    (default (mo_epoch at_) (integer_at "created_at" (find_record principal root))) (mo_epoch_later at_))
    (opened_root root) Ht' (record_edits_tidy _ _ _ _ _ _)) as (K1 & K2 & K3).
  split; [done|]. split.
  { intros other Hne. rewrite (find_record_value other), (find_record_value other root), K3, Hr' by done. done. }
  rewrite (find_record_value _ (edit_record _ _ _)), K2, Hr'. pose proof (td_records _ Ht principal) as Hs. unfold sorted_object in Hs.
  set (edits := record_edits _ _ _ _ _ _). set (v := record_value principal root) in *.
  assert (tidy_edits edits) as He by apply record_edits_tidy.
  destruct (foldl (λ v e, apply_edit e v) v edits) as [| | | | | |fields] eqn:Ef; try done.
  assert (∀ n key e x, edits = take n edits ++ e_key key e :: drop (S n) edits → (∀ y, apply_edit e y = x) →
    Forall (spares key) (drop (S n) edits) → om_find key fields = Some x) as Hfield.
  { intros n key e x E Hx Hsp. rewrite E in He. pose proof (field_written key e x _ _ v Hx Hs He Hsp) as Hw.
    rewrite <- E, Ef in Hw. exact Hw. }
  exists fields. unfold integer_at. split; [done|].
  rewrite (Hfield 6%nat "credential_version" _ _ eq_refl (λ _, eq_refl)) by spared.
  rewrite (Hfield 8%nat "created_at" _ _ eq_refl (λ _, eq_refl)) by spared.
  split_and!; [apply (Hfield 2%nat _ _ _ eq_refl (λ _, eq_refl)); spared
              |apply (Hfield 7%nat _ _ _ eq_refl (λ _, eq_refl)); spared|done|].
  intros created Hc. fold (integer_at "created_at" (find_record principal root)) in Hc. by rewrite Hc.
Qed.
Lemma digest_of_record principal root root' :
  find_record principal root = find_record principal root' → digest_of principal root = digest_of principal root'.
Proof. unfold digest_of. by intros ->. Qed.
Lemma provisioned_digest params principal encoded disabled at_ root root' :
  tidy root → provisioned_root params principal encoded disabled at_ root = Ok root' →
  digest_of principal root' = (if disabled then "" else encoded) ∧
  ∀ other, other ≠ principal → digest_of other root' = digest_of other root.
Proof.
  intros Ht E. destruct (provisioned_root_spec _ _ _ _ _ _ _ Ht E) as (_ & Hother & fields & Hf & Hd & Hdis & _).
  split; [|intros other Hne; by apply digest_of_record, Hother].
  unfold digest_of, disabled_in. by rewrite Hf, Hd, Hdis.
Qed.
Lemma disabled_root_digest principal at_ root fields :
  tidy root → find_record principal root = Some fields →
  digest_of principal (disabled_root principal at_ root) = "" ∧ is_Some (find_record principal (disabled_root principal at_ root)) ∧
  ∀ other, other ≠ principal → find_record other (disabled_root principal at_ root) = find_record other root.
Proof.
  intros Ht Hf. unfold disabled_root. pose proof (tidy_as_object root Ht) as Ht'.
  destruct (edit_record_spec principal _ _ Ht' (disable_edits_tidy (mo_epoch at_))) as (_ & K2 & K3).
  rewrite record_value_object in K2. pose proof (td_records _ Ht principal) as Hs.
  split_and!.
  - unfold digest_of. rewrite (find_record_value _ (edit_record _ _ _)), K2.
    pose proof (field_written "disabled" (e_bool true) (VBool true) [] [e_key "updated_at" (e_integer (mo_epoch at_))]
      _ (λ _, eq_refl) Hs (disable_edits_tidy _) ltac:(spared)) as Hw.
    simpl app in Hw. fold (disable_edits (mo_epoch at_)) in Hw. unfold field in Hw.
    destruct (foldl _ _ _) as [| | | | | |fields']; try done. simpl in Hw |- *. unfold disabled_in. by rewrite Hw.
  - by rewrite find_record_value, K2.
  - intros other Hne. rewrite !find_record_value, K3 by done. by rewrite record_value_object.
Qed.

(** ** The transactions of the calls *)
Section sessions.
Context {W : Type} `{HW : storage_reliable W} (config : heap_config) (self : Z).
Implicit Types (h : heap_state) (w : W) (A : amap).
#[local] Abbreviation in_service := (in_service (W:=W) config).

(** The root's value, as the open heap holds it. *)
Definition rooted A (root : value) : Prop := root_value A "root" = Ok root ∧ wf_value root.
Lemma rooted_tidy A root : rooted A root → tidy root.
Proof. intros [_ ?]. by apply wf_tidy. Qed.
Lemma rooted_with A root : wf_value root → rooted (with_root A "root" root) root.
Proof. intros Hw. split; [by apply root_value_with|done]. Qed.

(** The transaction after [object_root]. *)
Lemma object_root_spec h w A p root :
  in_service h w A p → root_value A "root" = Ok root →
  ∃ k w' r, let t := set_working [r] (loaded_transaction self h A "root" root) in
    object_root "root" (new_transaction self h, (begun h, w)) = (Ok 1, (t, (set_cache k (begun h), w'))) ∧
    tx_ok t ∧ content (wr_data r) = apply_edit e_as_object root ∧ wr_name r = "root" ∧
    wr_expected r = version_in A "root" ∧ in_service (set_cache k (begun h)) w' A p.
Proof.
  intros Hs Hv. destruct (root_in_service config self h w A p "root" root Hs ltac:(done) Hv) as (k & w' & E & Hs').
  destruct (leads_edit (W:=W) (X:=unit) false false e_as_object _ _ _ ltac:(done) (leads_refl (mret tt))
    (loaded_transaction self h A "root" root) _ (set_cache k (begun h), w') (loaded_transaction_ok self h A "root" root) eq_refl eq_refl)
    as (r & Er & Ht & Hc & Hn & He & _).
  cbn [wr_data] in Hc. rewrite content_bind, content_fresh in Hc.
  exists k, w', r. split; [|by split_and!].
  unfold object_root, mbind, M_bind. rewrite E.
  unfold edit_root, mbind, M_bind, on_fst, modify, mret, M_ret in Er. injection Er as Er.
  unfold on_fst, modify. change (run_edit e_as_object) with as_object in Er. by rewrite Er.
Qed.

Lemma leads_record {X} l principal e edits (m k : session (W:=W) X) :
  leads l (edit_record principal edits) m k →
  leads l (edit_record principal (e :: edits)) (_ ← edit_root 1 (in_record principal e); m) k.
Proof. apply (leads_quiet l (in_record principal e) (edit_record principal edits)). Qed.
Lemma leads_record_loud {X} l principal e edits (m k : session (W:=W) X) :
  loud (run_edit e) → leads l (edit_record principal edits) m k →
  leads true (edit_record principal (e :: edits)) (_ ← edit_root 1 (in_record principal e); m) k.
Proof.
  intros He. apply (leads_loud l (in_record principal e) (edit_record principal edits)). unfold in_record. auto with loud.
Qed.
Lemma leads_record_done {X} principal (k : session (W:=W) X) : leads false (edit_record principal []) k k.
Proof. exact (leads_refl k). Qed.
Lemma in_session_spec {X} (m : session (W:=W) X) h w A p :
  in_service h w A p →
  in_session self m (h, w) = let '(r, (_, s)) := m (new_transaction self h, (begun h, w)) in (r, s).
Proof.
  intros Hs. unfold in_session, mbind, M_bind. by rewrite (begin_in_service config self h w A p Hs).
Qed.

(** [lookup_digest]: the digest in the heap's root; nothing is written, and what is left does not
    depend on the principal. *)
Lemma lookup_loaded t r s principal :
  object_root "root" t = (Ok 1, (set_working [r] s.1, s.2)) →
  ∃ t', lookup_digest (W:=W) principal t = (Ok (digest_of principal (content (wr_data r))), (t', s.2)).
Proof. intros E. unfold lookup_digest, mbind, M_bind. rewrite E. by eexists. Qed.
Lemma digest_of_object principal root : digest_of principal (apply_edit e_as_object root) = digest_of principal root.
Proof. apply digest_of_record. by rewrite !find_record_value, record_value_object. Qed.
Lemma lookup_digest_spec h w A p root :
  in_service h w A p → root_value A "root" = Ok root →
  ∃ h' w', (∀ principal, in_session self (lookup_digest principal) (h, w) = (Ok (digest_of principal root), (h', w'))) ∧
    in_service h' w' A p.
Proof.
  intros Hs Hv. destruct (object_root_spec h w A p root Hs Hv) as (k & w' & r & E & _ & Hc & _ & _ & Hs').
  exists (set_cache k (begun h)), w'. split; [|done]. intros principal. rewrite (in_session_spec _ _ _ _ _ Hs).
  destruct (lookup_loaded _ r (loaded_transaction self h A "root" root, (set_cache k (begun h), w')) principal E) as [t' ->].
  by rewrite Hc, digest_of_object.
Qed.
(** The same whatever the storage does. *)
Lemma lookup_digest_faults h w A p principal :
  heap_inv config h w A p →
  ∃ r h' w', in_session self (lookup_digest principal) (h, w) = (r, (h', w')) ∧ heap_inv config h' w' A p ∧
    ∀ digest, r = Ok digest → ∃ root, root_value A "root" = Ok root ∧ digest = digest_of principal root.
Proof.
  intros Hi. unfold in_session, mbind at 1, M_bind at 1.
  destruct (begin_spec config self h w A p Hi) as [[_ ->]|(h1 & -> & Hi1)].
  { do 3 eexists. split; [done|]. split; [done|]. by intros digest [=]. }
  set (t0 := Transaction self _ true [] ∅).
  destruct (root_new config t0 h1 w A p "root" Hi1 (new_transaction_ok _ _) eq_refl ltac:(done))
    as (r & t & k & w' & E & Hi' & _ & _ & Hr & _); [apply not_elem_of_nil|].
  unfold with_local, lookup_digest, object_root. unfold mbind, M_bind. rewrite E.
  destruct r as [token|e]; [|do 3 eexists; split; [done|]; split; [done|]; by intros digest [=]].
  destruct Hr as (root & loaded & Hv & _ & -> & ->).
  destruct (leads_edit (W:=W) (X:=unit) false false e_as_object _ _ _ ltac:(done) (leads_refl (mret tt))
    (add_root "root" loaded root t0) _ (set_cache k h1, w')
    (add_root_ok t0 "root" loaded root (new_transaction_ok _ _) eq_refl) eq_refl eq_refl)
    as (r & Er & _ & Hc & _). cbn [wr_data] in Hc. rewrite content_bind, content_fresh in Hc.
  unfold edit_root, mbind, M_bind, on_fst, modify, mret, M_ret in Er. injection Er as Er.
  unfold on_fst, modify. change (run_edit e_as_object) with as_object in Er. change (size (tr_roots t0) + 1) with 1.
  unfold mret, M_ret. rewrite Er. unfold contents, mbind, M_bind, on_fst, get. simpl.
  do 3 eexists. split; [done|]. split; [done|]. intros digest [= <-]. exists root. split; [done|]. by rewrite Hc, digest_of_object.
Qed.

(** A session that writes to the root and commits it. *)
Lemma commit_written {X} (x : X) g (m k : session (W:=W) X) h w A p root c r :
  let t := set_working [r] (loaded_transaction self h A "root" root) in
  leads true g m k → (∀ s s', transaction_commit s = (Ok tt, s') → k s = (Ok x, s')) →
  tx_ok t → wr_name r = "root" → wr_expected r = version_in A "root" → in_service (set_cache c (begun h)) w A p →
  storable h A p "root" (g (content (wr_data r))) →
  ∃ t' h' w' p', m (t, (set_cache c (begun h), w)) = (Ok x, (t', (h', w'))) ∧
    in_service h' w' (with_root A "root" (g (content (wr_data r)))) p' ∧ (p' = p ∨ p' = ∅).
Proof.
  intros t Hm Hk Ht Hn He Hs Hst.
  destruct (Hm t r (set_cache c (begun h), w) Ht eq_refl eq_refl) as (r' & E & Ht' & Hc & Hn' & He' & Hd).
  destruct (commit_root config self h w A p "root" root (g (content (wr_data r))) c r') as (h' & w' & p' & E' & Hs' & Hp');
    [done|done|exact Ht'|congruence|congruence|by apply Hd|done|].
  apply Hk in E'. rewrite E. unfold t. change (set_working [r'] (set_working [r] ?t0)) with (set_working [r'] t0).
  rewrite E'. by do 4 eexists.
Qed.
Lemma write_record_spec h w A p root params principal encoded disabled at_ root' :
  in_service h w A p → root_value A "root" = Ok root →
  provisioned_root params principal encoded disabled at_ root = Ok root' → storable h A p "root" root' →
  ∃ h' w' p', in_session self (write_record params principal encoded disabled at_) (h, w) = (Ok tt, (h', w')) ∧
    in_service h' w' (with_root A "root" root') p' ∧ (p' = p ∨ p' = ∅).
Proof.
  intros Hs Hv Hroot Hst. destruct (object_root_spec h w A p root Hs Hv) as (k & w' & r & E & Ht & Hc & Hn & He & Hs').
  rewrite (in_session_spec _ _ _ _ _ Hs). unfold write_record. unfold mbind at 1, M_bind at 1. rewrite E.
  revert Hroot. unfold provisioned_root. intros (version & Ev & <-%(inj Ok))%bind_result_ok.
  set (t := set_working [r] _) in *. set (rest := λ _ : unit, root0 ← contents 1; _).
  destruct (leads_edit (W:=W) false false (e_key "credentials" e_as_object) _ _ _ ltac:(done) (leads_refl (rest tt))
    t r (set_cache k (begun h), w') Ht eq_refl eq_refl) as (r1 & E1 & Ht1 & C1 & N1 & X1 & _).
  change ((edit_root 1 (e_key "credentials" e_as_object) ≫= rest) (t, (set_cache k (begun h), w')) = rest tt (set_working [r1] t, (set_cache k (begun h), w'))) in E1.
  rewrite E1. unfold rest. m_run (contents_of r1 t (set_cache k (begun h), w')).
  assert (find_record principal (content (wr_data r1)) = find_record principal root) as ->.
  { rewrite C1, Hc, !find_record_value. by rewrite record_value_open, record_value_object. }
  fold (version_after (find_record principal root)). rewrite Ev. unfold mbind at 1, M_bind at 1, lift_result at 1.
  set (created := default _ _) in *. set (m := _ ← edit_root 1 (in_record principal e_as_object); _).
  destruct (commit_written tt (edit_record principal (record_edits params encoded version disabled created (mo_epoch_later at_)))
    m transaction_commit h w' A p root k r1) as (t' & h' & w2 & p' & E2 & Hs2 & Hp'); [|done|exact Ht1|congruence|congruence|done| |].
  - unfold m, record_edits. do 6 apply leads_record.
    eapply leads_record_loud; [auto with loud|]. do 3 apply leads_record. apply leads_record_done.
  - by rewrite C1, Hc.
  - exists h', w2, p'. change (set_working [r1] (loaded_transaction self h A "root" root)) with (set_working [r1] t) in E2.
    rewrite E2. split; [done|]. split; [|done]. by rewrite C1, Hc in Hs2.
Qed.
Lemma disable_record_spec h w A p root principal at_ :
  in_service h w A p → root_value A "root" = Ok root →
  (is_Some (find_record principal root) → storable h A p "root" (disabled_root principal at_ root)) →
  ∃ h' w' p', in_session self (disable_record principal at_) (h, w) = (Ok remove_ok, (h', w')) ∧
    in_service h' w' (match find_record principal root with
                      | Some _ => with_root A "root" (disabled_root principal at_ root)
                      | None => A
                      end) p' ∧ (p' = p ∨ p' = ∅).
Proof.
  intros Hs Hv Hst. destruct (object_root_spec h w A p root Hs Hv) as (k & w' & r & E & Ht & Hc & Hn & He & Hs').
  rewrite (in_session_spec _ _ _ _ _ Hs). unfold disable_record. unfold mbind at 1, M_bind at 1. rewrite E.
  m_run (contents_of r (loaded_transaction self h A "root" root) (set_cache k (begun h), w')).
  assert (find_record principal (content (wr_data r)) = find_record principal root) as ->.
  { rewrite Hc, !find_record_value. by rewrite record_value_object. }
  destruct (find_record principal root) as [fields|].
  2:{ exists (set_cache k (begun h)), w', p. split_and!; [done|exact Hs'|by left]. }
  set (m := _ ← edit_root 1 _; _).
  destruct (commit_written remove_ok (edit_record principal (disable_edits (mo_epoch at_))) m
    (_ ← transaction_commit; mret remove_ok) h w' A p root k r) as (t' & h' & w2 & p' & E2 & Hs2 & Hp'); try done.
  - unfold m, disable_edits. eapply leads_record_loud; [auto with loud|]. apply leads_record, leads_record_done.
  - intros s s' E'. unfold mbind, M_bind. by rewrite E'.
  - rewrite Hc. apply Hst. by eexists.
  - exists h', w2, p'. rewrite E2. split; [done|]. split; [|done]. by rewrite Hc in Hs2.
Qed.
End sessions.
