(* ===== verification/RateTheorems.v ===== *)
(** * The rate limiter of the credential service: what [allow_attempt] answers over time. *)
From stdpp Require Import functions.
From S2P Require Import Prelude.
From S2P Require Import Credentials.
#[local] Open Scope Z_scope.

(** ** A reference: every key has its window for ever *)
Abbreviation windows := (string → attempt_window) (only parsing).
Definition no_windows : windows := λ _, AttemptWindow 0 0.
Definition renewed (policy : rate_limit_policy) (now : Z) (w : attempt_window) : attempt_window :=
  if expired policy now w then AttemptWindow 0 now else w.
Definition spend (w : attempt_window) : attempt_window := AttemptWindow (count w + 1) (window_start w).
Definition reference_attempt (policy : rate_limit_policy) (now : Z) (key : string) (f : windows) : bool * windows :=
  let w := renewed policy now (f key) in
  if count w >=? max_attempts policy then (false, <[key := w]> f) else (true, <[key := spend w]> f).

(** ** Attempts one after the other, with their answers *)
Abbreviation attempts := (list (Z * string)) (only parsing).
Fixpoint limited (policy : rate_limit_policy) (l : attempts) (rate : gmap string attempt_window)
    : list (Z * string * bool) :=
  match l with
  | [] => []
  | (now, key) :: l =>
      match allow_attempt policy now key rate with
      | (Ok b, rate) => (now, key, b) :: limited policy l rate
      | (Throw _, _) => []
      end
  end.
Fixpoint reference (policy : rate_limit_policy) (l : attempts) (f : windows) : list (Z * string * bool) :=
  match l with
  | [] => []
  | (now, key) :: l =>
      let '(b, f) := reference_attempt policy now key f in (now, key, b) :: reference policy l f
  end.
(** A clock that never goes back. *)
Fixpoint ordered (from : Z) (l : attempts) : Prop :=
  match l with [] => True | (now, _) :: l => from ≤ now ∧ ordered now l end.
(** The attempts of [key] between two instants that were let through. *)
Definition passed (key : string) (lo hi : Z) (e : Z * string * bool) : Prop :=
  e.1.2 = key ∧ e.2 = true ∧ lo ≤ e.1.1 ≤ hi.
#[export] Instance passed_dec key lo hi e : Decision (passed key lo hi e).
Proof. unfold passed. apply _. Defined.
Definition let_through (key : string) (lo hi : Z) (log : list (Z * string * bool)) : Z :=
  size (filter (passed key lo hi) log).

Section limiter.
Context (policy : rate_limit_policy).
Implicit Types (rate : gmap string attempt_window) (f : windows) (l : attempts).

(** *** Pruning *)
Definition window_of rate (key : string) : attempt_window := default (AttemptWindow 0 0) (rate !! key).
Definition started rate : Prop := ∀ key, 0 ≤ window_start (window_of rate key).
(** The two limiters agree on a key, or it has expired in both. *)
Definition alike (now : Z) rate f : Prop := ∀ key,
  window_of rate key = f key ∨
  expired policy now (window_of rate key) = true ∧ expired policy now (f key) = true.

Lemma expired_later now now' w : now ≤ now' → expired policy now w = true → expired policy now' w = true.
Proof. unfold expired. intros ? ?%Z.gtb_lt. apply Z.gtb_lt. lia. Qed.
Lemma alike_later now now' rate f : now ≤ now' → alike now rate f → alike now' rate f.
Proof. intros Hle Ha key. destruct (Ha key) as [?|[? ?]]; [by left|right]. split; by eapply expired_later. Qed.
Lemma prune_lookup now rate key :
  started rate →
  window_of (prune policy now rate) key = window_of rate key ∨
  window_of (prune policy now rate) key = AttemptWindow 0 0 ∧ expired policy now (AttemptWindow 0 0) = true ∧
    expired policy now (window_of rate key) = true.
Proof.
  intros Hs. unfold prune. destruct (_ >? _); [|by left]. specialize (Hs key). revert Hs.
  unfold window_of. destruct (rate !! key) as [w|] eqn:E.
  - intros Hs. simpl in Hs. destruct (expired policy now w) eqn:Ex.
    + right. rewrite map_lookup_filter_None_2 by (right; intros w' Hw; simpl; congruence). split; [done|]. split; [|done].
      unfold expired in *. apply Z.gtb_lt in Ex. apply Z.gtb_lt. simpl. lia.
    + left. by rewrite (map_lookup_filter_Some_2 _ _ _ w).
  - intros _. left. by rewrite map_lookup_filter_None_2 by by left.
Qed.
Lemma prune_started now rate : started rate → started (prune policy now rate).
Proof. intros Hs key. destruct (prune_lookup now rate key Hs) as [->|(-> & _)]; [apply Hs|done]. Qed.
Lemma prune_alike now rate f : started rate → alike now rate f → alike now (prune policy now rate) f.
Proof.
  intros Hs Ha key. destruct (prune_lookup now rate key Hs) as [->|(-> & Hz & He)]; [apply Ha|].
  right. split; [done|]. by destruct (Ha key) as [<-|[_ ?]].
Qed.
Lemma window_of_insert rate key key' w :
  window_of (<[key := w]> rate) key' = if decide (key = key') then w else window_of rate key'.
Proof. unfold window_of. case_decide; subst; [by rewrite lookup_insert_eq|by rewrite lookup_insert_ne]. Qed.
Lemma attempt_alike now key rate f :
  0 ≤ now → started rate → alike now rate f →
  ∃ rate', allow_attempt policy now key rate = (Ok (reference_attempt policy now key f).1, rate') ∧
    started rate' ∧ alike now rate' (reference_attempt policy now key f).2.
Proof.
  intros Hnow Hs Ha. unfold allow_attempt. fold (window_of (prune policy now rate) key).
  pose proof (prune_started now _ Hs) as Hs'. pose proof (prune_alike now _ _ Hs Ha) as Ha'.
  set (rate1 := prune policy now rate) in *. fold (renewed policy now (window_of rate1 key)).
  assert (renewed policy now (window_of rate1 key) = renewed policy now (f key)) as ->.
  { unfold renewed. destruct (Ha' key) as [->|[-> ->]]; done. }
  assert (0 ≤ window_start (renewed policy now (f key))) as Hstart.
  { unfold renewed. destruct (expired policy now (f key)) eqn:E; [done|].
    destruct (Ha' key) as [<-|[_ ?]]; [apply Hs'|congruence]. }
  assert (∀ w, 0 ≤ window_start w → started (<[key := w]> rate1) ∧ alike now (<[key := w]> rate1) (<[key := w]> f)) as Hins.
  { intros w Hw. split; intros key'; rewrite window_of_insert; case_decide as Hk; try done.
    - subst. left. by rewrite fn_lookup_insert.
    - destruct (Ha' key') as [E|[? E]]; [left|right]; by rewrite fn_lookup_insert_ne. }
  unfold reference_attempt. destruct (_ >=? _); eexists; (split; [reflexivity|]); by apply Hins.
Qed.
Lemma limited_alike l : ∀ from rate f,
  0 ≤ from → ordered from l → started rate → alike from rate f → limited policy l rate = reference policy l f.
Proof.
  induction l as [|[now key] l IH]; intros from rate f Hfrom Ho Hs Ha; [done|]. destruct Ho as [Hle Ho]. simpl.
  destruct (attempt_alike now key rate f) as (rate' & -> & Hs' & Ha'); [lia|done|by eapply alike_later|].
  destruct (reference_attempt policy now key f) as [b f']. f_equal. apply (IH now); [lia|done..].
Qed.

(** *** Bounds on the reference *)
Definition in_budget f : Prop := ∀ key, 0 ≤ count (f key) ≤ max_attempts policy.
Lemma reference_cases now key f :
  in_budget f → 0 ≤ max_attempts policy →
  let w := renewed policy now (f key) in
  in_budget (reference_attempt policy now key f).2 ∧
  (∀ key', key' ≠ key → (reference_attempt policy now key f).2 key' = f key') ∧
  (count w = max_attempts policy ∧ (reference_attempt policy now key f).1 = false ∧
   (reference_attempt policy now key f).2 key = w ∨
   count w < max_attempts policy ∧ (reference_attempt policy now key f).1 = true ∧
   (reference_attempt policy now key f).2 key = spend w).
Proof.
  intros Hf Hmax w. assert (0 ≤ count w ≤ max_attempts policy) as Hw.
  { unfold w, renewed. destruct (expired _ _ _); [done|apply Hf]. }
  unfold reference_attempt. fold w. destruct (Z.geb_spec (count w) (max_attempts policy)); simpl.
  all: split_and!; [|intros key' ?; by rewrite fn_lookup_insert_ne|rewrite fn_lookup_insert].
  - intros key'. destruct (decide (key = key')) as [<-|]; [by rewrite fn_lookup_insert|by rewrite fn_lookup_insert_ne].
  - left. split; [lia|done].
  - intros key'. destruct (decide (key = key')) as [<-|]; [rewrite fn_lookup_insert; simpl; lia|by rewrite fn_lookup_insert_ne].
  - by right.
Qed.
Lemma let_through_nil key lo hi : let_through key lo hi [] = 0.
Proof. done. Qed.
Lemma let_through_nonneg key lo hi log : 0 ≤ let_through key lo hi log.
Proof. apply size_nonneg. Qed.
Lemma let_through_cons key lo hi e log :
  let_through key lo hi (e :: log) = (if decide (passed key lo hi e) then 1 else 0) + let_through key lo hi log.
Proof. unfold let_through. rewrite filter_cons. case_decide; [by rewrite size_cons|lia]. Qed.
Lemma let_through_after key lo hi l : ∀ from f, hi < from → ordered from l → let_through key lo hi (reference policy l f) = 0.
Proof.
  induction l as [|[now key'] l IH]; intros from f Hhi Ho; [done|]. destruct Ho as [Hle Ho]. simpl.
  destruct (reference_attempt _ _ _ _) as [b f']. rewrite let_through_cons, (IH now) by (lia || done).
  rewrite decide_False; [done|]. intros (_ & _ & ?). simpl in *. lia.
Qed.
Lemma let_through_other key lo hi now key' b log :
  key' ≠ key → let_through key lo hi ((now, key', b) :: log) = let_through key lo hi log.
Proof. intros. rewrite let_through_cons, decide_False; [done|]. by intros [? _]. Qed.
Lemma let_through_one key lo hi e log :
  let_through key lo hi log ≤ let_through key lo hi (e :: log) ≤ 1 + let_through key lo hi log.
Proof. rewrite let_through_cons. case_decide; lia. Qed.
Lemma let_through_refused key lo hi now log : let_through key lo hi ((now, key, false) :: log) = let_through key lo hi log.
Proof. rewrite let_through_cons, decide_False; [done|]. by intros (_ & ? & _). Qed.

Hypothesis Hmax : 0 ≤ max_attempts policy.
(** Inside one window. *)
Lemma within_window key lo hi l : ∀ from f,
  ordered from l → in_budget f → hi ≤ window_start (f key) + window policy →
  let_through key lo hi (reference policy l f) ≤ max_attempts policy - count (f key).
Proof.
  induction l as [|[now key'] l IH]; intros from f Ho Hf Hhi.
  { specialize (Hf key). rewrite let_through_nil. lia. }
  destruct Ho as [Hle Ho]. pose proof (reference_cases now key' f Hf Hmax) as (Hf' & Hother & Hkey). simpl.
  destruct (reference_attempt policy now key' f) as [b f']. simpl in *.
  destruct (decide (key' = key)) as [->|Hne].
  2:{ rewrite let_through_other by done. rewrite <- (Hother key) by done. apply (IH now); [done..|].
      by rewrite (Hother key) by done. }
  unfold renewed in Hkey. destruct (expired policy now (f key)) eqn:Ex.
  - unfold expired in Ex. apply Z.gtb_lt in Ex. pose proof (Hf key).
    rewrite let_through_cons, (let_through_after _ _ _ _ now) by (done || lia).
    rewrite decide_False; [lia|]. intros (_ & _ & ?). simpl in *. lia.
  - destruct Hkey as [(Hc & -> & Ew)|(Hc & -> & Ew)].
    + rewrite let_through_refused, <- Ew. apply (IH now); [done..|]. by rewrite Ew.
    + pose proof (let_through_one key lo hi (now, key, true) (reference policy l f')) as H1.
      pose proof (IH now f' Ho Hf') as H2. rewrite Ew in H2. specialize (H2 Hhi). simpl in H2. lia.
Qed.
(** From the start of an interval as long as the window. *)
Lemma from_interval_start key lo hi l : ∀ from f,
  lo ≤ from → hi ≤ lo + window policy → ordered from l → in_budget f →
  let_through key lo hi (reference policy l f) ≤ max_attempts policy - count (f key) + max_attempts policy.
Proof.
  induction l as [|[now key'] l IH]; intros from f Hlo Hhi Ho Hf.
  { specialize (Hf key). rewrite let_through_nil. lia. }
  destruct Ho as [Hle Ho]. pose proof (reference_cases now key' f Hf Hmax) as (Hf' & Hother & Hkey). simpl.
  destruct (reference_attempt policy now key' f) as [b f']. simpl in *.
  destruct (decide (key' = key)) as [->|Hne].
  2:{ rewrite let_through_other by done. rewrite <- (Hother key) by done. apply (IH now); [lia|done..]. }
  unfold renewed in Hkey. destruct (expired policy now (f key)) eqn:Ex.
  - pose proof (let_through_one key lo hi (now, key, b) (reference policy l f')) as H1.
    pose proof (within_window key lo hi l now f' Ho Hf') as H2. pose proof (Hf key).
    destruct Hkey as [(Hc & -> & Ew)|(Hc & -> & Ew)]; rewrite Ew in H2; simpl in *;
      [rewrite let_through_refused|]; (rewrite H2 || (etrans; [apply H1|])); lia.
  - destruct Hkey as [(Hc & -> & Ew)|(Hc & -> & Ew)].
    + rewrite let_through_refused, <- Ew. apply (IH now); [lia|done..].
    + pose proof (let_through_one key lo hi (now, key, true) (reference policy l f')) as H1.
      pose proof (IH now f' ltac:(lia) Hhi Ho Hf') as H2. rewrite Ew in H2. simpl in H2. lia.
Qed.
Lemma in_interval key lo hi l : ∀ from f,
  hi ≤ lo + window policy → ordered from l → in_budget f →
  let_through key lo hi (reference policy l f) ≤ 2 * max_attempts policy.
Proof.
  induction l as [|[now key'] l IH]; intros from f Hhi Ho Hf.
  { rewrite let_through_nil. lia. }
  destruct (Z.le_gt_cases lo now) as [Hlo|Hlo].
  - pose proof (from_interval_start key lo hi ((now, key') :: l) now f Hlo Hhi) as Hs. pose proof (Hf key).
    destruct Ho as [? Ho]. assert (ordered now ((now, key') :: l)) as Ho' by by split. specialize (Hs Ho' Hf). lia.
  - destruct Ho as [Hle Ho]. pose proof (reference_cases now key' f Hf Hmax) as (Hf' & _ & _). simpl.
    destruct (reference_attempt policy now key' f) as [b f']. simpl in *.
    rewrite let_through_cons, decide_False; [by apply (IH now)|]. intros (_ & _ & ?). simpl in *. lia.
Qed.

(** *** Refusals *)
Lemma let_through_app key lo hi log1 log2 :
  let_through key lo hi (log1 ++ log2) = let_through key lo hi log1 + let_through key lo hi log2.
Proof. unfold let_through. by rewrite filter_app, size_app. Qed.
Lemma let_through_wider key lo lo' hi hi' log :
  lo' ≤ lo → hi ≤ hi' → let_through key lo hi log ≤ let_through key lo' hi' log.
Proof.
  intros. induction log as [|e log IH]; [done|]. rewrite !let_through_cons.
  destruct (decide (passed key lo hi e)) as [(? & ? & ?)|].
  - rewrite (decide_True (P := passed key lo' hi' e)); [lia|]. split_and!; [done..| |]; lia.
  - case_decide; lia.
Qed.
(** Every window counts attempts that were let through since it started. *)
Definition accounted (now : Z) f (log : list (Z * string * bool)) : Prop :=
  ∀ key, window_start (f key) ≤ now ∧ count (f key) ≤ let_through key (window_start (f key)) now log.
Lemma refusals l : ∀ from f log,
  ordered from l → in_budget f → accounted from f log →
  ∀ log1 now key log2, reference policy l f = log1 ++ (now, key, false) :: log2 →
    max_attempts policy ≤ let_through key (now - window policy) now (log ++ log1).
Proof.
  induction l as [|[at_ key'] l IH]; intros from f log Ho Hf Ha log1 now key log2 E; [by destruct log1|].
  destruct Ho as [Hle Ho]. pose proof (reference_cases at_ key' f Hf Hmax) as (Hf' & Hother & Hkey). simpl in E.
  destruct (reference_attempt policy at_ key' f) as [b f']. simpl in *.
  assert (∀ key, let_through key (window_start (f key)) from log ≤ let_through key (window_start (f key)) at_ log) as Hmono
    by (intros; by apply let_through_wider).
  destruct log1 as [|e log1].
  - injection E as -> -> -> _. destruct Hkey as [(Hc & _ & _)|(_ & ? & _)]; [|done]. rewrite app_nil_r, <- Hc.
    unfold renewed in *. destruct (expired policy now (f key)) eqn:Ex; [apply size_nonneg|].
    unfold expired in Ex. rewrite Z.gtb_ltb in Ex. apply Z.ltb_ge in Ex.
    etrans; [apply Ha|]. apply let_through_wider; lia.
  - injection E as <- E. replace (log ++ (at_, key', b) :: log1) with ((log ++ [(at_, key', b)]) ++ log1) by by rewrite <- app_assoc.
    apply (IH at_ f' (log ++ [(at_, key', b)]) Ho Hf') with (log2 := log2); [|done].
    intros k. rewrite let_through_app. pose proof (let_through_nonneg k (window_start (f' k)) at_ log).
    pose proof (let_through_nonneg k (window_start (f' k)) at_ [(at_, key', b)]).
    destruct (decide (k = key')) as [->|Hne].
    2:{ rewrite (Hother k) in * by done. destruct (Ha k). specialize (Hmono k). lia. }
    destruct (Ha key') as [Hstart Hcount]. specialize (Hmono key').
    destruct Hkey as [(Hc & -> & Ew)|(Hc & -> & Ew)]; rewrite Ew in *; unfold renewed in *;
      destruct (expired policy at_ (f key')) eqn:Ex; simpl in *; (split; [lia|]); [lia|lia| |];
      rewrite let_through_cons, decide_True, let_through_nil by (split_and!; done || (simpl; lia)); lia.
Qed.
End limiter.

(** ** Properties *)
Section properties.
Context (policy : rate_limit_policy).

(** Pruning the table of windows changes no answer.  Whatever the sequence of attempts of any
    clients, as long as the clock does not go back, [allow_attempt] from an empty table answers each of
    them as a limiter that keeps the window of every client for ever. *)
Theorem pruning_is_invisible (l : list (Z * string)) :
  ordered 0 l → limited policy l ∅ = reference policy l no_windows.
Proof.
  intros Ho. apply (limited_alike policy l 0); [done|done|by intros key; unfold window_of; rewrite lookup_empty|].
  intros key. left. unfold window_of. by rewrite lookup_empty.
Qed.

(** C39: The limiter lets through what the policy says.  In any interval as long as the window, a
    client is let through at most twice [max_attempts] times, however its attempts are spread; and it
    is refused only when [max_attempts] of its attempts were let through within the window
    before. *)
Theorem rate_limit_holds (l : list (Z * string)) :
  0 ≤ max_attempts policy → ordered 0 l →
  (∀ key from, let_through key from (from + window policy) (limited policy l ∅) ≤ 2 * max_attempts policy) ∧
  (∀ log1 now key log2, limited policy l ∅ = log1 ++ (now, key, false) :: log2 →
     max_attempts policy ≤ let_through key (now - window policy) now log1).
Proof.
  intros Hmax Ho. assert (limited policy l ∅ = reference policy l no_windows) as ->.
  { apply (limited_alike policy l 0); [done|done|by intros key; unfold window_of; rewrite lookup_empty|].
    intros key. left. unfold window_of. by rewrite lookup_empty. }
  assert (in_budget policy no_windows) as Hb by by intros key.
  split.
  - intros key from. by apply (in_interval policy Hmax key from _ l 0).
  - intros log1 now key log2 E. apply (refusals policy Hmax l 0 no_windows [] Ho Hb) in E; [exact E|].
    intros k. split; [done|]. apply let_through_nonneg.
Qed.
End properties.

(** ** The properties at work *)
Definition two_a_minute : rate_limit_policy := RateLimitPolicy 2 60.
Definition some_attempts : list (Z * string) :=
  [(100, "a"); (101, "a"); (102, "a"); (103, "b"); (159, "a"); (161, "a"); (162, "a"); (163, "a")].
Lemma pruning_is_invisible_witness : limited two_a_minute some_attempts ∅ = reference two_a_minute some_attempts no_windows.
Proof. apply (pruning_is_invisible two_a_minute some_attempts). vm_compute. intuition discriminate. Defined.
Lemma rate_limit_holds_witness :
  let_through "a" 101 161 (limited two_a_minute some_attempts ∅) ≤ 4 ∧
  2 ≤ let_through "a" 99 159 [(100, "a", true); (101, "a", true); (102, "a", false); (103, "b", true)].
Proof.
  destruct (rate_limit_holds two_a_minute some_attempts) as [H1 H2]; [done|vm_compute; intuition discriminate|].
  split; [apply (H1 "a" 101)|]. apply (H2 _ 159 "a" [(161, "a", true); (162, "a", true); (163, "a", false)]).
  vm_compute. reflexivity.
Defined.
