(* ===== verification/CredentialsTheorems.v ===== *)
(** * Properties of the credential service. *)
From S2P Require Import Prelude.
From S2P Require Import Binary.
From S2P Require Import OrderedMap.
From S2P Require Import Value.
From S2P Require Import Observer.
From S2P Require Import ObserverSpec.
From S2P Require Import Codec.
From S2P Require Import Storage.
From S2P Require Import Journal.
From S2P Require Import Recovery.
From S2P Require Import Snapshot.
From S2P Require Import Cache.
From S2P Require Import Heap.
From S2P Require Import HeapSpec.
From S2P Require Import Transaction.
From S2P Require Import TransactionSpec.
From S2P Require Import Quiet.
From S2P Require Import Cli.
From S2P Require Import HeapTheorems.
From S2P Require Import TransactionTheorems.
From S2P Require Import Sessions.
From S2P Require Import Credentials.
From S2P Require Import CredentialsSpec.
From Stdlib Require Import Ascii.
#[local] Open Scope Z_scope.

(** ** What libsodium documents *)
Class sodium_laws `{S : sodium} := {
  sodium_ready : 0 ≤ sodium_init;
  hash_verifies n secret ops mem encoded :
    crypto_pwhash_str n secret ops mem = Some encoded → crypto_pwhash_str_verify (c_string encoded) secret = 0;
  hash_current n secret ops mem encoded :
    crypto_pwhash_str n secret ops mem = Some encoded → crypto_pwhash_str_needs_rehash (c_string encoded) ops mem = 0;
  hash_present n secret ops mem encoded :
    crypto_pwhash_str n secret ops mem = Some encoded → c_string encoded ≠ ""
}.
Lemma c_string_idem s : c_string (c_string s) = c_string s.
Proof. induction s as [|c s IH]; [done|]. simpl. destruct (decide (c = "000"%char)) as [|Hc] eqn:E; simpl; [done|]. by rewrite E, IH. Qed.

(** ** The KDF *)
Section kdf.
Context `{HL : sodium_laws}.
Implicit Types (k : kdf_state).
Definition with_calls k (calls : list kdf_call) : kdf_state := KdfState (kd_calls k ++ calls) (kd_decoy k).
Lemma ready {A} (m : kdf_op A) k : (_ ← ensure_sodium_initialized; m) k = m k.
Proof.
  unfold ensure_sodium_initialized. pose proof sodium_ready. by destruct (Z.ltb_spec sodium_init 0); [lia|].
Qed.
Lemma hash_secret_spec k secret params encoded :
  crypto_pwhash_str (length (kd_calls k)) secret (ops_limit params) (mem_limit params) = Some encoded →
  hash_secret secret params k = (Ok (c_string encoded), with_calls k [Hashing secret params]).
Proof. intros E. unfold hash_secret. rewrite ready. unfold mbind, M_bind, get, called, modify. by rewrite E. Qed.
Lemma verify_secret_spec k digest secret :
  verify_secret digest secret k =
    (Ok (crypto_pwhash_str_verify (c_string digest) secret =? 0), with_calls k [Verifying (c_string digest) secret]).
Proof. unfold verify_secret. by rewrite ready. Qed.
Lemma needs_rehash_spec k digest params :
  needs_rehash digest params k =
    (Ok (crypto_pwhash_str_needs_rehash (c_string digest) (ops_limit params) (mem_limit params) =? 1), k).
Proof. unfold needs_rehash. by rewrite ready. Qed.
Lemma decoy_verification_spec k secret params :
  (kd_decoy k = None → is_Some (crypto_pwhash_str (length (kd_calls k)) decoy_secret (ops_limit params) (mem_limit params))) →
  ∃ k' encoded, perform_decoy_verification secret params k = (Ok tt, k') ∧ kd_decoy k' = Some encoded ∧
    kd_calls k' = kd_calls k ++ (if kd_decoy k is Some _ then [] else [Hashing decoy_secret params]) ++
      [Verifying (c_string encoded) secret].
Proof.
  intros Hh. unfold perform_decoy_verification. rewrite ready. unfold decoy. unfold mbind, M_bind, get.
  destruct (kd_decoy k) as [encoded|] eqn:Ed.
  - eexists _, encoded. split; [done|]. simpl. by rewrite Ed.
  - destruct (Hh eq_refl) as [encoded E]. rewrite (hash_secret_spec _ _ _ _ E). unfold modify, mret, M_ret, called, modify.
    eexists _, (c_string encoded). split; [done|]. simpl. by rewrite <- app_assoc.
Qed.
End kdf.

(** ** The service *)
Section service.
Context {W : Type} `{HW : storage_reliable W} `{HL : sodium_laws} (config : heap_config) (self : Z).
Implicit Types (h : heap_state) (w : W) (A : amap) (sv : credential_service).
#[local] Abbreviation in_service := (in_service (W:=W) config).
Definition with_kdf sv (k : kdf_state) : credential_service := CredentialService (sv_config sv) (sv_rate sv) k.

Definition admitted sv (key : string) (at_ : moments) : bool :=
  match (allow_attempt (rate_limit (sv_config sv)) (mo_steady at_) key (sv_rate sv)).1 with Ok b => b | Throw _ => false end.
Definition counted sv (key : string) (at_ : moments) : credential_service :=
  CredentialService (sv_config sv) (allow_attempt (rate_limit (sv_config sv)) (mo_steady at_) key (sv_rate sv)).2 (sv_kdf sv).
Lemma attempt_spec key at_ sv (s : heap_state * W) :
  attempt key at_ (sv, s) = (Ok (admitted sv key at_), (counted sv key at_, s)).
Proof.
  unfold attempt, configuration, on_rate, admitted, counted, allow_attempt, mbind, M_bind, on_fst, get, mret, M_ret. simpl.
  by destruct (_ >=? _).
Qed.
Lemma configuration_spec sv (s : heap_state * W) : configuration (sv, s) = (Ok (sv_config sv), (sv, s)).
Proof. done. Qed.
Lemma on_kdf_spec {X} (m : kdf_op X) sv (s : heap_state * W) r k :
  m (sv_kdf sv) = (r, k) → on_kdf m (sv, s) = (r, (with_kdf sv k, s)).
Proof. intros E. unfold on_kdf, on_fst. by rewrite E. Qed.

(** Writing a record. *)
Lemma provision_locked_spec sv h w A p root principal secret disabled at_ encoded root' :
  in_service h w A p → root_value A "root" = Ok root →
  principal ≠ "" → ssize principal ≤ max_principal_length (sv_config sv) → min_secret_length (sv_config sv) ≤ ssize secret →
  crypto_pwhash_str (length (kd_calls (sv_kdf sv))) secret (ops_limit (kdf (sv_config sv))) (mem_limit (kdf (sv_config sv))) = Some encoded →
  provisioned_root (kdf (sv_config sv)) principal (c_string encoded) disabled at_ root = Ok root' →
  storable h A p "root" root' →
  ∃ h' w' p', provision_locked self principal secret disabled at_ (sv, (h, w)) =
      (Ok provision_ok, (with_kdf sv (with_calls (sv_kdf sv) [Hashing secret (kdf (sv_config sv))]), (h', w'))) ∧
    in_service h' w' (with_root A "root" root') p' ∧ (p' = p ∨ p' = ∅).
Proof.
  intros Hs Hv Hp Hlen Hsec He Hroot Hst.
  destruct (write_record_spec config self h w A p root _ _ _ _ _ _ Hs Hv Hroot Hst) as (h' & w' & p' & E & Hs' & Hpend).
  exists h', w', p'. split; [|done]. unfold provision_locked. m_run (configuration_spec sv (h, w)).
  rewrite bool_decide_eq_false_2 by done. destruct (Z.gtb_spec (ssize principal) (max_principal_length (sv_config sv))); [lia|].
  destruct (Z.ltb_spec (ssize secret) (min_secret_length (sv_config sv))); [lia|]. cbn [orb].
  m_run (on_kdf_spec _ sv (h, w) _ _ (hash_secret_spec _ _ _ _ He)).
  unfold mbind, M_bind, on_snd. by rewrite E.
Qed.

(** Looking a digest up, and checking it. *)
Lemma verify_looks_up sv h w A p root client_key at_ :
  in_service h w A p → root_value A "root" = Ok root → admitted sv client_key at_ = true →
  ∃ h' w', (∀ principal secret, verify self principal secret client_key at_ (sv, (h, w)) =
      check_digest self principal secret (digest_of principal root) at_ (counted sv client_key at_, (h', w'))) ∧
    in_service h' w' A p.
Proof.
  intros Hs Hv Ha. destruct (lookup_digest_spec config self h w A p root Hs Hv) as (h' & w' & E & Hs').
  exists h', w'. split; [|done]. intros principal secret. unfold verify. m_run (attempt_spec client_key at_ sv (h, w)). rewrite Ha. cbn [negb].
  unfold mbind, M_bind, on_snd. by rewrite E.
Qed.
Lemma check_no_digest sv (s : heap_state * W) principal secret at_ :
  (kd_decoy (sv_kdf sv) = None →
   is_Some (crypto_pwhash_str (length (kd_calls (sv_kdf sv))) decoy_secret (ops_limit (kdf (sv_config sv))) (mem_limit (kdf (sv_config sv))))) →
  ∃ k encoded, check_digest self principal secret "" at_ (sv, s) = (Ok verify_rejected, (with_kdf sv k, s)) ∧
    kd_decoy k = Some encoded ∧
    kd_calls k = kd_calls (sv_kdf sv) ++
      (if kd_decoy (sv_kdf sv) is Some _ then [] else [Hashing decoy_secret (kdf (sv_config sv))]) ++
      [Verifying (c_string encoded) secret].
Proof.
  intros Hd. destruct (decoy_verification_spec (sv_kdf sv) secret (kdf (sv_config sv)) Hd) as (k & encoded & E & ? & ?).
  exists k, encoded. split; [|done]. unfold check_digest. m_run (configuration_spec sv s).
  rewrite bool_decide_eq_true_2 by done. by m_run (on_kdf_spec _ sv s _ _ E).
Qed.
Lemma check_digest_steps sv (s : heap_state * W) principal secret digest at_ :
  digest ≠ "" →
  check_digest self principal secret digest at_ (sv, s) =
    let sv' := with_kdf sv (with_calls (sv_kdf sv) [Verifying (c_string digest) secret]) in
    if negb (crypto_pwhash_str_verify (c_string digest) secret =? 0) then (Ok verify_rejected, (sv', s))
    else if negb (crypto_pwhash_str_needs_rehash (c_string digest) (ops_limit (kdf (sv_config sv))) (mem_limit (kdf (sv_config sv))) =? 1)
    then (Ok verify_ok, (sv', s))
    else (_ ← provision_locked self principal secret false at_; mret verify_ok) (sv', s).
Proof.
  intros Hne. unfold check_digest. m_run (configuration_spec sv s). rewrite bool_decide_eq_false_2 by done.
  m_run (on_kdf_spec _ sv s _ _ (verify_secret_spec (sv_kdf sv) digest secret)). cbn zeta.
  destruct (negb (_ =? 0)); [done|]. set (sv' := with_kdf _ _).
  m_run (on_kdf_spec _ sv' s _ _ (needs_rehash_spec (sv_kdf sv') digest (kdf (sv_config sv)))).
  assert (with_kdf sv' (sv_kdf sv') = sv') as -> by done.
  destruct (_ =? 1); [|done]. cbn [negb]. unfold mbind, M_bind. by destruct (provision_locked _ _ _ _ _ _) as [[[]|] ?].
Qed.
Lemma check_rejects sv (s : heap_state * W) principal secret digest at_ :
  digest = "" ∨ crypto_pwhash_str_verify (c_string digest) secret ≠ 0 →
  ∃ r sv', check_digest self principal secret digest at_ (sv, s) = (r, (sv', s)) ∧ r ≠ Ok verify_ok.
Proof.
  intros Hd. unfold check_digest. m_run (configuration_spec sv s). case_bool_decide as Hempty.
  - destruct (perform_decoy_verification secret (kdf (sv_config sv)) (sv_kdf sv)) as [r k] eqn:E.
    unfold mbind, M_bind. rewrite (on_kdf_spec _ sv s _ _ E). by destruct r; do 2 eexists.
  - destruct Hd as [|Hm]; [done|]. apply Z.eqb_neq in Hm. unfold mbind, M_bind, on_kdf, on_fst, verify_secret, ensure_sodium_initialized.
    destruct (sodium_init <? 0); [by do 2 eexists|]. unfold mbind, M_bind, mret, M_ret, called, modify. simpl. rewrite Hm.
    by do 2 eexists.
Qed.
End service.

(** ** Properties *)
Section properties.
Context {W : Type} `{HW : storage_reliable W} `{HL : sodium_laws} (config : heap_config) (self : Z).
Implicit Types (h : heap_state) (w : W) (A : amap) (sv : credential_service).
#[local] Abbreviation in_service := (in_service (W:=W) config).

(** The decoy hash is there, or can be made. *)
Definition decoy_ready sv : Prop := kd_decoy (sv_kdf sv) = None →
  is_Some (crypto_pwhash_str (length (kd_calls (sv_kdf sv))) decoy_secret (ops_limit (kdf (sv_config sv))) (mem_limit (kdf (sv_config sv)))).
(** [verify] of a service over the map [A] answers [status], and leaves the map. *)
Definition answers A (cfg : service_config) (principal secret : string) (status : verify_status) : Prop :=
  ∀ self' sv h w p client_key at_,
    in_service h w A p → sv_config sv = cfg → decoy_ready sv → admitted sv client_key at_ = true →
    ∃ sv' h' w', verify self' principal secret client_key at_ (sv, (h, w)) = (Ok status, (sv', (h', w'))) ∧
      in_service h' w' A p.

Lemma answers_rejected A root cfg principal secret :
  root_value A "root" = Ok root → digest_of principal root = "" → answers A cfg principal secret verify_rejected.
Proof.
  intros Hv Hd self' sv h w p client_key at_ Hs Hcfg Hdec Ha.
  destruct (verify_looks_up config self' sv h w A p root client_key at_ Hs Hv Ha) as (h' & w' & E & Hs').
  destruct (check_no_digest self' (counted sv client_key at_) (h', w') principal secret at_ Hdec)
    as (k & encoded & E' & _). rewrite E, Hd, E'. by do 3 eexists.
Qed.
Lemma answers_checked A root cfg principal secret :
  root_value A "root" = Ok root → digest_of principal root ≠ "" →
  crypto_pwhash_str_needs_rehash (c_string (digest_of principal root)) (ops_limit (kdf cfg)) (mem_limit (kdf cfg)) ≠ 1 →
  answers A cfg principal secret
    (if crypto_pwhash_str_verify (c_string (digest_of principal root)) secret =? 0 then verify_ok else verify_rejected).
Proof.
  intros Hv Hd Hr self' sv h w p client_key at_ Hs <- _ Ha.
  destruct (verify_looks_up config self' sv h w A p root client_key at_ Hs Hv Ha) as (h' & w' & E & Hs').
  rewrite E, check_digest_steps by done. cbn zeta. destruct (_ =? 0); cbn [negb]; [|by do 3 eexists].
  change (sv_config (counted sv client_key at_)) with (sv_config sv). apply Z.eqb_neq in Hr. rewrite Hr. by do 3 eexists.
Qed.

(** A service opened on the storage is a service over the same map. *)
Definition reopens w A (cfg : service_config) : Prop :=
  config = default_config (storage_path cfg) → storage_path cfg ≠ "" →
  ∃ h w' p, service_open cfg w = (Ok (CredentialService cfg ∅ (KdfState [] None), h), w') ∧ in_service h w' A p.
Lemma service_reopens h w A p cfg : in_service h w A p → reopens w A cfg.
Proof.
  intros (Hi & Hrel & _) Hcfg Hp. apply heap_inv_recovers in Hi.
  destruct (opened_in_service config w A) as (h2 & w2 & p2 & E & Hs & _); [by rewrite Hcfg|by rewrite Hcfg|done|done|].
  exists h2, w2, p2. split; [|done]. unfold service_open, mbind, M_bind. by rewrite <- Hcfg, E.
Qed.

(** A credential that was provisioned is the one that verifies.  On reliable storage, with an admitted
    call, a valid principal and a secret that meets the policy, [provision] returns ok; from
    then on, in the same service and in one that is opened on the storage later,
    [verify] accepts a secret if the credential is not disabled and libsodium verifies the secret
    against the hash (so it accepts the secret that was provisioned), and rejects it otherwise; and the digests of all
    other principals are as before. *)
Lemma provisioned_credential_verifies sv h w A p root principal secret disabled client_key at_ encoded root' :
  in_service h w A p → rooted A root → admitted sv ("admin:" +:+ client_key) at_ = true →
  principal ≠ "" → ssize principal ≤ max_principal_length (sv_config sv) → min_secret_length (sv_config sv) ≤ ssize secret →
  crypto_pwhash_str (length (kd_calls (sv_kdf sv))) secret (ops_limit (kdf (sv_config sv))) (mem_limit (kdf (sv_config sv))) = Some encoded →
  provisioned_root (kdf (sv_config sv)) principal (c_string encoded) disabled at_ root = Ok root' →
  storable h A p "root" root' →
  ∃ sv' h' w' p', provision self principal secret disabled client_key at_ (sv, (h, w)) = (Ok provision_ok, (sv', (h', w'))) ∧
    in_service h' w' (with_root A "root" root') p' ∧ reopens w' (with_root A "root" root') (sv_config sv) ∧
    (∀ presented, answers (with_root A "root" root') (sv_config sv) principal presented
       (if negb disabled && (crypto_pwhash_str_verify (c_string encoded) presented =? 0) then verify_ok else verify_rejected)) ∧
    answers (with_root A "root" root') (sv_config sv) principal secret (if disabled then verify_rejected else verify_ok) ∧
    (∀ other, other ≠ principal → digest_of other root' = digest_of other root).
Proof.
  intros Hs Hroot Ha Hp Hlen Hsec He Hr' Hst. pose proof Hroot as [Hv _].
  destruct (provision_locked_spec config self (counted sv ("admin:" +:+ client_key) at_) h w A p root principal secret disabled at_
    encoded root' Hs Hv Hp Hlen Hsec He Hr' Hst) as (h' & w' & p' & E & Hs' & _).
  destruct (provisioned_digest _ _ _ _ _ _ _ (rooted_tidy _ _ Hroot) Hr') as [Hd Hother].
  assert (root_value (with_root A "root" root') "root" = Ok root') as Hv' by apply root_value_with, Hst.
  assert (∀ presented, answers (with_root A "root" root') (sv_config sv) principal presented
       (if negb disabled && (crypto_pwhash_str_verify (c_string encoded) presented =? 0) then verify_ok else verify_rejected)) as Hans.
  { intros presented. destruct disabled; [by eapply answers_rejected|]. cbn [negb andb].
    pose proof (answers_checked _ root' (sv_config sv) principal presented Hv') as Hc. rewrite Hd, c_string_idem in Hc.
    apply Hc; [by eapply hash_present|]. by rewrite (hash_current _ _ _ _ _ He). }
  do 4 eexists. split.
  { unfold provision. m_run (attempt_spec ("admin:" +:+ client_key) at_ sv (h, w)). rewrite Ha. exact E. }
  split_and!; [exact Hs'|eapply service_reopens, Hs'|exact Hans| |exact Hother].
  specialize (Hans secret). rewrite (hash_verifies _ _ _ _ _ He) in Hans. by destruct disabled.
Qed.

(** A credential that was removed is rejected.  On reliable storage an admitted [remove] returns ok,
    whether the principal is known or not; from then on, also after a restart, every secret presented
    for the principal is rejected, and the records of the others are as before. *)
Lemma removed_credential_rejected sv h w A p root principal client_key at_ :
  in_service h w A p → rooted A root → admitted sv ("admin:" +:+ client_key) at_ = true →
  (is_Some (find_record principal root) → storable h A p "root" (disabled_root principal at_ root)) →
  ∃ sv' h' w' A' root' p', remove self principal client_key at_ (sv, (h, w)) = (Ok remove_ok, (sv', (h', w'))) ∧
    in_service h' w' A' p' ∧ reopens w' A' (sv_config sv) ∧ root_value A' "root" = Ok root' ∧
    (∀ secret, answers A' (sv_config sv) principal secret verify_rejected) ∧
    (∀ other, other ≠ principal → find_record other root' = find_record other root).
Proof.
  intros Hs Hroot Ha Hst. pose proof Hroot as [Hv _].
  destruct (disable_record_spec config self h w A p root principal at_ Hs Hv Hst) as (h' & w' & p' & E & Hs' & _).
  set (A' := match find_record principal root with Some _ => _ | None => _ end) in Hs'.
  assert (∃ root', root_value A' "root" = Ok root' ∧ digest_of principal root' = "" ∧
    ∀ other, other ≠ principal → find_record other root' = find_record other root) as (root' & Hv' & Hd & Hother).
  { unfold A'. destruct (find_record principal root) as [fields|] eqn:Ef.
    - destruct (disabled_root_digest principal at_ root fields (rooted_tidy _ _ Hroot) Ef) as (? & _ & ?).
      exists (disabled_root principal at_ root). split; [|done]. apply root_value_with, Hst. by eexists.
    - exists root. split; [done|]. split; [|done]. unfold digest_of. by rewrite Ef. }
  exists (counted sv ("admin:" +:+ client_key) at_), h', w', A', root', p'. split.
  { unfold remove. m_run (attempt_spec ("admin:" +:+ client_key) at_ sv (h, w)). rewrite Ha. cbn [negb]. unfold on_snd. by rewrite E. }
  split_and!; [exact Hs'|eapply service_reopens, Hs'|done| |done].
  intros secret. by eapply answers_rejected.
Qed.

(** Rejections look alike.  Once the decoy hash exists, an admitted [verify] for a principal that is
    unknown, disabled or without a digest, and one for a principal whose secret is another, give the same answer, leave the same
    heap, storage and attempt windows, and have each made one verification, of the same secret, with
    libsodium. *)
Lemma rejections_look_alike sv h w A p root known unknown secret client_key at_ :
  in_service h w A p → root_value A "root" = Ok root → admitted sv client_key at_ = true → is_Some (kd_decoy (sv_kdf sv)) →
  digest_of unknown root = "" → digest_of known root ≠ "" →
  crypto_pwhash_str_verify (c_string (digest_of known root)) secret ≠ 0 →
  ∃ sv1 sv2 s encoded1 encoded2,
    verify self unknown secret client_key at_ (sv, (h, w)) = (Ok verify_rejected, (sv1, s)) ∧
    verify self known secret client_key at_ (sv, (h, w)) = (Ok verify_rejected, (sv2, s)) ∧
    sv_rate sv1 = sv_rate sv2 ∧
    kd_calls (sv_kdf sv1) = kd_calls (sv_kdf sv) ++ [Verifying encoded1 secret] ∧
    kd_calls (sv_kdf sv2) = kd_calls (sv_kdf sv) ++ [Verifying encoded2 secret] ∧
    in_service s.1 s.2 A p.
Proof.
  intros Hs Hv Ha [decoy Hdec] Hu Hk Hm.
  destruct (verify_looks_up config self sv h w A p root client_key at_ Hs Hv Ha) as (h' & w' & E & Hs').
  destruct (check_no_digest self (counted sv client_key at_) (h', w') unknown secret at_) as (k & encoded & E' & _ & Hc).
  { simpl. by rewrite Hdec. }
  simpl in Hc. rewrite Hdec in Hc. simpl in Hc.
  do 2 eexists. exists (h', w'), (c_string encoded), (c_string (digest_of known root)).
  rewrite !E, Hu, E', check_digest_steps by done. cbn zeta. apply Z.eqb_neq in Hm. rewrite Hm. cbn [negb].
  split_and!; [reflexivity|reflexivity|done|exact Hc|done|exact Hs'].
Qed.

(** C36: Nothing but the secret verifies, whatever the storage does.  Under any faults, if the root of
    the heap has no digest for the principal (it is unknown or disabled) or libsodium does not verify the presented
    secret against it, [verify] does not answer ok, and what the storage recovers to is as before. *)
Theorem only_the_secret_verifies sv h w A p principal secret client_key at_ :
  heap_inv config h w A p →
  (∀ root, root_value A "root" = Ok root →
     digest_of principal root = "" ∨ crypto_pwhash_str_verify (c_string (digest_of principal root)) secret ≠ 0) →
  ∃ r sv' h' w', verify self principal secret client_key at_ (sv, (h, w)) = (r, (sv', (h', w'))) ∧
    r ≠ Ok verify_ok ∧ heap_inv config h' w' A p ∧ recovers config w' A.
Proof.
  intros Hi Hno. unfold verify. m_run (attempt_spec client_key at_ sv (h, w)).
  destruct (admitted sv client_key at_); cbn [negb].
  2:{ do 4 eexists. split; [done|]. split; [done|]. split; [done|]. by eapply heap_inv_recovers. }
  destruct (lookup_digest_faults config self h w A p principal Hi) as (r & h' & w' & E & Hi' & Hd).
  unfold mbind, M_bind, on_snd. rewrite E. destruct r as [digest|e].
  2:{ do 4 eexists. split; [done|]. split; [done|]. split; [done|]. by eapply heap_inv_recovers. }
  destruct (Hd digest eq_refl) as (root & Hroot & ->).
  destruct (check_rejects self (counted sv client_key at_) (h', w') principal secret _ at_ (Hno root Hroot)) as (r & sv' & E' & Hr).
  rewrite E'. do 4 eexists. split; [done|]. split; [done|]. split; [done|]. by eapply heap_inv_recovers.
Qed.
End properties.

(** ** A KDF to try the service with

    It spells the bits of the secret; what it makes starts with a dollar sign, and what an older
    configuration would have made, with a percent sign. *)
Definition spell_bit (b : bool) (s : string) : string := String (if b then "1" else "0")%char s.
Fixpoint spelled (s : string) : string :=
  match s with
  | EmptyString => ""
  | String (Ascii b0 b1 b2 b3 b4 b5 b6 b7) s =>
      spell_bit b0 (spell_bit b1 (spell_bit b2 (spell_bit b3 (spell_bit b4 (spell_bit b5 (spell_bit b6 (spell_bit b7 (spelled s))))))))
  end.
Lemma c_string_bit b s : c_string (spell_bit b s) = spell_bit b (c_string s).
Proof. by destruct b. Qed.
Lemma c_string_spelled s : c_string (spelled s) = spelled s.
Proof. induction s as [|[b0 b1 b2 b3 b4 b5 b6 b7] s IH]; [done|]. cbn [spelled]. by rewrite !c_string_bit, IH. Qed.
#[export] Instance spelling : sodium := {|
  sodium_init := 0;
  crypto_pwhash_str n secret ops mem := Some ("$" +:+ spelled secret);
  crypto_pwhash_str_verify encoded secret :=
    if decide (encoded = "$" +:+ spelled secret ∨ encoded = "%" +:+ spelled secret) then 0 else -1;
  crypto_pwhash_str_needs_rehash encoded ops mem := if String.prefix "$" encoded then 0 else 1
|}.
Lemma c_string_dollar secret : c_string ("$" +:+ spelled secret) = "$" +:+ spelled secret.
Proof. change (String "$" (c_string (spelled secret)) = String "$" (spelled secret)). by rewrite c_string_spelled. Qed.
#[export] Instance spelling_laws : sodium_laws.
Proof.
  split; [done|..]; intros n secret ops mem encoded [= <-]; fold ("$" +:+ spelled secret); rewrite c_string_dollar.
  - unfold crypto_pwhash_str_verify; simpl. by rewrite decide_True by by left.
  - by destruct (spelled secret).
  - done.
Qed.

(** ** The properties at work *)
Definition some_service : service_config := default_service_config "credentials".
Definition some_heap_config : heap_config := default_config "credentials".
Definition at_noon : moments := Moments (10 ^ 12) 1700000000 1700000001.
Definition the_secret : string := "correct horse".
Definition new_service : credential_service := CredentialService some_service ∅ (KdfState [] None).
Definition new_heap : heap_state := HeapState some_heap_config 0 (new_cache (8 * 1024 * 1024)) ∅ 1 false false 0.
Definition new_disk : Disk.disk := (service_open some_service Disk.empty).2.
Lemma new_service_opens : service_open some_service Disk.empty = (Ok (new_service, new_heap), new_disk).
Proof. vm_compute. reflexivity. Qed.
Lemma new_in_service : Sessions.in_service some_heap_config new_heap new_disk ∅ ∅.
Proof.
  split_and!; [|vm_compute; reflexivity|reflexivity|reflexivity]. by apply opened_empty_inv; first [vm_compute; reflexivity|done].
Qed.
Lemma empty_rooted : rooted ∅ VNull.
Proof. split; [done|constructor]. Qed.
Definition the_hash : string := "$" +:+ spelled the_secret.
Definition provisioned (root : value) : value :=
  match provisioned_root (kdf some_service) "ada" the_hash false at_noon root with Ok root' => root' | Throw _ => VNull end.
Definition ada_root : value := Eval vm_compute in provisioned VNull.
Ltac wf_compute := repeat first [reflexivity | discriminate | constructor].
Lemma ada_wf : wf_value ada_root.
Proof. wf_compute. Qed.
Lemma ada_storable : storable new_heap ∅ ∅ "root" ada_root.
Proof.
  apply storable_first; [exact ada_wf|apply Z.leb_le; vm_compute; reflexivity|apply Z.leb_le; vm_compute; reflexivity|done|done].
Qed.
(** The service once the credential is there. *)
Definition ada_state : credential_service * (heap_state * Disk.disk) :=
  (provision_locked 100 "ada" the_secret false at_noon (new_service, (new_heap, new_disk))).2.
Definition ada_map : amap := with_root ∅ "root" ada_root.
Lemma ada_in_service : Sessions.in_service some_heap_config ada_state.2.1 ada_state.2.2 ada_map ∅.
Proof.
  destruct (provision_locked_spec some_heap_config 100 new_service new_heap new_disk ∅ ∅ VNull "ada" the_secret false at_noon the_hash ada_root)
    as (h' & w' & p' & E & Hs & Hp);
    [exact new_in_service|done|done|done|done|done|vm_compute; reflexivity|exact ada_storable|].
  unfold ada_state. rewrite E. by destruct Hp; subst p'.
Qed.
Lemma ada_rooted : rooted ada_map ada_root.
Proof. apply rooted_with, ada_wf. Qed.
Definition removed_root : value := Eval vm_compute in disabled_root "ada" at_noon ada_root.
Lemma removed_storable : storable ada_state.2.1 ada_map ∅ "root" (disabled_root "ada" at_noon ada_root).
Proof.
  assert (disabled_root "ada" at_noon ada_root = removed_root) as -> by (vm_compute; reflexivity).
  assert (version_in ada_map "root" = 1) as Ev by (vm_compute; reflexivity).
  split; rewrite ?Ev.
  - wf_compute.
  - done.
  - apply Z.leb_le. vm_compute. reflexivity.
  - unfold ada_map, with_root. rewrite insert_insert_eq, insert_empty.
    split; [rewrite map_to_list_singleton; by apply Z.leb_le|]. intros n a [<- <-]%lookup_singleton_Some.
    split_and!; apply Z.leb_le; vm_compute; reflexivity.
  - vm_compute. reflexivity.
  - vm_compute. split; [discriminate|reflexivity].
  - vm_compute. reflexivity.
Qed.
Definition warm_service : credential_service := CredentialService some_service ∅ (KdfState [] (Some "decoy")).
Lemma same_files_schedule l (d : Disk.disk) : same_files d (with_schedule l d).
Proof. by intros q. Qed.
Lemma only_the_secret_verifies_witness :
  ∃ r sv' h' w', verify 101 "ada" "guess" "10.0.0.1" at_noon
      (warm_service, (ada_state.2.1, with_schedule [Disk.f_run; Disk.f_fail] ada_state.2.2)) = (r, (sv', (h', w'))) ∧
    r ≠ Ok verify_ok ∧ heap_inv some_heap_config h' w' ada_map ∅ ∧ recovers some_heap_config w' ada_map.
Proof.
  apply (only_the_secret_verifies some_heap_config 101 warm_service ada_state.2.1 (with_schedule [Disk.f_run; Disk.f_fail] ada_state.2.2)
    ada_map ∅ "ada" "guess" "10.0.0.1" at_noon).
  - eapply heap_inv_same_files; [apply same_files_schedule|apply ada_in_service].
  - intros root Hroot. right. assert (root_value ada_map "root" = Ok ada_root) as E by apply root_value_with, ada_wf.
    rewrite E in Hroot. injection Hroot as <-. vm_compute. discriminate.
Defined.

(** A removed credential can come back.  [verify] looks a digest up in one transaction and, when the
    KDF parameters have changed since, stores a new hash in another, with [disabled] false: a [remove]
    between the two, which has returned ok, is undone, and the secret verifies again. *)
Definition old_state : credential_service * (heap_state * Disk.disk) :=
  (on_snd (in_session 100 (write_record (kdf some_service) "ada" ("%" +:+ spelled the_secret) false at_noon))
     (new_service, (new_heap, new_disk))).2.
Definition interleaved : service_op (W:=Disk.disk) (remove_status * verify_status * verify_status * verify_status) :=
  digest ← on_snd (in_session 101 (lookup_digest "ada"));
  removed ← remove 102 "ada" "admin" at_noon;
  meanwhile ← verify 103 "ada" the_secret "10.0.0.2" at_noon;
  verified ← check_digest 101 "ada" the_secret digest at_noon;
  afterwards ← verify 104 "ada" the_secret "10.0.0.3" at_noon;
  mret (removed, meanwhile, verified, afterwards).
Theorem removed_credential_comes_back :
  (interleaved old_state).1 = Ok (remove_ok, verify_rejected, verify_ok, verify_ok).
Proof. vm_compute. reflexivity. Qed.
