(* ===== verification/Http.v ===== *)
(** * The HTTP front of the credential service: [http_router.cpp] and [run_session] of [main.cpp].

    Boost is a pair of classes: what is read of a request, and JSON values.  An exception of the
    service is not caught here; it leaves [handle_request] and [run_session]. *)
From S2P Require Import Prelude.
From S2P Require Import Storage.
From S2P Require Import Heap.
From S2P Require Import Credentials.
#[local] Open Scope Z_scope.

(** ** What is used of Boost *)
Inductive verb := verb_get | verb_post | verb_delete | verb_other.
#[export] Instance verb_eq_dec : EqDecision verb.
Proof. solve_decision. Defined.
(** [http::status], as far as the router answers with it. *)
Inductive http_status :=
| status_ok | status_bad_request | status_unauthorized | status_not_found | status_too_many_requests.
#[export] Instance http_status_eq_dec : EqDecision http_status.
Proof. solve_decision. Defined.
Class http_request (R : Type) := {
  method : R → verb;
  target : R → string;
  version : R → Z;
  keep_alive : R → bool;
  field_value : R → string → option string;
  body : R → string
}.
(** [json_parse] gives [None] where [boost::json::parse] throws; [if_contains], [json_string] and
    [json_bool] are [None] for a key or an alternative that is not there. *)
Class json_library (J : Type) := {
  json_parse : string → option J;
  json_is_object : J → bool;
  if_contains : J → string → option J;
  json_string : J → option string;
  json_bool : J → option bool;
  json_object : list (string * string) → J;
  json_serialize : J → string
}.
(** A response before [prepare_payload], which derives its length field from the body. *)
Record response := Response {
  rs_status : http_status; rs_version : Z; rs_fields : list (string * string); rs_keep_alive : bool; rs_body : string }.

Section router.
Context {R : Type} `{http_request R} {J : Type} `{json_library J}.
Implicit Types (request : R).

Definition make_response (status : http_status) request (json : J) : response :=
  Response status (version request)
    [("Server", "opheap-beast-credentials-example"); ("Content-Type", "application/json")]
    (keep_alive request) (json_serialize json).
Definition make_error (status : http_status) request (message : string) : response :=
  make_response status request (json_object [("error", message)]).
Definition ok_response request : response := make_response status_ok request (json_object [("status", "ok")]).
Definition admin_authorized request (admin_token : string) : bool :=
  match field_value request "X-Admin-Token" with Some token => bool_decide (token = admin_token) | None => false end.

(** The object in the body and its two strings, or the error response. *)
Definition parse_object request : response + J :=
  match json_parse (body request) with
  | None => inl (make_error status_bad_request request "invalid json")
  | Some parsed =>
      if negb (json_is_object parsed) then inl (make_error status_bad_request request "expected a json object")
      else inr parsed
  end.
Definition strings_of request (parsed : J) : response + (string * string) :=
  match if_contains parsed "principal" ≫= json_string, if_contains parsed "secret" ≫= json_string with
  | Some principal, Some secret => inr (principal, secret)
  | _, _ => inl (make_error status_bad_request request "principal and secret are required strings")
  end.
Definition parse_principal_secret request : response + (string * string) :=
  match parse_object request with inl error => inl error | inr parsed => strings_of request parsed end.

Context {W : Type} `{storage W} `{S : sodium}.
(** The address of the transaction of the call. *)
Context (self : Z).

Definition handle_provision request (admin_token client_key : string) (at_ : moments) : service_op (W:=W) response :=
  if negb (admin_authorized request admin_token) then mret (make_error status_unauthorized request "unauthorized")
  else
    match parse_object request with
    | inl error => mret error
    | inr parsed =>
        match strings_of request parsed with
        | inl error => mret error
        | inr (principal, secret) =>
            let disabled := default false (if_contains parsed "disabled" ≫= json_bool) in
            status ← provision self principal secret disabled client_key at_;
            mret (match status with
                  | provision_ok => ok_response request
                  | provision_invalid_principal => make_error status_bad_request request "invalid principal"
                  | provision_invalid_secret => make_error status_bad_request request "secret does not meet policy"
                  | provision_rate_limited => make_error status_too_many_requests request "rate limited"
                  end)
        end
    end.
Definition handle_verify request (client_key : string) (at_ : moments) : service_op (W:=W) response :=
  match parse_principal_secret request with
  | inl error => mret error
  | inr (principal, secret) =>
      status ← verify self principal secret client_key at_;
      mret (match status with
            | verify_ok => ok_response request
            | verify_rejected => make_error status_unauthorized request "invalid credentials"
            | verify_rate_limited => make_error status_too_many_requests request "rate limited"
            end)
  end.
Definition credentials_prefix : string := "/v1/credentials/".
(** [target.substr(prefix.size())] *)
Definition principal_in (target : string) : string :=
  String.substring (String.length credentials_prefix) (String.length target - String.length credentials_prefix) target.
Definition handle_remove request (admin_token client_key : string) (at_ : moments) : service_op (W:=W) response :=
  if negb (admin_authorized request admin_token) then mret (make_error status_unauthorized request "unauthorized")
  else
    let principal := principal_in (target request) in
    if bool_decide (principal = "") then mret (make_error status_bad_request request "principal is required")
    else
      status ← remove self principal client_key at_;
      mret (match status with
            | remove_ok => ok_response request
            | remove_rate_limited => make_error status_too_many_requests request "rate limited"
            end).

Definition handle_request request (admin_token client_key : string) (at_ : moments) : service_op (W:=W) response :=
  if bool_decide (method request = verb_get) && bool_decide (target request = "/healthz")
  then mret (ok_response request)
  else if bool_decide (method request = verb_post) && bool_decide (target request = "/v1/credentials")
  then handle_provision request admin_token client_key at_
  else if bool_decide (method request = verb_post) && bool_decide (target request = "/v1/credentials/verify")
  then handle_verify request client_key at_
  else if bool_decide (method request = verb_delete) && String.prefix credentials_prefix (target request)
  then handle_remove request admin_token client_key at_
  else mret (make_error status_not_found request "not found").

(** [run_session]: the requests that can be read from the socket, each with the moments of its
    handling and with whether its response can be written; the responses that were. *)
Fixpoint run_session (incoming : list (R * moments * bool)) (admin_token client_key : string)
    : service_op (W:=W) (list response) :=
  match incoming with
  | [] => mret []
  | (request, at_, writable) :: incoming =>
      answer ← handle_request request admin_token client_key at_;
      if negb writable then mret []
      else if negb (rs_keep_alive answer) then mret [answer]
      else
        answers ← run_session incoming admin_token client_key;
        mret (answer :: answers)
  end.
End router.
