(* ===== verification/HttpTheorems.v ===== *)
(** * Properties of the credential service as its HTTP clients see it. *)
From S2P Require Import Prelude.
From S2P Require Import Binary.
From S2P Require Import OrderedMap.
From S2P Require Import Value.
From S2P Require Import ObserverSpec.
From S2P Require Import Storage.
From S2P Require Import Codec.
From S2P Require Import Recovery.
From S2P Require Import Heap.
From S2P Require Import HeapSpec.
From S2P Require Import Transaction.
From S2P Require Import TransactionSpec.
From S2P Require Import Chars.
From S2P Require Import Json.
From S2P Require Import Cli.
From S2P Require Import Sessions.
From S2P Require Import Credentials.
From S2P Require Import CredentialsSpec.
From S2P Require Import CredentialsTheorems.
From S2P Require Import Http.
From Stdlib Require Import Ascii.
#[local] Open Scope Z_scope.

(** ** Which handler a request goes to *)
Section routes.
Context {R : Type} `{HR : http_request R}.
Implicit Types (request : R).
Definition to_provision request : Prop := method request = verb_post ∧ target request = "/v1/credentials".
Definition to_verify request : Prop := method request = verb_post ∧ target request = "/v1/credentials/verify".
Definition to_remove request (principal : string) : Prop :=
  method request = verb_delete ∧ target request = credentials_prefix +:+ principal ∧ principal ≠ "".
End routes.
Lemma substring_all s : String.substring 0 (String.length s) s = s.
Proof. induction s as [|c s IH]; [done|]. simpl. by rewrite IH. Qed.
Lemma principal_in_target principal : principal_in (credentials_prefix +:+ principal) = principal.
Proof. unfold principal_in, credentials_prefix. simpl. rewrite Nat.sub_0_r. apply substring_all. Qed.

Section handlers.
Context {R : Type} `{HR : http_request R} {J : Type} `{HJ : json_library J}.
Context {W : Type} `{storage W} `{S : sodium} (self : Z).
Implicit Types (request : R) (s : credential_service * (heap_state * W)).

Lemma routed_provision request admin_token client_key at_ s :
  to_provision request → handle_request self request admin_token client_key at_ s = handle_provision self request admin_token client_key at_ s.
Proof. intros [Hm Ht]. unfold handle_request. by rewrite Hm, Ht. Qed.
Lemma routed_verify request admin_token client_key at_ s :
  to_verify request → handle_request self request admin_token client_key at_ s = handle_verify self request client_key at_ s.
Proof. intros [Hm Ht]. unfold handle_request. by rewrite Hm, Ht. Qed.
Lemma routed_remove request principal admin_token client_key at_ s :
  to_remove request principal →
  handle_request self request admin_token client_key at_ s =
    if admin_authorized request admin_token then
      (status ← remove self principal client_key at_;
       mret (match status with
             | remove_ok => ok_response request
             | remove_rate_limited => make_error status_too_many_requests request "rate limited"
             end)) s
    else (Ok (make_error status_unauthorized request "unauthorized"), s).
Proof.
  intros (Hm & Ht & Hp). unfold handle_request. rewrite Hm, Ht, prefix_app.
  rewrite !bool_decide_eq_false_2 by done. cbn [andb]. rewrite bool_decide_eq_true_2 by done. cbn [andb].
  unfold handle_remove. destruct (admin_authorized request admin_token); [|done]. cbn [negb].
  by rewrite Ht, principal_in_target, bool_decide_eq_false_2.
Qed.
Lemma handled_verify request principal secret client_key at_ s status s' :
  parse_principal_secret request = inr (principal, secret) →
  verify self principal secret client_key at_ s = (Ok status, s') →
  handle_verify self request client_key at_ s =
    (Ok (match status with
         | verify_ok => ok_response request
         | verify_rejected => make_error status_unauthorized request "invalid credentials"
         | verify_rate_limited => make_error status_too_many_requests request "rate limited"
         end), s').
Proof. intros Hp Hv. unfold handle_verify. rewrite Hp. by m_run Hv. Qed.
End handlers.

(** ** Properties *)
Section properties.
Context {R : Type} `{HR : http_request R} {J : Type} `{HJ : json_library J}.
Context {W : Type} `{HW : storage_reliable W} `{HL : sodium_laws} (config : heap_config) (self : Z).
Implicit Types (request : R) (h : heap_state) (w : W) (A : amap) (sv : credential_service).
#[local] Abbreviation in_service := (in_service (W:=W) config).

(** [POST /v1/credentials/verify] of a service over the map [A], with this principal and secret, is
    answered so: 200, or 401 with the body of every rejection. *)
Definition http_answers A (cfg : service_config) (principal secret : string) (accepted : bool) : Prop :=
  ∀ self' request admin_token sv h w p client_key at_,
    to_verify request → parse_principal_secret request = inr (principal, secret) →
    in_service h w A p → sv_config sv = cfg → decoy_ready sv → admitted sv client_key at_ = true →
    ∃ s', handle_request self' request admin_token client_key at_ (sv, (h, w)) =
      (Ok (if accepted then ok_response request else make_error status_unauthorized request "invalid credentials"), s').
Lemma answered_over_http A cfg principal secret status :
  answers config A cfg principal secret status → status ≠ verify_rate_limited →
  http_answers A cfg principal secret (bool_decide (status = verify_ok)).
Proof.
  intros Ha Hst self' request admin_token sv h w p client_key at_ Hto Hp Hs Hcfg Hd Had.
  destruct (Ha self' sv h w p client_key at_ Hs Hcfg Hd Had) as (sv' & h' & w' & E & _).
  rewrite routed_verify by done. rewrite (handled_verify self' _ _ _ _ _ _ _ _ Hp E). eexists. by destruct status.
Qed.


(** A credential that is removed over HTTP is rejected.  On reliable storage, an authorised and admitted
    [DELETE /v1/credentials/{principal}] is answered with 200 whether the principal is known or
    not; from then on, also in a service opened on the storage later, [POST /v1/credentials/verify]
    for the principal is answered with 401 whatever the secret; the records of the others are as
    before. *)
Theorem removed_then_rejected request principal admin_token client_key at_ sv h w A p root :
  to_remove request principal → admin_authorized request admin_token = true →
  in_service h w A p → rooted A root → admitted sv ("admin:" +:+ client_key) at_ = true →
  (is_Some (find_record principal root) → storable h A p "root" (disabled_root principal at_ root)) →
  ∃ sv' h' w' A' root' p', handle_request self request admin_token client_key at_ (sv, (h, w)) =
      (Ok (ok_response request), (sv', (h', w'))) ∧
    in_service h' w' A' p' ∧ reopens config w' A' (sv_config sv) ∧ root_value A' "root" = Ok root' ∧
    (∀ secret, http_answers A' (sv_config sv) principal secret false) ∧
    (∀ other, other ≠ principal → find_record other root' = find_record other root).
Proof.
  intros Hto Hadm Hs Hroot Ha Hst.
  destruct (removed_credential_rejected config self sv h w A p root principal client_key at_ Hs Hroot Ha Hst)
    as (sv' & h' & w' & A' & root' & p' & E & Hs' & Hre & Hv & Hans & Hother).
  exists sv', h', w', A', root', p'. split.
  { rewrite (routed_remove self _ _ _ _ _ _ Hto), Hadm. by m_run E. }
  split_and!; [exact Hs'|exact Hre|exact Hv| |exact Hother].
  intros secret. exact (answered_over_http _ _ _ _ _ (Hans secret) ltac:(done)).
Qed.

(** C37: A rejection says nothing about its reason.  Once the decoy hash exists, two admitted requests to
    verify the same secret, one for a principal that is unknown or disabled and one for a principal
    with another secret, that agree in version and keep-alive, get the same response with 401; they leave the
    same heap, storage and attempt windows, and each has had libsodium verify that secret once. *)
Theorem rejections_are_alike request1 request2 admin_token client_key at_ sv h w A p root known unknown secret :
  to_verify request1 → to_verify request2 → version request1 = version request2 → keep_alive request1 = keep_alive request2 →
  parse_principal_secret request1 = inr (unknown, secret) → parse_principal_secret request2 = inr (known, secret) →
  in_service h w A p → root_value A "root" = Ok root → admitted sv client_key at_ = true → is_Some (kd_decoy (sv_kdf sv)) →
  digest_of unknown root = "" → digest_of known root ≠ "" →
  crypto_pwhash_str_verify (c_string (digest_of known root)) secret ≠ 0 →
  ∃ answer sv1 sv2 s encoded1 encoded2,
    handle_request self request1 admin_token client_key at_ (sv, (h, w)) = (Ok answer, (sv1, s)) ∧
    handle_request self request2 admin_token client_key at_ (sv, (h, w)) = (Ok answer, (sv2, s)) ∧
    rs_status answer = status_unauthorized ∧ sv_rate sv1 = sv_rate sv2 ∧
    kd_calls (sv_kdf sv1) = kd_calls (sv_kdf sv) ++ [Verifying encoded1 secret] ∧
    kd_calls (sv_kdf sv2) = kd_calls (sv_kdf sv) ++ [Verifying encoded2 secret].
Proof.
  intros Hto1 Hto2 Hver Hka Hp1 Hp2 Hs Hv Ha Hd Hu Hk Hm.
  destruct (rejections_look_alike config self sv h w A p root known unknown secret client_key at_ Hs Hv Ha Hd Hu Hk Hm)
    as (sv1 & sv2 & s & encoded1 & encoded2 & E1 & E2 & Hr & Hc1 & Hc2 & _).
  exists (make_error status_unauthorized request1 "invalid credentials"), sv1, sv2, s, encoded1, encoded2.
  rewrite !routed_verify by done.
  rewrite (handled_verify self _ _ _ _ _ _ _ _ Hp1 E1), (handled_verify self _ _ _ _ _ _ _ _ Hp2 E2).
  unfold make_error, make_response. rewrite Hver, Hka. done.
Qed.
End properties.

(** ** Requests that are refused *)
Section refusals.
Context {R : Type} `{HR : http_request R} {J : Type} `{HJ : json_library J}.
Context {W : Type} `{storage W} `{S : sodium} (self : Z).
Implicit Types (request : R) (s : credential_service * (heap_state * W)).

Definition unrouted request : Prop :=
  match method request with
  | verb_get => target request ≠ "/healthz"
  | verb_post => target request ≠ "/v1/credentials" ∧ target request ≠ "/v1/credentials/verify"
  | verb_delete => String.prefix credentials_prefix (target request) = false
  | verb_other => True
  end.
(** What is wrong with a request, if anything: no credentials are looked at for it. *)
Definition refusal request (admin_token : string) (answer : response) : Prop :=
  (to_provision request ∨ ∃ principal, to_remove request principal) ∧ admin_authorized request admin_token = false ∧
    answer = make_error status_unauthorized request "unauthorized"
  ∨ to_provision request ∧ admin_authorized request admin_token = true ∧ parse_principal_secret request = inl answer
  ∨ to_verify request ∧ parse_principal_secret request = inl answer
  ∨ method request = verb_delete ∧ target request = credentials_prefix ∧ admin_authorized request admin_token = true ∧
    answer = make_error status_bad_request request "principal is required"
  ∨ unrouted request ∧ answer = make_error status_not_found request "not found".

(** C38: A request that is refused changes nothing.  Administration without the token, a body that is not
    a JSON object with two strings, a removal without a principal, and a method or a path that nothing answers get the error response
    for it, echoing the version and the keep-alive of the request, and leave the service, its rate
    limiter, the heap and the storage exactly as they were, on any storage. *)
Theorem refused_requests_change_nothing request admin_token client_key at_ s answer :
  refusal request admin_token answer →
  handle_request self request admin_token client_key at_ s = (Ok answer, s) ∧
  rs_status answer ≠ status_ok ∧ rs_version answer = version request ∧ rs_keep_alive answer = keep_alive request.
Proof.
  assert (∀ error, parse_principal_secret request = inl error →
    rs_status error ≠ status_ok ∧ rs_version error = version request ∧ rs_keep_alive error = keep_alive request) as Herr.
  { intros error. unfold parse_principal_secret, parse_object, strings_of.
    destruct (json_parse _) as [parsed|]; [|by intros [= <-]]. destruct (json_is_object parsed); [|by intros [= <-]]. cbn [negb].
    destruct (_ ≫= _); [|by intros [= <-]]. destruct (_ ≫= _); [done|by intros [= <-]]. }
  intros [(Hto & Hadm & ->)|[(Hto & Hadm & Hp)|[[Hto Hp]|[(Hm & Ht & Hadm & ->)|[Hun ->]]]]].
  - split; [|done]. destruct Hto as [Hto|[principal Hto]].
    + rewrite routed_provision by done. unfold handle_provision. by rewrite Hadm.
    + by rewrite (routed_remove self _ _ _ _ _ _ Hto), Hadm.
  - split; [|by apply Herr]. rewrite routed_provision by done. unfold handle_provision. rewrite Hadm. cbn [negb].
    revert Hp. unfold parse_principal_secret. destruct (parse_object request) as [error|parsed]; [by intros [= ->]|].
    destruct (strings_of request parsed) as [error|[]]; [by intros [= ->]|done].
  - split; [|by apply Herr]. rewrite routed_verify by done. unfold handle_verify. by rewrite Hp.
  - split; [|done]. unfold handle_request. rewrite Hm, Ht. unfold handle_remove. by rewrite Hadm, Ht.
  - split; [|done]. unfold handle_request. unfold unrouted in Hun. destruct (method request); simpl.
    + by rewrite (bool_decide_eq_false_2 (target request = _)).
    + destruct Hun. by rewrite !bool_decide_eq_false_2.
    + by rewrite Hun.
    + done.
Qed.
End refusals.

(** ** The properties at work *)

(** Requests as records, and the JSON of the repository in the place of Boost's. *)
Record plain_request := PlainRequest { pr_method : verb; pr_target : string; pr_token : option string; pr_body : string }.
#[export] Instance plain_request_fields : http_request plain_request := {|
  method := pr_method; target := pr_target; version _ := 11; keep_alive _ := true;
  field_value r name := if decide (name = "X-Admin-Token") then pr_token r else None; body := pr_body |}.
#[export] Instance own_json : json_library value := {|
  json_parse s := match Json.parse s with Ok v => Some v | Throw _ => None end;
  json_is_object := is_object;
  if_contains v key := om_find key (match v with VObject m => m | _ => [] end);
  json_string v := match v with VString s => Some s | _ => None end;
  json_bool v := match v with VBool b => Some b | _ => None end;
  json_object l := VObject (foldl (λ m e, om_put e.1 (VString e.2) m) [] l);
  json_serialize v := match write_json v with Ok l => text_of l | Throw _ => "" end |}.
Definition quote : string := String "034"%char "".
Definition object_text (principal secret : string) : string := String.concat quote
  ["{"; "principal"; ":"; principal; ","; "secret"; ":"; secret; "}"].
Definition provision_request : plain_request :=
  PlainRequest verb_post "/v1/credentials" (Some "token") (object_text "ada" the_secret).
Definition verify_request (principal secret : string) : plain_request :=
  PlainRequest verb_post "/v1/credentials/verify" None (object_text principal secret).
Definition remove_request (token : option string) : plain_request := PlainRequest verb_delete "/v1/credentials/ada" token "".
Lemma provision_parsed : ∃ parsed, parse_object provision_request = inr parsed ∧
  strings_of provision_request parsed = inr ("ada", the_secret) ∧ if_contains parsed "disabled" = None.
Proof. eexists. vm_compute. split_and!; reflexivity. Qed.
Definition sent_object : value := VObject [("principal", VString "ada"); ("secret", VString the_secret)].
#[local] Abbreviation ada_answers := (http_answers (W:=Disk.disk) (R:=plain_request) some_heap_config ada_map some_service "ada").
Lemma removed_then_rejected_witness :
  ∃ sv' h' w' A' root' p', handle_request 101 (remove_request (Some "token")) "token" "10.0.0.1" at_noon
      (ada_state.1, (ada_state.2.1, ada_state.2.2)) = (Ok (ok_response (remove_request (Some "token"))), (sv', (h', w'))) ∧
    Sessions.in_service some_heap_config h' w' A' p' ∧ reopens some_heap_config w' A' some_service ∧
    root_value A' "root" = Ok root' ∧
    (∀ secret, http_answers (W:=Disk.disk) (R:=plain_request) some_heap_config A' some_service "ada" secret false) ∧
    (∀ other, other ≠ "ada" → find_record other root' = find_record other ada_root).
Proof.
  apply (removed_then_rejected some_heap_config 101 (remove_request (Some "token")) "ada" "token" "10.0.0.1" at_noon
    ada_state.1 ada_state.2.1 ada_state.2.2 ada_map ∅ ada_root);
    [split_and!; [reflexivity|reflexivity|discriminate]|reflexivity|exact ada_in_service|exact ada_rooted
    |vm_compute; reflexivity|intros _; exact removed_storable].
Defined.
Lemma rejections_are_alike_witness :
  ∃ answer sv1 sv2 s encoded1 encoded2,
    handle_request 101 (verify_request "bob" "guess") "token" "10.0.0.1" at_noon (warm_service, (ada_state.2.1, ada_state.2.2)) =
      (Ok answer, (sv1, s)) ∧
    handle_request 101 (verify_request "ada" "guess") "token" "10.0.0.1" at_noon (warm_service, (ada_state.2.1, ada_state.2.2)) =
      (Ok answer, (sv2, s)) ∧
    rs_status answer = status_unauthorized ∧ sv_rate sv1 = sv_rate sv2 ∧
    kd_calls (sv_kdf sv1) = [Verifying encoded1 "guess"] ∧ kd_calls (sv_kdf sv2) = [Verifying encoded2 "guess"].
Proof.
  apply (rejections_are_alike some_heap_config 101 (verify_request "bob" "guess") (verify_request "ada" "guess") "token" "10.0.0.1"
    at_noon warm_service ada_state.2.1 ada_state.2.2 ada_map ∅ ada_root "ada" "bob" "guess");
    [split; reflexivity|split; reflexivity|reflexivity|reflexivity|vm_compute; reflexivity|vm_compute; reflexivity
    |exact ada_in_service|apply ada_rooted|vm_compute; reflexivity|by eexists|vm_compute; reflexivity
    |vm_compute; discriminate|vm_compute; discriminate].
Defined.
Lemma refused_requests_change_nothing_witness :
  handle_request (W:=Disk.disk) 101 (remove_request None) "token" "10.0.0.1" at_noon (new_service, (new_heap, new_disk)) =
    (Ok (make_error status_unauthorized (remove_request None) "unauthorized"), (new_service, (new_heap, new_disk))).
Proof.
  apply (refused_requests_change_nothing 101 (remove_request None) "token" "10.0.0.1" at_noon). left.
  split_and!; [right; exists "ada"; split_and!; [reflexivity|reflexivity|discriminate]|reflexivity|reflexivity].
Defined.

(** ** Exceptions

    Nothing between the service and the thread of a connection catches an exception.  Two requests to provision,
    whatever their principals, write the one root of the heap: when they overlap, the one that
    commits last throws [conflict_error]. *)
Definition overlapping : heap (W:=Disk.disk) unit :=
  in_session 101 (
    token ← object_root "root";
    _ ← edit_root token (in_record "bob" (e_key "scheme" (e_string "argon2id")));
    _ ← on_snd (in_session 102 (write_record (kdf some_service) "eve" the_hash false at_noon));
    transaction_commit).
Theorem overlapping_requests_conflict :
  (overlapping (new_heap, new_disk)).1 = Throw (conflict_error "root version conflict: root").
Proof. vm_compute. reflexivity. Qed.
Theorem exceptions_end_the_session {R J W} `{http_request R} `{json_library J} `{storage W} `{S : sodium}
    self (request : R) at_ (writable : bool) incoming admin_token client_key (s s' : credential_service * (heap_state * W)) e :
  handle_request self request admin_token client_key at_ s = (Throw e, s') →
  run_session self ((request, at_, writable) :: incoming) admin_token client_key s = (Throw e, s').
Proof. intros E. cbn [run_session]. unfold mbind, M_bind. by rewrite E. Qed.
