(* ===== verification/MonitorTheorems.v ===== *)
(** * Theorems about the watched storage.

    The monitor is transparent, and its report is exact: a heap on the monitored backend does what
    the heap on the backend does, and what is printed and counted is the sequence of its calls.
    [traced] is the specification, a storage that keeps the list of its calls. *)
From stdpp Require Import pretty.
From S2P Require Import Prelude.
From S2P Require Import Value.
From S2P Require Import Observer.
From S2P Require Import ObserverSpec.
From S2P Require Import Storage.
From S2P Require Import Journal.
From S2P Require Import Cache.
From S2P Require Import Heap.
From S2P Require Import CacheFrames.
From S2P Require Import Simulation.
From S2P Require Import Console.
From S2P Require Import Monitor.
#[local] Open Scope Z_scope.

(** ** The specification: a storage that keeps the list of its calls *)
Inductive io_event :=
  | Read (file : string) (offset bytes : Z)
  | Write (file : string) (offset bytes : Z)
  | Append (file : string) (bytes : Z)
  | FlushData (file : string)
  | FlushAll (file : string).
Definition traced (W : Type) : Type := list io_event * W.
Section traced.
Context {W : Type} `{storage W}.
Definition recorded {A} (e : io_event) (call : M W A) : M (traced W) A :=
  _ ← on_fst (modify (λ log, log ++ [e])); on_snd call.
#[export] Instance traced_storage : storage (traced W) := {|
  open_file path create_if_missing := on_snd (open_file path create_if_missing);
  create_directories path := on_snd (create_directories path);
  exists_ path := on_snd (exists_ path);
  atomic_replace from to := on_snd (atomic_replace from to);
  remove_file path := on_snd (remove_file path);
  sync_directory directory := on_snd (sync_directory directory);
  file_size path := on_snd (file_size path);
  read_exact path offset count := recorded (Read path offset count) (read_exact path offset count);
  write_exact path offset data := recorded (Write path offset (size data)) (write_exact path offset data);
  append path data := recorded (Append path (size data)) (append path data);
  truncate path new_size := on_snd (truncate path new_size);
  flush_data path := recorded (FlushData path) (flush_data path);
  flush_all path := recorded (FlushAll path) (flush_all path)
|}.
End traced.

(** What the monitor is to print of a list of calls, and its counters. *)
Definition line (e : io_event) : string :=
  match e with
  | Read file offset bytes =>
      "[io] READ   " +:+ filename file +:+ " offset=" +:+ pretty offset +:+ " bytes=" +:+ pretty bytes +:+ end_of_line
  | Write file offset bytes =>
      "[io] WRITE  " +:+ filename file +:+ " offset=" +:+ pretty offset +:+ " bytes=" +:+ pretty bytes +:+ end_of_line
  | Append file bytes => "[io] APPEND " +:+ filename file +:+ " bytes=" +:+ pretty bytes +:+ end_of_line
  | FlushData file => "[io] FLUSH  " +:+ filename file +:+ " data" +:+ end_of_line
  | FlushAll file => "[io] FSYNC  " +:+ filename file +:+ " all" +:+ end_of_line
  end.
Fixpoint lines (log : list io_event) : string :=
  match log with [] => "" | e :: log => line e +:+ lines log end.
Fixpoint total (measure : io_event → Z) (log : list io_event) : Z :=
  match log with [] => 0 | e :: log => measure e + total measure log end.
Definition totals (log : list io_event) : counters := Counters
  (u64 (total (λ e, match e with Read _ _ _ => 1 | _ => 0 end) log))
  (u64 (total (λ e, match e with Read _ _ n => n | _ => 0 end) log))
  (u64 (total (λ e, match e with Write _ _ _ => 1 | _ => 0 end) log))
  (u64 (total (λ e, match e with Write _ _ n => n | _ => 0 end) log))
  (u64 (total (λ e, match e with Append _ _ => 1 | _ => 0 end) log))
  (u64 (total (λ e, match e with Append _ n => n | _ => 0 end) log))
  (u64 (total (λ e, match e with FlushData _ => 1 | _ => 0 end) log))
  (u64 (total (λ e, match e with FlushAll _ => 1 | _ => 0 end) log)).

(** ** The monitor after a list of calls *)
Definition note (e : io_event) : M io_monitor unit :=
  match e with
  | Read file offset bytes => monitor_read file offset bytes
  | Write file offset bytes => monitor_write file offset bytes
  | Append file bytes => monitor_append file bytes
  | FlushData file => monitor_flush_data file
  | FlushAll file => monitor_flush_all file
  end.
Definition after (m : io_monitor) (log : list io_event) : io_monitor := foldl (λ m e, (note e m).2) m log.

#[local] Arguments after : simpl never.
#[local] Arguments note : simpl never.

(** A report always returns. *)
Lemma note_returns e m : note e m = (Ok tt, (note e m).2).
Proof.
  destruct e; unfold note, monitor_read, monitor_write, monitor_append, monitor_flush_data, monitor_flush_all, report,
    get, modify, mbind, M_bind; by destruct (im_enabled m).
Qed.
Lemma after_nil m : after m [] = m.
Proof. done. Qed.
Lemma after_snoc m log e : after m (log ++ [e]) = (note e (after m log)).2.
Proof. unfold after. by rewrite foldl_app. Qed.
Lemma after_disabled m log : im_enabled m = false → after m log = m.
Proof.
  intros Hm. induction log as [|e log IH] using rev_ind; [done|]. rewrite after_snoc, IH.
  destruct e; unfold note, monitor_read, monitor_write, monitor_append, monitor_flush_data, monitor_flush_all, report,
    get, modify, mbind, M_bind; by rewrite Hm.
Qed.
Lemma total_snoc measure log e : total measure (log ++ [e]) = total measure log + measure e.
Proof. induction log; simpl; lia. Qed.
Lemma lines_snoc log e : lines (log ++ [e]) = lines log +:+ line e.
Proof. induction log; simpl; [by rewrite string_app_nil_r|]. by rewrite IHlog, string_app_assoc. Qed.
Lemma after_enabled label out log :
  after (IoMonitor label no_counters true out) log = IoMonitor label (totals log) true (out +:+ lines log).
Proof.
  induction log as [|e log IH] using rev_ind; [by simpl; rewrite string_app_nil_r|].
  rewrite after_snoc, IH, lines_snoc, <- string_app_assoc. unfold totals. rewrite !total_snoc.
  destruct e; unfold note; simpl; rewrite ?Z.add_0_r; unfold u64; by rewrite ?Zplus_mod_idemp_l.
Qed.

(** ** The two views of a traced storage *)
Section views.
Context {W : Type} `{storage W}.
Definition replay (m : io_monitor) (s : traced W) : monitored W := (after m s.1, s.2).
Definition forget (s : traced W) : W := s.2.
Lemma replay_on_snd m {A} (call : M W A) : simulates (replay m) (on_snd call) (on_snd call).
Proof. intros [log w]. unfold replay, on_snd. simpl. by destruct (call w). Qed.
Lemma forget_on_snd {A} (call : M W A) : simulates forget (on_snd call) call.
Proof. intros [log w]. unfold forget, on_snd. simpl. by destruct (call w). Qed.
Lemma replay_recorded m e {A} (call : M W A) : simulates (replay m) (recorded e call) (watched (note e) call).
Proof.
  intros [log w]. unfold replay, recorded, watched, on_fst, on_snd, modify, mbind, M_bind. simpl.
  rewrite note_returns. destruct (call w). simpl. by rewrite after_snoc.
Qed.
Lemma forget_recorded e {A} (call : M W A) : simulates forget (recorded e call) call.
Proof.
  intros [log w]. unfold forget, recorded, on_fst, on_snd, modify, mbind, M_bind. simpl. by destruct (call w).
Qed.
#[export] Instance replay_morphism m : storage_morphism (replay m).
Proof.
  split; [split; [split|..]|..]; intros.
  - exact (replay_on_snd m (open_file p create)).
  - exact (replay_on_snd m (exists_ p)).
  - exact (replay_on_snd m (file_size p)).
  - exact (replay_recorded m (Read p off n) (read_exact p off n)).
  - exact (replay_on_snd m (create_directories p)).
  - exact (replay_on_snd m (remove_file p)).
  - exact (replay_on_snd m (sync_directory p)).
  - exact (replay_recorded m (Write p off (size data)) (write_exact p off data)).
  - exact (replay_on_snd m (truncate p n)).
  - exact (replay_recorded m (FlushAll p) (flush_all p)).
  - exact (replay_on_snd m (atomic_replace p q)).
  - exact (replay_recorded m (Append p (size data)) (append p data)).
  - exact (replay_recorded m (FlushData p) (flush_data p)).
Qed.
#[export] Instance forget_morphism : storage_morphism forget.
Proof.
  split; [split; [split|..]|..]; intros;
    [apply forget_on_snd..|apply forget_recorded|apply forget_on_snd|apply forget_on_snd|apply forget_on_snd
    |apply forget_recorded|apply forget_on_snd|apply forget_recorded|apply forget_on_snd|apply forget_recorded|apply forget_recorded].
Qed.
End views.

(** ** Sequences of calls of the heap *)
Inductive heap_call :=
  | Load (name : string) | Commit (tx : Z) (updates : list root_update) | Checkpoint | Integrity | Begin | Close.
Inductive heap_answer :=
  | Loaded (root : loaded_root) | Done | Reported (report : integrity_report) | Begun (tx : Z) | Failed (e : error).
Section calls.
Context {W : Type} `{storage W}.
Definition call_heap (c : heap_call) : heap (W:=W) heap_answer :=
  match c with
  | Load name => root ← load name; mret (Loaded root)
  | Commit tx updates => _ ← commit tx updates; mret Done
  | Checkpoint => _ ← checkpoint; mret Done
  | Integrity => r ← integrity; mret (Reported r)
  | Begin => tx ← begin; mret (Begun tx)
  | Close => _ ← close; mret Done
  end.
(** The caller goes on after an exception. *)
Fixpoint call_all (cs : list heap_call) : heap (W:=W) (list heap_answer) :=
  match cs with
  | [] => mret []
  | c :: cs => a ← catch (call_heap c) (λ e, mret (Failed e)); l ← call_all cs; mret (a :: l)
  end.
End calls.
Lemma simulates_calls {W1 W2 : Type} `{storage_morphism W1 W2 f} cs : simulates (beside f) (call_all cs) (call_all cs).
Proof.
  induction cs as [|c cs IH]; cbn [call_all]; [apply simulates_ret|].
  apply simulates_bind; [|auto with simulates]. apply simulates_catch; [|auto with simulates].
  destruct c; apply simulates_bind; [apply simulates_load|simulate|apply simulates_commit|simulate|apply simulates_checkpoint|simulate
    |apply simulates_integrity|simulate|apply simulates_begin|simulate|apply simulates_close|simulate].
Qed.
Lemma calls_answer {W} `{storage W} cs s : ∃ answers s', call_all (W:=W) cs s = (Ok answers, s').
Proof.
  revert s. induction cs as [|c cs IH]; intros s; [by eexists [], s|]. cbn [call_all].
  assert (∃ a s1, catch (call_heap c) (λ e, mret (Failed e)) s = (Ok a, s1)) as (a & s1 & E).
  { unfold catch. destruct (call_heap c s) as [[a|e] s1]; by eexists _, s1. }
  m_run E. destruct (IH s1) as (l & s2 & E2). m_run E2. by eexists _, s2.
Qed.

(** ** The report is exact and changes nothing *)

(** C40: A heap on the monitored backend gives the same answers to every sequence of calls, with the
    same heap and the same files in the end, as on the backend itself.  What [end] returns and
    what was printed since [begin] are the totals, modulo 2^64, and the lines of the calls that the
    backend was given, as [traced] keeps them; a monitor that is not enabled does not change. *)
Theorem monitoring_is_transparent_and_exact {W} `{storage W} label cs h m w :
  ∃ answers h' w' log,
    call_all cs (h, w) = (Ok answers, (h', w')) ∧
    call_all (W:=traced W) cs (h, ([], w)) = (Ok answers, (h', (log, w'))) ∧
    (_ ← on_snd (on_fst (monitor_begin label)); l ← call_all cs; c ← on_snd (on_fst monitor_end); mret (l, c))
      (h, (m, w)) =
      (Ok (answers, totals log),
       (h', (IoMonitor label (totals log) false
               (im_output m +:+ end_of_line +:+ "=== " +:+ label +:+ " ===" +:+ end_of_line +:+ lines log), w'))) ∧
    ∀ counted out,
      call_all cs (h, (IoMonitor label counted false out, w)) =
      (Ok answers, (h', (IoMonitor label counted false out, w'))).
Proof.
  pose proof (calls_answer (W:=traced W) cs (h, ([], w))) as (answers & [h' [log w']] & E).
  pose proof (λ m, simulates_calls (f:=replay (W:=W) m) cs (h, ([], w))) as Hreplay.
  pose proof (simulates_calls (f:=forget (W:=W)) cs (h, ([], w))) as Hforget.
  setoid_rewrite E in Hreplay. rewrite E in Hforget. unfold beside, replay, forget in *. simpl in *.
  exists answers, h', w', log. split_and!; [done|done| |].
  - unfold mbind at 1, M_bind at 1. unfold on_snd at 1, on_fst at 1. unfold monitor_begin, print, modify, mbind at 1, M_bind at 1.
    rewrite <- (after_nil (IoMonitor _ _ _ _)). unfold mbind at 1, M_bind at 1. rewrite Hreplay, after_enabled. simpl.
    by rewrite !string_app_assoc.
  - intros counted out. pose proof (Hreplay (IoMonitor label counted false out)) as Hm.
    by rewrite !after_disabled in Hm by done.
Qed.

(** ** What the cache contains *)

(** A root that the cache holds is loaded from it. *)
Lemma load_hit {W} `{storage W} name h w record bytes :
  hs_roots h !! name = Some record → rr_type record = value_type_name →
  cache_ok (hs_cache h) → holds (hs_cache h) name (rr_version record) bytes →
  ∃ h2, load name (h, w) = (Ok (LoadedRoot (rr_version record) (Some bytes) true), (h2, w)) ∧
    hs_roots h2 = hs_roots h ∧ cache_ok (hs_cache h2) ∧ holds (hs_cache h2) name (rr_version record) bytes.
Proof.
  intros Er Et Hc (it & e & Hin & ->). destruct (cache_get_hit _ _ _ Hc Hin) as (c & E & Hc' & Hh). simpl in E.
  exists (set_cache c h). split_and!; [|done|done|].
  - unfold load, state. unfold mbind at 1, M_bind at 1, on_fst, get. rewrite Er, bool_decide_true by done. cbn [negb].
    unfold mbind, M_bind, on_cache. by rewrite E.
  - exists it, (Entry name (rr_version record) bytes). split; [|done].
    change (c_lru (hs_cache _)) with (c_lru c). destruct (c_lru c); [done|]. injection Hh as ->. by left.
Qed.
(** A load leaves a root that fits in the cache. *)
Lemma load_caches {W} `{storage W} name h w root h1 w1 record :
  hs_roots h !! name = Some record → cache_ok (hs_cache h) → 0 < c_limit (hs_cache h) →
  load name (h, w) = (Ok root, (h1, w1)) →
  (∀ bytes, ld_payload root = Some bytes → size bytes ≤ c_limit (hs_cache h)) →
  rr_type record = value_type_name ∧ hs_roots h1 !! name = Some record ∧ cache_ok (hs_cache h1) ∧
  ∃ bytes, root = LoadedRoot (rr_version record) (Some bytes) true ∧ holds (hs_cache h1) name (rr_version record) bytes.
Proof.
  intros Er Hc Hpos E Hfit. unfold load, state in E. unfold mbind at 1, M_bind at 1, on_fst, get in E. rewrite Er in E.
  case_bool_decide as Et; [|done]. cbn [negb] in E.
  destruct (cache_get_ok (hs_cache h) name (rr_version record) Hc) as (r & c & Eg & Hc' & Hl & Hr & _).
  unfold mbind at 1, M_bind at 1, on_cache in E. rewrite Eg in E. simpl in E. destruct r as [bytes|].
  - destruct Hr as [|(p & [= <-] & Hh)]; [done|].
    destruct (load_hit name h w record bytes Er Et Hc Hh) as (h2 & E2 & Hroots & Hc2 & Hh2).
    unfold load, state in E2. unfold mbind at 1, M_bind at 1, on_fst, get in E2.
    rewrite Er, bool_decide_true in E2 by done. cbn [negb] in E2.
    unfold mbind at 1, M_bind at 1, on_cache in E2. rewrite Eg in E2. simpl in E2.
    pose proof (eq_trans (eq_sym E) E2) as [= -> -> ->]. split_and!; [done|by rewrite Hroots|done|]. by eexists.
  - unfold load_uncached, state in E. unfold mbind at 1, M_bind at 1, on_fst, get in E. cbn [hs_roots set_cache] in E.
    rewrite Er in E. apply bind_inv_ok in E as (bytes & [h' w'] & E1 & E). unfold on_snd in E1.
    destruct (load_payload _ _ _) as [rp wp]. injection E1 as -> <- <-.
    destruct (cache_put_ok c name (rr_version record) bytes Hc') as (c2 & Ep & Hc2 & _ & _ & Hhead).
    unfold mbind, M_bind, on_cache in E. cbn [hs_cache set_cache] in E. rewrite Ep in E. injection E as <- <- <-.
    split_and!; [done|done|done|]. exists bytes. split; [done|].
    specialize (Hhead ltac:(lia)). rewrite Hl in Hhead. specialize (Hhead (Hfit bytes eq_refl)).
    eexists _, _. split; [|done]. change (c_lru (hs_cache _)) with (c_lru c2). destruct (c_lru c2); [done|]. injection Hhead as ->. by left.
Qed.

(** A second load of a root that fits the cache finds it there, whatever was done to the storage in
    between: it returns the same payload and makes no call to the storage. *)
Theorem second_load_makes_no_call {W} `{storage W} name h w root h1 w1 :
  cache_ok (hs_cache h) → 0 < c_limit (hs_cache h) →
  load name (h, w) = (Ok root, (h1, w1)) →
  (∀ bytes, ld_payload root = Some bytes → size bytes ≤ c_limit (hs_cache h)) →
  ∀ w', ∃ h2, load name (h1, w') = (Ok root, (h2, w')).
Proof.
  intros Hc Hpos E Hfit w'. destruct (hs_roots h !! name) as [record|] eqn:Er.
  - destruct (load_caches name h w root h1 w1 record) as (Et & Er1 & Hc1 & bytes & -> & Hh); [done..|].
    destruct (load_hit name h1 w' record bytes) as (h2 & E2 & _); [done..|]. by exists h2.
  - unfold load, state, mbind, M_bind, on_fst, get in *. rewrite Er in E. injection E as <- <- <-. exists h. by rewrite Er.
Qed.

(** A root committed in one session, and the heap of the next one. *)
Definition reopened : M (monitored Disk.disk) heap_state :=
  h ← heap_open (monitor_config "db");
  _ ← with_local h (commit 1 [RootUpdate "users" 0 1 value_type_name [x05; x01]]);
  heap_open (monitor_config "db").
Lemma second_load_makes_no_call_witness :
  ∃ h s root h1 s1, reopened (new_monitor, Disk.empty) = (Ok h, s) ∧ load "users" (h, s) = (Ok root, (h1, s1)) ∧
    ∀ w' : monitored Disk.disk, ∃ h2, load "users" (h1, w') = (Ok root, (h2, w')).
Proof.
  eassert (reopened (new_monitor, Disk.empty) = (Ok _, _)) as E1 by (vm_compute; reflexivity).
  lazymatch type of E1 with _ = (Ok ?h, ?s) =>
    eassert (load "users" (h, s) = (Ok _, (_, _))) as E2 by (vm_compute; reflexivity) end.
  do 5 eexists. split; [exact E1|]. split; [exact E2|].
  refine (second_load_makes_no_call _ _ _ _ _ _ _ _ E2 _).
  - apply (new_cache_ok 200). split; [discriminate|reflexivity].
  - reflexivity.
  - intros bytes [= <-]. discriminate.
Defined.

(** The roots that a call fetches or writes. *)
Definition touched (c : heap_call) : list string :=
  match c with Load name => [name] | Commit _ updates => u_name <$> updates | _ => [] end.
Section touched.
Context {W : Type} `{storage W}.
(** Only payloads of [names], and those of the cache [c0]. *)
Definition within (names : list string) (c0 c : payload_cache) : Prop :=
  cache_ok c ∧ ∀ n v p, holds c n v p → n ∈ names ∨ holds c0 n v p.
Context (names : list string) (c0 : payload_cache).
#[local] Instance within_invariant : cache_invariant (within names c0) (λ n _ _, n ∈ names).
Proof.
  split.
  - intros n v p c Hn [Hc Hin]. destruct (cache_put_ok c n v p Hc) as (c' & -> & Hc' & _ & Hh & _). split; [done|].
    intros m v' p' [[= -> -> ->]|?]%Hh; [by left|by apply Hin].
  - intros n v c [Hc Hin]. destruct (cache_get_ok c n v Hc) as (r & c' & -> & Hc' & _ & _ & Hh). split; [done|].
    intros m v' p' ?%Hh. by apply Hin.
Qed.
Abbreviation kept := (keeps (W:=W) (within names c0)).
Lemma keeps_call c : touched c ⊆ names → kept (call_heap c).
Proof.
  intros Hn. destruct c as [name|tx updates| | | |]; unfold call_heap; (apply keeps_bind; [|auto with keeps]).
  - eapply keeps_load; [apply _|]. intros ? ?. apply Hn. by left.
  - eapply keeps_commit; [apply _|]. apply Forall_forall. intros u Hu. by apply Hn, list_elem_of_fmap_2.
  - auto with keeps.
  - auto with keeps.
  - unfold begin. auto 10 with keeps.
  - unfold close. auto with keeps.
Qed.
Lemma keeps_calls cs : cs ≫= touched ⊆ names → kept (call_all cs).
Proof.
  induction cs as [|c cs IH]; cbn [call_all]; intros Hn; [auto with keeps|].
  assert (kept (call_heap c)) by (apply keeps_call; intros n ?; apply Hn; simpl; apply elem_of_app; auto).
  assert (kept (call_all cs)) by (apply IH; intros n ?; apply Hn; simpl; apply elem_of_app; auto). auto 10 with keeps.
Qed.
End touched.

(** Payloads enter the cache one root at a time: whatever the calls and however they end, the cache
    holds the payloads of roots that were loaded or committed by them, and what it held before. *)
Theorem only_touched_roots_are_cached {W} `{storage W} cs h w :
  cache_ok (hs_cache h) →
  ∃ answers s, call_all cs (h, w) = (Ok answers, s) ∧ cache_ok (hs_cache s.1) ∧
    ∀ n v p, holds (hs_cache s.1) n v p → n ∈ (cs ≫= touched) ∨ holds (hs_cache h) n v p.
Proof.
  intros Hc. destruct (calls_answer cs (h, w)) as (answers & s & E). exists answers, s. split; [done|].
  pose proof (keeps_calls (cs ≫= touched) (hs_cache h) cs (reflexivity _) (h, w)) as Hk. rewrite E in Hk.
  apply Hk. split; [done|]. by right.
Qed.
Lemma only_touched_roots_are_cached_witness :
  ∃ answers s, call_all (W:=Disk.disk) [Begin; Load "users"]
                 (HeapState (monitor_config "db") 0 (new_cache 200) ∅ 1 false false 0, Disk.empty) = (Ok answers, s) ∧
    cache_ok (hs_cache s.1) ∧
    ∀ n v p, holds (hs_cache s.1) n v p → n ∈ ["users"] ∨ holds (new_cache 200) n v p.
Proof. apply only_touched_roots_are_cached, new_cache_ok. split; [discriminate|reflexivity]. Defined.

(** The program runs to its end, and its last words are true: the root that it never fetched after
    the second opening is known to the heap and not in its cache. *)
Example telemetry_stays_out :
  match (monitor_main 7 "/tmp/opheap-monitor" (new_monitor, Disk.empty)).1 with
  | Ok h => root_names h = ["settings"; "telemetry"; "users"] ∧ c_entries (hs_cache h) !! "telemetry" = None ∧
            is_Some (c_entries (hs_cache h) !! "users")
  | Throw _ => False
  end.
Proof. vm_compute. split_and!; [done|done|by eexists]. Qed.
