(* ===== verification/Fuzz.v ===== *)
(** * The property-based stress test: [stress/scenarios/model_fuzz.cpp].

    The program drives a heap with random changes and compares it, after every one of them, with
    values in memory on which it makes the same changes.  Here it is a function of the state of a
    random number generator; [random] and [random_laws] are what it uses of [<random>]. *)
From stdpp Require Import pretty.
From S2P Require Import Prelude.
From S2P Require Import OrderedMap.
From S2P Require Import Value.
From S2P Require Import Double.
From S2P Require Import Observer.
From S2P Require Import ObserverSpec.
From S2P Require Import Storage.
From S2P Require Import Heap.
From S2P Require Import Transaction.
From S2P Require Import Cli.
From S2P Require Import Credentials.
From Stdlib.Floats Require Import SpecFloat.
#[local] Open Scope Z_scope.

(** ** Comparing *)

(** [operator==] of [double] *)
Definition d_equal (a b : double) : bool := SFeqb (sf_of_bits a) (sf_of_bits b).
Fixpoint deep_equal (a b : value) : bool :=
  match a, b with
  | VNull, VNull => true
  | VBool x, VBool y => Bool.eqb x y
  | VInteger x, VInteger y => x =? y
  | VNumber x, VNumber y => d_equal x y
  | VString x, VString y => bool_decide (x = y)
  | VArray x, VArray y =>
      (size x =? size y) &&
      (fix each (x y : list value) : bool :=
         match x, y with
         | a :: x, b :: y => deep_equal a b && each x y
         | _, _ => true
         end) x y
  | VObject x, VObject y =>
      (size x =? size y) &&
      forallb (λ e, match om_find e.1 y with Some b => deep_equal e.2 b | None => false end) x
  | _, _ => false
  end.

(** ** The random choices *)
Class random (R : Type) := {
  (** [std::uniform_int_distribution{low, high}(rng)] *)
  pick : Z → Z → M R Z;
  (** [std::uniform_real_distribution<double>{-1e6, 1e6}(rng)] *)
  pick_real : M R double;
  (** [rng()] *)
  draw : M R Z
}.
Class random_laws (R : Type) `{random R} := {
  pick_law low high r : low ≤ high → ∃ z r', pick low high r = (Ok z, r') ∧ low ≤ z ≤ high;
  pick_real_law r : ∃ d r', pick_real r = (Ok d, r') ∧ is_u64 d ∧ d_equal d d = true;
  draw_law r : ∃ z r', draw r = (Ok z, r') ∧ 0 ≤ z < 2 ^ 64
}.

Definition field_name (n : Z) : string := "field" +:+ pretty n.
Section draws.
Context {R : Type} `{random R}.
Fixpoint times {A} (n : nat) (m : M R A) : M R (list A) :=
  match n with O => mret [] | S n => x ← m; l ← times n m; mret (x :: l) end.
Definition random_path (max_depth : Z) : M R (list string) :=
  depth ← pick 0 max_depth;
  times (Z.to_nat depth) (n ← pick 0 3; mret (field_name n)).
Definition random_letter : M R Ascii.ascii := n ← draw; mret (Ascii.ascii_of_nat (97 + Z.to_nat (n mod 26))).
Definition random_scalar : M R value :=
  kind ← pick 0 3;
  if kind =? 0 then z ← pick (-1000000) 1000000; mret (VInteger z)
  else if kind =? 1 then d ← pick_real; mret (VNumber d)
  else if kind =? 2 then n ← draw; mret (VBool (negb (n mod 2 =? 0)))
  else
    length ← pick 0 24;
    text ← times (Z.to_nat length) random_letter;
    mret (VString (String.string_of_list_ascii text)).

(** What one iteration does to the root, drawn before it is done: the draws read nothing else. *)
Inductive fuzz_op :=
  | Set_ (path : list string) (scalar : value)
  | Erase_first (path : list string)
  | Push_back (path : list string) (scalar : value).
Definition random_op : M R fuzz_op :=
  op ← pick 0 5;
  if op =? 1 then path ← random_path 2; mret (Erase_first path)
  else if op =? 2 then path ← random_path 2; scalar ← random_scalar; mret (Push_back path scalar)
  else path ← random_path 3; scalar ← random_scalar; mret (Set_ path scalar).
End draws.

(** ** One iteration *)

(** [walk(root, path)] and something done to the value it returns. *)
Definition walk (path : list string) (e : edit) : edit := foldr e_key e path.
(** The value at the end of a path that is there. *)
Definition value_at (path : list string) (v : value) : value :=
  foldl (λ v key, default VNull (om_find key (object_content v))) v path.
(** The key to erase: the first one, if the value is an object and has one. *)
Definition first_key (v : value) : option string :=
  match v with VObject (e :: _) => Some e.1 | _ => None end.
(** A failed check of the test context. *)
Definition check {S} (b : bool) (message : string) : M S unit :=
  if b then mret tt else throw (runtime_error message).

(** The generator, the values in memory, and how many iterations are left to the next reopening. *)
Record fuzzer (R : Type) := Fuzzer { fz_rng : R; fz_model : list value; fz_countdown : Z }.
Arguments Fuzzer {R} _ _ _.
Arguments fz_rng {R} _.
Arguments fz_model {R} _.
Arguments fz_countdown {R} _.

(** [unsigned] arithmetic *)
Definition u32 (z : Z) : Z := z mod 2 ^ 32.
Definition root_names : list string := ["a"; "b"; "c"].
Section fuzz.
Context {R : Type} `{random R} {W : Type} `{storage W} (self : Z) (directory : string).

(** The change of the root and of the value in memory; the result is the latter. *)
Definition perform (token : Z) (op : fuzz_op) (model : value) : session (W:=W) value :=
  match op with
  | Set_ path scalar =>
      let e := walk path (e_copy scalar) in
      _ ← edit_root token e; mret (apply_edit e model)
  | Erase_first path =>
      _ ← edit_root token (walk path e_none);
      let model := apply_edit (walk path e_none) model in
      live ← contents token;
      match first_key (value_at path live) with
      | Some key =>
          let e := walk path (e_erase_key key) in
          _ ← edit_root token e; mret (apply_edit e model)
      | None => mret model
      end
  | Push_back path scalar =>
      let e := walk path (e_push true scalar) in
      _ ← edit_root token e; mret (apply_edit e model)
  end.
(** The first transaction of an iteration; the result is the new value in memory. *)
Definition change_root (name : string) (op : fuzz_op) (should_abort : bool) (model : value) : session (W:=W) value :=
  live ← root name;
  trial_model ← perform live op model;
  if should_abort then _ ← on_fst (modify abort); mret model
  else _ ← transaction_commit; mret trial_model.
Definition compare_root (name : string) (model : value) (message : string) : session (W:=W) unit :=
  token ← root name;
  v ← contents token;
  check (deep_equal v model) message.

Definition fuzz := M (fuzzer R * (heap_state * W)).
Definition on_rng {A} (m : M R A) : fuzz A := on_fst (λ f,
  let '(r, rng) := m (fz_rng f) in (r, Fuzzer rng (fz_model f) (fz_countdown f))).
Definition model_of (slot : nat) : fuzz value :=
  f ← on_fst get; mret (default VNull (fz_model f !! slot)).
Definition set_model (slot : nat) (v : value) : fuzz unit :=
  on_fst (modify (λ f, Fuzzer (fz_rng f) (<[slot := v]> (fz_model f)) (fz_countdown f))).
Definition set_countdown (n : Z) : fuzz unit :=
  on_fst (modify (λ f, Fuzzer (fz_rng f) (fz_model f) n)).
(** [heap = std::make_unique<opheap::heap>(opheap::heap::open({.path = directory}))] *)
Definition reopen : fuzz unit := on_snd (λ '(h, w),
  match heap_open (default_config directory) w with
  | (Ok h', w') => (Ok tt, (h', w'))
  | (Throw e, w') => (Throw e, (h, w'))
  end).
Fixpoint compare_all (slots : list nat) : fuzz unit :=
  match slots with
  | [] => mret tt
  | slot :: slots =>
      model ← model_of slot;
      _ ← on_snd (in_session self (compare_root (nth slot root_names "") model
                    "heap root diverged from reference model across a checkpoint+reopen"));
      compare_all slots
  end.

(** One iteration: a change that is compared, and every 200th time a checkpoint and a reopening. *)
Definition change_and_compare (i : Z) : fuzz unit :=
  slot ← on_rng (pick 0 2);
  let slot := Z.to_nat slot in
  let name := nth slot root_names "" in
  op ← on_rng random_op;
  let should_abort := i mod 7 =? 0 in
  model ← model_of slot;
  model ← on_snd (in_session self (change_root name op should_abort model));
  _ ← set_model slot model;
  on_snd (in_session self (compare_root name model
            ("heap root diverged from reference model after " +:+ (if should_abort then "abort" else "commit")))).
Definition reopen_sometimes : fuzz unit :=
  f ← on_fst get;
  let reopen_countdown := u32 (fz_countdown f - 1) in
  _ ← set_countdown reopen_countdown;
  if reopen_countdown =? 0 then
    _ ← set_countdown 200;
    _ ← on_snd checkpoint;
    _ ← reopen;
    compare_all [0; 1; 2]%nat
  else mret tt.
Definition iteration (i : Z) : fuzz unit := _ ← change_and_compare i; reopen_sometimes.
Fixpoint iterate (n : nat) (i : Z) : fuzz unit :=
  match n with O => mret tt | S n => _ ← iteration i; iterate n (i + 1) end.
(** [2'000U * opts.scale] *)
Definition iterations (scale : Z) : nat := Z.to_nat (u32 (2000 * scale)).
Definition fuzz_heap (scale : Z) : fuzz unit :=
  _ ← iterate (iterations scale) 0;
  report ← on_snd integrity;
  check (ir_ok report) "heap failed integrity check after model-fuzzing".
(** The scenario, on a directory of its own. *)
Definition model_fuzz (scale : Z) (rng : R) : M W unit :=
  h ← heap_open (default_config directory);
  with_local h (with_local (Fuzzer rng [VNull; VNull; VNull] 200) (fuzz_heap scale)).
End fuzz.
