(* ===== verification/FuzzTheorems.v ===== *)
(** * The stress test never fails.

    [fuzzer_agrees]: whatever the random choices, however many iterations, the heap agrees with the
    values in memory all along, across aborts, checkpoints and reopenings. *)
From stdpp Require Import pretty.
From S2P Require Import Prelude.
From S2P Require Import Binary.
From S2P Require Import OrderedMap.
From S2P Require Import Value.
From S2P Require Import Observer.
From S2P Require Import ObserverSpec.
From S2P Require Import Codec.
From S2P Require Import Storage.
From S2P Require Import Journal.
From S2P Require Import Recovery.
From S2P Require Import Snapshot.
From S2P Require Import Cache.
From S2P Require Import Heap.
From S2P Require Import HeapSpec.
From S2P Require Import Transaction.
From S2P Require Import TransactionSpec.
From S2P Require Import Cli.
From S2P Require Import Sessions.
From S2P Require Import Credentials.
From S2P Require Import CredentialsSpec.
From S2P Require Import Fuzz.
#[local] Open Scope Z_scope.

#[local] Set Warnings "-register-all".

(** ** Values that compare equal to themselves: they hold no NaN *)
Inductive comparable : value → Prop :=
| comparable_null : comparable VNull
| comparable_bool b : comparable (VBool b)
| comparable_integer z : comparable (VInteger z)
| comparable_number d : d_equal d d = true → comparable (VNumber d)
| comparable_string s : comparable (VString s)
| comparable_array l : Forall comparable l → comparable (VArray l)
| comparable_object m : Forall (λ e, comparable e.2) m → comparable (VObject m).
#[export] Hint Constructors comparable : core.
Lemma deep_equal_refl v : wf_value v → comparable v → deep_equal v v = true.
Proof.
  induction v as [| | | | |l IH|m IH] using value_rect_nested; intros Hw Hc; inversion Hw; inversion Hc; subst; simpl.
  - done.
  - by apply eqb_reflx.
  - apply Z.eqb_refl.
  - done.
  - by apply bool_decide_true.
  - rewrite Z.eqb_refl. simpl. clear Hw Hc.
    induction l as [|x l IHl]; [done|]. inversion IH; subst.
    repeat match goal with Hf : Forall _ (_ :: _) |- _ => apply Forall_cons in Hf as [? ?] end.
    apply andb_true_iff. split; [auto|]. apply IHl; try done.
    match goal with Hz : is_u64 (size (x :: l)) |- _ => unfold is_u64, size in *; simpl in Hz; lia end.
  - rewrite Z.eqb_refl. simpl. apply forallb_forall. intros [k x] Hin%list_elem_of_In. simpl.
    rewrite (proj1 (om_sorted_find k x m ltac:(done)) Hin).
    pose proof (proj1 (Forall_forall _ _) IH _ Hin) as IHx. simpl in IHx. apply IHx.
    + match goal with Hf : Forall (λ e, wf_value e.2) m |- _ => by apply (proj1 (Forall_forall _ _) Hf _ Hin) end.
    + match goal with Hf : Forall (λ e, comparable e.2) m |- _ => by apply (proj1 (Forall_forall _ _) Hf _ Hin) end.
Qed.

(** ** How much an edit can add *)
Definition weight (v : value) : Z := size (value_encode v).
Fixpoint entries_weight (m : list (string * value)) : Z :=
  match m with [] => 0 | e :: m => 8 + ssize e.1 + weight e.2 + entries_weight m end.
Fixpoint elements_weight (l : list value) : Z :=
  match l with [] => 0 | x :: l => weight x + elements_weight l end.
Lemma weight_object m : weight (VObject m) = 9 + entries_weight m.
Proof.
  unfold weight. cbn [value_encode]. unfold object_encode, encode_elements. autorewrite with size.
  assert (size (flat_map (λ e : string * value, w_string e.1 ++ value_encode e.2) m) = entries_weight m) as ->; [|lia].
  induction m as [|e m IH]; [done|]. simpl. autorewrite with size. rewrite IH. unfold weight. lia.
Qed.
Lemma weight_array l : weight (VArray l) = 9 + elements_weight l.
Proof.
  unfold weight. cbn [value_encode]. unfold array_encode, encode_elements. autorewrite with size.
  assert (size (flat_map value_encode l) = elements_weight l) as ->; [|lia].
  induction l as [|x l IH]; [done|]. simpl. autorewrite with size. by rewrite IH.
Qed.
Lemma weight_pos v : 1 ≤ weight v.
Proof. apply size_value_encode_ge. Qed.
Lemma entries_weight_size m : size m ≤ entries_weight m.
Proof.
  induction m as [|e m IH]; [done|]. simpl. autorewrite with size.
  pose proof (weight_pos e.2). pose proof (ssize_nonneg e.1). lia.
Qed.
Lemma elements_weight_size l : size l ≤ elements_weight l.
Proof. induction l as [|x l IH]; [done|]. simpl. autorewrite with size. pose proof (weight_pos x). lia. Qed.
Lemma elements_weight_snoc l x : elements_weight (l ++ [x]) = elements_weight l + weight x.
Proof. induction l; simpl; lia. Qed.
Lemma entries_weight_put k x m :
  entries_weight (om_put k x m) =
  entries_weight m + match om_find k m with Some y => weight x - weight y | None => 8 + ssize k + weight x end.
Proof.
  induction m as [|[k0 v0] m IH]; simpl; [lia|].
  destruct (less k k0); [simpl; lia|]. destruct (less k0 k); simpl; [rewrite IH; lia|lia].
Qed.
Lemma entries_weight_erase k m : entries_weight (om_erase k m) ≤ entries_weight m.
Proof.
  induction m as [|[k0 v0] m IH]; simpl; [lia|]. pose proof (weight_pos v0). pose proof (ssize_nonneg k0).
  destruct (less k k0); [simpl; lia|]. destruct (less k0 k); simpl; lia.
Qed.
Lemma om_erase_keys (P : string → Prop) k (m : list (string * value)) :
  Forall (λ e, P e.1) m → Forall (λ e, P e.1) (om_erase k m).
Proof.
  induction 1 as [|[k0 v0] m H0 Hm IH]; simpl; [done|].
  destruct (less k k0); [by constructor|]. destruct (less k0 k); [by constructor|done].
Qed.

(** Values that can be stored and compared, of at most a given weight. *)
Record good (bound : Z) (v : value) : Prop := {
  gd_wf : wf_value v;
  gd_comparable : comparable v;
  gd_weight : weight v ≤ bound
}.
Definition fine (v : value) : Prop := wf_value v ∧ comparable v.
Lemma good_fine bound v : good bound v → fine v.
Proof. by intros [? ? _]. Qed.
Lemma good_null : good 1 VNull.
Proof. by split. Qed.
Lemma object_parts bound v :
  good bound v → let m := object_content v in
  om_sorted m ∧ Forall (λ e, is_u64 (ssize e.1)) m ∧ Forall (λ e, fine e.2) m ∧ 9 + entries_weight m ≤ bound + 8.
Proof.
  intros [Hw Hc Hb]. pose proof (weight_pos v). destruct v as [| | | | | |m]; simpl; try (split_and!; [constructor..|lia]).
  inversion Hw; inversion Hc; subst. rewrite weight_object in Hb.
  split_and!; [done|done| |lia]. apply Forall_and. by split.
Qed.
Lemma good_object bound m :
  om_sorted m → Forall (λ e, is_u64 (ssize e.1)) m → Forall (λ e, fine e.2) m →
  9 + entries_weight m ≤ bound → bound < u64_bound → good bound (VObject m).
Proof.
  intros Hs Hk Hf Hb Hu. apply Forall_and in Hf as [Hw Hc]. pose proof (entries_weight_size m). pose proof (size_nonneg m).
  split; [constructor; try done; unfold is_u64; lia|by constructor|by rewrite weight_object].
Qed.

Definition adds (more : Z) (e : edit) : Prop :=
  ∀ bound v, good bound v → bound + more < u64_bound → good (bound + more) (apply_edit e v).
Lemma good_bound bound v : good bound v → 1 ≤ bound.
Proof. intros [_ _ ?]. pose proof (weight_pos v). lia. Qed.
Lemma adds_none : adds 0 e_none.
Proof. intros bound v Hv _. by rewrite Z.add_0_r. Qed.
Lemma adds_copy more x : good more x → adds more (e_copy x).
Proof. intros [? ? ?] bound v Hv _. pose proof (good_bound _ _ Hv). split; simpl; try done. lia. Qed.
Lemma adds_push more moved x : good more x → adds (8 + more) (e_push moved x).
Proof.
  intros [Hw Hc Hx] bound v [Vw Vc Vb] Hu. simpl.
  assert (Forall wf_value (array_content v) ∧ Forall comparable (array_content v) ∧
          9 + elements_weight (array_content v) ≤ bound + 8) as (Fw & Fc & Hb).
  { pose proof (weight_pos v). destruct v as [| | | | |l|]; simpl; try (split_and!; [constructor..|lia]).
    inversion Vw; inversion Vc; subst. rewrite weight_array in Vb. split_and!; [done|done|lia]. }
  assert (elements_weight (array_content v ++ [x]) ≤ bound - 1 + more) as Hs by (rewrite elements_weight_snoc; lia).
  pose proof (elements_weight_size (array_content v ++ [x])). pose proof (size_nonneg (array_content v ++ [x])).
  split; [constructor; [unfold is_u64; lia|]|constructor|rewrite weight_array; lia]; apply Forall_app; by repeat constructor.
Qed.
Lemma adds_erase key : adds 8 (e_erase_key key).
Proof.
  intros bound v Hv Hu. destruct (object_parts _ _ Hv) as (Hs & Hk & Hf & Hb). simpl.
  destruct (om_contains _ _); apply good_object; try done; try lia.
  - by apply om_erase_sorted.
  - by apply (om_erase_keys (λ k, is_u64 (ssize k))).
  - by apply (om_erase_Forall fine).
  - pose proof (entries_weight_erase key (object_content v)). lia.
Qed.
Lemma adds_key more key e : 0 ≤ more → is_u64 (ssize key) → adds more e → adds (more + 17 + ssize key) (e_key key e).
Proof.
  intros Hm Hkey He bound v Hv Hu. destruct (object_parts _ _ Hv) as (Hs & Hk & Hf & Hb). simpl. pose proof (ssize_nonneg key).
  set (m := object_content v) in *. set (c := default VNull (om_find key m)).
  assert (fine c ∧ weight c ≤ bound) as [[Cw Cc] Cb].
  { unfold c. destruct (om_find key m) as [y|] eqn:E; simpl.
    - apply om_find_In in E as (k & Hin & _). split; [by apply (proj1 (Forall_forall _ _) Hf _ Hin)|].
      assert (weight y ≤ entries_weight m); [|unfold m in *; lia]. clear -Hin. revert Hin. generalize m. intros l Hin.
      induction l as [|[k0 v0] l IH]; [by apply not_elem_of_nil in Hin|]. simpl.
      pose proof (entries_weight_size l). pose proof (size_nonneg l). pose proof (ssize_nonneg k0). pose proof (weight_pos v0).
      apply elem_of_cons in Hin as [[= <- <-]|Hin]; [lia|]. specialize (IH Hin). lia.
    - pose proof (good_bound _ _ Hv). split; [by split|]. done. }
  destruct (He (weight c) c ltac:(by split) ltac:(lia)) as [Ew Ec Eb].
  apply good_object; [by apply om_put_sorted|by apply (om_put_keys (λ k, is_u64 (ssize k)))|by apply (om_put_Forall fine)| |done].
  rewrite entries_weight_put. unfold c in *. destruct (om_find key m) as [y|]; simpl in *; [lia|].
  assert (weight VNull = 1) by done. unfold m in *. lia.
Qed.
Lemma adds_walk more path e :
  0 ≤ more → Forall (λ key, ssize key = 6) path → adds more e → adds (more + 23 * size path) (walk path e).
Proof.
  intros Hm. induction path as [|key path IH]; intros Hp He; simpl.
  - by replace (more + 23 * size (@nil string)) with more by (unfold size; simpl; lia).
  - apply Forall_cons in Hp as [Hkey Hp]. specialize (IH Hp He). pose proof (size_nonneg path).
    replace (more + 23 * size (key :: path)) with (more + 23 * size path + 17 + ssize key) by (autorewrite with size; lia).
    apply adds_key; [lia|rewrite Hkey; done|done].
Qed.

(** ** The operations of the test *)
Definition legal (op : fuzz_op) : Prop :=
  match op with
  | Set_ path scalar => Forall (λ key, ssize key = 6) path ∧ size path ≤ 3 ∧ good 33 scalar
  | Erase_first path => Forall (λ key, ssize key = 6) path ∧ size path ≤ 2
  | Push_back path scalar => Forall (λ key, ssize key = 6) path ∧ size path ≤ 2 ∧ good 33 scalar
  end.
(** What they do to a value. *)
Definition outcome_of (op : fuzz_op) (v : value) : value :=
  match op with
  | Set_ path scalar => apply_edit (walk path (e_copy scalar)) v
  | Erase_first path =>
      let v := apply_edit (walk path e_none) v in
      match first_key (value_at path v) with Some key => apply_edit (walk path (e_erase_key key)) v | None => v end
  | Push_back path scalar => apply_edit (walk path (e_push true scalar)) v
  end.
Lemma good_more b b' v : good b v → b ≤ b' → good b' v.
Proof. intros [? ? ?] ?. split; [done|done|lia]. Qed.
Lemma outcome_good op bound v :
  legal op → good bound v → bound + 128 < u64_bound → good (bound + 128) (outcome_of op v).
Proof.
  destruct op as [path scalar|path|path scalar]; simpl.
  - intros (Hp & Hl & Hs) Hv Hu. pose proof (adds_walk 33 path _ ltac:(lia) Hp (adds_copy 33 scalar Hs) bound v Hv ltac:(lia)).
    eapply good_more; [done|lia].
  - intros (Hp & Hl) Hv Hu. pose proof (adds_walk 0 path _ ltac:(lia) Hp adds_none bound v Hv ltac:(lia)) as Hv1.
    destruct (first_key _) as [key|]; [|eapply good_more; [done|lia]].
    pose proof (adds_walk 8 path _ ltac:(lia) Hp (adds_erase key) _ _ Hv1 ltac:(lia)). eapply good_more; [done|lia].
  - intros (Hp & Hl & Hs) Hv Hu. pose proof (adds_walk 41 path _ ltac:(lia) Hp (adds_push 33 true scalar Hs) bound v Hv ltac:(lia)).
    eapply good_more; [done|lia].
Qed.

Section draws.
Context {R : Type} `{random_laws R}.
(** What a computation on the generator can give; it never throws. *)
Definition gives {A} (m : M R A) (P : A → Prop) : Prop := ∀ r, ∃ a r', m r = (Ok a, r') ∧ P a.
Lemma drawn_ret {A} (a : A) (P : A → Prop) : P a → gives (mret a) P.
Proof. intros Ha r. by exists a, r. Qed.
Lemma drawn_bind {A B} (m : M R A) (f : A → M R B) P Q : gives m P → (∀ a, P a → gives (f a) Q) → gives (m ≫= f) Q.
Proof.
  intros Hm Hf r. destruct (Hm r) as (a & r1 & E & Ha). destruct (Hf a Ha r1) as (b & r2 & E2 & Hb).
  exists b, r2. by m_run E.
Qed.
Lemma drawn_impl {A} (m : M R A) P Q : gives m P → (∀ a, P a → Q a) → gives m Q.
Proof. intros Hm HQ r. destruct (Hm r) as (a & r' & E & Ha). exists a, r'. auto. Qed.
Lemma drawn_times {A} n (m : M R A) P : gives m P → gives (times n m) (λ l, length l = n ∧ Forall P l).
Proof.
  intros Hm. induction n as [|n IH]; simpl; [by apply drawn_ret|].
  eapply drawn_bind; [done|]. intros a Ha. eapply drawn_bind; [done|]. intros l [Hl Hf]. apply drawn_ret. simpl. by split; [lia|constructor].
Qed.
Lemma drawn_pick low high : low ≤ high → gives (pick low high) (λ z, low ≤ z ≤ high).
Proof. intros Hle r. by apply pick_law. Qed.
Lemma random_path_gives max_depth :
  0 ≤ max_depth → gives (random_path max_depth) (λ path, Forall (λ key, ssize key = 6) path ∧ size path ≤ max_depth).
Proof.
  intros Hm. eapply drawn_bind; [by apply drawn_pick|]. intros depth Hd. eapply drawn_impl.
  { apply (drawn_times _ _ (λ key, ssize key = 6)). eapply drawn_bind; [by apply (drawn_pick 0 3)|]. intros n Hn.
    cbn beta in Hn. apply drawn_ret. assert (n = 0 ∨ n = 1 ∨ n = 2 ∨ n = 3) as [->|[->|[->| ->]]] by lia; done. }
  intros path [Hl Hf]. cbn beta in Hd. split; [done|]. unfold size. lia.
Qed.
Lemma random_scalar_gives : gives random_scalar (good 33).
Proof.
  eapply drawn_bind; [by apply (drawn_pick 0 3)|]. intros kind _.
  destruct (kind =? 0); [|destruct (kind =? 1); [|destruct (kind =? 2)]].
  - eapply drawn_bind; [by apply drawn_pick|]. intros z Hz. cbn beta in Hz. apply drawn_ret.
    split; [constructor; unfold is_i64; lia|constructor|]. unfold weight. cbn [value_encode]. autorewrite with size. lia.
  - eapply drawn_bind; [intros r; apply pick_real_law|]. intros d [Hd Hc]. apply drawn_ret.
    split; [by constructor|by constructor|]. unfold weight. cbn [value_encode]. autorewrite with size. lia.
  - eapply drawn_bind; [intros r; apply draw_law|]. intros n _. apply drawn_ret. split; [constructor|constructor|].
    unfold weight. cbn [value_encode]. autorewrite with size. lia.
  - eapply drawn_bind; [by apply (drawn_pick 0 24)|]. intros n Hn. eapply drawn_bind.
    { apply (drawn_times _ _ (λ _, True)). eapply drawn_bind; [intros r; apply draw_law|]. intros. by apply drawn_ret. }
    intros text [Hl _]. cbn beta in Hn. apply drawn_ret.
    assert (ssize (String.string_of_list_ascii text) = n) as Hs.
    { assert (String.length (String.string_of_list_ascii text) = length text) by (clear; induction text; simpl; congruence).
      unfold ssize. lia. }
    split; [constructor; unfold is_u64, u64_bound; lia|constructor|].
    unfold weight. cbn [value_encode]. autorewrite with size. lia.
Qed.
Lemma random_op_gives : gives random_op legal.
Proof.
  eapply drawn_bind; [by apply (drawn_pick 0 5)|]. intros op _. destruct (op =? 1); [|destruct (op =? 2)].
  - eapply drawn_bind; [by apply (random_path_gives 2)|]. intros path Hp. by apply drawn_ret.
  - eapply drawn_bind; [by apply (random_path_gives 2)|]. intros path [Hp Hl].
    eapply drawn_bind; [apply random_scalar_gives|]. intros scalar Hs. by apply drawn_ret.
  - eapply drawn_bind; [by apply (random_path_gives 3)|]. intros path [Hp Hl].
    eapply drawn_bind; [apply random_scalar_gives|]. intros scalar Hs. by apply drawn_ret.
Qed.
End draws.

(** ** The transactions of an iteration *)
Section sessions.
Context {W : Type} `{HW : storage_reliable W} (config : heap_config) (self : Z).
Implicit Types (h : heap_state) (w : W) (A : amap).
#[local] Abbreviation in_service := (in_service (W:=W) config).
#[local] Abbreviation edited := (edited self).

Lemma edit_edited h A name v0 t r v e (s : heap_state * W) :
  edited h A name v0 t r v →
  ∃ t' r', edit_root 1 e (t, s) = (Ok tt, (t', s)) ∧ edited h A name v0 t' r' (apply_edit e v).
Proof.
  intros He. destruct (edited_edit self h A name v0 t r v e He) as (t' & r' & E & He').
  exists t', r'. split; [|done]. unfold edit_root, on_fst, modify. by rewrite E.
Qed.
Lemma contents_edited h A name v0 t r v (s : heap_state * W) :
  edited h A name v0 t r v → contents 1 (t, s) = (Ok v, (t, s)).
Proof.
  intros He. unfold contents, mbind, M_bind, on_fst, get. by rewrite (edited_data self _ _ _ _ _ _ _ He).
Qed.
Lemma perform_edited h A name v0 t r v op (s : heap_state * W) :
  edited h A name v0 t r v →
  ∃ t' r', perform 1 op v (t, s) = (Ok (outcome_of op v), (t', s)) ∧ edited h A name v0 t' r' (outcome_of op v).
Proof.
  intros He. destruct op as [path scalar|path|path scalar]; unfold perform, outcome_of.
  - destruct (edit_edited _ _ _ _ _ _ _ (walk path (e_copy scalar)) s He) as (t' & r' & E & He').
    exists t', r'. by m_run E.
  - destruct (edit_edited _ _ _ _ _ _ _ (walk path e_none) s He) as (t1 & r1 & E1 & He1).
    m_run E1. m_run (contents_edited _ _ _ _ _ _ _ s He1). destruct (first_key _) as [key|].
    + destruct (edit_edited _ _ _ _ _ _ _ (walk path (e_erase_key key)) s He1) as (t' & r' & E & He').
      exists t', r'. by m_run E.
    + by exists t1, r1.
  - destruct (edit_edited _ _ _ _ _ _ _ (walk path (e_push true scalar)) s He) as (t' & r' & E & He').
    exists t', r'. by m_run E.
Qed.

Lemma change_root_spec h w A p name op should_abort v :
  in_service h w A p → name ≠ "" → root_value A name = Ok v →
  (should_abort = false → storable h A p name (outcome_of op v)) →
  0 ≤ hs_wal_sequence h →
  let v' := if should_abort then v else outcome_of op v in
  ∃ h' w' A' p', in_session self (change_root name op should_abort v) (h, w) = (Ok v', (h', w')) ∧
    in_service h' w' A' p' ∧ (p' = p ∨ p' = ∅) ∧ (A' = A ∧ v' = v ∨ A' = with_root A name v') ∧
    hs_wal_sequence h ≤ hs_wal_sequence h' ≤ hs_wal_sequence h + 3 ∧
    hs_next_transaction h' = u64 (hs_next_transaction h + 1).
Proof.
  intros Hs Hname Hv Hst Hq. destruct (root_in_service config self h w A p name v Hs Hname Hv) as (k & w1 & E1 & Hs1).
  destruct (edited_start self h A name v) as [r Hr].
  destruct (perform_edited _ _ _ _ _ _ _ op (set_cache k (begun h), w1) Hr) as (t2 & r2 & E2 & Hr2).
  rewrite (in_session_spec _ _ _ _ _ _ _ Hs). unfold change_root. m_run E1. m_run E2. destruct should_abort.
  - exists (set_cache k (begun h)), w1, A, p. split_and!; [reflexivity|done|by left|by left|simpl; lia|simpl; lia|done].
  - destruct (edited_commit config self h w1 A p name v t2 r2 _ k Hr2 Hs1 (Hst eq_refl)) as (t' & h' & w' & A' & p' & E & R).
    m_run E. exists h', w', A', p'. by split.
Qed.
Lemma compare_root_spec h w A p name v message :
  in_service h w A p → name ≠ "" → root_value A name = Ok v → fine v →
  ∃ h' w', in_session self (compare_root name v message) (h, w) = (Ok tt, (h', w')) ∧ in_service h' w' A p ∧
    hs_wal_sequence h' = hs_wal_sequence h ∧ hs_next_transaction h' = u64 (hs_next_transaction h + 1).
Proof.
  intros Hs Hname Hv [Hw Hc]. destruct (root_in_service config self h w A p name v Hs Hname Hv) as (k & w1 & E1 & Hs1).
  destruct (edited_start self h A name v) as [r Hr]. exists (set_cache k (begun h)), w1.
  rewrite (in_session_spec _ _ _ _ _ _ _ Hs). unfold compare_root. m_run E1.
  m_run (contents_edited _ _ _ _ _ _ _ (set_cache k (begun h), w1) Hr). by rewrite deep_equal_refl.
Qed.
End sessions.

(** ** The run *)
Section run.
Context {R : Type} `{HR : random_laws R} {W : Type} `{HW : storage_reliable W} (self : Z) (directory : string).
Context (Hdirectory : directory ≠ "").
Implicit Types (h : heap_state) (w : W) (A : amap).
Let config : heap_config := default_config directory.
#[local] Abbreviation in_service := (in_service (W:=W) config).
#[local] Abbreviation slot_name slot := (nth slot root_names "").

(** After [i] iterations the map holds the values in memory. *)
Record mirrors (i : Z) (models : list value) A : Prop := {
  mi_models : length models = 3%nat;
  mi_roots slot v : models !! slot = Some v →
    good (1 + 128 * i) v ∧
    match A !! slot_name slot with
    | None => v = VNull
    | Some a => 0 ≤ a_version a ≤ i ∧ a_type a = value_type_name ∧ a_payload a = stored v
    end;
  mi_names name : is_Some (A !! name) → name ∈ root_names
}.
Record agrees (i : Z) (models : list value) h w A : Prop := {
  ag_service : in_service h w A ∅;
  ag_sequence : 0 ≤ hs_wal_sequence h ≤ 3 * i;
  ag_next : 1 ≤ hs_next_transaction h ≤ 1 + 5 * i;
  ag_mirrors : mirrors i models A
}.
Lemma mirrors_root i models A slot v :
  mirrors i models A → models !! slot = Some v → root_value A (slot_name slot) = Ok v.
Proof.
  intros Ha Hv. destruct (mi_roots _ _ _ Ha slot v Hv) as [[Hw _ _] Hm].
  destruct (A !! slot_name slot) as [[ver ty pl]|] eqn:E.
  - simpl in Hm. destruct Hm as (_ & -> & ->). by eapply root_value_stored.
  - rewrite Hm. by apply root_value_absent.
Qed.
Lemma slot_name_ne slot : (slot < 3)%nat → slot_name slot ≠ "".
Proof. intros. destruct slot as [|[|[|slot]]]; [done..|lia]. Qed.
Lemma slot_name_inj slot slot' : (slot < 3)%nat → (slot' < 3)%nat → slot_name slot = slot_name slot' → slot = slot'.
Proof. intros. destruct slot as [|[|[|slot]]], slot' as [|[|[|slot']]]; try done; lia. Qed.
Lemma root_names_slot name : name ∈ root_names → ∃ slot, (slot < 3)%nat ∧ name = slot_name slot.
Proof.
  intros [->|[->|[->|?%not_elem_of_nil]%elem_of_cons]%elem_of_cons]%elem_of_cons; [exists 0%nat|exists 1%nat|exists 2%nat|done];
    (split; [lia|done]).
Qed.

Lemma mirrors_saveable i models A : mirrors i models A → i ≤ 2 ^ 32 → saveable A.
Proof.
  intros Ha Hi. split.
  - assert (dom A ⊆ list_to_set (C:=gset string) root_names) as Hd.
    { intros n ?%elem_of_dom. by apply elem_of_list_to_set, (mi_names _ _ _ Ha). }
    apply subseteq_size in Hd. rewrite size_dom in Hd. unfold size. rewrite length_map_to_list.
    assert (base.size (list_to_set (C:=gset string) root_names) = 3%nat) as Hs by reflexivity. rewrite Hs in Hd.
    unfold max_root_count. lia.
  - intros name a E. destruct (root_names_slot name (mi_names _ _ _ Ha name ltac:(by eexists))) as (slot & Hslot & ->).
    destruct (models !! slot) as [v|] eqn:Ev; [|apply lookup_ge_None in Ev; rewrite (mi_models _ _ _ Ha) in Ev; lia].
    destruct (mi_roots _ _ _ Ha slot v Ev) as [[_ _ Hb] Hm]. rewrite E in Hm. destruct Hm as (_ & -> & ->).
    split_and!; [destruct slot as [|[|[|slot]]]; [done..|lia]|done|]. unfold stored, weight, max_frame_size in *. lia.
Qed.
Lemma mirrors_next i models A A' slot v' :
  mirrors i models A → (slot < 3)%nat → good (1 + 128 * (i + 1)) v' → 0 ≤ i →
  (A' = A ∧ models !! slot = Some v' ∨ A' = with_root A (slot_name slot) v') →
  mirrors (i + 1) (<[slot := v']> models) A'.
Proof.
  intros [G4 G5 G6] Hslot Hv' Hi HA. split; [by rewrite length_insert| |].
  - intros slot' v Hv.
    assert (slot' < 3)%nat as Hslot' by (apply lookup_lt_Some in Hv; rewrite length_insert in Hv; lia).
    destruct (decide (slot' = slot)) as [->|Hne].
    + rewrite list_lookup_insert_eq in Hv by lia. injection Hv as <-. split; [done|]. destruct HA as [[-> Hm]| ->].
      * destruct (G5 _ _ Hm) as [_ Hm']. destruct (A !! slot_name slot); [|done]. destruct Hm' as (? & ? & ?). split_and!; [lia|lia|done|done].
      * unfold with_root. rewrite lookup_insert_eq. cbn [a_version a_type a_payload]. split_and!; [| |done|done];
          unfold version_in; destruct (models !! slot) as [u|] eqn:Eu;
          try (apply lookup_ge_None in Eu; lia); destruct (G5 _ _ Eu) as [_ Hm]; (destruct (A !! slot_name slot) as [a|]; [destruct Hm as [Hm _]|]; simpl; lia).
    + rewrite list_lookup_insert_ne in Hv by done. destruct (G5 _ _ Hv) as [Hg Hm].
      split; [eapply good_more; [done|lia]|].
      assert (A' !! slot_name slot' = A !! slot_name slot') as ->.
      { destruct HA as [[-> _]| ->]; [done|]. apply lookup_insert_ne. intros E. apply Hne. symmetry. by apply slot_name_inj. }
      destruct (A !! slot_name slot'); [|done]. destruct Hm as (? & ? & ?). split_and!; [lia|lia|done|done].
  - intros name. destruct HA as [[-> _]| ->]; [apply G6|]. unfold with_root. intros [a E].
    apply lookup_insert_Some in E as [[<- _]|[_ E]]; [|apply G6; by eexists].
    apply list_elem_of_In, nth_In. exact Hslot.
Qed.
Lemma slot_name_size slot : ssize (slot_name slot) ≤ 1.
Proof. destruct slot as [|[|[|[|slot]]]]; done. Qed.
Lemma agrees_storable i models h w A slot v v' :
  agrees i models h w A → models !! slot = Some v → good (1 + 128 * (i + 1)) v' → 0 ≤ i < 2 ^ 32 →
  storable h A ∅ (slot_name slot) v'.
Proof.
  intros [G1 G2 G3 Hm] Hv Hv' Hi. pose proof Hv' as [Hw _ Hb].
  assert (slot < 3)%nat as Hslot by (rewrite <- (mi_models _ _ _ Hm); by eapply lookup_lt_Some).
  assert (0 ≤ version_in A (slot_name slot) ≤ i) as Hver.
  { unfold version_in. destruct (mi_roots _ _ _ Hm _ _ Hv) as [_ Hr].
    destruct (A !! slot_name slot) as [a|]; [destruct Hr as [Hr _]|]; cbn -[nth]; lia. }
  assert (256 * 2 ^ 32 < u64_bound) by done. pose proof (slot_name_size slot).
  split; [done|lia| | |lia|unfold is_u64; lia|done].
  - destruct (size_encode_update (RootUpdate (slot_name slot) (version_in A (slot_name slot))
      (u64 (version_in A (slot_name slot) + 1)) value_type_name (value_encode v'))) as [-> ->]. cbn -[nth].
    change (ssize value_type_name) with 15. unfold weight, max_frame_size in *. lia.
  - eapply (mirrors_saveable (i + 1) (<[slot := v']> models)); [|lia]. eapply mirrors_next; [done|done|done|lia|by right].
Qed.

(** *** One iteration *)
Lemma on_rng_gives {X} (m : M R X) P (f : fuzzer R) (s : heap_state * W) :
  gives m P → ∃ a rng, on_rng m (f, s) = (Ok a, (Fuzzer rng (fz_model f) (fz_countdown f), s)) ∧ P a.
Proof.
  intros Hm. destruct (Hm (fz_rng f)) as (a & rng & E & Ha). exists a, rng. unfold on_rng, on_fst. by rewrite E.
Qed.
Lemma model_of_run slot v (f : fuzzer R) (s : heap_state * W) :
  fz_model f !! slot = Some v → model_of slot (f, s) = (Ok v, (f, s)).
Proof. intros Hv. unfold model_of, mbind, M_bind, on_fst, get. by rewrite Hv. Qed.
Lemma on_heap_run {X} (m : heap (W:=W) X) x (f : fuzzer R) s s' :
  m s = (Ok x, s') → on_snd m (f, s) = (Ok x, (f, s')).
Proof. unfold on_snd. by intros ->. Qed.

(** The heap is in service and the ids and sequence numbers have room. *)
Definition room (q n : Z) h : Prop := 0 ≤ hs_wal_sequence h ≤ q ∧ 1 ≤ hs_next_transaction h ≤ n.
Lemma compare_slot i models h w A q n slot v message :
  in_service h w A ∅ → mirrors i models A → models !! slot = Some v → room q n h → n < u64_bound - 1 →
  ∃ h' w', in_session self (compare_root (slot_name slot) v message) (h, w) = (Ok tt, (h', w')) ∧
    in_service h' w' A ∅ ∧ room q (n + 1) h'.
Proof.
  intros Hs Hm Hv [Hq Hn] Hu.
  assert (slot < 3)%nat as Hslot by (rewrite <- (mi_models _ _ _ Hm); by eapply lookup_lt_Some).
  destruct (compare_root_spec config self h w A ∅ (slot_name slot) v message Hs (slot_name_ne _ Hslot)
    (mirrors_root _ _ _ _ _ Hm Hv) (good_fine _ _ (proj1 (mi_roots _ _ _ Hm _ _ Hv)))) as (h' & w' & E & Hs' & Eq & En).
  exists h', w'. split_and!; [done|done|]. split; [by rewrite Eq|]. rewrite En, u64_small by (unfold is_u64; lia). lia.
Qed.
Lemma compare_all_run i models A q slots : ∀ n h w (f : fuzzer R),
  in_service h w A ∅ → mirrors i models A → room q n h → n + size slots < u64_bound - 1 →
  fz_model f = models → Forall (λ slot, slot < 3)%nat slots →
  ∃ h' w', compare_all self slots (f, (h, w)) = (Ok tt, (f, (h', w'))) ∧ in_service h' w' A ∅ ∧ room q (n + size slots) h'.
Proof.
  induction slots as [|slot slots IH]; intros n h w f Hs Hm Hr Hu Ef Hf.
  { exists h, w. split_and!; [done|done|]. by rewrite Z.add_0_r. }
  apply Forall_cons in Hf as [Hslot Hf]. pose proof (size_nonneg slots). rewrite size_cons in *. cbn [compare_all].
  assert (∃ v, models !! slot = Some v) as [v Hv] by (apply lookup_lt_is_Some; by rewrite (mi_models _ _ _ Hm)).
  m_run (model_of_run slot v f (h, w) ltac:(by rewrite Ef)).
  destruct (compare_slot i models h w A q n slot v
    "heap root diverged from reference model across a checkpoint+reopen" Hs Hm Hv Hr ltac:(lia)) as (h1 & w1 & E1 & Hs1 & Hr1).
  m_run (on_heap_run _ _ f _ _ E1). destruct (IH (n + 1) h1 w1 f Hs1 Hm Hr1 ltac:(lia) Ef Hf) as (h2 & w2 & E2 & Hs2 & Hr2).
  exists h2, w2. split_and!; [done|done|]. by replace (n + (1 + size slots)) with (n + 1 + size slots) by lia.
Qed.
(** A checkpoint and a new process: nothing has changed. *)
Lemma reopen_run i models h w A q n (f : fuzzer R) :
  in_service h w A ∅ → mirrors i models A → i ≤ 2 ^ 32 → room q n h →
  ∃ h' w', (_ ← on_snd checkpoint; reopen directory) (f, (h, w)) = (Ok tt, (f, (h', w'))) ∧ in_service h' w' A ∅ ∧ room q 1 h'.
Proof.
  intros Hs Hm Hi [Hq Hn]. destruct (checkpoint_in_service config h w A ∅ Hs (mirrors_saveable _ _ _ Hm Hi))
    as (h1 & w1 & E1 & Hs1 & Q1 & N1).
  destruct (reopened_in_service config h1 w1 A ∅ Hdirectory ltac:(done) Hs1) as (h2 & w2 & E2 & Hs2 & Q2 & N2).
  exists h2, w2. m_run (on_heap_run checkpoint _ f _ _ E1). split_and!; [|done|].
  - unfold reopen, on_snd. fold config. by rewrite E2.
  - split; [by rewrite Q2, Q1|]. by rewrite N2.
Qed.
Lemma change_run i models h w A (f : fuzzer R) :
  agrees i models h w A → fz_model f = models → 0 ≤ i < 2 ^ 32 →
  ∃ f' h' w' A', change_and_compare self i (f, (h, w)) = (Ok tt, (f', (h', w'))) ∧ in_service h' w' A' ∅ ∧
    mirrors (i + 1) (fz_model f') A' ∧ room (3 * (i + 1)) (3 + 5 * i) h'.
Proof.
  intros Hag Ef Hi. pose proof Hag as [Hs Hq Hn Hm]. assert (256 * 2 ^ 32 < u64_bound) by done. unfold change_and_compare.
  destruct (on_rng_gives _ _ f (h, w) (drawn_pick 0 2 ltac:(lia))) as (z & rng1 & E1 & Hz). m_run E1. cbn beta in Hz.
  set (slot := Z.to_nat z). assert (slot < 3)%nat as Hslot by lia.
  destruct (on_rng_gives _ _ (Fuzzer rng1 (fz_model f) (fz_countdown f)) (h, w) random_op_gives) as (op & rng2 & E2 & Hop).
  m_run E2. cbn [fz_model fz_countdown]. set (f2 := Fuzzer rng2 (fz_model f) (fz_countdown f)).
  assert (∃ v, models !! slot = Some v) as [v Hv] by (apply lookup_lt_is_Some; by rewrite (mi_models _ _ _ Hm)).
  m_run (model_of_run slot v f2 (h, w) ltac:(simpl; by rewrite Ef)).
  destruct (mi_roots _ _ _ Hm _ _ Hv) as [Hgood _]. set (b := i mod 7 =? 0).
  pose proof (outcome_good op _ v Hop Hgood ltac:(lia)) as Hout.
  destruct (change_root_spec config self h w A ∅ (slot_name slot) op b v Hs (slot_name_ne _ Hslot)
    (mirrors_root _ _ _ _ _ Hm Hv)) as (h1 & w1 & A1 & p1 & Ec & Hs1 & Hp1 & HA1 & Q1 & N1); [|lia|].
  { intros _. eapply agrees_storable; [done|done| |done]. eapply good_more; [done|lia]. }
  set (v' := if b then v else outcome_of op v) in *. assert (p1 = ∅) as -> by by destruct Hp1.
  assert (good (1 + 128 * (i + 1)) v') as Hv' by (unfold v'; destruct b; (eapply good_more; [done|lia])).
  assert (mirrors (i + 1) (<[slot := v']> models) A1) as Hm1.
  { eapply mirrors_next; [done|done|done|lia|]. destruct HA1 as [[-> E]| ->]; [|by right]. left. by rewrite E. }
  assert (room (3 * (i + 1)) (2 + 5 * i) h1) as Hr1.
  { split; [lia|]. rewrite N1, u64_small by (unfold is_u64; lia). lia. }
  m_run (on_heap_run _ _ f2 _ _ Ec). m_run (eq_refl : set_model slot v' (f2, (h1, w1)) =
    (Ok tt, (Fuzzer rng2 (<[slot := v']> (fz_model f)) (fz_countdown f), (h1, w1)))).
  set (f3 := Fuzzer rng2 _ _).
  destruct (compare_slot (i + 1) (<[slot := v']> models) h1 w1 A1 (3 * (i + 1)) (2 + 5 * i) slot v'
    ("heap root diverged from reference model after " +:+ (if b then "abort" else "commit"))) as (h2 & w2 & Ed & Hs2 & Hr2);
    [done|done|apply list_lookup_insert_eq; by rewrite (mi_models _ _ _ Hm)|done|lia|].
  exists f3, h2, w2, A1. rewrite <- Ef in Hm1. split_and!; [by apply on_heap_run|done|exact Hm1|].
  by replace (3 + 5 * i) with (2 + 5 * i + 1) by lia.
Qed.
Lemma reopen_sometimes_run i h w A (f : fuzzer R) :
  in_service h w A ∅ → mirrors (i + 1) (fz_model f) A → room (3 * (i + 1)) (3 + 5 * i) h → 0 ≤ i < 2 ^ 32 →
  ∃ f' h' w' A', reopen_sometimes self directory (f, (h, w)) = (Ok tt, (f', (h', w'))) ∧ agrees (i + 1) (fz_model f') h' w' A'.
Proof.
  intros Hs Hm Hr Hi. assert (256 * 2 ^ 32 < u64_bound) by done. unfold reopen_sometimes.
  m_run (eq_refl : on_fst get (f, (h, w)) = (Ok f, (f, (h, w)))). set (cd := u32 (fz_countdown f - 1)).
  m_run (eq_refl : set_countdown cd (f, (h, w)) = (Ok tt, (Fuzzer (fz_rng f) (fz_model f) cd, (h, w)))).
  destruct (cd =? 0).
  2:{ eexists _, h, w, A. split; [reflexivity|]. destruct Hr. split; [done|lia|lia|exact Hm]. }
  m_run (eq_refl : set_countdown 200 (Fuzzer (fz_rng f) (fz_model f) cd, (h, w)) =
    (Ok tt, (Fuzzer (fz_rng f) (fz_model f) 200, (h, w)))).
  set (f4 := Fuzzer (fz_rng f) _ 200).
  destruct (reopen_run (i + 1) (fz_model f4) h w A _ _ f4 Hs Hm ltac:(lia) Hr) as (h3 & w3 & E3 & Hs3 & Hr3).
  apply bind_inv_ok in E3 as ([] & s3 & E3 & E4). m_run E3. m_run E4.
  destruct (compare_all_run (i + 1) (fz_model f4) A (3 * (i + 1)) [0; 1; 2]%nat 1 h3 w3 f4 Hs3 Hm Hr3)
    as (h5 & w5 & E5 & Hs5 & Hq5 & Hn5); [unfold size; simpl; lia|done|repeat constructor|].
  exists f4, h5, w5, A. split; [exact E5|]. split; [done|lia|unfold size in *; simpl in *; lia|exact Hm].
Qed.
Lemma iteration_run i models h w A (f : fuzzer R) :
  agrees i models h w A → fz_model f = models → 0 ≤ i < 2 ^ 32 →
  ∃ f' h' w' A', iteration self directory i (f, (h, w)) = (Ok tt, (f', (h', w'))) ∧ agrees (i + 1) (fz_model f') h' w' A'.
Proof.
  intros Ha Ef Hi. destruct (change_run i models h w A f Ha Ef Hi) as (f1 & h1 & w1 & A1 & E1 & Hs1 & Hm1 & Hr1).
  unfold iteration. m_run E1. by apply reopen_sometimes_run with (A := A1).
Qed.
Lemma iterate_run n : ∀ i models h w A (f : fuzzer R),
  agrees i models h w A → fz_model f = models → 0 ≤ i → i + Z.of_nat n ≤ 2 ^ 32 →
  ∃ f' h' w' A', iterate self directory n i (f, (h, w)) = (Ok tt, (f', (h', w'))) ∧
    agrees (i + Z.of_nat n) (fz_model f') h' w' A'.
Proof.
  induction n as [|n IH]; intros i models h w A f Ha Ef Hi Hn.
  { exists f, h, w, A. split; [done|]. by rewrite Ef, Z.add_0_r. }
  cbn [iterate]. destruct (iteration_run i models h w A f Ha Ef ltac:(lia)) as (f1 & h1 & w1 & A1 & E1 & Ha1). m_run E1.
  destruct (IH (i + 1) (fz_model f1) h1 w1 A1 f1 Ha1 eq_refl ltac:(lia) ltac:(lia)) as (f2 & h2 & w2 & A2 & E2 & Ha2).
  exists f2, h2, w2, A2. split; [done|]. by replace (i + Z.of_nat (S n)) with (i + 1 + Z.of_nat n) by lia.
Qed.
End run.

(** The whole scenario. *)
Lemma model_fuzz_run {R W : Type} `{random_laws R} `{storage_reliable W} self directory scale rng w :
  directory ≠ "" → reliable w →
  file_of w (wal_path (default_config directory)) = None → file_of w (snap_path (default_config directory)) = None →
  ∃ w', model_fuzz self directory scale rng w = (Ok tt, w') ∧ reliable w'.
Proof.
  intros Hd Hrel Hw Hs.
  destruct (fresh_in_service (default_config directory) w Hd ltac:(done) Hw Hs Hrel) as (h & w1 & E1 & Hs1 & Q1 & N1 & _).
  set (f := Fuzzer rng [VNull; VNull; VNull] 200).
  assert (agrees directory 0 (fz_model f) h w1 ∅) as Ha.
  { split; [done|lia|lia|]. split; [done| |by intros name [a ?%lookup_empty_Some]]. intros slot v Hv. simpl in Hv.
    assert (v = VNull) as -> by (destruct slot as [|[|[|[|slot]]]]; simpl in Hv; congruence). split; [apply good_null|done]. }
  assert (Z.of_nat (iterations scale) ≤ 2 ^ 32).
  { unfold iterations, u32. pose proof (Z.mod_pos_bound (2000 * scale) (2 ^ 32)). lia. }
  destruct (iterate_run self directory Hd (iterations scale) 0 (fz_model f) h w1 ∅ f Ha eq_refl) as (f2 & h2 & w2 & A2 & E2 & Ha2); [lia..|].
  destruct (ag_service _ _ _ _ _ _ Ha2) as (Hi & Hrel2 & _).
  destruct (integrity_spec (default_config directory) h2 w2 A2 ∅ Hi) as (report & w3 & E3 & _ & _ & Hok).
  destruct (Hok Hrel2) as [Hreport Hrel3]. exists w3. split; [|done].
  unfold model_fuzz. m_run E1. unfold with_local, fuzz_heap. fold f. m_run E2. m_run (on_heap_run integrity _ f2 _ _ E3).
  unfold check. by rewrite Hreport.
Qed.

(** The stress test never fails.  On reliable storage that has no heap in the directory yet, for
    every state of the random number generator and every scale (the number of iterations is below
    2^32 whatever it is), every comparison of the heap with the values in memory succeeds, after
    commits, after aborts, and across checkpoints and reopenings, and so does the check of
    integrity: the heap behaves as a map of values in memory does. *)
Theorem fuzzer_agrees {R W : Type} `{random_laws R} `{storage_reliable W} self directory scale rng w :
  directory ≠ "" → reliable w →
  file_of w (wal_path (default_config directory)) = None → file_of w (snap_path (default_config directory)) = None →
  ∃ w', model_fuzz self directory scale rng w = (Ok tt, w') ∧ reliable w'.
Proof. apply model_fuzz_run. Qed.

(** A generator to run it with: a linear congruence. *)
Module Lcg.
Definition next (s : Z) : Z := (s * 6364136223846793005 + 1442695040888963407) mod 2 ^ 64.
#[global] Instance lcg : random Z := {|
  pick low high s := (Ok (low + (next s / 2 ^ 33) mod (high - low + 1)), next s);
  pick_real s := (Ok (if Z.testbit s 40 then 4602678819172646912 else 13830554455654793216), next s);
  draw s := (Ok (next s / 2 ^ 20), next s)
|}.
#[global] Instance lcg_laws : random_laws Z.
Proof.
  split; intros.
  - do 2 eexists. split; [reflexivity|]. pose proof (Z.mod_pos_bound (next r / 2 ^ 33) (high - low + 1)). lia.
  - do 2 eexists. split; [reflexivity|]. by destruct (Z.testbit r 40).
  - do 2 eexists. split; [reflexivity|]. pose proof (Z.mod_pos_bound (r * 6364136223846793005 + 1442695040888963407) (2 ^ 64)).
    fold (next r) in *. split; [apply Z.div_pos; lia|]. apply Z.div_lt_upper_bound; lia.
Qed.
End Lcg.
Lemma fuzzer_agrees_witness :
  ∃ w', model_fuzz 7 "db" 1 2026 Disk.empty = (Ok tt, w') ∧ reliable w'.
Proof. apply (fuzzer_agrees 7 "db" 1 2026 Disk.empty); [discriminate|done|reflexivity|reflexivity]. Defined.
(** Thirty iterations, run. *)
Example thirty_iterations :
  match heap_open (default_config "db") Disk.empty with
  | (Ok h, w) => (iterate 7 "db" 30 0 (Fuzzer 2026 [VNull; VNull; VNull] 20, (h, w))).1 = Ok tt
  | (Throw _, _) => False
  end.
Proof. vm_compute. reflexivity. Qed.
