(* ===== verification/Fault.v ===== *)
(** * Injected faults: [testing/fault_backend.hpp] and [stress/scenarios/fault_fuzz.cpp].

    [fault_backend] wraps a storage and makes one of its calls fail when a plan says so; the
    program injects such faults into heaps with histories of different lengths and looks at what
    they recover to. *)
From stdpp Require Import pretty.
From S2P Require Import Prelude.
From S2P Require Import Value.
From S2P Require Import Observer.
From S2P Require Import ObserverSpec.
From S2P Require Import Storage.
From S2P Require Import Heap.
From S2P Require Import Transaction.
From S2P Require Import Cli.
From S2P Require Import Credentials.
From S2P Require Import Fuzz.
#[local] Open Scope Z_scope.

(** ** The backend *)
Record fault_plan := FaultPlan { partial_append_once : bool; fail_flush_data_once : bool; fail_replace_once : bool }.
Definition no_faults : fault_plan := FaultPlan false false false.
Definition set_partial_append (b : bool) (p : fault_plan) : fault_plan :=
  FaultPlan b (fail_flush_data_once p) (fail_replace_once p).
Definition set_fail_flush (b : bool) (p : fault_plan) : fault_plan :=
  FaultPlan (partial_append_once p) b (fail_replace_once p).
Definition set_fail_replace (b : bool) (p : fault_plan) : fault_plan :=
  FaultPlan (partial_append_once p) (fail_flush_data_once p) b.

Definition faulty (W : Type) : Type := fault_plan * W.
Section backend.
Context {W : Type} `{storage W}.
Definition fault_append (path : string) (data : list byte) : M (faulty W) Z :=
  plan ← on_fst get;
  if partial_append_once plan && (size data >? 1) then
    _ ← on_fst (modify (set_partial_append false));
    offset ← on_snd (file_size path);
    _ ← on_snd (write_exact path offset (take (Z.to_nat (size data / 2)) data));
    throw (storage_error "injected partial append")
  else on_snd (append path data).
Definition fault_flush_data (path : string) : M (faulty W) unit :=
  plan ← on_fst get;
  if fail_flush_data_once plan then
    _ ← on_fst (modify (set_fail_flush false));
    throw (storage_error "injected flush_data failure")
  else on_snd (flush_data path).
Definition fault_atomic_replace (from to : string) : M (faulty W) unit :=
  plan ← on_fst get;
  if fail_replace_once plan then
    _ ← on_fst (modify (set_fail_replace false));
    throw (storage_error "injected atomic replace failure")
  else on_snd (atomic_replace from to).
#[export] Instance fault_storage : storage (faulty W) := {|
  open_file path create := on_snd (open_file path create);
  create_directories path := on_snd (create_directories path);
  exists_ path := on_snd (exists_ path);
  atomic_replace := fault_atomic_replace;
  remove_file path := on_snd (remove_file path);
  sync_directory path := on_snd (sync_directory path);
  file_size path := on_snd (file_size path);
  read_exact path offset n := on_snd (read_exact path offset n);
  write_exact path offset data := on_snd (write_exact path offset data);
  append := fault_append;
  truncate path new_size := on_snd (truncate path new_size);
  flush_data := fault_flush_data;
  flush_all path := on_snd (flush_all path)
|}.
End backend.

(** ** Directories of their own: [testing/temporary_directory.hpp] *)

(** What it uses of [std::filesystem] beyond the storage interface. *)
Class filesystem (W : Type) := {
  temp_directory_path : string;
  remove_all : string → M W unit;
  make_directories : string → M W unit
}.
(** A directory that was removed holds no file, and everything else is as before. *)
Class filesystem_laws (W : Type) `{storage_reliable W} `{!filesystem W} := {
  remove_all_law path w : reliable w → ∃ w', remove_all path w = (Ok tt, w') ∧ reliable w' ∧
    ∀ name, file_of w' (path_join path name) = None;
  make_directories_law path w : reliable w → ∃ w', make_directories path w = (Ok tt, w') ∧ reliable w' ∧ same_files w w'
}.

(** ** The scenario *)
Inductive fault_kind := partial_append | fail_flush | fail_replace.
(** [ctx.throws<opheap::storage_error>] *)
Definition throws_storage_error {S A} (m : M S A) (message : string) : M S unit := λ s,
  match m s with
  | (Ok _, s') => (Throw (runtime_error message), s')
  | (Throw (storage_error _), s') => (Ok tt, s')
  | (Throw e, s') => (Throw e, s')
  end.

Section scenario.
Context {W : Type} `{storage W} (self : Z).
(** [tx.object_root(name)["n"] = n;] *)
Definition write_n (name : string) (n : Z) : session (W:=W) unit :=
  token ← object_root name;
  edit_root token (e_key "n" (e_integer n)).
Fixpoint commit_good (count : nat) (i : Z) : heap (W:=W) unit :=
  match count with
  | O => mret tt
  | S count => _ ← in_session self (_ ← write_n "root" i; transaction_commit); commit_good count (i + 1)
  end.
(** A transaction whose commit must fail with a [storage_error]. *)
Definition commit_fails (name : string) (n : Z) (message : string) : heap (W:=W) unit :=
  in_session self (_ ← write_n name n; throws_storage_error transaction_commit message).
(** [heap.begin().object_root(name).at("n").as_integer()], inside the transaction. *)
Definition read_n (name : string) : session (W:=W) Z :=
  token ← object_root name;
  v ← contents token;
  x ← lift_result (entry_at "n" (object_content v));
  lift_result (as_integer x).
(** What a recovered heap must hold after so many visible commits. *)
Definition read_visible (visible_commits : Z) : session (W:=W) unit :=
  if visible_commits =? 0 then
    token ← root "root";
    v ← contents token;
    check (is_null v) "root should be empty when the fault hit before any commit"
  else
    n ← read_n "root";
    check (n =? visible_commits - 1) "recovered value does not match the expected last visible commit".
End scenario.

Section trials.
Context {W : Type} `{storage W} (self : Z).
Definition arm (f : fault_plan → fault_plan) : heap (W:=faulty W) unit := on_snd (on_fst (modify f)).
(** The session with a fault; the result is [visible_commits]. *)
Definition faulted_session (kind : fault_kind) (good_commits : Z) : heap (W:=faulty W) Z :=
  _ ← commit_good self (Z.to_nat good_commits) 0;
  match kind with
  | partial_append =>
      _ ← arm (set_partial_append true);
      _ ← commit_fails self "root" good_commits "partial append fault was not surfaced";
      mret good_commits
  | fail_flush =>
      _ ← arm (set_fail_flush true);
      _ ← commit_fails self "root" good_commits "flush fault was not surfaced";
      _ ← commit_fails self "other" 1 "heap was not poisoned after flush failure";
      mret (good_commits + 1)
  | fail_replace =>
      _ ← arm (set_fail_replace true);
      _ ← throws_storage_error checkpoint "atomic replace fault was not surfaced";
      mret good_commits
  end.
Definition run_trial (directory : string) (kind : fault_kind) (good_commits : Z) : M W unit :=
  visible_commits ← with_local no_faults (
    h ← heap_open (W:=faulty W) (default_config directory);
    with_local h (faulted_session kind good_commits));
  h ← heap_open (default_config directory);
  with_local h (
    report ← integrity;
    _ ← check (ir_ok report) ("recovery failed integrity check after injected fault: " +:+ ir_message report);
    in_session self (read_visible visible_commits)).

Context `{!filesystem W} {R : Type} `{random R}.
(** [counter] is the static counter of the function. *)
Definition temporary_directory (counter : Z) (name : string) : M W string :=
  let path := path_join (temp_directory_path (W:=W)) ("opheap-test-" +:+ name +:+ "-" +:+ pretty counter) in
  _ ← remove_all path;
  _ ← make_directories path;
  mret path.
Definition kind_of (n : Z) : fault_kind := if n =? 0 then partial_append else if n =? 1 then fail_flush else fail_replace.
Fixpoint run_trials (count : nat) (trial counter : Z) : M (R * W) unit :=
  match count with
  | O => mret tt
  | S count =>
      good_commits ← on_fst (pick 0 40);
      kind ← on_fst (pick 0 2);
      _ ← on_snd (
        directory ← temporary_directory counter ("stress-fault-fuzz-" +:+ pretty trial);
        run_trial directory (kind_of kind) good_commits);
      run_trials count (trial + 1) (counter + 1)
  end.
(** [20U * opts.scale] trials. *)
Definition fault_fuzz (scale counter : Z) (rng : R) : M W unit :=
  with_local rng (run_trials (Z.to_nat (u32 (20 * scale))) 0 counter).
End trials.
