(* ===== verification/FaultTheorems.v ===== *)
(** * What is recovered after an injected fault.

    [injected_faults_recover]: whatever fault is injected after whatever history, it surfaces as an
    error, and a new process finds exactly the commits the scenario expects. *)
From stdpp Require Import pretty.
From S2P Require Import Prelude.
From S2P Require Import Binary.
From S2P Require Import OrderedMap.
From S2P Require Import Value.
From S2P Require Import Observer.
From S2P Require Import ObserverSpec.
From S2P Require Import Codec.
From S2P Require Import Storage.
From S2P Require Import Journal.
From S2P Require Import Recovery.
From S2P Require Import Snapshot.
From S2P Require Import SnapshotImage.
From S2P Require Import Cache.
From S2P Require Import Heap.
From S2P Require Import HeapSpec.
From S2P Require Import Transaction.
From S2P Require Import TransactionSpec.
From S2P Require Import TransactionTheorems.
From S2P Require Import Cli.
From S2P Require Import Sessions.
From S2P Require Import Simulation.
From S2P Require Import Credentials.
From S2P Require Import CredentialsSpec.
From S2P Require Import Fuzz.
From S2P Require Import FuzzTheorems.
From S2P Require Import Fault.
#[local] Open Scope Z_scope.

(** ** The backend keeps the contract *)
Section backend.
Context {W : Type} `{HW : storage_reliable W}.
Lemma take_half k (c data : list byte) : ∃ k', take k (take (Z.to_nat (size data / 2)) data) = take k' data.
Proof. exists (Nat.min k (Z.to_nat (size data / 2))). by rewrite take_take. Qed.
(** The append that stops half way. *)
Lemma fault_append_law p data (s : faulty W) :
  match fault_append p data s with
  | (Ok off, s') => same_but p s.2 s'.2 ∧
      ∃ c, file_of s.2 p = Some c ∧ off = size c ∧ file_of s'.2 p = Some (c ++ data)
  | (Throw _, s') => same_but p s.2 s'.2 ∧
      (file_of s'.2 p = file_of s.2 p ∨
       ∃ c k, file_of s.2 p = Some c ∧ file_of s'.2 p = Some (c ++ take k data))
  end.
Proof.
  destruct s as [plan w]. unfold fault_append, mbind, M_bind, on_fst, on_snd, get, modify, throw. simpl.
  destruct (partial_append_once plan && _).
  2:{ pose proof (append_law p data w) as Hl. by destruct (append p data w) as [[off|e] w']. }
  pose proof (file_size_law p w) as Hs. destruct (file_size p w) as [[n|e] w1]; simpl.
  2:{ split; [by apply same_but_files|left; apply Hs]. }
  destruct Hs as (Hs & c & Hc & ->). set (half := take _ data).
  pose proof (write_exact_law p (size c) half w1) as Hw.
  destruct (write_exact p (size c) half w1) as [[u|e] w2]; simpl; destruct Hw as [Hb Hw];
    (split; [by eapply same_but_trans; [apply same_but_files|]|]).
  - right. destruct Hw as (c' & Hc' & ->). rewrite Hs, Hc in Hc'. injection Hc' as <-.
    exists c, (Z.to_nat (size data / 2)). by rewrite write_at_end.
  - destruct Hw as [->|(c' & k & Hc' & ->)]; [left; apply Hs|right]. rewrite Hs, Hc in Hc'. injection Hc' as <-.
    destruct (take_half k c data) as [k' Ek]. exists c, k'. fold half in Ek. by rewrite Ek, write_at_end.
Qed.
Ltac inner law := let L := fresh in pose proof law as L;
  simpl; unfold on_snd; repeat match goal with |- context [match ?m ?s with _ => _ end] => destruct (m s) as [[?|?] ?] end; first [exact L|exact (L _)].
#[export] Instance fault_laws : storage_laws (faulty W).
Proof.
  refine {| file_of s := file_of s.2 |}; [..|intros p data w; apply (fault_append_law p data w)| | |]; intros;
    repeat match goal with w : faulty W |- _ => destruct w as [plan w] | w : fault_plan * W |- _ => destruct w as [plan w] end.
  - inner (open_file_law p create w).
  - inner (create_directories_law p w).
  - inner (exists_law p w).
  - simpl. unfold fault_atomic_replace, mbind, M_bind, on_fst, on_snd, get, modify, throw.
    destruct (fail_replace_once plan); [done|]. inner (atomic_replace_law from to w).
  - inner (sync_directory_law p w).
  - inner (file_size_law p w).
  - inner (read_exact_law p off n w).
  - inner (write_exact_law p off data w).
  - inner (truncate_law p n w).
  - simpl. unfold fault_flush_data, mbind, M_bind, on_fst, on_snd, get, modify, throw.
    destruct (fail_flush_data_once plan); [done|]. inner (flush_data_law p w).
  - inner (flush_all_law p w).
Defined.
(** With no fault planned it is as reliable as the storage. *)
#[export] Instance fault_reliable : storage_reliable (faulty W).
Proof.
  refine (Build_storage_reliable (faulty W) _ fault_laws (λ s, s.1 = no_faults ∧ reliable s.2) _ _ _ _ _ _ _ _ _ _ _ _ _ _);
    intros; repeat match goal with w : faulty W |- _ => destruct w as [plan w] | w : fault_plan * W |- _ => destruct w as [plan w] | H : _ ∧ _ |- _ => destruct H end;
    simpl in *; subst plan; unfold on_snd.
  - edestruct (open_file_ok p create w) as (w' & -> & ?); [done..|]. by exists (no_faults, w').
  - edestruct (create_directories_ok p w) as (w' & -> & ?); [done..|]. by exists (no_faults, w').
  - edestruct (exists_ok p w) as (b & w' & -> & ?); [done..|]. by exists b, (no_faults, w').
  - edestruct (atomic_replace_ok from to w) as (w' & E & ?); [done..|]. exists (no_faults, w').
    unfold fault_atomic_replace, mbind, M_bind, on_fst, on_snd, get. simpl. by rewrite E.
  - edestruct (sync_directory_ok p w) as (w' & -> & ?); [done..|]. by exists (no_faults, w').
  - edestruct (file_size_ok p w) as (n & w' & -> & ?); [done..|]. by exists n, (no_faults, w').
  - edestruct (read_exact_ok p off n w) as (bs & w' & -> & ?); [done..|]. by exists bs, (no_faults, w').
  - pose proof (read_exact_keeps p off n w ltac:(done)). by destruct (read_exact p off n w).
  - pose proof (open_existing_keeps p w ltac:(done)). by destruct (open_file p false w).
  - edestruct (write_exact_ok p off data w) as (w' & -> & ?); [done..|]. by exists (no_faults, w').
  - edestruct (append_ok p data w) as (off & w' & E & ?); [done..|]. exists off, (no_faults, w').
    unfold fault_append, mbind, M_bind, on_fst, on_snd, get. simpl. by rewrite E.
  - edestruct (truncate_ok p n w) as (w' & -> & ?); [done..|]. by exists (no_faults, w').
  - edestruct (flush_data_ok p w) as (w' & E & ?); [done..|]. exists (no_faults, w').
    unfold fault_flush_data, mbind, M_bind, on_fst, on_snd, get. simpl. by rewrite E.
  - edestruct (flush_all_ok p w) as (w' & -> & ?); [done..|]. by exists (no_faults, w').
Defined.

(** Planning a fault changes nothing for the calls that do not fail by plan. *)
Definition armed (f : fault_plan → fault_plan) (s : faulty W) : faulty W := (f s.1, s.2).
Lemma armed_on_snd f {X} (m : M W X) : simulates (armed f) (on_snd m) (on_snd m).
Proof. intros [plan w]. unfold on_snd, armed. simpl. by destruct (m w). Qed.
#[export] Instance armed_writing f : writing_morphism (armed f).
Proof. split; [split|..]; intros; apply armed_on_snd. Qed.

(** The files under the backend recover to the same. *)
Lemma recovers_inner config (s : faulty W) A : recovers (W:=faulty W) config s A → recovers config s.2 A.
Proof. intros (image & cj & t & [H1 H2 H3 H4 H5 H6]). exists image, cj, t. by split. Qed.
Lemma recovers_faulty config plan w A : recovers config w A → recovers (W:=faulty W) config (plan, w) A.
Proof. intros (image & cj & t & [H1 H2 H3 H4 H5 H6]). exists image, cj, t. by split. Qed.
End backend.

(** ** The commits before the fault *)
Definition counted (n : Z) : value := VObject [("n", VInteger n)].
(** After [i] commits: what the heap holds, and the value of the root. *)
Definition history (i : Z) : amap :=
  if i =? 0 then ∅ else {["root" := ARoot i value_type_name (stored (counted (i - 1)))]}.
Definition latest (i : Z) : value := if i =? 0 then VNull else counted (i - 1).
Lemma counted_wf n : is_i64 n → wf_value (counted n).
Proof. intros. repeat first [done|constructor]. Qed.
Lemma history_root i : 0 ≤ i ≤ 2 ^ 32 → root_value (history i) "root" = Ok (latest i).
Proof.
  intros Hi. unfold history, latest. destruct (Z.eqb_spec i 0); [by apply root_value_absent|].
  eapply root_value_stored; [by apply lookup_singleton_eq|]. apply counted_wf. unfold is_i64. lia.
Qed.
Lemma history_version i : version_in (history i) "root" = i.
Proof. unfold version_in, history. destruct (Z.eqb_spec i 0); [done|]. by rewrite lookup_singleton_eq. Qed.
Lemma history_next i : 0 ≤ i → with_root (history i) "root" (counted i) = history (i + 1).
Proof.
  intros Hi. unfold with_root. rewrite history_version. unfold history. rewrite Z.add_simpl_r.
  destruct (Z.eqb_spec (i + 1) 0); [lia|]. destruct (Z.eqb_spec i 0); [done|]. apply insert_singleton_eq.
Qed.
Lemma latest_next i : apply_edit (e_key "n" (e_integer i)) (apply_edit e_as_object (latest i)) = counted i.
Proof. unfold latest. by destruct (i =? 0). Qed.
Lemma latest_ne i : counted i ≠ latest i.
Proof. unfold latest, counted. destruct (i =? 0); [done|]. intros [=]. lia. Qed.

Section commits.
Context {W : Type} `{HW : storage_reliable W} (config : heap_config) (self : Z).
Implicit Types (h : heap_state) (w : W) (A : amap).
#[local] Abbreviation in_service := (in_service (W:=W) config).
#[local] Abbreviation edited := (edited self).

Record committed (i : Z) h w : Prop := {
  cm_service : in_service h w (history i) ∅;
  cm_sequence : 0 ≤ hs_wal_sequence h ≤ 3 * i;
  cm_next : hs_next_transaction h = 1 + i
}.
Lemma history_saveable i : saveable (history i).
Proof.
  unfold saveable, history. destruct (i =? 0); [split; [by apply Z.leb_le|by intros name root ?]|].
  split; [rewrite map_to_list_singleton; by apply Z.leb_le|]. intros name root.
  intros [<- <-]%lookup_singleton_Some. split_and!; by apply Z.leb_le.
Qed.
Lemma history_storable i h : 0 ≤ i < 2 ^ 32 → 0 ≤ hs_wal_sequence h ≤ 3 * i → hs_next_transaction h = 1 + i →
  storable h (history i) ∅ "root" (counted i).
Proof.
  intros Hi Hq Hn. assert (256 * 2 ^ 32 < u64_bound) by done.
  split; [apply counted_wf; unfold is_i64; lia|rewrite history_version; lia| | |lia|rewrite Hn; unfold is_u64; lia|done].
  - match goal with |- size (e_bytes (encode_update ?u)) + _ ≤ _ => destruct (size_encode_update u) as [-> ->] end.
    rewrite history_version. by apply Z.leb_le.
  - rewrite history_next by lia. apply history_saveable.
Qed.
(** [tx.object_root(name)["n"] = n;] *)
Lemma write_n_loaded h A name n v (s0 s : heap_state * W) :
  root name (new_transaction self h, s0) = (Ok 1, (loaded_transaction self h A name v, s)) →
  ∃ t r, write_n name n (new_transaction self h, s0) = (Ok tt, (t, s)) ∧
    edited h A name v t r (apply_edit (e_key "n" (e_integer n)) (apply_edit e_as_object v)).
Proof using Type.
  intros E. destruct (object_root_loaded self h A name v s0 s E) as (t1 & r1 & E1 & Hr1).
  destruct (edit_edited self h A name v _ _ _ (e_key "n" (e_integer n)) s Hr1) as (t & r & E2 & Hr2).
  exists t, r. split; [|done]. unfold write_n. by m_run E1.
Qed.
Lemma write_n_edited h w A p name n v :
  in_service h w A p → name ≠ "" → root_value A name = Ok v →
  ∃ k w' t r, write_n name n (new_transaction self h, (begun h, w)) = (Ok tt, (t, (set_cache k (begun h), w'))) ∧
    in_service (set_cache k (begun h)) w' A p ∧
    edited h A name v t r (apply_edit (e_key "n" (e_integer n)) (apply_edit e_as_object v)).
Proof.
  intros Hs Hname Hv. destruct (root_in_service config self h w A p name v Hs Hname Hv) as (k & w' & E & Hs').
  destruct (write_n_loaded h A name n v _ _ E) as (t & r & E2 & He). by exists k, w', t, r.
Qed.
Lemma commit_good_run count : ∀ i h w,
  committed i h w → 0 ≤ i → i + Z.of_nat count ≤ 2 ^ 32 →
  ∃ h' w', commit_good self count i (h, w) = (Ok tt, (h', w')) ∧ committed (i + Z.of_nat count) h' w'.
Proof.
  induction count as [|count IH]; intros i h w Hc Hi Hu.
  { exists h, w. by rewrite Z.add_0_r. }
  pose proof Hc as [Hs Hq Hn]. assert (256 * 2 ^ 32 < u64_bound) by done.
  destruct (write_n_edited h w (history i) ∅ "root" i (latest i) Hs ltac:(done) (history_root i ltac:(lia)))
    as (k & w1 & t & r & E1 & Hs1 & He). rewrite latest_next in He.
  destruct (edited_commit config self h w1 (history i) ∅ "root" _ t r _ k He Hs1 (history_storable i h ltac:(lia) Hq Hn))
    as (t' & h' & w' & A' & p' & E2 & Hs' & Hp & HA & Hq' & Hn').
  assert (p' = ∅) as -> by by destruct Hp. assert (A' = history (i + 1)) as ->.
  { destruct HA as [[_ E]| ->]; [by apply latest_ne in E|by apply history_next]. }
  destruct (IH (i + 1) h' w') as (h2 & w2 & E & Hc2); [|lia|lia|].
  { split; [done|lia|]. rewrite Hn', u64_small by (unfold is_u64; lia). lia. }
  exists h2, w2. replace (i + Z.of_nat (S count)) with (i + 1 + Z.of_nat count) by lia. split; [|done].
  cbn [commit_good]. unfold mbind at 1, M_bind at 1. rewrite (in_session_spec _ _ _ _ _ _ _ Hs).
  unfold mbind at 1, M_bind at 1. rewrite E1. unfold fst, snd. by rewrite E2.
Qed.

(** A transaction that has written to a root of an open heap and is about to commit it. *)
Record ready h w A (t : transaction) (name : string) (v : value) (image : snapshot_image) (cj : list byte) (s : scan) : Prop := {
  rd_state : heap_state_ok config h w A image cj s;
  rd_pending : s_pending s !! tr_id t = None;
  rd_flags : hs_closed h = false ∧ hs_poisoned h = false;
  rd_active : tr_active t = true;
  rd_id : is_u64 (tr_id t);
  rd_updates : updates_of t ≠ [];
  rd_valid : valid_updates h (updates_of t);
  rd_versions : versions_match A (updates_of t);
  rd_commit : a_commit (updates_of t) A = with_root A name v
}.
Lemma edited_ready h w A p name v0 t r v k :
  edited h A name v0 t r v → in_service (set_cache k (begun h)) w A p → storable h A p name v → v ≠ v0 →
  ∃ image cj s, ready (set_cache k (begun h)) w A t name v image cj s.
Proof.
  intros [-> Ht Hn Hx Hc Hd] ((image & cj & s & Hh & Hp) & Hrel & Hcl & Hpo) Hst Hne.
  assert (wr_dirty r = true) as Hdirty by (destruct (wr_dirty r); [done|by specialize (Hd eq_refl)]).
  destruct (root_updates self h A p name v0 v r Hst Hn Hx Hdirty Hc) as (Henc & Hcur & Eu & Ea).
  exists image, cj, s. pose proof Hst as [_ _ _ _ Hq Hid Hnew]. split; try done.
  - by rewrite Hp.
  - by rewrite Eu.
  - apply updates_of_valid; [done|done|]. simpl. unfold size. simpl. lia.
  - by apply current_versions_match.
Qed.
Section ready.
Context (h : heap_state) (w : W) (A : amap) (t : transaction) (name : string) (v : value).
Context (image : snapshot_image) (cj : list byte) (s : scan) (Hready : ready h w A t name v image cj s).
(** The journal refuses: the heap is poisoned. *)
Lemma ready_refused w1 e q w' :
  journal_append (wal_of config) (tr_id t) (updates_of t) (hs_wal_sequence h, w1) = (Throw e, (q, w')) →
  transaction_commit (t, (h, w1)) = (Throw e, (t, (set_poisoned (set_wal_sequence q h), w'))).
Proof.
  destruct Hready as [Hh _ [Hcl Hpo] Ha _ Hu _ Hm _]. intros E.
  unfold transaction_commit, mbind at 1, M_bind at 1, on_fst at 1, get at 1. rewrite Ha. cbn [negb].
  unfold mbind at 1, M_bind at 1, on_snd, commit. rewrite bool_decide_false by done.
  unfold state, mbind at 1, M_bind at 1, on_fst at 1, get at 1. rewrite Hcl, Hpo, (hi_config _ _ _ _ _ _ _ Hh).
  pose proof (commit_roots config h w A image cj s Hh) as Hroots. rewrite <- (hi_roots _ _ _ _ _ _ _ Hh) in Hroots.
  apply (versions_match_roots _ _ _ _ _ Hroots), check_versions_ok in Hm. rewrite Hm.
  unfold lift_result, mbind, M_bind, catch, on_wal. by rewrite E.
Qed.
(** What recovers from a part of the batch in the journal. *)
Definition the_batch : list byte := batch_bytes (wal_of config) (tr_id t) (hs_wal_sequence h) (updates_of t).
Lemma ready_part n w' :
  file_of w' (snap_path config) = file_of w (snap_path config) → file_of w' (wal_path config) = Some (cj ++ take n the_batch) →
  recovers config w' (if decide (n < length the_batch)%nat then A else with_root A name v).
Proof.
  destruct Hready as [Hh Hpn _ _ Hid _ Hv Hm Ec]. unfold the_batch. rewrite (hi_sequence _ _ _ _ _ _ _ Hh), <- Ec.
  by apply (appended_part config h w A image cj s).
Qed.
Lemma ready_sequence : 0 ≤ hs_wal_sequence h ∧ hs_wal_sequence h + size (updates_of t) + 2 < u64_bound.
Proof.
  destruct Hready as [Hh _ _ _ _ _ Hv _ _]. rewrite (hi_sequence _ _ _ _ _ _ _ Hh).
  by apply (sequence_bounds config h w A image cj s).
Qed.
Lemma the_batch_size : 44 ≤ size the_batch.
Proof.
  unfold the_batch, batch_bytes, batch_records. simpl. rewrite size_app, size_log_frame.
  pose proof (size_nonneg (lr_payload (begin_record (tr_id t) (hs_wal_sequence h)))).
  match goal with |- _ ≤ _ + size ?l => pose proof (size_nonneg l) end. lia.
Qed.
End ready.

(** What a new process finds. *)
Lemma read_n_run h w i p :
  in_service h w (history i) p → 0 < i ≤ 2 ^ 32 →
  ∃ k w' t, read_n "root" (new_transaction self h, (begun h, w)) = (Ok (i - 1), (t, (set_cache k (begun h), w'))) ∧
    in_service (set_cache k (begun h)) w' (history i) p.
Proof.
  intros Hs Hi. destruct (root_in_service config self h w _ p "root" _ Hs ltac:(done) (history_root i ltac:(lia))) as (k & w' & E & Hs').
  destruct (object_root_loaded self h _ "root" _ _ _ E) as (t1 & r1 & E1 & Hr1).
  exists k, w', t1. split; [|done]. unfold read_n. m_run E1.
  m_run (contents_edited self _ _ _ _ _ _ _ (set_cache k (begun h), w') Hr1).
  unfold latest. destruct (Z.eqb_spec i 0); [lia|]. by change (entry_at _ _) with (Ok (VInteger (i - 1))).
Qed.
Lemma read_visible_run h w i p :
  in_service h w (history i) p → 0 ≤ i ≤ 2 ^ 32 →
  ∃ h' w', in_session self (read_visible i) (h, w) = (Ok tt, (h', w')) ∧ reliable w'.
Proof.
  intros Hs Hi. rewrite (in_session_spec _ _ _ _ _ _ _ Hs). unfold read_visible. destruct (Z.eqb_spec i 0) as [->|Hne].
  - destruct (root_in_service config self h w _ p "root" _ Hs ltac:(done) (history_root 0 Hi)) as (k & w' & E & Hs').
    destruct (edited_start self h (history 0) "root" (latest 0)) as [r0 Hr0]. exists (set_cache k (begun h)), w'.
    split; [|apply Hs']. m_run E. by m_run (contents_edited self _ _ _ _ _ _ _ (set_cache k (begun h), w') Hr0).
  - destruct (read_n_run h w i p Hs ltac:(lia)) as (k & w' & t & E & Hs'). exists (set_cache k (begun h)), w'.
    split; [|apply Hs']. m_run E. unfold check. by rewrite Z.eqb_refl.
Qed.
End commits.

(** ** The faults *)
Lemma in_session_open {W} `{storage W} self {X} (m : session (W:=W) X) h w :
  hs_closed h = false →
  in_session self m (h, w) = let '(r, (_, s)) := m (new_transaction self h, (begun h, w)) in (r, s).
Proof.
  intros Hc. unfold in_session, transaction_begin, begin, state, update, mbind, M_bind, on_fst, get, modify. by rewrite Hc.
Qed.
(** A root that the heap does not have. *)
Lemma root_absent {W} `{storage W} self h (w : W) name :
  hs_roots h !! name = None → name ≠ "" →
  root name (new_transaction self h, (begun h, w)) = (Ok 1, (loaded_transaction self h ∅ name VNull, (begun h, w))).
Proof.
  intros Hno Hname. assert (load name (begun h, w) = (Ok (LoadedRoot 0 None false), (begun h, w))) as El.
  { unfold load, state, mbind, M_bind, on_fst, get. unfold begun at 1. cbn [hs_roots]. by rewrite Hno. }
  unfold root. set (t := new_transaction self h). m_run (eq_refl : on_fst get (t, (begun h, w)) = (Ok t, (t, (begun h, w)))).
  change (tr_by_name t !! name) with ((∅ : gmap string Z) !! name). rewrite lookup_empty.
  cbn [negb tr_active t new_transaction]. rewrite bool_decide_false by done. cbv iota.
  assert (on_snd (load name) (t, (begun h, w)) = (Ok (LoadedRoot 0 None false), (t, (begun h, w)))) as El'
    by (unfold on_snd; by rewrite El).
  m_run El'. unfold loaded_transaction. by rewrite lookup_empty.
Qed.
(** A poisoned heap lets nothing more be committed. *)
Lemma poisoned_refuses {W} `{storage_reliable W} self h (w : W) n message :
  hs_closed h = false → hs_poisoned h = true → hs_roots h !! "other" = None →
  ∃ h', commit_fails self "other" n message (h, w) = (Ok tt, (h', w)).
Proof.
  intros Hcl Hpo Hno. exists (begun h). unfold commit_fails. rewrite in_session_open by done.
  destruct (write_n_loaded self h ∅ "other" n VNull (begun h, w) (begun h, w)) as (t & r & E & He); [by apply root_absent|].
  m_run E. destruct He as [-> _ Hn _ _ Hd].
  assert (wr_dirty r = true) as Hdirty by (destruct (wr_dirty r); [done|by specialize (Hd eq_refl)]).
  assert (updates_of (set_working [r] (loaded_transaction self h ∅ "other" VNull)) = [update_of r]) as Eu.
  { unfold updates_of. simpl. rewrite filter_cons. by rewrite decide_True. }
  unfold throws_storage_error, transaction_commit, mbind, M_bind, on_fst, on_snd, get. rewrite Eu. simpl.
  unfold commit, state, mbind, M_bind, on_fst, get. simpl. by rewrite Hcl, Hpo.
Qed.

Section faults.
Context {W : Type} `{HW : storage_reliable W} (self : Z) (directory : string) (Hdirectory : directory ≠ "").
Implicit Types (h : heap_state) (w : W) (A : amap).
Let config : heap_config := default_config directory.
#[local] Abbreviation committed := (committed (W:=faulty W) config).
Lemma partial_append_run j tx updates q c w :
  file_of w (j_path j) = Some c → reliable w → 0 ≤ q → q + size updates + 2 < u64_bound →
  let batch := batch_bytes j tx q updates in 1 < size batch →
  ∃ q' w', journal_append j tx updates (q, armed (set_partial_append true) (no_faults, w)) =
      (Throw (storage_error "injected partial append"), (q', (no_faults, w'))) ∧ reliable w' ∧ same_but (j_path j) w w' ∧
    file_of w' (j_path j) = Some (c ++ take (Z.to_nat (size batch / 2)) batch).
Proof.
  intros Hc Hrel Hq Hb batch Hsize. destruct (computes_size _ _ _ Hc) as (r1 & w1 & E1 & Hs1 & _ & Hok1).
  destruct (Hok1 Hrel) as [-> Hrel1].
  destruct (leaves_write (j_path j) (size c) (take (Z.to_nat (size batch / 2)) batch) w1 c ltac:(by rewrite Hs1))
    as (r2 & w2 & E2 & Hb2 & Hf2 & Hok2).
  destruct (Hok2 Hrel1) as [[[] ->] Hrel2]. rewrite write_at_end in Hf2.
  exists (q + size updates + 2), w2. split_and!; [|done|by eapply same_but_trans; [by apply same_but_files|]|by apply Hf2; eexists].
  unfold journal_append, mbind at 1, M_bind at 1, on_fst at 1, get at 1. rewrite build_batch_spec by done.
  fold (batch_bytes j tx q updates). fold batch. unfold mbind, M_bind, on_fst, on_snd, put. simpl.
  unfold fault_append, mbind, M_bind, on_fst, on_snd, get, modify, throw. simpl.
  destruct (Z.gtb_spec (size batch) 1); [|lia]. by rewrite E1, E2.
Qed.
Lemma fail_flush_run j tx updates q c w :
  file_of w (j_path j) = Some c → reliable w → 0 ≤ q → q + size updates + 2 < u64_bound → j_durability j = strict →
  let batch := batch_bytes j tx q updates in
  ∃ q' w', journal_append j tx updates (q, armed (set_fail_flush true) (no_faults, w)) =
      (Throw (storage_error "injected flush_data failure"), (q', (no_faults, w'))) ∧ reliable w' ∧ same_but (j_path j) w w' ∧
    file_of w' (j_path j) = Some (c ++ batch).
Proof.
  intros Hc Hrel Hq Hb Hd batch. destruct (append_ok (j_path j) batch w Hrel (mk_is_Some _ _ Hc)) as (off & w1 & E1 & Hrel1).
  pose proof (append_law (j_path j) batch w) as Hl. rewrite E1 in Hl. destruct Hl as (Hb1 & c' & Hc' & _ & Hf).
  assert (c' = c) as -> by congruence. exists (q + size updates + 2), w1. split_and!; [|done|done|done].
  unfold journal_append, mbind at 1, M_bind at 1, on_fst at 1, get at 1. rewrite build_batch_spec by done.
  fold (batch_bytes j tx q updates). fold batch. unfold mbind, M_bind, on_fst, on_snd, put. simpl.
  unfold fault_append, mbind, M_bind, on_fst, on_snd, get. simpl. rewrite E1, Hd. reflexivity.
Qed.

(** The transaction with the fault, up to its commit. *)
Lemma commit_fails_run f i h w message :
  committed i h (no_faults, w) → 0 ≤ i < 2 ^ 32 →
  ∃ k w1 t image cj s,
    let h1 := set_cache k (begun h) in
    ready (W:=faulty W) config h1 (no_faults, w1) (history i) t "root" (counted i) image cj s ∧ reliable w1 ∧
    ∀ e q s', journal_append (wal_of config) (tr_id t) (updates_of t) (hs_wal_sequence h1, armed f (no_faults, w1)) =
        (Throw (storage_error e), (q, s')) →
      commit_fails self "root" i message (h, armed f (no_faults, w)) = (Ok tt, (set_poisoned (set_wal_sequence q h1), s')).
Proof.
  intros [Hs Hq Hn] Hi.
  destruct (write_n_edited (W:=faulty W) config self h (no_faults, w) (history i) ∅ "root" i (latest i) Hs ltac:(done) (history_root i ltac:(lia)))
    as (k & [plan w1] & t & r & E1 & Hs1 & He). rewrite latest_next in He.
  pose proof Hs1 as (_ & [Hplan Hrel1] & _). simpl in Hplan, Hrel1. subst plan.
  destruct (edited_ready (W:=faulty W) config self _ _ _ _ "root" _ t r _ k He Hs1 (history_storable i h Hi Hq Hn) (latest_ne i))
    as (image & cj & s & Hready).
  exists k, w1, t, image, cj, s. split_and!; [done|done|]. intros e q s' Ej.
  pose proof (ready_refused (W:=faulty W) config _ _ _ _ _ _ _ _ _ Hready _ _ _ _ Ej) as Ec.
  assert (simulates (beside (beside (armed f))) (write_n "root" i) (write_n "root" i)) as Hw.
  { unfold write_n, object_root. apply simulates_bind; [|intros; apply simulates_on_fst].
    apply simulates_bind; [apply simulates_root|intros]. apply simulates_bind; [apply simulates_on_fst|intros; apply simulates_ret]. }
  assert (write_n (W:=faulty W) "root" i (new_transaction self h, (begun h, armed f (no_faults, w))) =
    (Ok tt, (t, (set_cache k (begun h), armed f (no_faults, w1))))) as Ew by exact (simulates_run _ _ _ _ _ _ Hw E1).
  unfold commit_fails. rewrite in_session_open by apply Hs.
  m_run Ew. unfold throws_storage_error. by rewrite Ec.
Qed.
Lemma partial_append_surfaces i h w message :
  committed i h (no_faults, w) → 0 ≤ i < 2 ^ 32 →
  ∃ h' w', commit_fails self "root" i message (h, armed (set_partial_append true) (no_faults, w)) = (Ok tt, (h', (no_faults, w'))) ∧
    reliable w' ∧ recovers config w' (history i).
Proof.
  intros Hc Hi. destruct (commit_fails_run (set_partial_append true) i h w message Hc Hi)
    as (k & w1 & t & image & cj & s & Hready & Hrel & Hrun).
  destruct (ready_sequence _ _ _ _ _ _ _ _ _ _ Hready) as [Hq Hu].
  pose proof (the_batch_size config (set_cache k (begun h)) t) as Hsize.
  destruct (partial_append_run (wal_of config) (tr_id t) (updates_of t) _ cj w1 (hi_journal _ _ _ _ _ _ _ (rd_state _ _ _ _ _ _ _ _ _ _ Hready))
    Hrel Hq Hu) as (q' & w' & Ej & Hrel' & Hb & Hf); [unfold the_batch in Hsize; lia|].
  do 2 eexists. split_and!; [exact (Hrun _ _ _ Ej)|done|]. destruct (paths_differ config) as (Hne & _).
  pose proof (ready_part _ _ _ _ _ _ _ _ _ _ Hready (Z.to_nat (size (the_batch config (set_cache k (begun h)) t) / 2)) (no_faults, w')
    (Hb _ Hne) ltac:(exact Hf)) as Hrec.
  rewrite decide_True in Hrec; [by apply recovers_inner in Hrec|].
  unfold size in *. pose proof (Z.div_lt (Z.of_nat (length (the_batch config (set_cache k (begun h)) t))) 2). lia.
Qed.
Lemma fail_flush_surfaces i h w message :
  committed i h (no_faults, w) → 0 ≤ i < 2 ^ 32 →
  ∃ h' w', commit_fails self "root" i message (h, armed (set_fail_flush true) (no_faults, w)) = (Ok tt, (h', (no_faults, w'))) ∧
    reliable w' ∧ recovers config w' (history (i + 1)) ∧
    hs_closed h' = false ∧ hs_poisoned h' = true ∧ hs_roots h' !! "other" = None.
Proof.
  intros Hc Hi. destruct (commit_fails_run (set_fail_flush true) i h w message Hc Hi)
    as (k & w1 & t & image & cj & s & Hready & Hrel & Hrun). pose proof (rd_state _ _ _ _ _ _ _ _ _ _ Hready) as Hh.
  destruct (ready_sequence _ _ _ _ _ _ _ _ _ _ Hready) as [Hq Hu].
  destruct (fail_flush_run (wal_of config) (tr_id t) (updates_of t) _ cj w1 (hi_journal _ _ _ _ _ _ _ Hh)
    Hrel Hq Hu eq_refl) as (q' & w' & Ej & Hrel' & Hb & Hf).
  do 2 eexists. split_and!; [exact (Hrun _ _ _ Ej)|done| |apply Hready|done|].
  - destruct (paths_differ config) as (Hne & _).
    pose proof (ready_part _ _ _ _ _ _ _ _ _ _ Hready (length (the_batch config (set_cache k (begun h)) t)) (no_faults, w')
      (Hb _ Hne) ltac:(rewrite firstn_all; exact Hf)) as Hrec.
    rewrite decide_False, history_next in Hrec by lia. by apply recovers_inner in Hrec.
  - pose proof (commit_roots config _ _ _ _ _ _ Hh) as Hroots. rewrite <- (hi_roots _ _ _ _ _ _ _ Hh) in Hroots.
    apply (roots_hold_None _ _ _ _ "other") in Hroots. apply Hroots. unfold history. by destruct (i =? 0).
Qed.

(** The checkpoint that cannot replace the old snapshot. *)
Lemma fail_replace_surfaces i h w message :
  committed i h (no_faults, w) →
  ∃ w', throws_storage_error checkpoint message (h, armed (set_fail_replace true) (no_faults, w)) = (Ok tt, (h, (no_faults, w'))) ∧
    reliable w' ∧ recovers config w' (history i).
Proof.
  intros [(Hi & [_ Hrel] & Hcl & _) _ _]. simpl in Hrel. set (s0 := armed (set_fail_replace true) (no_faults, w)).
  assert (heap_inv (W:=faulty W) config h s0 (history i) ∅) as Hi0.
  { eapply (heap_inv_files (W:=faulty W) config h (no_faults, w) s0); [reflexivity|reflexivity|exact Hi]. }
  destruct Hi as (image & cj & s & Hh & _). set (now := Image (hs_roots h) (hs_wal_sequence h)).
  destruct (checkpoint_ordered (W:=faulty W) config h _ _ image cj s Hh (history_saveable i)) as [roots Ho].
  destruct (ordered_roots_spec _ _ Ho) as (_ & _ & _ & n & _ & Hp).
  destruct (write_temporary_leaves (W:=faulty W) (snapshot_of config) (read_payload config) _ (no_faults, w) (hs_wal_sequence h)
    roots n Hp (checkpoint_reads (W:=faulty W) config h _ _ image cj s Hh roots Ho)) as (r1 & [plan w1] & E1 & _ & _ & Hok).
  destruct (Hok (conj eq_refl Hrel)) as [[[] ->] [Hplan Hrel1]]. simpl in Hplan, Hrel1. subst plan.
  assert (simulates (armed (set_fail_replace true))
    (write_temporary (W:=faulty W) (snapshot_of config) (read_payload config) (hs_wal_sequence h) roots)
    (write_temporary (W:=faulty W) (snapshot_of config) (read_payload config) (hs_wal_sequence h) roots)) as Hw.
  { unfold write_temporary. simulate. }
  pose proof (simulates_run _ _ _ _ _ _ Hw E1) as Ew. fold s0 in Ew.
  assert (checkpoint (h, s0) = (Throw (storage_error "injected atomic replace failure"), (h, (no_faults, w1)))) as E.
  { unfold checkpoint, checkpoint_locked, state, mbind at 1, M_bind at 1, on_fst at 1, get at 1. rewrite Hcl.
    unfold mbind at 1, M_bind at 1, on_fst at 1, get at 1. rewrite (hi_config _ _ _ _ _ _ _ Hh).
    unfold mbind at 1, M_bind at 1, on_snd at 1. rewrite snapshot_save_unfold. fold now in Ho |- *. rewrite Ho.
    change (i_sequence now) with (hs_wal_sequence h). m_run Ew. reflexivity. }
  exists w1. split_and!; [unfold throws_storage_error; by rewrite E|done|].
  destruct (checkpoint_locked_spec (W:=faulty W) config h s0 _ _ Hi0 (history_saveable i)) as (r & h' & w' & E' & Hrec & _).
  assert (checkpoint_locked (h, s0) = (Throw (storage_error "injected atomic replace failure"), (h, (no_faults, w1)))) as E2.
  { revert E. unfold checkpoint, state, mbind at 1, M_bind at 1, on_fst at 1, get at 1. by rewrite Hcl. }
  rewrite E2 in E'. injection E' as <- <- <-. by apply recovers_inner in Hrec.
Qed.

(** *** One trial *)

(** The session with the fault ends, and what it leaves recovers to the commits it counts. *)
Lemma faulted_session_run kind good h w :
  committed 0 h (no_faults, w) → 0 ≤ good < 2 ^ 32 - 1 →
  ∃ n h' w', faulted_session self kind good (h, (no_faults, w)) = (Ok n, (h', (no_faults, w'))) ∧ reliable w' ∧
    0 ≤ n ≤ 2 ^ 32 ∧ recovers config w' (history n).
Proof.
  intros Hc Hg. destruct (commit_good_run (W:=faulty W) config self (Z.to_nat good) 0 h (no_faults, w) Hc) as (h1 & [plan w1] & E1 & Hc1);
    [lia|lia|]. pose proof (cm_service _ _ _ _ Hc1) as (_ & [Hplan _] & _). simpl in Hplan. subst plan.
  replace (0 + Z.of_nat (Z.to_nat good)) with good in Hc1 by lia.
  assert (∀ f, arm f (h1, (no_faults, w1)) = (Ok tt, (h1, armed f (no_faults, w1)))) as Ha by done.
  unfold faulted_session. m_run E1. destruct kind; [m_run (Ha (set_partial_append true))|m_run (Ha (set_fail_flush true))|m_run (Ha (set_fail_replace true))].
  - destruct (partial_append_surfaces good h1 w1 "partial append fault was not surfaced" Hc1) as (h2 & w2 & E2 & Hr2 & Hrec); [lia|].
    m_run E2. exists good, h2, w2. split_and!; [done|done|lia|lia|done].
  - destruct (fail_flush_surfaces good h1 w1 "flush fault was not surfaced" Hc1) as (h2 & w2 & E2 & Hr2 & Hrec & Hcl & Hpo & Hno); [lia|].
    destruct (poisoned_refuses (W:=faulty W) self h2 (no_faults, w2) 1 "heap was not poisoned after flush failure" Hcl Hpo Hno) as (h3 & E3).
    m_run E2. m_run E3. exists (good + 1), h3, w2. split_and!; [done|done|lia|lia|done].
  - destruct (fail_replace_surfaces good h1 w1 "atomic replace fault was not surfaced" Hc1) as (w2 & E2 & Hr2 & Hrec).
    m_run E2. exists good, h1, w2. split_and!; [done|done|lia|lia|done].
Qed.
Lemma recovered_run n w (message : integrity_report → string) :
  recovers config w (history n) → reliable w → 0 ≤ n ≤ 2 ^ 32 →
  ∃ w', (h ← heap_open config;
         with_local h (
           report ← integrity;
           _ ← check (ir_ok report) (message report);
           in_session self (read_visible n))) w = (Ok tt, w') ∧ reliable w'.
Proof.
  intros Hrec Hrel Hn. destruct (opened_in_service config w _ Hdirectory ltac:(done) Hrec Hrel) as (h & w1 & p & E1 & Hs & _).
  pose proof Hs as (Hi & Hrel1 & Hcl & Hpo).
  destruct (integrity_spec config h w1 _ p Hi) as (report & w2 & E2 & Hs2 & _ & Hok). destruct (Hok Hrel1) as [Hreport Hrel2].
  destruct (read_visible_run config self h w2 n p) as (h3 & w3 & E3 & Hrel3);
    [split_and!; [by eapply heap_inv_same_files|done..]|done|].
  exists w3. split; [|done]. m_run E1. unfold with_local. m_run E2. unfold check. rewrite Hreport.
  unfold mbind, M_bind, mret, M_ret. by rewrite E3.
Qed.
Lemma run_trial_run kind good w :
  0 ≤ good < 2 ^ 32 - 1 → reliable w →
  file_of w (wal_path config) = None → file_of w (snap_path config) = None →
  ∃ w', run_trial self directory kind good w = (Ok tt, w') ∧ reliable w'.
Proof.
  intros Hg Hrel Hw Hsn.
  destruct (fresh_in_service (W:=faulty W) config (no_faults, w) Hdirectory ltac:(done) Hw Hsn (conj eq_refl Hrel))
    as (h & [plan w1] & E1 & Hs & Hq & Hn & _). pose proof Hs as (_ & [Hplan _] & _). simpl in Hplan. subst plan.
  destruct (faulted_session_run kind good h w1) as (n & h2 & w2 & E2 & Hrel2 & Hb & Hrec); [by split; [|lia|lia]|done|].
  destruct (recovered_run n w2 (λ report, "recovery failed integrity check after injected fault: " +:+ ir_message report) Hrec Hrel2 Hb)
    as (w3 & E3 & Hrel3).
  exists w3. split; [|done]. unfold run_trial. fold config.
  assert (with_local no_faults (h ← heap_open (W:=faulty W) config; with_local h (faulted_session self kind good)) w = (Ok n, w2)) as E.
  { pose proof (E2 : @faulted_session W _ self kind good (h, (no_faults, w1) : faulty W) = _) as E2'.
    unfold with_local at 1. m_run E1. unfold with_local. unfold faulty in *. by rewrite E2'. }
  m_run E. exact E3.
Qed.
End faults.

(** ** All trials *)
Section trials.
Context {R : Type} `{HR : random_laws R} {W : Type} `{HF : filesystem_laws W} (self : Z).
Lemma run_trials_run count : ∀ trial counter (rng : R) (w : W), reliable w →
  ∃ rng' w', run_trials self count trial counter (rng, w) = (Ok tt, (rng', w')) ∧ reliable w'.
Proof.
  induction count as [|count IH]; intros trial counter rng w Hrel; [by exists rng, w|].
  destruct (drawn_pick (R:=R) 0 40 ltac:(lia) rng) as (good & rng1 & E1 & Hg).
  destruct (drawn_pick (R:=R) 0 2 ltac:(lia) rng1) as (kind & rng2 & E2 & _). cbn beta in Hg.
  set (directory := path_join (temp_directory_path (W:=W))
    ("opheap-test-" +:+ ("stress-fault-fuzz-" +:+ pretty trial) +:+ "-" +:+ pretty counter)).
  destruct (remove_all_law directory w Hrel) as (w1 & Er & Hrel1 & Hnone).
  destruct (make_directories_law directory w1 Hrel1) as (w2 & Em & Hrel2 & Hsame).
  destruct (run_trial_run self directory ltac:(unfold directory, path_join; by destruct (temp_directory_path (W:=W))) (kind_of kind) good w2)
    as (w3 & E3 & Hrel3); [lia|done|by rewrite Hsame; apply Hnone|by rewrite Hsame; apply Hnone|].
  destruct (IH (trial + 1) (counter + 1) rng2 w3 Hrel3) as (rng' & w' & E & Hrel').
  exists rng', w'. split; [|done]. cbn [run_trials].
  unfold mbind at 1, M_bind at 1, on_fst at 1. rewrite E1. unfold mbind at 1, M_bind at 1, on_fst at 1. rewrite E2.
  assert (on_snd (directory ← temporary_directory counter ("stress-fault-fuzz-" +:+ pretty trial);
                  run_trial self directory (kind_of kind) good) (rng2, w) = (Ok tt, (rng2, w3))) as Et.
  { unfold on_snd, temporary_directory, mbind, M_bind, mret, M_ret. fold directory. by rewrite Er, Em, E3. }
  m_run Et. exact E.
Qed.
End trials.

(** C17: Injected faults never lose or tear a commit.  On storage that is otherwise reliable, for every
    state of the random number generator and every scale, every trial ends without a failed
    check: the fault surfaces as a storage error; after a failed flush the heap refuses every
    further commit; and a new process that opens the directory passes the check of integrity and
    reads exactly the last commit that counts: the faulted one when only its flush failed, the one
    before it when its record was cut or the snapshot could not be replaced. *)
Theorem injected_faults_recover {R W : Type} `{random_laws R} `{filesystem_laws W} self scale counter (rng : R) (w : W) :
  reliable w → ∃ w', fault_fuzz self scale counter rng w = (Ok tt, w') ∧ reliable w'.
Proof.
  intros Hrel. destruct (run_trials_run self (Z.to_nat (u32 (20 * scale))) 0 counter rng w Hrel) as (rng' & w' & E & Hrel').
  exists w'. split; [|done]. unfold fault_fuzz, with_local. by rewrite E.
Qed.

(** The disk with a directory for temporary files. *)
Module TemporaryFiles.
#[global] Instance disk_filesystem : filesystem Disk.disk := {|
  temp_directory_path := "tmp";
  remove_all path d := (Ok tt, Disk.Mk (filter (λ e, String.prefix (path +:+ "/") e.1 = false) (Disk.entries d))
                                 (Disk.replaced d) (Disk.schedule d));
  make_directories path d := (Ok tt, d)
|}.
#[global] Instance disk_filesystem_laws : filesystem_laws Disk.disk.
Proof.
  split; intros path w Hrel; eexists; (split; [reflexivity|]); (split; [exact Hrel|]); [|done]. intros name.
  simpl. unfold Disk.d_file_of. simpl. rewrite map_lookup_filter_None_2; [done|]. right. intros f _. simpl.
  unfold path_join. rewrite <- string_app_assoc, prefix_app. done.
Qed.
End TemporaryFiles.
Lemma injected_faults_recover_witness : ∃ w', fault_fuzz 7 1 0 2026 Disk.empty = (Ok tt, w') ∧ reliable w'.
Proof. apply (injected_faults_recover 7 1 0 2026 Disk.empty). reflexivity. Defined.
(** One trial of each kind, run. *)
Example three_trials :
  (run_trial 7 "db" partial_append 2 Disk.empty).1 = Ok tt ∧
  (run_trial 7 "db" fail_flush 2 Disk.empty).1 = Ok tt ∧
  (run_trial 7 "db" fail_replace 2 Disk.empty).1 = Ok tt.
Proof. vm_compute. split_and!; reflexivity. Qed.
