(* ===== verification/WindowsFile.v ===== *)
(** * The native storage on Windows: the other half of [native_file.hpp],
    [native_storage_backend.hpp] and [io_error.hpp].

    The calls of the Windows API are an interface, [win32], over the state [K] of the system;
    [win32_laws] states what their documentation promises.  A transfer moves at least one byte or
    fails, so that the loops need as much fuel as there are bytes. *)
From stdpp Require Import pretty.
From S2P Require Import Prelude.
From S2P Require Import Storage.
From S2P Require Import NativeFile.
#[local] Open Scope Z_scope.

(** ** Calls of the system *)
Inductive creation := OPEN_ALWAYS | OPEN_EXISTING.
Inductive move_flag := MOVEFILE_REPLACE_EXISTING | MOVEFILE_WRITE_THROUGH.
(** The two halves of the position in an [OVERLAPPED]. *)
Record overlapped := Overlapped { ov_offset : Z; ov_offset_high : Z }.
(** Each call gives whether it succeeded and what it stored: [read_file] the bytes, [write_file]
    how many it has written, [get_file_size_ex] the size.  [create_file] gives the handle. *)
Class win32 (K : Type) := {
  create_file : string → creation → K → Z * K;
  close_handle : Z → K → bool * K;
  get_file_size_ex : Z → K → (bool * Z) * K;
  read_file : Z → Z → overlapped → K → (bool * list byte) * K;
  write_file : Z → list byte → overlapped → K → (bool * Z) * K;
  set_file_pointer_ex : Z → Z → K → bool * K;
  set_end_of_file : Z → K → bool * K;
  flush_file_buffers : Z → K → bool * K;
  move_file_ex : string → string → list move_flag → K → bool * K;
  get_last_error : K → Z
}.
Definition INVALID_HANDLE_VALUE : Z := -1.

Record windows_file := WindowsFile { wf_path : string; wf_handle : Z }.

Section windows.
Context {K : Type} `{win32 K}.
Definition win_io_error {A} (operation path : string) : M K A :=
  k ← get;
  throw (storage_error (operation +:+ " failed for " +:+ path +:+ " (win32=" +:+ pretty (get_last_error k) +:+ ")")).
(** [if (!call(...)) io_error(...)] *)
Definition succeed {A} (operation path : string) (ok : bool) (m : M K A) : M K A :=
  if negb ok then win_io_error operation path else m.

(** ** native_file *)
Definition win_open (path : string) (create : bool) : M K windows_file :=
  handle ← call (create_file path (if create then OPEN_ALWAYS else OPEN_EXISTING));
  if handle =? INVALID_HANDLE_VALUE then win_io_error "CreateFile" path else mret (WindowsFile path handle).
Definition win_destroy (f : windows_file) : M K unit :=
  if negb (wf_handle f =? INVALID_HANDLE_VALUE) then _ ← call (close_handle (wf_handle f)); mret tt else mret tt.
Definition win_size (f : windows_file) : M K Z :=
  r ← call (get_file_size_ex (wf_handle f));
  succeed "GetFileSizeEx" (wf_path f) r.1 (mret (u64 r.2)).
(** The position of a transfer, and how many bytes one call asks for. *)
Definition position (at_ : Z) : overlapped := Overlapped (Z.land at_ 4294967295) (Z.shiftr at_ 32).
Definition ask (n : Z) : Z := Z.min n (2 ^ 30).
(** The loop of [read_exact]; [out] is what the buffer holds already. *)
Fixpoint win_read_loop (fuel : nat) (f : windows_file) (offset n : Z) (out : list byte) : M K (list byte) :=
  if size out <? n then
    match fuel with
    | O => throw out_of_fuel
    | S fuel =>
        r ← call (read_file (wf_handle f) (ask (n - size out)) (position (u64 (offset + size out))));
        if negb r.1 || (size r.2 =? 0) then win_io_error "ReadFile" (wf_path f)
        else win_read_loop fuel f offset n (out ++ r.2)
    end
  else mret out.
Definition win_read_exact (f : windows_file) (offset n : Z) : M K (list byte) :=
  win_read_loop (Z.to_nat n) f offset n [].
(** The loop of [write_exact]; [done_] bytes are written. *)
Fixpoint win_write_loop (fuel : nat) (f : windows_file) (offset : Z) (data : list byte) (done_ : Z) : M K unit :=
  if done_ <? size data then
    match fuel with
    | O => throw out_of_fuel
    | S fuel =>
        let part := take (Z.to_nat (ask (size data - done_))) (drop (Z.to_nat done_) data) in
        r ← call (write_file (wf_handle f) part (position (u64 (offset + done_))));
        if negb r.1 || (r.2 =? 0) then win_io_error "WriteFile" (wf_path f)
        else win_write_loop fuel f offset data (done_ + r.2)
    end
  else mret tt.
Definition win_write_exact (f : windows_file) (offset : Z) (data : list byte) : M K unit :=
  win_write_loop (length data) f offset data 0.
Definition win_append (f : windows_file) (data : list byte) : M K Z :=
  off ← win_size f; _ ← win_write_exact f off data; mret off.
(** [off_t] is the cast to the signed 64-bit [LONGLONG] too. *)
Definition win_truncate (f : windows_file) (new_size : Z) : M K unit :=
  moved ← call (set_file_pointer_ex (wf_handle f) (off_t new_size));
  if negb moved then win_io_error "SetEndOfFile" (wf_path f)
  else ok ← call (set_end_of_file (wf_handle f)); succeed "SetEndOfFile" (wf_path f) ok (mret tt).
Definition win_flush_data (f : windows_file) : M K unit :=
  ok ← call (flush_file_buffers (wf_handle f)); succeed "FlushFileBuffers" (wf_path f) ok (mret tt).
Definition win_flush_all (f : windows_file) : M K unit := win_flush_data f.

(** ** native_storage_backend *)
Definition win_atomic_replace (from to : string) : M K unit :=
  ok ← call (move_file_ex from to [MOVEFILE_REPLACE_EXISTING; MOVEFILE_WRITE_THROUGH]);
  succeed "MoveFileEx" to ok (mret tt).
Definition win_sync_directory (directory : string) : M K unit := mret tt.
End windows.

(** ** What the calls promise *)
Definition at_position (o : overlapped) : Z := ov_offset o + 2 ^ 32 * ov_offset_high o.
(** What a file holds after a write of [part] at [off]: that part in its place and the other bytes
    as they were; when the file was shorter than [off], the bytes between are not determined. *)
Definition placed (c : list byte) (off : Z) (part c' : list byte) : Prop :=
  match part with
  | [] => c' = c
  | _ => ∃ gap, size gap = Z.max 0 (off - size c) ∧ c' = write_at (c ++ gap) off part
  end.
Class win32_laws (K : Type) `{win32 K} := {
  (** The open handles with the file behind each and its pointer, and the bytes of a file. *)
  handle_file : K → gmap Z Z;
  file_pointer : K → Z → Z;
  file_bytes : K → Z → list byte;
  keeps (k k' : K) : Prop := handle_file k' = handle_file k ∧ ∀ i, file_bytes k' i = file_bytes k i;
  modifies (i : Z) (c : list byte) (k k' : K) : Prop :=
    handle_file k' = handle_file k ∧ file_bytes k' i = c ∧ ∀ j, j ≠ i → file_bytes k' j = file_bytes k j;
  get_file_size_law h i k : handle_file k !! h = Some i → let '((ok, n), k') := get_file_size_ex h k in
    keeps k k' ∧ (ok = true → n = size (file_bytes k i));
  (** At the end of the file the call fails or stores nothing. *)
  read_file_law h i n o k : handle_file k !! h = Some i → 0 < n < 2 ^ 32 →
    let '((ok, bs), k') := read_file h n o k in keeps k k' ∧
    (ok = true → bs `prefix_of` take (Z.to_nat n) (drop (Z.to_nat (at_position o)) (file_bytes k i)));
  (** A call that fails may have put anything, for any length, into the range it was to write. *)
  write_file_law h i data o k : handle_file k !! h = Some i → 0 < size data < 2 ^ 32 →
    let '((ok, n), k') := write_file h data o k in
    modifies i (file_bytes k' i) k k' ∧
    if negb ok || (n =? 0) then ∃ debris, size debris ≤ size data ∧
      placed (file_bytes k i) (at_position o) debris (file_bytes k' i)
    else 0 < n ≤ size data ∧
      placed (file_bytes k i) (at_position o) (take (Z.to_nat n) data) (file_bytes k' i);
  set_file_pointer_law h i pos k : handle_file k !! h = Some i →
    let '(ok, k') := set_file_pointer_ex h pos k in
    keeps k k' ∧ (ok = true → 0 ≤ pos ∧ file_pointer k' h = pos);
  (** The file ends where the pointer is; the bytes of an extension are not determined. *)
  set_end_of_file_law h i k : handle_file k !! h = Some i →
    let '(ok, k') := set_end_of_file h k in
    modifies i (file_bytes k' i) k k' ∧
    take (Z.to_nat (file_pointer k h)) (file_bytes k i) `prefix_of` file_bytes k' i ∧
    (ok = true → size (file_bytes k' i) = file_pointer k h)
}.
