(* ===== verification/WindowsTheorems.v ===== *)
(** * Properties of the native storage on Windows: what each operation of the file does, and what it
    may leave when it fails. *)
From S2P Require Import Prelude.
From S2P Require Import Storage.
From S2P Require Import NativeFile.
From S2P Require Import NativeTheorems.
From S2P Require Import WindowsFile.
#[local] Open Scope Z_scope.

Lemma at_position_of z : 0 ≤ z < 2 ^ 63 → at_position (position (u64 z)) = z.
Proof.
  intros Hz. rewrite u64_small by (unfold is_u64, u64_bound; lia). unfold at_position, position. cbn [ov_offset ov_offset_high].
  change 4294967295 with (Z.ones 32). rewrite Z.land_ones, Z.shiftr_div_pow2 by lia.
  pose proof (Z.div_mod z (2 ^ 32)). lia.
Qed.
Lemma ask_spec n : 0 < n → 0 < ask n ≤ n ∧ ask n < 2 ^ 32.
Proof. unfold ask. lia. Qed.

(** ** Writing in pieces, with what the system may put into a gap *)
Lemma size_write_at c off data : 0 ≤ off → data ≠ [] → off + size data ≤ size (write_at c off data).
Proof.
  intros Ho Hd. unfold write_at, size. rewrite !length_app, length_take, length_app, length_replicate. lia.
Qed.
Lemma kept_prefix n (c : list byte) : take n c `prefix_of` c.
Proof. exists (drop n c). by rewrite take_drop. Qed.
Lemma placed_end c part c' : placed c (size c) part c' → c' = c ++ part.
Proof.
  destruct part as [|b l]; [intros ->; by rewrite app_nil_r|]. intros (gap & Hg & ->).
  rewrite Z.sub_diag in Hg. destruct gap; [|unfold size in Hg; simpl in Hg; lia].
  by rewrite app_nil_r, write_at_end.
Qed.
Lemma placed_more c off a b c1 c2 :
  0 ≤ off → placed c off a c1 → placed c1 (off + size a) b c2 → placed c off (a ++ b) c2.
Proof.
  intros Ho Ha Hb. destruct a as [|x a]; [rewrite size_nil, Z.add_0_r in Hb; simpl in Ha; by subst|].
  destruct b as [|y b]; [rewrite app_nil_r; simpl in Hb; by subst|].
  destruct Ha as (gap & Hg & ->), Hb as (gap2 & Hg2 & ->).
  exists gap. split; [done|]. pose proof (size_write_at (c ++ gap) off (x :: a) Ho ltac:(done)).
  destruct gap2; [|unfold size in *; simpl in *; lia]. by rewrite app_nil_r, write_at_app.
Qed.

Section windows_theorems.
Context {K : Type} `{HK : win32_laws K}.
Implicit Types (k : K) (f : windows_file).

Lemma keeps_refl k : keeps k k.
Proof. done. Qed.
Lemma keeps_trans k1 k2 k3 : keeps k1 k2 → keeps k2 k3 → keeps k1 k3.
Proof. intros [E1 B1] [E2 B2]. split; [congruence|]. intros i. by rewrite B2. Qed.
Lemma modifies_after i c k1 k2 k3 : keeps k1 k2 → modifies i c k2 k3 → modifies i c k1 k3.
Proof. intros [E1 B1] (E2 & B2 & B3). split_and!; [congruence|done|]. intros j Hj. by rewrite B3, B1. Qed.
Lemma modifies_again i c c' k1 k2 k3 : modifies i c k1 k2 → modifies i c' k2 k3 → modifies i c' k1 k3.
Proof. intros (E1 & B1 & C1) (E2 & B2 & C2). split_and!; [congruence|done|]. intros j Hj. by rewrite C2, C1. Qed.
Lemma keeps_modifies i k1 k2 : keeps k1 k2 → modifies i (file_bytes k1 i) k1 k2.
Proof. intros [E B]. split_and!; [done|done|]. intros. apply B. Qed.

(** The part of the range that one call adds to what the buffer holds. *)
Lemma read_more (c : list byte) off n m (out bs : list byte) :
  out = take (length out) (drop (Z.to_nat off) c) → 0 ≤ off → 0 < m ≤ n - size out →
  bs `prefix_of` take (Z.to_nat m) (drop (Z.to_nat (off + size out)) c) →
  out ++ bs = take (length (out ++ bs)) (drop (Z.to_nat off) c) ∧ size bs ≤ n - size out.
Proof.
  intros Hout Hoff Hm [rest Hr].
  assert (size bs ≤ m) as Hbs.
  { assert (size (take (Z.to_nat m) (drop (Z.to_nat (off + size out)) c)) = size (bs ++ rest)) as El by by rewrite Hr.
    rewrite size_take, size_app in El. pose proof (size_nonneg rest). lia. }
  split; [|lia]. rewrite length_app, <- (take_take_drop _ (length out) (length bs)), <- Hout. f_equal.
  rewrite drop_drop. replace (Z.to_nat off + length out)%nat with (Z.to_nat (off + size out)) by (unfold size; lia).
  apply (f_equal (take (length bs))) in Hr. rewrite take_take, take_app_length in Hr.
  rewrite <- Hr at 1. f_equal. unfold size in *. lia.
Qed.
Lemma win_read_loop_spec fuel f i off n out k :
  handle_file k !! wf_handle f = Some i → 0 ≤ off → off + n < 2 ^ 63 →
  out = take (length out) (drop (Z.to_nat off) (file_bytes k i)) → size out ≤ n → n - size out ≤ Z.of_nat fuel →
  ∃ r k', win_read_loop fuel f off n out k = (r, k') ∧ keeps k k' ∧
    match r with
    | Ok bs => bs = take (Z.to_nat n) (drop (Z.to_nat off) (file_bytes k i)) ∧ size bs = n
    | Throw (storage_error _) => True
    | Throw _ => False
    end.
Proof.
  revert out k. induction fuel as [|fuel IH]; intros out k Hf Hoff Hmax Hout Hle Hfuel; pose proof (size_nonneg out);
    cbn [win_read_loop]; destruct (Z.ltb_spec (size out) n) as [Hlt|Hge]; try lia;
    try (exists (Ok out), k; split_and!; [done|done| |lia]; rewrite Hout at 1; f_equal; unfold size in *; lia).
  destruct (ask_spec (n - size out) ltac:(lia)) as [Ha1 Ha2].
  pose proof (read_file_law (wf_handle f) i _ (position (u64 (off + size out))) k Hf (conj (proj1 Ha1) Ha2)) as Hr.
  rewrite at_position_of in Hr by lia. unfold call, mbind, M_bind.
  destruct (read_file _ _ _ k) as [[ok bs] k1]. destruct Hr as [Hs Hr]. cbn [fst snd].
  destruct ok; cbn [negb orb]; [destruct (Z.eqb_spec (size bs) 0)|].
  - do 2 eexists. split_and!; [reflexivity|done|done].
  - destruct (read_more _ _ _ _ _ _ Hout Hoff Ha1 (Hr eq_refl)) as [Hout' Hbs].
    pose proof (size_nonneg bs). pose proof Hs as [Hs1 Hs2].
    destruct (IH (out ++ bs) k1) as (r & k2 & E & Hs' & Hres); rewrite ?Hs1, ?Hs2, ?size_app; try done; try lia.
    exists r, k2. split_and!; [exact E|by eapply keeps_trans|]. by rewrite Hs2 in Hres.
  - do 2 eexists. split_and!; [reflexivity|done|done].
Qed.
(** What a write may have done: the first [m] bytes of the data are in place, and after them, when it
    failed, anything up to the end of the range. *)
Definition wrote (c : list byte) (off : Z) (data : list byte) (m : nat) (debris c' : list byte) : Prop :=
  (m ≤ length data)%nat ∧ size debris ≤ size data - Z.of_nat m ∧ placed c off (take m data ++ debris) c'.
Lemma win_write_loop_spec fuel f i off data d c k :
  handle_file k !! wf_handle f = Some i → 0 ≤ off → off + size data < 2 ^ 63 → (d ≤ length data)%nat →
  placed c off (take d data) (file_bytes k i) → size data - Z.of_nat d ≤ Z.of_nat fuel →
  ∃ r k' m debris, win_write_loop fuel f off data (Z.of_nat d) k = (r, k') ∧
    modifies i (file_bytes k' i) k k' ∧ wrote c off data m debris (file_bytes k' i) ∧
    match r with
    | Ok _ => m = length data ∧ debris = []
    | Throw (storage_error _) => (m < length data)%nat
    | Throw _ => False
    end.
Proof.
  revert d k. induction fuel as [|fuel IH]; intros d k Hf Hoff Hmax Hd Hc Hfuel;
    cbn [win_write_loop]; destruct (Z.ltb_spec (Z.of_nat d) (size data)) as [Hlt|Hge]; try lia;
    try (exists (Ok tt), k, d, []; unfold wrote; rewrite app_nil_r, size_nil; unfold size in *; split_and!; try done; lia).
  destruct (ask_spec (size data - Z.of_nat d) ltac:(lia)) as [Ha1 Ha2]. rewrite Nat2Z.id.
  set (part := take (Z.to_nat (ask (size data - Z.of_nat d))) (drop d data)).
  assert (size part = ask (size data - Z.of_nat d)) as Hpart
    by (unfold part; rewrite size_take; unfold size in *; rewrite length_drop; lia).
  pose proof (write_file_law (wf_handle f) i part (position (u64 (off + Z.of_nat d))) k Hf ltac:(lia)) as Hw.
  rewrite at_position_of in Hw by lia. unfold call, mbind, M_bind.
  assert (size (take d data) = Z.of_nat d) as Ed by (unfold size; rewrite length_take; lia).
  destruct (write_file _ _ _ k) as [[ok n] k1]. cbn [fst snd]. destruct Hw as [Hch Hw].
  destruct (negb ok || (n =? 0)).
  - destruct Hw as (debris & Hdeb & Hp). eexists _, k1, d, debris. split_and!; [reflexivity|done| |simpl; unfold size in *; lia].
    split_and!; [done|lia|]. eapply placed_more; [done|exact Hc|]. by rewrite Ed.
  - destruct Hw as [Hn Hp]. unfold part in Hp. rewrite take_take, Nat.min_l in Hp by lia.
    replace (Z.of_nat d + n) with (Z.of_nat (d + Z.to_nat n)) by lia.
    destruct (IH (d + Z.to_nat n)%nat k1) as (r & k2 & m & debris & E & Hch2 & Hr); try done; try (unfold size in *; lia).
    { by destruct Hch as [-> _]. }
    { rewrite <- take_take_drop. eapply placed_more; [done|exact Hc|]. by rewrite Ed. }
    exists r, k2, m, debris. split_and!; [exact E|by eapply modifies_again|by destruct Hr..].
Qed.

(** [append]: the data at the end of the file, or a proper prefix of them and what a call that failed
    has left, no longer together than the data. *)
Lemma win_append_spec f i data k :
  handle_file k !! wf_handle f = Some i → size (file_bytes k i) + size data < 2 ^ 63 →
  ∃ r k' m debris, win_append f data k = (r, k') ∧
     modifies i (file_bytes k i ++ take m data ++ debris) k k' ∧ (m ≤ length data)%nat ∧ size debris ≤ size data - Z.of_nat m ∧
     match r with
     | Ok n => n = size (file_bytes k i) ∧ m = length data ∧ debris = []
     | Throw (storage_error _) => (m < length data)%nat ∨ data = []
     | Throw _ => False
     end.
Proof.
  intros Hf Hmax. pose proof (get_file_size_law (wf_handle f) i k Hf) as Hs.
  unfold win_append, win_size, call, succeed, mbind, M_bind.
  destruct (get_file_size_ex (wf_handle f) k) as [[ok n] k1]. destruct Hs as (Hs & Hn). cbn [fst snd].
  destruct ok; cbn [negb].
  2:{ eexists _, k1, O, []. rewrite take_0, !app_nil_r, size_nil. unfold size.
      split_and!; [reflexivity|by apply keeps_modifies|lia|lia|]. simpl. destruct data; [by right|left; simpl; lia]. }
  rewrite (Hn eq_refl). assert (0 ≤ size (file_bytes k i)) by auto. assert (0 ≤ size data) by auto.
  rewrite u64_small by (unfold is_u64, u64_bound; lia).
  destruct (win_write_loop_spec (length data) f i (size (file_bytes k i)) data 0 (file_bytes k i) k1)
    as (r & k' & m & debris & E & Hch & (Hm & Hd & Hp) & Hr);
    [by destruct Hs as [-> _]|done|lia|lia|by destruct Hs as [_ ->]|unfold size; lia|].
  apply placed_end in Hp. rewrite Hp in Hch. apply (modifies_after i _ _ _ _ Hs) in Hch.
  unfold mret, M_ret, win_write_exact. rewrite (E : win_write_loop _ _ _ _ 0 _ = _).
  destruct r as [u|e]; do 4 eexists; (split_and!; [reflexivity|exact Hch|done|done|]); [by destruct Hr|].
  destruct e; try done. by left.
Qed.

(** C31: What a file on Windows does, however few bytes a call transfers, whenever it fails and whatever
    a failing call leaves in the range it was to write.  For positions below 2^63, the calls the loops
    make being at most one per byte: [read_exact] ends with exactly the bytes of the range, or with
    [storage_error]; [write_exact] and [append] return when all the data are at their place, with every
    other byte as it was (a gap beyond the old end of the file apart, whose bytes Windows does not
    determine), and throw [storage_error] with a proper prefix of the data there and anything in the
    rest of the range: what a failed [append] leaves is the old content, a proper prefix of the data and
    at most as many bytes more as were missing (more than the contract of file Storage lets it leave,
    when the failing call wrote other bytes); [truncate] gives the file the size asked for, and keeps
    the bytes below it even when it throws; no other file changes. *)
Theorem windows_file_keeps_the_contract f i k :
  handle_file k !! wf_handle f = Some i →
  (∀ off n, 0 ≤ off → 0 ≤ n → off + n < 2 ^ 63 → ∃ r k', win_read_exact f off n k = (r, k') ∧ keeps k k' ∧
     match r with
     | Ok bs => bs = take (Z.to_nat n) (drop (Z.to_nat off) (file_bytes k i)) ∧ size bs = n
     | Throw (storage_error _) => True
     | Throw _ => False
     end) ∧
  (∀ off data, 0 ≤ off → off + size data < 2 ^ 63 → ∃ r k' m debris, win_write_exact f off data k = (r, k') ∧
     modifies i (file_bytes k' i) k k' ∧ wrote (file_bytes k i) off data m debris (file_bytes k' i) ∧
     match r with
     | Ok _ => m = length data ∧ debris = []
     | Throw (storage_error _) => (m < length data)%nat
     | Throw _ => False
     end) ∧
  (∀ data, size (file_bytes k i) + size data < 2 ^ 63 → ∃ r k' m debris, win_append f data k = (r, k') ∧
     modifies i (file_bytes k i ++ take m data ++ debris) k k' ∧ (m ≤ length data)%nat ∧ size debris ≤ size data - Z.of_nat m ∧
     match r with
     | Ok n => n = size (file_bytes k i) ∧ m = length data ∧ debris = []
     | Throw (storage_error _) => (m < length data)%nat ∨ data = []
     | Throw _ => False
     end) ∧
  (∀ n, 0 ≤ n < 2 ^ 63 → ∃ r k', win_truncate f n k = (r, k') ∧
     modifies i (file_bytes k' i) k k' ∧ take (Z.to_nat n) (file_bytes k i) `prefix_of` file_bytes k' i ∧
     match r with
     | Ok _ => size (file_bytes k' i) = n
     | Throw (storage_error _) => True
     | Throw _ => False
     end).
Proof.
  intros Hf. split_and!.
  - intros off n Ho Hn Hmax. apply win_read_loop_spec; try done; rewrite size_nil; lia.
  - intros off data Ho Hmax. apply (win_write_loop_spec (length data) f i off data 0 (file_bytes k i) k);
      [done|done|done|lia|done|unfold size; lia].
  - intros data. by apply win_append_spec.
  - intros n Hn. unfold win_truncate, call, succeed, mbind, M_bind. rewrite off_t_small by done.
    pose proof (set_file_pointer_law (wf_handle f) i n k Hf) as Hp.
    destruct (set_file_pointer_ex (wf_handle f) n k) as [moved k1]. destruct Hp as [Hs Hp].
    destruct moved; cbn [negb].
    2:{ do 2 eexists. split_and!; [reflexivity|rewrite (proj2 Hs); by apply keeps_modifies| |done].
        rewrite (proj2 Hs). apply kept_prefix. }
    destruct (Hp eq_refl) as [_ Hpos]. pose proof (set_end_of_file_law (wf_handle f) i k1) as He.
    destruct (set_end_of_file (wf_handle f) k1) as [ok k2]. specialize (He ltac:(by destruct Hs as [-> _])).
    destruct He as (Hch & Hpre & Hsz). rewrite Hpos, (proj2 Hs) in *.
    apply (modifies_after i _ k k1 k2 Hs) in Hch.
    destruct ok; cbn [negb]; do 2 eexists; (split_and!; [reflexivity|done|done|]); [by apply Hsz|done].
Qed.
End windows_theorems.

(** ** A system to try it on: what each transfer moves at most is planned; a planned 0 fails, and
    leaves a wrong byte where it was to write *)
Module Windows.
Record system := Mk { handles : gmap Z Z; pointers : gmap Z Z; contents : gmap Z (list byte); plan : list nat }.
Definition content_of (k : system) (i : Z) : list byte := default [] (contents k !! i).
Definition with_content (i : Z) (c : list byte) (k : system) : system :=
  Mk (handles k) (pointers k) (<[i := c]> (contents k)) (plan k).
(** At most so many bytes, by the next number of the plan. *)
Definition limited (n : nat) (k : system) : nat * system :=
  match plan k with [] => (n, k) | m :: l => (Nat.min m n, Mk (handles k) (pointers k) (contents k) l) end.
Definition s_read (h n : Z) (o : overlapped) (k : system) : (bool * list byte) * system :=
  match handles k !! h with
  | None => ((false, []), k)
  | Some i => let '(m, k') := limited (Z.to_nat n) k in
              ((true, take m (drop (Z.to_nat (at_position o)) (content_of k i))), k')
  end.
Definition s_write (h : Z) (data : list byte) (o : overlapped) (k : system) : (bool * Z) * system :=
  match handles k !! h with
  | None => ((false, 0), k)
  | Some i => let '(m, k') := limited (length data) k in
              let at_ := at_position o in
              let filled := content_of k i ++ replicate (Z.to_nat (at_ - size (content_of k i))) xaa in
              if (m =? 0)%nat then ((false, 0), with_content i (write_at filled at_ [x58]) k')
              else ((true, Z.of_nat m), with_content i (write_at filled at_ (take m data)) k')
  end.
#[global] Instance system_win32 : win32 system := {|
  create_file _ _ k := (INVALID_HANDLE_VALUE, k);
  close_handle h k := (true, Mk (delete h (handles k)) (pointers k) (contents k) (plan k));
  get_file_size_ex h k := ((true, match handles k !! h with Some i => size (content_of k i) | None => 0 end), k);
  read_file := s_read;
  write_file := s_write;
  set_file_pointer_ex h pos k :=
    if pos <? 0 then (false, k) else (true, Mk (handles k) (<[h := pos]> (pointers k)) (contents k) (plan k));
  set_end_of_file h k :=
    match handles k !! h with
    | Some i =>
        let n := default 0 (pointers k !! h) in
        if n <? 0 then (false, k)
        else (true, with_content i (take (Z.to_nat n) (content_of k i ++ replicate (Z.to_nat (n - size (content_of k i))) xaa)) k)
    | None => (false, k)
    end;
  flush_file_buffers _ k := (true, k);
  move_file_ex _ _ _ k := (true, k);
  get_last_error _ := 38
|}.
Lemma limited_spec n k : let '(m, k') := limited n k in
  (m ≤ n)%nat ∧ handles k' = handles k ∧ ∀ i, content_of k' i = content_of k i.
Proof. unfold limited. destruct (plan k) as [|m l]; split_and!; try done; lia. Qed.
Lemma content_with i c k j : content_of (with_content i c k) j = if decide (i = j) then c else content_of k j.
Proof. unfold content_of, with_content. simpl. rewrite lookup_insert. by case_decide. Qed.
#[global] Program Instance system_laws : win32_laws system := {|
  handle_file := handles; file_pointer k h := default 0 (pointers k !! h); file_bytes := content_of |}.
Next Obligation. intros h i k Hi. simpl. rewrite Hi. by split. Qed.
Next Obligation.
  intros h i n o k Hi Hn. simpl. unfold s_read. rewrite Hi. pose proof (limited_spec (Z.to_nat n) k) as Hl.
  destruct (limited (Z.to_nat n) k) as [m k']. destruct Hl as (Hm & Hh & Hc). split; [done|]. intros _.
  eexists (take (Z.to_nat n - m) (drop m _)). rewrite take_take_drop. f_equal. lia.
Qed.
Next Obligation.
  intros h i data o k Hi Hd. simpl. unfold s_write. rewrite Hi. pose proof (limited_spec (length data) k) as Hl.
  destruct (limited (length data) k) as [m k']. destruct Hl as (Hm & Hh & Hc).
  set (filled := content_of k i ++ _).
  assert (∀ part, part ≠ [] → placed (content_of k i) (at_position o) part (write_at filled (at_position o) part)) as Hp.
  { intros [|b l] Hne; [done|]. eexists. split; [|reflexivity]. unfold size. rewrite length_replicate. lia. }
  assert (∀ c, handles (with_content i c k') = handles k ∧ content_of (with_content i c k') i = c ∧
    ∀ j, j ≠ i → content_of (with_content i c k') j = content_of k j) as Hmod.
  { intros c. split_and!; [done|by rewrite content_with, decide_True|]. intros j Hj. by rewrite content_with, decide_False. }
  destruct (Nat.eqb_spec m 0) as [->|Hne]; cbn [negb orb].
  - destruct (Hmod (write_at filled (at_position o) [x58])) as (H1 & H2 & H3). rewrite H2.
    split; [by split_and!|]. exists [x58]. split; [unfold size in *; simpl; lia|by apply Hp].
  - destruct (Hmod (write_at filled (at_position o) (take m data))) as (H1 & H2 & H3). rewrite H2.
    split; [by split_and!|]. destruct (Z.eqb_spec (Z.of_nat m) 0); [lia|]. rewrite Nat2Z.id.
    split; [unfold size; lia|]. apply Hp. intros E%(f_equal length). rewrite length_take in E. simpl in E. lia.
Qed.
Next Obligation.
  intros h i pos k Hi. simpl. destruct (Z.ltb_spec pos 0); [done|]. split; [done|]. intros _. split; [done|].
  simpl. by rewrite lookup_insert_eq.
Qed.
Next Obligation.
  intros h i k Hi. simpl. rewrite Hi. set (n := default 0 (pointers k !! h)).
  destruct (Z.ltb_spec n 0).
  - split_and!; [done|done|done|apply kept_prefix|done].
  - rewrite !content_with, !decide_True by done. split_and!; [done|done| | |].
    + intros j Hj. by rewrite content_with, decide_False.
    + rewrite take_app. by apply prefix_app_r.
    + intros _. unfold size in *. rewrite length_take, length_app, length_replicate. lia.
Qed.
End Windows.

(** ** The properties at work *)
Definition some_system (plan : list nat) : Windows.system := Windows.Mk {[7 := 1]} ∅ {[1 := bytes_from 0 8]} plan.
Definition some_file : windows_file := WindowsFile "db/heap.wal" 7.
Lemma windows_file_keeps_the_contract_witness :
  let k := some_system [2; 1; 3; 0]%nat in
  (win_read_exact some_file 2 5 k).1 = Ok (bytes_from 2 5) ∧
  (win_append some_file (bytes_from 90 9) k).1 = Throw (storage_error "WriteFile failed for db/heap.wal (win32=38)") ∧
  file_bytes (win_append some_file (bytes_from 90 9) k).2 1 = bytes_from 0 8 ++ bytes_from 90 6 ++ [x58] ∧
  (∃ r k' m debris, win_append some_file (bytes_from 90 9) k = (r, k') ∧
     modifies 1 (file_bytes k 1 ++ take m (bytes_from 90 9) ++ debris) k k' ∧
     (m ≤ length (bytes_from 90 9))%nat ∧ size debris ≤ size (bytes_from 90 9) - Z.of_nat m ∧
     match r with
     | Ok n => n = size (file_bytes k 1) ∧ m = length (bytes_from 90 9) ∧ debris = []
     | Throw (storage_error _) => (m < length (bytes_from 90 9))%nat ∨ bytes_from 90 9 = []
     | Throw _ => False
     end) ∧
  (∃ r k', win_truncate some_file 3 k = (r, k') ∧
     modifies 1 (file_bytes k' 1) k k' ∧ take (Z.to_nat 3) (file_bytes k 1) `prefix_of` file_bytes k' 1 ∧
     match r with
     | Ok _ => size (file_bytes k' 1) = 3
     | Throw (storage_error _) => True
     | Throw _ => False
     end).
Proof.
  set (k := some_system [2; 1; 3; 0]%nat). destruct (windows_file_keeps_the_contract some_file 1 k) as (_ & _ & Ha & Ht); [reflexivity|].
  do 3 (split; [vm_compute; reflexivity|]). split; [apply Ha; apply Z.ltb_lt; reflexivity|apply Ht; lia].
Defined.

(** A file that is shorter than the range is an error of the storage on Windows and a corruption on
    POSIX. *)
Lemma short_file_is_no_corruption :
  (win_read_exact some_file 6 5 (some_system [])).1 = Throw (storage_error "ReadFile failed for db/heap.wal (win32=38)") ∧
  (native_read_exact 10 wal_file 6 5 (flaky [])).1 = Throw (corruption_error "unexpected EOF while reading db/heap.wal").
Proof. split; vm_compute; reflexivity. Qed.
