(* ===== verification/Workers.v ===== *)
(** * Threads whose programs are known: what their steps show.

    A program with threads of its own is modelled by workers beside the threads of file Concurrency: a
    worker makes calls and hears of the events of its thread.  Here is what such a worker can rely on
    from the form of the sections alone. *)
From S2P Require Import Prelude.
From S2P Require Import Binary.
From S2P Require Import OrderedMap.
From S2P Require Import Value.
From S2P Require Import Observer.
From S2P Require Import ObserverSpec.
From S2P Require Import Storage.
From S2P Require Import Journal.
From S2P Require Import Cache.
From S2P Require Import Heap.
From S2P Require Import Snapshot.
From S2P Require Import Concurrency.
From S2P Require Import ConcurrencySpec.
From S2P Require Import ConcurrencyInvariant.
From S2P Require Import ConcurrencyTheorems.
From S2P Require Import HeapSpec.
From S2P Require Import Transaction.
From S2P Require Import TransactionSpec.
From S2P Require Import Sessions.
From S2P Require Import CacheFrames.
From S2P Require Import Cli.
#[local] Open Scope Z_scope.

(** The thread of an event that the heap brings about. *)
Definition heard_by (e : event) : option nat :=
  match e with
  | Stepped i | Committed i _ | LoadEnded i _ _ | Ended i _ | Saved i | Verified i _ => Some i
  | _ => None
  end.

(** ** What a section leaves alone *)
Section sections.
Context {W : Type} `{storage W}.
Implicit Types (p : section) (s : heap_state * W).
Lemma section_next p s : hs_next_transaction (run_section p s).2.1 = hs_next_transaction s.1.
Proof.
  destruct s as [h w].
  destruct p as [| | | | | | | |[|u us] [|l ls]| | | | | | | | | | |[|r rs] recovered]; cbn [run_section];
    unfold ends, load_uncached, publish_one, mbind, M_bind, state, on_fst, on_snd, get, update, modify, on_cache, on_wal, catch, throw, mret, M_ret;
    repeat (simpl; case_match; simplify_eq); unfold on_fst in *; by simplify_eq.
Qed.
Lemma ends_cases' {A} (m : heap (W:=W) A) next failed s :
  (∃ a, (ends m next failed s).1 = next a) ∨ ∃ e, (ends m next failed s).1 = failed e.
Proof. unfold ends. destruct (m s) as [[a|e] s']; [left|right]; by eexists. Qed.
(** A call that is no check stays none and comes closer to its end, and its end is an event. *)
Record goes (i : nat) (p : section) (o : outcome) : Prop := {
  go_checks : checks (next_section o) = false;
  go_report report : o ≠ Reported_ report;
  go_rank : (rank (next_section o) < rank p)%nat;
  go_end : next_section o = Idle → (∃ r, event_of i p o = Ended i r) ∨ ∃ n r, event_of i p o = LoadEnded i n r
}.
Lemma section_goes i p s : p ≠ Idle → checks p = false → goes i p (run_section p s).1.
Proof.
  intros Hne Hp. assert (rank (next_section (run_section p s).1) < rank p)%nat as Hrank.
  { destruct (run_section_closer p s Hne) as [[?|[_ Hu]] _]; [done|]. destruct p; cbn [unread] in Hu; (lia || done). }
  assert (let o := (run_section p s).1 in (checks (next_section o) = false ∧ ∀ report, o ≠ Reported_ report) ∧
    (next_section o = Idle → (∃ r, event_of i p o = Ended i r) ∨ ∃ n r, event_of i p o = LoadEnded i n r)) as [[Hc Hr] He];
    [|by split].
  clear Hrank. destruct p as [| | | | | | | |[|u us] [|l ls]| | | | | | | | | | |]; try done; cbn [run_section];
    try match goal with |- context [ends (W:=W) ?m ?f ?g s] => destruct (ends_cases' m f g s) as [[? ->]|[? ->]] end;
    simpl; unfold look, validate; repeat case_match; simpl; try done; (split; [by split|]); intros ?; try done; eauto.
Qed.
Lemma event_heard i p o : heard_by (event_of i p o) = Some i.
Proof. destruct p, o; done. Qed.

(** *** What a step shows of its thread *)
Lemma step_began (s s' : system W) i tx :
  step s (Began i tx) s' → tx = hs_next_transaction (sy_heap s) ∧ sy_threads s' = sy_threads s ∧
    hs_next_transaction (sy_heap s') = u64 (hs_next_transaction (sy_heap s) + 1).
Proof.
  remember (Began i tx) as e eqn:Ee. intros Hs. destruct Hs as [|h w threads j q o h' w' Hq Hne Hrun E|h w threads j tx' h' w' Hq E|]; try done.
  - apply (f_equal heard_by) in Ee. by rewrite event_heard in Ee.
  - injection Ee as -> ->. revert E. unfold begin, mbind, M_bind, state, update, on_fst, get, modify. simpl.
    destruct (hs_closed h); [done|]. by intros [= <- <- <-].
Qed.
Lemma step_called (s s' : system W) i c :
  step s (Called i c) s' → s' = System (sy_heap s) (sy_store s) (<[i := entry c]> (sy_threads s)).
Proof.
  remember (Called i c) as e eqn:Ee. intros Hs. destruct Hs as [h w threads j c' Hq|h w threads j q o h' w' Hq Hne Hrun E| |]; try done.
  - by injection Ee as -> ->.
  - apply (f_equal heard_by) in Ee. by rewrite event_heard in Ee.
Qed.
(** A step of a thread that is in the middle of a call. *)
Lemma step_heard (s s' : system W) e i :
  heard_by e = Some i → step s e s' →
  ∃ q o, sy_threads s !! i = Some q ∧ q ≠ Idle ∧ e = event_of i q o ∧ sy_threads s' = <[i := next_section o]> (sy_threads s) ∧
    hs_next_transaction (sy_heap s') = hs_next_transaction (sy_heap s) ∧ (checks q = false → goes i q o).
Proof.
  intros Hh Hs. destruct Hs as [| h w threads j q o h' w' Hq Hne Hrun E| |]; try done.
  rewrite event_heard in Hh. injection Hh as ->. exists q, o. pose proof (section_next q (h, w)) as Hn.
  pose proof (section_goes i q (h, w) Hne) as Hg. rewrite E in Hn, Hg. by split_and!.
Qed.
Lemma end_is_idle i q o j r : event_of i q o = Ended j r → next_section o = Idle.
Proof. destruct q, o; try done. Qed.
Lemma load_end_is_idle i q o j n r : event_of i q o = LoadEnded j n r → next_section o = Idle.
Proof. destruct q, o; try done. Qed.
Lemma reported_event i q o j report : event_of i q o = Verified j report → o = Reported_ report.
Proof. destruct q, o; try done; by intros [= _ ->]. Qed.
End sections.


(** ** What a worker hands to its commit *)

(** The updates of a transaction [tx] that has loaded one root as an object, and edited it. *)
Definition changed_root (self tx : Z) (name : string) (e : edit) (r : result loaded_root) : result (list root_update) :=
  loaded ← r;
  v ← decode_root loaded;
  Ok (updates_of (mutate 1 (run_edit e) (mutate 1 as_object (add_root name loaded v (Transaction self tx true [] ∅))))).
(** The next version of a root, with another content. *)
Definition next_update (A : amap) (name : string) (v : value) : root_update :=
  RootUpdate name (version_in A name) (version_in A name + 1) value_type_name (stored v).
Lemma changed_root_run self tx A name e v :
  root_value A name = Ok v → 0 ≤ version_in A name < u64_bound - 1 →
  let v' := apply_edit e (apply_edit e_as_object v) in
  v' ≠ v → changed_root self tx name e (load_result A name) = Ok [next_update A name v'].
Proof.
  intros Hv Hver v' Hne. set (h := HeapState (default_config "") 0 (new_cache 0) ∅ tx false false 0).
  destruct (edited_start self h A name v) as [r0 Hr0].
  destruct (edited_edit self h _ _ _ _ _ _ e_as_object Hr0) as (t1 & r1 & E1 & Hr1).
  destruct (edited_edit self h _ _ _ _ _ _ e Hr1) as (t2 & r2 & E2 & Hr2). fold v' in Hr2.
  unfold root_value in Hv. unfold changed_root. destruct (load_result A name) as [loaded|err] eqn:El; [|done].
  cbn [mbind result_bind] in Hv |- *. rewrite Hv. cbn [mbind result_bind].
  assert (add_root name loaded v (Transaction self tx true [] ∅) = loaded_transaction self h A name v) as ->.
  { unfold loaded_transaction. unfold load_result in El. destruct (A !! name) as [a|] eqn:Ea; simpl.
    - case_bool_decide; [|done]. by injection El as <-.
    - by injection El as <-. }
  change (mutate 1 as_object) with (mutate 1 (run_edit e_as_object)). rewrite E1, E2. f_equal.
  destruct Hr2 as [-> _ Hn Hx Hc Hd].
  assert (wr_dirty r2 = true) as Hdirty by (destruct (wr_dirty r2); [done|by destruct Hne; apply Hd]).
  unfold updates_of. simpl. rewrite filter_cons, decide_True by done. simpl. unfold update_of, next_update, stored.
  rewrite Hn, Hx, Hc. by rewrite u64_small by (unfold is_u64; lia).
Qed.

(** ** What a section can add to the cache *)
Lemma section_counted {W : Type} `{storage W} limit n p (s : heap_state * W) :
  counted limit n (hs_cache s.1) → n + 1 < u64_bound → counted limit (n + 1) (hs_cache (run_section p s).2.1).
Proof.
  intros Hc Hn. pose proof (counted_more _ _ (n + 1) _ Hc ltac:(lia)) as Hc1.
  assert (∀ A (m : heap (W:=W) A) next failed, keeps (counted limit (n + 1)) m → counted limit (n + 1) (hs_cache (ends m next failed s).2.1)) as Hends.
  { intros A m next failed Hm. specialize (Hm s Hc1). unfold ends. by destruct (m s) as [[a|e] s']. }
  destruct s as [h w]. destruct p as [|name|name record|name|tx us|tx us|tx us|us ls|[|u us] [|l ls]| | | | | | |image|image|image k t|image k t m|[|r rs] recovered];
    cbn [run_section] in *; try done; try (by case_match); try (apply Hends; solve [auto 20 with keeps]).
  - unfold ends, on_cache. destruct (get_counted limit n (hs_cache h) name (rr_version record) Hc) as (x & c & -> & Hc' & _).
    apply (counted_more _ n); [done|lia].
  - unfold ends. destruct (load_uncached name (h, w)) as [[a|e] [h' w']] eqn:E; by eapply load_uncached_counted in E as [? _].
  - unfold ends, publish_one, update, mbind, M_bind, on_fst, modify, on_cache. cbn [hs_cache set_roots].
    destruct (put_counted limit n (hs_cache h) (u_name u) (u_new u) (u_payload u) Hc Hn) as (c' & -> & Hc' & _). done.
Qed.
Lemma step_counted {W : Type} `{storage W} limit n (s s' : system W) e :
  counted limit n (hs_cache (sy_heap s)) → n + 1 < u64_bound → step s e s' → counted limit (n + 1) (hs_cache (sy_heap s')).
Proof.
  intros Hc Hn Hs. pose proof (counted_more _ n (n + 1) _ Hc ltac:(lia)) as Hc1.
  destruct Hs as [h w threads i c Hq|h w threads i q o h' w' Hq Hne Hrun E|h w threads i tx h' w' Hq E|h w threads h' w' E]; [done| | |].
  - pose proof (section_counted limit n q (h, w) Hc Hn) as Hs. by rewrite E in Hs.
  - revert E. unfold begin, mbind, M_bind, state, update, on_fst, get, modify. destruct (hs_closed h); [done|]. by intros [= _ <- _].
  - revert E. unfold close, update, on_fst, modify. by intros [= <- _].
Qed.
