(* ===== verification/Storm.v ===== *)
(** * Threads that race for one root: [stress/scenarios/conflict_storm.cpp].

    Every worker thread increments a counter in the heap so many times, each time trying again
    until its commit does not conflict.  The heap runs as in file Concurrency, cut into sections
    between its locks; a worker stands beside its thread and says what it does next.  *)
From S2P Require Import Prelude.
From S2P Require Import Binary.
From S2P Require Import OrderedMap.
From S2P Require Import Value.
From S2P Require Import Observer.
From S2P Require Import ObserverSpec.
From S2P Require Import Storage.
From S2P Require Import Journal.
From S2P Require Import Heap.
From S2P Require Import Concurrency.
From S2P Require Import Transaction.
From S2P Require Import Cli.
From S2P Require Import Credentials.
From S2P Require Import Fuzz.
From S2P Require Import Fault.
From S2P Require Import Workers.
#[local] Open Scope Z_scope.

(** ** A worker *)

(** [root["n"] = current + 1] on the root that [load] gave, and what the commit hands to the heap. *)
Definition increment (self tx : Z) (r : result loaded_root) : result (list root_update) :=
  loaded ← r;
  v ← decode_root loaded;
  let t := mutate 1 as_object (add_root "root" loaded v (Transaction self tx true [] ∅)) in
  match data_of 1 t with
  | None => Throw (undefined "no such reference")
  | Some root =>
      x ← entry_at "n" (object_content root);
      current ← as_integer x;
      if current =? 2 ^ 63 - 1 then Throw (undefined "signed overflow")
      else Ok (updates_of (mutate 1 (run_edit (e_key "n" (e_integer (current + 1)))) t))
  end.

(** Where a worker stands, with the increments it has left. *)
Inductive worker :=
| Attempting (todo : Z)
| Asking (todo tx : Z)
| Loading (todo tx : Z)
| Changing (todo tx : Z) (updates : list root_update)
| Committing (todo tx : Z)
| Broken (e : error).
(** The call it makes next, and where it waits for the end of it. *)
Definition asks (w : worker) : option (call * worker) :=
  match w with
  | Asking todo tx => Some (CallLoad "root", Loading todo tx)
  | Changing todo tx updates => Some (CallCommit tx updates, Committing todo tx)
  | _ => None
  end.
(** What it makes of an event of its thread, and the successes and the conflicts it counts. *)
Definition hears (self : Z) (e : event) (w : worker) : worker * Z * Z :=
  match e with
  | Stepped _ | Committed _ _ | Saved _ => (w, 0, 0)
  | LoadEnded _ _ r =>
      match w with
      | Loading todo tx =>
          match increment self tx r with
          | Ok updates => (Changing todo tx updates, 0, 0)
          | Throw e => (Broken e, 0, 0)
          end
      | _ => (Broken (undefined "no load to end"), 0, 0)
      end
  | Ended _ r =>
      match w, r with
      | Committing todo _, Ok _ => (Attempting (todo - 1), 1, 0)
      | Committing todo _, Throw (conflict_error _) => (Attempting todo, 0, 1)
      | Committing _ _, Throw e => (Broken e, 0, 0)
      | _, _ => (Broken (undefined "no commit to end"), 0, 0)
      end
  | _ => (Broken (undefined "no such call"), 0, 0)
  end.
(** ** The threads together *)
Section storm.
Context {W : Type} `{storage W} (self : nat → Z).
Record storm := Storm {
  st_system : system W;
  st_workers : list worker;
  st_successes : Z;
  st_conflicts : Z
}.
Inductive storm_step : storm → storm → Prop :=
| storm_begins s s' workers successes conflicts i todo tx :
    workers !! i = Some (Attempting todo) → 0 < todo → step s (Began i tx) s' →
    storm_step (Storm s workers successes conflicts) (Storm s' (<[i := Asking todo tx]> workers) successes conflicts)
| storm_calls s s' workers successes conflicts i x c x' :
    workers !! i = Some x → asks x = Some (c, x') → step s (Called i c) s' →
    storm_step (Storm s workers successes conflicts) (Storm s' (<[i := x']> workers) successes conflicts)
| storm_runs s s' workers successes conflicts i x e x' more_successes more_conflicts :
    heard_by e = Some i → workers !! i = Some x → step s e s' →
    hears (self i) e x = (x', more_successes, more_conflicts) →
    storm_step (Storm s workers successes conflicts)
      (Storm s' (<[i := x']> workers) (successes + more_successes) (conflicts + more_conflicts)).
(** All threads have been joined. *)
Definition joined (s : storm) : Prop :=
  Forall (λ x, x = Attempting 0) (st_workers s) ∧ Forall (λ q, q = Idle) (sy_threads (st_system s)).

(** ** The scenario around them *)
Definition thread_count (scale : Z) : Z := u32 (4 * scale).
Definition increments_per_thread (scale : Z) : Z := u32 (200 * scale).
Definition storm_seed (seeder : Z) (directory : string) : M W heap_state :=
  h ← heap_open (default_config directory);
  with_local h (_ ← in_session seeder (_ ← write_n "root" 0; transaction_commit); state).
Definition storm_start (scale : Z) (h : heap_state) (w : W) : storm :=
  let n := Z.to_nat (thread_count scale) in
  Storm (System h w (replicate n Idle)) (replicate n (Attempting (increments_per_thread scale))) 0 0.
Definition storm_checks (reader scale successes : Z) : heap (W:=W) unit :=
  n ← in_session reader (read_n "root");
  _ ← check (n =? to_signed 64 (u64 successes)) "lost or double-applied update under contention";
  _ ← check (u64 successes =? u64 (thread_count scale * increments_per_thread scale)) "not every increment eventually succeeded";
  report ← integrity;
  check (ir_ok report) "heap failed integrity check after contention".

(** ** A scheduler, for concrete runs: a thread does what comes next for it *)
Definition storm_act (i : nat) (s : storm) : option storm :=
  let '(Storm sys workers successes conflicts) := s in
  x ← workers !! i;
  match x with
  | Attempting todo =>
      match sy_threads sys !! i, begin (sy_heap sys, sy_store sys) with
      | Some Idle, (Ok tx, (h, w)) =>
          if 0 <? todo
          then Some (Storm (System h w (sy_threads sys)) (<[i := Asking todo tx]> workers) successes conflicts)
          else None
      | _, _ => None
      end
  | _ =>
      match asks x with
      | Some (c, x') =>
          '(_, sys') ← act (DoCall i c) sys; Some (Storm sys' (<[i := x']> workers) successes conflicts)
      | None =>
          '(e, sys') ← act (DoStep i) sys;
          let '(x', a, b) := hears (self i) e x in
          if bool_decide (heard_by e = Some i)
          then Some (Storm sys' (<[i := x']> workers) (successes + a) (conflicts + b)) else None
      end
  end.
Fixpoint storm_play (schedule : list nat) (s : storm) : option storm :=
  match schedule with
  | [] => Some s
  | i :: schedule => s' ← storm_act i s; storm_play schedule s'
  end.
End storm.
Arguments Storm {W} _ _ _ _.
Arguments storm : clear implicits.
