(* ===== verification/StormTheorems.v ===== *)
(** * What threads that race for one root leave behind.

    [conflict_storm_counts]: however the threads of the scenario interleave, no worker fails but by
    a conflict, and when all have been joined, the counter is the number of increments. *)
From stdpp Require Import functions.
From S2P Require Import Prelude.
From S2P Require Import Binary.
From S2P Require Import OrderedMap.
From S2P Require Import Value.
From S2P Require Import Observer.
From S2P Require Import ObserverSpec.
From S2P Require Import Codec.
From S2P Require Import Storage.
From S2P Require Import Journal.
From S2P Require Import Recovery.
From S2P Require Import Snapshot.
From S2P Require Import SnapshotImage.
From S2P Require Import Cache.
From S2P Require Import Heap.
From S2P Require Import HeapSpec.
From S2P Require Import Concurrency.
From S2P Require Import ConcurrencySpec.
From S2P Require Import ConcurrencyInvariant.
From S2P Require Import Transaction.
From S2P Require Import TransactionSpec.
From S2P Require Import HeapTheorems.
From S2P Require Import ConcurrencyTheorems.
From S2P Require Import TransactionTheorems.
From S2P Require Import Sessions.
From S2P Require Import CacheFrames.
From S2P Require Import Cli.
From S2P Require Import Credentials.
From S2P Require Import CredentialsSpec.
From S2P Require Import Fuzz.
From S2P Require Import Fault.
From S2P Require Import FaultTheorems.
From S2P Require Import Workers.
From S2P Require Import Storm.
#[local] Open Scope Z_scope.

(** ** One increment *)

(** From version [i] of the root, which holds [i - 1], to the next. *)
Definition bump (i : Z) : root_update := RootUpdate "root" i (i + 1) value_type_name (stored (counted i)).
Lemma bump_history i : 1 ≤ i → a_commit [bump i] (history i) = history (i + 1).
Proof. intros Hi. rewrite <- history_next by lia. unfold with_root. by rewrite history_version. Qed.
Lemma bump_matches i k : versions_match (history k) [bump i] → k = i.
Proof. intros Hm. apply Forall_inv in Hm. simpl in Hm. by rewrite <- (history_version k). Qed.

Section increment.
Context (self : Z).
Lemma edited_updates h k t r :
  0 ≤ k < 2 ^ 32 → edited self h (history k) "root" (latest k) t r (counted k) → updates_of t = [bump k].
Proof.
  intros Hk [-> _ Hn Hx Hc Hd].
  assert (wr_dirty r = true) as Hdirty by (destruct (wr_dirty r); [done|by apply latest_ne in Hd]).
  unfold updates_of. simpl. rewrite filter_cons, decide_True by done. simpl. unfold update_of, bump, stored.
  rewrite Hn, Hx, Hc, history_version. by rewrite u64_small by (unfold is_u64, u64_bound; lia).
Qed.
(** Whatever version of the root [load] returns, the worker writes the next one. *)
Lemma increment_run tx k : 1 ≤ k < 2 ^ 32 → increment self tx (load_result (history k) "root") = Ok [bump k].
Proof.
  intros Hk. set (h := HeapState (default_config "") 0 (new_cache 0) ∅ tx false false 0).
  destruct (edited_start self h (history k) "root" (latest k)) as [r0 Hr0].
  destruct (edited_edit self h _ _ _ _ _ _ e_as_object Hr0) as (t1 & r1 & E1 & Hr1).
  destruct (edited_edit self h _ _ _ _ _ _ (e_key "n" (e_integer k)) Hr1) as (t2 & r2 & E2 & Hr2).
  rewrite latest_next in Hr2.
  assert (load_result (history k) "root" =
    Ok (LoadedRoot k (Some (stored (counted (k - 1)))) true)) as El.
  { unfold load_result, history. destruct (Z.eqb_spec k 0); [lia|]. by rewrite lookup_singleton_eq. }
  pose proof (history_root k ltac:(lia)) as Hv. unfold root_value in Hv. rewrite El in Hv |- *. unfold mbind, result_bind in Hv.
  assert (add_root "root" (LoadedRoot k (Some (stored (counted (k - 1)))) true) (latest k) (Transaction self tx true [] ∅) =
    loaded_transaction self h (history k) "root" (latest k)) as Et.
  { unfold loaded_transaction. fold (version_in (history k) "root"). rewrite history_version.
    unfold history. destruct (Z.eqb_spec k 0); [lia|]. by rewrite lookup_singleton_eq. }
  unfold increment, mbind, result_bind. rewrite Hv, Et. change (mutate 1 as_object) with (mutate 1 (run_edit e_as_object)).
  rewrite E1, (edited_data _ _ _ _ _ _ _ _ Hr1).
  assert (apply_edit e_as_object (latest k) = counted (k - 1)) as -> by (unfold latest; destruct (Z.eqb_spec k 0); [lia|done]).
  change (entry_at "n" (object_content (counted (k - 1)))) with (Ok (VInteger (k - 1))). cbn [as_integer].
  destruct (Z.eqb_spec (k - 1) (2 ^ 63 - 1)); [lia|]. rewrite Z.sub_add, E2.
  f_equal. eapply edited_updates; [lia|done].
Qed.
End increment.

(** ** The heap the threads start on *)
Section seed.
Context {W : Type} `{HW : storage_reliable W} (self : Z).
Lemma commit_inside t t' (h h' : heap_state) (w w' : W) :
  transaction_commit (t, (h, w)) = (Ok tt, (t', (h', w'))) → commit (tr_id t) (updates_of t) (h, w) = (Ok tt, (h', w')).
Proof.
  unfold transaction_commit, mbind, M_bind, on_fst, on_snd, get, modify. destruct (negb (tr_active t)); [done|].
  destruct (commit _ _ _) as [[[]|e] [h1 w1]]; [|done]. by intros [= _ <- <-].
Qed.
Lemma storm_seed_run directory (w : W) :
  let config := default_config directory in
  directory ≠ "" → file_of w (wal_path config) = None → file_of w (snap_path config) = None → reliable w →
  ∃ h w1, storm_seed self directory w = (Ok h, w1) ∧ in_service config h w1 (history 1) ∅ ∧
    0 ≤ hs_wal_sequence h ≤ 3 ∧ hs_next_transaction h = 2 ∧ coherent (ever [history 1]) (hs_cache h).
Proof.
  intros config Hd Hw Hs Hrel.
  destruct (fresh_in_service config w Hd ltac:(done) Hw Hs Hrel) as (h & w1 & E1 & Hs1 & Hq & Hn & Hcache).
  assert (hs_roots h !! "root" = None) as Hno.
  { pose proof (readable_inv _ _ _ _ _ (proj1 Hs1) "root") as Hr. rewrite lookup_empty in Hr. by inversion Hr. }
  destruct (write_n_loaded self h ∅ "root" 0 VNull (begun h, w1) (begun h, w1)) as (t & r & E2 & He); [by apply root_absent|].
  change (edited self h (history 0) "root" (latest 0) t r (counted 0)) in He.
  destruct (edited_commit config self h w1 (history 0) ∅ "root" _ t r _ (hs_cache h) He (in_service_begun _ _ _ _ _ Hs1)
    (history_storable 0 h ltac:(lia) ltac:(lia) Hn)) as (t' & h' & w' & A' & p' & E3 & Hs' & Hp & HA & Hq' & Hn').
  change (set_cache (hs_cache h) (begun h)) with (begun h) in E3.
  assert (p' = ∅) as -> by by destruct Hp. assert (A' = history 1) as ->.
  { destruct HA as [[_ E]| ->]; [by apply latest_ne in E|by apply (history_next 0)]. }
  exists h', w'. split_and!; [|done|lia|lia|by rewrite Hn', Hn|].
  - unfold storm_seed. fold config. m_run E1. unfold with_local.
    assert (in_session self (_ ← write_n "root" 0; transaction_commit) (h, w1) = (Ok tt, (h', w'))) as E.
    { rewrite (in_session_spec _ _ _ _ _ _ _ Hs1). m_run E2. unfold fst, snd. by rewrite E3. }
    by m_run E.
  - pose proof (keeps_commit (coherent (ever [history 1])) (ever [history 1]) (tr_id t) (updates_of t)) as Hk.
    specialize (Hk ltac:(rewrite (edited_updates self h 0 t r ltac:(lia) He); constructor; [|done];
      exists (history 1); eexists; split_and!; [by left|by apply lookup_singleton_eq|done|done]) (begun h, w1)).
    rewrite (commit_inside _ _ _ _ _ _ E3) in Hk. apply Hk. simpl. rewrite Hcache. by apply new_cache_coherent.
Qed.
End seed.

(** ** Sums over the workers *)
Fixpoint sum_workers (f : nat → worker → Z) (l : list worker) : Z :=
  match l with [] => 0 | x :: l => f O x + sum_workers (λ j, f (S j)) l end.
Lemma sum_workers_le f g l : (∀ j x, l !! j = Some x → f j x ≤ g j x) → sum_workers f l ≤ sum_workers g l.
Proof.
  revert f g. induction l as [|x l IH]; intros f g Hl; simpl; [done|]. pose proof (Hl O x eq_refl).
  pose proof (IH (λ j, f (S j)) (λ j, g (S j)) (λ j y, Hl (S j) y)). lia.
Qed.
Lemma sum_workers_constant c l : sum_workers (λ _ _, c) l = Z.of_nat (length l) * c.
Proof. induction l as [|x l IH]; cbn [sum_workers length]; [done|]. rewrite IH. lia. Qed.
Lemma sum_workers_plus f c l : sum_workers (λ j x, f j x + c) l = sum_workers f l + Z.of_nat (length l) * c.
Proof. revert f. induction l as [|x l IH]; intros f; cbn [sum_workers length]; [done|]. rewrite (IH (λ j, f (S j))). lia. Qed.
(** One worker has changed, and the part of each other one has grown by at most [c]. *)
Lemma sum_workers_change f g c i x y l :
  l !! i = Some x → 0 ≤ c → (∀ j z, j ≠ i → g j z ≤ f j z + c) →
  sum_workers g (<[i := y]> l) ≤ sum_workers f l - f i x + g i y + Z.of_nat (length l) * c.
Proof.
  revert f g i. induction l as [|z l IH]; intros f g [|i] Hi Hc Hg; try done; simpl in Hi.
  - injection Hi as ->. change (<[O:=y]> (x :: l)) with (y :: l). cbn [sum_workers length]. rewrite Nat2Z.inj_succ.
    pose proof (sum_workers_le (λ j, g (S j)) (λ j z, f (S j) z + c) l ltac:(intros j z _; by apply Hg)) as Hle.
    pose proof (sum_workers_plus (λ j, f (S j)) c l). cbn beta in *. lia.
  - change (<[S i:=y]> (z :: l)) with (z :: <[i:=y]> l). cbn [sum_workers length]. rewrite Nat2Z.inj_succ.
    pose proof (Hg O z ltac:(done)).
    pose proof (IH (λ j, f (S j)) (λ j, g (S j)) i Hi Hc ltac:(intros j u Hj; apply Hg; congruence)). lia.
Qed.
Lemma sum_workers_update f g i x y l :
  l !! i = Some x → (∀ j z, j ≠ i → g j z = f j z) → sum_workers g (<[i := y]> l) = sum_workers f l - f i x + g i y.
Proof.
  intros Hi Hg. pose proof (sum_workers_change f g 0 i x y l Hi ltac:(done) ltac:(intros j z Hj; rewrite Hg by done; lia)).
  assert (<[i := y]> l !! i = Some y) as Hy by (apply list_lookup_insert_eq; by eapply lookup_lt_Some).
  pose proof (sum_workers_change g f 0 i y x _ Hy ltac:(done) ltac:(intros j z Hj; rewrite Hg by done; lia)) as Hle.
  rewrite list_insert_insert_eq, list_insert_id in Hle by done. lia.
Qed.

(** ** The invariant *)
Definition todo_of (x : worker) : Z :=
  match x with
  | Attempting todo | Asking todo _ | Loading todo _ | Changing todo _ _ | Committing todo _ => todo
  | Broken _ => 0
  end.
(** The increment of a worker that has taken place, but whose end it has not seen. *)
Definition applied (v : view) (j : nat) (x : worker) : Z :=
  match x with Committing _ _ => if v_applied v j then 1 else 0 | _ => 0 end.
(** The worker of thread [j], before the section [q], when the root has version [k]. *)
Definition worker_ok (v : view) (k : Z) (j : nat) (q : section) (x : worker) : Prop :=
  match x with
  | Attempting todo => 0 ≤ todo ∧ q = Idle
  | Asking todo tx => 0 < todo ∧ is_u64 tx ∧ q = Idle
  | Loading todo tx =>
      0 < todo ∧ is_u64 tx ∧ q ≠ Idle ∧ checks q = false ∧ v_call v j = Some (CallLoad "root") ∧
      v_applied v j = false ∧ head (v_seen v j) = Some (v_map v)
  | Changing todo tx updates => 0 < todo ∧ is_u64 tx ∧ q = Idle ∧ ∃ b, 1 ≤ b ≤ k ∧ updates = [bump b]
  | Committing todo tx =>
      0 < todo ∧ q ≠ Idle ∧ checks q = false ∧ ∃ b, 1 ≤ b ≤ k ∧ v_call v j = Some (CallCommit tx [bump b])
  | Broken _ => False
  end.
Lemma worker_busy v k j q x :
  worker_ok v k j q x → q ≠ Idle → checks q = false ∧
    ((∃ todo tx, x = Loading todo tx) ∨ ∃ todo tx, x = Committing todo tx).
Proof.
  intros Hw Hq. destruct x as [todo|todo tx|todo tx|todo tx us|todo tx|err]; simpl in Hw;
    [by destruct Hw|by destruct Hw as (_ & _ & ?)| | | |done].
  - split; [apply Hw|]. left. by exists todo, tx.
  - by destruct Hw as (_ & _ & ? & _).
  - split; [apply Hw|]. right. by exists todo, tx.
Qed.

(** *** How far a worker is from its end *)

(** Its attempt rests on a version that is not the present one any more, and will conflict. *)
Definition old_update (k : Z) (updates : list root_update) : bool :=
  match updates with u :: _ => u_expected u <? k | [] => false end.
Definition stale (v : view) (k : Z) (j : nat) (x : worker) : bool :=
  match x with
  | Loading _ _ => (1 <? length (v_seen v j))%nat
  | Changing _ _ updates => old_update k updates
  | Committing _ _ =>
      negb (v_applied v j) && match v_call v j with Some (CallCommit _ updates) => old_update k updates | _ => false end
  | _ => false
  end.
(** The steps to the end if nobody else commits, but for the attempt after a conflict. *)
Definition distance (q : section) (x : worker) : Z :=
  match x with
  | Attempting todo => 18 * todo
  | Asking todo _ => 18 * (todo - 1) + 17
  | Loading todo _ => 18 * (todo - 1) + 12 + Z.of_nat (rank q)
  | Changing todo _ _ => 18 * (todo - 1) + 12
  | Committing todo _ => 18 * (todo - 1) + Z.of_nat (rank q)
  | Broken _ => 0
  end.
Definition effort (v : view) (k : Z) (j : nat) (q : section) (x : worker) : Z :=
  distance q x + (if stale v k j x then 18 else 0).
Lemma effort_nonneg v k j q x : worker_ok v k j q x → 0 ≤ effort v k j q x.
Proof.
  intros Hw. assert (0 ≤ distance q x); [destruct x; simpl in *; lia || done|]. unfold effort. destruct (stale v k j x); lia.
Qed.
Lemma effort_grows v k v' k' j q x : effort v' k' j q x ≤ effort v k j q x + 18.
Proof. unfold effort. destruct (stale v' k' j x), (stale v k j x); lia. Qed.

(** *** What the view says *)

(** Every map so far is one of the history up to the present version; [start] is the number of
    journal records at the beginning. *)
Record view_ok (start : Z) (v : view) (k : Z) : Prop := {
  vo_open : v_closed v = false;
  vo_low : 1 ≤ k;
  vo_map : v_map v = history k;
  vo_past B : B ∈ v_history v → ∃ b, 1 ≤ b ≤ k ∧ B = history b;
  vo_sequence : v_sequence v = start + 3 * (k - 1)
}.
Lemma view_ok_still start v k e :
  (∀ i us, e ≠ Committed i us) → e ≠ Closed → view_ok start v k → view_ok start (observe v e) k.
Proof. intros H1 H2 [? ? ? ? ?]. destruct e; try done. by destruct (H1 i updates). Qed.
Lemma view_ok_commit start v k i : view_ok start v k → view_ok start (observe v (Committed i [bump k])) (k + 1).
Proof.
  intros [Ho Hl Hm Hp Hs]. assert (a_commit [bump k] (v_map v) = history (k + 1)) as E by (rewrite Hm; by apply bump_history).
  split; try done; [lia| |].
  - intros B [->|HB]%elem_of_cons; [exists (k + 1); split; [lia|exact E]|]. destruct (Hp B HB) as (b & Hb & ->). exists b. split; [lia|done].
  - simpl. rewrite Hs. unfold size. simpl. lia.
Qed.
(** What changes for a thread when another one does something; [k'] is the version afterwards. *)
Record passive (v v' : view) (k k' : Z) (j : nat) : Prop := {
  pa_call : v_call v' j = v_call v j;
  pa_applied : v_applied v' j = v_applied v j;
  pa_seen : k' = k → v_seen v' j = v_seen v j;
  pa_head : head (v_seen v j) = Some (v_map v) → head (v_seen v' j) = Some (v_map v')
}.
Lemma passive_worker v v' k k' j q x :
  passive v v' k k' j → k ≤ k' → worker_ok v k j q x → worker_ok v' k' j q x.
Proof.
  intros [E1 E2 _ E3] Hk. destruct x; simpl; rewrite ?E1, ?E2; try done.
  - intros (? & ? & ? & ? & ? & ? & ?). split_and!; auto.
  - intros (? & ? & ? & b & ? & ?). split_and!; try done. exists b. split; [lia|done].
  - intros (? & ? & ? & b & ? & ?). split_and!; try done. exists b. split; [lia|done].
Qed.
Lemma passive_effort v v' k j q x : passive v v' k k j → effort v' k j q x = effort v k j q x.
Proof.
  intros [E1 E2 E3 _]. unfold effort. assert (stale v' k j x = stale v k j x) as ->; [|done].
  destruct x; simpl; by rewrite ?E1, ?E2, ?E3.
Qed.
Lemma observe_passive v e i k k' :
  (∃ c, e = Called i c) ∨ heard_by e = Some i → (∀ us, e = Committed i us → k' ≠ k) →
  ∀ j, j ≠ i → passive v (observe v e) k k' j.
Proof.
  intros He Hk j Hj. destruct He as [[c ->]|Hh]; [split; simpl; by rewrite ?fn_lookup_insert_ne|].
  destruct e as [| |m us| | | | | |]; try done; injection Hh as ->. split; simpl; try done.
  - by rewrite fn_lookup_insert_ne.
  - intros ->. by destruct (Hk us).
Qed.

Section storms.
Context {W : Type} `{HW : storage_reliable W} (config : heap_config) (self : nat → Z) (goal start : Z).
Context (Hgoal : goal < 2 ^ 32 - 1) (Hstart : 0 ≤ start ≤ 3).
Implicit Types (s : storm W) (v : view).
Definition room : Z := 2 ^ 40.
#[local] Abbreviation invariant := (inv (W:=W) config ∅ room).

Record storm_ok s v k : Prop := {
  so_inv : invariant (st_system s) v;
  so_next : is_u64 (hs_next_transaction (sy_heap (st_system s)));
  so_view : view_ok start v k;
  so_length : length (st_workers s) = length (sy_threads (st_system s));
  so_workers j x : st_workers s !! j = Some x → ∃ q, sy_threads (st_system s) !! j = Some q ∧ worker_ok v k j q x;
  so_applied : k = 1 + st_successes s + sum_workers (applied v) (st_workers s);
  so_todo : st_successes s + sum_workers (λ _, todo_of) (st_workers s) = goal
}.
Lemma storm_bound s v k : storm_ok s v k → k ≤ 1 + goal.
Proof.
  intros Hok. assert (sum_workers (applied v) (st_workers s) ≤ sum_workers (λ _, todo_of) (st_workers s)).
  { apply sum_workers_le. intros j x Hx. destruct (so_workers _ _ _ Hok j x Hx) as (q & _ & Hq).
    unfold applied. destruct x; simpl in *; try lia; try done. destruct (v_applied v j); lia. }
  pose proof (so_applied _ _ _ Hok). pose proof (so_todo _ _ _ Hok). lia.
Qed.
(** What is left to do: the efforts of the workers, and for each increment to come, an attempt of
    every worker that it makes stale. *)
Definition part_of s v k (j : nat) (x : worker) : Z := effort v k j (default Idle (sy_threads (st_system s) !! j)) x.
Definition measure s v k : Z :=
  sum_workers (part_of s v k) (st_workers s) + Z.of_nat (length (st_workers s)) * (18 * (1 + goal - k)).
Lemma measure_nonneg s v k : storm_ok s v k → 0 ≤ measure s v k.
Proof.
  intros Hok. pose proof (storm_bound _ _ _ Hok).
  pose proof (sum_workers_le (λ _ _, 0) (part_of s v k) (st_workers s)) as Hle. rewrite sum_workers_constant in Hle.
  unfold measure. assert (0 ≤ sum_workers (part_of s v k) (st_workers s)); [|nia].
  rewrite Z.mul_0_r in Hle. apply Hle. intros j x Hx. destruct (so_workers _ _ _ Hok j x Hx) as (q & Hq & Hw).
  unfold part_of. rewrite Hq. by eapply effort_nonneg.
Qed.
(** Only one worker and its thread have changed, for the better. *)
Definition improves s v k (s' : storm W) : Prop := ∃ v' k', storm_ok s' v' k' ∧ measure s' v' k' < measure s v k.
Lemma storm_change s v k i q x (s' : system W) v' k' q' x' successes conflicts :
  storm_ok s v k → st_workers s !! i = Some x → sy_threads (st_system s) !! i = Some q →
  invariant s' v' → is_u64 (hs_next_transaction (sy_heap s')) → view_ok start v' k' → k' = k ∨ k' = k + 1 →
  sy_threads s' = <[i := q']> (sy_threads (st_system s)) → (∀ j, j ≠ i → passive v v' k k' j) →
  worker_ok v' k' i q' x' → todo_of x' + successes = todo_of x → k' + applied v i x = k + successes + applied v' i x' →
  effort v' k' i q' x' < effort v k i q x →
  improves s v k (Storm s' (<[i := x']> (st_workers s)) (st_successes s + successes) conflicts).
Proof.
  intros Hok Hx Hq Hi' Hn' Hv' Hk Et Hother Hw' Htodo Happ Heff. set (s2 := Storm _ _ _ _).
  pose proof (lookup_lt_Some _ _ _ Hq) as Hlt. pose proof (lookup_lt_Some _ _ _ Hx) as Hltx.
  assert (sy_threads s' !! i = Some q') as Hq' by (rewrite Et; by apply list_lookup_insert_eq).
  assert (∀ j, j ≠ i → sy_threads s' !! j = sy_threads (st_system s) !! j) as Hrest by (intros j Hj; rewrite Et; by apply list_lookup_insert_ne).
  exists v', k'. split.
  - destruct Hok as [Hi Hn Hv Hlen Hw Ha Ht]. split; simpl; try done.
    + by rewrite Et, !length_insert.
    + intros j y Hj. destruct (decide (j = i)) as [->|Hne].
      * rewrite list_lookup_insert_eq in Hj by done. injection Hj as <-. by exists q'.
      * rewrite list_lookup_insert_ne in Hj by done. destruct (Hw j y Hj) as (q0 & Hq0 & Hold). exists q0.
        rewrite Hrest by done. split; [done|]. apply (passive_worker v v' k k'); [by apply Hother|lia|done].
    + rewrite (sum_workers_update (applied v) (applied v') i x x' _ Hx); [lia|]. intros j y Hj.
      unfold applied. by rewrite (pa_applied _ _ _ _ _ (Hother j Hj)).
    + rewrite (sum_workers_update (λ _, todo_of) (λ _, todo_of) i x x' _ Hx) by done. lia.
  - unfold measure. change (st_workers s2) with (<[i := x']> (st_workers s)). rewrite length_insert.
    set (c := 18 * (k' - k)). assert (∀ j y, j ≠ i → part_of s2 v' k' j y ≤ part_of s v k j y + c) as Hle.
    { intros j y Hj. unfold part_of. change (st_system s2) with s'. rewrite Hrest by done. unfold c. destruct Hk as [->| ->].
      - rewrite (passive_effort _ _ _ _ _ _ (Hother j Hj)). lia.
      - pose proof (effort_grows v k v' (k + 1) j (default Idle (sy_threads (st_system s) !! j)) y). lia. }
    pose proof (sum_workers_change _ _ c i x x' _ Hx ltac:(unfold c; lia) Hle) as Hsum.
    assert (part_of s2 v' k' i x' = effort v' k' i q' x') as E1 by (unfold part_of; change (st_system s2) with s'; by rewrite Hq').
    assert (part_of s v k i x = effort v k i q x) as E2 by (unfold part_of; by rewrite Hq).
    rewrite E1, E2 in Hsum. unfold c in Hsum. destruct Hk as [->| ->]; lia.
Qed.

(** What the heap's invariant says of a step. *)
Lemma step_legal s v k e (s' : system W) :
  storm_ok s v k → step (st_system s) e s' → (∀ i c, e = Called i c → call_ok ∅ room c) →
  legal v e ∧ invariant s' (observe v e).
Proof.
  intros Hok Hs Hc. pose proof (storm_bound _ _ _ Hok). destruct Hok as [Hi _ [_ Hl Hm _ Hq] _ _ _ _].
  eapply (step_ok config ∅ room); [exact Hi|exact Hs|exact Hc| |].
  - rewrite Hq. unfold room. lia.
  - rewrite Hm. apply history_saveable.
Qed.
Lemma bump_call_ok tx b : is_u64 tx → 1 ≤ b ≤ 2 ^ 32 → call_ok ∅ room (CallCommit tx [bump b]).
Proof using Type.
  intros Htx Hb. split_and!; try done; [|apply NoDup_singleton|constructor; [simpl; lia|done]|by repeat constructor].
  constructor; [|done]. split_and!; [unfold is_u64, u64_bound; simpl; lia|unfold is_u64, u64_bound; simpl; lia|].
  match goal with |- size (e_bytes (encode_update ?u)) + _ ≤ _ => destruct (size_encode_update u) as [-> ->] end. by apply Z.leb_le.
Qed.

(** *** The steps that a worker asks for *)

(** A worker whose thread loads the root: the version it gets is the present one, unless a commit
    has taken place since its call. *)
Lemma loaded_version v k i B :
  view_ok start v k → (∀ B, B ∈ v_seen v i → B ∈ v_history v) → head (v_seen v i) = Some (v_map v) → B ∈ v_seen v i →
  ∃ b, 1 ≤ b ≤ k ∧ B = history b ∧ ((1 <? length (v_seen v i))%nat = false → b = k).
Proof using Type.
  intros Hv Hseen Hhead HB. pose proof (vo_low _ _ _ Hv). destruct (1 <? length (v_seen v i))%nat eqn:El.
  - destruct (vo_past _ _ _ Hv B (Hseen B HB)) as (b & Hb & ->). by exists b.
  - exists k. split_and!; [lia|lia| |done]. destruct (v_seen v i) as [|A0 [|A1 rest]]; try done. injection Hhead as ->.
    rewrite <- (vo_map _ _ _ Hv). by apply list_elem_of_singleton in HB.
Qed.
Lemma loading_hears v k q o i todo tx :
  view_ok start v k → k < 2 ^ 32 → (∀ B, B ∈ v_seen v i → B ∈ v_history v) →
  let e := event_of i q o in
  worker_ok v k i q (Loading todo tx) → legal v e → goes i q o →
  ∃ x', hears (self i) e (Loading todo tx) = (x', 0, 0) ∧ observe v e = v ∧ worker_ok v k i (next_section o) x' ∧
    todo_of x' = todo ∧ applied v i x' = 0 ∧ effort v k i (next_section o) x' < effort v k i q (Loading todo tx).
Proof using Type.
  intros Hv Hk Hseen e Hw Hl [Hc Hr Hrank Hstop]. pose proof (event_heard i q o) as Hh. pose proof (load_end_is_idle i q o) as Hload.
  pose proof (reported_event i q o) as Hver. fold e in Hh, Hload, Hver, Hstop.
  destruct Hw as (Htodo & Htx & Hne & _ & Hcall & Happ & Hhead).
  assert (next_section o ≠ Idle → ∃ x', (Loading todo tx, 0, 0) = (x', 0, 0) ∧ worker_ok v k i (next_section o) x' ∧
    todo_of x' = todo ∧ applied v i x' = 0 ∧ effort v k i (next_section o) x' < effort v k i q (Loading todo tx)) as Hgo.
  { intros Hnext. exists (Loading todo tx). split_and!; try done. unfold effort, distance, stale. lia. }
  destruct e as [|j|j us|j n r|j r|j|j report| |]; try done; injection Hh as ->.
  - destruct Hgo as (x' & ? & ?); [|by exists x']. by intros [[? [=]]|(? & ? & [=])]%Hstop.
  - destruct Hl as (_ & _ & tx' & Hl). by rewrite Hcall in Hl.
  - destruct Hl as (Hl & B & HB & ->). rewrite Hcall in Hl. injection Hl as <-.
    destruct (loaded_version v k i B Hv Hseen Hhead HB) as (b & Hb & -> & Hlast). exists (Changing todo tx [bump b]).
    cbn [hears]. rewrite increment_run by lia. pose proof (Hload i "root" _ eq_refl) as Hi. rewrite Hi in *.
    split_and!; try done; [simpl; split_and!; try done; by exists b|].
    unfold effort, distance, stale, old_update. simpl u_expected. cbn [rank] in Hrank.
    destruct (1 <? length (v_seen v i))%nat; [destruct (b <? k); lia|]. rewrite Hlast, Z.ltb_irrefl by done. lia.
  - simpl in Hl. destruct r as [u|e']; simpl in Hl; [destruct Hl as [Hl|[Hl|[tx' Hl]]]; congruence|].
    destruct Hl as [_ [(_ & Hl)|(tx' & us & u & Hl & _)]]; [by rewrite (vo_open _ _ _ Hv) in Hl|congruence].
  - destruct Hgo as (x' & ? & ?); [|by exists x']. by intros [[? [=]]|(? & ? & [=])]%Hstop.
  - by destruct (Hr report (Hver i report eq_refl)).
Qed.
(** A worker whose thread commits: it conflicts only if its version is an old one. *)
Lemma committing_hears v k q o i todo tx :
  view_ok start v k →
  let e := event_of i q o in
  worker_ok v k i q (Committing todo tx) → legal v e → goes i q o →
  ∃ x' a c k', hears (self i) e (Committing todo tx) = (x', a, c) ∧ view_ok start (observe v e) k' ∧ (k' = k ∨ k' = k + 1) ∧
    (∀ us, e = Committed i us → k' ≠ k) ∧ worker_ok (observe v e) k' i (next_section o) x' ∧ todo_of x' + a = todo ∧
    k' + applied v i (Committing todo tx) = k + a + applied (observe v e) i x' ∧
    effort (observe v e) k' i (next_section o) x' < effort v k i q (Committing todo tx).
Proof using Type.
  intros Hv e Hw Hl [Hc Hr Hrank Hstop]. pose proof (event_heard i q o) as Hh. pose proof (end_is_idle i q o) as Hend.
  pose proof (reported_event i q o) as Hver. fold e in Hh, Hend, Hver, Hstop.
  destruct Hw as (Htodo & Hne & _ & b & Hb & Hcall).
  assert (next_section o ≠ Idle → ∃ x' a c k', (Committing todo tx, 0, 0) = (x', a, c) ∧ view_ok start v k' ∧ (k' = k ∨ k' = k + 1) ∧
    worker_ok v k' i (next_section o) x' ∧ todo_of x' + a = todo ∧
    k' + applied v i (Committing todo tx) = k + a + applied v i x' ∧
    effort v k' i (next_section o) x' < effort v k i q (Committing todo tx)) as Hgo.
  { intros Hnext. exists (Committing todo tx), 0, 0, k. split_and!; try done; try (simpl; lia); [|by unfold effort, distance, stale; lia].
    simpl. split_and!; try done. by exists b. }
  destruct e as [|j|j us|j n r|j r|j|j report| |]; try done; injection Hh as ->.
  - destruct Hgo as (x' & a & c & k' & ? & ? & ? & ?); [by intros [[? [=]]|(? & ? & [=])]%Hstop|]. by exists x', a, c, k'.
  - destruct Hl as (Hm & Happ & tx' & Hl). rewrite Hcall in Hl. injection Hl as <- <-.
    rewrite (vo_map _ _ _ Hv) in Hm. apply bump_matches in Hm as ->.
    exists (Committing todo tx), 0, 0, (b + 1). split_and!; try done; try (simpl; lia).
    + by apply view_ok_commit.
    + simpl. split_and!; [done| |done|exists b; split; [lia|done]]. by intros [[? [=]]|(? & ? & [=])]%Hstop.
    + simpl. rewrite Happ, fn_lookup_insert. lia.
    + unfold effort, distance, stale. simpl v_applied. rewrite Happ, fn_lookup_insert. cbn [negb andb]. destruct (match _ with Some _ => _ | _ => _ end); lia.
  - destruct Hl as (Hl & _). congruence.
  - rewrite (Hend i r eq_refl) in *. cbn [rank] in Hrank. destruct r as [u|e']; simpl in Hl.
    + assert (v_applied v i = true) as Happ by (destruct Hl as [?|[Hl|[tx' Hl]]]; [done|congruence|congruence]).
      exists (Attempting (todo - 1)), 1, 0, k. split_and!; try done; try (simpl; rewrite ?Happ; lia); [simpl; split; [lia|done]|].
      unfold effort, distance, stale. rewrite Happ. cbn [negb andb]. lia.
    + destruct Hl as [Happ [(_ & Hl)|(tx' & us & u & Hl & Hu & Hver' & ->)]]; [by rewrite (vo_open _ _ _ Hv) in Hl|].
      rewrite Hcall in Hl. injection Hl as <- <-. apply list_elem_of_singleton in Hu as ->. simpl in Hver'.
      rewrite (vo_map _ _ _ Hv) in Hver'. fold (version_in (history k) "root") in Hver'. rewrite history_version in Hver'.
      exists (Attempting todo), 0, 1, k. split_and!; try done; try (simpl; rewrite ?Happ; lia); [simpl; split; [lia|done]|].
      unfold effort, distance, stale. rewrite Happ, Hcall. simpl old_update. destruct (Z.ltb_spec b k); cbn [negb andb]; lia.
  - destruct Hgo as (x' & a & c & k' & ? & ? & ? & ?); [by intros [[? [=]]|(? & ? & [=])]%Hstop|]. by exists x', a, c, k'.
  - by destruct (Hr report (Hver i report eq_refl)).
Qed.

(** *** Every step *)
Lemma storm_runs_ok s v k i x e (s' : system W) x' a c :
  storm_ok s v k → heard_by e = Some i → st_workers s !! i = Some x → step (st_system s) e s' →
  hears (self i) e x = (x', a, c) →
  improves s v k (Storm s' (<[i := x']> (st_workers s)) (st_successes s + a) (st_conflicts s + c)).
Proof.
  intros Hok Hh Hx Hs Hhears. pose proof (storm_bound _ _ _ Hok) as Hk.
  destruct (step_legal s v k e s' Hok Hs) as [Hl Hi']; [by intros j c' ->|].
  destruct (step_heard _ _ _ _ Hh Hs) as (q & o & Hq & Hne & Ee & Ethreads & Enext & Hgoes).
  destruct (so_workers _ _ _ Hok i x Hx) as (q1 & Hq1 & Hw). rewrite Hq in Hq1. injection Hq1 as <-.
  destruct (worker_busy _ _ _ _ _ Hw Hne) as [Hc Hbusy]. specialize (Hgoes Hc). subst e.
  pose proof (so_next _ _ _ Hok) as Hnext. rewrite <- Enext in Hnext.
  destruct Hbusy as [(todo & tx & ->)|(todo & tx & ->)].
  - destruct (loading_hears v k q o i todo tx (so_view _ _ _ Hok) ltac:(lia) (in_seen _ _ _ _ _ (so_inv _ _ _ Hok) i) Hw Hl Hgoes)
      as (y & E & Ev & Hy & Et & Ea & Heff). rewrite E in Hhears. injection Hhears as <- <- <-. rewrite Ev in Hi'.
    apply (storm_change s v k i q _ s' v k (next_section o) y 0 _ Hok Hx Hq); try done; [apply Hok|by left|simpl; lia|].
    rewrite Ea. simpl. lia.
  - destruct (committing_hears v k q o i todo tx (so_view _ _ _ Hok) Hw Hl Hgoes)
      as (y & a' & c' & k' & E & Hv' & Hk' & Hcom & Hy & Et & Ea & Heff).
    rewrite E in Hhears. injection Hhears as <- <- <-.
    apply (storm_change s v k i q _ s' _ k' (next_section o) y a' _ Hok Hx Hq Hi'); try done.
    apply (observe_passive v _ i); [by right|done].
Qed.
(** A call, and what it leads to. *)
Lemma asks_ok v k i q x c x' :
  1 ≤ k ≤ 2 ^ 32 → worker_ok v k i q x → asks x = Some (c, x') →
  q = Idle ∧ call_ok ∅ room c ∧ worker_ok (observe v (Called i c)) k i (entry c) x' ∧ todo_of x' = todo_of x ∧
  applied v i x = 0 ∧ applied (observe v (Called i c)) i x' = 0 ∧
  effort (observe v (Called i c)) k i (entry c) x' < effort v k i q x.
Proof using Type.
  intros Hk Hw Hasks. destruct x as [|todo tx| |todo tx us| |]; simplify_eq/=.
  - destruct Hw as (? & ? & ->). rewrite !fn_lookup_insert. split_and!; try done.
    unfold effort, distance, stale. simpl. rewrite fn_lookup_insert. simpl. lia.
  - destruct Hw as (? & ? & -> & b & Hb & ->). rewrite !fn_lookup_insert. split; [done|].
    split; [by apply bump_call_ok; [|lia]|]. split_and!; try done; [by exists b|].
    unfold effort, distance, stale. simpl. rewrite !fn_lookup_insert. simpl. destruct (b <? k); lia.
Qed.
Lemma storm_step_ok s v k s2 : storm_ok s v k → storm_step self s s2 → improves s v k s2.
Proof.
  intros Hok Hs. pose proof (storm_bound _ _ _ Hok) as Hk. pose proof (vo_low _ _ _ (so_view _ _ _ Hok)). destruct Hs as
    [sys sys' ws succ conf i todo tx Hx Htodo Hs|sys sys' ws succ conf i x c x' Hx Hasks Hs|sys sys' ws succ conf i x e x' a c Hh Hx Hs Hhears].
  - destruct (step_legal _ _ _ _ _ Hok Hs) as [_ Hi']; [done|]. destruct (so_workers _ _ _ Hok i _ Hx) as (q & Hq & Hidle & ->).
    replace succ with (succ + 0) by lia.
    apply step_began in Hs as (-> & Et & En). pose proof (so_next _ _ _ Hok) as Hn.
    refine (storm_change (Storm _ _ _ _) v k i Idle _ _ v k Idle (Asking todo _) 0 _ Hok Hx Hq Hi' _ (so_view _ _ _ Hok) _ _ _ _ _ _ _);
      try done; try (simpl; lia); [rewrite En; apply u64_range|by rewrite Et, list_insert_id|].
    unfold effort, distance, stale. lia.
  - destruct (so_workers _ _ _ Hok i _ Hx) as (q & Hq & Hw). simpl in Hq.
    destruct (asks_ok v k i q x c x' ltac:(lia) Hw Hasks) as (-> & Hc & Hw' & Ht & Ha & Ha' & Heff).
    destruct (step_legal _ _ _ _ _ Hok Hs) as [_ Hi']; [by intros j c' [= <- <-]|]. apply step_called in Hs as ->.
    replace succ with (succ + 0) by lia.
    refine (storm_change (Storm _ _ _ _) v k i Idle _ _ _ k (entry c) x' 0 _ Hok Hx Hq Hi' (so_next _ _ _ Hok) _ _ _ _ Hw' _ _ Heff);
      try done; try lia.
    + by apply view_ok_still, Hok.
    + apply observe_passive; [left; by exists c|done].
  - by apply (storm_runs_ok _ v k i x e sys' x' a c Hok).
Qed.
Lemma storm_steps_ok n s v k s2 :
  storm_ok s v k → nsteps (storm_step self) n s s2 → ∃ v' k', storm_ok s2 v' k' ∧ Z.of_nat n ≤ measure s v k.
Proof.
  intros Hok Hn. revert v k Hok. induction Hn as [s|n s s1 s2 Hs _ IH]; intros v k Hok.
  - exists v, k. split; [done|]. pose proof (measure_nonneg _ _ _ Hok). lia.
  - destruct (storm_step_ok _ _ _ _ Hok Hs) as (v1 & k1 & Hok1 & Hlt). destruct (IH v1 k1 Hok1) as (v2 & k2 & Hok2 & Hle).
    exists v2, k2. split; [done|]. lia.
Qed.

(** *** Nobody waits for ever *)
#[local] Instance done_dec (x : worker) : Decision (x = Attempting 0).
Proof. refine (match x with Attempting 0 => left eq_refl | _ => right _ end); discriminate. Defined.
Lemma storm_goes_on s v k : storm_ok s v k → joined s ∨ ∃ s2, storm_step self s s2.
Proof.
  intros Hok. pose proof (so_inv _ _ _ Hok) as Hi. destruct s as [[h w threads] ws succ conf]. simpl in Hi.
  destruct (decide (all_idle threads)) as [Hidle|Hbusy].
  - destruct (decide (Forall (λ x, x = Attempting 0) ws)) as [Hdone|Hmore]; [left; by split|right].
    apply not_Forall_Exists in Hmore; [|apply _]. apply Exists_exists in Hmore as (x & [i Hx]%list_elem_of_lookup & Hne).
    destruct (so_workers _ _ _ Hok i x Hx) as (q & Hq & Hw). simpl in Hq.
    assert (q = Idle) as -> by by rewrite (Forall_lookup_1 _ _ _ _ Hidle Hq).
    destruct x as [todo|todo tx|todo tx|todo tx us|todo tx|err].
    + assert (hs_closed h = false) as Hc by (transitivity (v_closed v); [exact (in_closed _ _ _ _ _ Hi)|apply Hok]).
      eexists. eapply storm_begins; [exact Hx|simpl in Hw; destruct (decide (todo = 0)) as [->|]; [by destruct Hne|lia]|].
      apply step_begin; [exact Hq|]. unfold begin, mbind, M_bind, state, update, on_fst, get, modify. simpl. rewrite Hc. reflexivity.
    + eexists. eapply storm_calls; [exact Hx|reflexivity|]. by apply step_call.
    + by destruct Hw as (_ & _ & [] & _).
    + eexists. eapply storm_calls; [exact Hx|reflexivity|]. by apply step_call.
    + by destruct Hw as (_ & [] & _).
    + done.
  - right. destruct (somebody_runs threads (in_exclusive _ _ _ _ _ Hi) Hbusy) as (i & q & Hq & Hne & Hrun).
    destruct (lookup_lt_is_Some_2 ws i) as [x Hx].
    { pose proof (so_length _ _ _ Hok) as Hlen. simpl in Hlen. rewrite Hlen. by eapply lookup_lt_Some. }
    destruct (run_section q (h, w)) as [o [h' w']] eqn:E. destruct (hears (self i) (event_of i q o) x) as [[x' a] c] eqn:Eh.
    eexists. eapply storm_runs; [apply event_heard|exact Hx|by eapply step_section|exact Eh].
Qed.
End storms.

(** ** The scenario *)
Section scenario.
Context {W : Type} `{HW : storage_reliable W} (self : nat → Z) (scale : Z).
Definition all_increments : Z := thread_count scale * increments_per_thread scale.
Context (Hscale : all_increments < 2 ^ 32 - 1).
Lemma u32_nonneg z : 0 ≤ u32 z.
Proof using Type. by apply Z.mod_pos_bound. Qed.
Lemma storm_start_ok config h (w : W) :
  in_service config h w (history 1) ∅ → is_u64 (hs_next_transaction h) → coherent (ever [history 1]) (hs_cache h) →
  let s := storm_start scale h w in
  let v := initial_view (history 1) false (hs_wal_sequence h) in
  storm_ok config all_increments (hs_wal_sequence h) s v 1 ∧
  measure all_increments s v 1 = 18 * (thread_count scale + 1) * all_increments.
Proof using Type.
  intros (Hi & Hrel & Hcl & Hpo) Hn Hc s v. assert (Z.of_nat (Z.to_nat (thread_count scale)) = thread_count scale) as En.
  { unfold thread_count. pose proof (u32_nonneg (4 * scale)). lia. }
  assert (∀ (f : nat → worker → Z) c, (∀ j, f j (Attempting (increments_per_thread scale)) = c) →
    sum_workers f (st_workers s) = thread_count scale * c) as Hsum.
  { intros f c Hf. rewrite <- En. pose proof (sum_workers_constant c (st_workers s)) as E. simpl in E. rewrite length_replicate in E. rewrite <- E.
    apply Z.le_antisymm; apply sum_workers_le; intros j x [-> _]%lookup_replicate; by rewrite Hf. }
  split; [split|].
  - unfold v. rewrite <- Hcl. by apply inv_initial.
  - done.
  - split; try done; [|simpl; lia]. intros B ->%list_elem_of_singleton. by exists 1.
  - simpl. by rewrite !length_replicate.
  - intros j x [-> Hj]%lookup_replicate. exists Idle. split; [by apply lookup_replicate|]. simpl. split; [|done].
    apply u32_nonneg.
  - rewrite (Hsum _ 0) by done. simpl. lia.
  - rewrite (Hsum _ (increments_per_thread scale)) by done. done.
  - unfold measure. rewrite (Hsum _ (18 * increments_per_thread scale)).
    + simpl st_workers. rewrite length_replicate, En. unfold all_increments. lia.
    + intros j. unfold part_of, effort, distance, stale. lia.
Qed.
(** When everybody is done, the heap is in service with the last version. *)
Lemma joined_in_service config start s v k :
  storm_ok config all_increments start s v k → joined s →
  st_successes s = all_increments ∧ k = 1 + all_increments ∧
  ∃ p, in_service config (sy_heap (st_system s)) (sy_store (st_system s)) (history k) p.
Proof using Type.
  intros Hok [Hw Hidle]. assert (st_successes s = all_increments) as Es.
  { rewrite <- (so_todo _ _ _ _ _ _ Hok). pose proof (sum_workers_constant 0 (st_workers s)) as E0.
    assert (sum_workers (λ _, todo_of) (st_workers s) = sum_workers (λ _ _, 0) (st_workers s)) as ->; [|lia].
    apply Z.le_antisymm; apply sum_workers_le; intros j x Hx; by rewrite (Forall_lookup_1 _ _ _ _ Hw Hx). }
  split; [done|]. split.
  - rewrite (so_applied _ _ _ _ _ _ Hok), Es. pose proof (sum_workers_constant 0 (st_workers s)) as E0.
    assert (sum_workers (applied v) (st_workers s) = sum_workers (λ _ _, 0) (st_workers s)) as ->; [|lia].
    apply Z.le_antisymm; apply sum_workers_le; intros j x Hx; by rewrite (Forall_lookup_1 _ _ _ _ Hw Hx).
  - pose proof (so_inv _ _ _ _ _ _ Hok) as Hi. pose proof (so_view _ _ _ _ _ _ Hok) as Hv.
    destruct (in_shared _ _ _ _ _ Hi) as (p & _ & Hfree & _).
    destruct Hfree as [Hinv _]; [intros i q Hq; by rewrite (Forall_lookup_1 _ _ _ _ Hidle Hq)|].
    rewrite (vo_map _ _ _ Hv) in Hinv. exists p. split_and!; [exact Hinv|apply Hi| |apply Hi].
    rewrite (in_closed _ _ _ _ _ Hi). apply Hv.
Qed.
Lemma storm_checks_run config reader h (w : W) p :
  0 ≤ all_increments → in_service config h w (history (1 + all_increments)) p →
  ∃ s, storm_checks reader scale all_increments (h, w) = (Ok tt, s).
Proof.
  intros Hpos Hs. destruct (read_n_run config reader h w _ p Hs ltac:(lia)) as (c & w1 & t & E1 & Hs1).
  assert (in_session reader (read_n "root") (h, w) = (Ok all_increments, (set_cache c (begun h), w1))) as E.
  { rewrite (in_session_spec _ _ _ _ _ _ _ Hs), E1. do 2 f_equal. lia. }
  destruct Hs1 as (Hi1 & Hrel1 & _).
  destruct (integrity_spec config _ w1 _ p Hi1) as (report & w2 & E2 & _ & _ & Hok). destruct (Hok Hrel1) as [Hreport _].
  exists (set_cache c (begun h), w2). unfold storm_checks. m_run E. fold all_increments.
  assert (u64 all_increments = all_increments) as Eu by (apply u64_small; unfold is_u64, u64_bound; lia).
  assert (to_signed 64 all_increments = all_increments) as Et by (unfold to_signed; case_match; lia).
  rewrite Eu, Et, Z.eqb_refl. unfold check, mbind, M_bind, mret, M_ret. rewrite E2. by rewrite Hreport.
Qed.
End scenario.

(** C15: Threads that race for one root end, and lose no update.  After the seed, whatever the locks and
    the scheduler make of the threads: every execution has at most so many steps; no worker ever
    stops with an error, since commits fail by conflicts only; as long as not all threads can be
    joined, one of them can go on; and once all are joined, every increment has succeeded once, the
    root holds their number, and the check of integrity passes. *)
Theorem conflict_storm_counts {W : Type} `{storage_reliable W} seeder reader self scale directory (w : W) :
  let config := default_config directory in
  directory ≠ "" → all_increments scale < 2 ^ 32 - 1 →
  reliable w → file_of w (wal_path config) = None → file_of w (snap_path config) = None →
  ∃ h0 w0, storm_seed seeder directory w = (Ok h0, w0) ∧
    ∀ n s, nsteps (storm_step self) n (storm_start scale h0 w0) s →
      Z.of_nat n ≤ 18 * (thread_count scale + 1) * all_increments scale ∧
      (∀ i e, st_workers s !! i ≠ Some (Broken e)) ∧
      (joined s ∨ ∃ s', storm_step self s s') ∧
      (joined s → st_successes s = all_increments scale ∧
         ∃ x, storm_checks reader scale (st_successes s) (sy_heap (st_system s), sy_store (st_system s)) = (Ok tt, x)).
Proof.
  intros config Hd Hscale Hrel Hw Hsn.
  destruct (storm_seed_run seeder directory w Hd Hw Hsn Hrel) as (h0 & w0 & E & Hs & Hq & Hn & Hc). fold config in Hs.
  exists h0, w0. split; [done|]. intros n s Hsteps.
  destruct (storm_start_ok scale config h0 w0 Hs ltac:(rewrite Hn; done) Hc) as [Hok Hm].
  destruct (storm_steps_ok config self (all_increments scale) _ Hscale Hq n _ _ _ s Hok Hsteps) as (v & k & Hok' & Hle).
  split_and!; [by rewrite <- Hm| |by eapply storm_goes_on|].
  - intros i e Hi. by destruct (so_workers _ _ _ _ _ _ Hok' i _ Hi) as (q & _ & []).
  - intros Hj. destruct (joined_in_service scale config _ s v k Hok' Hj) as (Es & -> & p & Hserve). split; [done|]. rewrite Es.
    apply (storm_checks_run scale Hscale config reader _ _ p); [|done].
    unfold all_increments. apply Z.mul_nonneg_nonneg; apply u32_nonneg.
Qed.
Lemma conflict_storm_counts_witness :
  ∃ h0 w0, storm_seed 1 "db" Disk.empty = (Ok h0, w0) ∧
    ∀ n s, nsteps (storm_step Z.of_nat) n (storm_start 1 h0 w0) s →
      Z.of_nat n ≤ 18 * (4 + 1) * 800 ∧
      (∀ i e, st_workers s !! i ≠ Some (Broken e)) ∧
      (joined s ∨ ∃ s', storm_step Z.of_nat s s') ∧
      (joined s → st_successes s = 800 ∧
         ∃ x, storm_checks 2 1 (st_successes s) (sy_heap (st_system s), sy_store (st_system s)) = (Ok tt, x)).
Proof. apply (conflict_storm_counts 1 2 Z.of_nat 1 "db" Disk.empty); reflexivity || discriminate. Defined.

(** ** A race, run *)
Lemma storm_act_step {W} `{storage W} self i (s s' : storm W) : storm_act self i s = Some s' → storm_step self s s'.
Proof.
  destruct s as [sys ws succ conf]. unfold storm_act. destruct (ws !! i) as [x|] eqn:Ex; [|done]. cbn [mbind option_bind].
  assert (∀ c x', asks x = Some (c, x') → ('(_, sys') ← act (DoCall i c) sys; Some (Storm sys' (<[i := x']> ws) succ conf)) = Some s' →
    storm_step self (Storm sys ws succ conf) s') as Hcall.
  { intros c x' Ea E. destruct (act (DoCall i c) sys) as [[e sys']|] eqn:Eact; [|done].
    pose proof (act_step _ _ _ _ Eact) as Hs. assert (e = Called i c) as ->.
    { simpl in Eact. destruct (sy_threads sys !! i) as [[]|]; by simplify_eq. }
    injection E as <-. by eapply storm_calls. }
  assert (('(e, sys') ← act (DoStep i) sys;
    let '(x', a, b) := hears (self i) e x in
    if bool_decide (heard_by e = Some i) then Some (Storm sys' (<[i := x']> ws) (succ + a) (conf + b)) else None) = Some s' →
    storm_step self (Storm sys ws succ conf) s') as Hstep.
  { intros E. destruct (act (DoStep i) sys) as [[e sys']|] eqn:Eact; [|done]. cbn [mbind option_bind] in E.
    destruct (hears (self i) e x) as [[x' a] b] eqn:Eh. case_bool_decide; [|done]. simplify_eq.
    eapply storm_runs; [done|done|by eapply act_step|done]. }
  destruct x as [todo|todo tx|todo tx|todo tx us|todo tx|err]; cbn [asks]; try (by apply Hstep); try (by apply Hcall).
  destruct sys as [h w threads]. cbn [sy_threads sy_heap sy_store]. destruct (threads !! i) as [[]|] eqn:Et; try done.
  destruct (begin (h, w)) as [[tx|e] [h' w']] eqn:Eb; [|done]. destruct (Z.ltb_spec 0 todo); [|done]. intros [= <-].
  eapply storm_begins; [done|done|by apply step_begin].
Qed.
Lemma storm_play_run {W} `{storage W} self schedule (s s' : storm W) :
  storm_play self schedule s = Some s' → rtc (storm_step self) s s'.
Proof.
  revert s. induction schedule as [|i schedule IH]; intros s; simpl; [by intros [= ->]|].
  destruct (storm_act self i s) as [s1|] eqn:E; [|done]. intros Hp. eapply rtc_l; [by eapply storm_act_step|by apply IH].
Qed.
(** Two workers read the same version, one of them commits first, the other one tries again. *)
Definition race_start : storm Disk.disk :=
  match storm_seed 1 "db" Disk.empty with
  | (Ok h, w) => Storm (System h w (replicate 2 Idle)) (replicate 2 (Attempting 1)) 0 0
  | (Throw _, w) => Storm (System (HeapState (default_config "db") 0 (new_cache 0) ∅ 1 false false 0) w []) [] 0 0
  end.
Definition race_schedule : list nat := [0; 1; 0; 1; 0; 1; 0; 1]%nat ++ replicate 8 0%nat ++ replicate 15 1%nat.
Example race : option_map (λ s, (st_workers s, st_successes s, st_conflicts s)) (storm_play Z.of_nat race_schedule race_start) =
  Some ([Attempting 0; Attempting 0], 2, 1).
Proof. vm_compute. reflexivity. Qed.
