(* ===== verification/LargePayload.v ===== *)
(** * Large roots: [stress/scenarios/large_payload.cpp].

    A root with a wide object, a deep chain of objects, a long array and a long string goes through
    commits, a checkpoint and a reopening, and is checked each time.  What the scenario does to a
    root is an [edit], what it checks of one a function of its content. *)
From stdpp Require Import pretty.
From S2P Require Import Prelude.
From S2P Require Import OrderedMap.
From S2P Require Import Value.
From S2P Require Import Observer.
From S2P Require Import ObserverSpec.
From S2P Require Import Storage.
From S2P Require Import Heap.
From S2P Require Import Transaction.
From S2P Require Import Cli.
From S2P Require Import Credentials.
From S2P Require Import Fuzz.
From Stdlib Require Import Ascii.
#[local] Open Scope Z_scope.

Record shape := Shape { wide_count : Z; depth : Z; array_count : Z; elem_size : Z; blob_size : Z }.
Definition make_shape (scale : Z) : shape :=
  Shape (u32 (500 * scale)) (u32 (100 + 20 * Z.min scale 20)) (u32 (500 * scale)) 48 (u32 (524288 * Z.min scale 8)).
(** [std::string(n, c)] *)
Definition filled (n : Z) (c : ascii) : string := String.string_of_list_ascii (replicate (Z.to_nat n) c).
Definition blob_fill (round : Z) : ascii := ascii_of_nat (65 + Z.to_nat (round mod 26)).
Definition elem_fill (round index : Z) : ascii := ascii_of_nat (97 + Z.to_nat (u32 (round + index) mod 26)).
Definition wide_key (i : Z) : string := "k" +:+ pretty i.
Definition wide_value (round i : Z) : Z := round * 1000000 + i.

(** ** Populating *)
(** [for (unsigned i = 0; i < n; ++i)] *)
Definition indices (n : Z) : list Z := Z.of_nat <$> seq 0 (Z.to_nat n).
Definition each (f : Z → edit) (l : list Z) : edit := foldr (λ i e, e_seq (f i) e) e_none l.
(** [moved i] tells whether the array was reallocated for element [i]. *)
Definition populate (moved : Z → bool) (round : Z) (s : shape) : edit :=
  e_seq (e_key "wide" (e_seq e_as_object (e_seq e_clear_object
           (each (λ i, e_key (wide_key i) (e_integer (wide_value round i))) (indices (wide_count s))))))
  (e_seq (e_key "deep" (walk (replicate (Z.to_nat (depth s)) "lvl") (e_integer round)))
  (e_seq (e_key "arr" (e_seq e_as_array (e_seq e_clear_array
           (each (λ i, e_push (moved i) (VString (filled (elem_size s) (elem_fill round i)))) (indices (array_count s))))))
         (e_key "blob" (e_string (filled (blob_size s) (blob_fill round)))))).

(** ** Verifying *)
Definition verified (b : bool) (message : string) : result unit := if b then Ok tt else Throw (runtime_error message).
(** [for (unsigned i = 0; i < n; i += std::max(1U, n / 64U))], with as much fuel as [n]. *)
Fixpoint sample (fuel : nat) (i n : Z) (test : Z → result unit) : result unit :=
  if i <? n then
    match fuel with
    | O => Throw out_of_fuel
    | S fuel => _ ← test i; sample fuel (u32 (i + Z.max 1 (n / 64))) n test
    end
  else Ok tt.
Fixpoint follow (path : list string) (v : value) : result value :=
  match path with [] => Ok v | key :: path => x ← at_const key v; follow path x end.
(** [front] and [back] of a view; an empty one has neither. *)
Definition front (s : string) : result ascii :=
  match s with String c _ => Ok c | EmptyString => Throw (undefined "front of an empty view") end.
Definition back (s : string) : result ascii :=
  match last (String.list_ascii_of_string s) with Some c => Ok c | None => Throw (undefined "back of an empty view") end.
(** [root] is the object's content.  Of its members, which are not constant, [as_object], [as_array]
    and [as_string] turn a value of another kind into an empty one of theirs. *)
Definition verify (root : list (string * value)) (round : Z) (s : shape) : result unit :=
  x ← entry_at "wide" root;
  let wide := object_content x in
  _ ← verified (size wide =? wide_count s) "wide object lost keys across round-trip";
  _ ← sample (Z.to_nat (wide_count s)) 0 (wide_count s) (λ i,
        x ← entry_at (wide_key i) wide;
        z ← as_integer x;
        verified (z =? wide_value round i) "wide object value corrupted across round-trip");
  x ← entry_at "deep" root;
  cursor ← follow (replicate (Z.to_nat (depth s)) "lvl") x;
  z ← as_integer cursor;
  _ ← verified (z =? round) "deep nesting value corrupted across round-trip";
  x ← entry_at "arr" root;
  let arr := array_content x in
  _ ← verified (size arr =? array_count s) "array lost elements across round-trip";
  _ ← sample (Z.to_nat (array_count s)) 0 (array_count s) (λ i,
        match arr !! Z.to_nat i with
        | None => Throw (out_of_range "vector::_M_range_check")
        | Some x =>
            text ← as_string_const x;
            verified (bool_decide (text = filled (elem_size s) (elem_fill round i))) "array element corrupted across round-trip"
        end);
  x ← entry_at "blob" root;
  let blob := string_content x in
  _ ← verified (ssize blob =? blob_size s) "blob size changed across round-trip";
  a ← front blob;
  if negb (bool_decide (a = blob_fill round)) then Throw (runtime_error "blob content corrupted across round-trip")
  else
    b ← back blob;
    verified (bool_decide (b = blob_fill round)) "blob content corrupted across round-trip".

(** ** The scenario *)
Section scenario.
Context {W : Type} `{storage W} (self : Z) (moved : Z → bool).
Definition write_round (round : Z) (s : shape) : session (W:=W) unit :=
  token ← object_root "root";
  _ ← edit_root token (populate moved round s);
  transaction_commit.
Definition read_round (round : Z) (s : shape) : session (W:=W) unit :=
  token ← object_root "root";
  v ← contents token;
  lift_result (verify (object_content v) round s).
Definition payload_rounds (s : shape) : heap (W:=W) unit :=
  _ ← in_session self (write_round 0 s);
  _ ← in_session self (read_round 0 s);
  _ ← in_session self (write_round 1 s);
  _ ← in_session self (read_round 1 s);
  _ ← checkpoint;
  _ ← in_session self (read_round 1 s);
  close.
Definition large_payload (directory : string) (scale : Z) : M W unit :=
  let s := make_shape scale in
  h ← heap_open (default_config directory);
  _ ← with_local h (payload_rounds s);
  reopened ← heap_open (default_config directory);
  with_local reopened (
    _ ← in_session self (read_round 1 s);
    report ← integrity;
    check (ir_ok report) "heap failed integrity check after large payload round-trip").
End scenario.
