(* ===== verification/LargePayloadTheorems.v ===== *)
(** * Large roots survive: [large_payload_survives]. *)
From stdpp Require Import pretty.
From S2P Require Import Prelude.
From S2P Require Import Binary.
From S2P Require Import OrderedMap.
From S2P Require Import Value.
From S2P Require Import Observer.
From S2P Require Import ObserverSpec.
From S2P Require Import Codec.
From S2P Require Import Storage.
From S2P Require Import Journal.
From S2P Require Import Recovery.
From S2P Require Import Snapshot.
From S2P Require Import Heap.
From S2P Require Import HeapSpec.
From S2P Require Import Transaction.
From S2P Require Import TransactionSpec.
From S2P Require Import Sessions.
From S2P Require Import Cli.
From S2P Require Import Credentials.
From S2P Require Import CredentialsSpec.
From S2P Require Import Fuzz.
From S2P Require Import FuzzTheorems.
From S2P Require Import LargePayload.
From Stdlib Require Import Ascii.
#[local] Open Scope Z_scope.

(** ** Keys *)
Lemma pretty_go_length k : ∀ x s, (x < 2 ^ N.of_nat k)%N → (String.length (pretty_N_go x s) ≤ String.length s + k)%nat.
Proof.
  induction k as [|k IH]; intros x s Hx; (destruct (decide (x = 0)%N) as [->|Hne]; [rewrite pretty_N_go_0; lia|]).
  { change (2 ^ N.of_nat 0)%N with 1%N in Hx. lia. }
  rewrite pretty_N_go_step by lia. assert (x `div` 10 < 2 ^ N.of_nat k)%N as Hdiv.
  { rewrite Nat2N.inj_succ, N.pow_succ_r' in Hx. apply N.Div0.div_lt_upper_bound. lia. }
  specialize (IH (x `div` 10)%N (String (pretty_N_char (x `mod` 10)) s) Hdiv). simpl in IH. lia.
Qed.
Lemma wide_key_size i : 0 ≤ i < 2 ^ 32 → ssize (wide_key i) ≤ 33.
Proof.
  intros Hi. unfold wide_key. rewrite ssize_app. change (ssize "k") with 1. unfold ssize.
  destruct i as [|x|x]; [done| |lia]. change (pretty (Z.pos x)) with (pretty_N_go (N.pos x) "").
  pose proof (pretty_go_length 32 (N.pos x) "" ltac:(simpl; lia)). simpl String.length in *. lia.
Qed.
Lemma wide_key_inj i j : wide_key i = wide_key j → i = j.
Proof. unfold wide_key. intros E. injection E as E. cbn in E. by apply (inj (pretty (A:=Z))). Qed.

(** ** What [populate] makes of a root *)
Lemma apply_each f l v : apply_edit (each f l) v = foldl (λ v i, apply_edit (f i) v) v l.
Proof. revert v. induction l as [|i l IH]; intros v; simpl; [done|]. apply IH. Qed.
Definition wide_entries (round n : Z) : list (string * value) :=
  (λ i, (wide_key i, VInteger (wide_value round i))) <$> indices n.
Definition wide_of (round n : Z) : list (string * value) := foldl (λ m e, om_put e.1 e.2 m) [] (wide_entries round n).
Definition arr_of (round : Z) (s : shape) : list value :=
  (λ i, VString (filled (elem_size s) (elem_fill round i))) <$> indices (array_count s).
Definition populated (round : Z) (s : shape) (m : list (string * value)) : list (string * value) :=
  let m := om_put "wide" (VObject (wide_of round (wide_count s))) m in
  let deep := default VNull (om_find "deep" m) in
  let m := om_put "deep" (apply_edit (walk (replicate (Z.to_nat (depth s)) "lvl") (e_integer round)) deep) m in
  let m := om_put "arr" (VArray (arr_of round s)) m in
  om_put "blob" (VString (filled (blob_size s) (blob_fill round))) m.
Lemma apply_populate moved round s v :
  apply_edit (populate moved round s) v = VObject (populated round s (object_content v)).
Proof.
  assert (∀ l m, foldl (λ v i, apply_edit (e_key (wide_key i) (e_integer (wide_value round i))) v) (VObject m) l =
    VObject (foldl (λ m e, om_put e.1 e.2 m) m ((λ i, (wide_key i, VInteger (wide_value round i))) <$> l))) as Hw.
  { induction l as [|i l IH]; intros m; [done|]. simpl. apply IH. }
  assert (∀ l a, foldl (λ v i, apply_edit (e_push (moved i) (VString (filled (elem_size s) (elem_fill round i)))) v) (VArray a) l =
    VArray (a ++ ((λ i, VString (filled (elem_size s) (elem_fill round i))) <$> l))) as Ha.
  { induction l as [|i l IH]; intros a; simpl; [by rewrite app_nil_r|]. rewrite IH. simpl. by rewrite <- app_assoc. }
  unfold populate, populated. cbn -[each walk om_put om_find]. rewrite !apply_each, Hw, Ha.
  done.
Qed.

(** ** What [verify] finds *)
Lemma indices_spec n i : i ∈ indices n ↔ 0 ≤ i < n.
Proof.
  unfold indices. rewrite list_elem_of_fmap. setoid_rewrite elem_of_seq. split; [intros (k & -> & Hk); lia|].
  intros Hi. exists (Z.to_nat i). lia.
Qed.
Lemma indices_NoDup n : NoDup (indices n).
Proof. apply (NoDup_fmap_2 _), NoDup_seq. Qed.
Lemma wide_keys_NoDup round n : NoDup (wide_entries round n).*1.
Proof.
  unfold wide_entries. rewrite <- list_fmap_compose. apply NoDup_fmap_2_strong; [|apply indices_NoDup].
  intros i j _ _. apply wide_key_inj.
Qed.
Lemma wide_found round n i : 0 ≤ i < n → om_find (wide_key i) (wide_of round n) = Some (VInteger (wide_value round i)).
Proof.
  intros Hi. apply om_find_put_list; [apply wide_keys_NoDup|constructor|]. left.
  unfold wide_entries. apply list_elem_of_fmap. exists i. split; [done|by apply indices_spec].
Qed.
Lemma om_put_new {V} (k : string) (v : V) m : om_find k m = None → size (om_put k v m) = size m + 1.
Proof.
  induction m as [|[k0 v0] m IH]; simpl; [done|]. destruct (less k k0); [intros _; by autorewrite with size; lia|].
  destruct (less k0 k); [|done]. intros Hn. autorewrite with size. rewrite IH by done. lia.
Qed.
Lemma put_all_size (l acc : list (string * value)) :
  NoDup l.*1 → om_sorted acc → (∀ k, k ∈ l.*1 → om_find k acc = None) → size (foldl (λ m e, om_put e.1 e.2 m) acc l) = size acc + size l.
Proof.
  revert acc. induction l as [|[k x] l IH]; intros acc Hd Hs Hn; simpl; [autorewrite with size; lia|].
  apply NoDup_cons in Hd as [Hk Hd]. rewrite IH; [|done|by apply om_put_sorted|].
  - cbn [fst snd]. rewrite (om_put_new k x acc) by (apply Hn; by left). autorewrite with size. lia.
  - intros k' Hk'. rewrite om_find_put_ne by (done || by intros ->). apply Hn. by right.
Qed.
Lemma indices_size n : 0 ≤ n → size (indices n) = n.
Proof. intros. unfold indices, size. rewrite length_fmap, length_seq. lia. Qed.
Lemma wide_size round n : 0 ≤ n → size (wide_of round n) = n.
Proof.
  intros Hn. unfold wide_of. rewrite put_all_size; [|apply wide_keys_NoDup|constructor|done].
  unfold wide_entries, size. rewrite length_fmap. by apply indices_size.
Qed.
Lemma sample_run fuel : ∀ i n test,
  0 ≤ i → n - i ≤ Z.of_nat fuel → 0 ≤ n < 2 ^ 31 → (∀ j, 0 ≤ j < n → test j = Ok tt) → sample fuel i n test = Ok tt.
Proof.
  induction fuel as [|fuel IH]; intros i n test Hi Hf Hn Ht; simpl; (destruct (Z.ltb_spec i n); [|done]); [lia|].
  rewrite Ht by lia. cbn [mbind result_bind]. pose proof (Z.div_le_upper_bound n 64 (2 ^ 26)). pose proof (Z.div_pos n 64).
  assert (u32 (i + Z.max 1 (n / 64)) = i + Z.max 1 (n / 64)) as -> by (unfold u32; apply Z.mod_small; lia).
  apply IH; [lia|lia|done|done].
Qed.
Lemma follow_walk path r v : follow path (apply_edit (walk path (e_integer r)) v) = Ok (VInteger r).
Proof.
  revert v. induction path as [|key path IH]; intros v; [done|]. cbn -[om_put om_find]. unfold at_const. cbn -[om_put om_find].
  rewrite om_find_put. cbn [mbind result_bind]. apply IH.
Qed.
Lemma filled_front n c : 1 ≤ n → front (filled n c) = Ok c.
Proof. intros Hn. unfold filled. by replace (Z.to_nat n) with (S (Z.to_nat (n - 1))) by lia. Qed.
Lemma filled_back n c : 1 ≤ n → back (filled n c) = Ok c.
Proof.
  intros Hn. unfold back, filled. rewrite String.list_ascii_of_string_of_list_ascii.
  replace (Z.to_nat n) with (S (Z.to_nat (n - 1))) by lia. rewrite replicate_S_end. by rewrite last_snoc.
Qed.
Lemma filled_size n c : 0 ≤ n → ssize (filled n c) = n.
Proof.
  intros Hn. unfold filled, ssize. assert (∀ l, String.length (String.string_of_list_ascii l) = length l) as ->.
  { induction l as [|a l IH]; simpl; congruence. }
  rewrite length_replicate. lia.
Qed.

(** The shapes of the scenario, for scales up to 2^20. *)
Record shape_ok (s : shape) : Prop := {
  sh_wide : 0 ≤ wide_count s < 2 ^ 30;
  sh_array : 0 ≤ array_count s < 2 ^ 30;
  sh_depth : 0 ≤ depth s ≤ 500;
  sh_elem : elem_size s = 48;
  sh_blob : 1 ≤ blob_size s ≤ 2 ^ 22
}.
Lemma make_shape_ok scale : 1 ≤ scale ≤ 2 ^ 20 → shape_ok (make_shape scale).
Proof. intros Hs. split; simpl; unfold u32; rewrite ?Z.mod_small by lia; lia. Qed.
Lemma verify_populated round s m :
  shape_ok s → om_sorted m → verify (populated round s m) round s = Ok tt.
Proof.
  intros [Hw Ha Hd He Hb] Hm. unfold populated, verify. set (m1 := om_put "wide" _ m).
  set (deep := apply_edit _ _). set (m2 := om_put "deep" deep m1). set (m3 := om_put "arr" _ m2).
  assert (om_sorted m1 ∧ om_sorted m2 ∧ om_sorted m3) as (S1 & S2 & S3) by (split_and!; repeat apply om_put_sorted; done).
  assert (∀ k x m', om_find k m' = Some x → entry_at k m' = Ok x) as Hat by (intros k x m' E; unfold entry_at; by rewrite E).
  rewrite (Hat "wide" (VObject (wide_of round (wide_count s)))).
  2:{ rewrite om_find_put_ne by done. unfold m3. rewrite om_find_put_ne by done. unfold m2. rewrite om_find_put_ne by done. apply om_find_put. }
  cbn [mbind result_bind object_content]. rewrite wide_size, Z.eqb_refl by lia. cbn [verified mbind result_bind].
  rewrite sample_run; [|lia|lia|lia|].
  2:{ intros j Hj. rewrite (Hat _ _ _ (wide_found round _ j Hj)). cbn [mbind result_bind as_integer]. by rewrite Z.eqb_refl. }
  cbn [mbind result_bind]. rewrite (Hat "deep" deep).
  2:{ rewrite om_find_put_ne by done. unfold m3. rewrite om_find_put_ne by done. apply om_find_put. }
  cbn [mbind result_bind]. unfold deep. rewrite follow_walk. cbn [mbind result_bind as_integer]. rewrite Z.eqb_refl. cbn [verified mbind result_bind].
  rewrite (Hat "arr" (VArray (arr_of round s))) by (rewrite om_find_put_ne by done; apply om_find_put).
  assert (size (arr_of round s) = array_count s) as Es.
  { unfold arr_of, size. rewrite length_fmap. apply indices_size. lia. }
  cbn [mbind result_bind array_content]. rewrite Es, Z.eqb_refl. cbn [verified mbind result_bind].
  rewrite sample_run; [|lia|lia|lia|].
  2:{ intros j Hj. unfold arr_of, indices. rewrite !list_lookup_fmap, lookup_seq_lt by lia. cbn [fmap option_fmap option_map].
      cbn [as_string_const mbind result_bind]. rewrite Nat.add_0_l, Z2Nat.id by lia. by rewrite bool_decide_true. }
  cbn [mbind result_bind]. rewrite (Hat "blob" _ _ (om_find_put _ _ _)). cbn [mbind result_bind string_content].
  rewrite filled_size, Z.eqb_refl by lia. cbn [verified mbind result_bind].
  rewrite filled_front by lia. cbn [mbind result_bind]. rewrite bool_decide_true by done. cbn [negb].
  rewrite filled_back by lia. cbn [mbind result_bind]. by rewrite bool_decide_true.
Qed.

(** ** How large it is *)
Lemma adds_more a b e : adds a e → a ≤ b → adds b e.
Proof. intros He Hab bound v Hv Hu. eapply good_more; [apply He; [done|lia]|lia]. Qed.
Lemma adds_seq a b e1 e2 : 0 ≤ b → adds a e1 → adds b e2 → adds (a + b) (e_seq e1 e2).
Proof. intros Hb H1 H2 bound v Hv Hu. simpl. rewrite Z.add_assoc. apply H2; [apply H1; [done|lia]|lia]. Qed.
Lemma adds_each a f l : 0 ≤ a → (∀ i, i ∈ l → adds a (f i)) → adds (a * size l) (each f l).
Proof.
  intros Ha. induction l as [|i l IH]; intros Hf; simpl; autorewrite with size; [rewrite Z.mul_0_r; apply adds_none|].
  pose proof (size_nonneg l). rewrite Z.mul_add_distr_l, Z.mul_1_r. apply adds_seq; [nia|apply Hf; by left|].
  apply IH. intros j Hj. apply Hf. by right.
Qed.
Lemma adds_integer z : is_i64 z → adds 9 (e_integer z).
Proof. intros Hz. apply (adds_copy 9 (VInteger z)). by split; [constructor| |]. Qed.
Lemma good_string x : is_u64 (ssize x) → good (9 + ssize x) (VString x).
Proof.
  intros Hx. split; [by constructor|done|]. unfold weight. cbn [value_encode]. autorewrite with size. lia.
Qed.
Lemma adds_string x : is_u64 (ssize x) → adds (9 + ssize x) (e_string x).
Proof. intros Hx. apply (adds_copy _ (VString x)), good_string, Hx. Qed.
Lemma adds_as_object : adds 8 e_as_object.
Proof.
  intros bound v Hv Hu. destruct (object_parts _ _ Hv) as (Hs & Hk & Hf & Hb). simpl. apply good_object; (done || lia).
Qed.
Lemma adds_empty v0 : v0 = VObject [] ∨ v0 = VArray [] → adds 8 (e_copy v0).
Proof.
  intros E bound v Hv _. pose proof (good_bound _ _ Hv). assert (good 9 v0) as Hg by by destruct E as [->| ->]; repeat constructor.
  eapply good_more; [exact Hg|lia].
Qed.
Lemma adds_chain more d e : 0 ≤ more → adds more e → adds (more + 20 * Z.of_nat d) (walk (replicate d "lvl") e).
Proof.
  intros Hm He. induction d as [|d IH]; simpl; [by rewrite Z.add_0_r|].
  eapply adds_more; [apply (adds_key (more + 20 * Z.of_nat d) "lvl"); [lia|done|exact IH]|]. change (ssize "lvl") with 3. lia.
Qed.
Lemma adds_populate moved round s : shape_ok s → 0 ≤ round ≤ 1 → adds (2 ^ 37) (populate moved round s).
Proof.
  intros [Hw Ha Hd He Hb] Hr. pose proof (indices_size (wide_count s) ltac:(lia)) as Nw.
  pose proof (indices_size (array_count s) ltac:(lia)) as Na.
  assert (adds (59 * wide_count s) (each (λ i, e_key (wide_key i) (e_integer (wide_value round i))) (indices (wide_count s)))) as Wide.
  { rewrite <- Nw at 1. apply adds_each; [lia|]. intros i Hi%indices_spec. pose proof (wide_key_size i ltac:(lia)).
    pose proof (ssize_nonneg (wide_key i)). eapply adds_more; [apply (adds_key 9); [lia|unfold is_u64, u64_bound; lia|]|lia].
    apply adds_integer. unfold is_i64, wide_value. lia. }
  assert (adds (65 * array_count s) (each (λ i, e_push (moved i) (VString (filled (elem_size s) (elem_fill round i)))) (indices (array_count s)))) as Arr.
  { rewrite <- Na at 1. apply adds_each; [lia|]. intros i _. apply (adds_push 57).
    pose proof (good_string (filled (elem_size s) (elem_fill round i))) as Hg. rewrite filled_size in Hg by lia. rewrite He in *. by apply Hg. }
  assert (adds (9 + 2 ^ 22) (e_string (filled (blob_size s) (blob_fill round)))) as Blob.
  { eapply adds_more; [apply adds_string|]; rewrite filled_size by lia; [unfold is_u64, u64_bound; lia|lia]. }
  pose proof (adds_chain 9 (Z.to_nat (depth s)) (e_integer round) ltac:(lia) (adds_integer round ltac:(unfold is_i64; lia))) as Deep.
  pose proof (adds_seq 8 (59 * wide_count s) (e_copy (VObject [])) _ ltac:(lia) (adds_empty _ (or_introl eq_refl)) Wide) as Wide'.
  pose proof (adds_seq 8 (65 * array_count s) (e_copy (VArray [])) _ ltac:(lia) (adds_empty _ (or_intror eq_refl)) Arr) as Arr'.
  pose proof (adds_key (8 + 59 * wide_count s) "wide" (e_seq e_as_object (e_seq e_clear_object _)) ltac:(lia) ltac:(done) Wide') as K1.
  pose proof (adds_key (8 + 65 * array_count s) "arr" (e_seq e_as_array (e_seq e_clear_array _)) ltac:(lia) ltac:(done) Arr') as K3.
  pose proof (adds_key (9 + 20 * Z.of_nat (Z.to_nat (depth s))) "deep" _ ltac:(lia) ltac:(done) Deep) as K2. pose proof (adds_key (9 + 2 ^ 22) "blob" _ ltac:(lia) ltac:(done) Blob) as K4.
  rewrite Z2Nat.id in K2 by lia. eapply adds_more.
  - apply adds_seq; [|exact K1|apply adds_seq; [|exact K2|apply adds_seq; [|exact K3|exact K4]]]; pose proof (ssize_nonneg "x");
      change (ssize "arr") with 3; change (ssize "deep") with 4; change (ssize "blob") with 4; lia.
  - change (ssize "wide") with 4. change (ssize "arr") with 3. change (ssize "deep") with 4. change (ssize "blob") with 4. lia.
Qed.

(** ** The scenario *)
Section scenario.
Context {W : Type} `{HW : storage_reliable W} (self : Z) (moved : Z → bool) (directory : string) (Hdirectory : directory ≠ "").
Context (s : shape) (Hshape : shape_ok s).
Implicit Types (h : heap_state) (w : W) (A : amap) (m : list (string * value)).
Let config : heap_config := default_config directory.
#[local] Abbreviation in_service := (in_service (W:=W) config).

(** After [n] rounds: one root, not too large. *)
Record rounds_done (n : Z) h w A v : Prop := {
  rn_service : in_service h w A ∅;
  rn_counters : room 10 (1 + 6 * n) h;
  rn_alone : A = ∅ ∨ ∃ a, A = {["root" := a]};
  rn_root : root_value A "root" = Ok v;
  rn_version : 0 ≤ version_in A "root" ≤ n;
  rn_good : good (1 + 2 ^ 37 * n) v;
  rn_saveable : saveable A
}.
Lemma alone_saveable A v : A = ∅ ∨ (∃ a, A = {["root" := a]}) → weight v ≤ max_frame_size → saveable (with_root A "root" v).
Proof using Type.
  intros HA Hv. assert (∃ a, with_root A "root" v = {["root" := a]} ∧ a_type a = value_type_name ∧ a_payload a = stored v) as (a & -> & Et & Ep).
  { exists (ARoot (version_in A "root" + 1) value_type_name (stored v)). split; [|done]. unfold with_root.
    destruct HA as [->|[a ->]]; [apply insert_empty|apply insert_singleton_eq]. }
  split; [rewrite map_to_list_singleton; by apply Z.leb_le|]. intros name a'. intros [<- <-]%lookup_singleton_Some.
  rewrite Et, Ep. split_and!; [done|done|exact Hv].
Qed.
Lemma rounds_storable n h w A v v' :
  rounds_done n h w A v → 0 ≤ n ≤ 1 → good (1 + 2 ^ 37 * (n + 1)) v' → storable h A ∅ "root" v'.
Proof using Type.
  intros [Hs [Hq Ht] HA _ Hver _ _] Hn [Hw _ Hb]. unfold weight in Hb.
  split; [done|unfold u64_bound; lia| | |unfold u64_bound; lia|unfold is_u64, u64_bound; lia|done].
  - match goal with |- size (e_bytes (encode_update ?u)) + _ ≤ _ => destruct (size_encode_update u) as [-> ->] end.
    cbn [u_name u_type u_payload]. change (ssize value_type_name) with 15. change (ssize "root") with 4. unfold max_frame_size. lia.
  - apply alone_saveable; [done|]. unfold weight, max_frame_size. lia.
Qed.
Lemma populated_good round n v :
  0 ≤ round ≤ 1 → 0 ≤ n ≤ 1 → good (1 + 2 ^ 37 * n) v →
  good (1 + 2 ^ 37 * (n + 1)) (VObject (populated round s (object_content v))).
Proof.
  intros Hr Hn Hv. rewrite <- (apply_populate moved). replace (1 + 2 ^ 37 * (n + 1)) with (1 + 2 ^ 37 * n + 2 ^ 37) by lia.
  apply adds_populate; [done|done|done|unfold u64_bound; lia].
Qed.
Lemma write_round_run round n h w A v :
  rounds_done n h w A v → 0 ≤ round ≤ 1 → 0 ≤ n ≤ 1 → hs_next_transaction h ≤ 1 + 3 * n → hs_wal_sequence h ≤ 3 * n →
  let v' := VObject (populated round s (object_content v)) in
  ∃ h' w' A', in_session self (write_round moved round s) (h, w) = (Ok tt, (h', w')) ∧ rounds_done (n + 1) h' w' A' v' ∧
    hs_next_transaction h' ≤ 2 + 3 * n ∧ hs_wal_sequence h' ≤ 3 * (n + 1).
Proof.
  intros Hd Hr Hn Ht Hq v'. pose proof Hd as [Hs [Hq0 Ht0] HA Hroot Hver Hgood Hsave].
  destruct (root_in_service config self h w A ∅ "root" v Hs ltac:(done) Hroot) as (k & w1 & E & Hs1).
  destruct (object_root_loaded self h A "root" v _ _ E) as (t1 & r1 & E1 & He1).
  destruct (edit_edited self h A "root" v _ _ _ (populate moved round s) (set_cache k (begun h), w1) He1) as (t & r & E2 & He).
  rewrite apply_populate in He. change (object_content (apply_edit e_as_object v)) with (object_content v) in He. fold v' in He.
  pose proof (populated_good round n v Hr Hn Hgood) as Hgood'. fold v' in Hgood'.
  destruct (edited_commit config self h w1 A ∅ "root" _ t r _ k He Hs1 (rounds_storable n h w A v v' Hd Hn Hgood'))
    as (t' & h' & w' & A' & p' & E3 & Hs' & Hp & HA' & Hq' & Hn').
  assert (p' = ∅) as -> by by destruct Hp.
  exists h', w', A'. split; [|split; [split|]].
  - rewrite (in_session_spec _ _ _ _ _ _ _ Hs). unfold write_round. m_run E1. m_run E2. unfold fst, snd. by rewrite E3.
  - done.
  - rewrite u64_small in Hn' by (unfold is_u64, u64_bound; lia). split; lia.
  - destruct HA' as [[-> _]| ->]; [done|]. right. unfold with_root. destruct HA as [->|[a ->]]; eexists; [apply insert_empty|apply insert_singleton_eq].
  - destruct HA' as [[-> Ev]| ->]; [by rewrite Ev|]. apply root_value_with, Hgood'.
  - destruct HA' as [[-> _]| ->]; [lia|]. unfold version_in at 1 2, with_root. rewrite lookup_insert_eq. simpl. lia.
  - done.
  - destruct HA' as [[-> _]| ->]; [done|]. apply alone_saveable; [done|]. destruct Hgood' as [_ _ Hb]. unfold max_frame_size. lia.
  - rewrite u64_small in Hn' by (unfold is_u64, u64_bound; lia). lia.
Qed.
Lemma read_round_run round h w A p m :
  in_service h w A p → root_value A "root" = Ok (VObject (populated round s m)) → om_sorted m →
  ∃ h' w', in_session self (read_round round s) (h, w) = (Ok tt, (h', w')) ∧ in_service h' w' A p ∧
    hs_wal_sequence h' = hs_wal_sequence h ∧ hs_next_transaction h' = u64 (hs_next_transaction h + 1).
Proof.
  intros Hs Hroot Hm. destruct (root_in_service config self h w A p "root" _ Hs ltac:(done) Hroot) as (k & w1 & E & Hs1).
  destruct (object_root_loaded self h A "root" _ _ _ E) as (t1 & r1 & E1 & He1).
  exists (set_cache k (begun h)), w1. split_and!; [|done|done|done].
  rewrite (in_session_spec _ _ _ _ _ _ _ Hs). unfold read_round. m_run E1.
  m_run (contents_edited self _ _ _ _ _ _ _ (set_cache k (begun h), w1) He1). unfold lift_result, fst, snd.
  cbn [apply_edit object_content]. by rewrite verify_populated.
Qed.
Lemma read_rounds n round h w A m :
  rounds_done n h w A (VObject (populated round s m)) → om_sorted m → hs_next_transaction h < 1 + 6 * n → 0 ≤ n ≤ 2 →
  ∃ h' w', in_session self (read_round round s) (h, w) = (Ok tt, (h', w')) ∧ rounds_done n h' w' A (VObject (populated round s m)) ∧
    hs_wal_sequence h' = hs_wal_sequence h ∧ hs_next_transaction h' = hs_next_transaction h + 1.
Proof.
  intros [Hs [Hq Ht] HA Hroot Hver Hgood Hsave] Hm Hlt Hn. destruct (read_round_run round h w A ∅ m Hs Hroot Hm) as (h' & w' & E & Hs' & Eq & Et).
  rewrite u64_small in Et by (unfold is_u64, u64_bound; lia). exists h', w'. split_and!; [done| |done|done]. split; try done. split; lia.
Qed.
Lemma payload_rounds_run h w :
  rounds_done 0 h w ∅ VNull → hs_next_transaction h = 1 → hs_wal_sequence h = 0 →
  ∃ h' h2 w' A m, payload_rounds self moved s (h, w) = (Ok tt, (h', w')) ∧ in_service h2 w' A ∅ ∧
    root_value A "root" = Ok (VObject (populated 1 s m)) ∧ om_sorted m.
Proof.
  intros Hd Ht Hq. set (m1 := populated 0 s []).
  assert (om_sorted ([] : list (string * value))) as Hm0 by constructor.
  destruct (write_round_run 0 0 h w ∅ VNull Hd) as (h1 & w1 & A1 & E1 & Hd1 & T1 & Q1); [lia..|].
  change (VObject (populated 0 s (object_content VNull))) with (VObject (populated 0 s [])) in Hd1. change (0 + 1) with 1 in Hd1.
  destruct (read_rounds 1 0 h1 w1 A1 [] Hd1 Hm0) as (h2 & w2 & E2 & Hd2 & Q2 & T2); [lia..|].
  destruct (write_round_run 1 1 h2 w2 A1 _ Hd2) as (h3 & w3 & A3 & E3 & Hd3 & T3 & Q3); [lia..|].
  cbn [object_content] in Hd3. fold m1 in Hd3. change (1 + 1) with 2 in Hd3.
  assert (om_sorted m1) as Hm1 by apply (object_parts _ _ (rn_good _ _ _ _ _ Hd2)).
  destruct (read_rounds 2 1 h3 w3 A3 m1 Hd3 Hm1) as (h4 & w4 & E4 & Hd4 & Q4 & T4); [lia..|].
  destruct (checkpoint_in_service config h4 w4 A3 ∅ (rn_service _ _ _ _ _ Hd4) (rn_saveable _ _ _ _ _ Hd4)) as (h5 & w5 & E5 & Hs5 & _ & _).
  destruct (read_round_run 1 h5 w5 A3 ∅ m1 Hs5 (rn_root _ _ _ _ _ Hd4) Hm1) as (h6 & w6 & E6 & Hs6 & _ & _).
  eexists _, h6, w6, A3, m1. split_and!; [|exact Hs6|exact (rn_root _ _ _ _ _ Hd4)|exact Hm1].
  unfold payload_rounds. m_run E1. m_run E2. m_run E3. m_run E4. m_run E5. m_run E6. reflexivity.
Qed.
End scenario.

Lemma large_payload_run {W : Type} `{storage_reliable W} self moved directory scale (w : W) :
  directory ≠ "" → 1 ≤ scale ≤ 2 ^ 20 → reliable w →
  file_of w (wal_path (default_config directory)) = None → file_of w (snap_path (default_config directory)) = None →
  ∃ w', large_payload self moved directory scale w = (Ok tt, w') ∧ reliable w'.
Proof.
  intros Hd Hscale Hrel Hw Hsn. set (config := default_config directory).
  destruct (fresh_in_service config w Hd ltac:(done) Hw Hsn Hrel) as (h & w1 & E1 & Hs1 & Q1 & T1 & _).
  pose proof (make_shape_ok scale Hscale) as Hshape. set (s := make_shape scale) in *.
  destruct (payload_rounds_run self moved directory s Hshape h w1) as (h2 & h2' & w2 & A & m & E2 & Hs2 & Hroot & Hm); [|done|done|].
  { split; [done|split; lia|by left|done|done|exact good_null|]. split; [by apply Z.leb_le|by intros name a ?]. }
  destruct (reopened_in_service config h2' w2 A ∅ Hd ltac:(done) Hs2) as (h3 & w3 & E3 & Hs3 & _ & _).
  destruct (read_round_run self directory s Hshape 1 h3 w3 A ∅ m Hs3 Hroot Hm) as (h4 & w4 & E4 & (Hi4 & Hrel4 & _) & _ & _).
  destruct (integrity_spec config h4 w4 A ∅ Hi4) as (report & w5 & E5 & _ & _ & Hok). destruct (Hok Hrel4) as [Hreport Hrel5].
  exists w5. split; [|done]. unfold large_payload. fold config s. m_run E1.
  assert (with_local h (payload_rounds self moved s) w1 = (Ok tt, w2)) as E by (unfold with_local; by rewrite E2).
  m_run E. m_run E3. unfold with_local. m_run E4. m_run E5. unfold check. by rewrite Hreport.
Qed.

(** Large roots survive.  For every scale up to 2^20, on reliable storage that has no heap in the
    directory yet, the scenario ends without a failed check: wide, deep, long and large data are read
    back as they were written, by the session that follows, when other large data have replaced
    them, after a checkpoint, and by a heap that is opened again; and the check of integrity
    passes.  Every loop of it ends. *)
Theorem large_payload_survives {W : Type} `{storage_reliable W} self moved directory scale (w : W) :
  directory ≠ "" → 1 ≤ scale ≤ 2 ^ 20 → reliable w →
  file_of w (wal_path (default_config directory)) = None → file_of w (snap_path (default_config directory)) = None →
  ∃ w', large_payload self moved directory scale w = (Ok tt, w') ∧ reliable w'.
Proof. apply large_payload_run. Qed.
Lemma large_payload_survives_witness :
  ∃ w', large_payload 7 (λ _, true) "db" 1 Disk.empty = (Ok tt, w') ∧ reliable w'.
Proof. apply (large_payload_survives 7 (λ _, true) "db" 1 Disk.empty); reflexivity || discriminate || (split; discriminate). Defined.
(** A small shape, run: what is written is what is verified, and not for another round. *)
Example small_shape :
  let s := Shape 70 3 70 4 9 in
  verify (object_content (apply_edit (populate (λ _, false) 1 s) VNull)) 1 s = Ok tt ∧
  verify (object_content (apply_edit (populate (λ _, false) 0 s) VNull)) 1 s =
    Throw (runtime_error "wide object value corrupted across round-trip").
Proof. vm_compute. split; reflexivity. Qed.
