(* ===== verification/Stress.v ===== *)
(** * The runner of the stress tests: [stress/support.hpp] and [stress/main.cpp].

    The arguments select scenarios and their size; the runner runs the selected ones of its registry
    in order, reports each and counts them.  The scenarios of files Fuzz, Fault and LargePayload are
    such scenarios. *)
From stdpp Require Import pretty.
From S2P Require Import Prelude.
From S2P Require Import Chars.
From S2P Require Import Console.
From S2P Require Import Storage.
From S2P Require Import Heap.
From S2P Require Import Fuzz.
From S2P Require Import Fault.
From S2P Require Import LargePayload.
From Stdlib Require Import Ascii.
#[local] Open Scope Z_scope.

Record options := Options { op_scale : Z; op_seed : Z; op_only : list string }.
Definition set_scale (z : Z) (o : options) : options := Options z (op_seed o) (op_only o).
Definition set_seed (z : Z) (o : options) : options := Options (op_scale o) z (op_only o).
Definition select (name : string) (o : options) : options := Options (op_scale o) (op_seed o) (op_only o ++ [name]).
Definition should_run (o : options) (name : string) : bool :=
  match op_only o with [] => true | only => existsb (λ wanted, bool_decide (wanted = name)) only end.

(** ** The arguments *)

(** [std::stoull], and [std::stoul] where [unsigned long] has 64 bits: white space, a sign, digits;
    [None] is an exception, which here nobody catches. *)
Definition stoull (text : string) : option Z :=
  let '(_, l) := span is_space (chars_of text) in
  let '(negative, l) :=
    match l with
    | c :: l' => if char_is c "-" then (true, l') else if char_is c "+" then (false, l') else (false, l)
    | [] => (false, l)
    end in
  match span is_digit l with
  | ([], _) => None
  | (digits, _) =>
      let z := digits_value digits in
      if z <? u64_bound then Some (if negative : bool then u64 (- z) else z) else None
  end.
Inductive parsed := Run (o : options) | Help.
Fixpoint parse_arguments (arguments : list string) (o : options) : option parsed :=
  match arguments with
  | [] => Some (Run (if op_scale o =? 0 then set_scale 1 o else o))
  | arg :: rest =>
      let other :=
        if bool_decide (arg = "--help") || bool_decide (arg = "-h") then Some Help
        else parse_arguments rest (select arg o) in
      match rest with
      | [] => other
      | value :: rest =>
          if bool_decide (arg = "--scale") then z ← stoull value; parse_arguments rest (set_scale (u32 z) o)
          else if bool_decide (arg = "--seed") then z ← stoull value; parse_arguments rest (set_seed z o)
          else other
      end
  end.
Definition stress_usage : string :=
  "usage: opheap_stress [--scale N] [--seed N] [scenario...]" +:+ end_of_line +:+
  "  --scale N   multiplies default iteration/thread/payload counts (default 1)" +:+ end_of_line +:+
  "  --seed N    seeds the deterministic RNGs used by randomized scenarios" +:+ end_of_line +:+
  "  scenario    run only the named scenario(s); default runs all" +:+ end_of_line.

(** ** Running *)
Record scenario (W : Type) := Scenario { sc_name : string; sc_run : options → M (console * W) unit }.
Arguments Scenario {W} _ _.
Arguments sc_name {W} _.
Arguments sc_run {W} _ _.
(** The seconds since the scenario began, as they are printed. *)
Class stopwatch (W : Type) := elapsed : M W string.

(** Reading the clock changes no file. *)
Class stopwatch_law (W : Type) `{storage_reliable W} `{!stopwatch W} :=
  elapsed_law w : reliable w → ∃ seconds w', elapsed w = (Ok seconds, w') ∧ reliable w' ∧ same_files w w'.

Section runner.
Context {W : Type} `{stopwatch W}.
Definition run_one (o : options) (s : scenario W) : M (console * W) bool :=
  _ ← put ("[RUN ] " +:+ sc_name s +:+ " (scale=" +:+ pretty (op_scale o) +:+ ", seed=" +:+ pretty (op_seed o) +:+ ")" +:+ end_of_line);
  catch (_ ← sc_run s o;
         seconds ← on_snd elapsed;
         _ ← put ("[PASS] " +:+ sc_name s +:+ " (" +:+ seconds +:+ "s)" +:+ end_of_line);
         mret true)
    (λ e, match e with
          | undefined _ | out_of_fuel => throw e
          | e =>
              seconds ← on_snd elapsed;
              _ ← put_error ("[FAIL] " +:+ sc_name s +:+ " (" +:+ seconds +:+ "s) - " +:+ error_message e +:+ end_of_line);
              mret false
          end).
Fixpoint run_each (o : options) (registry : list (scenario W)) (passed failed : Z) : M (console * W) (Z * Z) :=
  match registry with
  | [] => mret (passed, failed)
  | s :: registry =>
      if negb (should_run o (sc_name s)) then run_each o registry passed failed
      else
        b ← run_one o s;
        if b : bool then run_each o registry (u64 (passed + 1)) failed else run_each o registry passed (u64 (failed + 1))
  end.
Definition run_all (o : options) (registry : list (scenario W)) : M (console * W) Z :=
  counts ← run_each o registry 0 0;
  _ ← put (end_of_line +:+ pretty counts.1 +:+ " passed, " +:+ pretty counts.2 +:+ " failed" +:+ end_of_line);
  mret (if counts.2 =? 0 then 0 else 1).
(** The exit code; [None] if an exception ends the program.  [seed] is the random default. *)
Definition stress_main (registry : list (scenario W)) (seed : Z) (arguments : list string) : M (console * W) (option Z) :=
  match parse_arguments arguments (Options 1 seed []) with
  | None => mret None
  | Some Help => _ ← put stress_usage; mret (Some 0)
  | Some (Run o) => code ← run_all o registry; mret (Some code)
  end.
End runner.

(** ** The scenarios *)
Section scenarios.
Context {W : Type} `{storage W} `{!filesystem W} {R : Type} `{random R}.
(** The identity of transaction objects, the generator a seed gives, when vectors move, and the value
    of the counter of temporary directories when a scenario asks for its first one. *)
Context (self : Z) (generator : Z → R) (moved : Z → bool) (counter : string → Z).
Definition model_fuzz_scenario : scenario W := Scenario "model_fuzz" (λ o,
  directory ← on_snd (temporary_directory (counter "model_fuzz") "stress-model-fuzz");
  _ ← on_snd (model_fuzz self directory (op_scale o) (generator (op_seed o)));
  put ("  iterations=" +:+ pretty (u32 (2000 * op_scale o)) +:+ end_of_line)).
Definition fault_fuzz_scenario : scenario W := Scenario "fault_fuzz" (λ o,
  _ ← on_snd (fault_fuzz self (op_scale o) (counter "fault_fuzz") (generator (op_seed o)));
  put ("  trials=" +:+ pretty (u32 (20 * op_scale o)) +:+ end_of_line)).
Definition large_payload_scenario : scenario W := Scenario "large_payload" (λ o,
  let s := make_shape (op_scale o) in
  directory ← on_snd (temporary_directory (counter "large_payload") "stress-large-payload");
  _ ← put ("  wide=" +:+ pretty (wide_count s) +:+ " depth=" +:+ pretty (depth s) +:+
           " array=" +:+ pretty (array_count s) +:+ " blob_bytes=" +:+ pretty (blob_size s) +:+ end_of_line);
  on_snd (large_payload self moved directory (op_scale o))).
Definition sequential_scenarios : list (scenario W) := [fault_fuzz_scenario; large_payload_scenario; model_fuzz_scenario].
End scenarios.
