(* ===== verification/StressTheorems.v ===== *)
(** * What the runner of the stress tests reports, and that its scenarios pass. *)
From stdpp Require Import pretty.
From S2P Require Import Prelude.
From S2P Require Import Console.
From S2P Require Import Storage.
From S2P Require Import Heap.
From S2P Require Import HeapSpec.
From S2P Require Import Cli.
From S2P Require Import Fuzz.
From S2P Require Import FuzzTheorems.
From S2P Require Import Fault.
From S2P Require Import FaultTheorems.
From S2P Require Import LargePayload.
From S2P Require Import LargePayloadTheorems.
From S2P Require Import Stress.
#[local] Open Scope Z_scope.

(** ** The arguments *)
Example arguments_read :
  parse_arguments ["--scale"; "3"; "model_fuzz"; "--seed"; " 42"; "fault_fuzz"] (Options 1 7 []) =
    Some (Run (Options 3 42 ["model_fuzz"; "fault_fuzz"])) ∧
  parse_arguments ["--scale"; "0"] (Options 1 7 []) = Some (Run (Options 1 7 [])) ∧
  parse_arguments ["x"; "-h"; "--scale"] (Options 1 7 []) = Some Help ∧
  parse_arguments ["--scale"; "many"] (Options 1 7 []) = None ∧
  (** A number beyond 32 bits is cut, and the option without its number names a scenario. *)
  parse_arguments ["--scale"; "4294967298"] (Options 1 7 []) = Some (Run (Options 2 7 [])) ∧
  parse_arguments ["--scale"] (Options 1 7 []) = Some (Run (Options 1 7 ["--scale"])).
Proof. vm_compute. split_and!; reflexivity. Qed.
Lemma parsed_scale arguments : ∀ o o', parse_arguments arguments o = Some (Run o') → 0 ≤ op_scale o → 1 ≤ op_scale o'.
Proof.
  induction arguments as [arguments IH] using (induction_ltof1 _ (@length string)). unfold ltof in IH.
  intros o o' E Ho. destruct arguments as [|arg rest]; simpl in E.
  - destruct (Z.eqb_spec (op_scale o) 0); simplify_eq/=; lia.
  - assert ((if bool_decide (arg = "--help") || bool_decide (arg = "-h") then Some Help else parse_arguments rest (select arg o)) =
      Some (Run o') → 1 ≤ op_scale o') as Hother.
    { destruct (_ || _); [done|]. intros E'. by eapply (IH rest); [simpl; lia|exact E'|]. }
    destruct rest as [|value rest]; [by apply Hother|]. destruct (bool_decide (arg = "--scale")).
    + destruct (stoull value) as [z|]; [|done]. simpl in E. eapply (IH rest); [simpl; lia|exact E|].
      simpl. unfold u32. by apply Z.mod_pos_bound.
    + destruct (bool_decide (arg = "--seed")); [|by apply Hother].
      destruct (stoull value) as [z|]; [|done]. simpl in E. by eapply (IH rest); [simpl; lia|exact E|].
Qed.

(** ** Counting *)
Section runner.
Context {W : Type} `{stopwatch W}.
Implicit Types (s : scenario W) (registry : list (scenario W)) (x : console * W).
(** The outcomes of the selected scenarios, each run in the state that the ones before it left. *)
Fixpoint outcomes (o : options) registry x : list bool :=
  match registry with
  | [] => []
  | s :: registry =>
      if negb (should_run o (sc_name s)) then outcomes o registry x
      else match run_one o s x with (Ok b, x') => b :: outcomes o registry x' | (Throw _, _) => [] end
  end.
Definition failures (l : list bool) : Z := size (filter (λ b, b = false) l).
Definition passes (l : list bool) : Z := size (filter (λ b, b = true) l).
Lemma outcome_cons b l : passes (b :: l) = (if b then 1 else 0) + passes l ∧ failures (b :: l) = (if b then 0 else 1) + failures l.
Proof. unfold passes, failures. rewrite !filter_cons. destruct b; repeat case_decide; try done; autorewrite with size; lia. Qed.
(** The selected scenarios end in states that satisfy [I], with an exception of the program or without. *)
Definition ends_well (I : console * W → Prop) (o : options) registry : Prop := ∀ s x,
  s ∈ registry → should_run o (sc_name s) = true → I x → ∃ b x', run_one o s x = (Ok b, x') ∧ I x'.
Lemma run_each_counts I o registry : ∀ p f x,
  ends_well I o registry → I x → 0 ≤ p → 0 ≤ f → p + size registry < u64_bound → f + size registry < u64_bound →
  ∃ x', run_each o registry p f x = (Ok (p + passes (outcomes o registry x), f + failures (outcomes o registry x)), x') ∧ I x' ∧
    size (outcomes o registry x) = size (filter (λ s, should_run o (sc_name s) = true) registry).
Proof.
  induction registry as [|s registry IH]; intros p f x Hends HI Hp Hf Hpb Hfb.
  { exists x. split; [|done]. simpl. unfold mret, M_ret. do 3 f_equal; unfold passes, failures, size; simpl; lia. }
  assert (ends_well I o registry) as Hends' by (intros s' x' Hs'; apply Hends; by right).
  autorewrite with size in Hpb, Hfb. cbn [run_each outcomes]. rewrite filter_cons. destruct (should_run o (sc_name s)) eqn:Es; cbn [negb].
  2:{ destruct (IH p f x Hends' HI) as (x' & E & HI' & El); [lia..|]. exists x'. rewrite decide_False by done. by split_and!. }
  rewrite decide_True by done. destruct (Hends s x ltac:(by left) Es HI) as (b & x1 & E1 & HI1). rewrite E1. m_run E1. pose proof (size_nonneg registry).
  destruct (outcome_cons b (outcomes o registry x1)) as [-> ->]. destruct b; rewrite u64_small by (unfold is_u64; lia).
  - destruct (IH (p + 1) f x1 Hends' HI1) as (x' & E & HI' & El); [lia..|].
    exists x'. rewrite E. autorewrite with size. rewrite El. split_and!; [|done|lia]. do 3 f_equal; lia.
  - destruct (IH p (f + 1) x1 Hends' HI1) as (x' & E & HI' & El); [lia..|].
    exists x'. rewrite E. autorewrite with size. rewrite El. split_and!; [|done|lia]. do 3 f_equal; lia.
Qed.
Lemma failures_none l : failures l = 0 ↔ false ∉ l.
Proof.
  unfold failures. split.
  - intros E Hin. assert (false ∈ filter (λ b, b = false) l) as Hf by (by apply list_elem_of_filter).
    destruct (filter _ l) as [|b k]; [by apply not_elem_of_nil in Hf|]. autorewrite with size in E. pose proof (size_nonneg k). lia.
  - intros Hin. destruct (filter (λ b, b = false) l) as [|b k] eqn:Ef; [done|].
    assert (b ∈ filter (λ b, b = false) l) as Hf by (rewrite Ef; by left). by apply list_elem_of_filter in Hf as [-> Hf].
Qed.
Lemma all_pass l : false ∉ l → passes l = size l ∧ failures l = 0.
Proof.
  intros Hl. split; [|by apply failures_none]. induction l as [|b l IH]; [done|]. apply not_elem_of_cons in Hl as [Hb Hl].
  destruct (outcome_cons b l) as [-> _]. rewrite (IH Hl). autorewrite with size. by destruct b.
Qed.
Definition summary (passed failed : Z) : string :=
  end_of_line +:+ pretty passed +:+ " passed, " +:+ pretty failed +:+ " failed" +:+ end_of_line.
Lemma run_all_counts I o registry x :
  ends_well I o registry → I x → size registry < u64_bound →
  let l := outcomes o registry x in
  ∃ before x', run_all o registry x = (Ok (if bool_decide (false ∈ l) then 1 else 0), x') ∧
    size l = size (filter (λ s, should_run o (sc_name s) = true) registry) ∧
    cn_output x'.1 = before +:+ summary (passes l) (failures l).
Proof.
  intros Hends HI Hb l. destruct (run_each_counts I o registry 0 0 x Hends HI) as ([c w] & E & _ & El); [lia..|]. fold l in E, El.
  rewrite !Z.add_0_l in E. assert (bool_decide (false ∈ l) = negb (failures l =? 0)) as ->.
  { apply eq_true_iff_eq. rewrite bool_decide_eq_true, negb_true_iff, Z.eqb_neq, failures_none. split; [by intros ??|].
    destruct (decide (false ∈ l)); [done|]. by intros []. }
  exists (cn_output c). eexists. split_and!; [|exact El|].
  - unfold run_all. m_run E. unfold mbind, M_bind, put, on_fst, modify, mret, M_ret. unfold fst, snd. by destruct (failures l =? 0).
  - done.
Qed.
(** A scenario that fails does not keep the others from running; the last line counts those that
    passed and those that failed, and the exit code tells whether one has failed. *)
Theorem runner_reports I o registry x :
  ends_well I o registry → I x → size registry < u64_bound →
  let l := outcomes o registry x in
  ∃ before x', run_all o registry x = (Ok (if bool_decide (false ∈ l) then 1 else 0), x') ∧
    size l = size (filter (λ s, should_run o (sc_name s) = true) registry) ∧
    cn_output x'.1 = before +:+ summary (passes l) (failures l).
Proof. apply run_all_counts. Qed.
End runner.

(** ** The scenarios pass *)
Section scenarios.
Context {W : Type} `{HF : filesystem_laws W} `{!stopwatch W} `{!stopwatch_law W} {R : Type} `{HR : random_laws R}.
Context (self : Z) (generator : Z → R) (moved : Z → bool) (counter : string → Z).
Implicit Types (x : console * W).
Definition on_reliable x : Prop := reliable x.2.
Lemma temporary_directory_run n name w : reliable w → ∃ directory w',
  temporary_directory n name w = (Ok directory, w') ∧ reliable w' ∧ directory ≠ "" ∧
  file_of w' (wal_path (default_config directory)) = None ∧ file_of w' (snap_path (default_config directory)) = None.
Proof.
  intros Hrel. set (directory := path_join (temp_directory_path (W:=W)) ("opheap-test-" +:+ name +:+ "-" +:+ pretty n)).
  destruct (remove_all_law directory w Hrel) as (w1 & Er & Hrel1 & Hnone).
  destruct (make_directories_law directory w1 Hrel1) as (w2 & Em & Hrel2 & Hsame).
  exists directory, w2. split_and!; [|done| |by rewrite Hsame; apply Hnone..].
  - unfold temporary_directory. fold directory. m_run Er. by m_run Em.
  - unfold directory, path_join. by destruct (temp_directory_path (W:=W)).
Qed.
(** A computation that ends without an exception on reliable storage, and leaves it reliable. *)
Definition ends {A} (m : M (console * W) A) (P : A → Prop) : Prop :=
  ∀ x, on_reliable x → ∃ a x', m x = (Ok a, x') ∧ on_reliable x' ∧ P a.
Lemma ends_ret {A} (a : A) (P : A → Prop) : P a → ends (mret a) P.
Proof. intros Ha x Hx. by exists a, x. Qed.
Lemma ends_bind {A B} (m : M (console * W) A) (k : A → M (console * W) B) P Q :
  ends m P → (∀ a, P a → ends (k a) Q) → ends (m ≫= k) Q.
Proof. intros Hm Hk x Hx. destruct (Hm x Hx) as (a & x1 & E & Hx1 & Ha). destruct (Hk a Ha x1 Hx1) as (b & x2 & E2 & Hend). exists b, x2. by m_run E. Qed.
Lemma ends_put text : ends (put text) (λ _, True).
Proof. intros [c w] Hx. by eexists tt, (_, w). Qed.
Lemma ends_catch {A} (m : M (console * W) A) h P : ends m P → ends (catch m h) P.
Proof. intros Hm x Hx. destruct (Hm x Hx) as (a & x' & E & Hx' & Ha). exists a, x'. unfold catch. by rewrite E. Qed.
Lemma ends_on_snd {A} (m : M W A) (P : A → Prop) :
  (∀ w, reliable w → ∃ a w', m w = (Ok a, w') ∧ reliable w' ∧ P a) → ends (on_snd m) P.
Proof. intros Hm [c w] Hx. destruct (Hm w Hx) as (a & w' & E & Hw' & Ha). exists a, (c, w'). unfold on_snd. by rewrite E. Qed.
Lemma ends_elapsed : ends (on_snd elapsed) (λ _, True).
Proof. apply ends_on_snd. intros w Hw. destruct (elapsed_law w Hw) as (seconds & w' & E & Hw' & _). by exists seconds, w'. Qed.
Definition sound (o : options) (s : scenario W) : Prop := ends (sc_run s o) (λ _, True).
Lemma run_one_sound o s : sound o s → ends (run_one o s) (λ b, b = true).
Proof.
  intros Hs. unfold run_one. eapply ends_bind; [apply ends_put|intros _ _]. apply ends_catch.
  eapply ends_bind; [exact Hs|intros _ _]. eapply ends_bind; [apply ends_elapsed|intros seconds _].
  eapply ends_bind; [apply ends_put|intros _ _]. by apply ends_ret.
Qed.
(** A selection of sound scenarios passes. *)
Lemma sound_outcomes o registry : ∀ x,
  (∀ s, s ∈ registry → should_run o (sc_name s) = true → sound o s) → on_reliable x →
  ends_well on_reliable o registry ∧ false ∉ outcomes o registry x.
Proof.
  intros x Hsound Hx. split.
  { intros s y Hs Hrun Hy. destruct (run_one_sound o s (Hsound s Hs Hrun) y Hy) as (b & y' & E & Hy' & _). by exists b, y'. }
  revert x Hx. induction registry as [|s registry IH]; intros x Hx; [apply not_elem_of_nil|]. cbn [outcomes].
  assert (∀ s', s' ∈ registry → should_run o (sc_name s') = true → sound o s') as Hrest by (intros s' Hs'; apply Hsound; by right).
  destruct (should_run o (sc_name s)) eqn:Hrun; cbn [negb]; [|by apply IH].
  destruct (run_one_sound o s (Hsound s ltac:(by left) Hrun) x Hx) as (b & x' & E & Hx' & ->). rewrite E.
  apply not_elem_of_cons. split; [done|by apply IH].
Qed.
Lemma scenarios_sound o s : 1 ≤ op_scale o → (sc_name s = "large_payload" → op_scale o ≤ 2 ^ 20) →
  s ∈ sequential_scenarios (W:=W) self generator moved counter → sound o s.
Proof.
  intros Hscale Ho Hs. unfold sequential_scenarios in Hs. rewrite !elem_of_cons in Hs.
  destruct Hs as [->|[->|[->|?%not_elem_of_nil]]]; [..|done].
  - apply (ends_bind _ _ (λ _, True)); [|intros _ _; apply ends_put]. apply ends_on_snd. intros w Hw.
    destruct (run_trials_run self (Z.to_nat (u32 (20 * op_scale o))) 0 (counter "fault_fuzz") (generator (op_seed o)) w Hw) as (rng' & w' & E & Hw').
    exists tt, w'. split_and!; [|done..]. unfold fault_fuzz, with_local. by rewrite E.
  - intros [c w] Hw. destruct (temporary_directory_run (counter "large_payload") "stress-large-payload" w Hw) as (directory & w1 & E & Hw1 & Hd & Hwal & Hsnap).
    specialize (Ho eq_refl).
    edestruct (large_payload_run self moved directory (op_scale o) w1) as (w' & E' & Hw'); [done..|]. eexists tt, (_, w'). split_and!; [|exact Hw'|done].
    cbn [large_payload_scenario sc_run]. unfold mbind, M_bind, on_snd at 1. rewrite E. cbn [put on_fst]. unfold put, on_fst, modify, on_snd. by rewrite E'.
  - intros [c w] Hw. destruct (temporary_directory_run (counter "model_fuzz") "stress-model-fuzz" w Hw) as (directory & w1 & E & Hw1 & Hd & Hwal & Hsnap).
    edestruct (model_fuzz_run self directory (op_scale o) (generator (op_seed o)) w1) as (w' & E' & Hw'); [done..|]. eexists tt, (_, w'). split_and!; [|exact Hw'|done].
    cbn [model_fuzz_scenario sc_run]. unfold mbind, M_bind, on_snd at 1. rewrite E. unfold on_snd. by rewrite E'.
Qed.

(** C18: The stress program passes.  On reliable storage, with a file system whose directories can be
    emptied and a random number generator that draws from the ranges it is asked for: whatever the
    arguments, the seed and the state of the files, a run of the program that selects none but the
    scenarios of faults, of large data (at a scale up to 2^20) and of the fuzzer ends; every
    selected scenario passes, the last line counts them, and the exit code is 0. *)
Theorem stress_passes registry seed arguments o x :
  parse_arguments arguments (Options 1 seed []) = Some (Run o) → (should_run o "large_payload" = true → op_scale o ≤ 2 ^ 20) →
  size registry < u64_bound → on_reliable x →
  (∀ s, s ∈ registry → should_run o (sc_name s) = true → s ∈ sequential_scenarios (W:=W) self generator moved counter) →
  ∃ before x', stress_main registry seed arguments x = (Ok (Some 0), x') ∧
    cn_output x'.1 = before +:+ summary (size (filter (λ s, should_run o (sc_name s) = true) registry)) 0.
Proof.
  intros Ea Ho Hb Hx Hr. pose proof (parsed_scale _ _ _ Ea ltac:(simpl; lia)) as Hscale.
  destruct (sound_outcomes o registry x) as [Hends Hpass]; [|done|].
  { intros s Hs Hrun. apply scenarios_sound; [lia|intros Hn; apply Ho; by rewrite <- Hn|by apply Hr]. }
  destruct (run_all_counts on_reliable o registry x Hends Hx Hb) as (before & x' & E & El & Eout).
  destruct (all_pass _ Hpass) as [Ep Ef]. rewrite bool_decide_false in E by done. rewrite Ep, Ef, El in Eout.
  exists before, x'. split; [|done]. unfold stress_main. rewrite Ea. by m_run E.
Qed.
End scenarios.
(** A clock that has stopped. *)
Module StoppedClock.
#[global] Instance stopped : stopwatch Disk.disk := mret "0".
#[global] Instance stopped_law : stopwatch_law Disk.disk.
Proof. intros w Hw. by exists "0", w. Qed.
End StoppedClock.
Lemma stress_passes_witness :
  ∃ before x', stress_main (sequential_scenarios (W:=Disk.disk) 7 (λ z, z) (λ _, true) (λ _, 0)) 5 ["--scale"; "2"] (Console [] "" "", Disk.empty) =
      (Ok (Some 0), x') ∧
    cn_output x'.1 = before +:+ summary 3 0.
Proof.
  apply (stress_passes (W:=Disk.disk) 7 (λ z, z) (λ _, true) (λ _, 0)
    (sequential_scenarios (W:=Disk.disk) 7 (λ z, z) (λ _, true) (λ _, 0)) 5 ["--scale"; "2"] (Options 2 5 []) (Console [] "" "", Disk.empty)).
  - reflexivity.
  - discriminate.
  - reflexivity.
  - reflexivity.
  - by intros s Hs _.
Defined.
