(* ===== verification/Churn.v ===== *)
(** * Writers, readers and a checkpointer on one heap: [stress/scenarios/concurrent_churn.cpp].

    Every writer commits to roots of its own, readers look at roots of all writers, and one more
    thread checkpoints, until the writers have been joined and a flag stops the others; the cache is
    too small for the roots.  The heap runs as in file Concurrency, cut into sections between its
    locks; a worker stands beside its thread and says what it does next. *)
From stdpp Require Import pretty.
From S2P Require Import Prelude.
From S2P Require Import Binary.
From S2P Require Import OrderedMap.
From S2P Require Import Value.
From S2P Require Import Observer.
From S2P Require Import ObserverSpec.
From S2P Require Import Storage.
From S2P Require Import Journal.
From S2P Require Import Cache.
From S2P Require Import Heap.
From S2P Require Import Concurrency.
From S2P Require Import Transaction.
From S2P Require Import Cli.
From S2P Require Import Credentials.
From S2P Require Import Fuzz.
From S2P Require Import LargePayload.
From S2P Require Import Workers.
From Stdlib Require Import Ascii.
#[local] Open Scope Z_scope.

(** ** What is written *)
Definition churn_config (directory : string) : heap_config :=
  HeapConfig directory (64 * 1024) strict true (8 * 1024).
Definition writer_count (scale : Z) : Z := u32 (4 * scale).
Definition reader_count (scale : Z) : Z := u32 (2 * scale).
Definition roots_per_writer : Z := 8.
Definition rounds (scale : Z) : Z := u32 (25 * scale).
Definition writes_per_root (scale : Z) : Z := u32 (rounds scale * roots_per_writer).
Definition root_name (w r : Z) : string := "writer-" +:+ pretty w +:+ "-" +:+ pretty r.
Definition all_roots (scale : Z) : list string :=
  w ← indices (writer_count scale); r ← indices roots_per_writer; [root_name w r].
(** [all_roots[i]] *)
Definition nth_root (scale i : Z) : result string :=
  match all_roots scale !! Z.to_nat i with Some name => Ok name | None => Throw (undefined "operator[] out of range") end.
Definition target (scale w i : Z) : result string := nth_root scale (u32 (u32 (w * roots_per_writer) + i mod roots_per_writer)).
Definition churn_payload (w : Z) : string := filled 1024 (ascii_of_nat (97 + Z.to_nat (w mod 26))).
Definition churn_write (w i : Z) : edit := e_seq (e_key "seq" (e_integer i)) (e_key "payload" (e_string (churn_payload w))).
(** What a reader makes of a root: whether it was written yet; it must not be torn. *)
Definition churn_look (r : result loaded_root) : result bool :=
  loaded ← r;
  v ← decode_root loaded;
  match v with
  | VNull => Ok false
  | v =>
      m ← as_object_const v;
      if om_contains "seq" m then
        if om_contains "payload" m then Ok true else Throw (runtime_error "reader observed a torn/partial root")
      else Throw (runtime_error "reader observed a torn/partial root")
  end.

Section churn.
Context {R : Type} `{random R} {W : Type} `{storage W} (scale : Z) (self : nat → Z).

(** ** A worker *)

(** Where a worker stands: a writer before or inside its commit number [i], the checkpointer, a
    reader with its generator; or the end of its function, or an exception that nobody catches. *)
Inductive churner :=
| Writing (i : Z)
| Asking (i tx : Z)
| Loading (i tx : Z)
| Changing (i tx : Z) (updates : list root_update)
| Committing (i tx : Z)
| Turning
| Checkpointing
| Picking (rng : R)
| Wanting (rng : R)
| Choosing (rng : R) (name : string)
| Viewing (rng : R)
| Finished
| Broken (e : error).
(** What it does with the transaction [tx] that it begins. *)
Definition begins (stop : bool) (x : churner) (tx : Z) : option churner :=
  match x with
  | Writing i => if i <? writes_per_root scale then Some (Asking i tx) else None
  | Picking rng => if stop then None else Some (Wanting rng)
  | _ => None
  end.
(** What it does on its own: the end of a loop, or the choice of a root. *)
Definition turns (stop : bool) (x : churner) : option churner :=
  match x with
  | Writing i => if i <? writes_per_root scale then None else Some Finished
  | Turning | Picking _ => if stop then Some Finished else None
  | Wanting rng =>
      match pick 0 (size (all_roots scale) - 1) rng with
      | (Ok k, rng) => match nth_root scale k with Ok name => Some (Choosing rng name) | Throw e => Some (Broken e) end
      | (Throw e, _) => Some (Broken e)
      end
  | _ => None
  end.
(** The call it makes next, and where it waits for the end of it. *)
Definition calls (stop : bool) (j : nat) (x : churner) : option (call * churner) :=
  match x with
  | Asking i tx =>
      match target scale (Z.of_nat j) i with Ok name => Some (CallLoad name, Loading i tx) | Throw _ => None end
  | Changing i tx updates => Some (CallCommit tx updates, Committing i tx)
  | Turning => if stop then None else Some (CallCheckpoint, Checkpointing)
  | Choosing rng name => Some (CallLoad name, Viewing rng)
  | _ => None
  end.
(** What it makes of an event of its thread, and what it adds to [reads_ok]. *)
Definition churner_hears (j : nat) (e : event) (x : churner) : churner * Z :=
  match e with
  | Stepped _ | Committed _ _ | Saved _ => (x, 0)
  | LoadEnded _ name r =>
      match x with
      | Loading i tx =>
          match changed_root (self j) tx name (churn_write (Z.of_nat j) i) r with
          | Ok updates => (Changing i tx updates, 0)
          | Throw e => (Broken e, 0)
          end
      | Viewing rng =>
          match churn_look r with
          | Ok b => (Picking rng, if b : bool then 1 else 0)
          | Throw e => (Broken e, 0)
          end
      | _ => (Broken (undefined "no load to end"), 0)
      end
  | Ended _ r =>
      match x, r with
      | Committing i _, Ok _ => (Writing (i + 1), 0)
      | Checkpointing, Ok _ => (Turning, 0)
      | (Committing _ _ | Checkpointing), Throw e => (Broken e, 0)
      | _, _ => (Broken (undefined "no call to end"), 0)
      end
  | _ => (Broken (undefined "no such call"), 0)
  end.

(** ** The threads together *)
Record churn := Churn {
  ch_system : system W;
  ch_workers : list churner;
  ch_stop : bool;
  ch_reads : Z
}.
(** A step, and the thread that takes it; [None] is the thread that started the others, which sets
    the flag when it has joined the writers. *)
Inductive churn_step : churn → option nat → churn → Prop :=
| churn_begins s s' workers stop reads j x x' tx :
    workers !! j = Some x → begins stop x tx = Some x' → step s (Began j tx) s' →
    churn_step (Churn s workers stop reads) (Some j) (Churn s' (<[j := x']> workers) stop reads)
| churn_turns s workers stop reads j x x' :
    workers !! j = Some x → turns stop x = Some x' →
    churn_step (Churn s workers stop reads) (Some j) (Churn s (<[j := x']> workers) stop reads)
| churn_calls s s' workers stop reads j x c x' :
    workers !! j = Some x → calls stop j x = Some (c, x') → step s (Called j c) s' →
    churn_step (Churn s workers stop reads) (Some j) (Churn s' (<[j := x']> workers) stop reads)
| churn_runs s s' workers stop reads j x e x' more :
    heard_by e = Some j → workers !! j = Some x → step s e s' → churner_hears j e x = (x', more) →
    churn_step (Churn s workers stop reads) (Some j) (Churn s' (<[j := x']> workers) stop (u64 (reads + more)))
| churn_stops s workers reads :
    Forall (λ x, x = Finished) (take (Z.to_nat (writer_count scale)) workers) →
    churn_step (Churn s workers false reads) None (Churn s workers true reads).
Inductive churn_run : churn → list (option nat) → churn → Prop :=
| churn_run_nil s : churn_run s [] s
| churn_run_cons s j s1 labels s2 : churn_step s j s1 → churn_run s1 labels s2 → churn_run s (j :: labels) s2.
(** All threads have been joined. *)
Definition churn_joined (s : churn) : Prop :=
  ch_stop s = true ∧ Forall (λ x, x = Finished) (ch_workers s) ∧ Forall (λ q, q = Idle) (sy_threads (ch_system s)).

(** ** The scenario around them *)
Definition churn_start (generator : Z → R) (seed : Z) (h : heap_state) (w : W) : churn :=
  let writers := replicate (Z.to_nat (writer_count scale)) (Writing 0) in
  let readers := (λ r, Picking (generator (u64 (u64 (seed + r) + 1)))) <$> indices (reader_count scale) in
  let workers := writers ++ Turning :: readers in
  Churn (System h w (replicate (length workers) Idle)) workers false 0.
(** The value that the last commit to a root left in it. *)
Definition verify_root (name : string) (r : Z) : session (W:=W) unit :=
  token ← object_root name;
  v ← contents token;
  x ← lift_result (entry_at "seq" (object_content v));
  z ← lift_result (as_integer x);
  check (z =? u32 (u32 (writes_per_root scale - roots_per_writer) + r))
    "final value for a root does not match its writer's last commit".
Fixpoint verify_roots (l : list (Z * Z)) : session (W:=W) unit :=
  match l with
  | [] => mret tt
  | (w, r) :: l =>
      name ← lift_result (nth_root scale (u32 (u32 (w * roots_per_writer) + r)));
      _ ← verify_root name r;
      verify_roots l
  end.
Definition root_indices : list (Z * Z) := w ← indices (writer_count scale); r ← indices roots_per_writer; [(w, r)].
(** What the thread that started the others does when it has joined them. *)
Definition churn_verify (verifier : Z) : heap (W:=W) unit :=
  _ ← checkpoint;
  report ← integrity;
  _ ← check (ir_ok report) "heap failed integrity check after concurrent churn";
  in_session verifier (verify_roots root_indices).
Definition churn_line (reads : Z) (info : cache_info) : string :=
  "  reads_ok=" +:+ pretty reads +:+ " cache_evictions=" +:+ pretty (ci_evictions info) +:+
  " cache_hits=" +:+ pretty (ci_hits info) +:+ " cache_misses=" +:+ pretty (ci_misses info).
Definition churn_finish (verifier reads : Z) : heap (W:=W) string :=
  _ ← churn_verify verifier;
  h ← state;
  let info := cache h in
  _ ← check (ci_bytes info <=? 8 * 1024) "cache exceeded its configured byte budget";
  _ ← check (0 <? ci_evictions info)
    "working set never actually exceeded the cache budget -- scenario is not exercising eviction";
  mret (churn_line reads info).
End churn.
Arguments churner : clear implicits.
Arguments churn : clear implicits.
Arguments Churn {R W} _ _ _ _.
