(* ===== verification/ChurnSpec.v ===== *)
(** * What the writers of [concurrent_churn] leave in the heap.

    The names of their roots, the content of a root after so many commits, and [mirrors]: the abstract
    heap after each writer has made so many. *)
From stdpp Require Import pretty functions.
From S2P Require Import Prelude.
From S2P Require Import Binary.
From S2P Require Import OrderedMap.
From S2P Require Import Value.
From S2P Require Import Observer.
From S2P Require Import ObserverSpec.
From S2P Require Import Codec.
From S2P Require Import Storage.
From S2P Require Import Journal.
From S2P Require Import Recovery.
From S2P Require Import Snapshot.
From S2P Require Import SnapshotImage.
From S2P Require Import Cache.
From S2P Require Import Heap.
From S2P Require Import HeapSpec.
From S2P Require Import Concurrency.
From S2P Require Import ConcurrencySpec.
From S2P Require Import ConcurrencyInvariant.
From S2P Require Import Transaction.
From S2P Require Import TransactionSpec.
From S2P Require Import HeapTheorems.
From S2P Require Import ConcurrencyTheorems.
From S2P Require Import TransactionTheorems.
From S2P Require Import Sessions.
From S2P Require Import CacheFrames.
From S2P Require Import Cli.
From S2P Require Import Credentials.
From S2P Require Import CredentialsSpec.
From S2P Require Import MonitorTheorems.
From S2P Require Import Fuzz.
From S2P Require Import FuzzTheorems.
From S2P Require Import LargePayload.
From S2P Require Import LargePayloadTheorems.
From S2P Require Import Workers.
From S2P Require Import Churn.
From Stdlib Require Import Ascii.
#[local] Open Scope Z_scope.

(** ** Names *)
Lemma string_app_inj_length (a b c d : string) : a +:+ c = b +:+ d → String.length c = String.length d → a = b ∧ c = d.
Proof.
  revert b. induction a as [|x a IH]; intros [|y b] E Hl.
  - done.
  - change (c = String y (b +:+ d)) in E. exfalso. rewrite E in Hl. simpl in Hl. pose proof (ssize_app b d); unfold ssize in *; lia.
  - change (String x (a +:+ c) = d) in E. exfalso. rewrite <- E in Hl. simpl in Hl. pose proof (ssize_app a c); unfold ssize in *; lia.
  - change (String x (a +:+ c) = String y (b +:+ d)) in E. injection E as -> E. by destruct (IH b E Hl) as [-> ->].
Qed.
Lemma digit_length r : 0 ≤ r < 8 → String.length (pretty r) = 1%nat.
Proof. intros Hr. assert (r = 0 ∨ r = 1 ∨ r = 2 ∨ r = 3 ∨ r = 4 ∨ r = 5 ∨ r = 6 ∨ r = 7) as Hc by lia. by repeat destruct Hc as [->|Hc]; subst. Qed.
Lemma root_name_inj w r w' r' : 0 ≤ r < 8 → 0 ≤ r' < 8 → root_name w r = root_name w' r' → w = w' ∧ r = r'.
Proof.
  intros Hr Hr' E. unfold root_name in E. apply (inj (String.append "writer-")) in E.
  destruct (string_app_inj_length _ _ _ _ E) as [Ew E1].
  { change (S (String.length (pretty r)) = S (String.length (pretty r'))). by rewrite !digit_length. }
  apply (inj (String.append "-")) in E1. split; by apply (inj pretty).
Qed.
Lemma root_name_ne w r : root_name w r ≠ "".
Proof. done. Qed.

(** ** The table of names *)
Lemma lookup_chunks {A B} (f : A → list B) n (l : list A) i r x :
  (∀ x, length (f x) = n) → l !! i = Some x → (r < n)%nat → (l ≫= f) !! (n * i + r)%nat = f x !! r.
Proof.
  intros Hf. revert i. induction l as [|y l IH]; intros [|i] Hi Hr; try done; simpl in Hi.
  - injection Hi as ->. rewrite Nat.mul_0_r. cbn. apply lookup_app_l. rewrite Hf. lia.
  - rewrite bind_cons, lookup_app_r by (rewrite Hf; lia). rewrite Hf, <- (IH i Hi Hr). f_equal. lia.
Qed.
Lemma indices_lookup n (i : nat) : Z.of_nat i < n → indices n !! i = Some (Z.of_nat i).
Proof. intros Hi. unfold indices. rewrite list_lookup_fmap, lookup_seq_lt by lia. done. Qed.
Lemma indices_elem n z : z ∈ indices n ↔ 0 ≤ z < n.
Proof.
  unfold indices. rewrite list_elem_of_fmap. split.
  - intros (i & -> & Hi%elem_of_seq). lia.
  - intros Hz. exists (Z.to_nat z). rewrite elem_of_seq. lia.
Qed.
Lemma indices_length n : length (indices n) = Z.to_nat n.
Proof. unfold indices. by rewrite length_fmap, length_seq. Qed.
Lemma nth_root_spec scale w r : 0 ≤ w < writer_count scale → 0 ≤ r < 8 → nth_root scale (w * 8 + r) = Ok (root_name w r).
Proof.
  intros Hw Hr. unfold nth_root, all_roots.
  replace (Z.to_nat (w * 8 + r)) with (8 * Z.to_nat w + Z.to_nat r)%nat by lia.
  rewrite (lookup_chunks _ 8 _ (Z.to_nat w) (Z.to_nat r) w); [|done| |lia].
  - change (r ← indices roots_per_writer; [root_name w r]) with ((λ r, root_name w r) <$> indices 8).
    rewrite list_lookup_fmap, indices_lookup by lia. cbn. do 2 f_equal. lia.
  - rewrite indices_lookup by lia. f_equal. lia.
Qed.
Lemma all_roots_length scale : size (all_roots scale) = 8 * writer_count scale.
Proof.
  unfold all_roots, size. assert (∀ l : list Z, length (w ← l; r ← indices roots_per_writer; [root_name w r]) = (8 * length l)%nat) as ->.
  { induction l as [|x l IH]; [done|]. rewrite bind_cons, length_app, IH.
    change (length (r ← indices roots_per_writer; [root_name x r])) with 8%nat. simpl length. lia. }
  rewrite indices_length. unfold writer_count, u32. pose proof (Z.mod_pos_bound (4 * scale) (2 ^ 32)). lia.
Qed.
Lemma nth_root_some scale k : 0 ≤ k < 8 * writer_count scale →
  ∃ w r, 0 ≤ w < writer_count scale ∧ 0 ≤ r < 8 ∧ nth_root scale k = Ok (root_name w r).
Proof.
  intros Hk. exists (k / 8), (k mod 8). pose proof (Z.div_mod k 8 ltac:(done)). pose proof (Z.mod_pos_bound k 8 ltac:(done)).
  split_and!; try lia. replace k with (k / 8 * 8 + k mod 8) at 1 by lia. apply nth_root_spec; lia.
Qed.

(** ** The content of a root after so many commits *)
Definition written_value (w i : Z) : value := VObject [("payload", VString (churn_payload w)); ("seq", VInteger i)].
(** Of [p] commits, every eighth went to root [r], the last one of them with this number. *)
Definition commits_of (r p : Z) : Z := (p + 7 - r) / 8.
Definition latest_value (w r k : Z) : value := if k =? 0 then VNull else written_value w (8 * (k - 1) + r).
Definition latest_root (w r k : Z) : option aroot :=
  if k =? 0 then None else Some (ARoot k value_type_name (stored (latest_value w r k))).
Lemma churn_payload_length w : ssize (churn_payload w) = 1024.
Proof. unfold churn_payload, filled. generalize (ascii_of_nat (97 + Z.to_nat (w mod 26))). intros c. vm_compute. reflexivity. Qed.
Lemma written_value_wf w i : is_i64 i → wf_value (written_value w i).
Proof. intros Hi. unfold written_value. pose proof (churn_payload_length w) as E. generalize dependent (churn_payload w). intros s E.
  repeat first [done|constructor]. all: try (unfold is_u64, u64_bound; lia).
Qed.
Lemma commits_next i : 0 ≤ i → commits_of (i mod 8) i = i / 8 ∧ commits_of (i mod 8) (i + 1) = i / 8 + 1.
Proof.
  intros Hi. unfold commits_of. pose proof (Z.div_mod i 8 ltac:(done)). pose proof (Z.mod_pos_bound i 8 ltac:(done)).
  split; symmetry; [apply (Z.div_unique _ _ _ 7)|apply (Z.div_unique _ _ _ 0)]; lia.
Qed.
Lemma commits_same r i : 0 ≤ i → 0 ≤ r < 8 → r ≠ i mod 8 → commits_of r (i + 1) = commits_of r i.
Proof.
  intros Hi Hr Hne. unfold commits_of. pose proof (Z.div_mod i 8 ltac:(done)). pose proof (Z.mod_pos_bound i 8 ltac:(done)).
  destruct (Z.lt_ge_cases r (i mod 8)).
  - transitivity (i / 8 + 1); [symmetry; apply (Z.div_unique _ _ _ (i mod 8 - r)); lia|apply (Z.div_unique _ _ _ (i mod 8 - r - 1)); lia].
  - transitivity (i / 8); [symmetry; apply (Z.div_unique _ _ _ (i mod 8 + 8 - r)); lia|apply (Z.div_unique _ _ _ (i mod 8 + 7 - r)); lia].
Qed.
Lemma commits_bounds r p : 0 ≤ p → 0 ≤ r < 8 → 0 ≤ commits_of r p ≤ p.
Proof. intros Hp Hr. unfold commits_of. split; [apply Z.div_pos; lia|]. apply Zlt_succ_le, Z.div_lt_upper_bound; lia. Qed.
Lemma latest_written w r k i :
  apply_edit (churn_write w i) (apply_edit e_as_object (latest_value w r k)) = written_value w i.
Proof. unfold latest_value, churn_write, written_value. generalize (churn_payload w). intros s. by destruct (k =? 0). Qed.
Lemma latest_other w r k i : 0 ≤ r < 8 → 8 * (k - 1) + r < i → written_value w i ≠ latest_value w r k.
Proof. intros Hr Hi. unfold latest_value, written_value. destruct (k =? 0); [done|]. intros [=]. lia. Qed.
Lemma churn_look_latest A w r k :
  A !! root_name w r = latest_root w r k → 0 ≤ k < 2 ^ 50 → 0 ≤ r < 8 → ∃ b, churn_look (load_result A (root_name w r)) = Ok b.
Proof.
  intros E Hk Hr. assert (root_value A (root_name w r) = Ok (latest_value w r k)) as Hv.
  { unfold latest_root, latest_value in *. destruct (Z.eqb_spec k 0); [by apply root_value_absent|].
    eapply root_value_stored; [done|]. apply written_value_wf. unfold is_i64. lia. }
  unfold churn_look. unfold root_value in Hv. destruct (load_result A _) as [loaded|e]; [|done]. cbn [mbind result_bind] in *. rewrite Hv.
  unfold latest_value. destruct (k =? 0); [by exists false|]. exists true. unfold written_value. generalize (churn_payload w). by intros s.
Qed.

(** ** The map after so many commits of each writer *)
Section mirrors.
Context (n : nat).
Implicit Types (p : nat → Z) (A : amap).
Record mirrors p A : Prop := {
  mi_root (w : nat) r : (w < n)%nat → 0 ≤ r < 8 → A !! root_name (Z.of_nat w) r = latest_root (Z.of_nat w) r (commits_of r (p w));
  mi_name name a : A !! name = Some a → ∃ (w : nat) r, (w < n)%nat ∧ 0 ≤ r < 8 ∧ name = root_name (Z.of_nat w) r
}.
(** The update that is commit number [i] of a writer. *)
Definition churn_update (w : nat) (i : Z) : root_update :=
  RootUpdate (root_name (Z.of_nat w) (i mod 8)) (i / 8) (i / 8 + 1) value_type_name (stored (written_value (Z.of_nat w) i)).
Lemma mirrors_empty : mirrors (λ _, 0) ∅.
Proof.
  split; [|by intros name a ?]. intros w r Hw Hr. unfold commits_of, latest_root.
  rewrite lookup_empty, (Z.div_small (0 + 7 - r)) by lia. done.
Qed.
Lemma churner_mirrors_next p A (w : nat) :
  mirrors p A → (w < n)%nat → 0 ≤ p w → mirrors (<[w := p w + 1]> p) (a_commit [churn_update w (p w)] A).
Proof.
  intros [Hr Hn] Hw Hp. pose proof (Z.mod_pos_bound (p w) 8 ltac:(done)). pose proof (Z.div_pos (p w) 8 Hp ltac:(done)).
  cbn [a_commit foldl churn_update u_name u_new u_type u_payload]. split.
  - intros w' r Hw' Hr'. destruct (decide (w' = w ∧ r = p w mod 8)) as [[-> ->]|Hne].
    + rewrite lookup_insert_eq, fn_lookup_insert, (proj2 (commits_next _ Hp)). unfold latest_root, latest_value.
      destruct (Z.eqb_spec (p w / 8 + 1) 0); [lia|]. do 4 f_equal. pose proof (Z.div_mod (p w) 8 ltac:(done)). lia.
    + rewrite lookup_insert_ne.
      2:{ intros [E1 E2]%root_name_inj; [|lia..]. apply Hne. split; [lia|done]. }
      destruct (decide (w' = w)) as [->|Hw'']; [|by rewrite fn_lookup_insert_ne, Hr].
      rewrite fn_lookup_insert, commits_same, Hr; [done|done|done|done|done|]. intros ->. by apply Hne.
  - intros name a [[<- _]|[_ E]]%lookup_insert_Some; [|by eapply Hn]. by exists w, (p w mod 8).
Qed.
Lemma mirrors_version p A (w : nat) i :
  mirrors p A → (w < n)%nat → p w = i → 0 ≤ i → version_in A (root_name (Z.of_nat w) (i mod 8)) = i / 8.
Proof.
  intros Hm Hw <- Hi. pose proof (Z.mod_pos_bound (p w) 8 ltac:(done)). unfold version_in. rewrite (mi_root _ _ Hm) by done.
  rewrite (proj1 (commits_next _ Hi)). unfold latest_root. by destruct (Z.eqb_spec (p w / 8) 0) as [->|].
Qed.
Lemma mirrors_value p A (w : nat) r :
  mirrors p A → (w < n)%nat → 0 ≤ r < 8 → 0 ≤ p w < 2 ^ 50 →
  root_value A (root_name (Z.of_nat w) r) = Ok (latest_value (Z.of_nat w) r (commits_of r (p w))).
Proof.
  intros Hm Hw Hr Hp. pose proof (mi_root _ _ Hm w r Hw Hr) as E. pose proof (commits_bounds r (p w) ltac:(lia) Hr).
  unfold latest_root in E. destruct (Z.eqb_spec (commits_of r (p w)) 0) as [E0|Hne].
  - rewrite E0. by apply root_value_absent.
  - eapply root_value_stored; [exact E|]. unfold latest_value. destruct (Z.eqb_spec (commits_of r (p w)) 0); [done|].
    apply written_value_wf. unfold is_i64. lia.
Qed.
(** What a writer makes of its root. *)
Lemma mirrors_changed self tx p A (w : nat) i :
  mirrors p A → (w < n)%nat → p w = i → 0 ≤ i < 2 ^ 50 →
  changed_root self tx (root_name (Z.of_nat w) (i mod 8)) (churn_write (Z.of_nat w) i)
    (load_result A (root_name (Z.of_nat w) (i mod 8))) = Ok [churn_update w i].
Proof.
  intros Hm Hw Hp Hi. pose proof (Z.mod_pos_bound i 8 ltac:(done)) as Hmod. pose proof (Z.div_mod i 8 ltac:(done)).
  pose proof (mirrors_value p A w (i mod 8) Hm Hw Hmod ltac:(lia)) as Hv. rewrite Hp, (proj1 (commits_next i ltac:(lia))) in Hv.
  pose proof (mirrors_version p A w i Hm Hw Hp ltac:(lia)) as Hver.
  erewrite changed_root_run; [|exact Hv|rewrite Hver; unfold u64_bound; pose proof (Z.div_pos i 8 ltac:(lia) ltac:(done)); lia|].
  - rewrite latest_written. unfold next_update, churn_update. by rewrite Hver.
  - rewrite latest_written. apply latest_other; lia.
Qed.
(** What a snapshot must hold. *)
Lemma written_size w i : 1024 ≤ size (stored (written_value w i)) ≤ 2000.
Proof using Type.
  unfold stored, written_value. pose proof (churn_payload_length w) as E. generalize dependent (churn_payload w). intros s E.
  pose proof (weight_object [("payload", VString s); ("seq", VInteger i)]) as Ew. unfold weight in Ew at 1. rewrite Ew.
  cbn [entries_weight fst snd]. unfold weight. cbn [value_encode]. autorewrite with size. change (ssize "payload") with 7. change (ssize "seq") with 3.
  lia.
Qed.
Lemma root_name_size w r : 0 ≤ w < 2 ^ 32 → 0 ≤ r < 8 → ssize (root_name w r) ≤ 41.
Proof using Type.
  intros Hw Hr. pose proof (wide_key_size w Hw) as Hk. unfold wide_key in Hk. unfold root_name. rewrite ssize_app in Hk. rewrite !ssize_app.
  assert (ssize (pretty r) = 1) as -> by (unfold ssize; by rewrite digit_length).
  change (ssize "k") with 1 in Hk. change (ssize "writer-") with 7. change (ssize "-") with 1. lia.
Qed.
Lemma churner_mirrors_saveable p A :
  mirrors p A → Z.of_nat n < 2 ^ 20 → (∀ w : nat, (w < n)%nat → 0 ≤ p w) → saveable A.
Proof using Type.
  intros Hm Hn Hp. split.
  - set (names := w ← seq 0 n; r ← indices 8; [root_name (Z.of_nat w) r]).
    assert ((map_to_list A).*1 ⊆+ names) as Hsub%submseteq_length.
    { apply NoDup_submseteq; [apply NoDup_fst_map_to_list|]. intros name ([name' a] & -> & Ha%elem_of_map_to_list)%list_elem_of_fmap.
      destruct (mi_name _ _ Hm _ _ Ha) as (w & r & Hw & Hr & ->). apply list_elem_of_bind. exists w. split; [|apply elem_of_seq; lia].
      apply list_elem_of_bind. exists r. split; [by left|by apply indices_elem]. }
    assert (length names = (8 * n)%nat) as El.
    { assert (∀ l : list nat, length (w ← l; r ← indices 8; [root_name (Z.of_nat w) r]) = (8 * length l)%nat) as Hl; [|unfold names; by rewrite Hl, length_seq].
      induction l as [|x l IH]; [done|]. rewrite bind_cons, length_app, IH.
      change (length (r ← indices 8; [root_name (Z.of_nat x) r])) with 8%nat. simpl length. lia. }
    rewrite length_fmap, El in Hsub. unfold size, max_root_count. lia.
  - intros name a Ha. destruct (mi_name _ _ Hm _ _ Ha) as (w & r & Hw & Hr & ->). rewrite (mi_root _ _ Hm) in Ha by done.
    unfold latest_root, latest_value in Ha. destruct (_ =? 0); [done|]. injection Ha as <-.
    pose proof (root_name_size (Z.of_nat w) r ltac:(lia) Hr). destruct (written_size (Z.of_nat w) (8 * (commits_of r (p w) - 1) + r)) as [_ Hsize].
    split_and!; [lia|done|]. etrans; [exact Hsize|done].
Qed.
Lemma churn_call_ok pending tx (w : nat) i :
  pending !! tx = None → is_u64 tx → Z.of_nat w < 2 ^ 32 → 0 ≤ i < 2 ^ 50 → call_ok pending (2 ^ 60) (CallCommit tx [churn_update w i]).
Proof using Type.
  intros Hp Htx Hw Hi. pose proof (Z.mod_pos_bound i 8 ltac:(done)). pose proof (Z.div_pos i 8 ltac:(lia) ltac:(done)).
  assert (i / 8 < 2 ^ 50) by (apply Z.div_lt_upper_bound; lia).
  split_and!; try done; [|apply NoDup_singleton|constructor; [simpl; lia|done]|by repeat constructor].
  constructor; [|done]. split_and!; [unfold is_u64, u64_bound; simpl; lia|unfold is_u64, u64_bound; simpl; lia|].
  match goal with |- size (e_bytes (encode_update ?u)) + _ ≤ _ => destruct (size_encode_update u) as [-> ->] end.
  pose proof (written_size (Z.of_nat w) i). pose proof (root_name_size (Z.of_nat w) (i mod 8) ltac:(lia) ltac:(lia)).
  cbn [churn_update u_name u_type u_payload]. change (ssize value_type_name) with 15. unfold max_frame_size. lia.
Qed.
End mirrors.
