(* ===== verification/ChurnTheorems.v ===== *)
(** * Writers, readers and a checkpointer at once: [churn_passes].

    The invariant relates each worker to its thread and to the map of the commits so far; the
    distance of a worker from its end is not changed by the steps of the others, since no commit
    of another writer can make its own conflict. *)
From stdpp Require Import pretty functions.
From S2P Require Import Prelude.
From S2P Require Import Binary.
From S2P Require Import OrderedMap.
From S2P Require Import Value.
From S2P Require Import Observer.
From S2P Require Import ObserverSpec.
From S2P Require Import Codec.
From S2P Require Import Storage.
From S2P Require Import Journal.
From S2P Require Import Recovery.
From S2P Require Import Snapshot.
From S2P Require Import SnapshotImage.
From S2P Require Import Cache.
From S2P Require Import Heap.
From S2P Require Import HeapSpec.
From S2P Require Import Concurrency.
From S2P Require Import ConcurrencySpec.
From S2P Require Import ConcurrencyInvariant.
From S2P Require Import Transaction.
From S2P Require Import TransactionSpec.
From S2P Require Import HeapTheorems.
From S2P Require Import ConcurrencyTheorems.
From S2P Require Import TransactionTheorems.
From S2P Require Import Sessions.
From S2P Require Import CacheFrames.
From S2P Require Import Cli.
From S2P Require Import Credentials.
From S2P Require Import CredentialsSpec.
From S2P Require Import MonitorTheorems.
From S2P Require Import Fuzz.
From S2P Require Import FuzzTheorems.
From S2P Require Import LargePayload.
From S2P Require Import LargePayloadTheorems.
From S2P Require Import Workers.
From S2P Require Import Churn.
From S2P Require Import ChurnSpec.
From Stdlib Require Import Ascii.
#[local] Open Scope Z_scope.

(** ** How many commits there are *)
Fixpoint total_commits (p : nat → Z) (n : nat) : Z := match n with O => 0 | S n => p n + total_commits p n end.
Lemma total_commits_same p w x n : (n ≤ w)%nat → total_commits (<[w := x]> p) n = total_commits p n.
Proof. induction n as [|n IH]; intros Hw; [done|]. cbn [total_commits]. rewrite fn_lookup_insert_ne, IH by lia. done. Qed.
Lemma total_commits_next p w n : (w < n)%nat → total_commits (<[w := p w + 1]> p) n = total_commits p n + 1.
Proof.
  induction n as [|n IH]; intros Hw; [lia|]. cbn [total_commits]. destruct (decide (w = n)) as [->|Hne].
  - rewrite fn_lookup_insert, total_commits_same by done. lia.
  - rewrite fn_lookup_insert_ne, IH by lia. lia.
Qed.
Lemma total_commits_bound p b n : (∀ w, (w < n)%nat → 0 ≤ p w ≤ b) → 0 ≤ total_commits p n ≤ Z.of_nat n * b.
Proof.
  induction n as [|n IH]; intros Hp; [simpl; lia|]. cbn [total_commits]. pose proof (Hp n ltac:(lia)).
  pose proof (IH ltac:(intros w Hw; apply Hp; lia)). lia.
Qed.

Section threads.
Context {R : Type} `{HR : random_laws R} {W : Type} `{HW : storage_reliable W}.
Context (config : heap_config) (scale : Z) (self : nat → Z) (start : Z).
Context (Hscale : 1 ≤ scale ≤ 2 ^ 16) (Hstart : 0 ≤ start ≤ 3).
Implicit Types (s : churn R W) (v : view) (p : nat → Z) (x : churner R).
#[local] Abbreviation n := (Z.to_nat (writer_count scale)).
#[local] Abbreviation writes := (writes_per_root scale).
#[local] Abbreviation invariant := (inv (W:=W) config ∅ (2 ^ 60)).
#[local] Abbreviation legal := ConcurrencySpec.legal.
Lemma writer_count_eq : writer_count scale = 4 * scale.
Proof using Hscale. apply Z.mod_small. lia. Qed.
Lemma writes_eq : writes = 200 * scale.
Proof using Hscale. unfold writes_per_root, rounds, roots_per_writer, u32. rewrite (Z.mod_small (25 * scale)), Z.mod_small; lia. Qed.

(** ** The invariant *)
Record view_ok v p : Prop := {
  vo_open : v_closed v = false;
  vo_map : mirrors n p (v_map v);
  vo_commits (w : nat) : (w < n)%nat → 0 ≤ p w ≤ writes;
  vo_past B : B ∈ v_history v → ∃ p', mirrors n p' B ∧ ∀ w : nat, (w < n)%nat → 0 ≤ p' w ≤ writes;
  vo_sequence : v_sequence v = start + 3 * total_commits p n
}.
Definition a_root (name : string) : Prop := ∃ (w : nat) r, (w < n)%nat ∧ 0 ≤ r < 8 ∧ name = root_name (Z.of_nat w) r.
Definition busy q : Prop := q ≠ Idle ∧ checks q = false.
(** The worker of thread [j], before the section [q], when the writers have made [p] commits. *)
Definition worker_ok v p (j : nat) q x : Prop :=
  match x with
  | Writing i => (j < n)%nat ∧ q = Idle ∧ p j = i ∧ i ≤ writes
  | Asking i tx => (j < n)%nat ∧ q = Idle ∧ p j = i ∧ i < writes ∧ is_u64 tx
  | Loading i tx =>
      (j < n)%nat ∧ busy q ∧ p j = i ∧ i < writes ∧ is_u64 tx ∧
      v_call v j = Some (CallLoad (root_name (Z.of_nat j) (i mod 8))) ∧ v_applied v j = false ∧
      ∀ B, B ∈ v_seen v j → ∃ p', mirrors n p' B ∧ p' j = i
  | Changing i tx updates =>
      (j < n)%nat ∧ q = Idle ∧ p j = i ∧ i < writes ∧ is_u64 tx ∧ updates = [churn_update j i]
  | Committing i tx =>
      (j < n)%nat ∧ busy q ∧ 0 ≤ i < writes ∧ p j = (if v_applied v j then i + 1 else i) ∧
      v_call v j = Some (CallCommit tx [churn_update j i])
  | Turning | Picking _ | Wanting _ => (n ≤ j)%nat ∧ q = Idle
  | Checkpointing => (n ≤ j)%nat ∧ busy q ∧ v_call v j = Some CallCheckpoint ∧ v_applied v j = false
  | Choosing _ name => (n ≤ j)%nat ∧ q = Idle ∧ a_root name
  | Viewing _ => (n ≤ j)%nat ∧ busy q ∧ v_applied v j = false ∧ ∃ name, a_root name ∧ v_call v j = Some (CallLoad name)
  | Finished => q = Idle ∧ ((j < n)%nat → p j = writes)
  | Broken _ => False
  end.
(** The steps that are left for a worker: a writer, or another one when the flag is set. *)
Definition distance q x : Z :=
  match x with
  | Writing i => 20 * (writes - i) + 1
  | Asking i _ => 20 * (writes - i - 1) + 19
  | Loading i _ => 20 * (writes - i - 1) + 14 + Z.of_nat (rank q)
  | Changing i _ _ => 20 * (writes - i - 1) + 13
  | Committing i _ => 20 * (writes - i - 1) + 1 + Z.of_nat (rank q)
  | Turning | Picking _ => 1
  | Wanting _ => 6
  | Choosing _ _ => 5
  | Checkpointing | Viewing _ => 1 + Z.of_nat (rank q)
  | Finished | Broken _ => 0
  end.
Definition left_for s (j : nat) : Z :=
  match ch_workers s !! j, sy_threads (ch_system s) !! j with Some x, Some q => distance q x | _, _ => 0 end.
Lemma distance_nonneg v p j q x : worker_ok v p j q x → 0 ≤ distance q x.
Proof using Type. destruct x; simpl; lia || (intros; lia) || done. Qed.

(** What changes for a thread when another one does something. *)
Record passive v v' p p' (j : nat) : Prop := {
  pa_call : v_call v' j = v_call v j;
  pa_applied : v_applied v' j = v_applied v j;
  pa_commits : p' j = p j;
  pa_seen B : B ∈ v_seen v' j → B ∈ v_seen v j ∨ B = v_map v'
}.
Lemma churner_passive_worker v v' p p' j q x :
  passive v v' p p' j → mirrors n p' (v_map v') → worker_ok v p j q x → worker_ok v' p' j q x.
Proof using Type.
  intros [E1 E2 E3 E4] Hm. destruct x; simpl; rewrite ?E1, ?E2, ?E3; try done.
  intros (? & ? & Hi & ? & ? & ? & ? & Hseen). split_and!; try done. intros B [HB| ->]%E4; [by apply Hseen|].
  exists p'. by rewrite E3.
Qed.
Lemma churner_observe_passive v e i p p' :
  (∃ c, e = Called i c) ∨ heard_by e = Some i → (∀ j, j ≠ i → p' j = p j) → ∀ j, j ≠ i → passive v (observe v e) p p' j.
Proof using Type.
  intros He Hp j Hj. destruct He as [[c ->]|Hh].
  - split; simpl; rewrite ?fn_lookup_insert_ne by done; auto.
  - destruct e as [| |m us| | | | | |]; try done; injection Hh as ->; (split; simpl; [done| |by apply Hp|auto]); try done.
    + by rewrite fn_lookup_insert_ne.
    + intros B [->|HB]%elem_of_cons; auto.
Qed.
Lemma churner_view_ok_still v p e : (∀ i us, e ≠ Committed i us) → e ≠ Closed → view_ok v p → view_ok (observe v e) p.
Proof using Type. intros Hc Hcl [? ? ? ? ?]. destruct e; try done. by destruct (Hc i updates). Qed.
Lemma churner_view_ok_commit v p i : view_ok v p → (i < n)%nat → p i < writes →
  view_ok (observe v (Committed i [churn_update i (p i)])) (<[i := p i + 1]> p).
Proof using Type.
  intros [Ho Hm Hc Hp Hs] Hi Hlt. pose proof (Hc i Hi) as Hpi.
  assert (mirrors n (<[i := p i + 1]> p) (a_commit [churn_update i (p i)] (v_map v))) as Hm' by (apply churner_mirrors_next; [done|done|lia]).
  assert (∀ w : nat, (w < n)%nat → 0 ≤ (<[i := p i + 1]> p) w ≤ writes) as Hc'.
  { intros w Hw. destruct (decide (w = i)) as [->|Hne]; [rewrite fn_lookup_insert; lia|]. rewrite fn_lookup_insert_ne by done. by apply Hc. }
  split; [done|exact Hm'|exact Hc'| |].
  - intros B [->|HB]%elem_of_cons; [by eexists|by apply Hp].
  - cbn [observe v_sequence]. rewrite Hs, total_commits_next by done. unfold size. simpl. lia.
Qed.

(** ** What a worker hears *)
Lemma small_commits (w : nat) p v : view_ok v p → (w < n)%nat → 0 ≤ p w < 2 ^ 50.
Proof. intros Hv Hw. pose proof (vo_commits _ _ Hv w Hw). rewrite writes_eq in *. lia. Qed.
(** While the call lasts the worker waits. *)
Lemma goes_on v p j q q' x :
  worker_ok v p j q x → q ≠ Idle → q' ≠ Idle → checks q' = false → (rank q' < rank q)%nat →
  worker_ok v p j q' x ∧ distance q' x < distance q x.
Proof.
  intros Hw Hq Hq' Hc Hr. destruct x as [i|i tx|i tx|i tx us|i tx| | |rng|rng|rng name|rng| |err]; simpl in *; unfold busy in *;
    try (exfalso; tauto); (split; [|lia]); tauto.
Qed.
(** What comes of an event: the next position of the worker, and that it is nearer to its end. *)
Definition heard_well v p (i : nat) q x (e : event) q' : Prop := ∃ x' more p',
  churner_hears self i e x = (x', more) ∧ view_ok (observe v e) p' ∧ (∀ j, j ≠ i → p' j = p j) ∧
  worker_ok (observe v e) p' i q' x' ∧ distance q' x' < distance q x.
Lemma load_heard v p i q x name r q' :
  view_ok v p → (∀ B, B ∈ v_seen v i → B ∈ v_history v) → worker_ok v p i q x → q ≠ Idle →
  legal v (LoadEnded i name r) → q' = Idle → (0 < rank q)%nat → heard_well v p i q x (LoadEnded i name r) q'.
Proof.
  intros Hv Hseen Hw Hq (Hcall & B & HB & ->) -> Hrank.
  destruct x as [k|k tx|k tx|k tx us|k tx| | |rng|rng|rng nm|rng| |err]; simpl in Hw; try (exfalso; tauto).
  - destruct Hw as (Hi & _ & Hp & Hk & Htx & Hcall' & _ & Hs). rewrite Hcall in Hcall'. injection Hcall' as ->.
    pose proof (small_commits i p v Hv Hi) as Hsmall. destruct (Hs B HB) as (p' & Hm & Hp').
    exists (Changing k tx [churn_update i k]), 0, p. cbn [churner_hears].
    rewrite (mirrors_changed n (self i) tx p' B i k Hm Hi Hp') by lia. split_and!; try done. cbn [distance]. lia.
  - destruct Hw as (_ & _ & _ & _ & Hcall'). congruence.
  - destruct Hw as (_ & _ & Hcall' & _). congruence.
  - destruct Hw as (Hi & _ & _ & name' & (w & m & Hwn & Hm & ->) & Hcall'). rewrite Hcall in Hcall'. injection Hcall' as ->.
    destruct (vo_past _ _ Hv B (Hseen B HB)) as (p' & Hmir & Hp'). pose proof (Hp' w Hwn) as Hb. rewrite writes_eq in Hb.
    pose proof (commits_bounds m (p' w) ltac:(lia) Hm).
    destruct (churn_look_latest B (Z.of_nat w) m _ (mi_root _ _ _ Hmir w m Hwn Hm)) as [b Eb]; [lia|done|].
    exists (Picking rng), (if b then 1 else 0), p. cbn [churner_hears]. rewrite Eb. split_and!; try done. cbn [distance]. lia.
Qed.
Lemma end_heard v p i q x r q' :
  view_ok v p → worker_ok v p i q x → q ≠ Idle → legal v (Ended i r) → q' = Idle → (0 < rank q)%nat →
  heard_well v p i q x (Ended i r) q'.
Proof.
  intros Hv Hw Hq Hl -> Hrank. simpl in Hl.
  assert (∀ e, r = Throw e → v_applied v i = false ∧ ∃ tx us u, v_call v i = Some (CallCommit tx us) ∧ u ∈ us ∧
    version_in (v_map v) (u_name u) ≠ u_expected u) as Hthrow.
  { intros e ->. destruct Hl as [Ha [(_ & Hl)|(tx & us & u & Hl & Hu & Hne & _)]]; [by rewrite (vo_open _ _ Hv) in Hl|].
    split; [done|]. by exists tx, us, u. }
  destruct x as [k|k tx|k tx|k tx us|k tx| | |rng|rng|rng nm|rng| |err]; simpl in Hw; try (exfalso; tauto).
  - destruct Hw as (_ & _ & _ & _ & _ & Hcall & Happ & _). destruct r as [u|e].
    + destruct Hl as [Hl|[Hl|[tx' Hl]]]; congruence.
    + destruct (Hthrow e eq_refl) as (_ & tx' & us & u & Hl' & _). congruence.
  - destruct Hw as (Hi & _ & Hk & Hp & Hcall). destruct r as [u|e].
    + assert (v_applied v i = true) as Ha by (destruct Hl as [?|[Hl|[tx' Hl]]]; congruence). rewrite Ha in Hp.
      exists (Writing (k + 1)), 0, p. split_and!; try done; [|cbn [distance]; lia]. simpl. split_and!; [done|done|done|lia].
    + destruct (Hthrow e eq_refl) as (Ha & tx' & us & u & Hl' & Hu & Hne). rewrite Ha in Hp. rewrite Hcall in Hl'. injection Hl' as <- <-.
      apply list_elem_of_singleton in Hu as ->. destruct Hne.
      exact (mirrors_version n p (v_map v) i k (vo_map _ _ Hv) Hi Hp ltac:(lia)).
  - destruct Hw as (Hi & _ & Hcall & Happ). destruct r as [u|e].
    + exists Turning, 0, p. split_and!; try done. cbn [distance]. lia.
    + destruct (Hthrow e eq_refl) as (_ & tx' & us & u & Hl' & _). congruence.
  - destruct Hw as (_ & _ & Happ & name & _ & Hcall). destruct r as [u|e].
    + destruct Hl as [Hl|[Hl|[tx' Hl]]]; congruence.
    + destruct (Hthrow e eq_refl) as (_ & tx' & us & u & Hl' & _). congruence.
Qed.
Lemma commit_heard v p i q x us q' :
  view_ok v p → worker_ok v p i q x → q ≠ Idle → q' ≠ Idle → checks q' = false → (rank q' < rank q)%nat →
  legal v (Committed i us) → heard_well v p i q x (Committed i us) q'.
Proof.
  intros Hv Hw Hq Hq' Hc Hr (Hm & Happ & tx' & Hl).
  destruct x as [k|k tx|k tx|k tx us'|k tx| | |rng|rng|rng nm|rng| |err]; simpl in Hw; try (exfalso; tauto).
  - destruct Hw as (_ & _ & _ & _ & _ & Hcall & _). congruence.
  - destruct Hw as (Hi & _ & Hk & Hp & Hcall). rewrite Hcall in Hl. injection Hl as <- <-. rewrite Happ in Hp.
    exists (Committing k tx), 0, (<[i := p i + 1]> p). split_and!; [done| | |simpl|cbn [distance]; lia].
    + rewrite <- Hp. apply churner_view_ok_commit; [done|done|lia].
    + intros j Hj. by apply fn_lookup_insert_ne.
    + split_and!; try done; try lia. rewrite !fn_lookup_insert. lia.
  - destruct Hw as (_ & _ & Hcall & _). congruence.
  - destruct Hw as (_ & _ & _ & name & _ & Hcall). congruence.
Qed.
Lemma event_heard_well v p i q o x :
  view_ok v p → (∀ B, B ∈ v_seen v i → B ∈ v_history v) →
  let e := event_of i q o in
  worker_ok v p i q x → q ≠ Idle → legal v e → goes i q o → heard_well v p i q x e (next_section o).
Proof.
  intros Hv Hseen e Hw Hq Hl [Hc Hr Hrank Hstop]. pose proof (event_heard i q o) as Hh. pose proof (load_end_is_idle i q o) as Hload.
  pose proof (end_is_idle i q o) as Hend. pose proof (reported_event i q o) as Hver. fold e in Hh, Hload, Hend, Hver, Hstop.
  assert (next_section o ≠ Idle → (∃ x', x' = x) → observe v e = v → churner_hears self i e x = (x, 0) → heard_well v p i q x e (next_section o)) as Hgo.
  { intros Hnext _ Eo Eh. destruct (goes_on v p i q (next_section o) x Hw Hq Hnext Hc Hrank) as [Hw' Hlt].
    exists x, 0, p. rewrite Eo. by split_and!. }
  destruct e as [|j|j us|j name r|j r|j|j report| |]; try done; injection Hh as ->.
  - apply Hgo; [by intros [[? [=]]|(? & ? & [=])]%Hstop|by eexists|done|done].
  - apply commit_heard; try done. by intros [[? [=]]|(? & ? & [=])]%Hstop.
  - apply load_heard; try done; [by eapply Hload|lia].
  - apply end_heard; try done; [by eapply Hend|lia].
  - apply Hgo; [by intros [[? [=]]|(? & ? & [=])]%Hstop|by eexists|done|done].
  - by destruct (Hr report (Hver i report eq_refl)).
Qed.

(** ** Every step *)
Record churn_ok s v p : Prop := {
  co_inv : invariant (ch_system s) v;
  co_next : is_u64 (hs_next_transaction (sy_heap (ch_system s)));
  co_view : view_ok v p;
  co_length : length (ch_workers s) = length (sy_threads (ch_system s));
  co_writers : (n ≤ length (ch_workers s))%nat;
  co_workers j x : ch_workers s !! j = Some x → ∃ q, sy_threads (ch_system s) !! j = Some q ∧ worker_ok v p j q x
}.
Lemma left_nonneg s v p j : churn_ok s v p → 0 ≤ left_for s j.
Proof.
  intros Hok. unfold left_for. destruct (ch_workers s !! j) as [x|] eqn:Ex; [|done].
  destruct (co_workers _ _ _ Hok j x Ex) as (q & -> & Hw). by eapply distance_nonneg.
Qed.
(** The thread of the step is nearer to its end, if it is one that has an end; the others are not
    farther from theirs. *)
Definition advances s v p (l : option nat) s2 : Prop := ∃ v' p', churn_ok s2 v' p' ∧
  (∀ j, l ≠ Some j → left_for s2 j = left_for s j) ∧
  (∀ j, l = Some j → (j < n)%nat ∨ ch_stop s = true → left_for s2 j < left_for s j) ∧
  (ch_stop s = true → ch_stop s2 = true).
(** One worker and its thread have changed. *)
Lemma churn_change s v p i q x (s' : system W) v' p' q' x' reads :
  churn_ok s v p → ch_workers s !! i = Some x → sy_threads (ch_system s) !! i = Some q →
  invariant s' v' → is_u64 (hs_next_transaction (sy_heap s')) → view_ok v' p' →
  sy_threads s' = <[i := q']> (sy_threads (ch_system s)) → (∀ j, j ≠ i → passive v v' p p' j) →
  worker_ok v' p' i q' x' → ((i < n)%nat ∨ ch_stop s = true → distance q' x' < distance q x) →
  advances s v p (Some i) (Churn s' (<[i := x']> (ch_workers s)) (ch_stop s) reads).
Proof.
  intros Hok Hx Hq Hi' Hn' Hv' Et Hother Hw' Hdist. set (s2 := Churn _ _ _ _).
  pose proof (lookup_lt_Some _ _ _ Hq) as Hlt. pose proof (lookup_lt_Some _ _ _ Hx) as Hltx.
  assert (sy_threads s' !! i = Some q') as Hq' by (rewrite Et; by apply list_lookup_insert_eq).
  assert (∀ j, j ≠ i → sy_threads s' !! j = sy_threads (ch_system s) !! j) as Hrest by (intros j Hj; rewrite Et; by apply list_lookup_insert_ne).
  exists v', p'. split_and!.
  - destruct Hok as [Hi Hn Hv Hlen Hwr Hw]. split; simpl; try done; [by rewrite Et, !length_insert|by rewrite length_insert|].
    intros j y Hj. destruct (decide (j = i)) as [->|Hne].
    + rewrite list_lookup_insert_eq in Hj by done. injection Hj as <-. by exists q'.
    + rewrite list_lookup_insert_ne in Hj by done. destruct (Hw j y Hj) as (q0 & Hq0 & Hold). exists q0.
      rewrite Hrest by done. split; [done|]. apply (churner_passive_worker v v' p p'); [by apply Hother|apply Hv'|done].
  - intros j Hj. assert (j ≠ i) as Hne by congruence. unfold left_for, s2. cbn [ch_workers ch_system].
    by rewrite Hrest, list_lookup_insert_ne.
  - intros j [= <-] Hc. unfold left_for, s2. cbn [ch_workers ch_system]. rewrite Hq', list_lookup_insert_eq, Hx, Hq by done. by apply Hdist.
  - done.
Qed.
(** What the heap's invariant says of a step. *)
Lemma churn_legal s v p e (s' : system W) :
  churn_ok s v p → step (ch_system s) e s' → (∀ i c, e = Called i c → call_ok ∅ (2 ^ 60) c) →
  legal v e ∧ invariant s' (observe v e).
Proof.
  intros Hok Hs Hc. destruct Hok as [Hi _ Hv _ _ _]. pose proof writer_count_eq as En. pose proof writes_eq as Ew.
  eapply (step_ok config ∅ (2 ^ 60)); [exact Hi|exact Hs|exact Hc| |].
  - pose proof (total_commits_bound p writes n (vo_commits _ _ Hv)) as Ht. rewrite (vo_sequence _ _ Hv).
    rewrite Ew, En in Ht. assert (Z.of_nat (Z.to_nat (4 * scale)) = 4 * scale) as E4 by lia. rewrite E4 in Ht.
    assert (4 * scale * (200 * scale) ≤ 2 ^ 50) by nia. rewrite En. lia.
  - eapply churner_mirrors_saveable; [apply Hv|rewrite En; lia|]. intros w Hw. by apply (vo_commits _ _ Hv).
Qed.
Lemma target_spec j i : (j < n)%nat → target scale (Z.of_nat j) i = Ok (root_name (Z.of_nat j) (i mod 8)).
Proof.
  intros Hj. pose proof writer_count_eq as En. pose proof (Z.mod_pos_bound i 8 ltac:(done)). unfold target, roots_per_writer, u32.
  rewrite (Z.mod_small (Z.of_nat j * 8)) by lia. rewrite Z.mod_small by lia. apply nth_root_spec; lia.
Qed.
Lemma calls_ok v p stop j q x c x' :
  view_ok v p → worker_ok v p j q x → calls scale stop j x = Some (c, x') →
  q = Idle ∧ call_ok ∅ (2 ^ 60) c ∧ worker_ok (observe v (Called j c)) p j (entry c) x' ∧
  ((j < n)%nat ∨ stop = true → distance (entry c) x' < distance q x).
Proof.
  intros Hv Hw Hc. destruct x as [i|i tx|i tx|i tx us|i tx| | |rng|rng|rng name|rng| |err]; simpl in Hc; simplify_eq; simpl in Hw.
  - destruct Hw as (Hj & -> & Hp & Hi & Htx). rewrite target_spec in Hc by done. injection Hc as <- <-. split_and!; [done|done| |].
    + simpl. rewrite !fn_lookup_insert. split_and!; try done. intros B ->%list_elem_of_singleton. exists p. split; [apply Hv|done].
    + intros _. simpl. lia.
  - destruct Hw as (Hj & -> & Hp & Hi & Htx & ->). pose proof (small_commits j p v Hv Hj). pose proof (vo_commits _ _ Hv j Hj). pose proof writer_count_eq.
    split_and!; [done|apply churn_call_ok; [done|done|lia|lia]| |].
    + simpl. rewrite !fn_lookup_insert. split_and!; try done. lia.
    + intros _. simpl. lia.
  - destruct Hw as (Hj & ->). destruct stop; [done|]. injection Hc as <- <-. split_and!; [done|done| |].
    + simpl. rewrite !fn_lookup_insert. by split_and!.
    + intros [?|?]; [lia|done].
  - destruct Hw as (Hj & -> & Hname). split_and!; [done|done| |intros _; simpl; lia].
    simpl. rewrite !fn_lookup_insert. split_and!; try done. by exists name.
Qed.
Lemma turns_ok v p stop j q x x' :
  view_ok v p → worker_ok v p j q x → turns scale stop x = Some x' →
  worker_ok v p j q x' ∧ distance q x' < distance q x.
Proof.
  intros Hv Hw Ht. destruct x as [i|i tx|i tx|i tx us|i tx| | |rng|rng|rng name|rng| |err]; simpl in Ht; simplify_eq; simpl in Hw.
  - destruct Hw as (Hj & -> & Hp & Hi). destruct (Z.ltb_spec i writes); [done|]. injection Ht as <-. split; [|simpl; lia].
    split; [done|]. intros _. lia.
  - destruct Hw as (Hj & ->). destruct stop; [|done]. injection Ht as <-. split; [|simpl; lia]. split; [done|]. lia.
  - destruct Hw as (Hj & ->). destruct stop; [|done]. injection Ht as <-. split; [|simpl; lia]. split; [done|]. lia.
  - destruct Hw as (Hj & ->). pose proof writer_count_eq as En. pose proof (all_roots_length scale) as El.
    destruct (pick_law 0 (size (all_roots scale) - 1) rng ltac:(lia)) as (k & rng' & E & Hk). rewrite E in Ht.
    destruct (nth_root_some scale k ltac:(lia)) as (w & r & Hw & Hr & E'). rewrite E' in Ht. injection Ht as <-. split; [|simpl; lia].
    split_and!; [done|done|]. exists (Z.to_nat w), r. split_and!; [lia|lia|lia|f_equal; lia].
Qed.
Lemma begins_ok v p stop j q x tx x' :
  is_u64 tx → worker_ok v p j q x → begins scale stop x tx = Some x' →
  q = Idle ∧ worker_ok v p j q x' ∧ ((j < n)%nat ∨ stop = true → distance q x' < distance q x).
Proof.
  intros Htx Hw Hb. destruct x as [i|i tx'|i tx'|i tx' us|i tx'| | |rng|rng|rng name|rng| |err]; simpl in Hb; simplify_eq; simpl in Hw.
  - destruct Hw as (Hj & -> & Hp & Hi). destruct (Z.ltb_spec i writes); [|done]. injection Hb as <-. split_and!; [done|done|].
    intros _. simpl. lia.
  - destruct Hw as (Hj & ->). destruct stop; [done|]. injection Hb as <-. split_and!; [done|done|]. intros [?|?]; [lia|done].
Qed.
Lemma churn_step_ok s v p l s2 : churn_ok s v p → churn_step scale self s l s2 → advances s v p l s2.
Proof.
  intros Hok Hs. pose proof (co_view _ _ _ Hok) as Hv. destruct Hs as
    [sys sys' ws stop reads j x x' tx Hx Hb Hs|sys ws stop reads j x x' Hx Ht|sys sys' ws stop reads j x c x' Hx Hc Hs|
     sys sys' ws stop reads j x e x' more Hh Hx Hs Hhears|sys ws reads Hdone].
  - destruct (churn_legal _ _ _ _ _ Hok Hs) as [_ Hi']; [done|]. destruct (co_workers _ _ _ Hok j _ Hx) as (q & Hq & Hw). simpl in Hq.
    apply step_began in Hs as (-> & Et & En).
    destruct (begins_ok v p stop j q x _ x' (co_next _ _ _ Hok) Hw Hb) as (-> & Hw' & Hd).
    refine (churn_change (Churn _ _ _ _) v p j Idle x _ v p Idle x' _ Hok Hx Hq Hi' _ Hv _ _ Hw' Hd).
    + rewrite En. apply u64_range.
    + by rewrite Et, list_insert_id.
    + intros k Hk. split; auto.
  - destruct (co_workers _ _ _ Hok j _ Hx) as (q & Hq & Hw). simpl in Hq. destruct (turns_ok v p stop j q x x' Hv Hw Ht) as [Hw' Hd].
    refine (churn_change (Churn _ _ _ _) v p j q x sys v p q x' _ Hok Hx Hq (co_inv _ _ _ Hok) (co_next _ _ _ Hok) Hv _ _ Hw' _).
    + by rewrite list_insert_id.
    + intros k Hk. split; auto.
    + done.
  - destruct (co_workers _ _ _ Hok j _ Hx) as (q & Hq & Hw). simpl in Hq. destruct (calls_ok v p stop j q x c x' Hv Hw Hc) as (-> & Hcok & Hw' & Hd).
    destruct (churn_legal _ _ _ _ _ Hok Hs) as [_ Hi']; [by intros k c' [= <- <-]|]. apply step_called in Hs as ->.
    refine (churn_change (Churn _ _ _ _) v p j Idle x _ _ p (entry c) x' _ Hok Hx Hq Hi' (co_next _ _ _ Hok) _ _ _ Hw' Hd).
    + by apply churner_view_ok_still.
    + done.
    + apply (churner_observe_passive v _ j); [left; by exists c|done].
  - destruct (churn_legal _ _ _ _ _ Hok Hs) as [Hl Hi']; [by intros k c' ->|].
    destruct (step_heard _ _ _ _ Hh Hs) as (q & o & Hq & Hne & Ee & Ethreads & Enext & Hgoes).
    destruct (co_workers _ _ _ Hok j x Hx) as (q1 & Hq1 & Hw). simpl in Hq1. rewrite Hq in Hq1. injection Hq1 as <-.
    assert (checks q = false) as Hc by (destruct x; simpl in Hw; unfold busy in Hw; tauto). specialize (Hgoes Hc). subst e.
    destruct (event_heard_well v p j q o x Hv (in_seen _ _ _ _ _ (co_inv _ _ _ Hok) j) Hw Hne Hl Hgoes) as (y & m & p' & E & Hv' & Hp' & Hw' & Hd).
    rewrite E in Hhears. injection Hhears as <- <-. pose proof (co_next _ _ _ Hok) as Hnext. simpl in Hnext. rewrite <- Enext in Hnext.
    refine (churn_change (Churn _ _ _ _) v p j q x _ _ p' (next_section o) y _ Hok Hx Hq Hi' Hnext Hv' Ethreads _ Hw' (λ _, Hd)).
    apply (churner_observe_passive v _ j); [by right|done].
  - exists v, p. split_and!; [|done|done|done]. by destruct Hok.
Qed.

(** How often a thread takes a step. *)
Definition steps_of (j : nat) (labels : list (option nat)) : Z := size (filter (λ l, l = Some j) labels).
Lemma steps_of_cons j l labels : steps_of j (l :: labels) = (if bool_decide (l = Some j) then 1 else 0) + steps_of j labels.
Proof using Type. unfold steps_of. rewrite filter_cons. case_bool_decide as E; [rewrite decide_True by done|rewrite decide_False by done]; autorewrite with size; lia. Qed.
Lemma churn_run_ok s labels s2 : churn_run scale self s labels s2 → ∀ v p, churn_ok s v p →
  ∃ v' p', churn_ok s2 v' p' ∧ (ch_stop s = true → ch_stop s2 = true) ∧
    ∀ j, (j < n)%nat ∨ ch_stop s = true → steps_of j labels + left_for s2 j ≤ left_for s j.
Proof.
  induction 1 as [s|s l s1 labels s2 Hs Hrun IH]; intros v p Hok; [by exists v, p|].
  destruct (churn_step_ok _ _ _ _ _ Hok Hs) as (v1 & p1 & Hok1 & Hother & Hown & Hstop).
  destruct (IH v1 p1 Hok1) as (v2 & p2 & Hok2 & Hstop2 & Hle). exists v2, p2. split_and!; [done|by auto|].
  intros j Hj. rewrite steps_of_cons. assert ((j < n)%nat ∨ ch_stop s1 = true) as Hj1 by (destruct Hj; auto).
  specialize (Hle j Hj1). case_bool_decide as E; [pose proof (Hown j E Hj); lia|rewrite <- Hother by done; lia].
Qed.

(** ** Nobody waits for ever *)
#[local] Instance finished_dec x : Decision (x = Finished).
Proof. refine (match x with Finished => left eq_refl | _ => right _ end); discriminate. Defined.
Lemma churn_goes_on s v p : churn_ok s v p → churn_joined s ∨ ∃ l s2, churn_step scale self s l s2.
Proof.
  intros Hok. pose proof (co_inv _ _ _ Hok) as Hi. destruct s as [[h w threads] ws stop reads]. simpl in Hi.
  destruct (decide (all_idle threads)) as [Hidle|Hbusy].
  - destruct (decide (Forall (λ x, x = Finished) ws)) as [Hdone|Hmore].
    { destruct stop; [by left|right]. exists None. eexists. apply churn_stops. by apply Forall_take. }
    right. apply not_Forall_Exists in Hmore; [|apply _]. apply Exists_exists in Hmore as (x & [j Hx]%list_elem_of_lookup & Hne).
    destruct (co_workers _ _ _ Hok j x Hx) as (q & Hq & Hw). simpl in Hq.
    assert (q = Idle) as -> by by rewrite (Forall_lookup_1 _ _ _ _ Hidle Hq). exists (Some j).
    assert (∀ tx x', tx = hs_next_transaction h → begins scale stop x tx = Some x' → ∃ s2, churn_step scale self (Churn (System h w threads) ws stop reads) (Some j) s2) as Hbegin.
    { intros tx x' -> Hb. assert (hs_closed h = false) as Hc by (transitivity (v_closed v); [exact (in_closed _ _ _ _ _ Hi)|apply (co_view _ _ _ Hok)]).
      eexists. eapply churn_begins; [exact Hx|exact Hb|]. apply step_begin; [exact Hq|].
      unfold begin, mbind, M_bind, state, update, on_fst, get, modify. simpl. rewrite Hc. reflexivity. }
    assert (∀ x', turns scale stop x = Some x' → ∃ s2, churn_step scale self (Churn (System h w threads) ws stop reads) (Some j) s2) as Hturn
      by (intros x' Ht; eexists; by eapply churn_turns).
    assert (∀ c x', calls scale stop j x = Some (c, x') → ∃ s2, churn_step scale self (Churn (System h w threads) ws stop reads) (Some j) s2) as Hcall
      by (intros c x' Hc; eexists; eapply churn_calls; [exact Hx|exact Hc|by apply step_call]).
    assert (¬ busy Idle) as Hno by by intros [].
    destruct x as [i|i tx|i tx|i tx us|i tx| | |rng|rng|rng name|rng| |err]; simpl in Hw; try (exfalso; tauto); try (by destruct Hne); try done.
    + destruct (Z.ltb_spec i writes) as [Hlt|Hge]; [eapply (Hbegin _ (Asking i _)); [done|]|apply (Hturn Finished)]; simpl; destruct (Z.ltb_spec i writes); done || lia.
    + eapply Hcall. simpl. rewrite target_spec by apply Hw. done.
    + by eapply Hcall.
    + destruct stop; [by apply (Hturn Finished)|]. by eapply Hcall.
    + destruct stop; [by apply (Hturn Finished)|]. by eapply Hbegin.
    + simpl in Hturn. destruct (pick 0 (size (all_roots scale) - 1) rng) as [[k|e] rng']; [destruct (nth_root scale k)|]; by eapply Hturn.
    + by eapply Hcall.
  - right. destruct (somebody_runs threads (in_exclusive _ _ _ _ _ Hi) Hbusy) as (i & q & Hq & Hne & Hrun).
    destruct (lookup_lt_is_Some_2 ws i) as [x Hx].
    { pose proof (co_length _ _ _ Hok) as Hlen. simpl in Hlen. rewrite Hlen. by eapply lookup_lt_Some. }
    destruct (run_section q (h, w)) as [o [h' w']] eqn:E. destruct (churner_hears self i (event_of i q o) x) as [x' more] eqn:Eh.
    exists (Some i). eexists. eapply churn_runs; [apply event_heard|exact Hx|by eapply step_section|exact Eh].
Qed.

(** ** The beginning and the end *)
Lemma churn_start_ok generator seed h (w : W) :
  in_service config h w ∅ ∅ → is_u64 (hs_next_transaction h) → coherent (ever [∅]) (hs_cache h) → hs_wal_sequence h = start →
  let s := churn_start scale generator seed h w in
  churn_ok s (initial_view ∅ false start) (λ _, 0) ∧ (∀ j, (j < n)%nat → left_for s j = 20 * writes + 1).
Proof.
  intros (Hi & Hrel & Hcl & Hpo) Hn Hc Hq s. pose proof writes_eq. assert (0 ≤ writes) by lia.
  assert (∀ j, (j < n)%nat → ch_workers s !! j = Some (Writing 0)) as Hwriters.
  { intros j Hj. unfold s. cbn [churn_start ch_workers]. rewrite lookup_app_l by (by rewrite length_replicate). by apply lookup_replicate. }
  assert (∀ j x, ch_workers s !! j = Some x → sy_threads (ch_system s) !! j = Some Idle) as Hidle.
  { intros j x Hx. apply lookup_replicate. split; [done|]. by eapply lookup_lt_Some. }
  split; [split|].
  - rewrite <- Hcl, <- Hq. by apply inv_initial.
  - done.
  - split; [done|apply mirrors_empty|intros; lia| |].
    + intros B ->%list_elem_of_singleton. exists (λ _, 0). split; [apply mirrors_empty|intros; lia].
    + assert (∀ k, total_commits (λ _, 0) k = 0) as E by (induction k as [|k IH]; [done|cbn [total_commits]; lia]). rewrite E. simpl. lia.
  - unfold s. cbn [churn_start ch_system sy_threads]. by rewrite length_replicate.
  - unfold s. cbn [churn_start ch_workers]. rewrite length_app, length_replicate. lia.
  - intros j x Hx. exists Idle. split; [by eapply Hidle|]. destruct (decide (j < n)%nat) as [Hj|Hj].
    + rewrite Hwriters in Hx by done. injection Hx as <-. by split_and!.
    + unfold s in Hx. cbn [churn_start ch_workers] in Hx. rewrite lookup_app_r, length_replicate in Hx by (rewrite length_replicate; lia).
      destruct (j - n)%nat as [|k]; simpl in Hx.
      * injection Hx as <-. split; [lia|done].
      * rewrite list_lookup_fmap in Hx. apply fmap_Some in Hx as (r & _ & ->). split; [lia|done].
  - intros j Hj. unfold left_for. rewrite Hwriters by done. rewrite (Hidle j (Writing 0)) by by apply Hwriters. simpl. lia.
Qed.
Lemma joined_churn s v p :
  churn_ok s v p → churn_joined s →
  ∃ A pending, in_service config (sy_heap (ch_system s)) (sy_store (ch_system s)) A pending ∧ mirrors n (λ _, writes) A.
Proof.
  intros Hok (_ & Hdone & Hidle). pose proof (co_inv _ _ _ Hok) as Hi. pose proof (co_view _ _ _ Hok) as Hv.
  destruct (in_shared _ _ _ _ _ Hi) as (pending & _ & Hfree & _).
  destruct Hfree as [Hinv _]; [intros i q Hq; by rewrite (Forall_lookup_1 _ _ _ _ Hidle Hq)|].
  exists (v_map v), pending. split.
  - split_and!; [exact Hinv|apply Hi| |apply Hi]. rewrite (in_closed _ _ _ _ _ Hi). apply Hv.
  - assert (∀ w, (w < n)%nat → p w = writes) as Hp.
    { intros w Hw. destruct (lookup_lt_is_Some_2 (ch_workers s) w) as [x Hx]; [pose proof (co_writers _ _ _ Hok); lia|].
      destruct (co_workers _ _ _ Hok w x Hx) as (q & _ & Hw'). rewrite (Forall_lookup_1 _ _ _ _ Hdone Hx) in Hw'. by apply Hw'. }
    destruct (vo_map _ _ Hv) as [Hr Hn]. split; [|exact Hn]. intros w r Hw Hr'. by rewrite Hr, Hp.
Qed.

(** ** What is put into the cache *)
Lemma churn_run_counted s labels s2 k :
  churn_run scale self s labels s2 → counted 8192 k (hs_cache (sy_heap (ch_system s))) → k + size labels < u64_bound →
  counted 8192 (k + size labels) (hs_cache (sy_heap (ch_system s2))).
Proof.
  intros Hrun. revert k. induction Hrun as [s|s l s1 labels s2 Hs Hrun IH]; intros k Hc Hk; [by rewrite Z.add_0_r|].
  autorewrite with size in *. rewrite Z.add_assoc. pose proof (size_nonneg labels). apply IH; [|lia].
  pose proof (counted_more _ k (k + 1) _ Hc ltac:(lia)).
  destruct Hs as [sys sys' ws stop reads j x x' tx Hx Hb Hs|sys ws stop reads j x x' Hx Ht|sys sys' ws stop reads j x c x' Hx Hc' Hs|
    sys sys' ws stop reads j x e x' more Hh Hx Hs Hhears|sys ws reads Hdone]; simpl in *; try done; by eapply step_counted; [|lia|].
Qed.

(** ** The last checks *)
Lemma final_root A (w : nat) r : mirrors n (λ _, writes) A → (w < n)%nat → 0 ≤ r < 8 →
  A !! root_name (Z.of_nat w) r = Some (ARoot (25 * scale) value_type_name (stored (written_value (Z.of_nat w) (writes - 8 + r)))).
Proof.
  intros Hm Hw Hr. rewrite (mi_root _ _ _ Hm) by done. pose proof writes_eq as Ew.
  assert (commits_of r writes = 25 * scale) as ->.
  { unfold commits_of. symmetry. apply (Z.div_unique _ _ _ (7 - r)); lia. }
  unfold latest_root, latest_value. destruct (Z.eqb_spec (25 * scale) 0); [lia|]. do 4 f_equal. lia.
Qed.
Lemma verify_root_run h (w : W) A pending t (j : nat) r k :
  in_service config h w A pending → mirrors n (λ _, writes) A → (j < n)%nat → 0 ≤ r < 8 →
  tx_ok t → tr_active t = true → root_name (Z.of_nat j) r ∉ wr_name <$> tr_roots t →
  counted 8192 k (hs_cache h) → k + 1 < u64_bound →
  let name := root_name (Z.of_nat j) r in
  ∃ t' c w', verify_root scale name r (t, (h, w)) = (Ok tt, (t', (set_cache c h, w'))) ∧
    in_service config (set_cache c h) w' A pending ∧ tx_ok t' ∧ tr_active t' = true ∧
    wr_name <$> tr_roots t' = (wr_name <$> tr_roots t) ++ [name] ∧
    counted 8192 (k + 1) c ∧ unharmed name (hs_cache h) c ∧ ∃ ver payload, holds c name ver payload ∧ 1024 ≤ size payload.
Proof.
  intros (Hi & Hrel & Hcl & Hpo) Hm Hj Hr Ht Ha Hnew Hc Hk name. pose proof (final_root A j r Hm Hj Hr) as EA. fold name in EA.
  pose proof writes_eq as Ew. set (v := written_value (Z.of_nat j) (writes - 8 + r)) in *.
  assert (wf_value v) as Hwf by (apply written_value_wf; unfold is_i64; lia).
  destruct (root_new config t h w A pending name Hi Ht Ha ltac:(done) Hnew) as (res & t1 & c & w' & E & Hi' & _ & Ht1 & Hres & Hok).
  destruct (Hok Hrel) as [Hrel' [token ->]]; [eexists; by eapply root_value_stored|].
  destruct Hres as (v' & loaded & Ev & El & -> & ->). rewrite (root_value_stored A name _ v EA Hwf) in Ev. injection Ev as <-.
  assert (loaded = LoadedRoot (25 * scale) (Some (stored v)) true) as ->.
  { unfold load_result in El. rewrite EA in El. cbn [a_type] in El. rewrite bool_decide_true in El by done. by injection El as <-. }
  assert (load name (h, w) = (Ok (LoadedRoot (25 * scale) (Some (stored v)) true), (set_cache c h, w'))) as Eload.
  { revert E. unfold root. unfold mbind at 1, M_bind at 1, on_fst at 1, get at 1. rewrite Ha. cbn [negb]. rewrite bool_decide_false by done.
    rewrite (proj2 (by_name_None t name Ht) Hnew). unfold mbind at 1, M_bind at 1, on_snd at 1.
    destruct (load name (h, w)) as [[l1|e] [h1 w1]] eqn:E1; [|done]. unfold mbind at 1, M_bind at 1, lift_result.
    destruct (decode_root l1) as [v1|e]; [|done]. unfold mbind, M_bind, on_fst, modify, mret, M_ret. intros [= Eadd Eh Ew1].
    rewrite <- Eh, <- Ew1. do 2 f_equal. destruct (load_spec config h w A pending name Hi) as (r1 & c1 & w2 & E2 & _ & _ & Hr1 & _).
    rewrite E1 in E2. injection E2 as <- _ _. destruct Hr1 as [Hr1|[? [=]]]. rewrite El in Hr1. by injection Hr1. }
  destruct (load_counted 8192 k name h w _ _ _ Hc Hk Eload) as [Hc' Hu].
  set (i := length (tr_roots t)). set (rec := WorkingRoot name (25 * scale) false (node_bind (Some (Bound (tr_self t) (size (tr_roots t) + 1))) (fresh v))).
  set (t1 := add_root name (LoadedRoot (25 * scale) (Some (stored v)) true) v t) in *.
  assert (tr_roots t1 = tr_roots t ++ [rec]) as Er by done.
  assert (tr_roots t1 !! i = Some rec) as Hrec by (rewrite Er; by apply list_lookup_middle).
  assert (tr_active t1 = true) as Ha1 by done.
  assert (size (tr_roots t) + 1 = Z.of_nat i + 1) as Etok by done.
  destruct (edit_root_spec t1 i rec e_as_object Ht1 Ha1 Hrec) as (r' & Em & Ec & Enm & _).
  pose proof (mutate_ok t1 i rec (run_edit e_as_object) Ht1 Ha1 Hrec (run_edit_observed e_as_object)) as Hok2.
  change (run_edit e_as_object) with as_object in Em, Hok2. rewrite Em in Hok2.
  exists (set_working (<[i := r']> (tr_roots t1)) t1), c, w'. split_and!; [|by split_and!|done|done| |exact Hc'|exact Hu|].
  - assert (object_root name (t, (h, w)) = (Ok (Z.of_nat i + 1), (set_working (<[i := r']> (tr_roots t1)) t1, (set_cache c h, w')))) as Eo.
    { unfold object_root. m_run E. rewrite Etok. unfold mbind, M_bind, on_fst, modify. by rewrite Em. }
    unfold verify_root. m_run Eo.
    unfold contents, mbind, M_bind, on_fst, get, mret, M_ret. rewrite data_of_token. cbn [tr_roots set_working].
    rewrite list_lookup_insert_eq by (by eapply lookup_lt_Some). cbn [fmap option_fmap option_map]. rewrite Ec.
    unfold rec. cbn [wr_data]. rewrite content_bind, content_fresh. unfold v, written_value. generalize (churn_payload (Z.of_nat j)). intros s.
    match goal with |- context [entry_at "seq" ?m] => change (entry_at "seq" m) with (Ok (VInteger (writes - 8 + r))) end.
    unfold lift_result. cbn [as_integer]. unfold roots_per_writer, u32. rewrite (Z.mod_small (writes - 8)), Z.mod_small by lia.
    by rewrite Z.eqb_refl.
  - cbn [tr_roots set_working]. rewrite list_fmap_insert, Enm, Er. rewrite fmap_app. cbn [fmap list_fmap wr_name rec].
    apply list_insert_id. rewrite lookup_app_r, length_fmap by (by rewrite length_fmap). by rewrite Nat.sub_diag.
  - pose proof (readable_inv _ _ _ _ _ Hi name) as Hread. rewrite EA in Hread.
    inversion Hread as [record a _ Erec|]. symmetry in Erec. pose proof (written_size (Z.of_nat j) (writes - 8 + r)) as Hsize. fold v in Hsize.
    destruct (load_caches name h w _ _ _ record Erec (ct_ok _ _ _ Hc) ltac:(rewrite (ct_limit _ _ _ Hc); done) Eload) as (_ & _ & _ & bytes & Eb & Hh).
    { intros bytes Eb. change (Some (stored v) = Some bytes) in Eb. assert (bytes = stored v) as -> by congruence.
      rewrite (ct_limit _ _ _ Hc). lia. }
    assert (bytes = stored v) as -> by congruence. by exists (rr_version record), (stored v).
Qed.
(** All of them, one after the other. *)
Lemma verify_roots_run (l : list (Z * Z)) : ∀ h (w : W) A pending t k,
  in_service config h w A pending → mirrors n (λ _, writes) A → tx_ok t → tr_active t = true →
  NoDup l → (∀ e, e ∈ l → 0 ≤ e.1 < writer_count scale ∧ 0 ≤ e.2 < 8 ∧ root_name e.1 e.2 ∉ wr_name <$> tr_roots t) →
  counted 8192 k (hs_cache h) → k + size l < u64_bound →
  ∃ t' c w', verify_roots scale l (t, (h, w)) = (Ok tt, (t', (set_cache c h, w'))) ∧
    in_service config (set_cache c h) w' A pending ∧ counted 8192 (k + size l) c ∧
    (c_evictions c = 0 → c_evictions (hs_cache h) = 0 ∧
      (∀ e, e ∈ l → ∃ ver payload, holds c (root_name e.1 e.2) ver payload ∧ 1024 ≤ size payload) ∧
      ∀ name ver payload, (∀ e, e ∈ l → name ≠ root_name e.1 e.2) → holds (hs_cache h) name ver payload → holds c name ver payload).
Proof.
  induction l as [|[j r] l IH]; intros h w A pending t k Hs Hm Ht Ha Hd Hl Hc Hk.
  { exists t, (hs_cache h), w. assert (set_cache (hs_cache h) h = h) as -> by by destruct h. split_and!; [done|done| |].
    - eapply counted_more; [done|]. unfold size. simpl. lia.
    - intros Hz. split_and!; [done|by intros ? ?%not_elem_of_nil|done]. }
  apply NoDup_cons in Hd as [Hnot Hd]. destruct (Hl (j, r) ltac:(by left)) as (Hj & Hr & Hnew). cbn [fst snd] in Hj, Hr, Hnew.
  autorewrite with size in Hk. pose proof (size_nonneg l). pose proof writer_count_eq as En.
  assert (Z.of_nat (Z.to_nat j) = j) as Ej by lia.
  assert (verify_roots scale ((j, r) :: l) (t, (h, w)) = (_ ← verify_root scale (root_name j r) r; verify_roots scale l) (t, (h, w))) as Estep.
  { cbn [verify_roots]. unfold roots_per_writer, u32. rewrite (Z.mod_small (j * 8)) by lia. rewrite Z.mod_small by lia.
    rewrite nth_root_spec by lia. done. }
  destruct (verify_root_run h w A pending t (Z.to_nat j) r k Hs Hm ltac:(lia) Hr Ht Ha) as
    (t1 & c1 & w1 & E1 & Hs1 & Ht1 & Ha1 & Enames & Hc1 & Hu1 & ver1 & payload1 & Hh1 & Hsize1); [by rewrite Ej|done|lia|].
  rewrite Ej in *. destruct (IH (set_cache c1 h) w1 A pending t1 (k + 1) Hs1 Hm Ht1 Ha1 Hd) as (t2 & c2 & w2 & E2 & Hs2 & Hc2 & Hkept);
    [|exact Hc1|lia|].
  { intros [j' r'] Hx. destruct (Hl (j', r') ltac:(by right)) as (Hj' & Hr' & Hnew'). split; [done|split; [done|]]. cbn [fst snd] in *.
    rewrite Enames. intros [?|[<- <-]%list_elem_of_singleton%root_name_inj]%elem_of_app; done. }
  exists t2, c2, w2. rewrite Estep. m_run E1. split_and!; [done|done| |].
  - eapply counted_more; [done|]. autorewrite with size. lia.
  - intros Hz. destruct (Hkept Hz) as (Hz1 & Hall & Hrest). cbn [hs_cache set_cache] in Hz1, Hrest. destruct (Hu1 Hz1) as [Hz2 Hother].
    split_and!; [done| |].
    + intros e [->|Hx]%elem_of_cons; [|by apply Hall]. exists ver1, payload1. split; [|done]. apply Hrest; [|done].
      intros [j' r'] Hx. cbn [fst snd]. intros [<- <-]%root_name_inj; [done|done|]. by destruct (Hl (j', r') ltac:(by right)) as (_ & ? & _).
    + intros name ver payload Hne Hh. apply Hrest; [intros e Hx; apply Hne; by right|]. apply Hother; [|done]. apply (Hne (j, r)). by left.
Qed.
Lemma root_indices_elem e : e ∈ root_indices scale ↔ 0 ≤ e.1 < writer_count scale ∧ 0 ≤ e.2 < 8.
Proof.
  unfold root_indices, roots_per_writer. rewrite list_elem_of_bind. setoid_rewrite list_elem_of_bind. setoid_rewrite list_elem_of_singleton.
  setoid_rewrite indices_elem. destruct e as [a b]. cbn [fst snd]. split.
  - intros (j & (r & [= -> ->] & Hr) & Hj). done.
  - intros [Hj Hr]. exists a. split; [|done]. by exists b.
Qed.
Lemma root_indices_NoDup : NoDup (root_indices scale).
Proof.
  unfold root_indices. apply NoDup_bind; [|intros j Hj|apply indices_NoDup].
  - intros j1 j2 e _ _. rewrite !list_elem_of_bind. setoid_rewrite list_elem_of_singleton.
    intros (r1 & -> & _) (r2 & [= -> _] & _). done.
  - apply NoDup_bind; [|intros r Hr; apply NoDup_singleton|apply indices_NoDup].
    intros r1 r2 e _ _ ->%list_elem_of_singleton. intros [= ->]%list_elem_of_singleton. done.
Qed.
Lemma root_indices_size : size (root_indices scale) = 32 * scale.
Proof.
  unfold root_indices, size. assert (∀ l : list Z, length (j ← l; r ← indices roots_per_writer; [(j, r)]) = (8 * length l)%nat) as ->.
  { induction l as [|j l IH]; [done|]. rewrite bind_cons, length_app, IH.
    change (length (r ← indices roots_per_writer; [(j, r)])) with 8%nat. simpl length. lia. }
  rewrite indices_length, writer_count_eq. lia.
Qed.
(** Roots that are all in the cache do not fit into it. *)
Lemma some_eviction k c :
  counted 8192 k c → (∀ e, e ∈ root_indices scale → ∃ ver payload, holds c (root_name e.1 e.2) ver payload ∧ 1024 ≤ size payload) → False.
Proof.
  intros Hc Hall. pose proof (held_bytes 1024 ((λ e, root_name e.1 e.2) <$> root_indices scale) (c_lru c)) as Hb.
  assert (size ((λ e, root_name e.1 e.2) <$> root_indices scale) = 32 * scale) as Es.
  { pose proof root_indices_size as Es. unfold size in *. by rewrite length_fmap. }
  rewrite Es in Hb. rewrite <- (ok_bytes _ (ct_ok _ _ _ Hc)) in Hb. pose proof (ok_bound _ (ct_ok _ _ _ Hc)) as Hle.
  rewrite (ct_limit _ _ _ Hc) in Hle. assert (1024 * (32 * scale) ≤ c_bytes c); [|lia]. apply Hb.
  - apply NoDup_fmap_2_strong; [|apply root_indices_NoDup]. intros [j r] [j' r'] Hx%root_indices_elem Hy%root_indices_elem E.
    cbn [fst snd] in *.
    destruct Hx as [_ Hr], Hy as [_ Hr']. by destruct (root_name_inj _ _ _ _ Hr Hr' E) as [-> ->].
  - intros name (e & -> & He)%list_elem_of_fmap. destruct (Hall e He) as (ver & payload & (it & en & Hin & ->) & Hs).
    by exists it, (Entry (root_name e.1 e.2) ver payload).
Qed.
Ltac rule_out := match goal with q : section, Ht : thread_ok _ _ _ _ _ |- _ =>
  destruct q; simpl in *; try lia; try done; try congruence;
  first [destruct Ht as [Ht _]; congruence|destruct Ht as (? & Ht & _); congruence] end.
(** A thread that is no writer is never far from its end when the flag is set. *)
Lemma left_small s v p j : churn_ok s v p → (n ≤ j)%nat → left_for s j ≤ 6.
Proof.
  intros Hok Hj. unfold left_for. destruct (ch_workers s !! j) as [x|] eqn:Ex; [|lia].
  destruct (co_workers _ _ _ Hok j x Ex) as (q & Hq & Hw). rewrite Hq. pose proof (in_threads _ _ _ _ _ (co_inv _ _ _ Hok) j q Hq) as Ht.
  destruct x as [i|i tx|i tx|i tx us|i tx| | |rng|rng|rng name|rng| |err]; simpl in Hw; try lia; try done; simpl.
  - destruct Hw as (_ & [_ Hc] & Hcall & Happ). rule_out.
  - destruct Hw as (_ & [_ Hc] & Happ & name & _ & Hcall). rule_out.
Qed.
Lemma churn_finish_run verifier s v p k :
  churn_ok s v p → churn_joined s → counted 8192 k (hs_cache (sy_heap (ch_system s))) → k + 32 * scale < u64_bound →
  ∃ info y, churn_finish scale verifier (ch_reads s) (sy_heap (ch_system s), sy_store (ch_system s)) = (Ok (churn_line (ch_reads s) info), y) ∧
    ci_bytes info ≤ 8192.
Proof.
  intros Hok Hj Hc Hk. destruct (joined_churn s v p Hok Hj) as (A & pending & Hs & Hm). destruct (ch_system s) as [h w threads]. cbn [sy_heap sy_store] in *.
  pose proof writes_eq as Ew. pose proof writer_count_eq as En.
  assert (saveable A) as Hsave by (eapply churner_mirrors_saveable; [exact Hm|lia|intros; lia]).
  destruct (checkpoint_in_service config h w A pending Hs Hsave) as (h1 & w1 & E1 & Hs1 & _).
  assert (counted 8192 k (hs_cache h1)) as Hc1.
  { pose proof (framed_checkpoint hs_cache ltac:(done) ltac:(done) (h, w)) as Hf. destruct Hs as (_ & _ & Hcl & _).
    revert E1. unfold checkpoint. unfold mbind, M_bind, state, on_fst, get. rewrite Hcl. intros E1. rewrite E1 in Hf. cbn [fst snd] in Hf. by rewrite Hf. }
  destruct Hs1 as (Hi1 & Hrel1 & Hcl1 & Hpo1). destruct (integrity_spec config h1 w1 A ∅ Hi1) as (report & w2 & E2 & Hsame & _ & Hreport).
  destruct (Hreport Hrel1) as [Hrep Hrel2].
  assert (in_service config h1 w2 A ∅) as Hs2 by (split_and!; [by eapply heap_inv_files; [apply Hsame..|]|done..]).
  destruct (verify_roots_run (root_indices scale) (begun h1) w2 A ∅ (new_transaction verifier h1) k) as (t & c & w3 & E3 & Hs3 & Hc3 & Hev);
    [by apply in_service_begun|done|apply new_transaction_ok|done|apply root_indices_NoDup| |done|by rewrite root_indices_size|].
  { intros e He%root_indices_elem. destruct He as [Hej Her]. split; [done|split; [done|]]. apply not_elem_of_nil. }
  assert (churn_verify scale verifier (h, w) = (Ok tt, (set_cache c (begun h1), w3))) as Ev.
  { unfold churn_verify. m_run E1. m_run E2. rewrite Hrep. unfold check at 1. unfold mbind at 1, M_bind at 1, mret at 1, M_ret at 1.
    rewrite (in_session_spec config verifier _ _ _ _ _ Hs2), E3. done. }
  assert (0 < c_evictions c) as Hpos.
  { pose proof (ct_evictions _ _ _ Hc3). destruct (decide (c_evictions c = 0)) as [Hz|]; [|lia]. destruct (Hev Hz) as (_ & Hall & _).
    by destruct (some_eviction _ c Hc3 Hall). }
  pose proof (ok_bound _ (ct_ok _ _ _ Hc3)) as Hbytes. rewrite (ct_limit _ _ _ Hc3) in Hbytes.
  exists (cache_info_of c), (set_cache c (begun h1), w3). split; [|done]. unfold churn_finish. m_run Ev.
  unfold mbind at 1, M_bind at 1, state, on_fst, get. unfold cache. cbn [hs_cache set_cache cache_info_of ci_bytes ci_evictions].
  destruct (Z.leb_spec (c_bytes c) (8 * 1024)); [|lia]. destruct (Z.ltb_spec 0 (c_evictions c)); [|lia]. done.
Qed.
End threads.

(** C16: Threads that write, read and checkpoint all at once lose nothing, read nothing torn, and end.
    On a heap that was opened on empty reliable storage, for every scale up to 2^16, every generator
    that draws from the ranges it is asked for, and whatever the locks and the scheduler make of
    the threads: no thread ever stops with an exception (no commit conflicts, no reader finds
    a torn root); no writer takes more than 20 steps for each of its writes, and no other thread more
    than 6 after the flag is set; as long as not all threads are joined, one of them can go on; and once all are
    joined, in an execution of less than 2^63 steps, the last checks pass: the check of integrity,
    every root with the value its writer wrote last, the cache within its budget, and entries evicted
    from it. *)
Theorem churn_passes {R W : Type} `{random_laws R} `{storage_reliable W} (generator : Z → R) seed verifier self scale directory (w : W) :
  let config := churn_config directory in
  directory ≠ "" → 1 ≤ scale ≤ 2 ^ 16 →
  reliable w → file_of w (wal_path config) = None → file_of w (snap_path config) = None →
  ∃ h0 w0, heap_open config w = (Ok h0, w0) ∧
    ∀ labels s, churn_run scale self (churn_start scale generator seed h0 w0) labels s →
      (∀ j e, ch_workers s !! j ≠ Some (Broken e)) ∧
      (∀ j, (j < Z.to_nat (writer_count scale))%nat → steps_of j labels ≤ 20 * writes_per_root scale + 1) ∧
      (churn_joined s ∨ ∃ l s', churn_step scale self s l s') ∧
      (ch_stop s = true → ∀ more s', churn_run scale self s more s' → ∀ j, (Z.to_nat (writer_count scale) ≤ j)%nat → steps_of j more ≤ 6) ∧
      (churn_joined s → size labels < 2 ^ 63 →
         ∃ info x, churn_finish scale verifier (ch_reads s) (sy_heap (ch_system s), sy_store (ch_system s)) = (Ok (churn_line (ch_reads s) info), x) ∧
           ci_bytes info ≤ 8192).
Proof.
  intros config Hd Hscale Hrel Hw Hsn.
  destruct (fresh_in_service config w Hd ltac:(done) Hw Hsn Hrel) as (h0 & w0 & E & Hs & Hq & Hn & Hcache).
  exists h0, w0. split; [done|]. intros labels s Hrun.
  pose proof writes_eq scale Hscale as Ew. pose proof writer_count_eq scale Hscale as En.
  destruct (churn_start_ok config scale 0 Hscale generator seed h0 w0 Hs) as [Hok Hleft];
    [by rewrite Hn|rewrite Hcache; by apply new_cache_coherent|done|].
  destruct (churn_run_ok config scale self 0 Hscale ltac:(done) _ _ _ Hrun _ _ Hok) as (v & p & Hok' & _ & Hsteps). split_and!.
  - intros j e Hj. by destruct (co_workers _ _ _ _ _ _ Hok' j _ Hj) as (q & _ & []).
  - intros j Hj. pose proof (Hsteps j (or_introl Hj)). pose proof (left_nonneg _ _ _ _ _ _ j Hok'). rewrite (Hleft j Hj) in *. lia.
  - by eapply churn_goes_on.
  - intros Hstop more s' Hmore j Hj. destruct (churn_run_ok config scale self 0 Hscale ltac:(done) _ _ _ Hmore _ _ Hok') as (v2 & p2 & Hok2 & _ & Hmore').
    pose proof (Hmore' j (or_intror Hstop)). pose proof (left_nonneg _ _ _ _ _ _ j Hok2). pose proof (left_small _ _ _ _ _ _ j Hok' Hj). lia.
  - intros Hj Hl. pose proof (churn_run_counted scale self _ _ _ 0 Hrun) as Hc. pose proof (size_nonneg labels). unfold u64_bound in *.
    eapply (churn_finish_run config scale 0 Hscale verifier s v p _ Hok' Hj (Hc ltac:(simpl; rewrite Hcache; by apply counted_new) ltac:(lia))).
    unfold u64_bound. lia.
Qed.
Lemma churn_passes_witness :
  ∃ h0 w0, heap_open (churn_config "db") Disk.empty = (Ok h0, w0) ∧
    ∀ labels s, churn_run (R:=Z) 1 Z.of_nat (churn_start 1 (λ z, z) 5 h0 w0) labels s →
      (∀ j e, ch_workers s !! j ≠ Some (Broken e)) ∧
      (∀ j, (j < 4)%nat → steps_of j labels ≤ 4001) ∧
      (churn_joined s ∨ ∃ l s', churn_step 1 Z.of_nat s l s') ∧
      (ch_stop s = true → ∀ more s', churn_run 1 Z.of_nat s more s' → ∀ j, (4 ≤ j)%nat → steps_of j more ≤ 6) ∧
      (churn_joined s → size labels < 2 ^ 63 →
         ∃ info x, churn_finish 1 9 (ch_reads s) (sy_heap (ch_system s), sy_store (ch_system s)) = (Ok (churn_line (ch_reads s) info), x) ∧
           ci_bytes info ≤ 8192).
Proof. apply (churn_passes (R:=Z) (λ z, z) 5 9 Z.of_nat 1 "db" Disk.empty); try reflexivity; try discriminate; by split. Defined.
