(* ===== verification/Programs.v ===== *)
(** * The small programs: [examples/basic.cpp] and the front ends under [applications/].

    The front ends hand their arguments and the standard streams to the modules; the example keeps a
    tree of data in a heap, opens the heap again and prints a part of the tree. *)
From S2P Require Import Prelude.
From S2P Require Import OrderedMap.
From S2P Require Import Value.
From S2P Require Import Observer.
From S2P Require Import ObserverSpec.
From S2P Require Import Codec.
From S2P Require Import Storage.
From S2P Require Import Journal.
From S2P Require Import Recovery.
From S2P Require Import Heap.
From S2P Require Import HeapSpec.
From S2P Require Import Transaction.
From S2P Require Import TransactionSpec.
From S2P Require Import Console.
From S2P Require Import Cli.
From S2P Require Import SqlShell.
From S2P Require Import Sessions.
From S2P Require Import Credentials.
From S2P Require Import CredentialsSpec.
From S2P Require Import Fuzz.
From S2P Require Import FuzzTheorems.
From S2P Require Import Fault.
From S2P Require Import FaultTheorems.
From S2P Require Import Stress.
From S2P Require Import StressTheorems.
#[local] Open Scope Z_scope.

(** ** The front ends: [argv] with the name of the program first *)
Section front_ends.
Context {W : Type} `{storage W} (self : Z).
Definition cli_main (argv : list string) : M (console * W) Z := cli_execute self (tail argv).
Definition sql_main (argv : list string) : M (console * W) Z := shell_execute self (tail argv).
Definition browser_main : M (console * W) Z := _ ← put_line "opheap-browser: not yet implemented"; mret 0.
End front_ends.

(** ** The example *)
Section basic.
Context {W : Type} `{storage W} `{!filesystem W} (writer reader : Z).
Definition basic_path : string := path_join (temp_directory_path (W:=W)) "opheap-basic".
Definition basic_write : session (W:=W) unit :=
  state ← object_root "root";
  _ ← edit_root state (e_key "users" (e_key "arthur" (e_key "age" (e_integer 42))));
  _ ← edit_root state (e_key "users" (e_key "arthur" (e_key "name" (e_string "Arthur"))));
  _ ← edit_root state (e_key "users" (e_key "arthur" (e_key "roles" (e_push true (VString "admin")))));
  transaction_commit.
Definition basic_read : session (W:=W) string :=
  token ← object_root "root";
  state ← contents token;
  lift_result (users ← entry_at "users" (object_content state);
               arthur ← at_const "arthur" users;
               name ← at_const "name" arthur;
               as_string_const name).
Definition basic_main : M (console * W) Z :=
  _ ← on_snd (remove_all basic_path);
  h ← on_snd (heap_open (default_config basic_path));
  _ ← on_snd (with_local h (_ ← in_session writer basic_write; close));
  reopened ← on_snd (heap_open (default_config basic_path));
  name ← on_snd (with_local reopened (in_session reader basic_read));
  _ ← put_line name;
  mret 0.
End basic.

(** ** What the example prints *)
Definition basic_content : value :=
  VObject [("users", VObject [("arthur", VObject [("age", VInteger 42); ("name", VString "Arthur"); ("roles", VArray [VString "admin"])])])].
Section basic_runs.
Context {W : Type} `{HF : filesystem_laws W} (writer reader : Z).
Implicit Types (h : heap_state) (w : W) (A : amap).
Lemma basic_write_run config h w :
  in_service config h w ∅ ∅ → hs_wal_sequence h = 0 → hs_next_transaction h = 1 →
  ∃ h' w', in_session writer basic_write (h, w) = (Ok tt, (h', w')) ∧ in_service config h' w' (with_root ∅ "root" basic_content) ∅.
Proof.
  intros Hs Hq Hn. assert (root_value ∅ "root" = Ok VNull) as Hv by (by apply root_value_absent).
  destruct (root_in_service config writer h w ∅ ∅ "root" VNull Hs ltac:(done) Hv) as (k & w1 & E1 & Hs1).
  destruct (object_root_loaded writer h ∅ "root" VNull _ _ E1) as (t1 & r1 & E2 & Hr1).
  destruct (edit_edited writer _ _ _ _ _ _ _ (e_key "users" (e_key "arthur" (e_key "age" (e_integer 42)))) (set_cache k (begun h), w1) Hr1) as (t2 & r2 & E3 & Hr2).
  destruct (edit_edited writer _ _ _ _ _ _ _ (e_key "users" (e_key "arthur" (e_key "name" (e_string "Arthur")))) (set_cache k (begun h), w1) Hr2) as (t3 & r3 & E4 & Hr3).
  destruct (edit_edited writer _ _ _ _ _ _ _ (e_key "users" (e_key "arthur" (e_key "roles" (e_push true (VString "admin"))))) (set_cache k (begun h), w1) Hr3) as (t4 & r4 & E5 & Hr4).
  match type of Hr4 with edited _ _ _ _ _ _ _ ?v => change v with basic_content in Hr4 end.
  assert (storable h ∅ ∅ "root" basic_content) as Hst.
  { apply storable_first; [|by apply Z.leb_le|by apply Z.leb_le|rewrite Hq; done|rewrite Hn; done].
    repeat first [done|constructor]. }
  destruct (edited_commit config writer h w1 ∅ ∅ "root" VNull t4 r4 basic_content k Hr4 Hs1 Hst) as (t' & h' & w' & A' & p' & E6 & Hs' & Hp & HA & _).
  assert (p' = ∅) as -> by by destruct Hp. assert (A' = with_root ∅ "root" basic_content) as -> by by destruct HA as [[_ ?]|].
  exists h', w'. split; [|done]. rewrite (in_session_spec config writer _ _ _ _ _ Hs). unfold basic_write.
  m_run E2. m_run E3. m_run E4. m_run E5. by rewrite E6.
Qed.
Lemma basic_read_run config h w p :
  in_service config h w (with_root ∅ "root" basic_content) p →
  ∃ s, in_session reader basic_read (h, w) = (Ok "Arthur", s).
Proof.
  intros Hs. assert (root_value (with_root ∅ "root" basic_content) "root" = Ok basic_content) as Hv.
  { apply root_value_with. repeat first [done|constructor]. }
  destruct (root_in_service config reader h w _ p "root" basic_content Hs ltac:(done) Hv) as (k & w1 & E1 & Hs1).
  destruct (object_root_loaded reader h _ "root" basic_content _ _ E1) as (t1 & r1 & E2 & Hr1).
  exists (set_cache k (begun h), w1). rewrite (in_session_spec config reader _ _ _ _ _ Hs). unfold basic_read.
  m_run E2. m_run (contents_edited _ _ _ _ _ _ _ _ (set_cache k (begun h), w1) Hr1). done.
Qed.
(** Whatever the directory held before, the example prints the name it has stored. *)
Theorem basic_prints c (w : W) :
  reliable w → ∃ w', basic_main writer reader (c, w) = (Ok 0, (Console (cn_input c) (cn_output c +:+ ("Arthur" +:+ end_of_line)) (cn_error c), w')).
Proof.
  intros Hrel. set (config := default_config (basic_path (W:=W))).
  assert (basic_path (W:=W) ≠ "") as Hd by (unfold basic_path, path_join; by destruct (temp_directory_path (W:=W))).
  destruct (remove_all_law (basic_path (W:=W)) w Hrel) as (w1 & E1 & Hrel1 & Hnone).
  destruct (fresh_in_service config w1 Hd ltac:(done) (Hnone _) (Hnone _) Hrel1) as (h & w2 & E2 & Hs & Hq & Hn & _).
  destruct (basic_write_run config h w2 Hs Hq Hn) as (h3 & w3 & E3 & Hs3).
  destruct (reopened_in_service config h3 w3 _ ∅ Hd ltac:(done) Hs3) as (h4 & w4 & E4 & Hs4 & _).
  destruct (basic_read_run config h4 w4 ∅ Hs4) as ([h5 w5] & E5). exists w5. unfold basic_main, mbind, M_bind, on_snd. fold config.
  rewrite E1, E2. unfold with_local at 1. rewrite E3. unfold close, update, on_fst, modify. rewrite E4. unfold with_local. rewrite E5. done.
Qed.
End basic_runs.
